(* ===== verification/_CoqProject ===== *)
-Q . S2P
Prelude.v
Types.v
Wire.v
EngineSpec.v
Codecs.v
Shard.v
Iter.v
Iterators.v
Materialise.v
BTree.v
Memory.v
Dump.v
Checkpoint.v
Mvcc.v
MvccSpec.v
MvccCompact.v
MvccConc.v
MvccConcProps.v
MvccLife.v
Oshodi.v
Badger.v
Pebble.v
PebbleSnap.v
PebbleIter.v
PebbleEngine.v
EngineLife.v
Fsm.v
Occ.v
Direct.v
Failures.v
Loop.v
Reopen.v
Raft.v
Batching.v
Sharded.v
ShardedSpec.v
Buffers.v
BuffersProps.v
ShardedConc.v
ShardedConcSpec.v
ShardedConcProps.v
Scenarios.v
EntryPool.v
EntryPoolOrder.v
Snapshot.v
SnapshotEngines.v
Replay.v
ShardedScenarios.v
Tx.v
ShardedConcScenarios.v
Watch.v
Telemetry.v
Stages.v
Batcher.v
Admission.v
Startup.v
Commands.v
Node.v
NodeSpec.v
NodeProps.v
NodeScenarios.v
NodeApi.v
Accounts.v
LabStats.v
Fmt.v
LabReport.v
Lab.v
LabMain.v
LabProps.v
LabWindow.v
LabRun.v
NodeSharded.v
NodeShardedSpec.v
NodeMvcc.v
NodeShardedScenarios.v
