(* ===== verification/Prelude.v ===== *)
(** * A verified model of DPX

    DPX is an embedded transactional key-value store: optimistic transactions
    over a storage engine, committed by a single-node proposer, by a sharded one,
    or through Raft. This library models its Go sources (src/ in the repository)
    as executable definitions and proves what makes them correct. This first file
    holds the notations, tactics and generic lemmas the other files share.

    ** The program and the files

    A client calls [Node.RunInTx] with a callback. [runOnce] takes a snapshot of
    the engine, runs the callback against it while recording reads and writes,
    and submits a proposal: the read set with the versions read, and the writes.
    A proposer applies proposals one by one: it refuses a proposal that read a
    key changed since, and otherwise commits its writes together with a version
    record per key. A refused transaction is retried.

    - Types.v: shared/types.go, engine/engine.go, helpers.go: read and write
      entries, proposals, epoch records, reserved keys, integer encodings.
      Codecs.v: every package's own copy of these encodings.
    - Wire.v: shared/proposal.go: Marshal into a pre-sized buffer, Unmarshal with
      its bounds checks, errors and panics.
    - EngineSpec.v: engine/engine.go: the interface as the class
      [StorageEngine], its contract as the class [EngineLaws] against an abstract
      store (a finite map) and the effect of set, delete and int64 merge on it.
      Every operation that can fail in Go can fail here, reads and GetSnapshot
      included, and a law speaks of an operation's result when it did not fail.
      The proposers and transactions are verified against [EngineLaws] for runs
      in which the engine reports no error ([no_engine_error] of Fsm.v and
      [reads_ok], of the results and the snapshot at hand); what an error does is
      in Failures.v and Oshodi.v. The class [InfallibleEngine], which the
      in-memory engine meets, is assumed by the theorems on the benchmark runner
      and by the lemmas that say a commit succeeds.
    - Shard.v, Iter.v, Iterators.v, Materialise.v: key routing, the slice iterators
      of the engines and the loops that drain them, scans copied into maps.
    - BTree.v, Memory.v: engine/memory/memory.go in both modes, over the ordered
      tree library as a class with laws; an instance of [EngineLaws].
    - Dump.v, Checkpoint.v: engine/memory/dump.go, engine/badger/dump.go, and
      CreateCheckpoint and Open of the in-memory engine.
    - Mvcc.v, MvccSpec.v, MvccCompact.v: engine/memory/mvcc.go: version lists,
      snapshots, the binary search for a version, compaction, checkpoints, each
      operation one step. MvccConc.v, MvccConcProps.v: the same cut at their
      atomic operations and locks, writers, snapshots and compactions
      interleaved. MvccLife.v: the compaction goroutine, Open and Close.
    - Oshodi.v, Badger.v, Pebble.v, PebbleSnap.v: the adapters over external
      stores, each an instance of [EngineLaws]; Pebble's merge operator, its
      consumer iterator, and the life cycle of its shared snapshot. PebbleIter.v:
      the consumer iterator in both directions. PebbleEngine.v, EngineLife.v: the
      adapters opened, closed and checkpointed over a disk; whether what was
      written survives that is the databases' own affair.
    - Fsm.v: conductor/fsm.go: conflict detection, application of proposals and
      of batches of Raft log entries, rebuilding the epoch map on opening.
    - Occ.v: the theory of optimistic validation: the invariant that links the
      epoch map to the version records, and what a validated read set entails.
    - Direct.v, Failures.v, Loop.v: conductor/direct.go: both batch paths with
      their commit; what a failed commit leaves behind; the applier goroutine's
      side of its channel as a step relation. EntryPool.v, EntryPoolOrder.v:
      ProposeDirect, the pool its entries and their result channels come from,
      and the applier, interleaved.
    - Raft.v, Batching.v, Reopen.v, Replay.v: properties of Fsm.v and Direct.v.
    - Buffers.v, BuffersProps.v: the buffers the apply path reuses, as arrays of a
      heap, and that the value-level loops refine them.
    - Snapshot.v: Snapshot, Persist and Restore of conductor/fsm.go over the
      in-memory engine, and the archives of conductor/snapshot.go.
      SnapshotEngines.v: the same, with Release, over any engine behind the
      interface [CheckpointEngine], for the in-memory engine and for Badger.
    - Sharded.v, ShardedSpec.v: conductor/sharded_direct.go with the MVCC fast
      path and its shared buffer. ShardedConc.v, ShardedConcSpec.v,
      ShardedConcProps.v: goroutines in ProposeDirect and GetSnapshot over the
      sharded in-memory engine, interleaved at the spinlock, the lock of each
      shard and each load of a shard.
    - Tx.v, Node.v, NodeSpec.v, NodeProps.v: tx.go and dpx.go: the operations of
      a transaction, callbacks as programs over them, runOnce, RunInTx, scans.
      NodeSharded.v, NodeShardedSpec.v, NodeMvcc.v: the node over the sharded
      proposer, with the sharded in-memory and the multi-version engine.
      NodeApi.v: watches, time, batch settings, the shutdown hooks with the last
      flush of the applier, and Close.
      Accounts.v: checked debits against concurrent credits.
    - Watch.v: watch.go; Batcher.v: batcher.go; Telemetry.v: the stage timers of
      shared/telemetry.go: step relations over atomic operations and critical
      sections, for every interleaving. Stages.v: the stages and their table.
    - Admission.v: Propose of conductor/node.go, its semaphore a class with laws.
    - Startup.v: config.go, Open of dpx.go, and Open and Shutdown of
      conductor/node.go. Commands.v: open.go, the directories of a Raft node, and
      cmd/dpxd/main.go with the flag parsing it uses.
    - LabStats.v, Lab.v, LabProps.v, LabWindow.v, LabRun.v: workspace/runner.go:
      random numbers, samples and statistics; keys, workloads, seeding and the
      timed window with its workers; the benchmark as a whole. Fmt.v,
      LabReport.v: its reports, character by character, and the verbs of fmt and
      the durations they print. LabMain.v: main with its profiles, deferred calls
      and exit codes.
    - Scenarios.v, ShardedScenarios.v, ShardedConcScenarios.v, NodeScenarios.v,
      NodeShardedScenarios.v: concrete executions: the hypotheses of the generic theorems hold for them,
      and they show the limits.

    Go structs are records, tagged unions inductive types, errors values of
    [option], [sum] or [result] (whose [Panic] is a Go run-time panic); [uint64]
    and [int64] are [Z] with the wrap-around of [u64] and [i64]; byte slices and
    strings are lists of bytes; maps are [gmap], and the order in which Go
    visits a map is an argument that may be any permutation; a mutating method
    returns the new state. Each operation under a lock is one step; where the
    code relies on atomics instead, each atomic operation is. Memory.v, Mvcc.v and
    Sharded.v take each method as one step; the files named *Conc* cut the same
    methods at every point where another goroutine can come in between.

    ** What is proved

    All of what follows on proposers and transactions starts from a good state
    (the epoch map agrees with the stored version records and no index is below a
    version: [dinv], [finv], [sinv]), concerns proposals of known operations on
    unreserved keys, and excludes overflow of the 64-bit index and errors of the
    engine. A fresh store is in a good state and batches keep it; a failed commit
    and a reopened direct proposer are not ([Failures], [Scenarios]).

    Serializability: a transaction that commits would have run the same, reads
    and writes, at its place in the commit order ([NodeSpec]); every batch of the
    direct proposer, of the Raft state machine and every inline application of
    the sharded one leaves the store that the serial execution of the accepted
    proposals gives, each accepted one having read the current version of every
    key, debits of credited keys apart ([Direct], [Raft], [ShardedSpec]); the
    sharded theorem is for proposals within one shard and with at most 64 reads.
    The same holds of transactions through the sharded proposer that stay within
    one shard ([NodeShardedSpec]). Without interference a transaction commits,
    through the retry loop included ([NodeSpec], [NodeProps], [NodeShardedSpec]);
    credits commute; a debit that saw enough goes through concurrent credits and
    never overdraws while no sum overflows ([Accounts]); proposals are applied
    once and in the order they were sent, and the applier can always work off its
    queue ([EntryPoolOrder], [Loop]); opening a
    store rebuilds the epoch map ([Reopen]); cutting a log into batches does not
    matter when no entry reads a key of its own batch, and the two batch paths
    agree on plain proposals ([Batching]); replaying a log leaves guarded entries
    refused ([Replay]). Under any scheduling of its goroutines the sharded
    proposer answers proposals of one shard each as some serial order does, an
    order that keeps what was decided, and it can always finish
    ([ShardedConcSpec], [ShardedConcProps]).
    Reusing the buffers of the apply path is invisible where batches copy
    ([BuffersProps]). Close over the direct or the Raft proposer stops it, after a
    last flush that applies what was batched, closes the watchers and then the
    engine, if the engine's own Close does not panic ([NodeApi]).

    Engines: each in-memory mode, Pebble, Badger and Oshodi refine the abstract
    store; the two in-memory modes are indistinguishable; MVCC snapshots are
    stable under later batches that do not overlap, compaction keeps the current values, the binary
    search finds what a linear one does; dumps and checkpoints of the in-memory
    engine restore what was saved ([Checkpoint]); a Raft snapshot of it restores
    the store, to which a sharded engine adds the other keys it had
    ([SnapshotEngines]), and unpacking one never leaves the data directory; a
    batch of the Badger adapter is atomic ([Badger]); Pebble's merge operator gives one result for every grouping, and its consumer
    iterator is a cursor over the user's pairs in both directions ([PebbleIter]). With its methods
    interleaved, the MVCC engine keeps its versions ordered and its snapshots
    stable under one writer, and its compare-and-swap loops end; it can be closed
    once ([MvccConcProps], [MvccConc], [MvccLife]). The slice iterators agree
    ([Iterators]).

    Encodings: proposals survive a round trip within the widths of their length
    fields, and decoding arbitrary bytes never panics and yields well-formed
    proposals; the copies of the small codecs agree and never index out of range
    ([Codecs]).

    Concurrency: watch channels are never sent on or closed after closing; shared
    snapshots are closed once; stage timers and the batcher's counters are exact
    under every interleaving; the semaphore's slots are those of the proposals in
    flight ([Admission]). The pool of entries can hand a caller another one's
    result ([EntryPool]).

    Tools: [dpxd backup] writes the backup it reports, however its flags are
    spelled ([Commands]); the workers of the benchmark own disjoint parts of the
    keys, seeding fills them, every call is counted once, percentiles are
    measured values, and over a direct proposer that hands back its results a
    benchmark ends without errors or conflicts ([LabProps], [LabWindow],
    [LabStats], [LabRun]); a printed duration reads back exactly and
    the latencies of a report within half a microsecond ([Fmt], [LabReport]); a
    run that succeeds releases what it acquired ([LabMain]).

    Limits: the executions in which the code does less than its comments say,
    such as a Raft batch boundary deciding a result, a credit hiding a debit, the
    index restarting after a reopen, compaction removing a version an open
    snapshot reads, a failed commit blocking its keys, a replayed credit counted
    twice, a snapshot of the sharded engine missing an update, an MVCC snapshot
    seeing half a batch of another writer, a transaction on the sharded MVCC
    engine that can never commit once it reads what was written before
    ([NodeMvcc]), a node restored over Badger that comes back empty
    ([SnapshotEngines]), a report whose borders do not meet ([LabReport]), or a
    pooled entry handing a caller another one's result.

    ** Bounds and fuel

    Indices are assumed to stay below 2^64 (the hypotheses of the form
    [d_index d + length ps < 2 ^ 64]). Loops that are not structural take fuel:
    draining an iterator one round per pair and one for the end, decoding a dump
    one round per byte of the file, the binary search one round per entry; the
    theorems [collectIter_spec], [decodeDump_never_panics] and
    [findVersion_agrees] show that it is enough, and [NewIter_spec] that the
    consumer iterator of Pebble ends.

    ** Parameters

    The ordered tree, Pebble, Badger and Oshodi are classes of operations with
    laws, each with a concrete instance; the disks they live on ([PebbleDisk],
    [DiskDB]) are classes of operations, of which it is only assumed that a flush
    or a compaction of Pebble keeps what is stored and that Badger opens a
    directory without a database as an empty one. The hybrid logical clock, the retry loop, the shutdown
    hooks, HashiCorp Raft and the delay of the batcher in [Node] are function
    arguments; the retry loop has the law [retry_run], the shutdown of [NodeApi]
    the law that hooks which return run once, in order. What the applier's select
    and late callers do between the shutdown and the goroutine's return is an
    argument of [NodeApi], any finite sequence of their steps. What the operating system answers
    to the benchmark runner is the record [world] of [LabMain]. The
    semaphore of [Admission] is a class with laws, and an instance. Converting a
    float64 outside the range of int64 is an argument of [Batcher] and [LabStats].
    The capacity [append] allocates beyond need is an argument of [Buffers].

    ** Not modelled

    The recording of telemetry at the individual stages; the pools of maps, of
    key buffers and of encoding buffers as pools (their contents are: Buffers.v).
    Timers and tickers are steps that may happen at any time; contexts are
    cancelled at any time. File and network I/O: Raft transport and storage, the
    byte format of tar archives. The garbage collector's own numbers in the
    benchmark runner, the quoting of its error messages, and the loggers. Of the
    counters of [shared.Metrics] those of snapshots. Timeouts of the shutdown. A
    node's transactions ([Node]) hand a proposal to the direct proposer and get
    its result in one step; the callers, pooled entries and applier in between
    are those of [EntryPool], and the two are not composed. Left for later:
    [SnapshotEngines] for Pebble and Oshodi, and goroutines of the sharded
    proposer over the MVCC engine together with its background compaction. *)

From Stdlib Require Export ZArith Lia String.
From Stdlib Require Export Strings.Byte.
From coqutil Require Export Byte Word.LittleEndianList.
From stdpp Require Export base tactics gmap strings list sorting fin_maps.

#[global] Open Scope Z_scope.
#[global] Set Default Goal Selector "!".

(** ** Bytes, keys and values

    A Go [[]byte] or [string] is a list of bytes; a nil slice and an empty one
    are not distinguished; the only operation that would is the upper bound of a
    Pebble iterator, where nil means none (see [PebbleLaws]). *)

Abbreviation byte := Init.Byte.byte (only parsing).
Abbreviation bytes := (list Init.Byte.byte) (only parsing).

#[export] Instance byte_eq_dec : EqDecision byte := Byte.byte_eq_dec.

#[export] Program Instance byte_countable : Countable byte :=
  inj_countable Byte.to_N Byte.of_N _.
Next Obligation. intros b. apply Byte.of_to_N. Qed.

Declare Scope dpx_scope.
Delimit Scope dpx_scope with dpx.
#[global] Open Scope dpx_scope.

(** The bytes of a Go string literal. *)
Definition bs (s : string) : bytes := String.list_byte_of_string s.

(** ** Fixed-width integers

    [uint64] and [int64] values are integers together with the wrap-around of
    every operation that may leave the range. *)

Definition u64 (z : Z) : Z := z mod 2 ^ 64.
Definition u32 (z : Z) : Z := z mod 2 ^ 32.
Definition u16 (z : Z) : Z := z mod 2 ^ 16.
Definition i64 (z : Z) : Z := (z + 2 ^ 63) mod 2 ^ 64 - 2 ^ 63.

Definition is_u64 (z : Z) : Prop := 0 <= z < 2 ^ 64.
Definition is_i64 (z : Z) : Prop := - 2 ^ 63 <= z < 2 ^ 63.

Lemma u64_range z : is_u64 (u64 z).
Proof. apply Z.mod_pos_bound. lia. Qed.

Lemma i64_range z : is_i64 (i64 z).
Proof.
  unfold i64, is_i64.
  pose proof (Z.mod_pos_bound (z + 2 ^ 63) (2 ^ 64) eq_refl). lia.
Qed.

Lemma u64_small z : is_u64 z → u64 z = z.
Proof. apply Z.mod_small. Qed.

Lemma i64_small z : is_i64 z → i64 z = z.
Proof. unfold is_i64, i64. intros H. rewrite Z.mod_small; lia. Qed.

Lemma i64_u64 z : i64 (u64 z) = i64 z.
Proof. unfold i64, u64. f_equal. by rewrite Zplus_mod_idemp_l. Qed.

Lemma u64_i64 z : u64 (i64 z) = u64 z.
Proof.
  unfold i64, u64.
  rewrite Zminus_mod_idemp_l. f_equal. lia.
Qed.

(** Addition on [int64] is associative and commutative under wrap-around. *)
Lemma i64_add_l a b : i64 (i64 a + b) = i64 (a + b).
Proof.
  rewrite <- (i64_u64 (i64 a + b)), <- (i64_u64 (a + b)). f_equal.
  pose proof (u64_i64 a) as E. unfold u64 in *.
  by rewrite <- Zplus_mod_idemp_l, E, Zplus_mod_idemp_l.
Qed.

Lemma i64_add_r a b : i64 (a + i64 b) = i64 (a + b).
Proof. rewrite (Z.add_comm a (i64 b)), i64_add_l. f_equal. lia. Qed.

Create HintDb dpx.
Create Rewrite HintDb dpx.
#[export] Hint Resolve u64_range i64_range : dpx.
#[export] Hint Rewrite i64_u64 u64_i64 i64_add_l i64_add_r : dpx.

(** ** encoding/binary (little endian) *)

(** [binary.LittleEndian.PutUint64] and friends, as the bytes written. *)
Definition le64 (v : Z) : bytes := le_split 8 v.
Definition le32 (v : Z) : bytes := le_split 4 v.
Definition le16 (v : Z) : bytes := le_split 2 v.

Lemma length_le64 v : length (le64 v) = 8%nat.
Proof. apply length_le_split. Qed.
Lemma length_le32 v : length (le32 v) = 4%nat.
Proof. apply length_le_split. Qed.
Lemma length_le16 v : length (le16 v) = 2%nat.
Proof. apply length_le_split. Qed.

Lemma combine_le64 v : le_combine (le64 v) = u64 v.
Proof. apply le_combine_split. Qed.
Lemma combine_le32 v : le_combine (le32 v) = u32 v.
Proof. apply le_combine_split. Qed.
Lemma combine_le16 v : le_combine (le16 v) = u16 v.
Proof. apply le_combine_split. Qed.

#[global] Opaque le64 le32 le16.

#[export] Hint Rewrite length_le64 length_le32 length_le16
  combine_le64 combine_le32 combine_le16 : dpx.

(** ** Results of fallible code: a value, an error value, or a run-time panic
    (an index out of range). *)

Inductive result (E A : Type) : Type :=
  | Ok (a : A)
  | Err (e : E)
  | Panic.
Arguments Ok {E A} a.
Arguments Err {E A} e.
Arguments Panic {E A}.

Definition rbind {E A B} (m : result E A) (f : A → result E B) : result E B :=
  match m with Ok a => f a | Err e => Err e | Panic => Panic end.

Notation "'let!' x := m 'in' k" := (rbind m (fun x => k))
  (at level 10, x pattern, m at level 100, k at level 200) : dpx_scope.

(** ** Buffers

    A decoder reads fixed-width integers and sub-slices at a position; reading
    out of range panics. An encoder writes into a buffer of a size computed in
    advance. *)

Section buffers.
Context {E : Type}.

(** [binary.LittleEndian.Uint16(data[pos:])] and its 32- and 64-bit forms. *)
Definition get_le (n : nat) (data : bytes) (pos : nat) : result E Z :=
  if decide (pos + n ≤ length data)%nat
  then Ok (le_combine (take n (drop pos data)))
  else Panic.

(** [data[pos : pos+n]] *)
Definition slice (data : bytes) (pos n : nat) : result E bytes :=
  if decide (pos + n ≤ length data)%nat
  then Ok (take n (drop pos data))
  else Panic.

(** [data[pos]] *)
Definition byte_at (data : bytes) (pos : nat) : result E byte :=
  match data !! pos with Some b => Ok b | None => Panic end.

Lemma get_le_ok n data pos :
  (pos + n ≤ length data)%nat →
  get_le n data pos = Ok (le_combine (take n (drop pos data))).
Proof. intros H. unfold get_le. by rewrite decide_True. Qed.

Lemma slice_ok data pos n :
  (pos + n ≤ length data)%nat →
  slice data pos n = Ok (take n (drop pos data)).
Proof. intros H. unfold slice. by rewrite decide_True. Qed.

Lemma byte_at_ok data pos :
  (pos < length data)%nat → ∃ b, byte_at data pos = Ok b ∧ data !! pos = Some b.
Proof.
  intros H. unfold byte_at.
  destruct (lookup_lt_is_Some_2 data pos H) as [b Hb]. rewrite Hb. eauto.
Qed.

(** Reading back what stands at a position of a buffer. *)
Lemma get_le_at n pre w post :
  length w = n →
  get_le n (pre ++ w ++ post) (length pre) = Ok (le_combine w).
Proof.
  intros <-. rewrite get_le_ok by (rewrite !length_app; lia).
  by rewrite drop_app_length, take_app_length.
Qed.

Lemma slice_at pre w post :
  slice (pre ++ w ++ post) (length pre) (length w) = Ok w.
Proof.
  rewrite slice_ok by (rewrite !length_app; lia).
  by rewrite drop_app_length, take_app_length.
Qed.

Lemma byte_at_at pre b post :
  byte_at (pre ++ b :: post) (length pre) = Ok b.
Proof.
  unfold byte_at. rewrite lookup_app_r by lia. by rewrite Nat.sub_diag.
Qed.
End buffers.

(** Writing [w] at [pos] in place; [None] is the panic of a fixed-width write
    past the end. *)
Definition put (buf : bytes) (pos : nat) (w : bytes) : option bytes :=
  if decide (pos + length w ≤ length buf)%nat
  then Some (take pos buf ++ w ++ drop (pos + length w) buf)
  else None.

(** [copy(buf[pos:], w)]: copies as many bytes as fit; [buf[pos:]] itself
    panics when [pos > len(buf)]. *)
Definition copy_at (buf : bytes) (pos : nat) (w : bytes) : option bytes :=
  if decide (pos ≤ length buf)%nat
  then let n := Nat.min (length w) (length buf - pos) in
       Some (take pos buf ++ take n w ++ drop (pos + n) buf)
  else None.

Lemma put_zeros pre w n post :
  length w = n →
  put (pre ++ replicate n x00 ++ post) (length pre) w = Some (pre ++ w ++ post).
Proof.
  intros <-. unfold put.
  rewrite decide_True by (rewrite !length_app, length_replicate; lia).
  rewrite take_app_length, (app_assoc pre (replicate _ _) post).
  by rewrite drop_app_length' by (by rewrite length_app, length_replicate).
Qed.

Lemma copy_zeros pre w n post :
  length w = n →
  copy_at (pre ++ replicate n x00 ++ post) (length pre) w = Some (pre ++ w ++ post).
Proof.
  intros <-. unfold copy_at.
  rewrite decide_True by (rewrite !length_app; lia). cbv zeta.
  rewrite !length_app, length_replicate, Nat.min_l by lia.
  rewrite (firstn_all w), take_app_length, (app_assoc pre (replicate _ _) post).
  by rewrite drop_app_length' by (by rewrite length_app, length_replicate).
Qed.

(** ** Encoders: filling a buffer field by field *)

(** The encoder's state: the buffer and the write position. *)
Definition enc := (bytes * nat)%type.

(** A fixed-width write at the position, which panics past the end. *)
Definition emit (w : bytes) (st : enc) : option enc :=
  b ← put st.1 st.2 w; Some (b, (st.2 + length w)%nat).

(** [copy(buf[pos:], w); pos += len(w)] *)
Definition emit_copy (w : bytes) (st : enc) : option enc :=
  b ← copy_at st.1 st.2 w; Some (b, (st.2 + length w)%nat).

Fixpoint emit_all {A} (f : A → enc → option enc) (l : list A) (st : enc) : option enc :=
  match l with
  | [] => Some st
  | x :: l' => st ← f x st; emit_all f l' st
  end.

(** The encoder's invariant: [pre] written, [n] zero bytes to go. *)
Definition pending (pre : bytes) (n : nat) : enc := (pre ++ replicate n x00, length pre).

Lemma emit_pending w pre n :
  emit w (pending pre (length w + n)) = Some (pending (pre ++ w) n).
Proof.
  unfold emit, pending. simpl. rewrite replicate_add.
  rewrite put_zeros by done. simpl. by rewrite <- app_assoc, length_app.
Qed.

Lemma emit_copy_pending w pre n :
  emit_copy w (pending pre (length w + n)) = Some (pending (pre ++ w) n).
Proof.
  unfold emit_copy, pending. simpl. rewrite replicate_add.
  rewrite copy_zeros by done. simpl. by rewrite <- app_assoc, length_app.
Qed.

(** Run the encoder one write further. *)
Ltac emit_step :=
  first [rewrite emit_pending | rewrite emit_copy_pending]; cbn [mbind option_bind].

Lemma emit_all_pending {A} (f : A → enc → option enc) (enc_of : A → bytes) l pre n :
  (∀ x pre n, f x (pending pre (length (enc_of x) + n)) = Some (pending (pre ++ enc_of x) n)) →
  emit_all f l (pending pre (length (concat (map enc_of l)) + n))
  = Some (pending (pre ++ concat (map enc_of l)) n).
Proof.
  intros Hf. revert pre. induction l as [|x l IH]; intros pre; simpl.
  - by rewrite app_nil_r.
  - rewrite length_app, <- Nat.add_assoc, Hf. simpl. by rewrite IH, app_assoc.
Qed.

Lemma length_concat_map {A} (f : A → bytes) l :
  length (concat (map f l)) = sum_list_with (length ∘ f) l.
Proof. induction l as [|x l IH]; simpl; [done|]. by rewrite length_app, IH. Qed.

(** ** Decoders *)

Lemma get_le_in {E} n (data : bytes) pos pre w post :
  data = pre ++ w ++ post → pos = length pre → length w = n →
  @get_le E n data pos = Ok (le_combine w).
Proof. intros -> -> H. by apply get_le_at. Qed.

Lemma slice_in {E} (data : bytes) pos n pre w post :
  data = pre ++ w ++ post → pos = length pre → n = length w →
  @slice E data pos n = Ok w.
Proof. intros -> -> ->. apply slice_at. Qed.

Lemma byte_at_in {E} (data : bytes) pos pre b post :
  data = pre ++ b :: post → pos = length pre → @byte_at E data pos = Ok b.
Proof. intros -> ->. apply byte_at_at. Qed.

Lemma le_combine_range (l : bytes) n :
  (length l ≤ n)%nat → 0 <= le_combine l < 2 ^ (8 * Z.of_nat n).
Proof.
  intros H. pose proof (le_combine_bound l) as [H1 H2]. split; [done|].
  eapply Z.lt_le_trans; [exact H2|]. apply Z.pow_le_mono_r; lia.
Qed.

(** What one successful read entails. *)
Lemma get_le_inv {E} n data pos z :
  @get_le E n data pos = Ok z → 0 <= z < 2 ^ (8 * Z.of_nat n).
Proof.
  unfold get_le. case_decide; [|done]. intros [= <-].
  apply le_combine_range. rewrite length_take. lia.
Qed.

Lemma slice_inv {E} data pos n w : @slice E data pos n = Ok w → length w = n.
Proof.
  unfold slice. case_decide; [|done]. intros [= <-].
  rewrite length_take, length_drop. lia.
Qed.

(** Discharge the reads of a decoder whose bounds check has succeeded. *)
Ltac read_ok :=
  first
    [ rewrite get_le_ok by lia
    | rewrite slice_ok by lia
    | match goal with
      | |- context [@byte_at ?E ?d ?p] =>
          let b := fresh "b" in
          destruct (@byte_at_ok E d p ltac:(lia)) as (b & -> & _)
      end ]; cbn [rbind].

(** Split a successful [let!] chain into its steps. *)
Ltac inv_rbind H :=
  repeat match type of H with
  | (if decide _ then _ else _) = Ok _ => case_decide; [done|]
  | rbind ?m _ = Ok _ =>
      let x := fresh "x" in let E := fresh "E" in
      destruct m as [x|?|] eqn:E; cbn [rbind] in H; try done
  end.

(** ** Keys: prefixes and the byte-wise order of Go's string comparison *)

(** [len(k) >= len(p) && k[:len(p)] == p] *)
Definition has_prefix (p k : bytes) : bool :=
  bool_decide (length p ≤ length k)%nat && bool_decide (take (length p) k = p).

Lemma has_prefix_spec p k : has_prefix p k = true ↔ ∃ r, k = p ++ r.
Proof.
  unfold has_prefix. rewrite andb_true_iff, !bool_decide_eq_true. split.
  - intros [_ E]. exists (drop (length p) k). by rewrite <- E at 1; rewrite take_drop.
  - intros [r ->]. split; [rewrite length_app; lia | by rewrite take_app_length].
Qed.

Lemma has_prefix_app p r : has_prefix p (p ++ r) = true.
Proof. apply has_prefix_spec. eauto. Qed.

Fixpoint bytes_compare (a b : bytes) : comparison :=
  match a, b with
  | [], [] => Eq
  | [], _ :: _ => Lt
  | _ :: _, [] => Gt
  | x :: a', y :: b' =>
      match N.compare (Byte.to_N x) (Byte.to_N y) with
      | Eq => bytes_compare a' b'
      | c => c
      end
  end.

(** [a < b] on Go strings. *)
Definition bytes_ltb (a b : bytes) : bool :=
  match bytes_compare a b with Lt => true | _ => false end.

Definition bytes_lt (a b : bytes) : Prop := bytes_ltb a b = true.
Definition bytes_le (a b : bytes) : Prop := bytes_ltb b a = false.

#[export] Instance bytes_lt_dec a b : Decision (bytes_lt a b) :=
  decide (bytes_ltb a b = true).
#[export] Instance bytes_le_dec a b : Decision (bytes_le a b) :=
  decide (bytes_ltb b a = false).

Lemma bytes_compare_eq a b : bytes_compare a b = Eq ↔ a = b.
Proof.
  revert b. induction a as [|x a IH]; intros [|y b]; simpl; try done.
  destruct (N.compare_spec (Byte.to_N x) (Byte.to_N y)) as [E|E|E].
  - assert (x = y) as ->.
    { pose proof (Byte.of_to_N x). pose proof (Byte.of_to_N y). congruence. }
    rewrite IH. naive_solver.
  - split; [done|]. intros [= -> ->]. lia.
  - split; [done|]. intros [= -> ->]. lia.
Qed.

Lemma bytes_compare_antisym a b : bytes_compare b a = CompOpp (bytes_compare a b).
Proof.
  revert b. induction a as [|x a IH]; intros [|y b]; simpl; try done.
  rewrite (N.compare_antisym (Byte.to_N x) (Byte.to_N y)).
  destruct (N.compare (Byte.to_N x) (Byte.to_N y)); simpl; auto.
Qed.

Lemma bytes_compare_lt_trans a b c :
  bytes_compare a b = Lt → bytes_compare b c = Lt → bytes_compare a c = Lt.
Proof.
  revert b c. induction a as [|x a IH]; intros [|y b] [|z c]; simpl; try done.
  destruct (N.compare_spec (Byte.to_N x) (Byte.to_N y)),
    (N.compare_spec (Byte.to_N y) (Byte.to_N z)),
    (N.compare_spec (Byte.to_N x) (Byte.to_N z)); try done; try lia; eauto.
Qed.

#[export] Instance bytes_lt_trans : Transitive bytes_lt.
Proof.
  intros a b c. unfold bytes_lt, bytes_ltb.
  destruct (bytes_compare a b) eqn:E1; try done.
  destruct (bytes_compare b c) eqn:E2; try done.
  by rewrite (bytes_compare_lt_trans a b c).
Qed.

Lemma bytes_lt_irrefl a : ¬ bytes_lt a a.
Proof.
  unfold bytes_lt, bytes_ltb.
  by rewrite (proj2 (bytes_compare_eq a a)).
Qed.

Lemma bytes_le_lt a b : bytes_le a b ↔ a = b ∨ bytes_lt a b.
Proof.
  unfold bytes_le, bytes_lt, bytes_ltb.
  rewrite (bytes_compare_antisym a b), <- bytes_compare_eq.
  destruct (bytes_compare a b); naive_solver.
Qed.

#[export] Instance bytes_le_trans : Transitive bytes_le.
Proof.
  intros a b c. rewrite !bytes_le_lt. intros [->|H1] [->|H2]; eauto.
  right. by trans b.
Qed.

#[export] Instance bytes_le_total : Total bytes_le.
Proof.
  intros a b. rewrite !bytes_le_lt. unfold bytes_lt, bytes_ltb.
  rewrite (bytes_compare_antisym a b).
  destruct (bytes_compare a b) eqn:E; [|by auto|by auto].
  apply bytes_compare_eq in E. auto.
Qed.

#[export] Instance bytes_le_antisym : AntiSymm eq bytes_le.
Proof.
  intros a b. rewrite !bytes_le_lt. intros [->|H1] [E|H2]; try done.
  exfalso. apply (bytes_lt_irrefl a). by trans b.
Qed.

(** ** Lists *)

(** In an association list with distinct keys a key has one value. *)
Lemma NoDup_fst_inj {A B} (l : list (A * B)) k v v' :
  NoDup l.*1 → (k, v) ∈ l → (k, v') ∈ l → v = v'.
Proof.
  induction l as [|[k0 v0] l IH]; simpl; intros Hnd H1 H2; [by apply elem_of_nil in H1|].
  apply NoDup_cons in Hnd as [Hk Hnd].
  rewrite list_elem_of_fmap in Hk.
  apply elem_of_cons in H1 as [E1|H1]; apply elem_of_cons in H2 as [E2|H2]; simplify_eq; eauto.
  - exfalso. apply Hk. by exists (k0, v').
  - exfalso. apply Hk. by exists (k0, v).
Qed.

Lemma filter_none {A} (P : A → Prop) `{∀ x, Decision (P x)} (l : list A) :
  (∀ x, x ∈ l → ¬ P x) → filter P l = [].
Proof.
  induction l as [|x l IH]; intros HP; [done|].
  rewrite filter_cons, decide_False by (apply HP; left). apply IH. intros y Hy. apply HP. by right.
Qed.

Lemma StronglySorted_filter {A} (R : relation A) (P : A → Prop) `{∀ x, Decision (P x)} l :
  StronglySorted R l → StronglySorted R (filter P l).
Proof.
  induction 1 as [|x l Hs IH Hall]; [constructor|]. rewrite filter_cons. case_decide; [|done].
  constructor; [done|]. rewrite Forall_forall in *. intros y Hy.
  apply list_elem_of_filter in Hy as [_ Hy]. auto.
Qed.

Lemma StronglySorted_drop {A} (R : relation A) n l : StronglySorted R l → StronglySorted R (drop n l).
Proof.
  revert l. induction n as [|n IH]; intros l Hs; [done|]. destruct Hs; [constructor|]. by apply IH.
Qed.

Lemma StronglySorted_impl {A} (R R' : relation A) l :
  (∀ x y, R x y → R' x y) → StronglySorted R l → StronglySorted R' l.
Proof.
  intros HR. induction 1 as [|x l Hs IH Hall]; constructor; [done|].
  eapply Forall_impl; eauto.
Qed.

Lemma NoDup_fst_filter {A B} (P : A * B → Prop) `{∀ x, Decision (P x)} (l : list (A * B)) :
  NoDup l.*1 → NoDup (filter P l).*1.
Proof.
  induction l as [|x l IH]; [done|]. simpl. intros [Hx Hl]%NoDup_cons.
  rewrite filter_cons. case_decide; [|auto]. simpl. constructor; [|auto].
  intros (y & E & [_ Hy]%list_elem_of_filter)%list_elem_of_fmap.
  apply Hx, list_elem_of_fmap. eauto.
Qed.

(** ** Small automation *)

(** Split the record equations and conjunctions in the context. *)
Ltac dpx_simp := repeat (simplify_eq/= || destruct_and? || case_match); try done.

(** Arithmetic with the fixed-width ranges unfolded. *)
Ltac width_lia := unfold is_u64, is_i64 in *; lia.
