(* ===== verification/Types.v ===== *)
(** * Shared data types and record encodings

    The types of src/shared/types.go, src/shared/proposal.go and
    src/engine/engine.go that every component exchanges, and the byte encodings
    of epoch records and counters (src/conductor/fsm.go, src/helpers.go). *)

From S2P Require Import Prelude.

(** ** Data (shared/types.go, engine/engine.go) *)

(** A key read during speculative execution, with the epoch it was read at. *)
Record ReadEntry := { re_Key : bytes; re_Epoch : Z; re_IsDebit : bool }.

(** One mutation of the write set. [we_Op] is a [uint8]. *)
Record WriteEntry := { we_Op : Z; we_Key : bytes; we_Value : bytes }.

Record Proposal := {
  ReadSet : list ReadEntry;
  Writes : list WriteEntry;
  TimestampWall : Z;
  TimestampCounter : Z;
}.

Definition OpSet : Z := 1.
Definition OpDelete : Z := 2.
Definition OpCredit : Z := 3.
Definition OpDebit : Z := 4.

(** The operations the switch statements of the apply path know. *)
Definition known_op (op : Z) : Prop :=
  op = OpSet ∨ op = OpDelete ∨ op = OpCredit ∨ op = OpDebit.

Record EpochRecord := { Epoch : Z; IsCredit : bool }.

(** Go's zero value of [EpochRecord]. *)
Definition zero_epoch : EpochRecord := {| Epoch := 0; IsCredit := false |}.

Inductive SyncPolicy := SyncBatch | SyncFull | SyncNone.

#[export] Instance ReadEntry_eq_dec : EqDecision ReadEntry.
Proof. solve_decision. Defined.
#[export] Instance WriteEntry_eq_dec : EqDecision WriteEntry.
Proof. solve_decision. Defined.
#[export] Instance Proposal_eq_dec : EqDecision Proposal.
Proof. solve_decision. Defined.
#[export] Instance EpochRecord_eq_dec : EqDecision EpochRecord.
Proof. solve_decision. Defined.
#[export] Instance SyncPolicy_eq_dec : EqDecision SyncPolicy.
Proof. solve_decision. Defined.

(** (p *Proposal) TimestampIsZero *)
Definition TimestampIsZero (p : Proposal) : bool :=
  (TimestampWall p =? 0) && (TimestampCounter p =? 0).

(** ** Reserved keys (helpers.go) *)

Definition dpxPrefixBytes : bytes := bs "__dpx:".

Definition isReserved (key : bytes) : bool :=
  bool_decide (length dpxPrefixBytes ≤ length key)%nat &&
  bool_decide (take (length dpxPrefixBytes) key = dpxPrefixBytes).

Definition verPrefix : bytes := bs "__dpx:ver:".

(** [versionKey]: the caller's buffer is truncated and refilled, so the result
    is the concatenation whatever the buffer held. *)
Definition versionKey (key : bytes) : bytes := verPrefix ++ key.

Definition appliedKey : bytes := bs "__dpx:applied".

Definition rawIterStart : bytes := verPrefix.
Definition rawIterEnd : bytes := verPrefix ++ replicate 16 xff.

(** ** Epoch records and counters as bytes *)

(** [encodeEpochRecord]: eight little-endian bytes and a flag byte. *)
Definition encodeEpochRecord (er : EpochRecord) : bytes :=
  le64 (Epoch er) ++ [if IsCredit er then x01 else x00].

(** [decodeEpochRecord] of conductor/fsm.go: [None] is the [false] it returns
    on a short record. *)
Definition decodeEpochRecord (b : bytes) : option EpochRecord :=
  if decide (length b < 9)%nat then None
  else Some {| Epoch := le_combine (take 8 b);
               IsCredit := bool_decide (b !! 8%nat = Some x01) |}.

(** The engines' own copy, which returns the zero record instead. *)
Definition decodeEpochRecord0 (b : bytes) : EpochRecord :=
  if decide (length b < 9)%nat then zero_epoch
  else {| Epoch := le_combine (take 8 b);
          IsCredit := bool_decide (b !! 8%nat = Some x01) |}.

Definition encodeUint64 (v : Z) : bytes := le64 v.

Definition decodeUint64 (b : bytes) : Z := le_combine (take 8 b).

Definition encodeInt64 (v : Z) : bytes := le64 (u64 v).

Definition decodeInt64 (b : bytes) : Z :=
  if decide (length b < 8)%nat then 0 else i64 (le_combine (take 8 b)).

(** ** Lemmas on the encodings *)

Lemma isReserved_prefix k : isReserved k = has_prefix dpxPrefixBytes k.
Proof. reflexivity. Qed.

Lemma isReserved_versionKey k : isReserved (versionKey k) = true.
Proof.
  rewrite isReserved_prefix. apply has_prefix_spec.
  by exists (bs "ver:" ++ k).
Qed.

Lemma isReserved_appliedKey : isReserved appliedKey = true.
Proof. reflexivity. Qed.

#[export] Instance versionKey_inj : Inj (=) (=) versionKey.
Proof. intros a b. apply app_inv_head. Qed.

Lemma versionKey_ne_applied k : versionKey k ≠ appliedKey.
Proof. intros H. apply (f_equal (take 7)) in H. by vm_compute in H. Qed.

Lemma user_key_ne_version k k' : isReserved k = false → k ≠ versionKey k'.
Proof. intros H ->. by rewrite isReserved_versionKey in H. Qed.

Lemma user_key_ne_applied k : isReserved k = false → k ≠ appliedKey.
Proof. by intros H ->. Qed.

#[export] Hint Resolve isReserved_versionKey isReserved_appliedKey
  versionKey_ne_applied user_key_ne_version user_key_ne_applied : dpx.

Lemma length_encodeEpochRecord er : length (encodeEpochRecord er) = 9%nat.
Proof. unfold encodeEpochRecord. by rewrite length_app, length_le64. Qed.

Lemma take_le64_app v r : take 8 (le64 v ++ r) = le64 v.
Proof. apply take_app_length'. by rewrite length_le64. Qed.

Lemma decode_encode_epoch er :
  is_u64 (Epoch er) → decodeEpochRecord (encodeEpochRecord er) = Some er.
Proof.
  intros H. unfold decodeEpochRecord.
  rewrite decide_False by (rewrite length_encodeEpochRecord; lia).
  unfold encodeEpochRecord. rewrite take_le64_app, combine_le64, u64_small by done.
  rewrite lookup_app_r by (by rewrite length_le64). rewrite length_le64.
  by destruct er as [e []].
Qed.

Lemma decodeEpochRecord0_default b :
  decodeEpochRecord0 b = default zero_epoch (decodeEpochRecord b).
Proof. unfold decodeEpochRecord0, decodeEpochRecord. by case_decide. Qed.

Lemma decode_encode_epoch0 er :
  is_u64 (Epoch er) → decodeEpochRecord0 (encodeEpochRecord er) = er.
Proof. intros H. by rewrite decodeEpochRecord0_default, decode_encode_epoch. Qed.

Lemma decode_encode_int64 v : decodeInt64 (encodeInt64 v) = i64 v.
Proof.
  unfold decodeInt64, encodeInt64.
  rewrite decide_False by (rewrite length_le64; lia).
  rewrite firstn_all2 by (rewrite length_le64; lia).
  rewrite combine_le64. by rewrite !i64_u64.
Qed.

Lemma encode_i64 v : encodeInt64 (i64 v) = encodeInt64 v.
Proof. unfold encodeInt64. by rewrite u64_i64. Qed.

Lemma decodeUint64_encode v : is_u64 v → decodeUint64 (encodeUint64 v) = v.
Proof.
  intros H. unfold decodeUint64, encodeUint64.
  rewrite firstn_all2 by (rewrite length_le64; lia).
  by rewrite combine_le64, u64_small.
Qed.

#[export] Hint Rewrite decode_encode_int64 encode_i64 : dpx.
