(* ===== verification/Wire.v ===== *)
(** * Wire codec of proposals (src/shared/proposal.go)

    [Marshal] computes the exact buffer size, allocates the buffer and fills it
    field by field; [Unmarshal] reads it back with a bounds check before every
    variable-length field. Both are modelled at the level of buffer positions,
    so that a read or write out of range is a [Panic] (or [None]) of the model. *)

From S2P Require Import Prelude Types.

(** ** Marshal *)

(** The size computed before the buffer is allocated. *)
Definition marshal_size (p : Proposal) : nat :=
  (8 + 2 + 2
   + sum_list_with (fun re => 2 + length (re_Key re) + 8 + 1) (ReadSet p)
   + 2
   + sum_list_with (fun w => 1 + 2 + length (we_Key w) + 2 + length (we_Value w)) (Writes p))%nat.

Definition marshal_read (re : ReadEntry) (st : enc) : option enc :=
  st ← emit (le16 (Z.of_nat (length (re_Key re)))) st;
  st ← emit_copy (re_Key re) st;
  st ← emit (le64 (re_Epoch re)) st;
  emit [if re_IsDebit re then x01 else x00] st.

Definition marshal_write (w : WriteEntry) (st : enc) : option enc :=
  st ← emit [byte.of_Z (we_Op w)] st;
  st ← emit (le16 (Z.of_nat (length (we_Key w)))) st;
  st ← emit_copy (we_Key w) st;
  st ← emit (le16 (Z.of_nat (length (we_Value w)))) st;
  emit_copy (we_Value w) st.

(** (p *Proposal) Marshal *)
Definition Marshal (p : Proposal) : option bytes :=
  let st := (replicate (marshal_size p) x00, 0%nat) in
  st ← emit (le64 (TimestampWall p)) st;
  st ← emit (le16 (TimestampCounter p)) st;
  st ← emit (le16 (Z.of_nat (length (ReadSet p)))) st;
  st ← emit_all marshal_read (ReadSet p) st;
  st ← emit (le16 (Z.of_nat (length (Writes p)))) st;
  st ← emit_all marshal_write (Writes p) st;
  Some st.1.

(** ** Unmarshal *)

Definition minProposalBytes : nat := 14.

(** The error values, with the entry index and position they report. *)
Inductive UnmarshalErr :=
  | ShortBuffer (len : nat)
  | TruncatedReadKeyLength (i pos : nat)
  | TruncatedReadEntry (i pos : nat)
  | TruncatedWritesLength (pos : nat)
  | TruncatedWriteOp (i pos : nat)
  | TruncatedWriteKey (i pos : nat)
  | TruncatedWriteValue (i pos : nat).

(** The loop over the read set: [n] entries left, [i] the entry index. *)
Fixpoint unmarshal_reads (data : bytes) (n i pos : nat) :
    result UnmarshalErr (list ReadEntry * nat) :=
  match n with
  | O => Ok ([], pos)
  | S n' =>
      if decide (length data < pos + 2)%nat then Err (TruncatedReadKeyLength i pos) else
      let! kLen := get_le 2 data pos in
      let kLen := Z.to_nat kLen in
      let pos := (pos + 2)%nat in
      if decide (length data < pos + kLen + 8 + 1)%nat then Err (TruncatedReadEntry i pos) else
      let! key := slice data pos kLen in
      let pos := (pos + kLen)%nat in
      let! epoch := get_le 8 data pos in
      let pos := (pos + 8)%nat in
      let! flag := byte_at data pos in
      let pos := (pos + 1)%nat in
      let re := {| re_Key := key; re_Epoch := epoch;
                   re_IsDebit := negb (bool_decide (flag = x00)) |} in
      let! rest := unmarshal_reads data n' (S i) pos in
      Ok (re :: rest.1, rest.2)
  end.

Fixpoint unmarshal_writes (data : bytes) (n i pos : nat) :
    result UnmarshalErr (list WriteEntry * nat) :=
  match n with
  | O => Ok ([], pos)
  | S n' =>
      if decide (length data < pos + 1 + 2)%nat then Err (TruncatedWriteOp i pos) else
      let! op := byte_at data pos in
      let pos := (pos + 1)%nat in
      let! kLen := get_le 2 data pos in
      let kLen := Z.to_nat kLen in
      let pos := (pos + 2)%nat in
      if decide (length data < pos + kLen + 2)%nat then Err (TruncatedWriteKey i pos) else
      let! key := slice data pos kLen in
      let pos := (pos + kLen)%nat in
      let! vLen := get_le 2 data pos in
      let vLen := Z.to_nat vLen in
      let pos := (pos + 2)%nat in
      if decide (length data < pos + vLen)%nat then Err (TruncatedWriteValue i pos) else
      let! value := slice data pos vLen in
      let pos := (pos + vLen)%nat in
      let w := {| we_Op := byte.unsigned op; we_Key := key; we_Value := value |} in
      let! rest := unmarshal_writes data n' (S i) pos in
      Ok (w :: rest.1, rest.2)
  end.

(** (p *Proposal) Unmarshal: decodes in place, so an empty buffer leaves the
    receiver as it was. *)
Definition Unmarshal (p : Proposal) (data : bytes) : result UnmarshalErr Proposal :=
  if decide (length data < minProposalBytes)%nat then
    if decide (length data = 0)%nat then Ok p else Err (ShortBuffer (length data))
  else
    let! wall := get_le 8 data 0 in
    let! counter := get_le 2 data 8 in
    let! readLen := get_le 2 data 10 in
    let! reads := unmarshal_reads data (Z.to_nat readLen) 0 12 in
    let pos := reads.2 in
    if decide (length data < pos + 2)%nat then Err (TruncatedWritesLength pos) else
    let! writeLen := get_le 2 data pos in
    let! writes := unmarshal_writes data (Z.to_nat writeLen) 0 (pos + 2) in
    Ok {| ReadSet := reads.1; Writes := writes.1;
          TimestampWall := wall; TimestampCounter := counter |}.

(** Go's [var p shared.Proposal]. *)
Definition zero_proposal : Proposal :=
  {| ReadSet := []; Writes := []; TimestampWall := 0; TimestampCounter := 0 |}.

(** ** The format, as a specification *)

Definition read_bytes (re : ReadEntry) : bytes :=
  le16 (Z.of_nat (length (re_Key re))) ++ re_Key re ++ le64 (re_Epoch re)
  ++ [if re_IsDebit re then x01 else x00].

Definition write_bytes (w : WriteEntry) : bytes :=
  [byte.of_Z (we_Op w)] ++ le16 (Z.of_nat (length (we_Key w))) ++ we_Key w
  ++ le16 (Z.of_nat (length (we_Value w))) ++ we_Value w.

Definition proposal_bytes (p : Proposal) : bytes :=
  le64 (TimestampWall p) ++ le16 (TimestampCounter p)
  ++ le16 (Z.of_nat (length (ReadSet p))) ++ concat (map read_bytes (ReadSet p))
  ++ le16 (Z.of_nat (length (Writes p))) ++ concat (map write_bytes (Writes p)).

(** The limits of the format: every length fits its 16-bit field. *)
Definition wf_read (re : ReadEntry) : Prop :=
  Z.of_nat (length (re_Key re)) < 2 ^ 16 ∧ is_u64 (re_Epoch re).
Definition wf_write (w : WriteEntry) : Prop :=
  0 <= we_Op w < 256 ∧ Z.of_nat (length (we_Key w)) < 2 ^ 16 ∧ Z.of_nat (length (we_Value w)) < 2 ^ 16.
Definition wf_proposal (p : Proposal) : Prop :=
  is_u64 (TimestampWall p) ∧ 0 <= TimestampCounter p < 2 ^ 16
  ∧ Z.of_nat (length (ReadSet p)) < 2 ^ 16 ∧ Z.of_nat (length (Writes p)) < 2 ^ 16
  ∧ Forall wf_read (ReadSet p) ∧ Forall wf_write (Writes p).

(** ** Marshal fills its buffer exactly *)

Lemma marshal_read_pending re pre n :
  marshal_read re (pending pre (length (read_bytes re) + n))
  = Some (pending (pre ++ read_bytes re) n).
Proof.
  unfold marshal_read, read_bytes. rewrite !length_app, <- !Nat.add_assoc.
  do 4 emit_step. by rewrite <- !app_assoc.
Qed.

Lemma marshal_write_pending w pre n :
  marshal_write w (pending pre (length (write_bytes w) + n))
  = Some (pending (pre ++ write_bytes w) n).
Proof.
  unfold marshal_write, write_bytes. rewrite !length_app, <- !Nat.add_assoc.
  do 5 emit_step. by rewrite <- !app_assoc.
Qed.

Lemma marshal_size_spec p : marshal_size p = length (proposal_bytes p).
Proof.
  unfold marshal_size, proposal_bytes.
  rewrite !length_app, !length_concat_map. autorewrite with dpx.
  assert (∀ l, sum_list_with (fun re => 2 + length (re_Key re) + 8 + 1)%nat l
               = sum_list_with (length ∘ read_bytes) l) as ->.
  { intros l. induction l as [|r l IH]; [done|]. cbn [sum_list_with]. rewrite IH.
    unfold compose, read_bytes. rewrite !length_app. autorewrite with dpx. simpl. lia. }
  assert (∀ l, sum_list_with (fun w => 1 + 2 + length (we_Key w) + 2 + length (we_Value w))%nat l
               = sum_list_with (length ∘ write_bytes) l) as ->.
  { intros l. induction l as [|r l IH]; [done|]. cbn [sum_list_with]. rewrite IH.
    unfold compose, write_bytes. rewrite !length_app. autorewrite with dpx. simpl. lia. }
  lia.
Qed.

(** The buffer is written without a panic and holds the format. *)
Lemma Marshal_bytes p : Marshal p = Some (proposal_bytes p).
Proof.
  unfold Marshal. rewrite marshal_size_spec.
  change (replicate (length (proposal_bytes p)) x00, 0%nat)
    with (pending [] (length (proposal_bytes p))).
  unfold proposal_bytes at 1. rewrite !length_app.
  do 3 emit_step.
  rewrite (emit_all_pending _ read_bytes) by apply marshal_read_pending.
  cbn [mbind option_bind]. emit_step.
  rewrite <- (Nat.add_0_r (length (concat (map write_bytes _)))).
  rewrite (emit_all_pending _ write_bytes) by apply marshal_write_pending.
  cbn [mbind option_bind pending fst].
  unfold proposal_bytes. by rewrite app_nil_r, <- !app_assoc.
Qed.

(** ** Unmarshal reads the format back *)

Lemma combine_le16_nat n : Z.of_nat n < 2 ^ 16 → Z.to_nat (u16 (Z.of_nat n)) = n.
Proof. intros H. unfold u16. rewrite Z.mod_small; lia. Qed.

(** One read entry, at any position of any buffer. *)
Lemma unmarshal_reads_cons re n i pre post :
  wf_read re →
  unmarshal_reads (pre ++ read_bytes re ++ post) (S n) i (length pre)
  = let! rest := unmarshal_reads ((pre ++ read_bytes re) ++ post) n (S i)
                   (length (pre ++ read_bytes re)) in
    Ok (re :: rest.1, rest.2).
Proof.
  intros [Hk He]. destruct re as [key ep deb]. simpl in Hk, He.
  cbn [unmarshal_reads]. rewrite <- app_assoc.
  set (flag := if deb then x01 else x00).
  set (data := pre ++ read_bytes _ ++ post).
  assert (data = pre ++ le16 (Z.of_nat (length key)) ++ key ++ le64 ep ++ flag :: post) as Hd.
  { unfold data, read_bytes. simpl. by rewrite <- !app_assoc. }
  assert (length data = length pre + 2 + length key + 8 + 1 + length post)%nat as Hlen.
  { rewrite Hd, !length_app. autorewrite with dpx. simpl. lia. }
  rewrite decide_False by lia.
  rewrite (get_le_in _ _ _ _ _ _ Hd) by (try apply length_le16; lia). cbn [rbind].
  rewrite combine_le16, combine_le16_nat by done.
  rewrite decide_False by lia.
  rewrite (slice_in data _ _ (pre ++ le16 (Z.of_nat (length key))) key (le64 ep ++ flag :: post))
    by (rewrite ?length_app, ?length_le16, ?Hd, <- ?app_assoc; try lia; done).
  cbn [rbind].
  rewrite (get_le_in 8 data _ (pre ++ le16 (Z.of_nat (length key)) ++ key) (le64 ep) (flag :: post))
    by (rewrite ?length_app, ?length_le16, ?Hd, <- ?app_assoc; try lia; done).
  cbn [rbind].
  rewrite (byte_at_in data _ (pre ++ le16 (Z.of_nat (length key)) ++ key ++ le64 ep) flag post)
    by (rewrite ?length_app, ?length_le16, ?length_le64, ?Hd, <- ?app_assoc; try lia; done).
  cbn [rbind]. rewrite combine_le64, u64_small by done.
  f_equal.
  - f_equal. rewrite length_app. unfold read_bytes. simpl.
    rewrite !length_app. simpl. autorewrite with dpx. lia.
  - by destruct deb.
Qed.

Lemma unmarshal_reads_bytes rs pre post i :
  Forall wf_read rs →
  unmarshal_reads (pre ++ concat (map read_bytes rs) ++ post) (length rs) i (length pre)
  = Ok (rs, (length pre + length (concat (map read_bytes rs)))%nat).
Proof.
  intros Hwf. revert pre i. induction Hwf as [|re rs Hre _ IH]; intros pre i.
  { simpl. by rewrite Nat.add_0_r. }
  cbn [length map concat]. rewrite <- app_assoc, unmarshal_reads_cons by done.
  rewrite IH. cbn [rbind fst snd]. do 2 f_equal. rewrite !length_app. lia.
Qed.

(** One write entry: the value read back is as long as the 16-bit length field
    says, whatever length was meant. *)
Lemma unmarshal_writes_cons op key vl v n i pre post :
  Z.of_nat (length key) < 2 ^ 16 →
  length v = Z.to_nat (u16 vl) →
  let hdr := op :: le16 (Z.of_nat (length key)) ++ key ++ le16 vl in
  unmarshal_writes (pre ++ hdr ++ v ++ post) (S n) i (length pre)
  = let! rest := unmarshal_writes ((pre ++ hdr ++ v) ++ post) n (S i)
                   (length (pre ++ hdr ++ v)) in
    Ok ({| we_Op := byte.unsigned op; we_Key := key; we_Value := v |} :: rest.1, rest.2).
Proof.
  intros Hk Hv hdr. cbn [unmarshal_writes].
  replace ((pre ++ hdr ++ v) ++ post) with (pre ++ hdr ++ v ++ post)
    by (by rewrite <- !app_assoc).
  set (data := pre ++ hdr ++ v ++ post).
  assert (data = pre ++ op :: le16 (Z.of_nat (length key)) ++ key ++ le16 vl ++ v ++ post) as Hd.
  { unfold data, hdr. simpl. by rewrite <- !app_assoc. }
  assert (length data = length pre + 1 + 2 + length key + 2 + length v + length post)%nat as Hlen.
  { rewrite Hd, length_app. simpl. rewrite !length_app. autorewrite with dpx. lia. }
  rewrite decide_False by lia.
  rewrite (byte_at_in _ _ _ _ _ Hd) by done. cbn [rbind].
  rewrite (get_le_in 2 data _ (pre ++ [op]) (le16 (Z.of_nat (length key))) (key ++ le16 vl ++ v ++ post))
    by (rewrite ?length_app, ?Hd, <- ?app_assoc; done).
  cbn [rbind]. rewrite combine_le16, combine_le16_nat by done.
  rewrite decide_False by lia.
  rewrite (slice_in data _ _ (pre ++ op :: le16 (Z.of_nat (length key))) key (le16 vl ++ v ++ post))
    by (rewrite ?length_app, ?Hd, <- ?app_assoc; simpl; rewrite ?length_le16; try lia; done).
  cbn [rbind].
  rewrite (get_le_in 2 data _ (pre ++ op :: le16 (Z.of_nat (length key)) ++ key) (le16 vl) (v ++ post))
    by (rewrite ?length_app, ?Hd, <- ?app_assoc; simpl; rewrite <- ?app_assoc, ?length_app, ?length_le16; try lia; done).
  cbn [rbind]. rewrite combine_le16, <- Hv.
  rewrite decide_False by lia.
  rewrite (slice_in data _ _ (pre ++ hdr) v post)
    by (unfold hdr; rewrite ?Hd, ?length_app; simpl;
        rewrite ?length_app, ?length_le16; rewrite <- ?app_assoc; simpl; rewrite <- ?app_assoc; try lia; done).
  cbn [rbind]. f_equal. f_equal.
  unfold hdr. rewrite !length_app. simpl. rewrite !length_app. autorewrite with dpx. lia.
Qed.

Lemma unmarshal_writes_bytes ws pre post i :
  Forall wf_write ws →
  unmarshal_writes (pre ++ concat (map write_bytes ws) ++ post) (length ws) i (length pre)
  = Ok (ws, (length pre + length (concat (map write_bytes ws)))%nat).
Proof.
  intros Hwf. revert pre i.
  induction Hwf as [|[op key v] ws (Hop & Hk & Hv) _ IH]; intros pre i.
  { simpl. by rewrite Nat.add_0_r. }
  simpl in Hop, Hk, Hv. cbn [length map concat].
  set (hdr := byte.of_Z op :: le16 (Z.of_nat (length key)) ++ key ++ le16 (Z.of_nat (length v))).
  assert (write_bytes {| we_Op := op; we_Key := key; we_Value := v |} = hdr ++ v) as E.
  { unfold hdr, write_bytes. simpl. by rewrite <- !app_assoc. }
  rewrite E, <- !app_assoc. unfold hdr.
  rewrite unmarshal_writes_cons by (rewrite ?combine_le16_nat; done).
  rewrite IH. cbn [rbind fst snd]. rewrite byte.unsigned_of_Z.
  unfold byte.wrap. rewrite Z.mod_small by lia.
  do 2 f_equal. rewrite !length_app. lia.
Qed.

(** C-level facts about whole buffers. *)
Lemma proposal_bytes_min p : (minProposalBytes ≤ length (proposal_bytes p))%nat.
Proof.
  unfold proposal_bytes, minProposalBytes. rewrite !length_app. autorewrite with dpx. lia.
Qed.

(** Decoding after the read set: what remains is the write section. *)
Lemma Unmarshal_header p0 p wsec pre nw :
  is_u64 (TimestampWall p) → 0 <= TimestampCounter p < 2 ^ 16 →
  Z.of_nat (length (ReadSet p)) < 2 ^ 16 → Forall wf_read (ReadSet p) →
  pre = le64 (TimestampWall p) ++ le16 (TimestampCounter p)
        ++ le16 (Z.of_nat (length (ReadSet p))) ++ concat (map read_bytes (ReadSet p)) →
  Unmarshal p0 (pre ++ le16 nw ++ wsec)
  = let! writes := unmarshal_writes ((pre ++ le16 nw) ++ wsec) (Z.to_nat (u16 nw)) 0
                     (length (pre ++ le16 nw)) in
    Ok {| ReadSet := ReadSet p; Writes := writes.1;
          TimestampWall := TimestampWall p; TimestampCounter := TimestampCounter p |}.
Proof.
  intros Hw Hc Hn Hrs Epre. unfold Unmarshal. rewrite <- app_assoc.
  set (data := pre ++ le16 nw ++ wsec).
  set (rb := concat (map read_bytes (ReadSet p))) in Epre |- *.
  assert (length pre = 12 + length rb)%nat as Hpre
    by (rewrite Epre; rewrite !length_app; autorewrite with dpx; lia).
  assert (length data = length pre + 2 + length wsec)%nat as Hlen
    by (unfold data; rewrite !length_app; autorewrite with dpx; lia).
  rewrite decide_False by (unfold minProposalBytes; lia).
  rewrite (get_le_in 8 data 0 [] (le64 (TimestampWall p))
    (le16 (TimestampCounter p) ++ le16 (Z.of_nat (length (ReadSet p))) ++ rb ++ le16 nw ++ wsec))
    by (unfold data; rewrite ?Epre; rewrite <- ?app_assoc; done).
  cbn [rbind].
  rewrite (get_le_in 2 data 8 (le64 (TimestampWall p)) (le16 (TimestampCounter p))
    (le16 (Z.of_nat (length (ReadSet p))) ++ rb ++ le16 nw ++ wsec))
    by (unfold data; rewrite ?Epre; rewrite <- ?app_assoc; done).
  cbn [rbind].
  rewrite (get_le_in 2 data 10 (le64 (TimestampWall p) ++ le16 (TimestampCounter p))
    (le16 (Z.of_nat (length (ReadSet p)))) (rb ++ le16 nw ++ wsec))
    by (unfold data; rewrite ?Epre; rewrite <- ?app_assoc; done).
  cbn [rbind]. rewrite combine_le64, !combine_le16, combine_le16_nat by done.
  assert (data = (le64 (TimestampWall p) ++ le16 (TimestampCounter p)
          ++ le16 (Z.of_nat (length (ReadSet p)))) ++ rb ++ le16 nw ++ wsec) as Hd
    by (unfold data; rewrite ?Epre; by rewrite <- !app_assoc).
  rewrite Hd at 1. change 12%nat with (length (le64 (TimestampWall p)
    ++ le16 (TimestampCounter p) ++ le16 (Z.of_nat (length (ReadSet p))))).
  unfold rb at 1. rewrite unmarshal_reads_bytes by done. cbn [rbind fst snd]. fold rb.
  rewrite decide_False by (rewrite !length_app; autorewrite with dpx; lia).
  assert (length (le64 (TimestampWall p) ++ le16 (TimestampCounter p)
    ++ le16 (Z.of_nat (length (ReadSet p)))) + length rb = length pre)%nat as ->
    by (rewrite !length_app; autorewrite with dpx; lia).
  rewrite (get_le_in 2 data _ pre (le16 nw) wsec) by done. cbn [rbind].
  rewrite combine_le16, length_app, length_le16, u64_small by done.
  unfold u16. by rewrite (Z.mod_small (TimestampCounter p)) by lia.
Qed.

(** ** Totality and range of the decoder *)

Lemma unmarshal_reads_no_panic data n i pos : unmarshal_reads data n i pos ≠ Panic.
Proof.
  revert i pos. induction n as [|n IH]; intros i pos; [done|].
  cbn [unmarshal_reads]. case_decide; [done|]. read_ok.
  case_decide; [done|]. do 3 read_ok.
  specialize (IH (S i) (pos + 2 + Z.to_nat (le_combine (take 2 (drop pos data))) + 8 + 1)%nat).
  destruct (unmarshal_reads _ n _ _); done.
Qed.

Lemma unmarshal_writes_no_panic data n i pos : unmarshal_writes data n i pos ≠ Panic.
Proof.
  revert i pos. induction n as [|n IH]; intros i pos; [done|].
  cbn [unmarshal_writes]. case_decide; [done|]. do 2 read_ok.
  case_decide; [done|]. do 2 read_ok. case_decide; [done|]. read_ok.
  match goal with |- context [unmarshal_writes data n ?i ?p] =>
    specialize (IH i p); destruct (unmarshal_writes data n i p); done end.
Qed.

Lemma unmarshal_reads_wf data n i pos rs pos' :
  unmarshal_reads data n i pos = Ok (rs, pos') → length rs = n ∧ Forall wf_read rs.
Proof.
  revert i pos rs pos'. induction n as [|n IH]; intros i pos rs pos' H.
  { simpl in H. by simplify_eq. }
  cbn [unmarshal_reads] in H. inv_rbind H. destruct x3 as [rs' p']. simplify_eq/=.
  apply IH in E3 as [<- Hf]. split; [done|]. constructor; [|done].
  apply get_le_inv in E, E1. apply slice_inv in E0. split; [simpl; lia|done].
Qed.

Lemma unmarshal_writes_wf data n i pos ws pos' :
  unmarshal_writes data n i pos = Ok (ws, pos') → length ws = n ∧ Forall wf_write ws.
Proof.
  revert i pos ws pos'. induction n as [|n IH]; intros i pos ws pos' H.
  { simpl in H. by simplify_eq. }
  cbn [unmarshal_writes] in H. inv_rbind H. destruct x4 as [ws' p']. simplify_eq/=.
  apply IH in E4 as [<- Hf]. split; [done|]. constructor; [|done].
  apply get_le_inv in E0, E2. apply slice_inv in E1, E3.
  unfold wf_write; simpl. pose proof (byte.unsigned_range x). lia.
Qed.

(** ** Properties *)

Lemma Unmarshal_bytes p0 p : wf_proposal p → Unmarshal p0 (proposal_bytes p) = Ok p.
Proof.
  intros (Hw & Hc & Hr & Hn & Hrs & Hws). unfold proposal_bytes.
  rewrite 3!app_assoc, (Unmarshal_header p0 p) by (rewrite <- ?app_assoc; done).
  rewrite combine_le16_nat by done.
  rewrite <- (app_nil_r (concat (map write_bytes (Writes p)))).
  rewrite unmarshal_writes_bytes by done. cbn [rbind fst]. by destruct p.
Qed.

Lemma Unmarshal_wf p0 data p :
  Unmarshal p0 data = Ok p → data ≠ [] → wf_proposal p.
Proof.
  unfold Unmarshal. intros H Hne.
  destruct (decide (length data < minProposalBytes)%nat).
  { case_decide as Hl; [|done]. by apply nil_length_inv in Hl. }
  inv_rbind H. destruct x2 as [rs pos], x4 as [ws pos']. simplify_eq/=.
  apply unmarshal_reads_wf in E2 as [Hr Hrs]. apply unmarshal_writes_wf in E4 as [Hn Hws].
  apply get_le_inv in E, E0, E1, E3. unfold wf_proposal, is_u64; simpl. split_and!; try done; lia.
Qed.

(** C19. Every proposal within the format's limits survives the wire: [Marshal]
    fills its pre-sized buffer without a panic and [Unmarshal], whatever the
    receiver held, decodes that buffer to the same proposal. *)
Theorem Marshal_Unmarshal_roundtrip (p p0 : Proposal) :
  wf_proposal p →
  ∃ data, Marshal p = Some data ∧ Unmarshal p0 data = Ok p.
Proof.
  intros Hwf. exists (proposal_bytes p). split; [apply Marshal_bytes|by apply Unmarshal_bytes].
Qed.

Definition sample_proposal : Proposal :=
  {| ReadSet := [{| re_Key := bs "wallet:alice"; re_Epoch := 7; re_IsDebit := true |}];
     Writes := [{| we_Op := OpDebit; we_Key := bs "wallet:alice"; we_Value := encodeInt64 (-100) |};
                {| we_Op := OpCredit; we_Key := bs "wallet:bob"; we_Value := encodeInt64 100 |}];
     TimestampWall := 1700000000; TimestampCounter := 3 |}.

Lemma Marshal_Unmarshal_roundtrip_witness :
  ∃ data, Marshal sample_proposal = Some data ∧ Unmarshal zero_proposal data = Ok sample_proposal.
Proof.
  apply Marshal_Unmarshal_roundtrip. unfold wf_proposal, is_u64. simpl.
  split_and!; try lia; repeat constructor; vm_compute; done.
Defined.

(** [Unmarshal] is total on arbitrary bytes: whatever arrives, no index or
    slice expression of the decoder is out of range. *)
Lemma Unmarshal_never_panics (p : Proposal) (data : bytes) : Unmarshal p data ≠ Panic.
Proof.
  unfold Unmarshal, minProposalBytes. repeat case_decide; try done.
  do 3 read_ok.
  destruct (unmarshal_reads data _ 0 12) as [[rs pos]|?|] eqn:E; cbn [rbind fst snd]; try done.
  2: by apply unmarshal_reads_no_panic in E.
  case_decide; [done|]. read_ok.
  destruct (unmarshal_writes data _ 0 _) as [[ws pos']|?|] eqn:E'; cbn [rbind fst snd]; try done.
  by apply unmarshal_writes_no_panic in E'.
Qed.

(** C20. [Unmarshal] is total and well typed on arbitrary bytes: whatever arrives, no
    index or slice expression of the decoder is out of range, and what is
    accepted is a well-formed proposal, every operation a byte, every epoch and
    timestamp of its width and every length within its 16-bit field, provided
    the receiver, which an empty buffer leaves as it is, was well formed. *)
Theorem Unmarshal_well_typed (p : Proposal) (data : bytes) :
  wf_proposal p →
  match Unmarshal p data with Ok p' => wf_proposal p' | Err _ => True | Panic => False end.
Proof.
  intros Hp. pose proof (Unmarshal_never_panics p data) as Hn.
  destruct (decide (data = [])) as [->|Hne]; [exact Hp|].
  destruct (Unmarshal p data) as [p'|e|] eqn:E; [by eapply Unmarshal_wf|done|done].
Qed.

Lemma Unmarshal_well_typed_witness :
  match Unmarshal zero_proposal (proposal_bytes sample_proposal) with Ok p' => wf_proposal p' | Err _ => True | Panic => False end.
Proof.
  apply Unmarshal_well_typed. unfold wf_proposal, is_u64. simpl. split_and!; try lia; constructor.
Defined.

(** Whatever non-empty buffer is accepted, the decoded proposal is within
    the format's limits, so a proposal received from a peer can be marshalled
    again and decodes to itself. *)
Theorem Unmarshal_reencodes (p0 p1 p : Proposal) (data : bytes) :
  Unmarshal p0 data = Ok p → data ≠ [] →
  ∃ data', Marshal p = Some data' ∧ Unmarshal p1 data' = Ok p.
Proof.
  intros H Hne. exists (proposal_bytes p). split; [apply Marshal_bytes|].
  apply Unmarshal_bytes. eapply Unmarshal_wf; eauto.
Qed.

Lemma Unmarshal_reencodes_witness :
  Unmarshal zero_proposal (replicate 14 x00) = Ok zero_proposal ∧
  ∃ data', Marshal zero_proposal = Some data' ∧ Unmarshal zero_proposal data' = Ok zero_proposal.
Proof.
  split; [reflexivity|].
  apply (Unmarshal_reencodes zero_proposal zero_proposal zero_proposal (replicate 14 x00));
    [reflexivity|done].
Defined.

(** The 16-bit length fields are not checked on encoding: a proposal whose
    only write carries a value of 65536 bytes or more is encoded without an
    error and decodes, without an error, to a proposal whose value is cut to
    its length modulo 65536. *)
Theorem Marshal_truncates_long_value (p p0 : Proposal) (op : Z) (key value : bytes) :
  is_u64 (TimestampWall p) → 0 <= TimestampCounter p < 2 ^ 16 →
  ReadSet p = [] → Writes p = [{| we_Op := op; we_Key := key; we_Value := value |}] →
  0 <= op < 256 → Z.of_nat (length key) < 2 ^ 16 →
  ∃ data, Marshal p = Some data ∧
    Unmarshal p0 data = Ok {| ReadSet := []; TimestampWall := TimestampWall p;
      TimestampCounter := TimestampCounter p;
      Writes := [{| we_Op := op; we_Key := key;
                    we_Value := take (Z.to_nat (Z.of_nat (length value) mod 2 ^ 16)) value |}] |}.
Proof.
  intros Hw Hc Hr Hws Hop Hk. exists (proposal_bytes p). split; [apply Marshal_bytes|].
  unfold proposal_bytes.
  rewrite 3!app_assoc, (Unmarshal_header p0 p)
    by (rewrite <- ?app_assoc, ?Hr; try done; simpl; lia).
  rewrite Hr, Hws. change (Z.of_nat (length [_])) with 1.
  change (Z.to_nat (u16 1)) with 1%nat. cbn [map concat].
  rewrite !app_nil_r. generalize ((le64 (TimestampWall p) ++ le16 (TimestampCounter p))
    ++ le16 (Z.of_nat (@length ReadEntry []))). intros pre0.
  set (vl := Z.of_nat (length value)). set (n := Z.to_nat (u16 vl)).
  assert (n ≤ length value)%nat as Hn.
  { unfold n, u16, vl. pose proof (Z.mod_le (Z.of_nat (length value)) (2 ^ 16)). lia. }
  assert (write_bytes {| we_Op := op; we_Key := key; we_Value := value |}
          = (byte.of_Z op :: le16 (Z.of_nat (length key)) ++ key ++ le16 vl)
            ++ take n value ++ drop n value) as ->.
  { unfold write_bytes, vl. simpl. rewrite take_drop. by rewrite <- !app_assoc. }
  rewrite unmarshal_writes_cons by (rewrite ?length_take; unfold n in *; try lia; done).
  cbn [rbind unmarshal_writes fst]. rewrite byte.unsigned_of_Z.
  unfold byte.wrap. by rewrite (Z.mod_small op) by lia.
Qed.

Definition long_proposal : Proposal :=
  {| ReadSet := []; TimestampWall := 1; TimestampCounter := 0;
     Writes := [{| we_Op := OpSet; we_Key := bs "k";
                   we_Value := replicate (Z.to_nat 65536) x61 |}] |}.

Lemma Marshal_truncates_long_value_witness :
  ∃ data, Marshal long_proposal = Some data ∧
    Unmarshal zero_proposal data = Ok {| ReadSet := []; TimestampWall := 1; TimestampCounter := 0;
      Writes := [{| we_Op := OpSet; we_Key := bs "k"; we_Value := [] |}] |}.
Proof.
  destruct (Marshal_truncates_long_value long_proposal zero_proposal OpSet (bs "k")
    (replicate (Z.to_nat 65536) x61)) as (data & Hd & Hu);
    [vm_compute; done | simpl; lia | done | done | vm_compute; done | vm_compute; done |].
  exists data. split; [exact Hd|]. rewrite Hu. by rewrite length_replicate.
Defined.
