(* ===== verification/EngineSpec.v ===== *)
(** * The storage-engine contract (src/engine/engine.go)

    What DPX asks of a storage engine: an abstract store (a finite map from keys
    to values), the effect of the three batch operations on it, the ordered
    range scans, and the [StorageEngine] interface as a class of operations with
    a class of laws. Every operation that can fail returns its error. The
    proposers and the transaction layer are verified against the laws; the
    engines discharge them. *)

From S2P Require Import Prelude Types.

Abbreviation store :=
  (@gmap (list Init.Byte.byte) (@list_eq_dec Init.Byte.byte byte_eq_dec)
     (@list_countable Init.Byte.byte byte_eq_dec byte_countable) (list Init.Byte.byte)).

(** ** Batch operations and their effect *)

(** A buffered mutation: the operation byte ['s'], ['d'] or ['m'] of the
    engines' [batchOp] with its operands. *)
Inductive bop :=
  | BSet (k v : bytes)
  | BDelete (k : bytes)
  | BMerge (k delta : bytes).

#[export] Instance bop_eq_dec : EqDecision bop.
Proof. solve_decision. Defined.

Definition bop_key (o : bop) : bytes :=
  match o with BSet k _ | BDelete k | BMerge k _ => k end.

(** [mergeInt64]: int64 addition, an absent or short value counting as zero. *)
Definition mergeInt64 (base delta : bytes) : bytes :=
  encodeInt64 (i64 (decodeInt64 base + decodeInt64 delta)).

(** The effect of one operation on the value of its key. *)
Definition bop_value (o : bop) (old : option bytes) : option bytes :=
  match o with
  | BSet _ v => Some v
  | BDelete _ => None
  | BMerge _ d => Some (mergeInt64 (default [] old) d)
  end.

Definition spec_op (m : store) (o : bop) : store :=
  partial_alter (bop_value o) (bop_key o) m.

Definition spec_ops (m : store) (ops : list bop) : store := foldl spec_op m ops.

(** ** Ordered ranges *)

(** [start <= k && (end == "" || k < end)] *)
Definition in_range (s e k : bytes) : Prop := bytes_le s k ∧ (e = [] ∨ bytes_lt k e).

#[export] Instance in_range_dec s e k : Decision (in_range s e k).
Proof. unfold in_range. apply _. Defined.

Definition pair_le (a b : bytes * bytes) : Prop := bytes_le a.1 b.1.
#[export] Instance pair_le_dec a b : Decision (pair_le a b).
Proof. unfold pair_le. apply _. Defined.

(** [sort.Slice(pairs, func(i, j int) bool { return pairs[i].key < pairs[j].key })]:
    the keys being distinct, every sorting algorithm gives the same result. *)
Definition sort_pairs (l : list (bytes * bytes)) : list (bytes * bytes) := merge_sort pair_le l.

(** The pairs of a store within a range, in key order. *)
Definition range_pairs (s e : bytes) (m : store) : list (bytes * bytes) :=
  sort_pairs (filter (fun p => in_range s e p.1) (map_to_list m)).

(** The same without the keys of the reserved prefix. *)
Definition user_pairs (s e : bytes) (m : store) : list (bytes * bytes) :=
  sort_pairs (filter (fun p => in_range s e p.1 ∧ isReserved p.1 = false) (map_to_list m)).

(** ** The interface *)

(** Errors of an engine. *)
Inductive engErr := ErrKeyNotFound | ErrEngine (msg : string).

#[export] Instance engErr_eq_dec : EqDecision engErr.
Proof. solve_decision. Defined.

(** A lookup that cannot fail otherwise than by missing its key. *)
Definition found {A} (o : option A) : A + engErr :=
  match o with Some v => inl v | None => inr ErrKeyNotFound end.

(** [if err != nil && !errors.Is(err, ErrKeyNotFound) { return err }]: a missing
    key leaves the zero value. *)
Definition absent_ok {A} (zero : A) (r : A + engErr) : A + engErr :=
  match r with inr ErrKeyNotFound => inl zero | r => r end.

Class StorageEngine (Eng Snap Bat : Type) := {
  eng_Get : Eng → bytes → bytes + engErr;
  eng_GetSnapshot : Eng → Snap + engErr;
  eng_NewBatch : Eng → Bat;
  bat_Set : Bat → bytes → bytes → Bat;
  bat_Delete : Bat → bytes → Bat;
  bat_Merge : Bat → bytes → bytes → Bat;
  eng_ApplyBatch : Eng → Bat → bool → Eng * option engErr;  (* [bool] is [WriteOptions.Sync] *)
  eng_Sync : Eng → option engErr;
  eng_CurrentSequence : Eng → Z;
  eng_RawIter : Eng → bytes → bytes → list (bytes * bytes) * option engErr;
  snap_Get : Snap → bytes → bytes + engErr;
  snap_GetVersion : Snap → bytes → EpochRecord + engErr;
  snap_NewIter : Snap → bytes → bytes → list (bytes * bytes) * option engErr;
  snap_Sequence : Snap → Z;
}.

(** What a lookup says of the value of its key: an error other than
    [ErrKeyNotFound] says nothing. *)
Definition answers (m : option bytes) (r : bytes + engErr) : Prop :=
  match r with inl v => m = Some v | inr ErrKeyNotFound => m = None | inr (ErrEngine _) => True end.

(** The same of a version lookup, given the stored version record. *)
Definition answers_version (m : option bytes) (r : EpochRecord + engErr) : Prop :=
  match r with
  | inl v => v = from_option decodeEpochRecord0 zero_epoch m
  | inr ErrKeyNotFound => m = None
  | inr (ErrEngine _) => True
  end.

(** The laws, stated against the abstract store. [eng_inv] and [bat_inv] are
    the engine's own invariants. An operation that reports an error promises
    nothing: neither about the value it was asked for nor, for [ApplyBatch],
    about the store it leaves. *)
Class EngineLaws (Eng Snap Bat : Type) `{StorageEngine Eng Snap Bat} := {
  eng_inv : Eng → Prop;
  bat_inv : Eng → Bat → Prop;
  eng_abs : Eng → store;
  bat_denote : Bat → store → store;
  law_get e k : eng_inv e → answers (eng_abs e !! k) (eng_Get e k);
  law_snap_get e s k : eng_inv e → eng_GetSnapshot e = inl s →
    answers (eng_abs e !! k) (snap_Get s k);
  law_snap_version e s k : eng_inv e → eng_GetSnapshot e = inl s →
    answers_version (eng_abs e !! versionKey k) (snap_GetVersion s k);
  law_new_inv e : bat_inv e (eng_NewBatch e);
  law_set_inv e b k v : bat_inv e b → bat_inv e (bat_Set b k v);
  law_delete_inv e b k : bat_inv e b → bat_inv e (bat_Delete b k);
  law_merge_inv e b k v : bat_inv e b → bat_inv e (bat_Merge b k v);
  law_new e m : bat_denote (eng_NewBatch e) m = m;
  law_set e b k v m : bat_inv e b →
    bat_denote (bat_Set b k v) m = spec_op (bat_denote b m) (BSet k v);
  law_delete e b k m : bat_inv e b →
    bat_denote (bat_Delete b k) m = spec_op (bat_denote b m) (BDelete k);
  law_merge e b k v m : bat_inv e b →
    bat_denote (bat_Merge b k v) m = spec_op (bat_denote b m) (BMerge k v);
  law_apply e b sync e' : eng_inv e → bat_inv e b →
    eng_ApplyBatch e b sync = (e', None) →
    eng_inv e' ∧ eng_abs e' = bat_denote b (eng_abs e);
  law_raw_iter e s t l : eng_inv e →
    eng_RawIter e s t = (l, None) → l = range_pairs s t (eng_abs e);
  law_new_iter e sn s t l : eng_inv e → eng_GetSnapshot e = inl sn →
    snap_NewIter sn s t = (l, None) → l = user_pairs s t (eng_abs e);
}.

(** No read of the snapshot fails otherwise than by a missing key. *)
Definition reads_ok {Eng Snap Bat : Type} `{StorageEngine Eng Snap Bat} (s : Snap) : Prop :=
  ∀ k msg, snap_Get s k ≠ inr (ErrEngine msg) ∧ snap_GetVersion s k ≠ inr (ErrEngine msg).

(** An engine whose operations never report an error, a missing key apart: what
    the in-memory engines are. Assumed only where a theorem says that something
    succeeds; the others are conditional on the run at hand. *)
Class InfallibleEngine (Eng Snap Bat : Type) `{EngineLaws Eng Snap Bat} := {
  apply_no_error e b sync : bat_inv e b → (eng_ApplyBatch e b sync).2 = None;
  sync_no_error e : eng_Sync e = None;
  snapshot_no_error e : ∃ s, eng_GetSnapshot e = inl s;
  reads_no_error e s : eng_GetSnapshot e = inl s → reads_ok s;
  raw_iter_no_error e s t : (eng_RawIter e s t).2 = None;
}.

(** ** Lemmas on lookups *)

Lemma answers_found o : answers o (found o).
Proof. by destruct o. Qed.

Lemma answers_inl m v : answers m (inl v) → m = Some v.
Proof. done. Qed.

(** A lookup that did not fail is determined by the stored value. *)
Lemma answers_ok m r : answers m r → (∀ msg, r ≠ inr (ErrEngine msg)) → r = found m.
Proof.
  intros Ha Hr. destruct r as [v|[|msg]]; simpl in Ha; [by subst..|]. by destruct (Hr msg).
Qed.

Lemma answers_version_ok m r :
  answers_version m r → (∀ msg, r ≠ inr (ErrEngine msg)) →
  absent_ok zero_epoch r = inl (from_option decodeEpochRecord0 zero_epoch m).
Proof.
  intros Ha Hr. destruct r as [v|[|msg]]; simpl in Ha; [by subst..|]. by destruct (Hr msg).
Qed.

Lemma absent_ok_inl {A} (zero : A) r v :
  absent_ok zero r = inl v → r = inl v ∨ (r = inr ErrKeyNotFound ∧ v = zero).
Proof. destruct r as [w|[|msg]]; simpl; intros; simplify_eq; auto. Qed.

(** ** Lemmas on the abstract operations *)

Lemma lookup_spec_op m o k :
  spec_op m o !! k = if decide (bop_key o = k) then bop_value o (m !! k) else m !! k.
Proof.
  unfold spec_op. case_decide as E; [subst; by rewrite lookup_partial_alter_eq|].
  by rewrite lookup_partial_alter_ne.
Qed.

Lemma lookup_spec_op_ne m o k : bop_key o ≠ k → spec_op m o !! k = m !! k.
Proof. intros. rewrite lookup_spec_op. by rewrite decide_False. Qed.

Lemma spec_ops_app m l1 l2 : spec_ops m (l1 ++ l2) = spec_ops (spec_ops m l1) l2.
Proof. apply foldl_app. Qed.

Lemma spec_ops_cons m o l : spec_ops m (o :: l) = spec_ops (spec_op m o) l.
Proof. done. Qed.

(** The value of a key after a batch depends only on that key's operations. *)
Definition key_value (k : bytes) (ops : list bop) (old : option bytes) : option bytes :=
  foldl (fun v o => if decide (bop_key o = k) then bop_value o v else v) old ops.

Lemma lookup_spec_ops ops m k : spec_ops m ops !! k = key_value k ops (m !! k).
Proof.
  revert m. induction ops as [|o ops IH]; intros m; [done|].
  rewrite spec_ops_cons, IH, lookup_spec_op. reflexivity.
Qed.

Lemma lookup_spec_ops_notin ops m k :
  k ∉ map bop_key ops → spec_ops m ops !! k = m !! k.
Proof.
  revert m. induction ops as [|o ops IH]; intros m Hk; [done|].
  simpl in Hk. apply not_elem_of_cons in Hk as [Hne Hk].
  by rewrite spec_ops_cons, IH, lookup_spec_op_ne by done.
Qed.

(** Operations on different keys commute. *)
Lemma spec_op_comm m o1 o2 :
  bop_key o1 ≠ bop_key o2 → spec_op (spec_op m o1) o2 = spec_op (spec_op m o2) o1.
Proof.
  intros Hne. apply map_eq. intros k. rewrite !lookup_spec_op.
  repeat case_decide; congruence.
Qed.

Lemma decode_merge base d : decodeInt64 (mergeInt64 base d) = i64 (decodeInt64 base + decodeInt64 d).
Proof. unfold mergeInt64. by autorewrite with dpx. Qed.

(** Two merges of the same key can be swapped: int64 addition wraps, but it
    still commutes. *)
Lemma mergeInt64_comm base d1 d2 :
  mergeInt64 (mergeInt64 base d1) d2 = mergeInt64 (mergeInt64 base d2) d1.
Proof.
  unfold mergeInt64. rewrite !decode_encode_int64, !i64_add_l. do 2 f_equal. lia.
Qed.

Definition is_merge (o : bop) : Prop := match o with BMerge _ _ => True | _ => False end.

Lemma spec_op_merge_comm m o1 o2 :
  is_merge o1 → is_merge o2 → spec_op (spec_op m o1) o2 = spec_op (spec_op m o2) o1.
Proof.
  intros H1 H2. destruct (decide (bop_key o1 = bop_key o2)) as [E|E].
  - apply map_eq. intros k. destruct o1 as [| |k1 d1], o2 as [| |k2 d2]; try done.
    simpl in E. subst k2. rewrite !lookup_spec_op. simpl. case_decide; [|done].
    simpl. f_equal. apply mergeInt64_comm.
  - by apply spec_op_comm.
Qed.

(** ** Lemmas on ordered ranges *)

#[export] Instance pair_le_trans : Transitive pair_le.
Proof. intros a b c. unfold pair_le. apply bytes_le_trans. Qed.
#[export] Instance pair_le_total : Total pair_le.
Proof. intros a b. apply bytes_le_total. Qed.

Lemma sort_pairs_perm l : sort_pairs l ≡ₚ l.
Proof. apply merge_sort_Permutation. Qed.

(** With distinct keys, sorting is canonical. *)
Lemma sort_pairs_unique l l' :
  NoDup l.*1 → Sorted pair_le l' → l' ≡ₚ l → l' = sort_pairs l.
Proof.
  intros Hnd Hs Hp.
  apply (Sorted_unique_strong pair_le); [|done| |].
  - intros [k1 v1] [k2 v2] H1 H2 Hle1 Hle2.
    assert (k1 = k2) as -> by (apply (anti_symm bytes_le); done).
    rewrite Hp in H1. rewrite sort_pairs_perm in H2.
    f_equal. eapply NoDup_fst_inj; eauto.
  - apply Sorted_merge_sort. apply _.
  - by rewrite sort_pairs_perm.
Qed.

(** [data[k] = v] for a list of pairs with distinct keys. *)
Lemma foldl_insert_list_to_map (l : list (bytes * bytes)) (m : store) :
  NoDup l.*1 → foldl (fun m p => <[p.1 := p.2]> m) m l = list_to_map l ∪ m.
Proof.
  revert m. induction l as [|[k v] l IH]; intros m Hnd; simpl.
  { by rewrite (left_id_L ∅ (∪)). }
  apply NoDup_cons in Hnd as [Hk Hnd]. rewrite IH by done. simpl.
  rewrite <- insert_union_l, <- insert_union_r; [done|].
  by apply not_elem_of_list_to_map.
Qed.

(** ** Building a batch through the interface *)

Section batches.
Context {Eng Snap Bat : Type} `{EngineLaws Eng Snap Bat}.

Definition bat_add (b : Bat) (o : bop) : Bat :=
  match o with
  | BSet k v => bat_Set b k v
  | BDelete k => bat_Delete b k
  | BMerge k d => bat_Merge b k d
  end.

Lemma bat_add_inv e b o : bat_inv e b → bat_inv e (bat_add b o).
Proof. destruct o; [apply law_set_inv|apply law_delete_inv|apply law_merge_inv]. Qed.

Lemma bat_add_denote e b o m :
  bat_inv e b → bat_denote (bat_add b o) m = spec_op (bat_denote b m) o.
Proof. destruct o; [apply law_set|apply law_delete|apply law_merge]. Qed.

(** A batch that stands for a list of operations, buffered for [e]. *)
Definition bat_is (e : Eng) (b : Bat) (ops : list bop) : Prop :=
  bat_inv e b ∧ ∀ m, bat_denote b m = spec_ops m ops.

Lemma bat_is_new e : bat_is e (eng_NewBatch e) [].
Proof. split; [apply law_new_inv|apply law_new]. Qed.

Lemma bat_is_add e b ops o : bat_is e b ops → bat_is e (bat_add b o) (ops ++ [o]).
Proof.
  intros [Hi Hd]. split; [by apply bat_add_inv|]. intros m.
  rewrite (bat_add_denote e), Hd, spec_ops_app by done. done.
Qed.

Lemma bat_is_adds e b ops ops' : bat_is e b ops → bat_is e (foldl bat_add b ops') (ops ++ ops').
Proof.
  revert b ops. induction ops' as [|o ops' IH]; intros b ops Hb; simpl; [by rewrite app_nil_r|].
  rewrite cons_middle, app_assoc. apply IH. by apply bat_is_add.
Qed.

Lemma bat_is_apply e b ops sync e' :
  eng_inv e → bat_is e b ops → eng_ApplyBatch e b sync = (e', None) →
  eng_inv e' ∧ eng_abs e' = spec_ops (eng_abs e) ops.
Proof. intros Hi [Hb Hd] Ha. rewrite <- Hd. by eapply law_apply. Qed.
End batches.

#[export] Hint Resolve bat_is_new bat_is_add bat_is_adds : dpx.
