(* ===== verification/Codecs.v ===== *)
(** * The copies of the encodings

    Every package has its own copy of the small codecs: the helpers of dpx
    (src/helpers.go), the state machine (src/conductor/fsm.go), and the engines
    (src/engine/memory/memory.go, src/engine/memory/mvcc.go,
    src/engine/oshodi/oshodi.go, src/engine/badger/badger.go,
    src/engine/pebble/pebble.go). Here they are written with the indexing and
    slicing of the source, which panic out of range; none ever does, and all
    agree with the encodings of Types.v that the components use. *)

From S2P Require Import Prelude Types EngineSpec.

Inductive noErr :=.
Abbreviation res := (result noErr).

(** [binary.LittleEndian.PutUint64(b, v)] and [b[i] = x] on a buffer. *)
Definition PutUint64 (b : bytes) (v : Z) : res bytes :=
  if decide (8 ≤ length b)%nat then Ok (le64 v ++ drop 8 b) else Panic.
Definition put_byte (b : bytes) (i : nat) (x : byte) : res bytes :=
  if decide (i < length b)%nat then Ok (<[i := x]> b) else Panic.

(** [string(key[:n])] *)
Definition slice_to (b : bytes) (n : nat) : res bytes := slice b 0 n.

(** [len(key) >= len(prefix) && key[:len(prefix)] == prefix] *)
Definition has_reserved_prefix (key : bytes) : res bool :=
  if decide (length (bs "__dpx:") ≤ length key)%nat
  then let! p := slice_to key (length (bs "__dpx:")) in Ok (bool_decide (p = bs "__dpx:"))
  else Ok false.

Module Helpers.
(** EncodeEpochRecordInto *)
Definition EncodeEpochRecordInto (er : EpochRecord) (buf : bytes) : res bytes :=
  let! b := slice_to buf 9 in
  let! b := PutUint64 b (Epoch er) in
  if IsCredit er then put_byte b 8 x01 else put_byte b 8 x00.

(** DecodeEpochRecord *)
Definition DecodeEpochRecord (b : bytes) : res (EpochRecord * bool) :=
  if decide (length b < 9)%nat then Ok (zero_epoch, false)
  else
    let! epoch := get_le 8 b 0 in
    let! c := byte_at b 8 in
    Ok ({| Epoch := epoch; IsCredit := bool_decide (c = x01) |}, true).

(** EncodeUint64Into *)
Definition EncodeUint64Into (v : Z) (buf : bytes) : res bytes :=
  let! b := slice_to buf 8 in PutUint64 b v.

Definition encodeInt64 (v : Z) : res bytes := PutUint64 (replicate 8 x00) (u64 v).
Definition decodeInt64 (b : bytes) : res Z :=
  if decide (length b < 8)%nat then Ok 0 else let! u := get_le 8 b 0 in Ok (i64 u).
End Helpers.

Module FsmCodec.
Definition encodeEpochRecord (er : EpochRecord) (buf : bytes) : res bytes :=
  let! b := slice_to buf 9 in
  let! b := PutUint64 b (Epoch er) in
  if IsCredit er then put_byte b 8 x01 else put_byte b 8 x00.
Definition decodeEpochRecord (b : bytes) : res (EpochRecord * bool) :=
  if decide (length b < 9)%nat then Ok (zero_epoch, false)
  else
    let! epoch := get_le 8 b 0 in
    let! c := byte_at b 8 in
    Ok ({| Epoch := epoch; IsCredit := bool_decide (c = x01) |}, true).
Definition encodeUint64 (v : Z) (buf : bytes) : res bytes :=
  let! b := slice_to buf 8 in PutUint64 b v.
End FsmCodec.

Module MemoryCodec.
Definition encodeInt64 (v : Z) : res bytes := PutUint64 (replicate 8 x00) (u64 v).
Definition decodeInt64 (b : bytes) : res Z :=
  if decide (length b < 8)%nat then Ok 0 else let! u := get_le 8 b 0 in Ok (i64 u).
Definition mergeInt64 (base delta : bytes) : res bytes :=
  let! x := decodeInt64 base in let! y := decodeInt64 delta in encodeInt64 (i64 (x + y)).
Definition decodeEpochRecord (b : bytes) : res EpochRecord :=
  if decide (length b < 9)%nat then Ok zero_epoch
  else
    let! b8 := slice_to b 8 in
    let! epoch := get_le 8 b8 0 in
    let! c := byte_at b 8 in
    Ok {| Epoch := epoch; IsCredit := bool_decide (c = x01) |}.
Definition isReserved (key : bytes) : res bool := has_reserved_prefix key.
End MemoryCodec.

Module MvccCodec.
Definition encodeInt64MVCC (v : Z) : res bytes := PutUint64 (replicate 8 x00) (u64 v).
Definition decodeInt64MVCC (b : bytes) : res Z :=
  if decide (length b < 8)%nat then Ok 0 else let! u := get_le 8 b 0 in Ok (i64 u).
Definition decodeEpochRecordMVCC (b : bytes) : res EpochRecord :=
  if decide (length b < 9)%nat then Ok zero_epoch
  else
    let! b8 := slice_to b 8 in
    let! epoch := get_le 8 b8 0 in
    let! c := byte_at b 8 in
    Ok {| Epoch := epoch; IsCredit := bool_decide (c = x01) |}.
End MvccCodec.

Module OshodiCodec.
Definition encodeInt64 (v : Z) : res bytes := PutUint64 (replicate 8 x00) (u64 v).
Definition decodeInt64 (b : bytes) : res Z :=
  if decide (length b < 8)%nat then Ok 0 else let! u := get_le 8 b 0 in Ok (i64 u).
Definition decodeEpochRecord (b : bytes) : res EpochRecord :=
  if decide (length b < 9)%nat then Ok zero_epoch
  else
    let! b8 := slice_to b 8 in
    let! epoch := get_le 8 b8 0 in
    let! c := byte_at b 8 in
    Ok {| Epoch := epoch; IsCredit := bool_decide (c = x01) |}.
End OshodiCodec.

Module BadgerCodec.
Definition isReserved (key : bytes) : res bool := has_reserved_prefix key.
Definition decodeEpochRecord (b : bytes) : res EpochRecord :=
  if decide (length b < 9)%nat then Ok zero_epoch
  else
    let! epoch := get_le 8 b 0 in
    let! c := byte_at b 8 in
    Ok {| Epoch := epoch; IsCredit := bool_decide (c = x01) |}.
End BadgerCodec.

Module PebbleCodec.
Definition isReserved (key : bytes) : res bool := has_reserved_prefix key.
Definition decodeEpochRecord (b : bytes) : res EpochRecord :=
  if decide (length b < 9)%nat then Ok zero_epoch
  else
    let! epoch := get_le 8 b 0 in
    let! c := byte_at b 8 in
    Ok {| Epoch := epoch; IsCredit := bool_decide (c = x01) |}.
End PebbleCodec.

(** ** All agree *)

Lemma encodeInt64_codec v : PutUint64 (replicate 8 x00) (u64 v) = Ok (encodeInt64 v).
Proof. reflexivity. Qed.

Lemma decodeInt64_codec b : MemoryCodec.decodeInt64 b = Ok (decodeInt64 b).
Proof.
  unfold MemoryCodec.decodeInt64, decodeInt64. case_decide; [done|]. by rewrite get_le_ok by lia.
Qed.

(** The record as the copies read it, directly or through [b[:8]]. *)
Lemma decode_record_codec b :
  MemoryCodec.decodeEpochRecord b = Ok (decodeEpochRecord0 b)
  ∧ BadgerCodec.decodeEpochRecord b = Ok (decodeEpochRecord0 b).
Proof.
  unfold MemoryCodec.decodeEpochRecord, BadgerCodec.decodeEpochRecord, decodeEpochRecord0, slice_to.
  case_decide; [done|]. destruct (@byte_at_ok noErr b 8) as (c & Hc & Hb); [lia|].
  rewrite slice_ok by lia. cbn [rbind]. rewrite drop_0.
  rewrite (get_le_ok 8 (take 8 b) 0) by (rewrite length_take; lia). rewrite (get_le_ok 8 b 0) by lia.
  cbn [rbind]. rewrite Hc, Hb, !drop_0, take_take. cbn [rbind].
  split; do 2 f_equal; apply bool_decide_ext; naive_solver.
Qed.

Lemma decode_checked_codec b :
  Helpers.DecodeEpochRecord b = Ok (decodeEpochRecord0 b, bool_decide (decodeEpochRecord b ≠ None)).
Proof.
  destruct (decode_record_codec b) as [_ Hb]. unfold BadgerCodec.decodeEpochRecord in Hb.
  unfold Helpers.DecodeEpochRecord, decodeEpochRecord. case_decide; [by injection Hb as <-|].
  destruct (get_le 8 b 0) as [x| |]; [|done..]. cbn [rbind] in Hb |- *.
  destruct (byte_at b 8) as [c| |]; [|done..]. cbn [rbind] in Hb |- *. injection Hb as <-. done.
Qed.

Lemma encode_record_codec er buf :
  (9 ≤ length buf)%nat → Helpers.EncodeEpochRecordInto er buf = Ok (encodeEpochRecord er).
Proof.
  intros Hl. unfold Helpers.EncodeEpochRecordInto, slice_to, encodeEpochRecord. rewrite slice_ok by lia.
  cbn [rbind]. rewrite drop_0. unfold PutUint64. rewrite length_take, decide_True by lia. cbn [rbind].
  destruct (drop 8 (take 9 buf)) as [|x t] eqn:E.
  { apply (f_equal length) in E. rewrite length_drop, length_take in E. cbn [length] in E. lia. }
  assert (t = []) as ->.
  { apply (f_equal length) in E. rewrite length_drop, length_take in E. cbn [length] in E.
    destruct t; [done|cbn [length] in E; lia]. }
  unfold put_byte. rewrite length_app, length_le64. simpl.
  destruct (IsCredit er); f_equal;
    (rewrite insert_app_r_alt by (rewrite length_le64; lia); by rewrite length_le64).
Qed.

Lemma encodeUint64_codec v buf : (8 ≤ length buf)%nat → Helpers.EncodeUint64Into v buf = Ok (encodeUint64 v).
Proof.
  intros Hl. unfold Helpers.EncodeUint64Into, slice_to. rewrite slice_ok by lia. cbn [rbind]. unfold PutUint64.
  rewrite drop_0, length_take, decide_True by lia. rewrite drop_ge by (rewrite length_take; lia). by rewrite app_nil_r.
Qed.

Lemma isReserved_codec key : has_reserved_prefix key = Ok (isReserved key).
Proof.
  unfold has_reserved_prefix, isReserved, slice_to. change dpxPrefixBytes with (bs "__dpx:"). case_decide as E.
  - rewrite slice_ok by lia. cbn [rbind]. rewrite drop_0.
    by rewrite (bool_decide_true (length (bs "__dpx:") ≤ length key)%nat) by done.
  - by rewrite (bool_decide_false (length (bs "__dpx:") ≤ length key)%nat) by done.
Qed.

(** The copies of the codecs agree: on every input no copy indexes or slices
    out of range, all decoders of integers and of version records give the value
    the components use, a short record being reported by those that report it,
    the encoders fill a large enough buffer with the same bytes whatever it
    held, and what is encoded is decoded again. *)
Theorem codecs_agree (b key base delta buf : bytes) (v : Z) (er : EpochRecord) :
  (Helpers.decodeInt64 b = Ok (decodeInt64 b) ∧ MemoryCodec.decodeInt64 b = Ok (decodeInt64 b)
   ∧ MvccCodec.decodeInt64MVCC b = Ok (decodeInt64 b) ∧ OshodiCodec.decodeInt64 b = Ok (decodeInt64 b))
  ∧ (Helpers.encodeInt64 v = Ok (encodeInt64 v) ∧ MemoryCodec.encodeInt64 v = Ok (encodeInt64 v)
   ∧ MvccCodec.encodeInt64MVCC v = Ok (encodeInt64 v) ∧ OshodiCodec.encodeInt64 v = Ok (encodeInt64 v)
   ∧ decodeInt64 (encodeInt64 v) = i64 v)
  ∧ (MemoryCodec.decodeEpochRecord b = Ok (decodeEpochRecord0 b)
   ∧ MvccCodec.decodeEpochRecordMVCC b = Ok (decodeEpochRecord0 b)
   ∧ OshodiCodec.decodeEpochRecord b = Ok (decodeEpochRecord0 b)
   ∧ BadgerCodec.decodeEpochRecord b = Ok (decodeEpochRecord0 b)
   ∧ PebbleCodec.decodeEpochRecord b = Ok (decodeEpochRecord0 b))
  ∧ (let r := Ok (decodeEpochRecord0 b, bool_decide (decodeEpochRecord b ≠ None)) in
   Helpers.DecodeEpochRecord b = r ∧ FsmCodec.decodeEpochRecord b = r)
  ∧ (MemoryCodec.isReserved key = Ok (isReserved key) ∧ BadgerCodec.isReserved key = Ok (isReserved key)
   ∧ PebbleCodec.isReserved key = Ok (isReserved key))
  ∧ MemoryCodec.mergeInt64 base delta = Ok (mergeInt64 base delta)
  ∧ ((9 ≤ length buf)%nat →
     Helpers.EncodeEpochRecordInto er buf = Ok (encodeEpochRecord er)
     ∧ FsmCodec.encodeEpochRecord er buf = Ok (encodeEpochRecord er)
     ∧ Helpers.EncodeUint64Into v buf = Ok (encodeUint64 v) ∧ FsmCodec.encodeUint64 v buf = Ok (encodeUint64 v)).
Proof.
  pose proof (decodeInt64_codec b) as Hd. destruct (decode_record_codec b) as [Hm Hb].
  split_and!; try done; try apply isReserved_codec.
  - apply decode_encode_int64.
  - split; exact (decode_checked_codec b).
  - unfold MemoryCodec.mergeInt64. by rewrite !decodeInt64_codec.
  - intros Hl. split_and!; [by apply encode_record_codec|exact (encode_record_codec er buf Hl)| |].
    + apply encodeUint64_codec. lia.
    + refine (encodeUint64_codec v buf _). lia.
Qed.
