(* ===== verification/Shard.v ===== *)
(** * Shard routing

    The 32-bit FNV-1a hash that assigns a key to one of 128 shards, in its two
    copies: the storage engine's (src/engine/memory/memory.go, through the
    standard library's hash/fnv) and the proposer's own loop
    (src/conductor/sharded_direct.go), which must agree. *)

From S2P Require Import Prelude.

Definition numShards : nat := 128.
Definition shardMask : Z := 127.

(** ** conductor/sharded_direct.go *)

Definition offset32 : Z := 2166136261.
Definition prime32 : Z := 16777619.

(** One round of the loop: [h ^= uint32(key[i]); h *= prime32]. *)
Definition fnv_round (h : Z) (c : byte) : Z := u32 (Z.lxor h (byte.unsigned c) * prime32).

Definition conductor_shardFor (key : bytes) : nat :=
  Z.to_nat (Z.land (foldl fnv_round offset32 key) (Z.of_nat numShards - 1)).

(** ** engine/memory/memory.go, with hash/fnv's [sum32a] *)

Module fnv.
(** [type sum32a uint32] *)
Definition New32a : Z := 2166136261.
(** [for _, c := range data { hash ^= sum32a(c); hash *= prime32 }] *)
Definition Write (h : Z) (data : bytes) : Z :=
  fold_left (fun hash c => u32 (Z.lxor hash (byte.unsigned c) * 16777619)) data h.
Definition Sum32 (h : Z) : Z := h.
End fnv.

Definition shardFor (key : bytes) : nat :=
  let h := fnv.New32a in
  let h := fnv.Write h key in
  Z.to_nat (Z.land (fnv.Sum32 h) shardMask).

(** ** The copies agree, and every key has a shard *)

Lemma fnv_Write_rounds h key : fnv.Write h key = foldl fnv_round h key.
Proof. revert h. induction key as [|c key IH]; intros h; [done|]. apply IH. Qed.

Lemma shardFor_conductor key : conductor_shardFor key = shardFor key.
Proof. unfold conductor_shardFor, shardFor. by rewrite fnv_Write_rounds. Qed.

Lemma shardFor_lt key : (shardFor key < numShards)%nat.
Proof.
  unfold shardFor. generalize (fnv.Sum32 (fnv.Write fnv.New32a key)). intros h.
  change shardMask with (Z.ones 7). rewrite Z.land_ones by lia.
  pose proof (Z.mod_pos_bound h (2 ^ 7) eq_refl). unfold numShards. lia.
Qed.

(** ** Keys with a common prefix

    Only the low seven bits of the state reach the shard, and each round is
    injective on them: the prime is odd, and 27 is its inverse modulo 128. *)

Lemma fnv_round_low h c :
  fnv_round h c mod 2 ^ 7 = Z.lxor (h mod 2 ^ 7) (byte.unsigned c mod 2 ^ 7) * 19 mod 2 ^ 7.
Proof.
  unfold fnv_round, u32. rewrite <- !Z.land_ones by lia.
  rewrite <- Z.land_assoc. change (Z.land (Z.ones 32) (Z.ones 7)) with (Z.ones 7).
  rewrite !Z.land_ones by lia. rewrite <- Z.mul_mod_idemp_l, <- Z.mul_mod_idemp_r by done.
  change (prime32 mod 2 ^ 7) with 19. f_equal. f_equal.
  rewrite <- !Z.land_ones by lia. apply Z.bits_inj'. intros i Hi.
  rewrite Z.land_spec, !Z.lxor_spec, !Z.land_spec. by destruct (Z.testbit (Z.ones 7) i); rewrite ?andb_true_r, ?andb_false_r.
Qed.

Lemma fnv_round_inj h1 h2 c :
  fnv_round h1 c mod 2 ^ 7 = fnv_round h2 c mod 2 ^ 7 → h1 mod 2 ^ 7 = h2 mod 2 ^ 7.
Proof.
  rewrite !fnv_round_low. set (b := byte.unsigned c mod 2 ^ 7). intros H.
  assert (∀ h, 0 <= Z.lxor (h mod 2 ^ 7) b < 2 ^ 7) as Hb.
  { intros h. assert (Z.lxor (h mod 2 ^ 7) b = Z.lxor (h mod 2 ^ 7) b mod 2 ^ 7) as ->; [|by apply Z.mod_pos_bound].
    unfold b. rewrite <- !Z.land_ones by lia. apply Z.bits_inj'. intros i Hi.
    rewrite !Z.land_spec, !Z.lxor_spec, !Z.land_spec. by destruct (Z.testbit (Z.ones 7) i); rewrite ?andb_true_r, ?andb_false_r. }
  assert (Z.lxor (h1 mod 2 ^ 7) b = Z.lxor (h2 mod 2 ^ 7) b) as E.
  { pose proof (Hb h1). pose proof (Hb h2). apply (f_equal (fun x => x * 27 mod 2 ^ 7)) in H.
    rewrite !Z.mul_mod_idemp_l in H by done. change (2 ^ 7) with 128 in *.
    Z.to_euclidean_division_equations. lia. }
  apply (f_equal (fun x => Z.lxor x b)) in E. by rewrite !Z.lxor_assoc, Z.lxor_nilpotent, !Z.lxor_0_r in E.
Qed.

Lemma fnv_rounds_inj key h1 h2 :
  foldl fnv_round h1 key mod 2 ^ 7 = foldl fnv_round h2 key mod 2 ^ 7 → h1 mod 2 ^ 7 = h2 mod 2 ^ 7.
Proof.
  revert h1 h2. induction key as [|c key IH]; intros h1 h2 H; [done|].
  by apply (fnv_round_inj _ _ c), IH.
Qed.

Lemma shardFor_low key : shardFor key = Z.to_nat (foldl fnv_round offset32 key mod 2 ^ 7).
Proof.
  unfold shardFor, fnv.Sum32. rewrite fnv_Write_rounds. change shardMask with (Z.ones 7).
  by rewrite Z.land_ones.
Qed.

(** Whether a prefix moves a key to another shard does not depend on the key. *)
Lemma shardFor_prefix pre key :
  shardFor (pre ++ key) = shardFor key → shardFor pre = shardFor [].
Proof.
  rewrite !shardFor_low, foldl_app. intros H.
  apply Z2Nat.inj in H; [|by apply Z.mod_pos_bound..]. by rewrite (fnv_rounds_inj key _ _ H).
Qed.

#[export] Hint Resolve shardFor_lt : dpx.
