(* ===== verification/Iter.v ===== *)
(** * Iterators and range collection

    The slice iterator of the in-memory engines (memIter in
    src/engine/memory/memory.go, mvccIter in src/engine/memory/mvcc.go) and the
    loop that drains an iterator into a slice (collectIter in src/helpers.go,
    GetRange in src/tx.go). *)

From S2P Require Import Prelude Types EngineSpec.

(** ** The slice iterator *)

Record memIter := { it_pairs : list (bytes * bytes); pos : Z }.

Definition it_len (it : memIter) : Z := Z.of_nat (length (it_pairs it)).

(** The iterator as it is returned: before the first pair. *)
Definition new_iter (pairs : list (bytes * bytes)) : memIter := {| it_pairs := pairs; pos := -1 |}.

(** (it *memIter) First, Next, Prev: the new iterator and the result. *)
Definition First (it : memIter) : memIter * bool :=
  ({| it_pairs := it_pairs it; pos := 0 |}, 0 <? it_len it).

Definition Next (it : memIter) : memIter * bool :=
  ({| it_pairs := it_pairs it; pos := pos it + 1 |}, pos it + 1 <? it_len it).

Definition Prev (it : memIter) : memIter * bool :=
  if pos it <=? 0 then ({| it_pairs := it_pairs it; pos := -1 |}, false)
  else ({| it_pairs := it_pairs it; pos := pos it - 1 |}, true).

(** (it *memIter) Valid, Key, Value; [nil] is the empty slice. *)
Definition Valid (it : memIter) : bool := (0 <=? pos it) && (pos it <? it_len it).

Definition Key (it : memIter) : bytes :=
  if Valid it then from_option fst [] (it_pairs it !! Z.to_nat (pos it)) else [].

Definition Value (it : memIter) : bytes :=
  if Valid it then from_option snd [] (it_pairs it !! Z.to_nat (pos it)) else [].

(** ** Draining an iterator *)

(** [for ok := iter.First(); ok && iter.Valid(); ok = iter.Next()] with the
    limit check; [None] is running out of fuel. *)
Fixpoint collect_loop (fuel : nat) (limit : Z) (it : memIter) (ok : bool) (pairs : list (bytes * bytes)) :
    option (list (bytes * bytes)) :=
  match fuel with
  | O => None
  | S fuel =>
      if ok && Valid it then
        if (0 <? limit) && (limit <=? Z.of_nat (length pairs)) then Some pairs
        else
          let pairs := pairs ++ [(Key it, Value it)] in
          let '(it, ok) := Next it in
          collect_loop fuel limit it ok pairs
      else Some pairs
  end.

(** The number of rounds is at most the number of pairs, plus the last test. *)
Definition collect (limit : Z) (it : memIter) : option (list (bytes * bytes)) :=
  let '(it1, ok) := First it in
  collect_loop (S (length (it_pairs it))) limit it1 ok [].

(** [for i, j := 0, len(pairs)-1; i < j; i, j = i+1, j-1 { swap }] *)
Fixpoint reverse_loop (fuel : nat) (i j : Z) (l : list (bytes * bytes)) : list (bytes * bytes) :=
  match fuel with
  | O => l
  | S fuel =>
      if i <? j then
        match l !! Z.to_nat i, l !! Z.to_nat j with
        | Some a, Some b => reverse_loop fuel (i + 1) (j - 1) (<[Z.to_nat i := b]> (<[Z.to_nat j := a]> l))
        | _, _ => l
        end
      else l
  end.

Definition reverse_pairs (l : list (bytes * bytes)) : list (bytes * bytes) :=
  reverse_loop (length l) 0 (Z.of_nat (length l) - 1) l.

(** collectIter: the iterator's error, if any, discards the pairs. *)
Definition collectIter (it : memIter) (err : option engErr) (limit : Z) (rev : bool) :
    option (list (bytes * bytes) + engErr) :=
  match collect limit it with
  | None => None
  | Some pairs =>
      match err with
      | Some e => Some (inr e)
      | None => Some (inl (if rev then reverse_pairs pairs else pairs))
      end
  end.

(** ** Specification *)

(** The first [limit] pairs; all of them when the limit is not positive. *)
Definition limited {A} (limit : Z) (l : list A) : list A :=
  if 0 <? limit then take (Z.to_nat limit) l else l.

Lemma Valid_lookup (it : memIter) p :
  0 <= pos it → it_pairs it !! Z.to_nat (pos it) = Some p →
  Valid it = true ∧ Key it = p.1 ∧ Value it = p.2.
Proof.
  intros H0 Hp. assert (Valid it = true) as Hv.
  { apply lookup_lt_Some in Hp. unfold Valid, it_len. lia. }
  unfold Key, Value. rewrite Hv, Hp. done.
Qed.

Lemma Valid_end (it : memIter) : it_len it <= pos it → Valid it = false.
Proof. unfold Valid. lia. Qed.

(** From position [i], the loop appends the rest, up to the limit. *)
Lemma collect_loop_spec limit l i fuel acc :
  (length l - i < fuel)%nat → (i ≤ length l)%nat → (length acc = i)%nat → acc = take i l →
  (0 < limit → Z.of_nat i <= limit) →
  collect_loop fuel limit {| it_pairs := l; pos := Z.of_nat i |} (Z.of_nat i <? Z.of_nat (length l)) acc
  = Some (limited limit l).
Proof.
  revert i acc. induction fuel as [|fuel IH]; intros i acc Hf Hi Hacc Heq Hlim; [lia|].
  cbn [collect_loop]. destruct (decide (i = length l)) as [->|Hne].
  - rewrite Valid_end by (unfold it_len; simpl; lia). rewrite andb_false_r. f_equal.
    subst acc. rewrite firstn_all. unfold limited. case_match; [|done].
    symmetry. apply firstn_all2. lia.
  - destruct (lookup_lt_is_Some_2 l i) as [p Hp]; [lia|].
    destruct (Valid_lookup {| it_pairs := l; pos := Z.of_nat i |} p) as (Hv & Hk & Hval);
      [simpl; lia|simpl; by rewrite Nat2Z.id|].
    rewrite Hv, Hk, Hval. rewrite (proj2 (Z.ltb_lt _ _)) by lia. simpl.
    destruct (0 <? limit) eqn:E0; simpl.
    + destruct (limit <=? Z.of_nat (length acc)) eqn:E1; simpl.
      * f_equal. subst acc. unfold limited. rewrite E0. f_equal. lia.
      * unfold it_len. simpl. replace (Z.of_nat i + 1) with (Z.of_nat (S i)) by lia.
        apply IH; try lia.
        -- rewrite length_app. simpl. lia.
        -- subst acc. destruct p as [k v]. by rewrite (take_S_r _ _ _ Hp).
    + unfold it_len. simpl. replace (Z.of_nat i + 1) with (Z.of_nat (S i)) by lia.
      apply IH; try lia.
      -- rewrite length_app. simpl. lia.
      -- subst acc. destruct p as [k v]. by rewrite (take_S_r _ _ _ Hp).
Qed.

Lemma collect_spec limit it : collect limit it = Some (limited limit (it_pairs it)).
Proof.
  unfold collect, First, it_len. change 0 with (Z.of_nat 0) at 1 2.
  apply collect_loop_spec; try done; lia.
Qed.

Lemma list_insert_middle {A} (l1 : list A) x y l2 : <[length l1 := y]> (l1 ++ x :: l2) = l1 ++ y :: l2.
Proof. induction l1 as [|z l1 IH]; simpl; [done|]. by rewrite IH. Qed.

(** Swapping from both ends reverses. *)
Lemma reverse_loop_spec fuel i j l a b c :
  l = a ++ b ++ c → i = Z.of_nat (length a) → j = Z.of_nat (length a + length b) - 1 →
  (length b ≤ 2 * fuel)%nat → reverse_loop fuel i j l = a ++ reverse b ++ c.
Proof.
  revert i j l a b c. induction fuel as [|fuel IH]; intros i j l a b c -> -> -> Hf; simpl.
  { assert (b = []) as -> by (destruct b; [done|simpl in Hf; lia]). done. }
  destruct b as [|x b]; [rewrite (proj2 (Z.ltb_ge _ _)) by (simpl; lia); done|].
  destruct b as [|y b _] using rev_ind.
  { rewrite (proj2 (Z.ltb_ge _ _)) by (simpl; lia). done. }
  rewrite length_cons, length_app in *. simpl in Hf |- *. rewrite (proj2 (Z.ltb_lt _ _)) by lia.
  rewrite Nat2Z.id.
  replace (Z.to_nat (Z.of_nat (length a + S (length b + 1)) - 1)) with (length a + S (length b))%nat by lia.
  rewrite list_lookup_middle by done.
  assert ((a ++ x :: (b ++ [y]) ++ c) !! (length a + S (length b))%nat = Some y) as ->.
  { rewrite lookup_app_r by lia. replace (length a + S (length b) - length a)%nat with (S (length b)) by lia.
    simpl. rewrite <- app_assoc. simpl. by rewrite list_lookup_middle. }
  rewrite insert_app_r. simpl. rewrite <- app_assoc. simpl.
  rewrite !list_insert_middle.
  rewrite (IH _ _ _ (a ++ [y]) b (x :: c)).
  - rewrite reverse_cons, reverse_app. simpl. by rewrite <- !app_assoc.
  - by rewrite <- app_assoc.
  - rewrite length_app. simpl. lia.
  - rewrite length_app. simpl. lia.
  - lia.
Qed.

Lemma reverse_pairs_spec l : reverse_pairs l = reverse l.
Proof.
  unfold reverse_pairs. rewrite (reverse_loop_spec _ _ _ l [] l []); simpl; rewrite ?app_nil_r; done || lia.
Qed.

(** ** Properties *)

(** Draining an iterator always ends and yields the first [limit] pairs in
    order (all of them for a limit of at most 0), or the iterator's error. With
    [rev] those same pairs are returned backwards. *)
Theorem collectIter_spec it err limit rev :
  collectIter it err limit rev
  = Some (match err with
          | Some e => inr e
          | None => inl (if rev then reverse (limited limit (it_pairs it)) else limited limit (it_pairs it))
          end).
Proof.
  unfold collectIter. rewrite collect_spec. destruct err; [done|]. destruct rev; [|done].
  by rewrite reverse_pairs_spec.
Qed.
