(* ===== verification/Iterators.v ===== *)
(** * The iterators of the engines

    Every engine that materialises a scan has an iterator over the slice of its
    own: memIter (src/engine/memory/memory.go, in Iter.v), mvccIter
    (src/engine/memory/mvcc.go), oshodiIter (src/engine/oshodi/oshodi.go) and
    badgerIter (src/engine/badger/badger.go); a scan that fails returns an
    errIter. What a client sees of them is compared here. *)

From S2P Require Import Prelude Types EngineSpec Iter.

(** ** The interface (src/engine/engine.go) *)

Class Iterator (I : Type) := {
  iter_First : I → I * bool;
  iter_Next : I → I * bool;
  iter_Prev : I → I * bool;
  iter_Valid : I → bool;
  iter_Key : I → bytes;
  iter_Value : I → bytes;
}.

#[export] Instance memIter_Iterator : Iterator memIter :=
  {| iter_First := First; iter_Next := Next; iter_Prev := Prev; iter_Valid := Valid;
     iter_Key := Key; iter_Value := Value |}.

(** ** mvccIter *)

Module MvccIter.
Record mvccIter := { pairs : list (bytes * bytes); pos : Z }.

Definition First (it : mvccIter) : mvccIter * bool :=
  ({| pairs := pairs it; pos := 0 |}, 0 <? Z.of_nat (length (pairs it))).
Definition Next (it : mvccIter) : mvccIter * bool :=
  ({| pairs := pairs it; pos := pos it + 1 |}, pos it + 1 <? Z.of_nat (length (pairs it))).
Definition Prev (it : mvccIter) : mvccIter * bool :=
  if pos it <=? 0 then ({| pairs := pairs it; pos := -1 |}, false)
  else ({| pairs := pairs it; pos := pos it - 1 |}, true).
Definition Valid (it : mvccIter) : bool := (0 <=? pos it) && (pos it <? Z.of_nat (length (pairs it))).
Definition Key (it : mvccIter) : bytes :=
  if negb (Valid it) then [] else from_option fst [] (pairs it !! Z.to_nat (pos it)).
Definition Value (it : mvccIter) : bytes :=
  if negb (Valid it) then [] else from_option snd [] (pairs it !! Z.to_nat (pos it)).

#[global] Instance Iterator_mvccIter : Iterator mvccIter :=
  {| iter_First := First; iter_Next := Next; iter_Prev := Prev; iter_Valid := Valid;
     iter_Key := Key; iter_Value := Value |}.
End MvccIter.

(** ** oshodiIter *)

Module OshodiIter.
Record oshodiIter := { pairs : list (bytes * bytes); pos : Z }.

Definition First (it : oshodiIter) : oshodiIter * bool :=
  ({| pairs := pairs it; pos := 0 |}, 0 <? Z.of_nat (length (pairs it))).
Definition Next (it : oshodiIter) : oshodiIter * bool :=
  ({| pairs := pairs it; pos := pos it + 1 |}, pos it + 1 <? Z.of_nat (length (pairs it))).
Definition Prev (it : oshodiIter) : oshodiIter * bool :=
  if pos it <=? 0 then ({| pairs := pairs it; pos := -1 |}, false)
  else ({| pairs := pairs it; pos := pos it - 1 |}, true).
Definition Valid (it : oshodiIter) : bool := (0 <=? pos it) && (pos it <? Z.of_nat (length (pairs it))).
Definition Key (it : oshodiIter) : bytes :=
  if negb (Valid it) then [] else from_option fst [] (pairs it !! Z.to_nat (pos it)).
Definition Value (it : oshodiIter) : bytes :=
  if negb (Valid it) then [] else from_option snd [] (pairs it !! Z.to_nat (pos it)).

#[global] Instance Iterator_oshodiIter : Iterator oshodiIter :=
  {| iter_First := First; iter_Next := Next; iter_Prev := Prev; iter_Valid := Valid;
     iter_Key := Key; iter_Value := Value |}.
End OshodiIter.

(** ** badgerIter: [Prev] keeps counting below the first pair *)

Module BadgerIter.
Record badgerIter := { pairs : list (bytes * bytes); idx : Z }.

Definition First (it : badgerIter) : badgerIter * bool :=
  ({| pairs := pairs it; idx := 0 |}, 0 <? Z.of_nat (length (pairs it))).
Definition Next (it : badgerIter) : badgerIter * bool :=
  ({| pairs := pairs it; idx := idx it + 1 |}, idx it + 1 <? Z.of_nat (length (pairs it))).
Definition Prev (it : badgerIter) : badgerIter * bool :=
  ({| pairs := pairs it; idx := idx it - 1 |}, 0 <=? idx it - 1).
Definition Valid (it : badgerIter) : bool := (0 <=? idx it) && (idx it <? Z.of_nat (length (pairs it))).
Definition Key (it : badgerIter) : bytes :=
  if negb (Valid it) then [] else from_option fst [] (pairs it !! Z.to_nat (idx it)).
Definition Value (it : badgerIter) : bytes :=
  if negb (Valid it) then [] else from_option snd [] (pairs it !! Z.to_nat (idx it)).

#[global] Instance Iterator_badgerIter : Iterator badgerIter :=
  {| iter_First := First; iter_Next := Next; iter_Prev := Prev; iter_Valid := Valid;
     iter_Key := Key; iter_Value := Value |}.
End BadgerIter.

(** ** errIter *)

Record errIter := { err : engErr }.

#[export] Instance errIter_Iterator : Iterator errIter :=
  {| iter_First := fun it => (it, false); iter_Next := fun it => (it, false);
     iter_Prev := fun it => (it, false); iter_Valid := fun _ => false;
     iter_Key := fun _ => []; iter_Value := fun _ => [] |}.

Definition errIter_Error (it : errIter) : option engErr := Some (err it).

(** ** What a client sees *)

Inductive move := MFirst | MNext | MPrev.

Section view.
Context {I : Type} `{Iterator I}.

Definition do_move (m : move) (it : I) : I * bool :=
  match m with MFirst => iter_First it | MNext => iter_Next it | MPrev => iter_Prev it end.

(** What each move returns, and what is under the iterator after it. *)
Fixpoint observe (ms : list move) (it : I) : list (bool * bool * bytes * bytes) :=
  match ms with
  | [] => []
  | m :: ms =>
      let '(it, ok) := do_move m it in
      (ok, iter_Valid it, iter_Key it, iter_Value it) :: observe ms it
  end.
End view.

(** The moves that do not step back twice before the first pair: [p] is the
    position the client can work out itself. *)
Fixpoint never_before (p : Z) (ms : list move) : bool :=
  match ms with
  | [] => true
  | MFirst :: ms => never_before 0 ms
  | MNext :: ms => never_before (p + 1) ms
  | MPrev :: ms => (0 <=? p) && never_before (p - 1) ms
  end.

(** A bisimulation: related iterators show the same and stay related by every
    move the relation allows. *)
Lemma observe_bisim {I J} `{Iterator I} `{Iterator J} (R : list move → I → J → Prop) :
  (∀ m ms it jt, R (m :: ms) it jt →
     let '(it', ok) := do_move m it in let '(jt', ok') := do_move m jt in
     ok = ok' ∧ iter_Valid it' = iter_Valid jt' ∧ iter_Key it' = iter_Key jt' ∧ iter_Value it' = iter_Value jt'
     ∧ R ms it' jt') →
  ∀ ms it jt, R ms it jt → observe ms it = observe ms jt.
Proof.
  intros HR ms. induction ms as [|m ms IH]; intros it jt Hr; [done|]. cbn [observe]. specialize (HR m ms it jt Hr).
  destruct (do_move m it) as [it' ok], (do_move m jt) as [jt' ok']. destruct HR as (-> & -> & -> & -> & Hr').
  f_equal. by apply IH.
Qed.

Ltac iterator_cases := simpl; repeat case_match; simplify_eq; split_and?; try done;
  unfold Key, Value, MvccIter.Key, MvccIter.Value, OshodiIter.Key, OshodiIter.Value, BadgerIter.Key, BadgerIter.Value,
    Valid, MvccIter.Valid, OshodiIter.Valid, BadgerIter.Valid, it_len in *; simpl in *; by repeat case_match.

Lemma observe_mvcc ms l p : observe ms {| it_pairs := l; Iter.pos := p |}
  = observe ms {| MvccIter.pairs := l; MvccIter.pos := p |}.
Proof.
  apply (observe_bisim (fun _ it jt => it_pairs it = MvccIter.pairs jt ∧ Iter.pos it = MvccIter.pos jt)); [|done].
  intros m ms' [l1 p1] [l2 p2] [E1 E2]. simpl in E1, E2. subst.
  destruct m; cbn [do_move iter_First iter_Next iter_Prev memIter_Iterator MvccIter.Iterator_mvccIter];
    unfold First, Next, Prev, MvccIter.First, MvccIter.Next, MvccIter.Prev, it_len; iterator_cases.
Qed.

Lemma observe_oshodi ms l p : observe ms {| it_pairs := l; Iter.pos := p |}
  = observe ms {| OshodiIter.pairs := l; OshodiIter.pos := p |}.
Proof.
  apply (observe_bisim (fun _ it jt => it_pairs it = OshodiIter.pairs jt ∧ Iter.pos it = OshodiIter.pos jt)); [|done].
  intros m ms' [l1 p1] [l2 p2] [E1 E2]. simpl in E1, E2. subst.
  destruct m; cbn [do_move iter_First iter_Next iter_Prev memIter_Iterator OshodiIter.Iterator_oshodiIter];
    unfold First, Next, Prev, OshodiIter.First, OshodiIter.Next, OshodiIter.Prev, it_len; iterator_cases.
Qed.

Lemma observe_badger ms l p : -1 <= p → never_before p ms = true →
  observe ms {| it_pairs := l; Iter.pos := p |} = observe ms {| BadgerIter.pairs := l; BadgerIter.idx := p |}.
Proof.
  intros Hp Hn.
  apply (observe_bisim (fun ms it jt => it_pairs it = BadgerIter.pairs jt ∧ Iter.pos it = BadgerIter.idx jt
    ∧ -1 <= Iter.pos it ∧ never_before (Iter.pos it) ms = true)); [|done].
  intros m ms' [l1 p1] [l2 p2] (E1 & E2 & Hp1 & Hn1). simpl in E1, E2, Hp1, Hn1. subst. destruct m.
  - simpl. split_and!; try done; try (simpl; lia); iterator_cases.
  - simpl. split_and!; try done; try (simpl; lia); iterator_cases.
  - apply andb_true_iff in Hn1 as [Hp0%Z.leb_le Hn1]. simpl. unfold Prev, BadgerIter.Prev. simpl.
    destruct (Z.leb_spec p2 0).
    + assert (p2 = 0) as -> by lia. split_and!; try done; try (simpl; lia); iterator_cases.
    + destruct (Z.leb_spec 0 (p2 - 1)); [|lia]. split_and!; try done; try (simpl; lia); iterator_cases.
Qed.

(** The slice iterators are interchangeable: whatever sequence of First,
    Next and Prev a client performs on the iterators of the in-memory,
    multi-version and Oshodi engines over the same pairs, every result, Valid,
    Key and Value is the same; Badger's agrees as long as the client does not
    step back again once it is before the first pair. *)
Theorem iterators_agree (l : list (bytes * bytes)) ms :
  observe ms (new_iter l) = observe ms {| MvccIter.pairs := l; MvccIter.pos := -1 |}
  ∧ observe ms (new_iter l) = observe ms {| OshodiIter.pairs := l; OshodiIter.pos := -1 |}
  ∧ (never_before (-1) ms = true →
     observe ms (new_iter l) = observe ms {| BadgerIter.pairs := l; BadgerIter.idx := -1 |}).
Proof.
  split; [apply observe_mvcc|]. split; [apply observe_oshodi|]. by apply observe_badger.
Qed.

(** Two steps back and one forward: Badger's iterator claims to be on a pair. *)
Lemma badger_iterator_lies :
  let l := [(bs "a", bs "1")] in
  observe [MFirst; MPrev; MPrev; MNext] {| BadgerIter.pairs := l; BadgerIter.idx := -1 |}
  = [(true, true, bs "a", bs "1"); (false, false, [], []); (false, false, [], []); (true, false, [], [])]
  ∧ observe [MFirst; MPrev; MPrev; MNext] (new_iter l)
    = [(true, true, bs "a", bs "1"); (false, false, [], []); (false, false, [], []); (true, true, bs "a", bs "1")].
Proof. split; reflexivity. Qed.

Lemma iterators_agree_witness :
  let l := [(bs "a", bs "1"); (bs "b", bs "2")] in
  let ms := [MFirst; MNext; MPrev; MPrev; MNext; MNext; MNext] in
  never_before (-1) ms = true ∧ observe ms (new_iter l) = observe ms {| BadgerIter.pairs := l; BadgerIter.idx := -1 |}.
Proof. split; [reflexivity|]. apply iterators_agree. reflexivity. Defined.
