(* ===== verification/Materialise.v ===== *)
(** * Materialised maps and ranges

    What the adapters over external stores share: a scan copied into a Go map,
    the range filters, and the order in which a Go map is visited. *)

From S2P Require Import Prelude Types EngineSpec.

(** The order in which a range over a Go map of values visits it: any order. *)
Class DataOrder := data_order : store → list (bytes * bytes).
Class DataOrderLaw `{DataOrder} := data_order_perm m : data_order m ≡ₚ map_to_list m.

(** [data[k] = v] for every pair of a scan *)
Definition scan_map (l : list (bytes * bytes)) : store := foldl (fun m p => <[p.1 := p.2]> m) ∅ l.

(** The filter of a scan that visits every key: skip when [k < ss], and when
    [se != "" && k >= se]. *)
Definition keep (ss se k : bytes) : bool :=
  if bytes_ltb k ss then false
  else if bool_decide (se ≠ []) && negb (bytes_ltb k se) then false else true.

(** ** Lemmas *)

Lemma scan_map_perm l (m : store) : l ≡ₚ map_to_list m → scan_map l = m.
Proof.
  intros Hl.
  assert (NoDup l.*1) as Hnd.
  { eapply NoDup_Permutation_proper; [apply Permutation_map, Hl|]. apply NoDup_fst_map_to_list. }
  unfold scan_map. rewrite foldl_insert_list_to_map, (right_id_L ∅ (∪)) by done.
  rewrite <- (list_to_map_to_list m). by apply list_to_map_proper.
Qed.

Lemma keep_spec ss se k : keep ss se k = true ↔ in_range ss se k.
Proof.
  unfold keep, in_range, bytes_le, bytes_lt. destruct (bytes_ltb k ss) eqn:E1; [naive_solver congruence|].
  destruct (decide (se = [])) as [->|Hne]; [rewrite bool_decide_false by tauto; naive_solver|].
  rewrite bool_decide_true by done. simpl. destruct (bytes_ltb k se); simpl; naive_solver.
Qed.

(** Sorting the filtered pairs of a scan, in whatever order they come. *)
Lemma sort_filter_perm (P Q : bytes * bytes → Prop) `{!∀ x, Decision (P x)} `{!∀ x, Decision (Q x)} l (m : store) :
  l ≡ₚ map_to_list m → (∀ x, P x ↔ Q x) →
  sort_pairs (filter P l) = sort_pairs (filter Q (map_to_list m)).
Proof.
  intros Hl HPQ. apply sort_pairs_unique.
  - apply NoDup_fst_filter, NoDup_fst_map_to_list.
  - apply Sorted_merge_sort. apply _.
  - rewrite sort_pairs_perm, Hl. by rewrite (list_filter_iff P Q) by done.
Qed.

Lemma filter_all {A} (P : A → Prop) `{!∀ x, Decision (P x)} (l : list A) : (∀ x, x ∈ l → P x) → filter P l = l.
Proof.
  induction l as [|x l IH]; intros Hl; [done|]. rewrite filter_cons_True by (apply Hl; by left).
  f_equal. apply IH. intros y Hy. apply Hl. by right.
Qed.
