(* ===== verification/BTree.v ===== *)
(** * The ordered tree used by the in-memory engine

    [github.com/tidwall/btree] is not part of the repository: its generic tree
    is a class of operations with the documented behaviour the engine relies on
    as laws. Finite maps give one instance. *)

From S2P Require Import Prelude Types EngineSpec.

(** [btree.BTreeG[item]] ordered by [itemLess]; [Scan] and [Ascend] are given by
    the items a callback that never stops would visit, in order. *)
Class BTreeG (T : Type) := {
  bt_New : T;
  bt_Copy : T → T;
  bt_Get : T → bytes → option bytes;
  bt_Set : T → bytes → bytes → T;
  bt_Delete : T → bytes → T;
  bt_Scan : T → list (bytes * bytes);
  bt_Ascend : T → bytes → list (bytes * bytes);
}.

Definition pair_lt (a b : bytes * bytes) : Prop := bytes_lt a.1 b.1.

Class BTreeLaws (T : Type) `{BTreeG T} := {
  bt_get_new k : bt_Get bt_New k = None;
  bt_get_copy t k : bt_Get (bt_Copy t) k = bt_Get t k;
  bt_get_set t k v k' : bt_Get (bt_Set t k v) k' = if decide (k = k') then Some v else bt_Get t k';
  bt_get_delete t k k' : bt_Get (bt_Delete t k) k' = if decide (k = k') then None else bt_Get t k';
  bt_scan_sorted t : StronglySorted pair_lt (bt_Scan t);
  bt_scan_elem t k v : (k, v) ∈ bt_Scan t ↔ bt_Get t k = Some v;
  bt_ascend_spec t p : bt_Ascend t p = filter (fun it => bytes_le p it.1) (bt_Scan t);
}.

(** Visit items in order: [stop] makes the callback return [false], [skip]
    makes it return [true] without recording the item. *)
Fixpoint visit (stop skip : bytes → bool) (l : list (bytes * bytes)) : list (bytes * bytes) :=
  match l with
  | [] => []
  | it :: l' =>
      if stop it.1 then []
      else if skip it.1 then visit stop skip l'
      else it :: visit stop skip l'
  end.

Lemma visit_no_stop skip l :
  visit (fun _ => false) skip l = filter (fun it => skip it.1 = false) l.
Proof.
  induction l as [|it l IH]; [done|]. rewrite filter_cons. simpl. rewrite IH.
  by destruct (skip it.1).
Qed.

(** On sorted items, stopping at the first key past the end loses nothing. *)
Lemma visit_sorted e skip l :
  StronglySorted pair_lt l →
  visit (fun k => negb (bytes_ltb k e)) skip l
  = filter (fun it => bytes_lt it.1 e ∧ skip it.1 = false) l.
Proof.
  induction 1 as [|[k v] l Hs IH Hall]; [done|]. rewrite filter_cons. simpl.
  destruct (bytes_ltb k e) eqn:E; simpl.
  - rewrite IH. destruct (skip k) eqn:Ek.
    + by rewrite decide_False by (intros [_ ?]; congruence).
    + by rewrite decide_True by (split; [exact E|done]).
  - rewrite decide_False by (intros [H _]; unfold bytes_lt in H; congruence).
    symmetry. apply filter_none. intros [k' v'] Hin [Hlt _]. simpl in Hlt.
    rewrite Forall_forall in Hall. apply Hall in Hin.
    apply (bytes_lt_trans k k' e) in Hlt; [|done]. unfold bytes_lt in Hlt. congruence.
Qed.

Section laws.
Context {T : Type} `{BTreeLaws T}.

(** The finite map a tree stands for. *)
Definition tree_map (t : T) : store := list_to_map (bt_Scan t).

Lemma bt_scan_keys t : NoDup (bt_Scan t).*1.
Proof.
  induction (bt_scan_sorted t) as [|[k v] l Hs IH Hall]; simpl; constructor; [|done].
  intros Hin. apply list_elem_of_fmap in Hin as ([k' v'] & E & Hin). simpl in E. subst k'.
  rewrite Forall_forall in Hall. apply Hall in Hin. by apply bytes_lt_irrefl in Hin.
Qed.

Lemma lookup_tree_map t k : tree_map t !! k = bt_Get t k.
Proof.
  unfold tree_map. apply option_eq. intros v.
  rewrite <- bt_scan_elem. symmetry. apply elem_of_list_to_map. apply bt_scan_keys.
Qed.

Lemma tree_map_list t : map_to_list (tree_map t) ≡ₚ bt_Scan t.
Proof. apply map_to_list_to_map. apply bt_scan_keys. Qed.

Lemma bt_scan_Sorted t : Sorted pair_le (bt_Scan t).
Proof.
  apply StronglySorted_Sorted.
  eapply StronglySorted_impl; [|apply bt_scan_sorted].
  intros a b Hab. apply bytes_le_lt. by right.
Qed.

Lemma bt_ascend_sorted t p : StronglySorted pair_lt (bt_Ascend t p).
Proof. rewrite bt_ascend_spec. apply StronglySorted_filter, bt_scan_sorted. Qed.
End laws.

(** ** Finite maps as an instance *)

Lemma sort_pairs_strict l : NoDup l.*1 → StronglySorted pair_lt (sort_pairs l).
Proof.
  intros Hnd. assert (NoDup (sort_pairs l).*1) as Hnd'.
  { eapply NoDup_Permutation_proper; [|exact Hnd]. apply Permutation_map, sort_pairs_perm. }
  assert (StronglySorted pair_le (sort_pairs l)) as Hs by (apply StronglySorted_merge_sort; apply _).
  induction Hs as [|[k v] r Hs IH Hall]; [constructor|]. simpl in Hnd'.
  apply NoDup_cons in Hnd' as [Hk Hnd']. constructor; [by apply IH|].
  rewrite Forall_forall in *. intros [k' v'] Hin.
  specialize (Hall _ Hin). apply bytes_le_lt in Hall as [E|]; [|done].
  simpl in E. subst k'. exfalso. apply Hk, list_elem_of_fmap. by exists (k, v').
Qed.

#[export] Instance gmap_btree : BTreeG (gmap bytes bytes) := {
  bt_New := ∅;
  bt_Copy t := t;
  bt_Get t k := t !! k;
  bt_Set t k v := <[k:=v]> t;
  bt_Delete t k := delete k t;
  bt_Scan t := sort_pairs (map_to_list t);
  bt_Ascend t p := filter (fun it => bytes_le p it.1) (sort_pairs (map_to_list t));
}.

#[export] Instance gmap_btree_laws : BTreeLaws (gmap bytes bytes).
Proof.
  split; simpl; intros.
  - apply lookup_empty.
  - done.
  - apply lookup_insert.
  - apply lookup_delete.
  - apply sort_pairs_strict, NoDup_fst_map_to_list.
  - by rewrite sort_pairs_perm, elem_of_map_to_list.
  - done.
Qed.
