(* ===== verification/Memory.v ===== *)
(** * The in-memory engine (src/engine/memory/memory.go)

    One engine type with two modes: a single copy-on-write tree, or 128 shards
    each with its own tree. Snapshots keep the trees that were current when they
    were taken; batches are buffered operations, grouped by shard in sharded
    mode. Mutexes only serialise the operations modelled here and have no state
    of their own; telemetry records durations and changes nothing. *)

From S2P Require Import Prelude Types EngineSpec Shard BTree.

Section memory.
Context {T : Type} `{BTreeG T}.

(** ** State *)

Record state := { tree : T; applied : Z }.

(** (s *state) clone *)
Definition clone (s : state) : state :=
  {| tree := bt_Copy (tree s); applied := applied s |}.

Record Engine := { sharded : bool; shards : list state; cur : state }.

Definition empty_state : state := {| tree := bt_New; applied := 0 |}.

(** New *)
Definition New : Engine :=
  {| sharded := false; shards := replicate numShards empty_state; cur := empty_state |}.

(** NewSharded *)
Definition NewSharded : Engine :=
  {| sharded := true; shards := replicate numShards empty_state; cur := empty_state |}.

Definition set_shards (e : Engine) (l : list state) : Engine :=
  {| sharded := sharded e; shards := l; cur := cur e |}.
Definition set_cur (e : Engine) (s : state) : Engine :=
  {| sharded := sharded e; shards := shards e; cur := s |}.

(** The state of one shard; [e.shards] is an array of [numShards]. *)
Definition shard (l : list state) (i : nat) : state := default empty_state (l !! i).

(** ** Batches *)

Inductive Batch :=
  | MemBatch (ops : list bop)
  | ShardedBatch (byShard : gmap nat (list bop)).

(** (e *Engine) NewBatch *)
Definition NewBatch (e : Engine) : Batch :=
  if sharded e then ShardedBatch ∅ else MemBatch [].

(** (b *memBatch) Set, Delete, Merge: the operation is appended. *)
Definition mem_add (o : bop) (ops : list bop) : list bop := ops ++ [o].

(** (b *shardedBatch) Set, Delete, Merge: the shard's batch is created when
    it is missing, and the operation is appended to it. *)
Definition sharded_add (o : bop) (m : gmap nat (list bop)) : gmap nat (list bop) :=
  let s := shardFor (bop_key o) in
  let m := match m !! s with None => <[s := []]> m | Some _ => m end in
  <[s := mem_add o (default [] (m !! s))]> m.

Definition batch_add (o : bop) (b : Batch) : Batch :=
  match b with
  | MemBatch ops => MemBatch (mem_add o ops)
  | ShardedBatch m => ShardedBatch (sharded_add o m)
  end.

Definition batch_Set (b : Batch) (k v : bytes) : Batch := batch_add (BSet k v) b.
Definition batch_Delete (b : Batch) (k : bytes) : Batch := batch_add (BDelete k) b.
Definition batch_Merge (b : Batch) (k v : bytes) : Batch := batch_add (BMerge k v) b.

(** Reset *)
Definition batch_Reset (b : Batch) : Batch :=
  match b with MemBatch _ => MemBatch [] | ShardedBatch _ => ShardedBatch ∅ end.

(** ** Applying a batch *)

(** The body of the loop over the operations of a batch. *)
Definition apply_op (next : state) (o : bop) : state :=
  match o with
  | BSet k v =>
      {| tree := bt_Set (tree next) k v;
         applied := if bool_decide (k = appliedKey) && bool_decide (8 ≤ length v)%nat
                    then decodeUint64 v else applied next |}
  | BDelete k => {| tree := bt_Delete (tree next) k; applied := applied next |}
  | BMerge k d =>
      let old := default [] (bt_Get (tree next) k) in
      {| tree := bt_Set (tree next) k (encodeInt64 (i64 (decodeInt64 old + decodeInt64 d)));
         applied := applied next |}
  end.

Definition apply_ops (s : state) (ops : list bop) : state := foldl apply_op s ops.

(** (e *Engine) applyBatchLegacy *)
Definition applyBatchLegacy (e : Engine) (ops : list bop) : Engine :=
  let next := clone (cur e) in
  set_cur e (apply_ops next ops).

(** [sort.Ints] of the keys of the batch's shard map. *)
Definition shardIds (m : gmap nat (list bop)) : list nat :=
  merge_sort le (map fst (map_to_list m)).

Definition apply_shard (m : gmap nat (list bop)) (l : list state) (s : nat) : list state :=
  let next := clone (shard l s) in
  <[s := apply_ops next (default [] (m !! s))]> l.

(** (e *Engine) applyBatchSharded *)
Definition applyBatchSharded (e : Engine) (m : gmap nat (list bop)) : Engine :=
  if decide (m = ∅) then e
  else set_shards e (foldl (apply_shard m) (shards e) (shardIds m)).

(** (e *Engine) ApplyBatch; the type assertion on the batch panics when the
    batch was made by an engine of the other mode. *)
Definition ApplyBatch (e : Engine) (b : Batch) (_ : bool) : Engine * option engErr :=
  match sharded e, b with
  | true, ShardedBatch m => (applyBatchSharded e m, None)
  | false, MemBatch ops => (applyBatchLegacy e ops, None)
  | _, _ => (e, Some (ErrEngine "panic: interface conversion"))
  end.

(** (e *Engine) ApplyShardDirect; the index passed with the writes is not
    used. *)
Definition ApplyShardDirect (e : Engine) (shardIdx : nat) (writes : list bop) (_ : Z) : Engine :=
  set_shards e (<[shardIdx := apply_ops (clone (shard (shards e) shardIdx)) writes]> (shards e)).

(** (ss *ShardStateDirect) ApplyDirect *)
Definition ApplyDirect (cur : state) (writes : list bop) (_ : Z) : state := apply_ops (clone cur) writes.

(** ** Reads *)

(** (e *Engine) Get *)
Definition Get (e : Engine) (key : bytes) : option bytes :=
  if sharded e then bt_Get (tree (shard (shards e) (shardFor key))) key
  else bt_Get (tree (cur e)) key.

(** (e *Engine) CurrentSequence *)
Definition max_applied (l : list state) : Z :=
  foldl (fun maxSeq st => if maxSeq <? applied st then applied st else maxSeq) 0 l.

Definition CurrentSequence (e : Engine) : Z :=
  if sharded e then max_applied (shards e) else applied (cur e).

(** (e *Engine) currentKeys; [sort.Strings] on distinct keys. *)
Definition currentKeys (e : Engine) : list bytes :=
  if sharded e then merge_sort bytes_le (concat (map (fun st => map fst (bt_Scan (tree st))) (shards e)))
  else map fst (bt_Scan (tree (cur e))).

(** The pairs of one tree in [[ss, se)] that [skip] does not drop: with an
    empty [se] the whole tree is scanned, otherwise the walk starts at [ss]
    and stops at [se]. *)
Definition tree_range (skip : bytes → bool) (ss se : bytes) (t : T) : list (bytes * bytes) :=
  if decide (se = []) then
    visit (fun _ => false) (fun k => bytes_ltb k ss || skip k) (bt_Scan t)
  else
    visit (fun k => negb (bytes_ltb k se)) skip (bt_Ascend t ss).

(** (e *Engine) RawIter, rawIterLegacy and rawIterSharded: the pairs the
    returned iterator walks over. *)
Definition RawIter (e : Engine) (ss se : bytes) : list (bytes * bytes) * option engErr :=
  (if sharded e
   then sort_pairs (concat (map (fun st => tree_range (fun _ => false) ss se (tree st)) (shards e)))
   else tree_range (fun _ => false) ss se (tree (cur e)),
   None).

(** ** Snapshots *)

Inductive Snapshot :=
  | MemSnapshot (s : state)
  | ShardedSnapshot (states : list state).

(** (e *Engine) GetSnapshot *)
Definition GetSnapshot (e : Engine) : Snapshot :=
  if sharded e then ShardedSnapshot (shards e) else MemSnapshot (cur e).

Definition snapshot_tree (s : Snapshot) (key : bytes) : T :=
  match s with
  | MemSnapshot st => tree st
  | ShardedSnapshot l => tree (shard l (shardFor key))
  end.

(** (s *memSnapshot) Get, (s *shardedSnapshot) Get *)
Definition Snapshot_Get (s : Snapshot) (key : bytes) : option bytes :=
  bt_Get (snapshot_tree s key) key.

(** GetVersion of both snapshots *)
Definition Snapshot_GetVersion (s : Snapshot) (key : bytes) : EpochRecord :=
  let vk := bs "__dpx:ver:" ++ key in
  match bt_Get (snapshot_tree s vk) vk with
  | None => zero_epoch
  | Some v => decodeEpochRecord0 v
  end.

(** NewIter of both snapshots *)
Definition Snapshot_NewIter (s : Snapshot) (ss se : bytes) : list (bytes * bytes) * option engErr :=
  (match s with
   | MemSnapshot st => tree_range (has_prefix (bs "__dpx:")) ss se (tree st)
   | ShardedSnapshot l =>
       sort_pairs (concat (map (fun st => tree_range (has_prefix (bs "__dpx:")) ss se (tree st)) l))
   end, None).

(** Sequence of both snapshots *)
Definition Snapshot_Sequence (s : Snapshot) : Z :=
  match s with MemSnapshot st => applied st | ShardedSnapshot l => max_applied l end.

(** The engine as an instance of the interface. *)
#[export] Instance memory_engine : StorageEngine Engine Snapshot Batch := {
  eng_Get e k := found (Get e k);
  eng_GetSnapshot e := inl (GetSnapshot e);
  eng_NewBatch := NewBatch;
  bat_Set := batch_Set;
  bat_Delete := batch_Delete;
  bat_Merge := batch_Merge;
  eng_ApplyBatch := ApplyBatch;
  eng_Sync _ := None;
  eng_CurrentSequence := CurrentSequence;
  eng_RawIter := RawIter;
  snap_Get s k := found (Snapshot_Get s k);
  snap_GetVersion s k := inl (Snapshot_GetVersion s k);
  snap_NewIter := Snapshot_NewIter;
  snap_Sequence := Snapshot_Sequence;
}.
End memory.

Arguments state T : clear implicits.
Arguments Engine T : clear implicits.
Arguments Snapshot T : clear implicits.

(** ** The abstract store of an engine, and its invariant *)

Section abstraction.
Context {T : Type} `{BTreeLaws T}.

Definition state_map (s : state T) : store := tree_map (tree s).

(** The union of the shards. *)
Definition shards_map (l : list (state T)) : store :=
  foldr (fun st m => state_map st ∪ m) ∅ l.

Definition abs (e : Engine T) : store :=
  if sharded e then shards_map (shards e) else state_map (cur e).

(** Every key of a shard's tree is routed to that shard. *)
Definition routed (l : list (state T)) : Prop :=
  length l = numShards ∧
  ∀ i st k, l !! i = Some st → is_Some (bt_Get (tree st) k) → shardFor k = i.

Definition inv (e : Engine T) : Prop := sharded e = true → routed (shards e).

Definition batch_routed (m : gmap nat (list bop)) : Prop :=
  ∀ s ops, m !! s = Some ops → Forall (fun o => shardFor (bop_key o) = s) ops.

(** The batch was made by an engine of this mode, and its operations are in
    the batches of their shards. *)
Definition batch_inv (e : Engine T) (b : Batch) : Prop :=
  match b with
  | MemBatch _ => sharded e = false
  | ShardedBatch m => sharded e = true ∧ batch_routed m
  end.

(** A batch as a transformer of stores. *)
Definition denote (b : Batch) (m : store) : store :=
  match b with
  | MemBatch ops => spec_ops m ops
  | ShardedBatch bs => spec_ops m (concat (map snd (map_to_list bs)))
  end.

(** ** One tree *)

Lemma lookup_state_map (s : state T) k : state_map s !! k = bt_Get (tree s) k.
Proof. apply lookup_tree_map. Qed.

Lemma state_map_clone s : state_map (clone s) = state_map s.
Proof. apply map_eq. intros k. rewrite !lookup_state_map. simpl. apply bt_get_copy. Qed.

Lemma state_map_apply_op s o : state_map (apply_op s o) = spec_op (state_map s) o.
Proof.
  apply map_eq. intros k. rewrite lookup_spec_op, !lookup_state_map.
  destruct o; simpl; rewrite ?bt_get_set, ?bt_get_delete; case_decide; subst; done.
Qed.

Lemma state_map_apply_ops s ops : state_map (apply_ops s ops) = spec_ops (state_map s) ops.
Proof.
  revert s. induction ops as [|o ops IH]; intros s; [done|].
  simpl. rewrite IH, state_map_apply_op. done.
Qed.

(** ** The shards *)

Lemma shards_map_None l k :
  (∀ i st, l !! i = Some st → bt_Get (tree st) k = None) → shards_map l !! k = None.
Proof.
  induction l as [|st l IH]; intros Hn; [apply lookup_empty|]. simpl.
  apply lookup_union_None. split.
  - rewrite lookup_state_map. by apply (Hn 0%nat).
  - apply IH. intros i st' Hi. by apply (Hn (S i)).
Qed.

Lemma shards_map_lookup l k j :
  (∀ i st, l !! i = Some st → is_Some (bt_Get (tree st) k) → i = j) →
  shards_map l !! k = (l !! j) ≫= fun st => bt_Get (tree st) k.
Proof.
  revert j. induction l as [|st l IH]; intros j Hj; [apply lookup_empty|]. simpl.
  destruct j as [|j]; simpl.
  - assert (shards_map l !! k = None) as Hl.
    { apply shards_map_None. intros i st' Hi. apply eq_None_not_Some. intros Hs.
      by specialize (Hj (S i) st' Hi Hs). }
    destruct (bt_Get (tree st) k) eqn:E; rewrite <- lookup_state_map in E.
    + by apply lookup_union_Some_l.
    + by apply lookup_union_None.
  - rewrite lookup_union_r.
    + apply IH. intros i st' Hi Hs. by specialize (Hj (S i) st' Hi Hs) as [= ].
    + rewrite lookup_state_map. apply eq_None_not_Some. intros Hs.
      by specialize (Hj 0%nat st eq_refl Hs).
Qed.

Lemma shard_lookup l k :
  routed l → ∃ st, l !! shardFor k = Some st ∧ shard l (shardFor k) = st.
Proof.
  intros [Hlen _]. pose proof (shardFor_lt k) as Hk. rewrite <- Hlen in Hk.
  destruct (lookup_lt_is_Some_2 l _ Hk) as [st Hst]. exists st. split; [done|].
  unfold shard. by rewrite Hst.
Qed.

Lemma lookup_shards_map l k :
  routed l → shards_map l !! k = state_map (shard l (shardFor k)) !! k.
Proof.
  intros Hr. destruct (shard_lookup l k Hr) as (st & Hst & ->).
  rewrite (shards_map_lookup l k (shardFor k)).
  - by rewrite Hst, lookup_state_map.
  - intros i st' Hi Hs. symmetry. by eapply (proj2 Hr).
Qed.

(** Replacing one shard by the result of operations routed to it. *)
Lemma routed_update l s ops :
  routed l → Forall (fun o => shardFor (bop_key o) = s) ops →
  routed (<[s := apply_ops (clone (shard l s)) ops]> l).
Proof.
  intros [Hlen Hr] Hops. split; [by rewrite length_insert|]. intros i st k Hi Hs.
  destruct (decide (i = s)) as [->|Hne].
  2: { rewrite list_lookup_insert_ne in Hi by done. eauto. }
  assert (s < length l)%nat as Hlt by (apply lookup_lt_Some in Hi; by rewrite length_insert in Hi).
  rewrite list_lookup_insert_eq in Hi by done. injection Hi as <-.
  rewrite <- lookup_state_map, state_map_apply_ops, state_map_clone in Hs.
  destruct (decide (k ∈ map bop_key ops)) as [Hin|Hnin].
  - apply list_elem_of_fmap in Hin as (o & -> & Ho). by rewrite Forall_forall in Hops; apply Hops.
  - rewrite lookup_spec_ops_notin, lookup_state_map in Hs by done.
    destruct (lookup_lt_is_Some_2 l s Hlt) as [st' Hst'].
    eapply Hr; [exact Hst'|]. unfold shard in Hs. by rewrite Hst' in Hs.
Qed.

Lemma batch_routed_default m s :
  batch_routed m → Forall (fun o => shardFor (bop_key o) = s) (default [] (m !! s)).
Proof. intros Hm. destruct (m !! s) eqn:E; simpl; [by apply Hm|constructor]. Qed.

Lemma foldl_apply_shard m ids l :
  batch_routed m → routed l → NoDup ids →
  routed (foldl (apply_shard m) l ids) ∧
  ∀ j, (j < numShards)%nat →
    state_map (shard (foldl (apply_shard m) l ids) j)
    = if decide (j ∈ ids) then spec_ops (state_map (shard l j)) (default [] (m !! j))
      else state_map (shard l j).
Proof.
  intros Hm. revert l. induction ids as [|s ids IH]; intros l Hl Hnd; simpl; [done|].
  apply NoDup_cons in Hnd as [Hs Hnd].
  assert (routed (apply_shard m l s)) as Hl'
    by (apply routed_update; [done|by apply batch_routed_default]).
  destruct (IH _ Hl' Hnd) as [Hr Hlk]. split; [done|]. intros j Hj. rewrite Hlk by done.
  assert (∀ j, (j < numShards)%nat → shard (apply_shard m l s) j
    = if decide (j = s) then apply_ops (clone (shard l s)) (default [] (m !! s)) else shard l j)
    as Hsh.
  { intros j' Hj'. unfold shard at 1, apply_shard. case_decide as E.
    - subst. rewrite list_lookup_insert_eq; [done|]. destruct Hl as [-> _]. done.
    - by rewrite list_lookup_insert_ne. }
  rewrite (Hsh j Hj). destruct (decide (j = s)) as [->|Hne].
  - rewrite decide_False by done. rewrite (decide_True (P := s ∈ s :: ids)) by constructor.
    by rewrite state_map_apply_ops, state_map_clone.
  - apply decide_ext. rewrite elem_of_cons. naive_solver.
Qed.

(** ** Batches *)

Lemma key_value_app k l1 l2 v : key_value k (l1 ++ l2) v = key_value k l2 (key_value k l1 v).
Proof. apply foldl_app. Qed.

Lemma key_value_other k s ops v :
  Forall (fun o => shardFor (bop_key o) = s) ops → shardFor k ≠ s → key_value k ops v = v.
Proof.
  intros Hops Hne. induction Hops as [|o ops Ho _ IH]; [done|]. simpl.
  rewrite decide_False by congruence. done.
Qed.

(** The value of a key after a sharded batch: only its shard's operations count. *)
Lemma key_value_shards k (L : list (nat * list bop)) v :
  NoDup L.*1 → Forall (fun p => Forall (fun o => shardFor (bop_key o) = p.1) p.2) L →
  key_value k (concat (map snd L)) v
  = key_value k (default [] ((list_to_map L : gmap nat (list bop)) !! shardFor k)) v.
Proof.
  revert v. induction L as [|[s ops] L IH]; intros v Hnd HL; [done|]. simpl.
  apply NoDup_cons in Hnd as [Hs Hnd]. apply Forall_cons in HL as [Hops HL].
  rewrite key_value_app, IH by done. destruct (decide (shardFor k = s)) as [E|Hne].
  - rewrite E, lookup_insert_eq. simpl.
    by rewrite (proj1 (not_elem_of_list_to_map L s)) by done.
  - rewrite lookup_insert_ne by done. by rewrite (key_value_other k s ops).
Qed.

Lemma lookup_denote_sharded m sm k :
  batch_routed m →
  denote (ShardedBatch m) sm !! k = key_value k (default [] (m !! shardFor k)) (sm !! k).
Proof.
  intros Hm. simpl. rewrite lookup_spec_ops, key_value_shards.
  - by rewrite list_to_map_to_list.
  - apply NoDup_fst_map_to_list.
  - apply Forall_forall. intros [s ops] Hin. simpl. apply Hm. by apply elem_of_map_to_list.
Qed.

Lemma lookup_sharded_add o m s :
  sharded_add o m !! s
  = if decide (shardFor (bop_key o) = s) then Some (default [] (m !! s) ++ [o]) else m !! s.
Proof.
  unfold sharded_add, mem_add. rewrite lookup_insert. case_decide as E.
  - subst. destruct (m !! shardFor (bop_key o)) eqn:E'; simpl.
    + by rewrite E'.
    + by rewrite lookup_insert_eq.
  - destruct (m !! shardFor (bop_key o)); [done|]. by rewrite lookup_insert_ne.
Qed.

Lemma sharded_add_routed o m : batch_routed m → batch_routed (sharded_add o m).
Proof.
  intros Hm s ops Hs. rewrite lookup_sharded_add in Hs. case_decide as E; [|by apply Hm].
  injection Hs as <-. apply Forall_app. split; [by apply batch_routed_default|by constructor].
Qed.

Lemma batch_add_inv e o b : batch_inv e b → batch_inv e (batch_add o b).
Proof.
  destruct b; simpl; [done|]. intros [He Hm]. split; [done|by apply sharded_add_routed].
Qed.

Lemma denote_add e o b sm :
  batch_inv e b → denote (batch_add o b) sm = spec_op (denote b sm) o.
Proof.
  destruct b as [ops|m]; cbn [batch_add].
  - intros _. simpl. unfold mem_add. apply spec_ops_app.
  - intros [_ Hm]. apply map_eq. intros k.
    rewrite lookup_spec_op, !lookup_denote_sharded by auto using sharded_add_routed.
    rewrite lookup_sharded_add. destruct (decide (bop_key o = k)) as [<-|Hne].
    + rewrite decide_True by done. simpl. rewrite key_value_app. simpl. by rewrite decide_True.
    + case_decide; [|done]. simpl. rewrite key_value_app. simpl. by rewrite decide_False.
Qed.

(** ** Applying a batch refines the abstract effect *)

Lemma shardIds_spec m :
  NoDup (shardIds m) ∧ ∀ s, s ∈ shardIds m ↔ is_Some (m !! s).
Proof.
  unfold shardIds. split.
  - rewrite merge_sort_Permutation. apply NoDup_fst_map_to_list.
  - intros s. rewrite merge_sort_Permutation. split.
    + intros ([s' ops] & -> & Hin)%list_elem_of_fmap. exists ops. by apply elem_of_map_to_list.
    + intros [ops Hs]. apply list_elem_of_fmap. exists (s, ops). split; [done|].
      by apply elem_of_map_to_list.
Qed.

Lemma applyBatchSharded_abs e m :
  sharded e = true → routed (shards e) → batch_routed m →
  routed (shards (applyBatchSharded e m)) ∧
  shards_map (shards (applyBatchSharded e m)) = denote (ShardedBatch m) (shards_map (shards e)).
Proof.
  intros Hsh Hr Hm. unfold applyBatchSharded. case_decide as E.
  { subst. split; [done|]. apply map_eq. intros k. by rewrite lookup_denote_sharded, lookup_empty. }
  destruct (shardIds_spec m) as [Hnd Hids].
  destruct (foldl_apply_shard m (shardIds m) (shards e) Hm Hr Hnd) as [Hr' Hlk].
  split; [done|]. cbn [set_shards shards]. apply map_eq. intros k.
  rewrite lookup_shards_map, Hlk by auto with dpx.
  rewrite lookup_denote_sharded, lookup_shards_map by done.
  case_decide as Hin; [apply lookup_spec_ops|].
  rewrite Hids in Hin. apply eq_None_not_Some in Hin. by rewrite Hin.
Qed.

Lemma ApplyBatch_abs e b sync e' :
  inv e → batch_inv e b → ApplyBatch e b sync = (e', None) →
  inv e' ∧ abs e' = denote b (abs e).
Proof.
  unfold inv, abs. intros Hi Hb Ha. unfold ApplyBatch in Ha.
  destruct (sharded e) eqn:E, b as [ops|m]; simplify_eq/=.
  - destruct Hb as [_ Hm].
    destruct (applyBatchSharded_abs e m E (Hi eq_refl) Hm) as [Hr Ha].
    assert (sharded (applyBatchSharded e m) = true) as ->
      by (unfold applyBatchSharded; by case_decide).
    done.
  - rewrite E. split; [done|]. by rewrite state_map_apply_ops, state_map_clone.
Qed.

(** ** Ordered scans *)

Lemma tree_range_filter skip ss se (t : T) :
  tree_range skip ss se t
  = filter (fun p => in_range ss se p.1 ∧ skip p.1 = false) (bt_Scan t).
Proof.
  unfold tree_range, in_range. case_decide as E.
  - subst se. rewrite visit_no_stop. apply list_filter_iff. intros [k v]. simpl.
    rewrite orb_false_iff. unfold bytes_le. naive_solver.
  - rewrite visit_sorted by apply bt_ascend_sorted.
    rewrite bt_ascend_spec, list_filter_filter. apply list_filter_iff.
    intros [k v]. simpl. naive_solver.
Qed.

Lemma tree_range_sorted skip ss se (t : T) :
  tree_range skip ss se t
  = sort_pairs (filter (fun p => in_range ss se p.1 ∧ skip p.1 = false) (map_to_list (tree_map t))).
Proof.
  rewrite tree_range_filter. apply sort_pairs_unique.
  - apply NoDup_fst_filter, NoDup_fst_map_to_list.
  - apply StronglySorted_Sorted, StronglySorted_filter.
    apply (StronglySorted_impl pair_lt); [|apply bt_scan_sorted].
    intros a b Hab. apply bytes_le_lt. by right.
  - by rewrite tree_map_list.
Qed.

(** Membership in the concatenated ranges of all shards. *)
Lemma elem_of_shard_ranges skip ss se (l : list (state T)) k v :
  routed l →
  (k, v) ∈ concat (map (fun st => tree_range skip ss se (tree st)) l)
  ↔ shards_map l !! k = Some v ∧ in_range ss se k ∧ skip k = false.
Proof.
  intros Hr. rewrite lookup_shards_map, lookup_state_map by done.
  rewrite list_elem_of_In, in_concat. split.
  - intros (r & (st & <- & Hst)%in_map_iff & Hin).
    apply list_elem_of_In in Hst, Hin. rewrite tree_range_filter in Hin.
    apply list_elem_of_filter in Hin as [Hp Hin]. split; [|done].
    apply bt_scan_elem in Hin. apply list_elem_of_lookup in Hst as [i Hi].
    assert (shardFor k = i) as -> by (eapply (proj2 Hr); eauto).
    unfold shard. by rewrite Hi.
  - intros [Hk Hp]. destruct (shard_lookup l k Hr) as (st & Hst & Heq). rewrite Heq in Hk.
    exists (tree_range skip ss se (tree st)). split.
    + apply in_map_iff. exists st. split; [done|].
      apply list_elem_of_In. by eapply list_elem_of_lookup_2.
    + apply list_elem_of_In. rewrite tree_range_filter. apply list_elem_of_filter.
      split; [done|]. by apply bt_scan_elem.
Qed.

Lemma shard_ranges_NoDup skip ss se (l : list (state T)) :
  (∀ i j st st' k, l !! i = Some st → l !! j = Some st' →
     is_Some (bt_Get (tree st) k) → is_Some (bt_Get (tree st') k) → i = j) →
  NoDup (concat (map (fun st => tree_range skip ss se (tree st)) l)).*1.
Proof.
  induction l as [|st l IH]; intros Hd; simpl; [constructor|].
  rewrite fmap_app. apply NoDup_app. split_and!.
  - rewrite tree_range_filter. apply NoDup_fst_filter, bt_scan_keys.
  - intros k Hk Hk'.
    apply list_elem_of_fmap in Hk as ([k1 v1] & -> & Hk). simpl in *.
    apply list_elem_of_fmap in Hk' as ([k2 v2] & -> & Hk'). simpl in *.
    rewrite tree_range_filter in Hk. apply list_elem_of_filter in Hk as [_ Hk].
    apply bt_scan_elem in Hk.
    apply list_elem_of_In, in_concat in Hk' as (r & (st' & <- & Hst')%in_map_iff & Hin).
    apply list_elem_of_In in Hst', Hin. rewrite tree_range_filter in Hin.
    apply list_elem_of_filter in Hin as [_ Hin]. apply bt_scan_elem in Hin.
    apply list_elem_of_lookup in Hst' as [j Hj].
    by specialize (Hd 0%nat (S j) st st' k2 eq_refl Hj ltac:(eauto) ltac:(eauto)).
  - apply IH. intros i j st1 st2 k Hi Hj H1 H2.
    by specialize (Hd (S i) (S j) st1 st2 k Hi Hj H1 H2) as [= ].
Qed.

Lemma shard_ranges_sorted skip ss se (l : list (state T)) :
  routed l →
  sort_pairs (concat (map (fun st => tree_range skip ss se (tree st)) l))
  = sort_pairs (filter (fun p => in_range ss se p.1 ∧ skip p.1 = false) (map_to_list (shards_map l))).
Proof.
  intros Hr.
  assert (NoDup (concat (map (fun st => tree_range skip ss se (tree st)) l)).*1) as Hnd.
  { apply shard_ranges_NoDup. intros i j st st' k Hi Hj H1 H2.
    transitivity (shardFor k); [symmetry|]; by eapply (proj2 Hr). }
  apply sort_pairs_unique.
  - apply NoDup_fst_filter, NoDup_fst_map_to_list.
  - apply Sorted_merge_sort. apply _.
  - rewrite sort_pairs_perm. apply NoDup_Permutation.
    + by apply (NoDup_fmap_1 fst).
    + apply (NoDup_fmap_1 fst), NoDup_fst_filter, NoDup_fst_map_to_list.
    + intros [k v]. rewrite elem_of_shard_ranges, list_elem_of_filter by done. simpl.
      rewrite elem_of_map_to_list. naive_solver.
Qed.

Lemma RawIter_abs e ss se :
  inv e → RawIter e ss se = (range_pairs ss se (abs e), None).
Proof.
  intros Hi. unfold RawIter, abs, range_pairs. f_equal.
  destruct (sharded e) eqn:E.
  - rewrite shard_ranges_sorted by auto. f_equal. apply list_filter_iff. naive_solver.
  - rewrite tree_range_sorted. f_equal. apply list_filter_iff. naive_solver.
Qed.

Lemma NewIter_abs e ss se :
  inv e → Snapshot_NewIter (GetSnapshot e) ss se = (user_pairs ss se (abs e), None).
Proof.
  intros Hi. unfold GetSnapshot, abs, user_pairs, inv in *.
  destruct (sharded e) eqn:E; unfold Snapshot_NewIter; f_equal.
  - by rewrite shard_ranges_sorted by auto.
  - by rewrite tree_range_sorted.
Qed.

Lemma RawIter_law e s t l : inv e → RawIter e s t = (l, None) → l = range_pairs s t (abs e).
Proof. intros Hi Hl. rewrite RawIter_abs in Hl by done. by injection Hl. Qed.

Lemma NewIter_law e s t l :
  inv e → Snapshot_NewIter (GetSnapshot e) s t = (l, None) → l = user_pairs s t (abs e).
Proof. intros Hi Hl. rewrite NewIter_abs in Hl by done. by injection Hl. Qed.

Lemma Get_abs e k : inv e → Get e k = abs e !! k.
Proof.
  unfold Get, abs, inv. destruct (sharded e); intros Hi.
  - by rewrite lookup_shards_map, lookup_state_map by auto.
  - by rewrite lookup_state_map.
Qed.

Lemma Snapshot_Get_abs e k : inv e → Snapshot_Get (GetSnapshot e) k = abs e !! k.
Proof.
  intros Hi. rewrite <- Get_abs by done. unfold Get, GetSnapshot.
  by destruct (sharded e).
Qed.

Lemma Snapshot_GetVersion_abs e k :
  inv e → Snapshot_GetVersion (GetSnapshot e) k
          = from_option decodeEpochRecord0 zero_epoch (abs e !! versionKey k).
Proof.
  intros Hi. rewrite <- Snapshot_Get_abs by done. unfold Snapshot_GetVersion, Snapshot_Get.
  change (bs "__dpx:ver:" ++ k) with (versionKey k). by destruct (bt_Get _ _).
Qed.

Lemma NewBatch_inv (e : Engine T) : batch_inv e (NewBatch e).
Proof.
  unfold NewBatch. destruct (sharded e) eqn:E; simpl; [|done].
  split; [done|]. intros s ops Hs. by rewrite lookup_empty in Hs.
Qed.

Lemma denote_NewBatch (e : Engine T) m : denote (NewBatch e) m = m.
Proof. unfold NewBatch. by destruct (sharded e). Qed.

Lemma Get_law e k : inv e → answers (abs e !! k) (eng_Get e k).
Proof. intros Hi. rewrite <- Get_abs by done. apply answers_found. Qed.

Lemma snap_Get_law e s k : inv e → eng_GetSnapshot e = inl s → answers (abs e !! k) (snap_Get s k).
Proof. intros Hi [= <-]. rewrite <- Snapshot_Get_abs by done. apply answers_found. Qed.

Lemma snap_GetVersion_law e s k :
  inv e → eng_GetSnapshot e = inl s → answers_version (abs e !! versionKey k) (snap_GetVersion s k).
Proof. intros Hi [= <-]. by apply Snapshot_GetVersion_abs. Qed.

Lemma snap_NewIter_law e sn s t l :
  inv e → eng_GetSnapshot e = inl sn → snap_NewIter sn s t = (l, None) → l = user_pairs s t (abs e).
Proof. intros Hi [= <-]. by apply NewIter_law. Qed.

(** The engine satisfies the contract, in both modes. *)
#[export] Instance memory_engine_laws : EngineLaws (Engine T) (Snapshot T) Batch := {
  eng_inv := inv;
  bat_inv := batch_inv;
  eng_abs := abs;
  bat_denote := denote;
  law_get := Get_law;
  law_snap_get := snap_Get_law;
  law_snap_version := snap_GetVersion_law;
  law_new_inv := NewBatch_inv;
  law_set_inv e b k v := batch_add_inv e (BSet k v) b;
  law_delete_inv e b k := batch_add_inv e (BDelete k) b;
  law_merge_inv e b k v := batch_add_inv e (BMerge k v) b;
  law_new := denote_NewBatch;
  law_set e b k v := denote_add e (BSet k v) b;
  law_delete e b k := denote_add e (BDelete k) b;
  law_merge e b k v := denote_add e (BMerge k v) b;
  law_apply := ApplyBatch_abs;
  law_raw_iter := RawIter_law;
  law_new_iter := snap_NewIter_law;
}.

#[export] Instance memory_engine_infallible : InfallibleEngine (Engine T) (Snapshot T) Batch.
Proof.
  split; simpl; [|done| |intros e s [= <-] k msg; simpl; by destruct (Snapshot_Get _ _)|done]; [|eauto].
  intros e b sync Hb. unfold ApplyBatch.
  destruct b; simpl in Hb; [by rewrite Hb|by destruct Hb as [-> _]].
Qed.

Lemma inv_New : inv (New : Engine T).
Proof. by unfold inv. Qed.

Lemma inv_NewSharded : inv (NewSharded : Engine T).
Proof.
  intros _. split; [apply length_replicate|]. intros i st k Hi Hs.
  apply lookup_replicate in Hi as [-> _]. simpl in Hs. rewrite bt_get_new in Hs.
  by destruct Hs.
Qed.

Lemma abs_New : abs (New : Engine T) = ∅.
Proof.
  apply map_eq. intros k. rewrite <- Get_abs by apply inv_New.
  unfold Get. cbn [sharded New cur tree empty_state]. by rewrite bt_get_new, lookup_empty.
Qed.

Lemma abs_NewSharded : abs (NewSharded : Engine T) = ∅.
Proof.
  apply map_eq. intros k. rewrite <- Get_abs by apply inv_NewSharded.
  unfold Get. cbn [sharded NewSharded shards]. unfold shard.
  rewrite lookup_replicate_2 by auto with dpx. simpl. by rewrite bt_get_new, lookup_empty.
Qed.
End abstraction.

(** ** Properties *)

Section properties.
Context {T : Type} `{BTreeLaws T}.

(** Apply a list of batches, each built through the batch interface. *)
Definition run_batch (e : Engine T) (ops : list bop) : Engine T :=
  (ApplyBatch e (foldl bat_add (NewBatch e) ops) false).1.
Definition run_batches (e : Engine T) (l : list (list bop)) : Engine T := foldl run_batch e l.

Lemma run_batch_abs e ops :
  inv e → ApplyBatch e (foldl bat_add (NewBatch e) ops) false = (run_batch e ops, None)
  ∧ inv (run_batch e ops) ∧ abs (run_batch e ops) = spec_ops (abs e) ops.
Proof.
  intros Hi. pose proof (bat_is_adds e _ _ ops (bat_is_new e)) as Hb.
  pose proof (apply_no_error e _ false (proj1 Hb)) as Hn.
  change (eng_NewBatch e) with (NewBatch e) in *.
  change (eng_ApplyBatch e) with (ApplyBatch e) in *. unfold run_batch.
  destruct (ApplyBatch e (foldl bat_add (NewBatch e) ops) false) as [e' r] eqn:Ea.
  simpl in Hn |- *. subst r. split; [done|]. exact (bat_is_apply e _ _ false e' Hi Hb Ea).
Qed.

Lemma run_batches_abs e l :
  inv e → inv (run_batches e l) ∧ abs (run_batches e l) = spec_ops (abs e) (concat l).
Proof.
  revert e. induction l as [|ops l IH]; intros e Hi; [done|]. simpl.
  destruct (run_batch_abs e ops Hi) as (_ & Hi' & Ha).
  rewrite spec_ops_app, <- Ha. by apply IH.
Qed.

(** C21. A batch applied to the in-memory engine, sharded or not, takes effect
    as its operations in order: no error, and every key reads as the abstract
    store after set, delete and int64 merge. *)
Theorem memory_ApplyBatch_refines (e : Engine T) (ops : list bop) (k : bytes) :
  inv e →
  ∃ e', ApplyBatch e (foldl bat_add (NewBatch e) ops) false = (e', None) ∧ inv e'
    ∧ Get e' k = spec_ops (abs e) ops !! k.
Proof.
  intros Hi. destruct (run_batch_abs e ops Hi) as (Ha & Hi' & Habs).
  exists (run_batch e ops). split_and!; [done|done|]. by rewrite Get_abs, Habs.
Qed.

(** C22. The sharded engine is indistinguishable from the single-tree one: after
    any sequence of batches, point reads, raw range scans, snapshot reads,
    versions and user range scans all agree. *)
Theorem memory_modes_agree (l : list (list bop)) (k ss se : bytes) :
  let a := run_batches New l in
  let b := run_batches NewSharded l in
  Get a k = Get b k
  ∧ RawIter a ss se = RawIter b ss se
  ∧ Snapshot_Get (GetSnapshot a) k = Snapshot_Get (GetSnapshot b) k
  ∧ Snapshot_GetVersion (GetSnapshot a) k = Snapshot_GetVersion (GetSnapshot b) k
  ∧ Snapshot_NewIter (GetSnapshot a) ss se = Snapshot_NewIter (GetSnapshot b) ss se.
Proof.
  intros a b.
  destruct (run_batches_abs New l inv_New) as [Hia Haa].
  destruct (run_batches_abs NewSharded l inv_NewSharded) as [Hib Hab].
  rewrite abs_New in Haa. rewrite abs_NewSharded in Hab. fold a in Hia, Haa. fold b in Hib, Hab.
  rewrite !Get_abs, !RawIter_abs, !Snapshot_Get_abs, !Snapshot_GetVersion_abs, !NewIter_abs by done.
  by rewrite Haa, Hab.
Qed.
End properties.

Definition sample_ops : list bop :=
  [BSet (bs "a") (encodeInt64 40); BMerge (bs "a") (encodeInt64 2); BSet (bs "b") (bs "x");
   BDelete (bs "b"); BMerge (bs "c") (encodeInt64 (-7))].

Lemma memory_ApplyBatch_refines_witness :
  ∃ e', ApplyBatch (T := gmap bytes bytes) NewSharded
          (foldl bat_add (NewBatch (T := gmap bytes bytes) NewSharded) sample_ops) false = (e', None)
    ∧ inv e' ∧ Get e' (bs "a") = Some (encodeInt64 42).
Proof.
  destruct (memory_ApplyBatch_refines (T := gmap bytes bytes) NewSharded sample_ops (bs "a")
    inv_NewSharded) as (e' & Ha & Hi & Hg).
  exists e'. split_and!; [exact Ha|exact Hi|]. rewrite Hg, abs_NewSharded. vm_compute. done.
Defined.

Lemma memory_modes_agree_witness :
  Get (run_batches (T := gmap bytes bytes) New [sample_ops]) (bs "c")
  = Get (run_batches (T := gmap bytes bytes) NewSharded [sample_ops]) (bs "c").
Proof.
  exact (proj1 (memory_modes_agree (T := gmap bytes bytes) [sample_ops] (bs "c") [] [])).
Defined.
