(* ===== verification/Dump.v ===== *)
(** * Checkpoint files (src/engine/memory/dump.go, src/engine/badger/dump.go)

    The binary dump of a key-value map. Go iterates a map in an unspecified
    order, so the encoders take the order as an argument: a list of the map's
    pairs. The Badger copy of the codec has the same entries and a header
    without the applied index. *)

From S2P Require Import Prelude Types EngineSpec.

(** ** engine/memory/dump.go *)

Inductive DumpErr :=
  | DumpShortHeader (len : nat)
  | DumpTruncatedKeyLength (i : Z)
  | DumpTruncatedKey (i : Z)
  | DumpTruncatedValue (i : Z).

Definition dump_entries_size (order : list (bytes * bytes)) : nat :=
  sum_list_with (fun '(k, v) => 2 + length k + 4 + length v)%nat order.

Definition emit_entry (p : bytes * bytes) (st : enc) : option enc :=
  st ← emit (le16 (Z.of_nat (length p.1))) st;
  st ← emit_copy p.1 st;
  st ← emit (le32 (Z.of_nat (length p.2))) st;
  emit_copy p.2 st.

(** encodeDump *)
Definition encodeDump (order : list (bytes * bytes)) (applied : Z) : option bytes :=
  let st := (replicate (8 + 8 + dump_entries_size order) x00, 0%nat) in
  st ← emit (le64 applied) st;
  st ← emit (le64 (Z.of_nat (length order))) st;
  st ← emit_all emit_entry order st;
  Some st.1.

(** The loop of decodeDump. [count] comes from the file and may be anything
    below 2^64; every iteration consumes at least six bytes or fails, so
    [length buf] rounds of fuel are never used up ([decode_entries_fuel]). *)
Fixpoint decode_entries (fuel : nat) (buf : bytes) (count i : Z) (pos : nat) (data : store) :
    result DumpErr store :=
  if i <? count then
    match fuel with
    | O => Panic
    | S fuel =>
        if decide (length buf < pos + 2)%nat then Err (DumpTruncatedKeyLength i) else
        let! kLen := get_le 2 buf pos in
        let kLen := Z.to_nat kLen in
        let pos := (pos + 2)%nat in
        if decide (length buf < pos + kLen + 4)%nat then Err (DumpTruncatedKey i) else
        let! k := slice buf pos kLen in
        let pos := (pos + kLen)%nat in
        let! vLen := get_le 4 buf pos in
        let vLen := Z.to_nat vLen in
        let pos := (pos + 4)%nat in
        if decide (length buf < pos + vLen)%nat then Err (DumpTruncatedValue i) else
        let! v := slice buf pos vLen in
        let pos := (pos + vLen)%nat in
        decode_entries fuel buf count (i + 1) pos (<[k := v]> data)
    end
  else Ok data.

(** decodeDump *)
Definition decodeDump (buf : bytes) : result DumpErr (store * Z) :=
  if decide (length buf = 0)%nat then Ok (∅, 0) else
  if decide (length buf < 16)%nat then Err (DumpShortHeader (length buf)) else
  let! applied := get_le 8 buf 0 in
  let! count := get_le 8 buf 8 in
  let! data := decode_entries (length buf) buf count 0 16 ∅ in
  Ok (data, applied).

(** ** engine/badger/dump.go: the same entries after an 8-byte header *)

Module badger.
Definition encodeDump (order : list (bytes * bytes)) : option bytes :=
  let st := (replicate (8 + dump_entries_size order) x00, 0%nat) in
  st ← emit (le64 (Z.of_nat (length order))) st;
  st ← emit_all emit_entry order st;
  Some st.1.

Definition decodeDump (buf : bytes) : result DumpErr store :=
  if decide (length buf = 0)%nat then Ok ∅ else
  if decide (length buf < 8)%nat then Err (DumpShortHeader (length buf)) else
  let! count := get_le 8 buf 0 in
  decode_entries (length buf) buf count 0 8 ∅.
End badger.

(** ** The format *)

Definition entry_bytes (p : bytes * bytes) : bytes :=
  le16 (Z.of_nat (length p.1)) ++ p.1 ++ le32 (Z.of_nat (length p.2)) ++ p.2.

Definition entries_bytes (order : list (bytes * bytes)) : bytes := concat (map entry_bytes order).

(** The limits of the entry fields. *)
Definition wf_entry (p : bytes * bytes) : Prop :=
  Z.of_nat (length p.1) < 2 ^ 16 ∧ Z.of_nat (length p.2) < 2 ^ 32.

#[export] Instance wf_entry_dec p : Decision (wf_entry p).
Proof. unfold wf_entry. apply _. Defined.

Lemma emit_entry_pending p pre n :
  emit_entry p (pending pre (length (entry_bytes p) + n)) = Some (pending (pre ++ entry_bytes p) n).
Proof.
  unfold emit_entry, entry_bytes. rewrite !length_app, <- !Nat.add_assoc.
  do 4 emit_step. by rewrite <- !app_assoc.
Qed.

Lemma dump_entries_size_spec order : dump_entries_size order = length (entries_bytes order).
Proof.
  unfold dump_entries_size, entries_bytes. rewrite length_concat_map.
  induction order as [|[k v] l IH]; [done|]. cbn [sum_list_with]. rewrite IH.
  unfold compose, entry_bytes. cbn [fst snd]. rewrite !length_app. autorewrite with dpx. lia.
Qed.

Lemma encodeDump_bytes order applied :
  encodeDump order applied
  = Some (le64 applied ++ le64 (Z.of_nat (length order)) ++ entries_bytes order).
Proof.
  unfold encodeDump. rewrite dump_entries_size_spec.
  change (8 + 8 + length (entries_bytes order))%nat
    with (length (le64 applied) + (length (le64 (Z.of_nat (length order)))
          + length (entries_bytes order)))%nat.
  change (replicate ?n x00, 0%nat) with (pending [] n).
  do 2 emit_step. rewrite <- (Nat.add_0_r (length (entries_bytes order))).
  unfold entries_bytes. rewrite (emit_all_pending _ entry_bytes) by apply emit_entry_pending.
  simpl. by rewrite app_nil_r, <- !app_assoc.
Qed.

Lemma entries_bytes_length order : (length order ≤ length (entries_bytes order))%nat.
Proof.
  unfold entries_bytes. rewrite length_concat_map.
  induction order as [|p l IH]; simpl; [lia|]. unfold entry_bytes at 1.
  rewrite !length_app. autorewrite with dpx. lia.
Qed.

(** One entry is read back at any position. *)
Lemma decode_entries_step fuel p count i pre post data :
  wf_entry p → i < count →
  decode_entries (S fuel) (pre ++ entry_bytes p ++ post) count i (length pre) data
  = decode_entries fuel ((pre ++ entry_bytes p) ++ post) count (i + 1)
      (length (pre ++ entry_bytes p)) (<[p.1 := p.2]> data).
Proof.
  intros [Hk Hv] Hi. destruct p as [k v]. cbn [fst snd] in *.
  cbn [decode_entries]. rewrite (proj2 (Z.ltb_lt i count)) by done. rewrite <- app_assoc.
  set (buf := pre ++ entry_bytes (k, v) ++ post).
  assert (buf = pre ++ le16 (Z.of_nat (length k)) ++ k ++ le32 (Z.of_nat (length v)) ++ v ++ post)
    as Hb by (unfold buf, entry_bytes; cbn [fst snd]; by rewrite <- !app_assoc).
  assert (length buf = length pre + 2 + length k + 4 + length v + length post)%nat as Hlen
    by (rewrite Hb, !length_app; autorewrite with dpx; lia).
  rewrite decide_False by lia.
  rewrite (get_le_in _ _ _ _ _ _ Hb) by (try apply length_le16; done). cbn [rbind].
  assert (Z.to_nat (le_combine (le16 (Z.of_nat (length k)))) = length k) as ->
    by (rewrite combine_le16; unfold u16; rewrite Z.mod_small; lia).
  rewrite decide_False by lia.
  rewrite (slice_in buf _ _ (pre ++ le16 (Z.of_nat (length k))) k
    (le32 (Z.of_nat (length v)) ++ v ++ post))
    by (rewrite ?length_app, ?length_le16, ?Hb, <- ?app_assoc; try lia; done).
  cbn [rbind].
  rewrite (get_le_in 4 buf _ (pre ++ le16 (Z.of_nat (length k)) ++ k) (le32 (Z.of_nat (length v)))
    (v ++ post)) by (rewrite ?length_app, ?length_le16, ?Hb, <- ?app_assoc; try lia; done).
  cbn [rbind].
  assert (Z.to_nat (le_combine (le32 (Z.of_nat (length v)))) = length v) as ->
    by (rewrite combine_le32; unfold u32; rewrite Z.mod_small; lia).
  rewrite decide_False by lia.
  rewrite (slice_in buf _ _ (pre ++ le16 (Z.of_nat (length k)) ++ k ++ le32 (Z.of_nat (length v)))
    v post) by (rewrite ?length_app, ?length_le16, ?length_le32, ?Hb, <- ?app_assoc; try lia; done).
  cbn [rbind]. f_equal. unfold entry_bytes. cbn [fst snd].
  rewrite !length_app. autorewrite with dpx. lia.
Qed.

Lemma decode_entries_bytes order fuel pre i data :
  Forall wf_entry order → (length order ≤ fuel)%nat →
  decode_entries fuel (pre ++ entries_bytes order) (i + Z.of_nat (length order)) i (length pre) data
  = Ok (foldl (fun m p => <[p.1 := p.2]> m) data order).
Proof.
  intros Hwf. revert fuel pre i data. induction Hwf as [|p order Hp _ IH]; intros fuel pre i data Hf.
  { destruct fuel; cbn [decode_entries length]; by rewrite (proj2 (Z.ltb_ge _ _)) by lia. }
  destruct fuel as [|fuel]; [simpl in Hf; lia|].
  change (entries_bytes (p :: order)) with (entry_bytes p ++ entries_bytes order).
  rewrite decode_entries_step by (try done; simpl; lia).
  replace (i + Z.of_nat (length (p :: order))) with (i + 1 + Z.of_nat (length order))
    by (simpl; lia).
  rewrite IH by (simpl in Hf; lia). done.
Qed.

(** The decoder never runs out of fuel: its position grows with every round. *)
Lemma decode_entries_fuel fuel buf count i pos data :
  (length buf - pos ≤ fuel)%nat → decode_entries (S fuel) buf count i pos data ≠ Panic.
Proof.
  revert i pos data. induction fuel as [|fuel IH]; intros i pos data Hf.
  all: cbn [decode_entries]; destruct (i <? count); [|done].
  all: case_decide; [done|]; read_ok; case_decide; [done|]; do 2 read_ok; case_decide; [done|]; read_ok.
  - lia.
  - apply IH. lia.
Qed.

(** Decoding inverts encoding. *)
Lemma dump_roundtrip (data : store) (order : list (bytes * bytes)) (applied : Z) :
  order ≡ₚ map_to_list data → Forall wf_entry order →
  is_u64 applied → Z.of_nat (length order) < 2 ^ 64 →
  ∃ buf, encodeDump order applied = Some buf ∧ decodeDump buf = Ok (data, applied).
Proof.
  intros Hp Hwf Ha Hn. eexists. split; [apply encodeDump_bytes|].
  pose proof (entries_bytes_length order) as Hlen.
  unfold decodeDump. set (buf := le64 applied ++ _).
  assert (length buf = 16 + length (entries_bytes order))%nat as Hb
    by (unfold buf; rewrite !length_app; autorewrite with dpx; lia).
  rewrite !decide_False by lia.
  rewrite (get_le_in 8 buf 0 [] (le64 applied) (le64 (Z.of_nat (length order)) ++ entries_bytes order))
    by (first [apply length_le64 | reflexivity]).
  cbn [rbind].
  rewrite (get_le_in 8 buf 8 (le64 applied) (le64 (Z.of_nat (length order))) (entries_bytes order))
    by (first [apply length_le64 | reflexivity]).
  cbn [rbind]. rewrite !combine_le64, !u64_small by (done || unfold is_u64; lia).
  unfold buf at 2. rewrite app_assoc.
  change 16%nat with (length (le64 applied ++ le64 (Z.of_nat (length order)))).
  rewrite (decode_entries_bytes order (length buf) _ 0 ∅ Hwf) by lia. cbn [rbind].
  rewrite foldl_insert_list_to_map
    by (eapply NoDup_Permutation_proper; [by apply Permutation_map|apply NoDup_fst_map_to_list]).
  rewrite (right_id_L ∅ (∪)). do 2 f_equal.
  rewrite (list_to_map_proper order (map_to_list data)), list_to_map_to_list;
    [done| |done].
  eapply NoDup_Permutation_proper; [by apply Permutation_map|apply NoDup_fst_map_to_list].
Qed.

(** ** Properties *)

(** A checkpoint restores what it saved: for every iteration order of the
    map, encoding fills its pre-sized buffer without a panic and decoding gives
    the same map and applied index back. *)
Theorem encodeDump_roundtrip (data : store) (order : list (bytes * bytes)) (applied : Z) :
  order ≡ₚ map_to_list data → Forall wf_entry order →
  is_u64 applied → Z.of_nat (length order) < 2 ^ 64 →
  ∃ buf, encodeDump order applied = Some buf ∧ decodeDump buf = Ok (data, applied).
Proof. apply dump_roundtrip. Qed.

Definition sample_store : store := {[ bs "a" := encodeInt64 42; bs "b" := bs "hello" ]}.

Lemma encodeDump_roundtrip_witness :
  ∃ buf, encodeDump (map_to_list sample_store) 9 = Some buf
    ∧ decodeDump buf = Ok (sample_store, 9).
Proof.
  apply encodeDump_roundtrip; [done| |unfold is_u64; lia|vm_compute; done].
  apply (bool_decide_unpack (Forall wf_entry _)). vm_compute. exact I.
Defined.

(** decodeDump terminates on every file without an index out of range and
    without exhausting its fuel, whatever entry count the header claims. *)
Theorem decodeDump_never_panics (buf : bytes) : decodeDump buf ≠ Panic.
Proof.
  unfold decodeDump. repeat (case_decide; [done|]). do 2 read_ok.
  destruct (length buf) as [|n] eqn:E; [lia|].
  pose proof (decode_entries_fuel n buf (le_combine (take 8 (drop 8 buf))) 0 16 ∅) as Hf.
  destruct (decode_entries (S n) buf _ 0 16 ∅); [done|done|]. exfalso. apply Hf; [lia|done].
Qed.
