(* ===== verification/Checkpoint.v ===== *)
(** * Checkpoint and recovery of the in-memory engine
    (CreateCheckpoint and Open of src/engine/memory/memory.go)

    The file system is outside the model: a checkpoint is the byte string
    written to [dir/dump], and [Open] takes the content it finds there, [None]
    when the file does not exist. Go's map iteration order is a parameter. *)

From S2P Require Import Prelude Types EngineSpec Shard BTree Memory Dump.

Section checkpoint.
Context {T : Type} `{BTreeG T}.

(** The order in which [for k, v := range data] visits a map. *)
Context (map_order : store → list (bytes * bytes)).

(** One tree scanned into the map [allData]. *)
Definition scan_into (m : store) (t : T) : store :=
  foldl (fun m it => <[it.1 := it.2]> m) m (bt_Scan t).

Definition checkpoint_data (e : Engine T) : store * Z :=
  if sharded e then
    foldl (fun acc st =>
             (scan_into acc.1 (tree st),
              if acc.2 <? applied st then applied st else acc.2)) (∅, 0) (shards e)
  else (scan_into ∅ (tree (cur e)), applied (cur e)).

(** (e *Engine) CreateCheckpoint *)
Definition CreateCheckpoint (e : Engine T) : option bytes :=
  let '(allData, applied) := checkpoint_data e in
  encodeDump (map_order allData) applied.

(** Load one pair into its shard: clone, set, store. *)
Definition load_pair (l : list (state T)) (p : bytes * bytes) : list (state T) :=
  let s := shardFor p.1 in
  let next := clone (shard l s) in
  <[s := {| tree := bt_Set (tree next) p.1 p.2; applied := applied next |}]> l.

(** (e *Engine) Open *)
Definition Open (e : Engine T) (file : option bytes) : result DumpErr (Engine T) :=
  match file with
  | None => Ok e
  | Some b =>
      let! (data, applied) := decodeDump b in
      Ok (if sharded e then
            let l := foldl load_pair (shards e) (map_order data) in
            set_shards e (map (fun st => {| tree := tree st; applied := applied |}) l)
          else
            set_cur e {| tree := foldl (fun t p => bt_Set t p.1 p.2) bt_New (map_order data);
                         applied := applied |})
  end.
End checkpoint.

Section recovery.
Context {T : Type} `{BTreeLaws T}.
Context (map_order : store → list (bytes * bytes)).
Context (map_order_perm : ∀ m, map_order m ≡ₚ map_to_list m).

Lemma map_order_keys m : NoDup (map_order m).*1.
Proof.
  eapply NoDup_Permutation_proper; [apply Permutation_map, map_order_perm|].
  apply NoDup_fst_map_to_list.
Qed.

Lemma list_to_map_order m : list_to_map (map_order m) = m.
Proof.
  rewrite (list_to_map_proper _ (map_to_list m)); [apply list_to_map_to_list| |done].
  apply map_order_keys.
Qed.

Lemma scan_into_union m (t : T) : scan_into m t = tree_map t ∪ m.
Proof. apply foldl_insert_list_to_map, bt_scan_keys. Qed.

(** ** What a checkpoint saves *)

Lemma scan_shards_lookup (l : list (state T)) (m : store) (a : Z) (k : bytes) :
  (∀ i j st st', l !! i = Some st → l !! j = Some st' →
     is_Some (bt_Get (tree st) k) → is_Some (bt_Get (tree st') k) → i = j) →
  m !! k = None →
  (foldl (fun acc (st : state T) => (scan_into acc.1 (tree st),
            if acc.2 <? applied st then applied st else acc.2)) (m, a) l).1 !! k
  = shards_map l !! k.
Proof.
  revert m a. induction l as [|st l IH]; intros m a Hd Hm; simpl; [by rewrite Hm, lookup_empty|].
  rewrite scan_into_union.
  assert (∀ i st', l !! i = Some st' → is_Some (bt_Get (tree st) k) → bt_Get (tree st') k = None) as Hno.
  { intros i st' Hi Hs. apply eq_None_not_Some. intros Hs'.
    by specialize (Hd 0%nat (S i) st st' eq_refl Hi Hs Hs'). }
  destruct (bt_Get (tree st) k) as [v|] eqn:E.
  - assert (∀ m a, m !! k = Some v →
      (foldl (fun acc (st : state T) => (scan_into acc.1 (tree st),
            if acc.2 <? applied st then applied st else acc.2)) (m, a) l).1 !! k = Some v) as Hkeep.
    { clear IH Hd Hm m a. induction l as [|st' l IH]; intros m a Hm; [done|]. simpl.
      apply IH.
      - intros i st'' Hi. by apply (Hno (S i)).
      - rewrite scan_into_union, lookup_union_r; [done|].
        rewrite lookup_tree_map. by apply (Hno 0%nat). }
    rewrite Hkeep by (apply lookup_union_Some_l; by rewrite lookup_tree_map).
    symmetry. apply lookup_union_Some_l. by rewrite lookup_state_map.
  - rewrite lookup_union_r by (by rewrite lookup_state_map).
    apply IH.
    + intros i j st1 st2 Hi Hj H1 H2. by specialize (Hd (S i) (S j) st1 st2 Hi Hj H1 H2) as [= ].
    + rewrite lookup_union_r; [done|]. by rewrite lookup_tree_map.
Qed.

Lemma scan_shards_applied (l : list (state T)) (m : store) (a : Z) :
  (foldl (fun acc (st : state T) => (scan_into acc.1 (tree st),
            if acc.2 <? applied st then applied st else acc.2)) (m, a) l).2
  = foldl (fun maxSeq st => if maxSeq <? applied st then applied st else maxSeq) a l.
Proof. revert m a. induction l as [|st l IH]; intros m a; [done|]. apply IH. Qed.

Lemma checkpoint_data_abs (e : Engine T) :
  inv e → checkpoint_data e = (abs e, CurrentSequence e).
Proof.
  unfold checkpoint_data, abs, CurrentSequence, inv. destruct (sharded e); intros Hi.
  - apply injective_projections; [|apply scan_shards_applied].
    apply map_eq. intros k. apply scan_shards_lookup; [|apply lookup_empty].
    intros i j st st' Hi1 Hj Hs Hs'. destruct (Hi eq_refl) as [_ Hr].
    transitivity (shardFor k); [symmetry|]; eauto.
  - f_equal. rewrite scan_into_union. apply (right_id_L ∅ (∪)).
Qed.

(** ** What recovery rebuilds *)

Lemma load_pair_spec (l : list (state T)) p :
  routed l → routed (load_pair l p) ∧ shards_map (load_pair l p) = <[p.1 := p.2]> (shards_map l).
Proof.
  intros Hl. destruct p as [k v]. destruct (shard_lookup l k Hl) as (st & Hst & Hsh).
  assert (shardFor k < length l)%nat as Hlt by (by eapply lookup_lt_Some).
  assert (∀ k', bt_Get (bt_Set (bt_Copy (tree st)) k v) k'
          = if decide (k = k') then Some v else bt_Get (tree st) k') as Hget
    by (intros k'; by rewrite bt_get_set, bt_get_copy).
  unfold load_pair. cbn [fst snd]. rewrite Hsh. simpl.
  assert (routed (<[shardFor k := {| tree := bt_Set (bt_Copy (tree st)) k v;
                                     applied := applied st |}]> l)) as Hr.
  { destruct Hl as [Hlen Hr]. split; [by rewrite length_insert|].
    intros i st' k' Hi Hs. destruct (decide (i = shardFor k)) as [->|Hne].
    - rewrite list_lookup_insert_eq in Hi by done. injection Hi as <-. simpl in Hs.
      rewrite Hget in Hs. case_decide; [by subst|]. by eapply Hr.
    - rewrite list_lookup_insert_ne in Hi by done. eauto. }
  split; [done|]. apply map_eq. intros k'.
  rewrite lookup_insert, !lookup_shards_map, !lookup_state_map by done.
  unfold shard at 1. destruct (decide (shardFor k' = shardFor k)) as [E|Hne].
  - rewrite E, list_lookup_insert_eq, Hsh by done. simpl. apply Hget.
  - rewrite list_lookup_insert_ne by done. case_decide; [congruence|]. reflexivity.
Qed.

Lemma load_pairs_spec ps (l : list (state T)) :
  routed l → routed (foldl load_pair l ps)
  ∧ shards_map (foldl load_pair l ps) = foldl (fun m p => <[p.1 := p.2]> m) (shards_map l) ps.
Proof.
  revert l. induction ps as [|p ps IH]; intros l Hl; [done|]. simpl.
  destruct (load_pair_spec l p Hl) as [Hl' <-]. by apply IH.
Qed.

Definition with_applied (a : Z) (st : state T) : state T := {| tree := tree st; applied := a |}.

Lemma with_applied_spec a (l : list (state T)) :
  shards_map (map (with_applied a) l) = shards_map l ∧ (routed l → routed (map (with_applied a) l)).
Proof.
  split.
  - induction l as [|st l IH]; [done|]. simpl. by rewrite IH.
  - intros [Hlen Hr]. split; [by rewrite length_map|]. intros i st k Hi Hs.
    rewrite list_lookup_fmap in Hi. destruct (l !! i) as [st'|] eqn:E; [|done].
    injection Hi as <-. eauto.
Qed.

Lemma max_applied_const a (l : list (state T)) :
  0 <= a → l ≠ [] → max_applied (map (with_applied a) l) = a.
Proof.
  intros Ha Hl. unfold max_applied.
  assert (∀ z, z = a ∨ (0 <= z <= a ∧ l ≠ []) →
    foldl (fun m (st : state T) => if m <? applied st then applied st else m) z
      (map (with_applied a) l) = a) as Hg.
  2: { apply Hg. right. split; [lia|done]. }
  clear Hl. induction l as [|st l IH]; intros z Hz; simpl; [by destruct Hz as [|[_ ?]]|].
  apply IH. left. destruct (Z.ltb_spec z a); lia.
Qed.

Lemma load_tree_map ps (t : T) :
  tree_map (foldl (fun t p => bt_Set t p.1 p.2) t ps)
  = foldl (fun m p => <[p.1 := p.2]> m) (tree_map t) ps.
Proof.
  revert t. induction ps as [|p ps IH]; intros t; [done|]. simpl. rewrite IH. f_equal.
  apply map_eq. intros k. by rewrite lookup_insert, !lookup_tree_map, bt_get_set.
Qed.

Lemma foldl_order m m0 :
  foldl (fun m p => <[p.1 := p.2]> m) m0 (map_order m) = m ∪ m0.
Proof. by rewrite foldl_insert_list_to_map, list_to_map_order by apply map_order_keys. Qed.

(** What Open leaves: the dump, and in sharded mode also the keys the shards
    held before that the dump does not have. *)
Lemma Open_any e0 b data a :
  inv e0 → decodeDump b = Ok (data, a) → 0 <= a →
  ∃ e', Open map_order e0 (Some b) = Ok e' ∧ inv e'
    ∧ abs (T := T) e' = data ∪ (if sharded e0 then abs e0 else ∅)
    ∧ CurrentSequence e' = a.
Proof.
  intros Hi Hd Ha. unfold Open. rewrite Hd. cbn [rbind].
  eexists. split; [reflexivity|]. destruct (sharded e0) eqn:He.
  - destruct (load_pairs_spec (map_order data) (shards e0) (Hi He)) as [Hr Hm].
    remember (foldl load_pair (shards e0) (map_order data)) as l1 eqn:El1.
    clear El1. destruct (with_applied_spec a l1) as [Hm' Hr'].
    change (map _ l1) with (map (with_applied a) l1).
    unfold inv, abs, CurrentSequence. cbn [sharded set_shards shards]. rewrite He.
    split_and!; [intros _; by apply Hr'|by rewrite Hm', Hm, foldl_order|].
    apply max_applied_const; [done|]. destruct Hr as [Hlen _]. intros E. by rewrite E in Hlen.
  - unfold inv, abs, CurrentSequence. cbn [sharded set_cur cur]. rewrite He. split_and!; [done| |done].
    unfold state_map. cbn [tree]. rewrite load_tree_map, foldl_order.
    f_equal. apply map_eq. intros k. by rewrite lookup_tree_map, bt_get_new, lookup_empty.
Qed.

Lemma Open_spec e0 b data a :
  sharded e0 = false ∨ e0 = NewSharded → decodeDump b = Ok (data, a) → 0 <= a →
  ∃ e', Open map_order e0 (Some b) = Ok e' ∧ inv e' ∧ abs (T := T) e' = data
    ∧ CurrentSequence e' = a.
Proof.
  intros He Hd Ha.
  assert (inv e0 ∧ (if sharded e0 then abs e0 else ∅) = ∅) as [Hi Hold].
  { destruct He as [He| ->]; [rewrite He; split; [by intros ?; congruence|done]|].
    split; [apply inv_NewSharded|apply abs_NewSharded]. }
  destruct (Open_any e0 b data a Hi Hd Ha) as (e' & Ho & Hi' & Habs & Hs). exists e'. split_and!; try done.
  by rewrite Habs, Hold, (right_id_L ∅ (∪)).
Qed.
End recovery.

(** ** Properties *)

(** C23. Recovery restores a checkpoint: opening a fresh in-memory engine of
    either mode on the file written by CreateCheckpoint gives the same contents
    (reserved keys included) and the same current sequence, whatever order Go
    iterates its maps in. The length limits are those of the dump's fields. *)
Theorem checkpoint_recovery {T} `{BTreeLaws T} (map_order : store → list (bytes * bytes))
    (e e0 : Engine T) :
  (∀ m, map_order m ≡ₚ map_to_list m) →
  inv e → e0 = New ∨ e0 = NewSharded →
  Forall wf_entry (map_to_list (abs e)) → Z.of_nat (size (abs e)) < 2 ^ 64 →
  is_u64 (CurrentSequence e) →
  ∃ buf e', CreateCheckpoint map_order e = Some buf
    ∧ Open map_order e0 (Some buf) = Ok e'
    ∧ inv e' ∧ abs e' = abs e ∧ CurrentSequence e' = CurrentSequence e.
Proof.
  intros Ho Hi He0 Hwf Hsz Hseq. unfold CreateCheckpoint. rewrite checkpoint_data_abs by done.
  destruct (dump_roundtrip (abs e) (map_order (abs e)) (CurrentSequence e))
    as (buf & Hbuf & Hdec); [apply Ho|by rewrite Ho|done|by rewrite Ho, length_map_to_list|].
  assert (sharded e0 = false ∨ e0 = NewSharded) as He by (destruct He0 as [-> | ->]; [by left|by right]).
  exists buf. destruct (Open_spec map_order Ho e0 buf _ _ He Hdec) as (e' & He' & ?);
    [apply Hseq|]. exists e'. done.
Qed.

Definition sample_engine : Engine (gmap bytes bytes) := run_batches NewSharded [sample_ops].

Lemma checkpoint_recovery_witness :
  ∃ buf e', CreateCheckpoint map_to_list sample_engine = Some buf
    ∧ Open map_to_list (New : Engine (gmap bytes bytes)) (Some buf) = Ok e'
    ∧ inv e' ∧ abs e' = abs sample_engine ∧ CurrentSequence e' = CurrentSequence sample_engine.
Proof.
  apply (checkpoint_recovery (T := gmap bytes bytes) map_to_list sample_engine New).
  - done.
  - apply run_batches_abs, inv_NewSharded.
  - by left.
  - apply (bool_decide_unpack (Forall wf_entry _)). vm_compute. exact I.
  - vm_compute. done.
  - vm_compute. split; done.
Defined.
