(* ===== verification/Mvcc.v ===== *)
(** * The multi-version in-memory engine (src/engine/memory/mvcc.go)

    [MVCCEngine] keeps, per key, the list of its versions, each tagged with the
    commit sequence of its batch. A snapshot is a sequence number and reads the
    newest version at or below it. The atomic counters are fields, the mutexes
    and atomic pointers are left out: every operation is one atomic step. *)

From S2P Require Import Prelude Types EngineSpec Shard Dump.

Record mvccEntry := { seq : Z; value : bytes; deleted : bool }.

#[export] Instance mvccEntry_eq_dec : EqDecision mvccEntry.
Proof. solve_decision. Defined.

(** [mvccShard.data]: the entry slice an [atomicValue] points to, per key. *)
Abbreviation mvccShard :=
  (@gmap (list Init.Byte.byte) (@list_eq_dec Init.Byte.byte byte_eq_dec)
     (@list_countable Init.Byte.byte byte_eq_dec byte_countable) (list mvccEntry)).

Record MVCCEngine := {
  mv_sharded : bool;
  mv_shards : list mvccShard;
  seqCounter : Z;
  lastCommitted : Z;
  oldestSnapshot : Z;
  snapshotCount : Z;
}.

(** newMVCCEngine *)
Definition newMVCCEngine (sharded : bool) : MVCCEngine :=
  {| mv_sharded := sharded; mv_shards := replicate numShards ∅; seqCounter := 0;
     lastCommitted := 0; oldestSnapshot := 0; snapshotCount := 0 |}.

Definition mv_shard (l : list mvccShard) (i : nat) : mvccShard := default ∅ (l !! i).

(** (s *mvccShard) lookup, on the shard of the key. *)
Definition lookup_entries (e : MVCCEngine) (key : bytes) : option (list mvccEntry) :=
  mv_shard (mv_shards e) (shardFor key) !! key.

(** ** Reads of the latest version *)

(** (e *MVCCEngine) Get *)
Definition mvcc_Get (e : MVCCEngine) (key : bytes) : option bytes :=
  match lookup_entries e key with
  | None => None
  | Some entries =>
      match last entries with
      | None => None
      | Some latest => if deleted latest then None else Some (value latest)
      end
  end.

(** (e *MVCCEngine) getCurrentValue: the newest entry that is not a tombstone. *)
Definition getCurrentValue (entries : list mvccEntry) : bytes :=
  match list_find (fun en => deleted en = false) (reverse entries) with
  | Some (_, en) => value en
  | None => []
  end.

Definition CurrentSequence (e : MVCCEngine) : Z := seqCounter e.

(** ** Writes *)

(** The entry of an operation: only a set carries its value from the start. *)
Definition op_entry (commitSeq : Z) (o : bop) (entries : list mvccEntry) : mvccEntry :=
  match o with
  | BSet _ v => {| seq := commitSeq; value := v; deleted := false |}
  | BDelete _ => {| seq := commitSeq; value := []; deleted := true |}
  | BMerge _ d =>
      {| seq := commitSeq;
         value := encodeInt64 (i64 (decodeInt64 (getCurrentValue entries) + decodeInt64 d));
         deleted := false |}
  end.

(** The body of the loop over the operations of one shard. *)
Definition append_op (commitSeq : Z) (data : mvccShard) (o : bop) : mvccShard :=
  let entries := default [] (data !! bop_key o) in
  <[bop_key o := entries ++ [op_entry commitSeq o entries]]> data.

Definition append_ops (commitSeq : Z) (data : mvccShard) (ops : list bop) : mvccShard :=
  foldl (append_op commitSeq) data ops.

(** [for _, op := range mb.ops { sh := shardFor(op.key); byShard[sh] = append(byShard[sh], op) }] *)
Definition group_ops (ops : list bop) : gmap nat (list bop) :=
  foldl (fun m o => let sh := shardFor (bop_key o) in <[sh := default [] (m !! sh) ++ [o]]> m) ∅ ops.

(** The compare-and-swap loop that publishes a commit. *)
Definition publish (cur commitSeq : Z) : Z := if commitSeq <=? cur then cur else commitSeq.

Section apply.
(** The order in which a map of shards is visited. *)
Context (shard_order : gmap nat (list bop) → list (nat * list bop)).

(** (e *MVCCEngine) ApplyBatch; a [mvccBatch] is its list of operations. *)
Definition mvcc_ApplyBatch (e : MVCCEngine) (ops : list bop) : MVCCEngine :=
  match ops with
  | [] => e
  | _ =>
      let commitSeq := u64 (seqCounter e + Z.of_nat (length ops)) in
      let byShard := group_ops ops in
      {| mv_sharded := mv_sharded e;
         mv_shards := foldl (fun l '(sh, sops) => <[sh := append_ops commitSeq (mv_shard l sh) sops]> l)
                        (mv_shards e) (shard_order byShard);
         seqCounter := commitSeq;
         lastCommitted := publish (lastCommitted e) commitSeq;
         oldestSnapshot := oldestSnapshot e;
         snapshotCount := snapshotCount e |}
  end.
End apply.

(** (e *MVCCEngine) ApplyShardDirect: every write goes to the given shard,
    whatever its key; returns the commit sequence. *)
Definition mvcc_ApplyShardDirect (e : MVCCEngine) (shardIdx : nat) (writes : list bop) : MVCCEngine * Z :=
  let commitSeq := u64 (seqCounter e + Z.of_nat (length writes)) in
  ({| mv_sharded := mv_sharded e;
      mv_shards := <[shardIdx := append_ops commitSeq (mv_shard (mv_shards e) shardIdx) writes]> (mv_shards e);
      seqCounter := commitSeq;
      lastCommitted := publish (lastCommitted e) commitSeq;
      oldestSnapshot := oldestSnapshot e;
      snapshotCount := snapshotCount e |}, commitSeq).

(** mvccBatch Set, Delete, Merge, Reset *)
Definition mvccBatch_Set (b : list bop) (k v : bytes) : list bop := b ++ [BSet k v].
Definition mvccBatch_Delete (b : list bop) (k : bytes) : list bop := b ++ [BDelete k].
Definition mvccBatch_Merge (b : list bop) (k v : bytes) : list bop := b ++ [BMerge k v].
Definition mvccBatch_Reset (b : list bop) : list bop := [].

(** ** Snapshots *)

(** (e *MVCCEngine) GetSnapshot: the snapshot's sequence, and the engine with
    the snapshot counted. *)
Definition mvcc_GetSnapshot (e : MVCCEngine) : MVCCEngine * Z :=
  let s := lastCommitted e in
  let old := oldestSnapshot e in
  ({| mv_sharded := mv_sharded e; mv_shards := mv_shards e; seqCounter := seqCounter e;
      lastCommitted := lastCommitted e;
      oldestSnapshot := if (old =? 0) || (s <? old) then s else old;
      snapshotCount := i64 (snapshotCount e + 1) |}, s).

(** (s *mvccSnapshot) Close *)
Definition mvccSnapshot_Close (e : MVCCEngine) : MVCCEngine :=
  {| mv_sharded := mv_sharded e; mv_shards := mv_shards e; seqCounter := seqCounter e;
     lastCommitted := lastCommitted e; oldestSnapshot := oldestSnapshot e;
     snapshotCount := i64 (snapshotCount e - 1) |}.

(** (s *mvccSnapshot) findVersion: the binary search loop, with fuel. *)
Fixpoint findVersion_loop (fuel : nat) (entries : list mvccEntry) (targetSeq low hi result : Z) : option Z :=
  match fuel with
  | O => None
  | S fuel =>
      if low <=? hi then
        let mid := low + Z.quot (hi - low) 2 in
        match entries !! Z.to_nat mid with
        | None => None
        | Some en =>
            if seq en <=? targetSeq then findVersion_loop fuel entries targetSeq (mid + 1) hi mid
            else findVersion_loop fuel entries targetSeq low (mid - 1) result
        end
      else Some result
  end.

(** The interval shrinks in every round, so one more than its length is enough
    fuel; [None] would be an index out of range. *)
Definition findVersion (entries : list mvccEntry) (targetSeq : Z) : option Z :=
  findVersion_loop (S (length entries)) entries targetSeq 0 (Z.of_nat (length entries) - 1) (-1).

(** findVersionLinear: from the last index down. *)
Fixpoint findVersionLinear_from (i : nat) (entries : list mvccEntry) (targetSeq : Z) : Z :=
  match i with
  | O => -1
  | S i' =>
      match entries !! i' with
      | Some en => if seq en <=? targetSeq then Z.of_nat i' else findVersionLinear_from i' entries targetSeq
      | None => -1
      end
  end.

Definition findVersionLinear (entries : list mvccEntry) (targetSeq : Z) : Z :=
  findVersionLinear_from (length entries) entries targetSeq.

(** The entry a snapshot selects. *)
Definition snapshot_entry (e : MVCCEngine) (s : Z) (key : bytes) : option mvccEntry :=
  match lookup_entries e key with
  | None => None
  | Some [] => None
  | Some entries =>
      match findVersion entries s with
      | Some idx => if idx <? 0 then None else entries !! Z.to_nat idx
      | None => None
      end
  end.

(** (s *mvccSnapshot) Get *)
Definition mvccSnapshot_Get (e : MVCCEngine) (s : Z) (key : bytes) : option bytes :=
  match snapshot_entry e s key with
  | Some en => if deleted en then None else Some (value en)
  | None => None
  end.

(** (s *mvccSnapshot) GetVersion *)
Definition mvccSnapshot_GetVersion (e : MVCCEngine) (s : Z) (key : bytes) : EpochRecord :=
  match snapshot_entry e s (versionKey key) with
  | Some en => decodeEpochRecord0 (value en)
  | None => zero_epoch
  end.

(** ** Iteration *)

(** The pair of one key of the map, if it is in range and visible. *)
Definition iter_pair (ss se : bytes) (s : Z) (p : bytes * list mvccEntry) : option (bytes * bytes) :=
  let '(k, entries) := p in
  if bytes_ltb k ss then None
  else if negb (bool_decide (se = [])) && negb (bytes_ltb k se) then None
  else if isReserved k then None
  else
    match entries with
    | [] => None
    | _ =>
        let idx := findVersionLinear entries s in
        if idx <? 0 then None
        else match entries !! Z.to_nat idx with
             | Some en => if deleted en then None else Some (k, value en)
             | None => None
             end
    end.

(** (e *MVCCEngine) newIterator: the pairs of every shard, sorted by key. *)
Definition newIterator (e : MVCCEngine) (ss se : bytes) (s : Z) : list (bytes * bytes) :=
  sort_pairs (concat (map (fun d => omap (iter_pair ss se s) (map_to_list d)) (mv_shards e))).

Definition mvcc_RawIter (e : MVCCEngine) (ss se : bytes) : list (bytes * bytes) :=
  newIterator e ss se (seqCounter e).

Definition mvccSnapshot_NewIter (e : MVCCEngine) (s : Z) (ss se : bytes) : list (bytes * bytes) :=
  newIterator e ss se s.

(** ** Compaction *)

(** [for j, entry := range entries { if entry.seq < safeSeq { removeCount = j + 1 } else { break } }] *)
Fixpoint count_before (safeSeq : Z) (entries : list mvccEntry) : nat :=
  match entries with
  | en :: entries' => if seq en <? safeSeq then S (count_before safeSeq entries') else O
  | [] => O
  end.

Definition removeCount (safeSeq : Z) (entries : list mvccEntry) : nat :=
  if 0 <? safeSeq then
    let n := count_before safeSeq entries in
    if decide (length entries - n < 2)%nat then (length entries - 2)%nat else n
  else (length entries - 2)%nat.

(** The body of the loop over the keys: the entries kept ([None] deletes the
    key) and how many are removed. *)
Definition compact_entries (safeSeq : Z) (entries : list mvccEntry) : option (list mvccEntry) * nat :=
  if (safeSeq =? 0) && from_option deleted false (last entries) then (None, length entries)
  else if decide (length entries ≤ 2)%nat then (Some entries, 0%nat)
  else let n := removeCount safeSeq entries in (Some (drop n entries), n).

(** Only versions before the oldest snapshot may go; 0 when none is open. *)
Definition safe_seq (e : MVCCEngine) : Z :=
  if 0 <? snapshotCount e then oldestSnapshot e else 0.

(** (e *MVCCEngine) Compact, with the number of versions removed. *)
Definition Compact (e : MVCCEngine) : MVCCEngine * nat :=
  let safeSeq := safe_seq e in
  ({| mv_sharded := mv_sharded e;
      mv_shards := map (omap (fun entries => (compact_entries safeSeq entries).1)) (mv_shards e);
      seqCounter := seqCounter e; lastCommitted := lastCommitted e;
      oldestSnapshot := oldestSnapshot e; snapshotCount := snapshotCount e |},
   sum_list (map (fun d => sum_list (map (fun p => (compact_entries safeSeq p.2).2) (map_to_list d)))
               (mv_shards e))).

(** ** Checkpoints *)

(** The newest entry of a key that is not a tombstone. *)
Definition live_entry (entries : list mvccEntry) : option mvccEntry :=
  snd <$> list_find (fun en => deleted en = false) (reverse entries).

Section checkpoint.
Context (map_order : store → list (bytes * bytes)).
(** The order in which [for k, av := range s.data] visits a shard. *)
Context (data_order : mvccShard → list (bytes * list mvccEntry)).

Definition checkpoint_key (st : store * Z) (p : bytes * list mvccEntry) : store * Z :=
  match live_entry p.2 with
  | Some en => (<[p.1 := value en]> st.1, if st.2 <? seq en then seq en else st.2)
  | None => st
  end.

(** (e *MVCCEngine) CreateCheckpoint: the contents of the dump file. *)
Definition mvcc_CreateCheckpoint (e : MVCCEngine) : option bytes :=
  let '(allData, applied) :=
    foldl (fun st d => foldl checkpoint_key st (data_order d)) (∅, 0) (mv_shards e) in
  encodeDump (map_order allData) applied.

Definition load_version (applied : Z) (l : list mvccShard) (p : bytes * bytes) : list mvccShard :=
  let sh := shardFor p.1 in
  let d := mv_shard l sh in
  <[sh := <[p.1 := default [] (d !! p.1) ++ [{| seq := applied; value := p.2; deleted := false |}]]> d]> l.

(** (e *MVCCEngine) Open, on the contents of the dump file if there is one. *)
Definition mvcc_Open (e : MVCCEngine) (dump : option bytes) : result DumpErr MVCCEngine :=
  match dump with
  | None => Ok e
  | Some b =>
      let! (data, applied) := decodeDump b in
      Ok {| mv_sharded := mv_sharded e;
            mv_shards := foldl (load_version applied) (mv_shards e) (map_order data);
            seqCounter := applied; lastCommitted := lastCommitted e;
            oldestSnapshot := oldestSnapshot e; snapshotCount := snapshotCount e |}
  end.
End checkpoint.
