(* ===== verification/MvccSpec.v ===== *)
(** * Correctness of the multi-version engine

    The invariant of [MVCCEngine] (version lists ordered by sequence, none newer
    than the last commit), binary search against its linear specification,
    stability of snapshots, the effect of a batch on each key, and what
    compaction keeps. *)

From S2P Require Import Prelude Types EngineSpec Shard Dump Mvcc.

(** ** Version lists *)

Definition seq_le (a b : mvccEntry) : Prop := seq a <= seq b.

(** The newest entry at or below a sequence, as a specification. *)
Definition visible (s : Z) (entries : list mvccEntry) : option mvccEntry :=
  last (filter (fun en => seq en <= s) entries).

Lemma visible_snoc s entries en :
  visible s (entries ++ [en]) = if decide (seq en <= s) then Some en else visible s entries.
Proof.
  unfold visible. rewrite filter_app, filter_cons, filter_nil. case_decide; [|by rewrite app_nil_r].
  by rewrite last_snoc.
Qed.

(** Entries past a sequence are invisible at it. *)
Lemma visible_app_newer s entries l :
  Forall (fun en => s < seq en) l → visible s (entries ++ l) = visible s entries.
Proof.
  intros Hl. unfold visible. rewrite filter_app.
  assert (filter (fun en => seq en <= s) l = []) as ->; [|by rewrite app_nil_r].
  apply filter_none. intros en Hin. rewrite Forall_forall in Hl. specialize (Hl en Hin). lia.
Qed.

(** At or after every entry, the last one is visible. *)
Lemma visible_all s entries : Forall (fun en => seq en <= s) entries → visible s entries = last entries.
Proof.
  intros Hl. unfold visible. f_equal. induction Hl as [|en l Hen _ IH]; [done|].
  rewrite filter_cons, decide_True by done. by rewrite IH.
Qed.

(** *** Linear search *)

Lemma findVersionLinear_from_take i entries s :
  (i ≤ length entries)%nat →
  (if findVersionLinear_from i entries s <? 0 then None
   else entries !! Z.to_nat (findVersionLinear_from i entries s)) = visible s (take i entries)
  ∧ -1 <= findVersionLinear_from i entries s < Z.of_nat i.
Proof.
  induction i as [|i IH]; intros Hi; [split; [done|simpl; lia]|].
  destruct (lookup_lt_is_Some_2 entries i) as [en Hen]; [lia|].
  rewrite (take_S_r _ _ _ Hen), visible_snoc. simpl. rewrite Hen. case_decide as Hc.
  - rewrite (proj2 (Z.leb_le _ _)) by done. split; [|lia].
    rewrite (proj2 (Z.ltb_ge _ _)) by lia. by rewrite Nat2Z.id.
  - rewrite (proj2 (Z.leb_gt _ _)) by lia. destruct IH as [IH1 IH2]; [lia|]. split; [done|lia].
Qed.

Lemma findVersionLinear_visible entries s :
  (if findVersionLinear entries s <? 0 then None
   else entries !! Z.to_nat (findVersionLinear entries s)) = visible s entries.
Proof.
  unfold findVersionLinear.
  destruct (findVersionLinear_from_take (length entries) entries s) as [H _]; [lia|].
  by rewrite firstn_all in H.
Qed.

(** *** Binary search *)

(** Everything below [low] is at most the target, everything above [hi] is
    beyond it, and [result] is [low - 1]. *)
Definition search_inv (entries : list mvccEntry) (s low hi result : Z) : Prop :=
  0 <= low <= hi + 1 ∧ hi < Z.of_nat (length entries) ∧ result = low - 1
  ∧ (∀ i en, entries !! i = Some en → Z.of_nat i < low → seq en <= s)
  ∧ (∀ i en, entries !! i = Some en → hi < Z.of_nat i → s < seq en).

Lemma sorted_lookup entries i j a b :
  StronglySorted seq_le entries → entries !! i = Some a → entries !! j = Some b →
  (i ≤ j)%nat → seq a <= seq b.
Proof.
  intros Hs. revert i j. induction Hs as [|en l Hs IH Hall]; intros i j Ha Hb Hij; [done|].
  destruct i as [|i], j as [|j]; simpl in *; simplify_eq; try lia.
  - rewrite Forall_forall in Hall. apply list_elem_of_lookup_2 in Hb. by apply Hall in Hb.
  - eapply IH; eauto. lia.
Qed.

Lemma mid_bounds low hi : low <= hi → low <= low + Z.quot (hi - low) 2 <= hi.
Proof. intros H. Z.to_euclidean_division_equations. lia. Qed.

Lemma findVersion_loop_spec entries s :
  StronglySorted seq_le entries →
  ∀ fuel low hi result, search_inv entries s low hi result → hi - low + 1 < Z.of_nat fuel →
  ∃ r, findVersion_loop fuel entries s low hi result = Some r
    ∧ search_inv entries s (r + 1) r r.
Proof.
  intros Hs. induction fuel as [|fuel IH]; intros low hi result Hinv Hf;
    destruct Hinv as (H1 & H2 & H3 & H4 & H5); [lia|]. cbn [findVersion_loop].
  destruct (low <=? hi) eqn:E.
  - pose proof (mid_bounds low hi) as Hm. set (mid := low + Z.quot (hi - low) 2) in *.
    destruct (lookup_lt_is_Some_2 entries (Z.to_nat mid)) as [en Hen]; [lia|]. rewrite Hen.
    destruct (seq en <=? s) eqn:Es; apply IH; try lia; (split_and!; [lia|lia|lia|lia| |]).
    + intros i x Hx Hi. destruct (decide (Z.of_nat i < low)); [by eapply H4|].
      pose proof (sorted_lookup entries i (Z.to_nat mid) x en Hs Hx Hen). lia.
    + done.
    + done.
    + intros i x Hx Hi. destruct (decide (hi < Z.of_nat i)); [by eapply H5|].
      pose proof (sorted_lookup entries (Z.to_nat mid) i en x Hs Hen Hx). lia.
  - exists result. split; [done|]. assert (hi = low - 1) as -> by lia.
    split_and!; try lia; subst result; by replace (low - 1 + 1) with low by lia.
Qed.

Lemma findVersionLinear_unique entries s r :
  search_inv entries s (r + 1) r r → r = findVersionLinear entries s.
Proof.
  intros (H1 & H2 & _ & H4 & H5). unfold findVersionLinear.
  assert (∀ i, (i ≤ length entries)%nat → r < Z.of_nat i → findVersionLinear_from i entries s = r) as Hg.
  { induction i as [|i IH]; intros Hi Hr; simpl; [lia|].
    destruct (lookup_lt_is_Some_2 entries i) as [en Hen]; [lia|]. rewrite Hen.
    destruct (decide (Z.of_nat i = r)) as [E|E].
    - rewrite (proj2 (Z.leb_le _ _)) by (eapply H4; [done|lia]). done.
    - rewrite (proj2 (Z.leb_gt _ _)) by (eapply H5; [done|lia]). apply IH; lia. }
  destruct (decide (r < Z.of_nat (length entries))) as [Hlt|]; [|lia].
  symmetry. by apply Hg.
Qed.

(** On ordered versions binary search finds what the scan from the end finds. *)
Lemma findVersion_linear entries s :
  StronglySorted seq_le entries → findVersion entries s = Some (findVersionLinear entries s).
Proof.
  intros Hs. unfold findVersion.
  destruct (findVersion_loop_spec entries s Hs (S (length entries)) 0
    (Z.of_nat (length entries) - 1) (-1)) as (r & -> & Hr).
  - split_and!; try lia. intros i en Hen Hi. apply lookup_lt_Some in Hen. lia.
  - lia.
  - f_equal. by apply findVersionLinear_unique.
Qed.

(** ** The engine's invariant *)

Definition versions_of (e : MVCCEngine) (k : bytes) : list mvccEntry := default [] (lookup_entries e k).

Record mvcc_inv (e : MVCCEngine) : Prop := {
  mi_shards : length (mv_shards e) = numShards;
  mi_routed : ∀ i d k, mv_shards e !! i = Some d → is_Some (d !! k) → shardFor k = i;
  mi_sorted : ∀ k, StronglySorted seq_le (versions_of e k);
  mi_committed : ∀ k, Forall (fun en => 0 < seq en <= lastCommitted e) (versions_of e k);
  mi_counter : lastCommitted e = seqCounter e;
  mi_range : 0 <= seqCounter e < 2 ^ 64;
}.

(** What a read makes of an entry. *)
Definition entry_value (en : mvccEntry) : option bytes := if deleted en then None else Some (value en).

Lemma mvcc_Get_versions e k : mvcc_Get e k = last (versions_of e k) ≫= entry_value.
Proof. unfold mvcc_Get, versions_of. destruct (lookup_entries e k) as [es|]; [|done]. simpl. by destruct (last es). Qed.

Lemma snapshot_entry_visible e s k :
  StronglySorted seq_le (versions_of e k) → snapshot_entry e s k = visible s (versions_of e k).
Proof.
  unfold snapshot_entry, versions_of. destruct (lookup_entries e k) as [es|]; simpl; [|done].
  intros Hs. destruct es as [|en es]; [done|].
  by rewrite findVersion_linear, findVersionLinear_visible.
Qed.

Lemma mvccSnapshot_Get_visible e s k :
  mvcc_inv e → mvccSnapshot_Get e s k = visible s (versions_of e k) ≫= entry_value.
Proof.
  intros Hi. unfold mvccSnapshot_Get. rewrite snapshot_entry_visible by apply Hi.
  by destruct (visible _ _).
Qed.

Lemma mv_shard_lookup l i : (i < length l)%nat → l !! i = Some (mv_shard l i).
Proof. intros Hi. unfold mv_shard. by destruct (lookup_lt_is_Some_2 l i Hi) as [d ->]. Qed.

Lemma new_inv sharded : mvcc_inv (newMVCCEngine sharded).
Proof.
  assert (∀ k, versions_of (newMVCCEngine sharded) k = []) as Hv.
  { intros k. unfold versions_of, lookup_entries, mv_shard. cbn [mv_shards newMVCCEngine].
    rewrite lookup_replicate_2 by apply shardFor_lt. simpl. by rewrite lookup_empty. }
  split; try (intros k; rewrite Hv; constructor); try done.
  intros i d k [-> _]%lookup_replicate Hs. rewrite lookup_empty in Hs. by destruct Hs.
Qed.

(** ** The effect of a batch on one key *)

(** The versions of [k] after the operations [ops]. *)
Definition key_entries (c : Z) (k : bytes) (ops : list bop) (es : list mvccEntry) : list mvccEntry :=
  foldl (fun es o => if decide (bop_key o = k) then es ++ [op_entry c o es] else es) es ops.

Lemma append_ops_lookup c ops d k :
  default [] (append_ops c d ops !! k) = key_entries c k ops (default [] (d !! k)).
Proof.
  revert d. induction ops as [|o ops IH]; intros d; [done|]. simpl. rewrite IH. f_equal.
  unfold append_op. rewrite lookup_insert. case_decide; [by subst|done].
Qed.

Lemma append_ops_dom c ops d k :
  is_Some (append_ops c d ops !! k) → is_Some (d !! k) ∨ k ∈ map bop_key ops.
Proof.
  revert d. induction ops as [|o ops IH]; intros d Hs; [by left|]. simpl in Hs.
  destruct (IH _ Hs) as [Hd|Hd]; [|right; by right].
  unfold append_op in Hd. rewrite lookup_insert in Hd. case_decide as E; [|by left].
  right. simpl. subst. by left.
Qed.

(** Only the operations of the key's shard matter. *)
Lemma key_entries_filter c k ops es :
  key_entries c k (filter (fun o => shardFor (bop_key o) = shardFor k) ops) es = key_entries c k ops es.
Proof.
  revert es. induction ops as [|o ops IH]; intros es; [done|]. rewrite filter_cons. simpl.
  destruct (decide (shardFor (bop_key o) = shardFor k)) as [E|E]; simpl; rewrite IH; [done|].
  by rewrite (decide_False (P := bop_key o = k)) by congruence.
Qed.

Lemma group_ops_snoc ops o :
  group_ops (ops ++ [o])
  = <[shardFor (bop_key o) := default [] (group_ops ops !! shardFor (bop_key o)) ++ [o]]> (group_ops ops).
Proof. unfold group_ops. by rewrite foldl_app. Qed.

Lemma group_ops_lookup ops s :
  default [] (group_ops ops !! s) = filter (fun o => shardFor (bop_key o) = s) ops.
Proof.
  induction ops as [|o ops IH] using rev_ind; [unfold group_ops; simpl; by rewrite lookup_empty|].
  rewrite group_ops_snoc, lookup_insert, filter_app, filter_cons, filter_nil.
  case_decide as E; simpl; [|by rewrite app_nil_r]. subst s. by rewrite IH.
Qed.

Lemma group_ops_dom ops s : is_Some (group_ops ops !! s) → (s < numShards)%nat.
Proof.
  induction ops as [|o ops IH] using rev_ind; [unfold group_ops; simpl; rewrite lookup_empty; by intros []|].
  rewrite group_ops_snoc, lookup_insert. case_decide; [subst; intros _; apply shardFor_lt|done].
Qed.

Lemma mv_shard_insert l i j d :
  (i < length l)%nat → mv_shard (<[i := d]> l) j = if decide (i = j) then d else mv_shard l j.
Proof.
  intros Hi. unfold mv_shard. case_decide as E.
  - subst. by rewrite list_lookup_insert_eq.
  - by rewrite list_lookup_insert_ne.
Qed.

(** The loop over the shards of a batch. *)
Lemma foldl_shards c L l s :
  NoDup L.*1 → Forall (fun p => (p.1 < length l)%nat) L →
  let l' := foldl (fun l '(sh, sops) => <[sh := append_ops c (mv_shard l sh) sops]> l) l L in
  length l' = length l
  ∧ mv_shard l' s = append_ops c (mv_shard l s) (default [] ((list_to_map L : gmap nat (list bop)) !! s)).
Proof.
  revert l. induction L as [|[sh sops] L IH]; intros l Hnd Hlt; simpl.
  { by rewrite lookup_empty. }
  simpl in Hnd. apply NoDup_cons in Hnd as [Hni Hnd]. apply Forall_cons in Hlt as [Hsh Hlt]. simpl in Hsh.
  destruct (IH (<[sh := append_ops c (mv_shard l sh) sops]> l) Hnd) as [H1 H2].
  { eapply Forall_impl; [exact Hlt|]. intros p Hp. by rewrite length_insert. }
  rewrite length_insert in H1. split; [done|]. rewrite H2, mv_shard_insert, lookup_insert by done.
  case_decide as E; [|done]. subst s.
  by rewrite (not_elem_of_list_to_map_1 (M := gmap nat) L sh Hni).
Qed.

Section batch.
Context (shard_order : gmap nat (list bop) → list (nat * list bop)).
Context (shard_order_perm : ∀ m, shard_order m ≡ₚ map_to_list m).

Lemma shard_order_keys m : NoDup (shard_order m).*1.
Proof.
  eapply NoDup_Permutation_proper; [apply Permutation_map, shard_order_perm|].
  apply NoDup_fst_map_to_list.
Qed.

Lemma list_to_map_shard_order m : list_to_map (shard_order m) = m.
Proof.
  rewrite (list_to_map_proper _ (map_to_list m)); [apply list_to_map_to_list| |done].
  apply shard_order_keys.
Qed.

Definition commit_seq (e : MVCCEngine) (ops : list bop) : Z := u64 (seqCounter e + Z.of_nat (length ops)).

Lemma ApplyBatch_nonempty e ops :
  ops ≠ [] →
  mvcc_ApplyBatch shard_order e ops
  = {| mv_sharded := mv_sharded e;
       mv_shards := foldl (fun l '(sh, sops) =>
                      <[sh := append_ops (commit_seq e ops) (mv_shard l sh) sops]> l)
                      (mv_shards e) (shard_order (group_ops ops));
       seqCounter := commit_seq e ops;
       lastCommitted := publish (lastCommitted e) (commit_seq e ops);
       oldestSnapshot := oldestSnapshot e; snapshotCount := snapshotCount e |}.
Proof. by destruct ops. Qed.

Lemma ApplyBatch_shards e ops s :
  length (mv_shards e) = numShards →
  length (mv_shards (mvcc_ApplyBatch shard_order e ops)) = numShards
  ∧ mv_shard (mv_shards (mvcc_ApplyBatch shard_order e ops)) s
    = append_ops (commit_seq e ops) (mv_shard (mv_shards e) s)
        (filter (fun o => shardFor (bop_key o) = s) ops).
Proof.
  intros Hlen. destruct (decide (ops = [])) as [->|Hne]; [done|].
  rewrite (ApplyBatch_nonempty e ops Hne). cbn [mv_shards].
  destruct (foldl_shards (commit_seq e ops) (shard_order (group_ops ops)) (mv_shards e) s) as [H1 H2].
  - apply shard_order_keys.
  - apply Forall_forall. intros [sh sops] Hin. rewrite shard_order_perm in Hin.
    apply elem_of_map_to_list in Hin. rewrite Hlen. by apply (group_ops_dom ops), (mk_is_Some _ _ Hin).
  - rewrite <- Hlen. split; [exact H1|]. rewrite list_to_map_shard_order, group_ops_lookup in H2. exact H2.
Qed.

Lemma versions_ApplyBatch e ops k :
  length (mv_shards e) = numShards →
  versions_of (mvcc_ApplyBatch shard_order e ops) k
  = key_entries (commit_seq e ops) k ops (versions_of e k).
Proof.
  intros Hlen. unfold versions_of, lookup_entries.
  rewrite (proj2 (ApplyBatch_shards e ops (shardFor k) Hlen)), append_ops_lookup.
  apply key_entries_filter.
Qed.
End batch.

(** A batch appends, to each key, entries of its own commit sequence. *)
Lemma key_entries_app c k ops es :
  ∃ l, key_entries c k ops es = es ++ l ∧ Forall (fun en => seq en = c) l.
Proof.
  revert es. induction ops as [|o ops IH]; intros es; [exists []; by rewrite app_nil_r|]. simpl.
  case_decide; [|apply IH]. destruct (IH (es ++ [op_entry c o es])) as (l & -> & Hl).
  exists (op_entry c o es :: l). rewrite <- app_assoc. split; [done|].
  constructor; [by destruct o|done].
Qed.

Lemma StronglySorted_app_seq es l c :
  StronglySorted seq_le es → Forall (fun en => seq en <= c) es → Forall (fun en => seq en = c) l →
  StronglySorted seq_le (es ++ l).
Proof.
  intros Hs Hes Hl. induction Hs as [|en es Hs IH Hall]; simpl.
  - induction Hl as [|en l Hen Hl IH]; constructor; [done|].
    eapply Forall_impl; [exact Hl|]. unfold seq_le. intros; lia.
  - apply Forall_cons in Hes as [Hen Hes]. constructor; [by apply IH|]. apply Forall_app. split; [done|].
    eapply Forall_impl; [exact Hl|]. unfold seq_le. simpl. intros; lia.
Qed.

Section steps.
Context (shard_order : gmap nat (list bop) → list (nat * list bop)).
Context (shard_order_perm : ∀ m, shard_order m ≡ₚ map_to_list m).

Lemma commit_seq_small e ops :
  mvcc_inv e → seqCounter e + Z.of_nat (length ops) < 2 ^ 64 →
  commit_seq e ops = seqCounter e + Z.of_nat (length ops).
Proof. intros [] Hb. apply u64_small. width_lia. Qed.

Lemma ApplyBatch_inv e ops :
  mvcc_inv e → seqCounter e + Z.of_nat (length ops) < 2 ^ 64 →
  mvcc_inv (mvcc_ApplyBatch shard_order e ops).
Proof.
  intros Hi Hb. destruct (decide (ops = [])) as [->|Hne]; [done|].
  assert (length ops > 0)%nat as Hl by (destruct ops; simpl; [done|lia]).
  pose proof (commit_seq_small e ops Hi Hb) as Hc. destruct Hi as [H1 H2 H3 H4 H5 H6].
  assert (lastCommitted (mvcc_ApplyBatch shard_order e ops) = commit_seq e ops) as El.
  { rewrite ApplyBatch_nonempty by done. cbn. unfold publish. rewrite (proj2 (Z.leb_gt _ _)); [done|lia]. }
  assert (seqCounter (mvcc_ApplyBatch shard_order e ops) = commit_seq e ops) as Es
    by by rewrite ApplyBatch_nonempty.
  split; [|intros i d k Hd Hk|intros k|intros k|congruence|rewrite Es; lia].
  - by apply (ApplyBatch_shards shard_order shard_order_perm e ops 0).
  - destruct (ApplyBatch_shards shard_order shard_order_perm e ops i H1) as [Hlen Hsh].
    assert (mv_shard (mv_shards (mvcc_ApplyBatch shard_order e ops)) i = d) as Ed
      by (unfold mv_shard; by rewrite Hd).
    rewrite <- Ed, Hsh in Hk. apply append_ops_dom in Hk as [Hk|Hk].
    + apply (H2 i (mv_shard (mv_shards e) i)); [|done]. apply mv_shard_lookup.
      apply lookup_lt_Some in Hd. lia.
    + apply list_elem_of_fmap in Hk as (o & -> & Ho). by apply list_elem_of_filter in Ho as [<- _].
  - rewrite (versions_ApplyBatch shard_order shard_order_perm) by done.
    destruct (key_entries_app (commit_seq e ops) k ops (versions_of e k)) as (l & -> & Hl').
    eapply StronglySorted_app_seq; [apply H3| |exact Hl'].
    eapply Forall_impl; [apply H4|]. simpl. intros; lia.
  - rewrite (versions_ApplyBatch shard_order shard_order_perm), El by done.
    destruct (key_entries_app (commit_seq e ops) k ops (versions_of e k)) as (l & -> & Hl').
    apply Forall_app. split; (eapply Forall_impl; [apply H4 || exact Hl'|]); simpl; intros; lia.
Qed.

(** Versions a snapshot can see are not touched by later batches. *)
Lemma visible_ApplyBatch e ops s k :
  mvcc_inv e → seqCounter e + Z.of_nat (length ops) < 2 ^ 64 → s <= lastCommitted e →
  visible s (versions_of (mvcc_ApplyBatch shard_order e ops) k) = visible s (versions_of e k).
Proof.
  intros Hi Hb Hs. destruct (decide (ops = [])) as [->|Hne]; [done|].
  assert (length ops > 0)%nat as Hl by (destruct ops; simpl; [done|lia]).
  rewrite (versions_ApplyBatch shard_order shard_order_perm) by apply Hi.
  destruct (key_entries_app (commit_seq e ops) k ops (versions_of e k)) as (l & -> & Hl').
  apply visible_app_newer. eapply Forall_impl; [exact Hl'|]. simpl. intros en ->.
  rewrite commit_seq_small by done. destruct Hi. lia.
Qed.

(** The operations of the engine when it is used by one goroutine at a time: each
    batch is complete before the next operation starts. Compaction is not among
    them: it may remove what a snapshot sees (MvccCompact.v). Overlapping batches
    and the compaction loop are steps of their own in MvccConc.v. *)
Inductive mstep (e : MVCCEngine) : MVCCEngine → Prop :=
  | m_batch ops :
      seqCounter e + Z.of_nat (length ops) < 2 ^ 64 → mstep e (mvcc_ApplyBatch shard_order e ops)
  | m_snapshot : mstep e (mvcc_GetSnapshot e).1
  | m_close : mstep e (mvccSnapshot_Close e).

Lemma mstep_inv e e' : mvcc_inv e → mstep e e' → mvcc_inv e' ∧ lastCommitted e <= lastCommitted e'.
Proof.
  intros Hi [ops Hb| |].
  - pose proof (ApplyBatch_inv e ops Hi Hb) as Hi'. split; [done|].
    destruct (decide (ops = [])) as [->|Hne]; [done|].
    rewrite ApplyBatch_nonempty by done. cbn. unfold publish. case_match; lia.
  - split; [by destruct Hi|done].
  - split; [by destruct Hi|done].
Qed.

Lemma mstep_visible e e' s k :
  mvcc_inv e → mstep e e' → s <= lastCommitted e →
  visible s (versions_of e' k) = visible s (versions_of e k).
Proof. intros Hi [ops Hb| |] Hs; [by apply visible_ApplyBatch|done|done]. Qed.

Lemma msteps_visible e e' s :
  mvcc_inv e → rtc mstep e e' → s <= lastCommitted e →
  mvcc_inv e' ∧ ∀ k, visible s (versions_of e' k) = visible s (versions_of e k).
Proof.
  intros Hi Hr. revert Hi. induction Hr as [e|e e1 e' Hs _ IH]; intros Hi Hle; [done|].
  destruct (mstep_inv e e1 Hi Hs) as [Hi1 Hle1].
  destruct (IH Hi1) as [Hi' Hv]; [lia|]. split; [done|]. intros k.
  rewrite Hv. by apply mstep_visible.
Qed.
End steps.

(** ** Iteration *)

(** A list of pairs in strict key order is determined by its elements. *)
Lemma pair_sorted_unique l l' :
  Sorted pair_le l → NoDup l.*1 → Sorted pair_le l' → NoDup l'.*1 → (∀ p, p ∈ l ↔ p ∈ l') → l = l'.
Proof.
  intros Hs Hn Hs' Hn' He.
  assert (l ≡ₚ l') as Hp by (apply NoDup_Permutation; [by eapply NoDup_fmap_1|by eapply NoDup_fmap_1|done]).
  rewrite (sort_pairs_unique l' l); [|done..]. symmetry. by apply sort_pairs_unique.
Qed.

Lemma iter_pair_spec ss se s k es k' v :
  iter_pair ss se s (k, es) = Some (k', v)
  ↔ k' = k ∧ in_range ss se k ∧ isReserved k = false ∧ visible s es ≫= entry_value = Some v.
Proof.
  unfold iter_pair, in_range, bytes_le, bytes_lt. rewrite <- (findVersionLinear_visible es s).
  destruct (bytes_ltb k ss); [naive_solver|].
  destruct (decide (se = [])) as [->|Hse]; simpl.
  - destruct (isReserved k); [naive_solver|].
    destruct es as [|en es]; [naive_solver|]. destruct (_ <? 0); [naive_solver|].
    destruct ((en :: es) !! _); simpl; [|naive_solver]. unfold entry_value. case_match; naive_solver.
  - rewrite bool_decide_false by done. simpl. destruct (bytes_ltb k se); simpl; [|naive_solver].
    destruct (isReserved k); [naive_solver|].
    destruct es as [|en es]; [naive_solver|]. destruct (_ <? 0); [naive_solver|].
    destruct ((en :: es) !! _); simpl; [|naive_solver]. unfold entry_value. case_match; naive_solver.
Qed.

Definition shard_pairs (ss se : bytes) (s : Z) (d : mvccShard) : list (bytes * bytes) :=
  omap (iter_pair ss se s) (map_to_list d).

Lemma elem_of_shard_pairs ss se s d k v :
  (k, v) ∈ shard_pairs ss se s d
  ↔ in_range ss se k ∧ isReserved k = false ∧ visible s (default [] (d !! k)) ≫= entry_value = Some v.
Proof.
  unfold shard_pairs. rewrite list_elem_of_omap. split.
  - intros ([k0 es] & Hin & Hp). apply iter_pair_spec in Hp as (-> & Hr & Hk & Hv).
    apply elem_of_map_to_list in Hin. by rewrite Hin.
  - intros (Hr & Hk & Hv). destruct (d !! k) as [es|] eqn:E; simpl in Hv; [|done].
    exists (k, es). split; [by apply elem_of_map_to_list|]. by apply iter_pair_spec.
Qed.

Lemma NoDup_shard_pairs ss se s d : NoDup (shard_pairs ss se s d).*1.
Proof.
  unfold shard_pairs. assert (NoDup (map_to_list d).*1) as Hnd by apply NoDup_fst_map_to_list.
  induction (map_to_list d) as [|[k es] l IH]; [constructor|]. simpl in Hnd.
  apply NoDup_cons in Hnd as [Hk Hnd]. cbn [omap list_omap].
  destruct (iter_pair ss se s (k, es)) as [[k' v]|] eqn:E; [|by apply IH].
  apply iter_pair_spec in E as (-> & _). simpl. constructor; [|by apply IH].
  intros ([k1 v1] & -> & Hin)%list_elem_of_fmap. simpl in *.
  apply list_elem_of_omap in Hin as ([k2 es2] & Hin & Hp). apply iter_pair_spec in Hp as (-> & _).
  apply Hk, list_elem_of_fmap. by exists (k2, es2).
Qed.

Lemma NoDup_concat_fst {A B C} (f : A → list (B * C)) (l : list A) :
  (∀ x, x ∈ l → NoDup (f x).*1) →
  (∀ i j x y b, l !! i = Some x → l !! j = Some y → b ∈ (f x).*1 → b ∈ (f y).*1 → i = j) →
  NoDup (concat (map f l)).*1.
Proof.
  induction l as [|x l IH]; intros Hf Hd; [constructor|]. simpl. rewrite fmap_app.
  apply NoDup_app. split_and!.
  - apply Hf. by left.
  - intros b Hb Hb'. apply list_elem_of_fmap in Hb' as (p & -> & Hp).
    apply list_elem_of_In, in_concat in Hp as (r & (y & <- & Hy)%in_map_iff & Hp).
    apply list_elem_of_In in Hy, Hp. apply list_elem_of_lookup in Hy as [j Hj].
    by specialize (Hd 0%nat (S j) x y _ eq_refl Hj Hb (list_elem_of_fmap_2 _ _ _ Hp)).
  - apply IH; [intros y Hy; apply Hf; by right|]. intros i j y z b Hi Hj H1 H2.
    by specialize (Hd (S i) (S j) y z b Hi Hj H1 H2) as [= ].
Qed.

(** The iterator lists, in key order, exactly the unreserved keys of the range
    the snapshot sees. *)
Lemma newIterator_spec e ss se s :
  mvcc_inv e →
  Sorted pair_le (newIterator e ss se s) ∧ NoDup (newIterator e ss se s).*1
  ∧ ∀ k v, (k, v) ∈ newIterator e ss se s
      ↔ in_range ss se k ∧ isReserved k = false ∧ visible s (versions_of e k) ≫= entry_value = Some v.
Proof.
  intros Hi. unfold newIterator. change (fun d => omap _ (map_to_list d)) with (shard_pairs ss se s).
  split_and!.
  - apply Sorted_merge_sort. apply _.
  - rewrite sort_pairs_perm. apply NoDup_concat_fst; [intros; apply NoDup_shard_pairs|].
    assert (∀ i d k, mv_shards e !! i = Some d → k ∈ (shard_pairs ss se s d).*1 → shardFor k = i) as Hk.
    { intros i d k Hd ([k' v] & -> & (_ & _ & Hv)%elem_of_shard_pairs)%list_elem_of_fmap.
      apply (mi_routed e Hi i d); [done|]. simpl. by destruct (d !! k'). }
    intros i j d d' k Hd Hd' H1 H2. by rewrite <- (Hk i d k Hd H1), (Hk j d' k Hd' H2).
  - intros k v. rewrite (elem_of_Permutation_proper _ _ _ (sort_pairs_perm _)).
    rewrite list_elem_of_In, in_concat. setoid_rewrite in_map_iff. split.
    + intros (r & (d & <- & Hd) & Hin). apply list_elem_of_In in Hd, Hin.
      apply elem_of_shard_pairs in Hin as (Hr & Hk & Hv). split_and!; try done.
      apply list_elem_of_lookup in Hd as [i Hd].
      assert (is_Some (d !! k)) as Hs by (by destruct (d !! k)).
      pose proof (mi_routed e Hi i d k Hd Hs) as <-.
      unfold versions_of, lookup_entries, mv_shard. by rewrite Hd.
    + intros (Hr & Hk & Hv). exists (shard_pairs ss se s (mv_shard (mv_shards e) (shardFor k))).
      split; [|apply list_elem_of_In, elem_of_shard_pairs; done].
      eexists. split; [done|]. apply list_elem_of_In, list_elem_of_lookup. exists (shardFor k).
      apply mv_shard_lookup. rewrite (mi_shards e Hi). apply shardFor_lt.
Qed.

Lemma newIterator_ext e e' ss se s s' :
  mvcc_inv e → mvcc_inv e' →
  (∀ k, visible s (versions_of e k) ≫= entry_value = visible s' (versions_of e' k) ≫= entry_value) →
  newIterator e ss se s = newIterator e' ss se s'.
Proof.
  intros Hi Hi' Hv. destruct (newIterator_spec e ss se s Hi) as (H1 & H2 & H3).
  destruct (newIterator_spec e' ss se s' Hi') as (H1' & H2' & H3').
  apply pair_sorted_unique; [done..|]. intros [k v]. by rewrite H3, H3', Hv.
Qed.

(** ** Properties *)

Section properties.
Context (shard_order : gmap nat (list bop) → list (nat * list bop)).
Context (shard_order_perm : ∀ m, shard_order m ≡ₚ map_to_list m).

(** C26. Snapshots of the multi-version engine are stable while no compaction runs
    and its operations do not overlap: on an engine in a good state (version lists
    ordered by sequence, none beyond the last commit), whatever batches are
    committed, one after the other and without overflow of the 64-bit sequence,
    and whatever snapshots are taken and closed after a snapshot was taken at
    sequence [s], its point reads, version reads and range scans do not change.
    With overlapping batches or compactions this fails. *)
Theorem mvcc_snapshot_stable e e' s k ss se :
  mvcc_inv e → rtc (mstep shard_order) e e' → s = (mvcc_GetSnapshot e).2 →
  mvccSnapshot_Get e' s k = mvccSnapshot_Get e s k
  ∧ mvccSnapshot_GetVersion e' s k = mvccSnapshot_GetVersion e s k
  ∧ mvccSnapshot_NewIter e' s ss se = mvccSnapshot_NewIter e s ss se.
Proof.
  intros Hi Hr ->. cbn [snd mvcc_GetSnapshot].
  destruct (msteps_visible shard_order shard_order_perm e e' (lastCommitted e) Hi Hr) as [Hi' Hv]; [lia|].
  split_and!.
  - by rewrite !mvccSnapshot_Get_visible, Hv.
  - unfold mvccSnapshot_GetVersion. by rewrite !snapshot_entry_visible, Hv by (apply Hi || apply Hi').
  - apply newIterator_ext; [done..|]. intros k'. by rewrite Hv.
Qed.

Lemma visible_latest e k : mvcc_inv e → visible (lastCommitted e) (versions_of e k) = last (versions_of e k).
Proof.
  intros Hi. apply visible_all. eapply Forall_impl; [apply (mi_committed e Hi)|]. simpl. intros; lia.
Qed.

(** A snapshot taken now sees every committed batch completely: its reads
    are the engine's latest values, and its scan is the raw scan. *)
Theorem mvcc_snapshot_current e k ss se :
  mvcc_inv e →
  let s := (mvcc_GetSnapshot e).2 in
  mvccSnapshot_Get e s k = mvcc_Get e k ∧ mvccSnapshot_NewIter e s ss se = mvcc_RawIter e ss se.
Proof.
  intros Hi s. cbn in s. subst s. split.
  - by rewrite mvccSnapshot_Get_visible, visible_latest, mvcc_Get_versions.
  - unfold mvccSnapshot_NewIter, mvcc_RawIter. by rewrite (mi_counter e Hi).
Qed.
End properties.
