(* ===== verification/MvccCompact.v ===== *)
(** * Batches, compaction and recovery of the multi-version engine

    The effect of a batch against the abstract store, what [Compact] keeps, and
    the executions in which versions that are still needed disappear or deleted
    values come back. *)

From S2P Require Import Prelude Types EngineSpec Shard Dump Mvcc MvccSpec.

(** ** A batch against the abstract operations *)

(** The versions of a key as a store value. *)
Definition current (es : list mvccEntry) : option bytes := last es ≫= entry_value.

(** A merge starts from the newest live value: the abstract merge unless the
    newest version is a tombstone. *)
Lemma getCurrentValue_snoc es en :
  getCurrentValue (es ++ [en]) = if deleted en then getCurrentValue es else value en.
Proof.
  unfold getCurrentValue. rewrite reverse_snoc. cbn [list_find].
  destruct (deleted en) eqn:Ed; [|by rewrite decide_True].
  rewrite decide_False by congruence. by destruct (list_find _ _) as [[]|].
Qed.

Definition tombstoned (es : list mvccEntry) : bool := from_option deleted false (last es).

Lemma getCurrentValue_current es :
  tombstoned es = false → getCurrentValue es = default [] (current es).
Proof.
  destruct es as [|en es _] using rev_ind; [done|].
  unfold tombstoned, current. rewrite last_snoc, getCurrentValue_snoc. simpl. unfold entry_value.
  by intros ->.
Qed.

Lemma current_op c o es :
  tombstoned es = false ∨ ¬ is_merge o →
  current (es ++ [op_entry c o es]) = bop_value o (current es).
Proof.
  intros Hm. unfold current at 1. rewrite last_snoc. destruct o as [k v|k|k d]; simpl; try done.
  unfold mergeInt64. destruct Hm as [Hm|Hm]; [|by destruct Hm].
  by rewrite getCurrentValue_current.
Qed.

Lemma tombstoned_op c o es :
  tombstoned (es ++ [op_entry c o es]) = match o with BDelete _ => true | _ => false end.
Proof. unfold tombstoned. rewrite last_snoc. by destruct o. Qed.

(** Along [ops], no merge of [k] meets a tombstone; [t] says whether the key
    starts as one. *)
Fixpoint merge_safe (k : bytes) (t : bool) (ops : list bop) : bool :=
  match ops with
  | [] => true
  | o :: ops' =>
      if decide (bop_key o = k) then
        match o with
        | BSet _ _ => merge_safe k false ops'
        | BDelete _ => merge_safe k true ops'
        | BMerge _ _ => negb t && merge_safe k false ops'
        end
      else merge_safe k t ops'
  end.

Lemma current_key_entries c k ops es :
  merge_safe k (tombstoned es) ops = true →
  current (key_entries c k ops es) = key_value k ops (current es).
Proof.
  revert es. induction ops as [|o ops IH]; intros es Hs; [done|]. simpl in Hs |- *.
  case_decide as E; [|by apply IH]. rewrite <- (current_op c o es).
  - apply IH. rewrite tombstoned_op. destruct o; try done. by apply andb_true_iff in Hs as [_ ?].
  - destruct o; [by right; intros []..|]. left. apply andb_true_iff in Hs as [Hs _].
    by apply negb_true_iff in Hs.
Qed.

(** ** Compaction *)

Lemma lookup_entries_Compact e k :
  length (mv_shards e) = numShards →
  lookup_entries (Compact e).1 k
  = lookup_entries e k ≫= fun es => (compact_entries (safe_seq e) es).1.
Proof.
  intros Hlen. unfold lookup_entries. cbn [Compact mv_shards fst].
  pose proof (shardFor_lt k) as Hk. rewrite <- Hlen in Hk.
  unfold mv_shard. rewrite list_lookup_fmap, (mv_shard_lookup _ _ Hk). simpl.
  by rewrite lookup_omap.
Qed.

Lemma count_before_le s es : (count_before s es ≤ length es)%nat.
Proof. induction es as [|en es IH]; simpl; [lia|]. case_match; simpl; lia. Qed.

(** What is kept is a suffix with at least two entries, or the whole list. *)
Lemma compact_entries_suffix s es es' :
  (compact_entries s es).1 = Some es' →
  ∃ n, es' = drop n es ∧ (n = 0 ∨ n + 2 ≤ length es)%nat ∧ (s = 0 → (length es' ≤ 2)%nat).
Proof.
  unfold compact_entries, removeCount. destruct (_ && _); [done|]. case_decide as Hl; cbn [fst].
  { intros [= <-]. exists 0%nat. by auto. }
  intros [= <-]. eexists. split; [done|]. rewrite length_drop. pose proof (count_before_le s es).
  destruct (0 <? s) eqn:E; [case_decide|]; split; lia.
Qed.

Lemma last_drop {A} n (l : list A) : (n = 0 ∨ n + 2 ≤ length l)%nat → last (drop n l) = last l.
Proof.
  intros Hn. rewrite !last_lookup, lookup_drop, length_drop. f_equal. lia.
Qed.

Lemma current_Compact e k :
  mvcc_inv e → current (versions_of (Compact e).1 k) = current (versions_of e k).
Proof.
  intros Hi. unfold versions_of. rewrite lookup_entries_Compact by apply Hi.
  destruct (lookup_entries e k) as [es|]; [|done]. simpl.
  destruct (compact_entries (safe_seq e) es).1 as [es'|] eqn:E; simpl.
  - destruct (compact_entries_suffix _ _ _ E) as (n & -> & Hn & _).
    unfold current. by rewrite last_drop.
  - unfold compact_entries in E. destruct (_ && _) eqn:Ed; [|by case_decide].
    apply andb_true_iff in Ed as [_ Ed]. unfold current.
    destruct (last es) as [en|]; simpl in Ed |- *; [|done]. unfold entry_value. by rewrite Ed.
Qed.

Lemma Compact_inv e : mvcc_inv e → mvcc_inv (Compact e).1.
Proof.
  intros Hi. assert (∀ k, ∃ n, versions_of (Compact e).1 k = drop n (versions_of e k)) as Hd.
  { intros k. unfold versions_of. rewrite lookup_entries_Compact by apply Hi.
    destruct (lookup_entries e k) as [es|]; simpl; [|by exists 0%nat].
    destruct (compact_entries (safe_seq e) es).1 as [es'|] eqn:E; simpl.
    - destruct (compact_entries_suffix _ _ _ E) as (n & -> & _). by exists n.
    - exists (length es). by rewrite drop_all. }
  destruct Hi as [H1 H2 H3 H4 H5 H6]. split; try done.
  - cbn. by rewrite length_map.
  - intros i d k Hd' Hk. cbn in Hd'. rewrite list_lookup_fmap in Hd'.
    destruct (mv_shards e !! i) as [d0|] eqn:E; simpl in Hd'; [|done]. injection Hd' as <-.
    apply (H2 i d0); [done|]. rewrite lookup_omap in Hk. destruct (d0 !! k); [done|by destruct Hk].
  - intros k. destruct (Hd k) as [n ->]. by apply StronglySorted_drop.
  - intros k. destruct (Hd k) as [n ->]. by apply Forall_drop.
Qed.

(** ** Properties *)

(** Binary search over ordered versions returns, within its fuel and without
    leaving the slice, the index the backward scan returns. *)
Theorem findVersion_agrees entries targetSeq :
  StronglySorted seq_le entries →
  findVersion entries targetSeq = Some (findVersionLinear entries targetSeq).
Proof. apply findVersion_linear. Qed.

Lemma findVersion_agrees_witness :
  let es := [{| seq := 2; value := []; deleted := false |}; {| seq := 5; value := []; deleted := false |};
             {| seq := 5; value := []; deleted := true |}; {| seq := 9; value := []; deleted := false |}] in
  findVersion es 7 = Some 2.
Proof.
  intros es. rewrite (findVersion_agrees es 7); [reflexivity|].
  repeat (constructor; [|by repeat (constructor; [cbv; discriminate|])]). constructor.
Defined.

Section properties.
Context (shard_order : gmap nat (list bop) → list (nat * list bop)).
Context (shard_order_perm : ∀ m, shard_order m ≡ₚ map_to_list m).

(** A batch takes effect as its operations in order on every key of which
    no merge follows a delete: the engine then reads as the abstract store. *)
Theorem mvcc_ApplyBatch_refines e ops k :
  mvcc_inv e → merge_safe k (tombstoned (versions_of e k)) ops = true →
  mvcc_Get (mvcc_ApplyBatch shard_order e ops) k = key_value k ops (mvcc_Get e k).
Proof.
  intros Hi Hs. rewrite !mvcc_Get_versions.
  rewrite (versions_ApplyBatch shard_order shard_order_perm) by apply Hi.
  by apply current_key_entries.
Qed.

(** Every operation keeps the engine's invariant: version lists stay
    ordered, every version is at most the last commit, keys stay in their
    shards. *)
Theorem mvcc_invariant e e' :
  mvcc_inv e → mstep shard_order e e' ∨ e' = (Compact e).1 → mvcc_inv e'.
Proof.
  intros Hi [Hs| ->]; [|by apply Compact_inv].
  by apply (mstep_inv shard_order shard_order_perm e e').
Qed.
End properties.

(** Compaction is invisible to current reads: the latest value of every key
    and the reads and scans of a snapshot taken now are what they were; and when
    no snapshot is open, every key keeps at most two versions. *)
Theorem Compact_keeps_current e k ss se :
  mvcc_inv e →
  mvcc_Get (Compact e).1 k = mvcc_Get e k
  ∧ mvccSnapshot_Get (Compact e).1 (lastCommitted e) k = mvccSnapshot_Get e (lastCommitted e) k
  ∧ mvccSnapshot_NewIter (Compact e).1 (lastCommitted e) ss se
    = mvccSnapshot_NewIter e (lastCommitted e) ss se
  ∧ (snapshotCount e = 0 → (length (versions_of (Compact e).1 k) ≤ 2)%nat).
Proof.
  intros Hi. pose proof (Compact_inv e Hi) as Hi'.
  assert (∀ k, visible (lastCommitted e) (versions_of (Compact e).1 k) ≫= entry_value
             = visible (lastCommitted e) (versions_of e k) ≫= entry_value) as Hv.
  { intros k'. rewrite (visible_latest e k' Hi).
    change (lastCommitted e) with (lastCommitted (Compact e).1).
    rewrite (visible_latest (Compact e).1 k' Hi'). by apply current_Compact. }
  split_and!.
  - rewrite !mvcc_Get_versions. by apply current_Compact.
  - rewrite !mvccSnapshot_Get_visible by done. apply Hv.
  - by apply newIterator_ext.
  - intros Hc. unfold versions_of. rewrite lookup_entries_Compact by apply Hi.
    destruct (lookup_entries e k) as [es|]; simpl; [|lia].
    destruct (compact_entries (safe_seq e) es).1 as [es'|] eqn:E; simpl; [|lia].
    destruct (compact_entries_suffix _ _ _ E) as (n & -> & _ & Hl). apply Hl.
    unfold safe_seq. by rewrite Hc.
Qed.

(** ** A concrete engine *)

Definition shard_list (m : gmap nat (list bop)) : list (nat * list bop) := map_to_list m.

Lemma shard_list_perm m : shard_list m ≡ₚ map_to_list m.
Proof. done. Qed.

Definition mv_new : MVCCEngine := newMVCCEngine true.
Definition mv_run (e : MVCCEngine) (batches : list (list bop)) : MVCCEngine :=
  foldl (mvcc_ApplyBatch shard_list) e batches.

Definition k_x : bytes := bs "x".
Definition set_x (v : Z) : list bop := [BSet k_x (encodeInt64 v)].

Lemma mv_run_inv batches :
  Z.of_nat (length (concat batches)) < 2 ^ 64 →
  mvcc_inv (mv_run mv_new batches) ∧ seqCounter (mv_run mv_new batches) = Z.of_nat (length (concat batches)).
Proof.
  unfold mv_run. induction batches as [|ops batches IH] using rev_ind; intros Hb; [split; [apply new_inv|done]|].
  rewrite concat_app, length_app in Hb |- *. simpl in Hb |- *. rewrite app_nil_r in *.
  destruct IH as [Hi Hs]; [lia|]. rewrite foldl_app. simpl. split.
  - apply ApplyBatch_inv; [done|done|lia].
  - destruct (decide (ops = [])) as [->|Hne]; [simpl; lia|].
    rewrite ApplyBatch_nonempty by done. cbn [seqCounter]. rewrite commit_seq_small by (done || lia). lia.
Qed.

Lemma mvcc_snapshot_stable_witness :
  let e := mv_run mv_new [set_x 1; set_x 2] in
  let e' := mvcc_ApplyBatch shard_list e [BDelete k_x] in
  mvccSnapshot_Get e' 2 k_x = Some (encodeInt64 2) ∧ mvcc_Get e' k_x = None.
Proof.
  intros e e'. split; [|vm_compute; reflexivity].
  rewrite (proj1 (mvcc_snapshot_stable shard_list shard_list_perm e e' 2 k_x [] []
    (proj1 (mv_run_inv [set_x 1; set_x 2] eq_refl))
    (rtc_once _ _ (m_batch shard_list e [BDelete k_x] ltac:(vm_compute; reflexivity)))
    ltac:(vm_compute; reflexivity))).
  vm_compute. reflexivity.
Defined.

Lemma mvcc_snapshot_current_witness :
  let e := mv_run mv_new [set_x 1; set_x 2] in
  mvccSnapshot_Get e 2 k_x = mvcc_Get e k_x.
Proof.
  intros e.
  exact (proj1 (mvcc_snapshot_current e k_x [] [] (proj1 (mv_run_inv [set_x 1; set_x 2] eq_refl)))).
Defined.

Lemma mvcc_ApplyBatch_refines_witness :
  mvcc_Get (mvcc_ApplyBatch shard_list (mv_run mv_new [set_x 40]) [BMerge k_x (encodeInt64 2)]) k_x
  = Some (encodeInt64 42).
Proof.
  rewrite (mvcc_ApplyBatch_refines shard_list shard_list_perm);
    [vm_compute; reflexivity|exact (proj1 (mv_run_inv [set_x 40] eq_refl))|vm_compute; reflexivity].
Defined.

Lemma mvcc_invariant_witness : mvcc_inv (Compact (mv_run mv_new [set_x 1; set_x 2])).1.
Proof.
  apply (mvcc_invariant shard_list shard_list_perm (mv_run mv_new [set_x 1; set_x 2]));
    [exact (proj1 (mv_run_inv [set_x 1; set_x 2] eq_refl))|right; reflexivity].
Defined.

Lemma Compact_keeps_current_witness :
  mvcc_Get (Compact (mv_run mv_new [set_x 1; set_x 2; set_x 3])).1 k_x = Some (encodeInt64 3).
Proof.
  rewrite (proj1 (Compact_keeps_current (mv_run mv_new [set_x 1; set_x 2; set_x 3]) k_x [] []
    (proj1 (mv_run_inv [set_x 1; set_x 2; set_x 3] eq_refl)))).
  vm_compute. reflexivity.
Defined.

(** ** Limits *)

(** Compaction takes versions an open snapshot still reads: [x] is set at
    sequence 1, a snapshot is opened at 2 and reads it, [x] is set again at 3 and
    4. One compaction then removes every version strictly below the oldest
    snapshot, the one it reads included, and the snapshot no longer finds [x]. *)
Theorem Compact_breaks_snapshot :
  let e := mv_run mv_new [set_x 1; [BSet (bs "y") []]] in
  let '(e, s) := mvcc_GetSnapshot e in
  let e := mv_run e [set_x 3; set_x 4] in
  let '(e', removed) := Compact e in
  s = 2 ∧ removed = 1%nat
  ∧ mvccSnapshot_Get e s k_x = Some (encodeInt64 1) ∧ mvccSnapshot_Get e' s k_x = None.
Proof. vm_compute. split_and!; reflexivity. Qed.

(** A merge of a deleted key starts from the value it had before the
    delete: 40, deleted, then +2 gives 42, where the abstract store gives 2. *)
Theorem mvcc_merge_after_delete :
  let ops := [BSet k_x (encodeInt64 40); BDelete k_x; BMerge k_x (encodeInt64 2)] in
  mvcc_Get (mv_run mv_new [ops]) k_x = Some (encodeInt64 42)
  ∧ spec_ops ∅ ops !! k_x = Some (encodeInt64 2).
Proof. vm_compute. split; reflexivity. Qed.

(** A checkpoint saves the last live value of a deleted key, and a store
    opened from it reads the value again; its snapshots, taken at sequence 0,
    see nothing. *)
Theorem mvcc_checkpoint_resurrects :
  let e := mv_run mv_new [set_x 7; [BDelete k_x]] in
  match mvcc_Open map_to_list (newMVCCEngine true) (mvcc_CreateCheckpoint map_to_list map_to_list e) with
  | Ok e' => mvcc_Get e k_x = None ∧ mvcc_Get e' k_x = Some (encodeInt64 7)
             ∧ mvccSnapshot_Get e' (mvcc_GetSnapshot e').2 k_x = None
  | _ => False
  end.
Proof. vm_compute. split_and!; reflexivity. Qed.
