(* ===== verification/MvccConc.v ===== *)
(** * The multi-version engine under concurrency (src/engine/memory/mvcc.go)

    [ApplyBatch], [ApplyShardDirect], [GetSnapshot], [Close] and [Compact] step
    by step: a commit sequence is allocated, the shards are written one after the
    other under their mutexes, and the sequence is published by a
    compare-and-swap loop; a snapshot loads the published sequence, counts itself
    and lowers [oldestSnapshot] in another such loop; compaction visits one shard
    at a time. A scheduler picks the goroutine that moves next. *)

From S2P Require Import Prelude Types EngineSpec Shard Dump Mvcc MvccSpec.

(** ** Goroutines *)

(** A call of a writer: [ApplyBatch], with the order in which its map of shards
    is visited, or [ApplyShardDirect]. *)
Inductive call :=
  | CallBatch (ops : list bop) (byShard : list (nat * list bop))
  | CallDirect (shardIdx : nat) (writes : list bop).

Definition call_ops (c : call) : list bop :=
  match c with CallBatch ops _ => ops | CallDirect _ writes => writes end.
Definition call_sections (c : call) : list (nat * list bop) :=
  match c with CallBatch _ l => l | CallDirect i writes => [(i, writes)] end.

Inductive writer :=
  | WIdle
  | WWriting (commitSeq : Z) (secs : list (nat * list bop))   (* shards still to write *)
  | WLoad (commitSeq : Z)                                     (* [cur := e.lastCommitted.Load()] *)
  | WCas (commitSeq cur : Z).                                 (* [CompareAndSwap(cur, commitSeq)] *)

Inductive reader :=
  | RStart
  | RCount (s : Z)           (* [e.snapshotCount.Add(1)] *)
  | RLoop (s : Z)            (* [old := e.oldestSnapshot.Load()] *)
  | RCas (s old : Z)         (* [CompareAndSwap(old, seq)] *)
  | ROpen (s : Z)
  | RClosed.

Inductive compactor :=
  | KStart                              (* [e.snapshotCount.Load()] *)
  | KOldest                             (* [e.oldestSnapshot.Load()] *)
  | KShard (safeSeq : Z) (i : nat)      (* the loop over the shards *)
  | KDone.

Inductive mthread :=
  | TWriter (w : writer) (calls : list call)
  | TReader (r : reader)
  | TCompactor (k : compactor).

(** ** Steps *)

Definition set_mv_shards (e : MVCCEngine) (l : list mvccShard) : MVCCEngine :=
  {| mv_sharded := mv_sharded e; mv_shards := l; seqCounter := seqCounter e;
     lastCommitted := lastCommitted e; oldestSnapshot := oldestSnapshot e; snapshotCount := snapshotCount e |}.
Definition set_counters (e : MVCCEngine) (sc lc : Z) : MVCCEngine :=
  {| mv_sharded := mv_sharded e; mv_shards := mv_shards e; seqCounter := sc;
     lastCommitted := lc; oldestSnapshot := oldestSnapshot e; snapshotCount := snapshotCount e |}.
Definition set_snapshots (e : MVCCEngine) (old n : Z) : MVCCEngine :=
  {| mv_sharded := mv_sharded e; mv_shards := mv_shards e; seqCounter := seqCounter e;
     lastCommitted := lastCommitted e; oldestSnapshot := old; snapshotCount := n |}.

(** ApplyBatch and ApplyShardDirect; an empty batch returns at once. *)
Definition writer_step (e : MVCCEngine) (w : writer) (calls : list call) :
    option (MVCCEngine * writer * list call) :=
  match w, calls with
  | WIdle, [] => None
  | WIdle, CallBatch [] _ :: calls => Some (e, WIdle, calls)
  | WIdle, c :: calls =>
      let commitSeq := u64 (seqCounter e + Z.of_nat (length (call_ops c))) in
      Some (set_counters e commitSeq (lastCommitted e), WWriting commitSeq (call_sections c), calls)
  | WWriting c ((sh, ops) :: secs), _ =>
      Some (set_mv_shards e (<[sh := append_ops c (mv_shard (mv_shards e) sh) ops]> (mv_shards e)),
            WWriting c secs, calls)
  | WWriting c [], _ => Some (e, WLoad c, calls)
  | WLoad c, _ =>
      let cur := lastCommitted e in
      if c <=? cur then Some (e, WIdle, calls) else Some (e, WCas c cur, calls)
  | WCas c cur, _ =>
      if lastCommitted e =? cur then Some (set_counters e (seqCounter e) c, WIdle, calls)
      else Some (e, WLoad c, calls)
  end.

(** GetSnapshot and Close *)
Definition reader_step (e : MVCCEngine) (r : reader) : option (MVCCEngine * reader) :=
  match r with
  | RStart => Some (e, RCount (lastCommitted e))
  | RCount s => Some (set_snapshots e (oldestSnapshot e) (i64 (snapshotCount e + 1)), RLoop s)
  | RLoop s =>
      let old := oldestSnapshot e in
      if (old =? 0) || (s <? old) then Some (e, RCas s old) else Some (e, ROpen s)
  | RCas s old =>
      if oldestSnapshot e =? old then Some (set_snapshots e s (snapshotCount e), ROpen s)
      else Some (e, RLoop s)
  | ROpen s => Some (set_snapshots e (oldestSnapshot e) (i64 (snapshotCount e - 1)), RClosed)
  | RClosed => None
  end.

(** Compact *)
Definition compactor_step (e : MVCCEngine) (k : compactor) : option (MVCCEngine * compactor) :=
  match k with
  | KStart => Some (e, if 0 <? snapshotCount e then KOldest else KShard 0 0)
  | KOldest => Some (e, KShard (oldestSnapshot e) 0)
  | KShard safeSeq i =>
      if decide (i < numShards)%nat then
        Some (set_mv_shards e (<[i := omap (fun entries => (compact_entries safeSeq entries).1)
                                        (mv_shard (mv_shards e) i)]> (mv_shards e)), KShard safeSeq (S i))
      else Some (e, KDone)
  | KDone => None
  end.

Definition thread_step (e : MVCCEngine) (t : mthread) : option (MVCCEngine * mthread) :=
  match t with
  | TWriter w calls => '(e, w, calls) ← writer_step e w calls; Some (e, TWriter w calls)
  | TReader r => '(e, r) ← reader_step e r; Some (e, TReader r)
  | TCompactor k => '(e, k) ← compactor_step e k; Some (e, TCompactor k)
  end.

Record msys := { ms_engine : MVCCEngine; ms_threads : list mthread }.

Definition mschedule1 (c : msys) (t : nat) : option msys :=
  th ← ms_threads c !! t; '(e, th) ← thread_step (ms_engine c) th;
  Some {| ms_engine := e; ms_threads := <[t := th]> (ms_threads c) |}.

Definition msched (c c' : msys) : Prop := ∃ t, mschedule1 c t = Some c'.

Definition mrun (c : msys) (ts : list nat) : option msys :=
  foldl (fun oc t => oc ≫= fun c => mschedule1 c t) (Some c) ts.

(** ** Termination of the compare-and-swap loops *)

(** Compare-and-swaps, and loads that lead to none, that may still succeed: one
    per call of a writer and one per snapshot. *)
Definition swaps (t : mthread) : nat :=
  match t with
  | TWriter WIdle calls => length calls
  | TWriter _ calls => S (length calls)
  | TReader (RStart | RCount _ | RLoop _ | RCas _ _) => 1
  | _ => 0
  end.

(** Steps up to the next success, if no other goroutine has one: a swap that is
    bound to fail costs a load and another swap. *)
Definition work (e : MVCCEngine) (t : mthread) : nat :=
  match t with
  | TWriter w calls =>
      match w with
      | WIdle => 0
      | WWriting _ secs => 4 + length secs
      | WLoad _ => 2
      | WCas _ cur => if (lastCommitted e =? cur)%Z then 1 else 3
      end + sum_list (map (fun c => 5 + length (call_sections c)) calls)
  | TReader r =>
      match r with
      | RStart => 5
      | RCount _ => 4
      | RLoop _ => 2
      | RCas _ old => if (oldestSnapshot e =? old)%Z then 1 else 3
      | ROpen _ => 1
      | RClosed => 0
      end
  | TCompactor k =>
      match k with KStart => numShards + 3 | KOldest => numShards + 2 | KShard _ i => numShards - i + 1 | KDone => 0 end
  end%nat.

Definition measure (c : msys) : nat * nat :=
  (sum_list (map swaps (ms_threads c)), sum_list (map (work (ms_engine c)) (ms_threads c))).

Lemma sum_list_insert {A} (f : A → nat) l t x y :
  l !! t = Some y → (sum_list (map f (<[t := x]> l)) + f y = sum_list (map f l) + f x)%nat.
Proof.
  intros Hy. rewrite insert_take_drop by (by eapply lookup_lt_Some).
  rewrite <- (take_drop_middle l t y Hy) at 3. rewrite !map_app, !sum_list_with_app; simpl. lia.
Qed.

Lemma thread_step_measure e t e' t' :
  thread_step e t = Some (e', t') →
  (swaps t' < swaps t)%nat
  ∨ (swaps t' = swaps t ∧ (work e' t' < work e t)%nat
     ∧ lastCommitted e' = lastCommitted e ∧ oldestSnapshot e' = oldestSnapshot e).
Proof.
  destruct t as [w calls|r|k]; simpl.
  - destruct w as [|c [|[sh ops] secs]|c|c cur]; [destruct calls as [|[[|o ops] l|i ws] calls]|..]; simpl;
      repeat case_match; intros; simplify_eq/=; try (left; lia); right; split_and!; try done;
      rewrite ?Z.eqb_refl; try lia.
  - destruct r as [|s|s|s old|s|]; simpl; repeat case_match; intros; simplify_eq/=; try (left; lia); right;
      split_and!; try done; rewrite ?Z.eqb_refl; try lia.
  - destruct k as [| |safe i|]; simpl; repeat case_match; intros; simplify_eq/=; right; split_and!; try done; cbn [work]; unfold numShards in *; lia.
Qed.

Lemma work_frame e e' t :
  lastCommitted e' = lastCommitted e → oldestSnapshot e' = oldestSnapshot e → work e' t = work e t.
Proof. intros Hl Ho. unfold work. by rewrite Hl, Ho. Qed.

(** Every step lowers the measure, in the lexicographic order. *)
Lemma msched_measure c c' :
  msched c c' →
  ((measure c').1 < (measure c).1)%nat
  ∨ ((measure c').1 = (measure c).1 ∧ ((measure c').2 < (measure c).2)%nat).
Proof.
  intros [t Hs]. unfold mschedule1 in Hs. destruct (ms_threads c !! t) as [th|] eqn:Ht; [|done]. simpl in Hs.
  destruct (thread_step (ms_engine c) th) as [[e' th']|] eqn:Hst; [|done]. simpl in Hs. injection Hs as <-.
  unfold measure. cbn [fst snd ms_threads ms_engine].
  pose proof (sum_list_insert swaps _ t th' th Ht) as E1.
  destruct (thread_step_measure _ _ _ _ Hst) as [Hlt|(Heq & Hlt & Hl & Ho)]; [left; lia|right].
  split; [lia|]. pose proof (sum_list_insert (work e') _ t th' th Ht) as E2.
  rewrite (work_frame (ms_engine c) e' th) in E2 by done.
  rewrite (map_ext (work e') (work (ms_engine c)) (fun u => work_frame _ _ u Hl Ho) (ms_threads c)) in E2. lia.
Qed.

(** C29. No livelock: every execution of any number of writers, snapshots and
    compactions over the multi-version engine is finite, whatever the scheduling;
    the compare-and-swap loops retry only when another goroutine has succeeded. *)
Theorem mvcc_loops_terminate : well_founded (fun c' c => msched c c').
Proof.
  intros c. remember (measure c).1 as n eqn:En. revert c En.
  induction n as [n IHn] using lt_wf_ind. intros c En.
  remember (measure c).2 as m eqn:Em. revert c En Em. induction m as [m IHm] using lt_wf_ind. intros c En Em.
  constructor. intros c' Hs. destruct (msched_measure c c' Hs) as [Hlt|[Heq Hlt]].
  - by eapply IHn; [rewrite En|].
  - eapply IHm; [by rewrite Em|by rewrite Heq|done].
Qed.

(** ** Versions stay in order *)

(** The entries of a key in a shard, also one the key is not routed to. *)
Definition shard_entries (e : MVCCEngine) (i : nat) (k : bytes) : list mvccEntry :=
  default [] (mv_shard (mv_shards e) i !! k).

(** The sequence a writer has allocated and not yet published. *)
Definition in_flight (t : mthread) : option Z :=
  match t with TWriter (WWriting c _ | WLoad c | WCas c _) _ => Some c | _ => None end.

Definition sections_of (t : mthread) : list (nat * list bop) :=
  match t with
  | TWriter w calls =>
      match w with WWriting _ secs => secs | _ => [] end ++ concat (map call_sections calls)
  | _ => []
  end.

(** Sequence numbers the remaining calls will take. *)
Definition demand (t : mthread) : Z :=
  match t with TWriter _ calls => Z.of_nat (sum_list (map (fun c => length (call_ops c)) calls)) | _ => 0 end.
Definition demands (l : list mthread) : Z := foldr (fun t z => demand t + z) 0 l.

(** Every shard is written by one goroutine at most: what the locks of the
    sharded proposer ensure for [ApplyShardDirect], and what holds for
    [ApplyBatch] when a single goroutine calls it. *)
Definition exclusive (own : nat → nat) (l : list mthread) : Prop :=
  ∀ t th sh ops, l !! t = Some th → (sh, ops) ∈ sections_of th →
    own sh = t ∧ (sh < numShards)%nat.

(** [ApplyShardDirect] is called with at least the applied key; a swap is only
    tried with a greater sequence. *)
Definition thread_wf (t : mthread) : Prop :=
  match t with
  | TWriter w calls =>
      Forall (fun c => match c with CallDirect _ [] => False | _ => True end) calls
      ∧ match w with WCas c cur => cur < c | _ => True end
  | _ => True
  end.

Record conc_inv (own : nat → nat) (c : msys) : Prop := {
  ci_shards : length (mv_shards (ms_engine c)) = numShards;
  ci_own : exclusive own (ms_threads c);
  ci_calls : Forall thread_wf (ms_threads c);
  ci_seq : 0 <= lastCommitted (ms_engine c) <= seqCounter (ms_engine c);
  ci_demand : seqCounter (ms_engine c) + demands (ms_threads c) < 2 ^ 64;
  ci_flight : ∀ t th q, ms_threads c !! t = Some th → in_flight th = Some q → 0 < q <= seqCounter (ms_engine c);
  ci_sorted : ∀ i k, StronglySorted seq_le (shard_entries (ms_engine c) i k);
  ci_bound : ∀ i k, Forall (fun en => seq en <= seqCounter (ms_engine c)) (shard_entries (ms_engine c) i k);
  ci_order : ∀ t th q i k, ms_threads c !! t = Some th → in_flight th = Some q → own i = t →
    Forall (fun en => seq en <= q) (shard_entries (ms_engine c) i k);
}.

Lemma demand_nonneg t : 0 <= demand t.
Proof. destruct t; simpl; lia. Qed.

Lemma demands_insert l t th th' :
  l !! t = Some th → demands (<[t := th']> l) + demand th = demands l + demand th'.
Proof.
  unfold demands. revert t. induction l as [|x l IH]; intros t Ht; [done|].
  destruct t as [|t]; simpl in *; [injection Ht as ->; lia|]. specialize (IH t Ht). lia.
Qed.

(** What a step of goroutine [t] has to keep. *)
Lemma conc_inv_update own c t th e' th' :
  conc_inv own c → ms_threads c !! t = Some th →
  length (mv_shards e') = numShards → sections_of th' ⊆ sections_of th →
  (thread_wf th → thread_wf th') →
  0 <= lastCommitted e' <= seqCounter e' → seqCounter (ms_engine c) <= seqCounter e' →
  seqCounter e' + demand th' <= seqCounter (ms_engine c) + demand th →
  (∀ q, in_flight th' = Some q → 0 < q <= seqCounter e') →
  (∀ i k, StronglySorted seq_le (shard_entries e' i k)) →
  (∀ i k, Forall (fun en => seq en <= seqCounter e') (shard_entries e' i k)) →
  (∀ q i k, in_flight th' = Some q → own i = t → Forall (fun en => seq en <= q) (shard_entries e' i k)) →
  (∀ i k, own i ≠ t → shard_entries e' i k ⊆ shard_entries (ms_engine c) i k) →
  conc_inv own {| ms_engine := e'; ms_threads := <[t := th']> (ms_threads c) |}.
Proof.
  intros [] Ht Hl Hsec Hcalls Hlc Hsc Hd Hq Hs Hb Ho Hoth.
  assert (∀ u x, <[t := th']> (ms_threads c) !! u = Some x → (u = t ∧ x = th') ∨ (u ≠ t ∧ ms_threads c !! u = Some x)) as Hu.
  { intros u x [(-> & <- & _)|[Hne Hx]]%list_lookup_insert_Some; [left|right]; auto. }
  split; cbn [ms_engine ms_threads]; try done.
  - intros u x sh ops [[-> ->]|[_ Hx]]%Hu Hin; [|by eapply ci_own0]. by eapply ci_own0; [|apply Hsec].
  - apply Forall_insert; [done|]. apply Hcalls. rewrite Forall_lookup in ci_calls0. by eapply ci_calls0.
  - pose proof (demands_insert _ _ _ th' Ht). lia.
  - intros u x q [[-> ->]|[_ Hx]]%Hu Hfl; [by apply Hq|]. specialize (ci_flight0 u x q Hx Hfl). lia.
  - intros u x q i k [[-> ->]|[Hne Hx]]%Hu Hfl Hown; [by apply Ho|].
    specialize (ci_order0 u x q i k Hx Hfl Hown). rewrite Forall_forall in ci_order0 |- *.
    intros en Hen. apply ci_order0, (Hoth i k); [congruence|done].
Qed.

(** Steps that leave the shards and the sequence counter alone. *)
Lemma conc_inv_frame own c t th e' th' :
  conc_inv own c → ms_threads c !! t = Some th →
  mv_shards e' = mv_shards (ms_engine c) → seqCounter e' = seqCounter (ms_engine c) →
  0 <= lastCommitted e' <= seqCounter e' → sections_of th' ⊆ sections_of th → demand th' <= demand th →
  (thread_wf th → thread_wf th') →
  (∀ q, in_flight th' = Some q → in_flight th = Some q) →
  conc_inv own {| ms_engine := e'; ms_threads := <[t := th']> (ms_threads c) |}.
Proof.
  intros Hc Ht Hsh Hsc Hlc Hsec Hd Hne Hfl.
  assert (∀ i k, shard_entries e' i k = shard_entries (ms_engine c) i k) as He
    by (intros; unfold shard_entries; by rewrite Hsh).
  pose proof Hc as [].
  eapply (conc_inv_update own c t th); try done; rewrite ?Hsh, ?Hsc; try (done || lia).
  - intros q Hq. by eapply ci_flight0; [|apply Hfl].
  - intros i k. rewrite He. apply ci_sorted0.
  - intros i k. rewrite He. apply ci_bound0.
  - intros q i k Hq Hown. rewrite He. by eapply ci_order0; [|apply Hfl|].
  - intros i k _. by rewrite He.
Qed.

Lemma shard_entries_insert e i d j k :
  (i < length (mv_shards e))%nat →
  shard_entries (set_mv_shards e (<[i := d]> (mv_shards e))) j k
  = if decide (i = j) then default [] (d !! k) else shard_entries e j k.
Proof. intros Hi. unfold shard_entries. simpl. rewrite mv_shard_insert by done. by case_decide. Qed.

(** A writer appends the entries of one shard. *)
Lemma conc_inv_write own c t q sh ops secs calls :
  conc_inv own c → ms_threads c !! t = Some (TWriter (WWriting q ((sh, ops) :: secs)) calls) →
  conc_inv own {| ms_engine := set_mv_shards (ms_engine c)
                    (<[sh := append_ops q (mv_shard (mv_shards (ms_engine c)) sh) ops]> (mv_shards (ms_engine c)));
                  ms_threads := <[t := TWriter (WWriting q secs) calls]> (ms_threads c) |}.
Proof.
  intros Hc Ht. pose proof Hc as []. set (e := ms_engine c) in *.
  assert (own sh = t ∧ (sh < numShards)%nat) as [Hown Hsh] by (eapply ci_own0; [exact Ht|]; by left).
  pose proof (ci_flight0 _ _ _ Ht eq_refl) as Hq.
  assert (∀ i k, shard_entries (set_mv_shards e (<[sh := append_ops q (mv_shard (mv_shards e) sh) ops]> (mv_shards e))) i k
    = if decide (sh = i) then key_entries q k ops (shard_entries e i k) else shard_entries e i k) as He.
  { intros i k. rewrite shard_entries_insert by (by rewrite ci_shards0).
    case_decide; [subst i; apply append_ops_lookup|done]. }
  assert (∀ i k, sh = i → ∃ l, key_entries q k ops (shard_entries e i k) = shard_entries e i k ++ l
    ∧ Forall (fun en => seq en = q) l) as Hk by (intros; apply key_entries_app).
  assert (∀ i k b, sh = i → q <= b → Forall (fun en => seq en <= b) (shard_entries e i k) →
            Forall (fun en => seq en <= b) (key_entries q k ops (shard_entries e i k))) as Hbd.
  { intros i k b E Hb HF. destruct (Hk i k E) as (l & -> & Hl). apply Forall_app. split; [done|].
    eapply Forall_impl; [exact Hl|]. simpl. intros ? ->. lia. }
  eapply (conc_inv_update own c t _ _ _ Hc Ht); try (done || lia).
  - simpl. by rewrite length_insert.
  - intros x Hx. by right.
  - intros q' [= <-]. done.
  - intros i k. rewrite He. case_decide as E; [|apply ci_sorted0]. destruct (Hk i k E) as (l & -> & Hl).
    apply (StronglySorted_app_seq _ _ q); [apply ci_sorted0| |done]. eapply ci_order0; [exact Ht|done|by subst].
  - intros i k. rewrite He. case_decide; [apply Hbd; [done|apply Hq|]|]; apply ci_bound0.
  - intros q' i k [= <-] Hi. rewrite He. case_decide; [apply Hbd; [done|lia|]|]; by eapply ci_order0.
  - intros i k Hi. rewrite He. case_decide; [by subst|done].
Qed.

Lemma compact_entries_sub safe es es' : (compact_entries safe es).1 = Some es' → ∃ n, es' = drop n es.
Proof.
  unfold compact_entries. repeat case_match; intros [= <-]; [by exists 0%nat|by eexists].
Qed.

Lemma shard_entries_compact safe (d : mvccShard) k :
  ∃ n, default [] (omap (fun es => (compact_entries safe es).1) d !! k) = drop n (default [] (d !! k)).
Proof.
  rewrite lookup_omap. destruct (d !! k) as [es|] eqn:E; simpl.
  - destruct (compact_entries safe es).1 as [es'|] eqn:Ec; simpl.
    + by apply (compact_entries_sub safe).
    + exists (length es). by rewrite drop_all.
  - by exists 0%nat.
Qed.

Lemma list_subseteq_drop {A} n (l : list A) x : x ∈ drop n l → x ∈ l.
Proof. intros Hx. rewrite <- (take_drop n l). apply elem_of_app. by right. Qed.

(** Compaction of one shard drops the oldest entries of its keys. *)
Lemma conc_inv_compact own c t safe i :
  conc_inv own c → ms_threads c !! t = Some (TCompactor (KShard safe i)) → (i < numShards)%nat →
  conc_inv own {| ms_engine := set_mv_shards (ms_engine c)
                    (<[i := omap (fun es => (compact_entries safe es).1) (mv_shard (mv_shards (ms_engine c)) i)]>
                       (mv_shards (ms_engine c)));
                  ms_threads := <[t := TCompactor (KShard safe (S i))]> (ms_threads c) |}.
Proof.
  intros Hc Ht Hi. pose proof Hc as []. set (e := ms_engine c) in *.
  assert (∀ j k, ∃ n, shard_entries (set_mv_shards e (<[i := omap (fun es => (compact_entries safe es).1)
    (mv_shard (mv_shards e) i)]> (mv_shards e))) j k = drop n (shard_entries e j k)) as He.
  { intros j k. rewrite shard_entries_insert by (by rewrite ci_shards0).
    case_decide; [subst; apply shard_entries_compact|by exists 0%nat]. }
  eapply (conc_inv_update own c t _ _ _ Hc Ht); try (done || lia).
  - simpl. by rewrite length_insert.
  - intros j k. destruct (He j k) as [n ->]. by apply StronglySorted_drop.
  - intros j k. destruct (He j k) as [n ->]. by apply Forall_drop.
  - intros j k _. destruct (He j k) as [n ->]. intros x Hx.
    apply (list_subseteq_drop n) in Hx. exact Hx.
Qed.

(** A writer allocates the sequence of its next call. *)
Lemma conc_inv_alloc own c t w calls :
  conc_inv own c → ms_threads c !! t = Some (TWriter WIdle (w :: calls)) → call_ops w ≠ [] →
  let q := u64 (seqCounter (ms_engine c) + Z.of_nat (length (call_ops w))) in
  conc_inv own {| ms_engine := set_counters (ms_engine c) q (lastCommitted (ms_engine c));
                  ms_threads := <[t := TWriter (WWriting q (call_sections w)) calls]> (ms_threads c) |}
  ∧ seqCounter (ms_engine c) < q.
Proof.
  intros Hc Ht Hne q. pose proof Hc as [].
  assert (0 < Z.of_nat (length (call_ops w))) as Hlen by (destruct (call_ops w); [done|simpl; lia]).
  pose proof (demands_insert _ _ _ (TReader RStart) Ht) as Hd. simpl in Hd.
  assert (0 <= demands (<[t := TReader RStart]> (ms_threads c))) as Hd0.
  { clear. induction (<[t := TReader RStart]> (ms_threads c)) as [|x l IH]; [done|]. unfold demands in *. simpl.
    pose proof (demand_nonneg x). lia. }
  assert (q = seqCounter (ms_engine c) + Z.of_nat (length (call_ops w))) as Eq by (apply u64_small; unfold is_u64; lia).
  split; [|lia]. eapply (conc_inv_update own c t _ _ _ Hc Ht); cbn [set_counters lastCommitted seqCounter];
    try (done || lia).
  - by intros [[_ ?]%Forall_cons _].
  - simpl. lia.
  - intros q' [= <-]. lia.
  - intros i k. eapply Forall_impl; [apply ci_bound0|]. simpl. intros. lia.
  - intros q' i k [= <-] _. eapply Forall_impl; [apply ci_bound0|]. simpl. intros. lia.
Qed.

Lemma conc_inv_step own c c' : conc_inv own c → msched c c' → conc_inv own c'.
Proof.
  intros Hc [t Hs]. pose proof (ci_seq own c Hc) as Hseq.
  unfold mschedule1 in Hs. destruct (ms_threads c !! t) as [th|] eqn:Ht; [|done]. simpl in Hs.
  destruct (thread_step (ms_engine c) th) as [[e' th']|] eqn:Hst; [|done]. simpl in Hs. injection Hs as <-.
  destruct th as [w calls|r|k].
  - simpl in Hst. destruct w as [|q [|[sh ops] secs]|q|q cur]; simpl in Hst.
    + destruct calls as [|w calls]; [done|]. destruct (decide (call_ops w = [])) as [E|E].
      * destruct w as [ops l|i ws]; simpl in E; subst; simplify_eq/=.
        -- eapply conc_inv_frame; try done; [|by intros [[_ ?]%Forall_cons _]].
           intros x Hx. simpl in *. apply elem_of_app. by right.
        -- pose proof (proj1 (Forall_lookup _ _) (ci_calls own c Hc) _ _ Ht) as Hno.
           by destruct Hno as [[? _]%Forall_cons _].
      * pose proof (conc_inv_alloc own c t w calls Hc Ht E) as [Ha _].
        destruct w as [[|o ops] l|i ws]; simplify_eq/=; exact Ha.
    + simplify_eq/=. by eapply conc_inv_frame.
    + simplify_eq/=. by apply conc_inv_write.
    + destruct (Z.leb_spec q (lastCommitted (ms_engine c))); simplify_eq/=; eapply conc_inv_frame; try done;
        by intros [? _].
    + pose proof (ci_flight own c Hc _ _ _ Ht eq_refl). case_match; simplify_eq/=;
        eapply conc_inv_frame; try done; try (simpl; lia); by intros [? _].
  - simpl in Hst. destruct r; simpl in Hst; repeat case_match; simplify_eq/=; by eapply conc_inv_frame.
  - simpl in Hst. destruct k; simpl in Hst; repeat case_match; simplify_eq/=;
      first [by apply conc_inv_compact | by eapply conc_inv_frame].
Qed.
