(* ===== verification/MvccConcProps.v ===== *)
(** * Snapshots of the multi-version engine under concurrency

    From a new engine and any goroutines: when no shard has two writers, the
    versions of every key stay in order of their sequences, so the binary search
    of a snapshot is right; when there is one writer, snapshots are repeatable
    and see no part of an unfinished batch. With several writers they are not,
    even when each has shards of its own. *)

From S2P Require Import Prelude Types EngineSpec Shard Dump Mvcc MvccSpec MvccConc.

(** Goroutines that have not started. *)
Definition unstarted (t : mthread) : Prop :=
  match t with TWriter WIdle _ | TReader RStart | TCompactor KStart => True | _ => False end.

Definition launch (sharded : bool) (ts : list mthread) : msys :=
  {| ms_engine := newMVCCEngine sharded; ms_threads := ts |}.

(** What the goroutines promise: shards of their own, and fewer than [2^64]
    writes in all. *)
Record fair_start (own : nat → nat) (ts : list mthread) : Prop := {
  fs_unstarted : Forall unstarted ts;
  fs_own : exclusive own ts;
  fs_calls : Forall thread_wf ts;
  fs_demand : demands ts < 2 ^ 64;
}.

Lemma new_entries sharded i k : shard_entries (newMVCCEngine sharded) i k = [].
Proof.
  unfold shard_entries, mv_shard. cbn [newMVCCEngine mv_shards].
  destruct (replicate numShards ∅ !! i) as [d|] eqn:E; simpl; [|by rewrite lookup_empty].
  apply lookup_replicate in E as [-> _]. by rewrite lookup_empty.
Qed.

Lemma launch_inv own sharded ts : fair_start own ts → conc_inv own (launch sharded ts).
Proof.
  intros []. rewrite Forall_lookup in fs_unstarted0.
  assert (∀ t th q, ts !! t = Some th → in_flight th = Some q → False) as Hno.
  { intros t th q Ht Hq. specialize (fs_unstarted0 t th Ht). by destruct th as [[]| |]. }
  split; cbn [launch ms_engine ms_threads]; try done.
  - intros t th q Ht Hq. by destruct (Hno t th q).
  - intros i k. rewrite new_entries. constructor.
  - intros i k. rewrite new_entries. constructor.
  - intros t th q i k Ht Hq. by destruct (Hno t th q).
Qed.

Lemma conc_inv_steps own c c' : conc_inv own c → rtc msched c c' → conc_inv own c'.
Proof. intros Hc Hr. induction Hr as [|x y z Hs _ IH]; [done|]. apply IH. by eapply conc_inv_step. Qed.

Lemma versions_shard e k : versions_of e k = shard_entries e (shardFor k) k.
Proof. done. Qed.

(** C27. Whatever the scheduling of writers with shards of their own, snapshots
    and compactions, the versions of every key stay ordered by sequence, the
    published sequence never passes the allocated ones, and the binary search of
    a snapshot finds the newest version at or below its sequence. *)
Theorem mvcc_versions_ordered own sharded ts c :
  fair_start own ts → rtc msched (launch sharded ts) c →
  (∀ k, StronglySorted seq_le (versions_of (ms_engine c) k))
  ∧ 0 <= lastCommitted (ms_engine c) <= seqCounter (ms_engine c)
  ∧ ∀ s k, snapshot_entry (ms_engine c) s k = visible s (versions_of (ms_engine c) k).
Proof.
  intros Hf Hr. pose proof (conc_inv_steps own _ _ (launch_inv own sharded ts Hf) Hr) as Hc.
  pose proof (ci_seq own c Hc). split_and!; [intros k; apply Hc|lia|lia|].
  intros s k. apply snapshot_entry_visible, Hc.
Qed.

(** ** Repeatable reads *)

(** Nothing at or below [s] is still being written. *)
Definition quiet (s : Z) (c : msys) : Prop :=
  s <= seqCounter (ms_engine c)
  ∧ ∀ t th q, ms_threads c !! t = Some th → in_flight th = Some q → s < q.

Definition no_compactor (c : msys) : Prop :=
  Forall (fun t => match t with TCompactor _ => False | _ => True end) (ms_threads c).

Lemma visible_key_entries s q k ops es : s < q → visible s (key_entries q k ops es) = visible s es.
Proof.
  intros Hq. destruct (key_entries_app q k ops es) as (l & -> & Hl). apply visible_app_newer.
  eapply Forall_impl; [exact Hl|]. simpl. intros. lia.
Qed.

Lemma lookup_thread_insert (l : list mthread) t th u x :
  <[t := th]> l !! u = Some x → (u = t ∧ x = th) ∨ (u ≠ t ∧ l !! u = Some x).
Proof. intros [(-> & <- & _)|[Hne Hx]]%list_lookup_insert_Some; [left|right]; auto. Qed.

(** What a step does to the sequences in flight, the counters and the entries
    visible at [s]. *)
Lemma step_effect own c c' t th th' s :
  conc_inv own c → ms_threads c !! t = Some th → thread_step (ms_engine c) th = Some (ms_engine c', th') →
  no_compactor c → quiet s c →
  seqCounter (ms_engine c) <= seqCounter (ms_engine c')
  ∧ (∀ q, in_flight th' = Some q → in_flight th = Some q ∨ seqCounter (ms_engine c) < q)
  ∧ match th' with TCompactor _ => False | _ => True end
  ∧ ∀ i k, visible s (shard_entries (ms_engine c') i k) = visible s (shard_entries (ms_engine c) i k).
Proof.
  intros Hc Ht Hst Hnc [Hs Hq]. destruct c' as [e' ts']. simpl in *.
  pose proof (proj1 (Forall_lookup _ _) Hnc _ _ Ht) as Hk.
  destruct th as [w calls|r|k]; [|destruct r; simpl in Hst; repeat case_match; by simplify_eq/=|done].
  simpl in Hst. destruct w as [|q [|[sh ops] secs]|q|q cur]; simpl in Hst.
  - destruct calls as [|w calls]; [done|]. destruct (decide (call_ops w = [])) as [E|E].
    + pose proof (proj1 (Forall_lookup _ _) (ci_calls own c Hc) _ _ Ht) as [[Hw _]%Forall_cons _].
      destruct w as [ops l|i ws]; simpl in E; subst; [|done]. by simplify_eq/=.
    + pose proof (conc_inv_alloc own c t w calls Hc Ht E) as [_ Hlt].
      destruct w as [[|o ops] l|i ws]; simplify_eq/=; (split_and!; [lia| |done|done]);
        intros q' [= <-]; right; exact Hlt.
  - simplify_eq/=. split_and!; [lia|by left|done|done].
  - simplify_eq/=. split_and!; [done|by left|done|]. intros i k.
    destruct (ci_own own c Hc _ _ sh ops Ht) as [_ Hsh]; [by left|].
    rewrite shard_entries_insert by (by rewrite (ci_shards own c Hc)). case_decide as E; [|done]. subst i.
    rewrite append_ops_lookup. apply visible_key_entries. by eapply Hq.
  - case_match; simplify_eq/=; split_and!; [lia|by left|done|done|lia|by left|done|done].
  - case_match; simplify_eq/=; split_and!; [lia|by left|done|done|lia|by left|done|done].
Qed.

Lemma quiet_step own c c' s :
  conc_inv own c → no_compactor c → quiet s c → msched c c' →
  no_compactor c' ∧ quiet s c'
  ∧ ∀ i k, visible s (shard_entries (ms_engine c') i k) = visible s (shard_entries (ms_engine c) i k).
Proof.
  intros Hc Hnc Hq [t Hs]. unfold mschedule1 in Hs.
  destruct (ms_threads c !! t) as [th|] eqn:Ht; [|done]. simpl in Hs.
  destruct (thread_step (ms_engine c) th) as [[e' th']|] eqn:Hst; [|done]. simpl in Hs. injection Hs as <-.
  destruct (step_effect own c {| ms_engine := e'; ms_threads := <[t := th']> (ms_threads c) |} t th th' s)
    as (Hsc & Hfl & Hk & Hv); try done. simpl in *. split_and!; [|split|done].
  - by apply Forall_insert.
  - destruct Hq. simpl. lia.
  - intros u x q [[-> ->]|[_ Hx]]%lookup_thread_insert Hf; [|by eapply Hq].
    destruct (Hfl q Hf) as [H|H]; [by eapply Hq|]. destruct Hq. lia.
Qed.

Lemma quiet_steps own c c' s :
  conc_inv own c → no_compactor c → quiet s c → rtc msched c c' →
  ∀ i k, visible s (shard_entries (ms_engine c') i k) = visible s (shard_entries (ms_engine c) i k).
Proof.
  intros Hc Hnc Hq Hr. induction Hr as [|x y z Hs _ IH]; [done|]. intros i k.
  destruct (quiet_step own x y s Hc Hnc Hq Hs) as (Hnc' & Hq' & Hv).
  rewrite <- Hv. apply IH; [by eapply conc_inv_step|done|done].
Qed.

(** ** One writer *)

Definition single_writer (ts : list mthread) : Prop :=
  ∀ t t' w w' calls calls', ts !! t = Some (TWriter w calls) → ts !! t' = Some (TWriter w' calls') → t = t'.

(** The sequence a snapshot has loaded. *)
Definition snapshot_seq (t : mthread) : option Z :=
  match t with TReader (RCount s | RLoop s | RCas s _ | ROpen s) => Some s | _ => None end.

Record single_inv (c : msys) : Prop := {
  si_single : single_writer (ms_threads c);
  si_flight : ∀ t th q, ms_threads c !! t = Some th → in_flight th = Some q → lastCommitted (ms_engine c) < q;
  si_snap : ∀ t th s, ms_threads c !! t = Some th → snapshot_seq th = Some s → s <= lastCommitted (ms_engine c);
}.

Lemma single_writer_insert ts t th th' :
  single_writer ts → ts !! t = Some th →
  (∀ w calls, th' = TWriter w calls → ∃ w' calls', th = TWriter w' calls') →
  single_writer (<[t := th']> ts).
Proof.
  intros Hs Ht Hw u u' w w' calls calls' Hu Hu'.
  assert (∀ v x cs, <[t := th']> ts !! v = Some (TWriter x cs) → ∃ x' cs', ts !! v = Some (TWriter x' cs')) as Hback.
  { intros v x cs [[-> <-]|[_ Hx]]%lookup_thread_insert; [|by eauto].
    destruct (Hw _ _ eq_refl) as (w1 & c1 & ->). eauto. }
  apply Hback in Hu as (? & ? & Hu). apply Hback in Hu' as (? & ? & Hu'). by eapply Hs.
Qed.

(** A step of the writer or of a snapshot, as the invariant sees it. *)
Lemma thread_step_single own c t th e' th' :
  conc_inv own c → single_inv c → ms_threads c !! t = Some th → thread_step (ms_engine c) th = Some (e', th') →
  lastCommitted (ms_engine c) <= lastCommitted e'
  ∧ (lastCommitted e' ≠ lastCommitted (ms_engine c) → ∃ w calls, th = TWriter w calls)
  ∧ (∀ q, in_flight th' = Some q → lastCommitted e' < q)
  ∧ (∀ s, snapshot_seq th' = Some s → s <= lastCommitted e')
  ∧ (∀ w calls, th' = TWriter w calls → ∃ w' calls', th = TWriter w' calls').
Proof.
  intros Hc Hi Ht Hst. pose proof (fun q => si_flight c Hi t th q Ht) as Hfl.
  pose proof (fun s => si_snap c Hi t th s Ht) as Hsn.
  pose proof (ci_seq own c Hc) as Hseq. destruct th as [w calls|r|k].
  - simpl in Hst. destruct w as [|q [|[sh ops] secs]|q|q cur]; simpl in Hst.
    + destruct calls as [|w calls]; [done|]. destruct (decide (call_ops w = [])) as [E|E].
      * pose proof (proj1 (Forall_lookup _ _) (ci_calls own c Hc) _ _ Ht) as [[Hw _]%Forall_cons _].
        destruct w as [ops l|i ws]; simpl in E; subst; [|done]. simplify_eq/=. split_and!; [lia|done|done|done|eauto].
      * pose proof (conc_inv_alloc own c t w calls Hc Ht E) as [_ Hlt].
        destruct w as [[|o ops] l|i ws]; simplify_eq/=; (split_and!; [lia|done| |done|eauto]);
          intros q' [= <-]; lia.
    + simplify_eq/=. split_and!; [lia|done|by apply Hfl|done|eauto].
    + simplify_eq/=. split_and!; [lia|done|by apply Hfl|done|eauto].
    + case_match; simplify_eq/=; (split_and!; [lia|done| |done|eauto]); [done|by apply Hfl].
    + specialize (Hfl q eq_refl). case_match; simplify_eq/=; (split_and!; [lia|by eauto| |done|by eauto]); [done|].
      by intros ? [= <-].
  - simpl in Hst. destruct r; simpl in Hst; repeat case_match; simplify_eq/=;
      (split_and!; [lia|done|done| |done]); intros s' [= <-]; try lia; by apply Hsn.
  - simpl in Hst. destruct k; simpl in Hst; repeat case_match; by simplify_eq/=.
Qed.

Lemma single_inv_step own c c' : conc_inv own c → single_inv c → msched c c' → single_inv c'.
Proof.
  intros Hc Hi [t Hs]. unfold mschedule1 in Hs. destruct (ms_threads c !! t) as [th|] eqn:Ht; [|done].
  simpl in Hs. destruct (thread_step (ms_engine c) th) as [[e' th']|] eqn:Hst; [|done]. simpl in Hs. injection Hs as <-.
  destruct (thread_step_single own c t th e' th' Hc Hi Ht Hst) as (Hlc & Hch & Hfl & Hsn & Hw). destruct Hi.
  split; cbn [ms_engine ms_threads].
  - by eapply single_writer_insert.
  - intros u x q [[-> ->]|[Hne Hx]]%lookup_thread_insert Hq; [by apply Hfl|].
    destruct (decide (lastCommitted e' = lastCommitted (ms_engine c))) as [->|Hd]; [by eapply si_flight0|].
    destruct (Hch Hd) as (w & calls & ->). destruct x as [w' calls'| |]; [|done|done].
    destruct Hne. by eapply si_single0.
  - intros u x s [[-> ->]|[Hne Hx]]%lookup_thread_insert Hq; [by apply Hsn|].
    specialize (si_snap0 u x s Hx Hq). lia.
Qed.

Lemma single_inv_launch sharded ts :
  Forall unstarted ts → single_writer ts → single_inv (launch sharded ts).
Proof.
  intros Hu Hs. rewrite Forall_lookup in Hu. split; [done| |]; intros t th x Ht Hx; specialize (Hu t th Ht);
    by destruct th as [[]|[]|].
Qed.

Lemma no_compactor_steps own c c' : conc_inv own c → no_compactor c → rtc msched c c' → no_compactor c'.
Proof.
  intros Hc Hn Hr. induction Hr as [|x y z Hs _ IH]; [done|]. apply IH; [by eapply conc_inv_step|].
  destruct Hs as [t Hs]. unfold mschedule1 in Hs. destruct (ms_threads x !! t) as [th|] eqn:Ht; [|done].
  simpl in Hs. destruct (thread_step (ms_engine x) th) as [[e' th']|] eqn:Hst; [|done]. simpl in Hs. injection Hs as <-.
  apply Forall_insert; [done|]. pose proof (proj1 (Forall_lookup _ _) Hn _ _ Ht) as Hk.
  destruct th as [w calls|r|k]; [..|done]; simpl in Hst.
  - destruct (writer_step _ _ _) as [[[? ?] ?]|]; by simplify_eq/=.
  - destruct (reader_step _ _) as [[? ?]|]; by simplify_eq/=.
Qed.

(** C28. Snapshot isolation with one writer: as long as nothing is compacted, a
    snapshot reads the same value and version of every key from the moment its
    sequence is loaded, at every point of the writer's batches, whatever the
    scheduling. *)
Theorem mvcc_single_writer_snapshot own sharded ts c t th s c' :
  fair_start own ts → single_writer ts → no_compactor (launch sharded ts) →
  rtc msched (launch sharded ts) c → ms_threads c !! t = Some th → snapshot_seq th = Some s →
  rtc msched c c' →
  ∀ k, mvccSnapshot_Get (ms_engine c') s k = mvccSnapshot_Get (ms_engine c) s k
     ∧ mvccSnapshot_GetVersion (ms_engine c') s k = mvccSnapshot_GetVersion (ms_engine c) s k.
Proof.
  intros Hf Hw Hn Hr Ht Hs Hr' k. pose proof (launch_inv own sharded ts Hf) as H0.
  pose proof (conc_inv_steps own _ _ H0 Hr) as Hc. pose proof (conc_inv_steps own _ _ Hc Hr') as Hc'.
  pose proof (no_compactor_steps own _ _ H0 Hn Hr) as Hnc.
  assert (single_inv c) as Hi.
  { pose proof (single_inv_launch sharded ts (fs_unstarted _ _ Hf) Hw) as Hi0. clear -H0 Hr Hi0.
    induction Hr as [|x y z Hs _ IH]; [done|]. apply IH; [by eapply conc_inv_step|by eapply single_inv_step]. }
  assert (quiet s c) as Hq.
  { pose proof (si_snap c Hi t th s Ht Hs). pose proof (ci_seq own c Hc). split; [lia|].
    intros u x q Hx Hq. pose proof (si_flight c Hi u x q Hx Hq). lia. }
  assert (∀ k, snapshot_entry (ms_engine c') s k = snapshot_entry (ms_engine c) s k) as E.
  { intros k'. rewrite !snapshot_entry_visible by (apply Hc || apply Hc'). rewrite !versions_shard.
    by apply (quiet_steps own c c' s). }
  unfold mvccSnapshot_Get, mvccSnapshot_GetVersion. by rewrite !E.
Qed.

(** ** Concrete executions *)

Definition w_a : call := CallDirect 44 [BSet (bs "a") (bs "1")].
Definition w_b : call := CallDirect 101 [BSet (bs "b") (bs "2")].

Lemma ab_shards : shardFor (bs "a") = 44%nat ∧ shardFor (bs "b") = 101%nat.
Proof. split; vm_compute; reflexivity. Qed.

(** Two writers, each with its shard, and a snapshot. *)
Definition two_shards : list mthread := [TWriter WIdle [w_a]; TWriter WIdle [w_b]; TReader RStart].
Definition own_ab (sh : nat) : nat := if decide (sh = 44%nat) then 0 else 1.

Lemma two_shards_fair : fair_start own_ab two_shards.
Proof.
  split; [by repeat constructor| |by repeat constructor|vm_compute; reflexivity].
  intros t th sh ops Ht Hin. destruct t as [|[|[|t]]]; simpl in Ht; simplify_eq; simpl in Hin;
    try (apply list_elem_of_singleton in Hin; injection Hin as -> ->; split; [reflexivity|unfold numShards; lia]).
  by apply elem_of_nil in Hin.
Qed.

Lemma mrun_rtc c ts c' : mrun c ts = Some c' → rtc msched c c'.
Proof.
  unfold mrun. revert c. induction ts as [|t ts IH]; intros c; simpl.
  { intros [= ->]. apply rtc_refl. }
  destruct (mschedule1 c t) as [c1|] eqn:E.
  - intros Hr. eapply rtc_l; [by exists t|by apply IH].
  - clear IH. intros Hr. exfalso. induction ts as [|u ts IH]; [done|by apply IH].
Qed.

(** What is left of an execution: the snapshot's sequence and what it reads. *)
Definition reader_sees (k : bytes) (c : msys) : option (Z * option bytes) :=
  th ← ms_threads c !! 2%nat; s ← snapshot_seq th; Some (s, mvccSnapshot_Get (ms_engine c) s k).

(** The first writer allocates its sequence, the second writes and publishes,
    the snapshot is taken. *)
Definition overtaken : list nat := [0; 1; 1; 1; 1; 1; 2; 2; 2; 2]%nat.

Lemma overtaken_runs : ∃ c, mrun (launch true two_shards) overtaken = Some c.
Proof.
  assert (bool_decide (is_Some (mrun (launch true two_shards) overtaken)) = true) as H by (vm_compute; reflexivity).
  apply bool_decide_eq_true in H as [c Hc]. by exists c.
Qed.

Lemma mvcc_versions_ordered_witness :
  ∃ c, mrun (launch true two_shards) overtaken = Some c
    ∧ snapshot_entry (ms_engine c) 2 (bs "b") = visible 2 (versions_of (ms_engine c) (bs "b")).
Proof.
  destruct overtaken_runs as [c Hc]. exists c. split; [exact Hc|].
  apply (mvcc_versions_ordered own_ab true two_shards c).
  - apply two_shards_fair.
  - exact (mrun_rtc _ _ _ Hc).
Defined.

(** A snapshot is not repeatable when writers overlap: a writer that
    allocated its sequence earlier is still writing when a later one publishes;
    the snapshot taken then misses the earlier write, and sees it once it lands. *)
Theorem mvcc_snapshot_not_repeatable :
  mrun (launch true two_shards) overtaken ≫= reader_sees (bs "a") = Some (2, None)
  ∧ mrun (launch true two_shards) (overtaken ++ [0%nat]) ≫= reader_sees (bs "a") = Some (2, Some (bs "1")).
Proof. split; vm_compute; reflexivity. Qed.

(** Two overlapping batches: the snapshot sees one half of the first. *)
Definition batch_ab : call :=
  CallBatch [BSet (bs "a") (bs "1"); BSet (bs "b") (bs "1")]
    [(44%nat, [BSet (bs "a") (bs "1")]); (101%nat, [BSet (bs "b") (bs "1")])].
Definition batch_x : call := CallBatch [BSet (bs "x") (bs "2")] [(7%nat, [BSet (bs "x") (bs "2")])].
Definition two_batches : list mthread := [TWriter WIdle [batch_ab]; TWriter WIdle [batch_x]; TReader RStart].

Theorem mvcc_torn_batch :
  mrun (launch false two_batches) (0%nat :: overtaken) ≫= reader_sees (bs "a") = Some (3, Some (bs "1"))
  ∧ mrun (launch false two_batches) (0%nat :: overtaken) ≫= reader_sees (bs "b") = Some (3, None).
Proof. split; vm_compute; reflexivity. Qed.

(** One writer of two batches, in the middle of the second when the snapshot is
    taken. *)
Definition one_writer : list mthread := [TWriter WIdle [batch_ab; batch_ab]; TReader RStart].

Lemma one_writer_fair : fair_start (fun _ => 0%nat) one_writer.
Proof.
  split; [by repeat constructor| |by repeat constructor|vm_compute; reflexivity].
  intros t th sh ops Ht Hin. destruct t as [|[|t]]; simpl in Ht; simplify_eq; simpl in Hin;
    [|by apply elem_of_nil in Hin]. split; [done|].
  repeat (apply elem_of_cons in Hin as [Hin|Hin]; [injection Hin as -> ->; unfold numShards; lia|]).
  by apply elem_of_nil in Hin.
Qed.

Definition halfway : list nat := [0; 0; 0; 0; 0; 0; 0; 0; 1]%nat.

Lemma halfway_reader : ∃ c, mrun (launch false one_writer) halfway = Some c
  ∧ ms_threads c !! 1%nat = Some (TReader (RCount 2)).
Proof.
  assert ((fun c => ms_threads c !! 1%nat) <$> mrun (launch false one_writer) halfway
          = Some (Some (TReader (RCount 2)))) as H by (vm_compute; reflexivity).
  destruct (mrun (launch false one_writer) halfway) as [c|]; [|discriminate H].
  exists c. injection H as H. auto.
Qed.

Lemma mvcc_single_writer_snapshot_witness :
  ∃ c, mrun (launch false one_writer) halfway = Some c
    ∧ ∀ c', rtc msched c c' →
      mvccSnapshot_Get (ms_engine c') 2 (bs "b") = mvccSnapshot_Get (ms_engine c) 2 (bs "b").
Proof.
  destruct halfway_reader as (c & Hc & Ht). exists c. split; [exact Hc|]. intros c' Hr.
  apply (mvcc_single_writer_snapshot (fun _ => 0%nat) false one_writer c 1%nat (TReader (RCount 2)) 2 c').
  - apply one_writer_fair.
  - intros t t' w w' calls calls' H1 H2. destruct t as [|[|t]], t' as [|[|t']]; simpl in *; rewrite ?lookup_nil in *; congruence.
  - by repeat constructor.
  - exact (mrun_rtc _ _ _ Hc).
  - exact Ht.
  - reflexivity.
  - exact Hr.
Defined.
