(* ===== verification/MvccLife.v ===== *)
(** * The life of a multi-version engine (src/engine/memory/mvcc.go)

    newMVCCEngine starts compactLoop in a goroutine; Close closes the channel
    [compactStop] and waits until the loop has closed [compactDone]; Open makes
    neither again. Calls of Close, rounds of the loop and the other operations
    of the engine are interleaved; closing a closed channel panics. *)

From S2P Require Import Prelude Types EngineSpec Dump Mvcc.

(** The goroutine of compactLoop: in its select, or past [close(e.compactDone)]. *)
Inductive loopState := Selecting | Exited.

(** A call of Close. *)
Inductive closing :=
  | AtClose     (* before [close(e.compactStop)] *)
  | WaitDone    (* in [<-e.compactDone] *)
  | Closed      (* returned nil *)
  | Panicked.   (* close of closed channel *)

#[export] Instance closing_eq_dec : EqDecision closing.
Proof. solve_decision. Defined.
#[export] Instance loopState_eq_dec : EqDecision loopState.
Proof. solve_decision. Defined.

Record life := {
  lf_engine : MVCCEngine;
  lf_stop : bool;              (* [compactStop] is closed *)
  lf_loop : loopState;
  lf_calls : list closing;     (* the calls of Close so far *)
}.

(** newMVCCEngine *)
Definition started (sharded : bool) : life :=
  {| lf_engine := newMVCCEngine sharded; lf_stop := false; lf_loop := Selecting; lf_calls := [] |}.

Definition set_engine (l : life) (e : MVCCEngine) : life :=
  {| lf_engine := e; lf_stop := lf_stop l; lf_loop := lf_loop l; lf_calls := lf_calls l |}.
Definition set_call (l : life) (i : nat) (c : closing) : life :=
  {| lf_engine := lf_engine l; lf_stop := lf_stop l; lf_loop := lf_loop l; lf_calls := <[i := c]> (lf_calls l) |}.

(** (e *MVCCEngine) compactLoop: one round of the select, which of its ready
    cases it takes being open. *)
Inductive loopCase := Tick | Stop.

Definition compactLoop (l : life) (c : loopCase) : option life :=
  match lf_loop l, c with
  | Selecting, Tick => Some (set_engine l (Compact (lf_engine l)).1)
  | Selecting, Stop =>
      if lf_stop l
      then Some {| lf_engine := lf_engine l; lf_stop := lf_stop l; lf_loop := Exited; lf_calls := lf_calls l |}
      else None
  | Exited, _ => None
  end.

(** (e *MVCCEngine) Close: the next step of call [i]; [None] when it has to wait
    or is over. *)
Definition Close (l : life) (i : nat) : option life :=
  match lf_calls l !! i with
  | Some AtClose =>
      if lf_stop l then Some (set_call l i Panicked)
      else Some {| lf_engine := lf_engine l; lf_stop := true; lf_loop := lf_loop l;
                   lf_calls := <[i := WaitDone]> (lf_calls l) |}
  | Some WaitDone => if decide (lf_loop l = Exited) then Some (set_call l i Closed) else None
  | _ => None
  end.

Inductive lstep : life → life → Prop :=
  | l_call l : lstep l {| lf_engine := lf_engine l; lf_stop := lf_stop l; lf_loop := lf_loop l;
                          lf_calls := lf_calls l ++ [AtClose] |}
  | l_close l i l' : Close l i = Some l' → lstep l l'
  | l_loop l c l' : compactLoop l c = Some l' → lstep l l'
  | l_open l order dump e : mvcc_Open order (lf_engine l) dump = Ok e → lstep l (set_engine l e)
  | l_write l e : lstep l (set_engine l e).   (* any other operation of the engine *)

(** A call that got past closing the channel. *)
Definition passed (c : closing) : Prop := c = WaitDone ∨ c = Closed.
#[export] Instance passed_dec c : Decision (passed c).
Proof. unfold passed. apply _. Defined.

Record life_inv (l : life) : Prop := {
  li_count : length (filter passed (lf_calls l)) = if lf_stop l then 1%nat else 0%nat;
  li_exited : lf_loop l = Exited → lf_stop l = true;
  li_closed : Closed ∈ lf_calls l → lf_loop l = Exited;
}.

Lemma count_insert (cs : list closing) i c c' : cs !! i = Some c →
  length (filter passed (<[i := c']> cs))
  = (length (filter passed cs) + (if decide (passed c') then 1 else 0) - (if decide (passed c) then 1 else 0))%nat
  ∧ ((if decide (passed c) then 1 else 0) ≤ length (filter passed cs))%nat.
Proof.
  intros Hi. pose proof (lookup_lt_Some _ _ _ Hi). rewrite <- (take_drop_middle cs i c Hi) at 2 3.
  rewrite insert_take_drop by done. rewrite !filter_app, !filter_cons, !length_app.
  repeat case_decide; simpl; lia.
Qed.

Lemma elem_of_set_call (cs : list closing) i c : Closed ∈ <[i := c]> cs → c = Closed ∨ Closed ∈ cs.
Proof.
  intros [j Hj]%list_elem_of_lookup. apply list_lookup_insert_Some in Hj as [(_ & -> & _)|[_ Hj]]; [by left|].
  right. by eapply list_elem_of_lookup_2.
Qed.

Lemma life_inv_step l l' : lstep l l' → life_inv l → life_inv l'.
Proof.
  intros Hs [Hc He Hd]. destruct Hs as [l|l i l' E|l c l' E|l order dump e E|l e]; [| | |by split..].
  - split; simpl; [|done|].
    + rewrite filter_app, length_app, Hc. simpl. lia.
    + intros [?|?%list_elem_of_singleton]%elem_of_app; [by apply Hd|done].
  - unfold Close in E. destruct (lf_calls l !! i) as [[]|] eqn:Ei; simplify_eq/=.
    + destruct (lf_stop l) eqn:Es; simplify_eq/=; (destruct (count_insert _ _ _ Panicked Ei) as [E1 _];
        destruct (count_insert _ _ _ WaitDone Ei) as [E2 _]; split; simpl).
      * rewrite E1, Hc, Es. simpl. lia.
      * by rewrite Es.
      * intros [?|?]%elem_of_set_call; [done|auto].
      * rewrite E2, Hc. simpl. lia.
      * done.
      * intros [?|?]%elem_of_set_call; [done|auto].
    + case_decide as Hl; simplify_eq. destruct (count_insert _ _ _ Closed Ei) as [E1 E2]. split; simpl; [|done|done].
      rewrite E1, Hc. simpl in *. rewrite Hc in E2. lia.
  - unfold compactLoop in E. destruct (lf_loop l) eqn:El, c; simplify_eq/=; [by split; simpl; rewrite ?El|].
    destruct (lf_stop l) eqn:Es; simplify_eq. by split; simpl; rewrite ?Es.
Qed.

Lemma life_reachable sharded l : rtc lstep (started sharded) l → life_inv l.
Proof.
  assert (life_inv (started sharded)) as H0 by (split; simpl; [done|done|set_solver]).
  intros Hr. induction Hr; eauto using life_inv_step.
Qed.

(** The loop, once gone, stays gone: nothing starts it again. *)
Lemma exited_forever l l' : rtc lstep l l' → lf_loop l = Exited → lf_stop l = true →
  lf_loop l' = Exited ∧ lf_stop l' = true.
Proof.
  intros Hr. induction Hr as [|l1 l2 l3 Hs _ IH]; [done|]. intros El Es.
  destruct Hs as [l|l i l' E|l c l' E|l order dump e E|l e]; try (by apply IH).
  - unfold Close in E. rewrite El, Es in E. destruct (lf_calls l !! i) as [[]|]; simplify_eq/=; by apply IH.
  - unfold compactLoop in E. by rewrite El in E.
Qed.

(** A call that waits can always be let go: the loop sees the closed channel. *)
Lemma waiting_returns l i : lf_stop l = true → lf_calls l !! i = Some WaitDone →
  ∃ l', rtc lstep l l' ∧ lf_calls l' !! i = Some Closed.
Proof.
  intros Es Ei. pose proof (lookup_lt_Some _ _ _ Ei) as Hlt.
  set (l1 := {| lf_engine := lf_engine l; lf_stop := lf_stop l; lf_loop := Exited; lf_calls := lf_calls l |}).
  exists (set_call l1 i Closed). split; [|exact (list_lookup_insert_eq (lf_calls l) i Closed Hlt)].
  assert (rtc lstep l l1) as H1.
  { destruct (lf_loop l) eqn:El; [|subst l1; rewrite <- El; destruct l; apply rtc_refl].
    apply rtc_once, (l_loop l Stop). unfold compactLoop, l1. by rewrite El, Es. }
  eapply rtc_r; [exact H1|]. apply (l_close l1 i). unfold Close. simpl. by rewrite Ei.
Qed.

(** C36. An MVCC engine can be closed once. However calls of Close, rounds of the
    compaction loop, Open and the other operations interleave: at most one call
    gets past closing the channel, and it can always go on to return; a call
    returns only when the loop has ended; and from then on, whatever happens
    next, Open included, no compaction runs again and the only thing a later
    call of Close can do is panic. *)
Theorem mvcc_closes_once sharded l :
  rtc lstep (started sharded) l →
  (length (filter passed (lf_calls l)) ≤ 1)%nat
  ∧ (∀ i, lf_calls l !! i = Some WaitDone → ∃ l', rtc lstep l l' ∧ lf_calls l' !! i = Some Closed)
  ∧ (Closed ∈ lf_calls l → ∀ l', rtc lstep l l' →
       (∀ c, compactLoop l' c = None)
       ∧ ∀ j, lf_calls l' !! j = Some AtClose → Close l' j = Some (set_call l' j Panicked)).
Proof.
  intros Hr. destruct (life_reachable _ _ Hr) as [Hc He Hd]. split_and!.
  - destruct (lf_stop l); lia.
  - intros i Ei. apply waiting_returns; [|done]. destruct (lf_stop l) eqn:Es; [done|].
    apply nil_length_inv in Hc. exfalso. assert (WaitDone ∈ filter passed (lf_calls l)) as Hin; [|rewrite Hc in Hin; set_solver].
    apply list_elem_of_filter. split; [by left|by eapply list_elem_of_lookup_2].
  - intros Hcl l' Hr'. specialize (Hd Hcl). destruct (exited_forever _ _ Hr' Hd (He Hd)) as [El' Es']. split.
    + intros c. unfold compactLoop. by rewrite El'.
    + intros j Ej. unfold Close. by rewrite Ej, Es'.
Qed.

(** Restore (src/conductor/fsm.go) closes the engine and opens it again; the
    node's own Close comes later. *)
Definition after_restore : life :=
  {| lf_engine := newMVCCEngine true; lf_stop := true; lf_loop := Exited; lf_calls := [Closed; AtClose] |}.

Lemma restore_reached : rtc lstep (started true) after_restore.
Proof.
  eapply rtc_l; [apply l_call|]. eapply rtc_l; [apply (l_close _ 0%nat); reflexivity|].
  eapply rtc_l; [apply (l_loop _ Stop); reflexivity|]. eapply rtc_l; [apply (l_close _ 0%nat); reflexivity|].
  eapply rtc_l; [apply (l_open _ map_to_list None (newMVCCEngine true)); reflexivity|]. apply rtc_once, l_call.
Qed.

(** After a Restore the node can no longer be closed, and versions are never
    reclaimed again. *)
Lemma mvcc_closes_once_witness :
  rtc lstep (started true) after_restore
  ∧ Close after_restore 1 = Some (set_call after_restore 1 Panicked) ∧ compactLoop after_restore Tick = None.
Proof.
  destruct (mvcc_closes_once true after_restore restore_reached) as (_ & _ & H).
  destruct (H ltac:(apply list_elem_of_here) after_restore (rtc_refl _ _)) as [H1 H2].
  split; [exact restore_reached|]. split; [apply H2; reflexivity|apply H1].
Defined.
