(* ===== verification/Oshodi.v ===== *)
(** * The Oshodi engine (src/engine/oshodi/oshodi.go)

    The adapter over the github.com/agberohq/oshodi store: batches written key by
    key, snapshots materialised into a map, checkpoints copied into a second
    database. The store itself is not part of the repository: it is a class of
    operations with laws. *)

From S2P Require Import Prelude Types EngineSpec Materialise.

(** ** The store *)

(** Errors of the oshodi package. *)
Inductive oshErr := OshKeyNotFound | OshOther (msg : string).

#[export] Instance oshErr_eq_dec : EqDecision oshErr.
Proof. solve_decision. Defined.

(** A [*oshodi.DB] together with its [*oshodi.Bucket]. [Scan] is given by the
    pairs a callback that never stops is called with. *)
Class Bucket (B : Type) := {
  bk_Get : B → bytes → bytes + oshErr;
  bk_Set : B → bytes → bytes → B * option oshErr;
  bk_Delete : B → bytes → B * option oshErr;
  bk_Scan : B → list (bytes * bytes) * option oshErr;
  bk_Flush : B → option oshErr;
}.

(** Reads see the last successful writes; a failed write changes nothing; a scan
    visits every pair once. *)
Class BucketLaws (B : Type) `{Bucket B} := {
  bk_abs : B → store;
  bk_get_law b k : bk_Get b k = from_option inl (inr OshKeyNotFound) (bk_abs b !! k);
  bk_set_law b k v b' err : bk_Set b k v = (b', err) →
    bk_abs b' = if decide (err = None) then <[k := v]> (bk_abs b) else bk_abs b;
  bk_delete_law b k b' err : bk_Delete b k = (b', err) →
    bk_abs b' = if decide (err = None) then delete k (bk_abs b) else bk_abs b;
  bk_scan_law b : (bk_Scan b).1 ≡ₚ map_to_list (bk_abs b) ∧ (bk_Scan b).2 = None;
}.

Definition osh_err (e : oshErr) : engErr :=
  match e with OshKeyNotFound => ErrEngine "key not found" | OshOther m => ErrEngine m end.

(** ** The adapter *)

Section oshodi.
Context {B : Type} `{Bucket B} `{DataOrder}.

Record Engine := { bucket : B; seq : Z }.

(** (e *Engine) readApplied *)
Definition readApplied (b : B) : Z + oshErr :=
  match bk_Get b appliedKey with
  | inr OshKeyNotFound => inl 0
  | inr err => inr err
  | inl val => if decide (length val < 8)%nat then inl 0 else inl (decodeUint64 val)
  end.

(** (e *Engine) Open, from what os.MkdirAll and oshodi.Open return. *)
Definition Open (mkdir : option oshErr) (db : B + oshErr) : Engine + oshErr :=
  match mkdir, db with
  | Some err, _ => inr err
  | None, inr err => inr err
  | None, inl b =>
      match readApplied b with
      | inr err => inr err
      | inl s => inl {| bucket := b; seq := s |}
      end
  end.

(** (e *Engine) Get *)
Definition Get (e : Engine) (key : bytes) : bytes + engErr :=
  match bk_Get (bucket e) key with
  | inr OshKeyNotFound => inr ErrKeyNotFound
  | inr err => inr (osh_err err)
  | inl val => inl val
  end.

Record oshodiSnapshot := { data : store; snap_seq : Z }.

(** (e *Engine) GetSnapshot *)
Definition GetSnapshot (e : Engine) : oshodiSnapshot + engErr :=
  match bk_Scan (bucket e) with
  | (_, Some err) => inr (osh_err err)
  | (pairs, None) => inl {| data := scan_map pairs; snap_seq := seq e |}
  end.

(** oshodiBatch: Set, Delete, Merge, Reset *)
Definition oshodiBatch : Type := list bop.
Definition batch_Set (b : oshodiBatch) (k v : bytes) : oshodiBatch := b ++ [BSet k v].
Definition batch_Delete (b : oshodiBatch) (k : bytes) : oshodiBatch := b ++ [BDelete k].
Definition batch_Merge (b : oshodiBatch) (k v : bytes) : oshodiBatch := b ++ [BMerge k v].
Definition batch_Reset (b : oshodiBatch) : oshodiBatch := [].

(** One round of the loop of ApplyBatch. [mergeInt64] is
    [encodeInt64(decodeInt64(cur) + decodeInt64(op.value))]; a missing key has
    the nil value. *)
Definition apply_op (e : Engine) (o : bop) : Engine * option oshErr :=
  match o with
  | BSet k v =>
      let '(b, err) := bk_Set (bucket e) k v in
      match err with
      | Some _ => ({| bucket := b; seq := seq e |}, err)
      | None =>
          ({| bucket := b;
              seq := if bool_decide (k = appliedKey) && bool_decide (8 ≤ length v)%nat
                     then decodeUint64 v else seq e |}, None)
      end
  | BDelete k =>
      let '(b, err) := bk_Delete (bucket e) k in ({| bucket := b; seq := seq e |}, err)
  | BMerge k d =>
      match bk_Get (bucket e) k with
      | inr (OshOther m) => (e, Some (OshOther m))
      | r =>
          let cur := match r with inl v => v | inr _ => [] end in
          let '(b, err) := bk_Set (bucket e) k (mergeInt64 cur d) in
          ({| bucket := b; seq := seq e |}, err)
      end
  end.

(** The loop: the first error ends it. *)
Fixpoint apply_ops (e : Engine) (ops : list bop) : Engine * option oshErr :=
  match ops with
  | [] => (e, None)
  | o :: ops' =>
      match apply_op e o with
      | (e, Some err) => (e, Some err)
      | (e, None) => apply_ops e ops'
      end
  end.

(** (e *Engine) Sync *)
Definition Sync (e : Engine) : option engErr := osh_err <$> bk_Flush (bucket e).

(** (e *Engine) ApplyBatch *)
Definition ApplyBatch (e : Engine) (b : oshodiBatch) (sync : bool) : Engine * option engErr :=
  match apply_ops e b with
  | (e, Some err) => (e, Some (osh_err err))
  | (e, None) => (e, if sync then Sync e else None)
  end.

(** (e *Engine) CurrentSequence *)
Definition CurrentSequence (e : Engine) : Z :=
  match readApplied (bucket e) with inl val => val | inr _ => seq e end.

(** (e *Engine) RawIter *)
Definition RawIter (e : Engine) (ss se : bytes) : list (bytes * bytes) * option engErr :=
  match bk_Scan (bucket e) with
  | (_, Some err) => ([], Some (osh_err err))
  | (pairs, None) => (sort_pairs (filter (fun p => keep ss se p.1 = true) pairs), None)
  end.

(** Get, GetVersion and NewIter of a snapshot. *)
Definition snapshot_Get (s : oshodiSnapshot) (key : bytes) : option bytes := data s !! key.

Definition snapshot_GetVersion (s : oshodiSnapshot) (key : bytes) : EpochRecord :=
  match data s !! versionKey key with
  | None => zero_epoch
  | Some val => decodeEpochRecord0 val
  end.

Definition snapshot_NewIter (s : oshodiSnapshot) (ss se : bytes) : list (bytes * bytes) * option engErr :=
  (sort_pairs (filter (fun p => keep ss se p.1 && negb (isReserved p.1) = true) (data_order (data s))), None).

(** [for k, v := range data { bucket.Set }] *)
Fixpoint set_all (b : B) (l : list (bytes * bytes)) : B * option oshErr :=
  match l with
  | [] => (b, None)
  | (k, v) :: l' =>
      match bk_Set b k v with
      | (b, Some err) => (b, Some err)
      | (b, None) => set_all b l'
      end
  end.

(** (e *Engine) CreateCheckpoint: [mkdir] and [cpDB] are what os.MkdirAll and
    oshodi.Open return for the checkpoint directory. *)
Definition CreateCheckpoint (e : Engine) (mkdir : option oshErr) (cpDB : B + oshErr) : (B + oshErr) * option oshErr :=
  match mkdir with
  | Some err => (cpDB, Some err)
  | None =>
      match bk_Scan (bucket e) with
      | (_, Some err) => (cpDB, Some err)
      | (pairs, None) =>
          match cpDB with
          | inr err => (cpDB, Some err)
          | inl b =>
              match set_all b (data_order (scan_map pairs)) with
              | (b, Some err) => (inl b, Some err)
              | (b, None) => (inl b, bk_Flush b)
              end
          end
      end
  end.

(** The adapter as an instance of the interface. *)
#[export] Instance oshodi_engine : StorageEngine Engine oshodiSnapshot oshodiBatch := {
  eng_Get := Get;
  eng_GetSnapshot := GetSnapshot;
  eng_NewBatch _ := [];
  bat_Set := batch_Set;
  bat_Delete := batch_Delete;
  bat_Merge := batch_Merge;
  eng_ApplyBatch := ApplyBatch;
  eng_Sync := Sync;
  eng_CurrentSequence := CurrentSequence;
  eng_RawIter := RawIter;
  snap_Get s k := found (snapshot_Get s k);
  snap_GetVersion s k := inl (snapshot_GetVersion s k);
  snap_NewIter := snapshot_NewIter;
  snap_Sequence := snap_seq;
}.
End oshodi.

Arguments Engine B : clear implicits.

(** ** Correctness *)

Section correctness.
Context {B : Type} `{BucketLaws B} `{DataOrderLaw}.

Definition abs (e : Engine B) : store := bk_abs (bucket e).

Lemma apply_op_abs (e e' : Engine B) o err :
  apply_op e o = (e', err) → abs e' = if decide (err = None) then spec_op (abs e) o else abs e.
Proof.
  unfold apply_op, abs. destruct o as [k v|k|k d].
  - destruct (bk_Set _ _ _) as [b r] eqn:E. apply bk_set_law in E.
    destruct r; intros [= <- <-]; cbn [bucket]; rewrite E; by repeat case_decide.
  - destruct (bk_Delete _ _) as [b r] eqn:E. apply bk_delete_law in E.
    intros [= <- <-]. cbn [bucket]. rewrite E. by case_decide.
  - rewrite bk_get_law. destruct (bk_abs (bucket e) !! k) as [cur|] eqn:El; cbn [from_option];
      destruct (bk_Set _ _ _) as [b r] eqn:E; apply bk_set_law in E; intros [= <- <-]; cbn [bucket];
      rewrite E; (case_decide; [|done]);
      apply map_eq; intros k'; rewrite lookup_spec_op, lookup_insert; simpl;
      (case_decide; [|done]); subst; by rewrite El.
Qed.

(** A batch is applied up to its first error. *)
Lemma apply_ops_abs ops (e e' : Engine B) err :
  apply_ops e ops = (e', err) →
  ∃ n, (n ≤ length ops)%nat ∧ abs e' = spec_ops (abs e) (take n ops) ∧ (err = None ↔ n = length ops).
Proof.
  revert e. induction ops as [|o ops IH]; intros e; simpl.
  { intros [= <- <-]. by exists 0%nat. }
  destruct (apply_op e o) as [e1 r] eqn:E. apply apply_op_abs in E. destruct r as [x|].
  - rewrite decide_False in E by done. intros [= <- <-]. exists 0%nat. split_and!; [lia|done|done].
  - rewrite decide_True in E by done. intros Ha. apply IH in Ha as (n & Hn & Ha & Hi).
    exists (S n). split_and!; [lia| |rewrite Hi; lia]. by rewrite Ha, E.
Qed.

Lemma oshodi_ApplyBatch_abs (e e' : Engine B) b sync err :
  ApplyBatch e b sync = (e', err) →
  ∃ n, (n ≤ length b)%nat ∧ abs e' = spec_ops (abs e) (take n b) ∧ (err = None → n = length b).
Proof.
  unfold ApplyBatch. destruct (apply_ops e b) as [e1 r] eqn:E. apply apply_ops_abs in E as (n & Hn & Ha & Hi).
  destruct r; intros [= <- <-]; exists n; split_and!; try done. intros _. by apply Hi.
Qed.

Lemma GetSnapshot_abs (e : Engine B) : GetSnapshot e = inl {| data := abs e; snap_seq := seq e |}.
Proof.
  unfold GetSnapshot, abs. destruct (bk_scan_law (bucket e)) as [Hp He]. destruct (bk_Scan _) as [l r].
  simpl in *. subst r. by rewrite (scan_map_perm _ _ Hp).
Qed.

Lemma oshodi_Get_abs (e : Engine B) k : eng_Get e k = found (abs e !! k).
Proof. simpl. unfold Get, abs. rewrite bk_get_law. by destruct (_ !! k). Qed.

Lemma oshodi_RawIter_abs (e : Engine B) s t : RawIter e s t = (range_pairs s t (abs e), None).
Proof.
  unfold RawIter, abs. destruct (bk_scan_law (bucket e)) as [Hp He]. destruct (bk_Scan _) as [l r].
  simpl in *. subst r. f_equal. apply sort_filter_perm; [done|]. intros x. apply keep_spec.
Qed.

Lemma snapshot_NewIter_abs (d : oshodiSnapshot) s t : snapshot_NewIter d s t = (user_pairs s t (data d), None).
Proof.
  unfold snapshot_NewIter. f_equal. apply sort_filter_perm; [apply data_order_perm|]. intros x.
  rewrite andb_true_iff, negb_true_iff, keep_spec. done.
Qed.

(** The adapter keeps the contract of the interface. *)
#[export] Instance oshodi_laws : EngineLaws (Engine B) oshodiSnapshot oshodiBatch.
Proof.
  refine {| eng_inv _ := True; bat_inv _ _ := True; eng_abs := abs; bat_denote b m := spec_ops m b |}; try done.
  - intros e k _. rewrite oshodi_Get_abs. apply answers_found.
  - intros e s k _. cbn [eng_GetSnapshot oshodi_engine]. rewrite GetSnapshot_abs. intros [= <-]. apply answers_found.
  - intros e s k _. cbn [eng_GetSnapshot oshodi_engine]. rewrite GetSnapshot_abs. intros [= <-]. simpl.
    unfold snapshot_GetVersion. cbn [data]. by destruct (abs e !! _).
  - intros. apply (spec_ops_app m b [_]).
  - intros. apply (spec_ops_app m b [_]).
  - intros. apply (spec_ops_app m b [_]).
  - intros e b sync e' _ _ (n & Hn & Ha & Hi)%oshodi_ApplyBatch_abs. split; [done|]. rewrite Ha, Hi by done.
    by rewrite take_ge.
  - intros e s t l _ Hr. simpl in Hr. rewrite oshodi_RawIter_abs in Hr. by simplify_eq.
  - intros e sn s t l _. cbn [eng_GetSnapshot oshodi_engine]. rewrite GetSnapshot_abs. intros [= <-]. simpl.
    rewrite snapshot_NewIter_abs. by intros [= <-].
Defined.

(** The sequence kept beside the store. *)
Definition applied_of (m : store) : Z :=
  match m !! appliedKey with
  | Some v => if decide (length v < 8)%nat then 0 else decodeUint64 v
  | None => 0
  end.

Lemma readApplied_abs (b : B) : readApplied b = inl (applied_of (bk_abs b)).
Proof. unfold readApplied, applied_of. rewrite bk_get_law. destruct (_ !! _); simpl; [by case_decide|done]. Qed.

(** The applied key is only ever set, to eight bytes or more. *)
Definition applied_ok (o : bop) : Prop :=
  bop_key o = appliedKey → match o with BSet _ v => (8 ≤ length v)%nat | _ => False end.

Lemma apply_op_seq (e e' : Engine B) o err :
  applied_ok o → seq e = applied_of (abs e) → apply_op e o = (e', err) → seq e' = applied_of (abs e').
Proof.
  intros Hok Hs Ha. pose proof (apply_op_abs e e' o err Ha) as Habs. rewrite Habs. clear Habs.
  assert (∀ x, applied_of (if decide (err = None) then spec_op (abs e) o else abs e) = x →
          bop_key o ≠ appliedKey → x = applied_of (abs e)) as Hne.
  { intros x <- Hk. case_decide; [|done]. unfold applied_of. by rewrite lookup_spec_op_ne. }
  unfold apply_op in Ha. destruct o as [k v|k|k d]; simpl in Hok, Hne.
  - destruct (bk_Set _ _ _) as [b r]. destruct r; simplify_eq; cbn [seq].
    + by rewrite decide_False.
    + destruct (decide (k = appliedKey)) as [->|Hk].
      * specialize (Hok eq_refl). rewrite !bool_decide_true by done. simpl.
        unfold applied_of. rewrite lookup_spec_op. cbn [bop_key bop_value].
        rewrite decide_True by done. rewrite decide_False; [done|]. simpl in Hok. lia.
      * rewrite bool_decide_false by done. simpl. rewrite Hs. symmetry. by apply Hne.
  - destruct (bk_Delete _ _) as [b r]. simplify_eq. cbn [seq]. rewrite Hs. symmetry. apply Hne; [done|]. exact Hok.
  - assert (seq e' = seq e) as ->.
    { destruct (bk_Get _ _) as [|[]]; [| |by simplify_eq]; destruct (bk_Set _ _ _); by simplify_eq. }
    rewrite Hs. symmetry. apply Hne; [done|]. exact Hok.
Qed.

Lemma apply_ops_seq ops (e e' : Engine B) err :
  Forall applied_ok ops → seq e = applied_of (abs e) → apply_ops e ops = (e', err) → seq e' = applied_of (abs e').
Proof.
  intros Hok. revert e. induction Hok as [|o ops Ho _ IH]; intros e Hs; simpl; [by intros [= <- <-]|].
  destruct (apply_op e o) as [e1 r] eqn:E. apply apply_op_seq in E; [|done..].
  destruct r; [by intros [= <- <-]|]. by apply IH.
Qed.

(** Copying pairs into a database. *)
Lemma set_all_abs l (b b' : B) :
  set_all b l = (b', None) → bk_abs b' = foldl (fun m p => <[p.1 := p.2]> m) (bk_abs b) l.
Proof.
  revert b. induction l as [|[k v] l IH]; intros b; simpl; [by intros [= <-]|].
  destruct (bk_Set b k v) as [b1 r] eqn:E. apply bk_set_law in E. destruct r; [done|].
  rewrite decide_True in E by done. rewrite <- E. apply IH.
Qed.

(** The Oshodi adapter on every outcome of a batch: without an error the
    store and a fresh snapshot read as the operations in order; with one, as a
    prefix of them; and the sequence number of the snapshot is the one
    [CurrentSequence] reports. *)
Theorem oshodi_ApplyBatch (e e' : Engine B) (b : oshodiBatch) (sync : bool) (err : option engErr) (k : bytes) :
  ApplyBatch e b sync = (e', err) → Forall applied_ok b → seq e = applied_of (abs e) →
  ∃ n s, (n ≤ length b)%nat ∧ (err = None → n = length b)
    ∧ GetSnapshot e' = inl s ∧ snapshot_Get s k = spec_ops (abs e) (take n b) !! k
    ∧ Get e' k = from_option inl (inr ErrKeyNotFound) (spec_ops (abs e) (take n b) !! k)
    ∧ snap_seq s = CurrentSequence e'.
Proof.
  intros Ha Hok Hs. pose proof Ha as (n & Hn & Habs & Hi)%oshodi_ApplyBatch_abs.
  assert (seq e' = applied_of (abs e')) as Hs'.
  { unfold ApplyBatch in Ha. destruct (apply_ops e b) as [e1 r] eqn:E. apply apply_ops_seq in E; [|done..].
    destruct r; by simplify_eq. }
  exists n, {| data := abs e'; snap_seq := seq e' |}. rewrite GetSnapshot_abs, <- Habs. split_and!; try done.
  - unfold Get, abs. rewrite bk_get_law. by destruct (_ !! k).
  - unfold CurrentSequence. rewrite readApplied_abs. exact Hs'.
Qed.

(** A checkpoint of the Oshodi adapter restores the store: written without
    an error into an empty database, it opens to the same contents and applied
    index. *)
Theorem oshodi_checkpoint (e : Engine B) (cp : B) (r : B + oshErr) :
  bk_abs cp = ∅ → CreateCheckpoint e None (inl cp) = (r, None) →
  ∃ e', Open None r = inl e' ∧ abs e' = abs e ∧ CurrentSequence e' = CurrentSequence e
    ∧ seq e' = CurrentSequence e.
Proof.
  intros Hcp. unfold CreateCheckpoint. destruct (bk_scan_law (bucket e)) as [Hp He].
  destruct (bk_Scan (bucket e)) as [l x]. simpl in *. subst x. rewrite (scan_map_perm _ _ Hp).
  destruct (set_all cp _) as [b [x|]] eqn:E; [done|]. intros [= <- _]. apply set_all_abs in E.
  assert (bk_abs b = abs e) as Hb.
  { rewrite E, Hcp. apply scan_map_perm, data_order_perm. }
  unfold Open, CurrentSequence. rewrite readApplied_abs. eexists. split; [reflexivity|].
  unfold abs. cbn [bucket seq]. rewrite !readApplied_abs, Hb. done.
Qed.
End correctness.

(** ** A concrete store *)

(** A map that refuses to store a given value, as a full disk would. *)
Record mapBucket := { content : store; refuse : option bytes }.

#[export] Instance map_bucket : Bucket mapBucket := {
  bk_Get b k := from_option inl (inr OshKeyNotFound) (content b !! k);
  bk_Set b k v := if decide (refuse b = Some v) then (b, Some (OshOther "no space left on device"))
                  else ({| content := <[k := v]> (content b); refuse := refuse b |}, None);
  bk_Delete b k := ({| content := delete k (content b); refuse := refuse b |}, None);
  bk_Scan b := (map_to_list (content b), None);
  bk_Flush _ := None;
}.

#[export] Instance map_bucket_laws : BucketLaws mapBucket.
Proof.
  refine {| bk_abs := content |}; [done| | |done]; intros b k.
  - intros v b' err. simpl. case_decide; intros [= <- <-]; [by rewrite decide_False|by rewrite decide_True].
  - intros b' err. simpl. intros [= <- <-]. by rewrite decide_True.
Defined.

#[export] Instance list_order : DataOrder := map_to_list.
#[export] Instance list_order_law : DataOrderLaw.
Proof. intros m. done. Qed.

Definition empty_bucket (refuse : option bytes) : Engine mapBucket :=
  {| bucket := {| content := ∅; refuse := refuse |}; seq := 0 |}.

Definition two_writes : oshodiBatch := [BSet (bs "a") (bs "1"); BSet (bs "b") (bs "2")].

Lemma oshodi_ApplyBatch_witness :
  ∃ s, GetSnapshot (ApplyBatch (empty_bucket None) two_writes true).1 = inl s
       ∧ snapshot_Get s (bs "b") = Some (bs "2").
Proof.
  destruct (oshodi_ApplyBatch (empty_bucket None) (ApplyBatch (empty_bucket None) two_writes true).1 two_writes
    true None (bs "b")) as (n & s & _ & Hn & Hs & Hg & _).
  - reflexivity.
  - unfold two_writes. do 2 (apply Forall_cons; split; [by intros [=]|]). by apply Forall_nil.
  - reflexivity.
  - exists s. split; [exact Hs|]. rewrite Hg, Hn by done. vm_compute. reflexivity.
Defined.

Lemma oshodi_checkpoint_witness :
  ∃ e', Open None (CreateCheckpoint (empty_bucket None) None
                     (inl {| content := ∅; refuse := None |})).1 = inl e'
        ∧ CurrentSequence e' = CurrentSequence (empty_bucket None).
Proof.
  destruct (oshodi_checkpoint (empty_bucket None) {| content := ∅; refuse := None |}
    (CreateCheckpoint (empty_bucket None) None (inl {| content := ∅; refuse := None |})).1)
    as (e' & Ho & _ & Hc & _); [reflexivity|reflexivity|].
  exists e'. split; [exact Ho|exact Hc].
Defined.

(** Batches of the Oshodi adapter are not atomic: when the store refuses the
    second write, [ApplyBatch] reports the error and the first write stays. *)
Theorem oshodi_batch_not_atomic :
  let '(e', err) := ApplyBatch (empty_bucket (Some (bs "2"))) two_writes true in
  err = Some (ErrEngine "no space left on device") ∧ Get e' (bs "a") = inl (bs "1")
  ∧ Get e' (bs "b") = inr ErrKeyNotFound.
Proof. vm_compute. done. Qed.

(** [ApplyBatch] of the Oshodi adapter does not hold the mutex that
    [GetSnapshot] takes: a snapshot taken after the first write of a batch holds
    that write without its version record, which the batch writes next. *)
Theorem oshodi_torn_snapshot :
  let ops := [BSet (bs "a") (bs "1"); BSet (versionKey (bs "a")) (encodeEpochRecord {| Epoch := 1; IsCredit := false |})] in
  ∃ e1 s, apply_ops (empty_bucket None) (take 1 ops) = (e1, None) ∧ GetSnapshot e1 = inl s
    ∧ snapshot_Get s (bs "a") = Some (bs "1") ∧ snapshot_GetVersion s (bs "a") = zero_epoch
    ∧ ∃ e2 s2, apply_ops e1 (drop 1 ops) = (e2, None) ∧ GetSnapshot e2 = inl s2
        ∧ snapshot_GetVersion s2 (bs "a") = {| Epoch := 1; IsCredit := false |}.
Proof.
  intros ops. do 2 eexists. split; [reflexivity|]. split; [reflexivity|]. split; [vm_compute; reflexivity|].
  split; [vm_compute; reflexivity|]. do 2 eexists. split; [reflexivity|]. split; [reflexivity|]. vm_compute. reflexivity.
Qed.
