(* ===== verification/Badger.v ===== *)
(** * The Badger engine (src/engine/badger/badger.go)

    The adapter over github.com/dgraph-io/badger: a batch is a read-write
    transaction with merges done as read-modify-write, a snapshot is a read-only
    transaction, iterators are materialised. Badger itself is a class of
    operations with laws. *)

From S2P Require Import Prelude Types EngineSpec BTree Materialise Dump.

(** ** Badger *)

Inductive badgerErr := BadgerKeyNotFound | BadgerOther (msg : string).

#[export] Instance badgerErr_eq_dec : EqDecision badgerErr.
Proof. solve_decision. Defined.

(** [*badger.DB], [*badger.Txn] and [*badger.Item]; [txn_Seek] is the items an
    iterator of the transaction yields from [Seek(start)] on. [txn_Commit] takes
    the database the transaction was opened on. *)
Class BadgerDB (DB Txn Item : Type) := {
  db_NewTransaction : DB → bool → Txn;
  txn_Get : Txn → bytes → Item + badgerErr;
  txn_Set : Txn → bytes → bytes → Txn * option badgerErr;
  txn_Delete : Txn → bytes → Txn * option badgerErr;
  txn_Seek : Txn → bytes → list Item;
  txn_Commit : DB → Txn → DB * option badgerErr;
  item_Key : Item → bytes;
  item_ValueCopy : Item → bytes + badgerErr;
  db_Sync : DB → option badgerErr;
}.

(** A transaction sees the database as of its start and its own writes; the empty
    key is refused (ErrEmptyKey), by reads too; iteration is in key order; a commit with nothing else committed in between takes effect
    completely or, with an error, not at all. *)
Class BadgerLaws (DB Txn Item : Type) `{BadgerDB DB Txn Item} := {
  db_abs : DB → store;
  txn_abs : Txn → store;
  txn_on : DB → Txn → Prop;  (* opened on the current state of the database *)
  txn_new_abs db u : txn_abs (db_NewTransaction db u) = db_abs db;
  txn_new_on db : txn_on db (db_NewTransaction db true);
  txn_get_empty t : txn_Get t [] = inr (BadgerOther "Key cannot be empty");
  txn_get_law t k : k ≠ [] →
    match txn_abs t !! k with
    | Some v => ∃ it, txn_Get t k = inl it ∧ item_ValueCopy it = inl v
    | None => txn_Get t k = inr BadgerKeyNotFound
    end;
  txn_set_on db t k v : txn_on db t → txn_on db (txn_Set t k v).1;
  txn_set_abs t k v t' : txn_Set t k v = (t', None) → txn_abs t' = <[k := v]> (txn_abs t);
  txn_delete_on db t k : txn_on db t → txn_on db (txn_Delete t k).1;
  txn_delete_abs t k t' err : txn_Delete t k = (t', err) → err = None ∨ err = Some BadgerKeyNotFound →
    txn_abs t' = delete k (txn_abs t);
  txn_seek_law t start :
    Forall2 (fun it p => item_Key it = p.1 ∧ item_ValueCopy it = inl p.2) (txn_Seek t start)
      (filter (fun p => bytes_le start p.1) (sort_pairs (map_to_list (txn_abs t))));
  txn_commit_abs db t db' err : txn_on db t → txn_Commit db t = (db', err) →
    db_abs db' = if decide (err = None) then txn_abs t else db_abs db;
}.

Definition badger_err (e : badgerErr) : engErr :=
  match e with BadgerKeyNotFound => ErrEngine "Key not found" | BadgerOther m => ErrEngine m end.

(** ** The adapter *)

Section badger.
Context {DB Txn Item : Type} `{BadgerDB DB Txn Item}.

(** The value under a key in a transaction: [txn.Get] and [item.ValueCopy]. *)
Definition txn_value (t : Txn) (key : bytes) : bytes + engErr :=
  match txn_Get t key with
  | inr BadgerKeyNotFound => inr ErrKeyNotFound
  | inr err => inr (badger_err err)
  | inl it => match item_ValueCopy it with inl v => inl v | inr err => inr (badger_err err) end
  end.

(** (e *Engine) Get, inside [db.View] *)
Definition Get (db : DB) (key : bytes) : bytes + engErr := txn_value (db_NewTransaction db false) key.

(** (e *Engine) CurrentSequence *)
Definition CurrentSequence (db : DB) : Z :=
  match Get db appliedKey with
  | inr _ => 0
  | inl val => if decide (length val < 8)%nat then 0 else decodeUint64 val
  end.

Record badgerSnapshot := { txn : Txn; snap_seq : Z }.

(** (e *Engine) GetSnapshot *)
Definition GetSnapshot (db : DB) : badgerSnapshot :=
  let s := CurrentSequence db in {| txn := db_NewTransaction db false; snap_seq := s |}.

(** badgerBatch: Set, Delete, Merge, Reset *)
Definition badgerBatch : Type := list bop.
Definition batch_Set (b : badgerBatch) (k v : bytes) : badgerBatch := b ++ [BSet k v].
Definition batch_Delete (b : badgerBatch) (k : bytes) : badgerBatch := b ++ [BDelete k].
Definition batch_Merge (b : badgerBatch) (k v : bytes) : badgerBatch := b ++ [BMerge k v].
Definition batch_Reset (b : badgerBatch) : badgerBatch := [].

(** [if len(b) >= 8 { x = int64(binary.LittleEndian.Uint64(b)) }] from zero *)
Definition int64_of (b : bytes) : Z := if decide (8 ≤ length b)%nat then i64 (le_combine (take 8 b)) else 0.

(** One round of the loop of ApplyBatch *)
Definition apply_op (t : Txn) (o : bop) : Txn * option badgerErr :=
  match o with
  | BSet k v => txn_Set t k v
  | BDelete k =>
      let '(t, err) := txn_Delete t k in
      (t, if decide (err = Some BadgerKeyNotFound) then None else err)
  | BMerge k d =>
      let write cur := txn_Set t k (le64 (u64 (i64 (cur + int64_of d)))) in
      match txn_Get t k with
      | inl it =>
          match item_ValueCopy it with
          | inr err2 => (t, Some err2)
          | inl val => write (int64_of val)
          end
      | inr BadgerKeyNotFound => write 0
      | inr err => (t, Some err)
      end
  end.

Fixpoint apply_ops (t : Txn) (ops : list bop) : Txn * option badgerErr :=
  match ops with
  | [] => (t, None)
  | o :: ops' =>
      match apply_op t o with
      | (t, Some err) => (t, Some err)
      | (t, None) => apply_ops t ops'
      end
  end.

(** (e *Engine) ApplyBatch: an error discards the transaction; the second loop of
    the source has no effect. [WriteOptions] is ignored. *)
Definition ApplyBatch (db : DB) (b : badgerBatch) (_ : bool) : DB * option engErr :=
  match apply_ops (db_NewTransaction db true) b with
  | (_, Some err) => (db, Some (badger_err err))
  | (t, None) => let '(db, err) := txn_Commit db t in (db, badger_err <$> err)
  end.

(** (e *Engine) Sync *)
Definition Sync (db : DB) : option engErr := badger_err <$> db_Sync db.

(** The loops of RawIter ([skip] never true) and NewIter: past the end, or on a
    value that cannot be read, the pairs collected so far remain. *)
Fixpoint collect_items (skip : bytes → bool) (end_ : bytes) (items : list Item) : list (bytes * bytes) :=
  match items with
  | [] => []
  | it :: items' =>
      let k := item_Key it in
      if bool_decide (end_ ≠ []) && negb (bytes_ltb k end_) then []
      else if skip k then collect_items skip end_ items'
      else match item_ValueCopy it with
           | inr _ => []
           | inl v => (k, v) :: collect_items skip end_ items'
           end
  end.

(** (e *Engine) RawIter; the error of [db.View] is dropped. *)
Definition RawIter (db : DB) (start end_ : bytes) : list (bytes * bytes) * option engErr :=
  (collect_items (fun _ => false) end_ (txn_Seek (db_NewTransaction db false) start), None).

(** (s *badgerSnapshot) Get, GetVersion, NewIter *)
Definition snapshot_Get (s : badgerSnapshot) (key : bytes) : bytes + engErr := txn_value (txn s) key.

Definition snapshot_GetVersion (s : badgerSnapshot) (key : bytes) : EpochRecord + engErr :=
  match txn_value (txn s) (versionKey key) with
  | inr ErrKeyNotFound => inl zero_epoch
  | inr err => inr err
  | inl val => inl (decodeEpochRecord0 val)
  end.

Definition snapshot_NewIter (s : badgerSnapshot) (start end_ : bytes) : list (bytes * bytes) * option engErr :=
  (collect_items isReserved end_ (txn_Seek (txn s) start), None).

(** The loop of CreateCheckpoint: the first unreadable value ends it. *)
Fixpoint checkpoint_items (items : list Item) (m : store) : store + badgerErr :=
  match items with
  | [] => inl m
  | it :: items' =>
      match item_ValueCopy it with
      | inr err => inr err
      | inl v => checkpoint_items items' (<[item_Key it := v]> m)
      end
  end.

(** (e *Engine) CreateCheckpoint: the bytes written to [dir/dump]. *)
Definition CreateCheckpoint `{DataOrder} (db : DB) : result badgerErr bytes :=
  match checkpoint_items (txn_Seek (db_NewTransaction db false) []) ∅ with
  | inr err => Err err
  | inl m => match badger.encodeDump (data_order m) with Some b => Ok b | None => Panic end
  end.

#[export] Instance badger_engine : StorageEngine DB badgerSnapshot badgerBatch := {
  eng_Get := Get;
  eng_GetSnapshot db := inl (GetSnapshot db);
  eng_NewBatch _ := [];
  bat_Set := batch_Set;
  bat_Delete := batch_Delete;
  bat_Merge := batch_Merge;
  eng_ApplyBatch := ApplyBatch;
  eng_Sync := Sync;
  eng_CurrentSequence := CurrentSequence;
  eng_RawIter := RawIter;
  snap_Get := snapshot_Get;
  snap_GetVersion := snapshot_GetVersion;
  snap_NewIter := snapshot_NewIter;
  snap_Sequence := snap_seq;
}.
End badger.

Arguments badgerSnapshot Txn : clear implicits.

(** ** Correctness *)

Lemma int64_of_decode b : int64_of b = decodeInt64 b.
Proof. unfold int64_of, decodeInt64. do 2 case_decide; done || lia. Qed.

(** A walk over sorted pairs that stops at the end of the range. *)
Lemma sorted_walk (skip : bytes → bool) (end_ : bytes) (l : list (bytes * bytes)) :
  StronglySorted pair_lt l →
  visit (fun k => bool_decide (end_ ≠ []) && negb (bytes_ltb k end_)) skip l
  = filter (fun p => (end_ = [] ∨ bytes_lt p.1 end_) ∧ skip p.1 = false) l.
Proof.
  intros Hs. destruct (decide (end_ = [])) as [->|Hne].
  - rewrite bool_decide_false by tauto. simpl. rewrite visit_no_stop. apply list_filter_iff. naive_solver.
  - rewrite bool_decide_true by done. simpl. rewrite visit_sorted by done. apply list_filter_iff. naive_solver.
Qed.

(** The dump of a map is read back, in whatever order it was written. *)
Lemma badger_dump_roundtrip (order : list (bytes * bytes)) (m : store) :
  order ≡ₚ map_to_list m → Forall wf_entry order → Z.of_nat (length order) < 2 ^ 64 →
  ∃ buf, badger.encodeDump order = Some buf ∧ badger.decodeDump buf = Ok m.
Proof.
  intros Hp Hwf Hn. exists (le64 (Z.of_nat (length order)) ++ entries_bytes order). split.
  { unfold badger.encodeDump. rewrite dump_entries_size_spec.
    change (8 + length (entries_bytes order))%nat
      with (length (le64 (Z.of_nat (length order))) + length (entries_bytes order))%nat.
    change (replicate ?n x00, 0%nat) with (pending [] n).
    emit_step. rewrite <- (Nat.add_0_r (length (entries_bytes order))).
    unfold entries_bytes. rewrite (emit_all_pending _ entry_bytes) by apply emit_entry_pending.
    simpl. by rewrite app_nil_r. }
  unfold badger.decodeDump. set (buf := le64 _ ++ _).
  assert (length buf = 8 + length (entries_bytes order))%nat as Hb
    by (unfold buf; rewrite length_app; autorewrite with dpx; lia).
  pose proof (entries_bytes_length order) as Hlen. rewrite !decide_False by lia.
  rewrite (get_le_in 8 buf 0 [] (le64 (Z.of_nat (length order))) (entries_bytes order))
    by (first [apply length_le64 | reflexivity]).
  cbn [rbind]. rewrite combine_le64, u64_small by (unfold is_u64; lia). unfold buf at 2.
  change 8%nat with (length (le64 (Z.of_nat (length order)))).
  rewrite (decode_entries_bytes order (length buf) _ 0 ∅ Hwf) by lia.
  f_equal. by apply (scan_map_perm order m).
Qed.

Section correctness.
Context {DB Txn Item : Type} `{BadgerLaws DB Txn Item}.

Lemma txn_value_abs (t : Txn) k : k ≠ [] → txn_value t k = found (txn_abs t !! k).
Proof.
  intros Hk. unfold txn_value. pose proof (txn_get_law t k Hk) as Hg.
  destruct (txn_abs t !! k) as [v|]; [|by rewrite Hg]. destruct Hg as (it & -> & ->). done.
Qed.

Lemma txn_value_empty (t : Txn) : txn_value t [] = inr (ErrEngine "Key cannot be empty").
Proof. unfold txn_value. by rewrite txn_get_empty. Qed.

Lemma txn_value_answers (t : Txn) k : answers (txn_abs t !! k) (txn_value t k).
Proof.
  destruct (decide (k = [])) as [->|Hk]; [by rewrite txn_value_empty|].
  rewrite txn_value_abs by done. apply answers_found.
Qed.

Lemma apply_op_txn (t t' : Txn) o db err :
  txn_on db t → apply_op t o = (t', err) →
  txn_on db t' ∧ (err = None → txn_abs t' = spec_op (txn_abs t) o).
Proof.
  intros Hon. destruct o as [k v|k|k d]; simpl.
  - intros Ha. split; [pose proof (txn_set_on db t k v Hon) as Hs; by rewrite Ha in Hs|].
    intros ->. by apply txn_set_abs in Ha.
  - destruct (txn_Delete t k) as [t1 r] eqn:E. intros [= <- Herr].
    split; [pose proof (txn_delete_on db t k Hon) as Hs; by rewrite E in Hs|].
    intros ->. apply txn_delete_abs in E; [by rewrite E|]. case_decide; [by right|by left].
  - destruct (decide (k = [])) as [->|Hk]; [rewrite txn_get_empty; by intros [= <- <-]|].
    pose proof (txn_get_law t k Hk) as Hg.
    assert (∀ cur, txn_Set t k (le64 (u64 (i64 (decodeInt64 cur + decodeInt64 d)))) = (t', err) →
      default [] (txn_abs t !! k) = cur →
      txn_on db t' ∧ (err = None → txn_abs t' = spec_op (txn_abs t) (BMerge k d))) as Hw.
    { intros cur Ha Hc. split; [pose proof (txn_set_on db t k (le64 (u64 (i64 (decodeInt64 cur + decodeInt64 d)))) Hon) as Hs; by rewrite Ha in Hs|].
      intros ->. apply txn_set_abs in Ha. rewrite Ha. apply map_eq. intros k'.
      rewrite lookup_spec_op, lookup_insert. simpl. case_decide; [|done]. subst. done. }
    destruct (txn_abs t !! k) as [v|] eqn:El.
    + destruct Hg as (it & -> & ->). rewrite !int64_of_decode. intros Ha. by apply (Hw v).
    + rewrite Hg, int64_of_decode. intros Ha. by apply (Hw []).
Qed.

Lemma apply_ops_txn ops (t t' : Txn) db err :
  txn_on db t → apply_ops t ops = (t', err) →
  txn_on db t' ∧ (err = None → txn_abs t' = spec_ops (txn_abs t) ops).
Proof.
  revert t. induction ops as [|o ops IH]; intros t Hon; simpl; [by intros [= <- <-]|].
  destruct (apply_op t o) as [t1 r] eqn:E. apply (apply_op_txn _ _ _ db) in E as [Hon1 Ha1]; [|done].
  destruct r; [by intros [= <- <-]|]. intros Ha. apply IH in Ha as [Hon' Ha']; [|done].
  split; [done|]. intros Hn. by rewrite (Ha' Hn), (Ha1 eq_refl).
Qed.

Lemma ApplyBatch_txn (db db' : DB) b sync err :
  ApplyBatch db b sync = (db', err) →
  db_abs db' = if decide (err = None) then spec_ops (db_abs db) b else db_abs db.
Proof.
  unfold ApplyBatch. destruct (apply_ops _ b) as [t r] eqn:E.
  apply (apply_ops_txn _ _ _ db) in E as [Hon Ha]; [|apply txn_new_on].
  destruct r as [x|]; [by intros [= <- <-]|]. destruct (txn_Commit db t) as [db1 r] eqn:Ec.
  apply txn_commit_abs in Ec; [|done]. intros [= <- <-]. rewrite Ec, (Ha eq_refl), txn_new_abs.
  by destruct r.
Qed.

(** The items of an iterator against the sorted pairs they stand for. *)
Lemma collect_items_visit skip end_ items l :
  Forall2 (fun (it : Item) (p : bytes * bytes) => item_Key it = p.1 ∧ item_ValueCopy it = inl p.2) items l →
  collect_items skip end_ items = visit (fun k => bool_decide (end_ ≠ []) && negb (bytes_ltb k end_)) skip l.
Proof.
  induction 1 as [|it [k v] items l [Hk Hv] _ IH]; [done|]. simpl in *. rewrite Hk, Hv, IH.
  destruct (bool_decide _ && _); [done|]. by destruct (skip k).
Qed.

Lemma collect_items_range skip start end_ (t : Txn) :
  collect_items skip end_ (txn_Seek t start)
  = sort_pairs (filter (fun p => in_range start end_ p.1 ∧ skip p.1 = false) (map_to_list (txn_abs t))).
Proof.
  rewrite (collect_items_visit _ _ _ _ (txn_seek_law t start)).
  assert (StronglySorted pair_lt (sort_pairs (map_to_list (txn_abs t)))) as Hs
    by (apply sort_pairs_strict, NoDup_fst_map_to_list).
  rewrite sorted_walk by by apply StronglySorted_filter. rewrite list_filter_filter.
  apply sort_pairs_unique.
  - apply NoDup_fst_filter, NoDup_fst_map_to_list.
  - apply StronglySorted_Sorted, StronglySorted_filter. eapply StronglySorted_impl; [|exact Hs].
    intros a b Hab. apply bytes_le_lt. by right.
  - rewrite sort_pairs_perm. rewrite (list_filter_iff _ (fun p => in_range start end_ p.1 ∧ skip p.1 = false));
      [done|]. intros [k v]. unfold in_range. simpl. naive_solver.
Qed.

(** The adapter keeps the contract of the interface. *)
#[export] Instance badger_laws : EngineLaws DB (badgerSnapshot Txn) badgerBatch.
Proof.
  refine {| eng_inv _ := True; bat_inv _ _ := True; eng_abs := db_abs; bat_denote b m := spec_ops m b |}; try done.
  - intros e k _. cbn [eng_Get badger_engine]. rewrite <- (txn_new_abs e false). apply txn_value_answers.
  - intros e s k _ [= <-]. cbn [snap_Get badger_engine]. unfold snapshot_Get. cbn [txn GetSnapshot].
    rewrite <- (txn_new_abs e false). apply txn_value_answers.
  - intros e s k _ [= <-]. cbn [snap_GetVersion badger_engine]. unfold snapshot_GetVersion. cbn [txn GetSnapshot].
    rewrite txn_value_abs, txn_new_abs by done. by destruct (_ !! _).
  - intros. apply (spec_ops_app m b [_]).
  - intros. apply (spec_ops_app m b [_]).
  - intros. apply (spec_ops_app m b [_]).
  - intros e b sync e' _ _ Ha. apply (ApplyBatch_txn e e' b sync None) in Ha. split; [done|].
    by rewrite decide_True in Ha.
  - intros e s t l _. simpl. unfold RawIter. intros [= <-]. rewrite collect_items_range, txn_new_abs.
    unfold range_pairs. f_equal. apply list_filter_iff. naive_solver.
  - intros e sn s t l _ [= <-]. simpl. unfold snapshot_NewIter. cbn [txn GetSnapshot]. intros [= <-].
    by rewrite collect_items_range, txn_new_abs.
Defined.

(** C33. A batch of the Badger adapter is atomic, for a database whose read-write
    transaction takes effect completely or, with an error, not at all, and with
    no other writer between the start and the commit: without an error every key
    reads as after the batch's operations in order, merges included; with an
    error, of a read, a write or the commit, every key reads as before. The
    empty key, which Badger refuses, reads as an error in both cases. *)
Theorem badger_ApplyBatch_atomic (db db' : DB) (b : badgerBatch) (sync : bool) (err : option engErr) (k : bytes) :
  ApplyBatch db b sync = (db', err) →
  Get db' k =
    if decide (k = []) then inr (ErrEngine "Key cannot be empty")
    else found ((if decide (err = None) then spec_ops (db_abs db) b else db_abs db) !! k).
Proof.
  intros Ha%ApplyBatch_txn. unfold Get. destruct (decide (k = [])) as [->|Hk]; [apply txn_value_empty|].
  by rewrite txn_value_abs, txn_new_abs, Ha.
Qed.

Lemma checkpoint_items_spec items l (m : store) :
  Forall2 (fun (it : Item) (p : bytes * bytes) => item_Key it = p.1 ∧ item_ValueCopy it = inl p.2) items l →
  checkpoint_items items m = inl (foldl (fun m p => <[p.1 := p.2]> m) m l).
Proof.
  intros Hf. revert m. induction Hf as [|it [k v] items l [Hk Hv] _ IH]; intros m; [done|]. simpl in *.
  by rewrite Hv, Hk, IH.
Qed.

(** A checkpoint of the Badger adapter is complete: the dump file it writes
    decodes to exactly the database, metadata keys included. *)
Theorem badger_checkpoint_complete `{DataOrderLaw} (db : DB) :
  Forall wf_entry (data_order (db_abs db)) → Z.of_nat (length (data_order (db_abs db))) < 2 ^ 64 →
  ∃ buf, CreateCheckpoint db = Ok buf ∧ badger.decodeDump buf = Ok (db_abs db).
Proof.
  intros Hwf Hn. unfold CreateCheckpoint.
  rewrite (checkpoint_items_spec _ _ ∅ (txn_seek_law _ [])), txn_new_abs.
  change (foldl _ ∅ ?l) with (scan_map l). rewrite (scan_map_perm _ (db_abs db)).
  - destruct (badger_dump_roundtrip (data_order (db_abs db)) (db_abs db)) as (buf & -> & Hd);
      [apply data_order_perm|done|done|]. by exists buf.
  - rewrite sort_pairs_perm. by rewrite filter_all by by intros [[|b k] v].
Qed.
End correctness.

(** ** A concrete database *)

(** Maps that refuse the empty key, as Badger does (ErrEmptyKey). *)
Abbreviation mapDB := store.
Abbreviation mapTxn := store.

#[export] Instance map_badger : BadgerDB mapDB mapTxn (bytes * bytes) := {
  db_NewTransaction db _ := db;
  txn_Get t k :=
    if decide (k = []) then inr (BadgerOther "Key cannot be empty")
    else match t !! k with Some v => inl (k, v) | None => inr BadgerKeyNotFound end;
  txn_Set t k v := if decide (k = []) then (t, Some (BadgerOther "Key cannot be empty")) else (<[k := v]> t, None);
  txn_Delete t k := if decide (k = []) then (t, Some (BadgerOther "Key cannot be empty")) else (delete k t, None);
  txn_Seek t start := filter (fun p => bytes_le start p.1) (sort_pairs (map_to_list t));
  txn_Commit _ t := (t, None);
  item_Key it := it.1;
  item_ValueCopy it := inl it.2;
  db_Sync _ := None;
}.

#[export] Instance map_badger_laws : BadgerLaws mapDB mapTxn (bytes * bytes).
Proof.
  refine {| db_abs := fun db => db; txn_abs := fun t => t; txn_on := fun _ _ => True |}; try done.
  - intros t k Hk. simpl. rewrite decide_False by done. destruct (t !! k) as [v|] eqn:E; [|done]. by exists (k, v).
  - intros t k v t'. simpl. case_decide; [done|]. by intros [= <-].
  - intros t k t' err. simpl. case_decide; intros [= <- <-]; [by intros [?|?]|done].
  - intros t start. simpl. by apply Forall_Forall2_diag, Forall_forall.
  - intros db t db' err _. simpl. by intros [= <- <-].
Defined.

Definition badger_ops : badgerBatch := [BSet (bs "a") (encodeInt64 40); BMerge (bs "a") (encodeInt64 2)].

Lemma badger_ApplyBatch_atomic_witness :
  Get (ApplyBatch (∅ : mapDB) badger_ops false).1 (bs "a") = inl (encodeInt64 42)
  ∧ Get (ApplyBatch (∅ : mapDB) (badger_ops ++ [BSet [] []]) false).1 (bs "a") = inr ErrKeyNotFound.
Proof.
  split.
  - rewrite (badger_ApplyBatch_atomic (∅ : mapDB) (ApplyBatch (∅ : mapDB) badger_ops false).1 badger_ops false None
      (bs "a")); [|reflexivity]. vm_compute. reflexivity.
  - rewrite (badger_ApplyBatch_atomic (∅ : mapDB) (ApplyBatch (∅ : mapDB) (badger_ops ++ [BSet [] []]) false).1
      (badger_ops ++ [BSet [] []]) false (Some (ErrEngine "Key cannot be empty")) (bs "a")); [|reflexivity].
    vm_compute. reflexivity.
Defined.

#[local] Instance badger_list_order : DataOrder := map_to_list.

Lemma badger_checkpoint_complete_witness :
  ∃ buf, CreateCheckpoint (sample_store : mapDB) = Ok buf ∧ badger.decodeDump buf = Ok sample_store.
Proof.
  assert (DataOrderLaw) as Hl by (intros m; reflexivity).
  destruct (badger_checkpoint_complete (Txn := mapTxn) (Item := bytes * bytes) (sample_store : mapDB))
    as (buf & Hc & Hd); [|vm_compute; reflexivity|].
  - apply (bool_decide_unpack (Forall wf_entry _)). vm_compute. exact I.
  - exists buf. split; [exact Hc|exact Hd].
Defined.
