(* ===== verification/Pebble.v ===== *)
(** * The Pebble engine (src/engine/pebble/pebble.go)

    The merge operator given to Pebble, the iterator that hides the reserved
    keys, the adapter's operations and the life cycle of the shared snapshot.
    Pebble itself (github.com/cockroachdb/pebble) is a class of operations with
    laws. *)

From S2P Require Import Prelude Types EngineSpec Iter BTree Materialise.

(** ** Int64Merger *)

Record int64Merger := { sum : Z }.

Definition operand (value : bytes) : Z := i64 (le_combine (take 8 value)).

(** [Int64Merger.Merge]: a merger started on one operand. *)
Definition Merge (value : bytes) : int64Merger :=
  {| sum := if decide (8 ≤ length value)%nat then operand value else 0 |}.

(** (m *int64Merger) MergeNewer, MergeOlder, Finish *)
Definition MergeNewer (m : int64Merger) (value : bytes) : int64Merger :=
  if decide (8 ≤ length value)%nat then {| sum := i64 (sum m + operand value) |} else m.

Definition MergeOlder (m : int64Merger) (value : bytes) : int64Merger := MergeNewer m value.

Definition Finish (m : int64Merger) : bytes := le64 (u64 (sum m)).

(** What Pebble may compute for a list of operands, oldest first: it starts a
    merger on any of them and extends it to either side; a finished partial
    result (a compaction) is an operand again. *)
Inductive merged : list bytes → bytes → Prop :=
  | m_operand v : merged [v] v
  | m_finish ops m : merging ops m → merged ops (Finish m)
with merging : list bytes → int64Merger → Prop :=
  | m_start ops v : merged ops v → merging ops (Merge v)
  | m_newer ops ops' m v : merging ops m → merged ops' v → merging (ops ++ ops') (MergeNewer m v)
  | m_older ops ops' m v : merging ops m → merged ops' v → merging (ops' ++ ops) (MergeOlder m v).

Scheme merged_ind2 := Induction for merged Sort Prop
  with merging_ind2 := Induction for merging Sort Prop.
Combined Scheme merged_merging_ind from merged_ind2, merging_ind2.

Definition sum_operands (ops : list bytes) : Z := foldr (fun v acc => decodeInt64 v + acc) 0 ops.

Lemma sum_operands_app a b : sum_operands (a ++ b) = sum_operands a + sum_operands b.
Proof. induction a as [|v a IH]; simpl; [done|]. rewrite IH. lia. Qed.

Lemma operand_decode v : (if decide (8 ≤ length v)%nat then operand v else 0) = decodeInt64 v.
Proof. unfold decodeInt64, operand. do 2 case_decide; done || lia. Qed.

Lemma decodeInt64_range v : is_i64 (decodeInt64 v).
Proof. unfold decodeInt64. case_decide; [unfold is_i64; lia|apply i64_range]. Qed.

Lemma merged_sum :
  (∀ ops v, merged ops v → decodeInt64 v = i64 (sum_operands ops)) ∧
  (∀ ops m, merging ops m → sum m = i64 (sum_operands ops)).
Proof.
  apply (merged_merging_ind (fun ops v _ => decodeInt64 v = i64 (sum_operands ops))
                            (fun ops m _ => sum m = i64 (sum_operands ops))).
  - intros v. simpl. rewrite Z.add_0_r, i64_small; [done|]. apply decodeInt64_range.
  - intros ops m _ IH. unfold Finish. change (le64 (u64 (sum m))) with (encodeInt64 (sum m)).
    rewrite decode_encode_int64, IH. by rewrite i64_small by apply i64_range.
  - intros ops v _ IH. unfold Merge. simpl. by rewrite operand_decode.
  - intros ops ops' m v _ IH1 _ IH2. rewrite sum_operands_app. unfold MergeNewer.
    pose proof (operand_decode v) as Ho. rewrite IH2 in Ho. case_decide; simpl.
    + rewrite Ho, IH1. by autorewrite with dpx.
    + rewrite IH1. symmetry. rewrite <- i64_add_r, <- Ho. f_equal. lia.
  - intros ops ops' m v _ IH1 _ IH2. rewrite sum_operands_app, Z.add_comm. unfold MergeOlder, MergeNewer.
    pose proof (operand_decode v) as Ho. rewrite IH2 in Ho. case_decide; simpl.
    + rewrite Ho, IH1. by autorewrite with dpx.
    + rewrite IH1. symmetry. rewrite <- i64_add_r, <- Ho. f_equal. lia.
Qed.

Lemma foldl_mergeInt64 ops base :
  ops ≠ [] → foldl mergeInt64 base ops = encodeInt64 (i64 (decodeInt64 base + sum_operands ops)).
Proof.
  revert base. induction ops as [|d ops IH]; intros base Hne; [done|]. simpl.
  destruct ops as [|d' ops].
  - simpl. unfold mergeInt64. by rewrite Z.add_0_r.
  - rewrite IH by done. rewrite decode_merge, i64_add_l. do 2 f_equal. lia.
Qed.

(** ** Pebble *)

Inductive pebbleErr := PebbleNotFound | PebbleOther (msg : string).

Class PebbleDB (DB PSnap PBatch PIter : Type) := {
  pb_Get : DB → bytes → bytes + pebbleErr;
  pb_NewSnapshot : DB → PSnap;
  ps_Get : PSnap → bytes → bytes + pebbleErr;
  pb_NewBatch : DB → PBatch;
  pbat_Set : PBatch → bytes → bytes → PBatch;
  pbat_Delete : PBatch → bytes → PBatch;
  pbat_Merge : PBatch → bytes → bytes → PBatch;
  pbat_Reset : PBatch → PBatch;
  pb_Apply : DB → PBatch → bool → DB * option pebbleErr;  (* [pebble.Sync] or [pebble.NoSync] *)
  pb_LogData : DB → option pebbleErr;
  pb_NewIter : DB → bytes → bytes → PIter + pebbleErr;
  ps_NewIter : PSnap → bytes → bytes → PIter + pebbleErr;
  pi_First : PIter → PIter * bool;
  pi_Next : PIter → PIter * bool;
  pi_Prev : PIter → PIter * bool;
  pi_Valid : PIter → bool;
  pi_Key : PIter → bytes;
  pi_Value : PIter → bytes;
  pi_Error : PIter → option pebbleErr;
}.

Definition pebble_err (e : pebbleErr) : engErr :=
  match e with PebbleNotFound => ErrEngine "pebble: not found" | PebbleOther m => ErrEngine m end.

(** ** The adapter *)

Section pebble.
Context {DB PSnap PBatch PIter : Type} `{PebbleDB DB PSnap PBatch PIter}.

(** The error handling that Get of the engine and of its snapshots share. *)
Definition get_result (r : bytes + pebbleErr) : bytes + engErr :=
  match r with
  | inr PebbleNotFound => inr ErrKeyNotFound
  | inr err => inr (pebble_err err)
  | inl val => inl val
  end.

(** (e *Engine) Get *)
Definition Get (db : DB) (key : bytes) : bytes + engErr := get_result (pb_Get db key).

(** (e *Engine) CurrentSequence *)
Definition CurrentSequence (db : DB) : Z :=
  match pb_Get db appliedKey with
  | inr _ => 0
  | inl val => if decide (length val < 8)%nat then 0 else decodeUint64 val
  end.

Record pebbleSnapshot := { snap : PSnap; snap_seq : Z }.

(** (e *Engine) GetSnapshot *)
Definition GetSnapshot (db : DB) : pebbleSnapshot :=
  let s := CurrentSequence db in {| snap := pb_NewSnapshot db; snap_seq := s |}.

(** (e *Engine) ApplyBatch, Sync *)
Definition ApplyBatch (db : DB) (b : PBatch) (sync : bool) : DB * option engErr :=
  let '(db, err) := pb_Apply db b sync in (db, pebble_err <$> err).

Definition Sync (db : DB) : option engErr := pebble_err <$> pb_LogData db.

(** (s *pebbleSnapshot) Get, GetVersion *)
Definition snapshot_Get (s : pebbleSnapshot) (key : bytes) : bytes + engErr := get_result (ps_Get (snap s) key).

Definition snapshot_GetVersion (s : pebbleSnapshot) (key : bytes) : EpochRecord + engErr :=
  match ps_Get (snap s) (versionKey key) with
  | inr PebbleNotFound => inl zero_epoch
  | inr err => inr (pebble_err err)
  | inl val => inl (decodeEpochRecord0 val)
  end.

(** (i *pebbleConsumerIter) skipReserved, skipReservedBackward *)
Fixpoint skipReserved (fuel : nat) (it : PIter) : option PIter :=
  match fuel with
  | O => None
  | S fuel => if pi_Valid it && isReserved (pi_Key it) then skipReserved fuel (pi_Next it).1 else Some it
  end.

Fixpoint skipReservedBackward (fuel : nat) (it : PIter) : option PIter :=
  match fuel with
  | O => None
  | S fuel => if pi_Valid it && isReserved (pi_Key it) then skipReservedBackward fuel (pi_Prev it).1 else Some it
  end.

(** (i *pebbleConsumerIter) First, Next, Prev *)
Definition consumer_First (fuel : nat) (it : PIter) : option (PIter * bool) :=
  let '(it, ok) := pi_First it in
  if negb ok then Some (it, false) else it ← skipReserved fuel it; Some (it, pi_Valid it).

Definition consumer_Next (fuel : nat) (it : PIter) : option (PIter * bool) :=
  let '(it, ok) := pi_Next it in
  if negb ok then Some (it, false) else it ← skipReserved fuel it; Some (it, pi_Valid it).

Definition consumer_Prev (fuel : nat) (it : PIter) : option (PIter * bool) :=
  let '(it, ok) := pi_Prev it in
  if negb ok then Some (it, false) else it ← skipReservedBackward fuel it; Some (it, pi_Valid it).

(** The callers' loop, [for ok := iter.First(); ok && iter.Valid(); ok = iter.Next()],
    over an iterator given by its First and Next. *)
Fixpoint walk (next : PIter → option (PIter * bool)) (fuel : nat) (it : PIter) (ok : bool)
    (acc : list (bytes * bytes)) : option (list (bytes * bytes) * PIter) :=
  match fuel with
  | O => None
  | S fuel =>
      if ok && pi_Valid it then
        r ← next it; walk next fuel r.1 r.2 (acc ++ [(pi_Key it, pi_Value it)])
      else Some (acc, it)
  end.

(** The pairs a caller reads from [NewIter] of a snapshot (a [pebbleConsumerIter])
    and from [RawIter] (a [pebbleIter], the library's own movements), with the
    iterator's error; an [errIter] yields none. *)
Definition walk_consumer (fuel : nat) (it : PIter) : option (list (bytes * bytes) * PIter) :=
  r ← consumer_First fuel it; walk (consumer_Next fuel) fuel r.1 r.2 [].

Definition walk_raw (fuel : nat) (it : PIter) : option (list (bytes * bytes) * PIter) :=
  let '(it, ok) := pi_First it in walk (fun it => Some (pi_Next it)) fuel it ok [].

Definition iter_result (walk_it : PIter → option (list (bytes * bytes) * PIter)) (it : PIter + pebbleErr) :
    option (list (bytes * bytes) * option engErr) :=
  match it with
  | inr err => Some ([], Some (pebble_err err))
  | inl it => r ← walk_it it; Some (r.1, pebble_err <$> pi_Error r.2)
  end.

Definition RawIter (fuel : nat) (db : DB) (start end_ : bytes) : option (list (bytes * bytes) * option engErr) :=
  iter_result (walk_raw fuel) (pb_NewIter db start end_).

Definition snapshot_NewIter (fuel : nat) (s : pebbleSnapshot) (start end_ : bytes) :
    option (list (bytes * bytes) * option engErr) :=
  iter_result (walk_consumer fuel) (ps_NewIter (snap s) start end_).
End pebble.

Arguments pebbleSnapshot PSnap : clear implicits.

(** ** Laws of Pebble *)

(** The history of a key: its last set or deletion, and the merge operands since,
    oldest first. *)
Definition history : Type := (option bytes * list bytes)%type.

Definition hist_op (h : history) (o : bop) : history :=
  match o with
  | BSet _ v => (Some v, [])
  | BDelete _ => (None, [])
  | BMerge _ d => (h.1, h.2 ++ [d])
  end.

(** A key without operands reads as it was set; with operands, as the finished
    merger of some run over them. *)
Definition hist_reads (h : history) (v : option bytes) : Prop :=
  match h.2 with
  | [] => v = h.1
  | ops => ∃ m, merging (option_list h.1 ++ ops) m ∧ v = Some (Finish m)
  end.

(** The bounds of an iterator are passed as they are: the adapter's callers pass
    a nil upper bound for none, and [[]] stands for it here; Pebble itself would
    take an empty bound that is not nil as one below every key. *)
Class PebbleLaws (DB PSnap PBatch PIter : Type) `{PebbleDB DB PSnap PBatch PIter} := {
  pb_abs : DB → store;
  pb_hist : DB → bytes → history;
  pbat_ops : PBatch → list bop;
  pi_view : PIter → memIter;
  pb_get_abs db k : pb_Get db k = from_option inl (inr PebbleNotFound) (pb_abs db !! k);
  pb_hist_abs db k : hist_reads (pb_hist db k) (pb_abs db !! k);
  ps_get_law db k : ps_Get (pb_NewSnapshot db) k = pb_Get db k;
  pbat_new_law db : pbat_ops (pb_NewBatch db) = [];
  pbat_set_law b k v : pbat_ops (pbat_Set b k v) = pbat_ops b ++ [BSet k v];
  pbat_delete_law b k : pbat_ops (pbat_Delete b k) = pbat_ops b ++ [BDelete k];
  pbat_merge_law b k v : pbat_ops (pbat_Merge b k v) = pbat_ops b ++ [BMerge k v];
  pb_apply_law db b sync db' k : pb_Apply db b sync = (db', None) →
    pb_hist db' k = foldl hist_op (pb_hist db k) (filter (fun o => bop_key o = k) (pbat_ops b));
  pb_apply_error db b sync db' err : pb_Apply db b sync = (db', Some err) → pb_abs db' = pb_abs db;
  pb_iter_law db s t it : pb_NewIter db s t = inl it → it_pairs (pi_view it) = range_pairs s t (pb_abs db);
  ps_iter_law db s t it : ps_NewIter (pb_NewSnapshot db) s t = inl it →
    it_pairs (pi_view it) = range_pairs s t (pb_abs db);
  (* an iterator is a cursor over its pairs *)
  pi_valid_law it : pi_Valid it = Valid (pi_view it);
  pi_key_law it : pi_Valid it = true → pi_Key it = Key (pi_view it);
  pi_value_law it : pi_Valid it = true → pi_Value it = Value (pi_view it);
  pi_first_law it : pi_view (pi_First it).1 = (First (pi_view it)).1 ∧ (pi_First it).2 = (First (pi_view it)).2;
  pi_next_law it : pi_Valid it = true →
    pi_view (pi_Next it).1 = (Next (pi_view it)).1 ∧ (pi_Next it).2 = (Next (pi_view it)).2;
  pi_prev_law it : pi_Valid it = true →
    pi_view (pi_Prev it).1 = (Prev (pi_view it)).1 ∧ (pi_Prev it).2 = (Prev (pi_view it)).2;
}.

(** ** Correctness *)

Definition hist_val (h : history) : option bytes :=
  match h.2 with [] => h.1 | ops => Some (foldl mergeInt64 (default [] h.1) ops) end.

Lemma hist_reads_val h v : hist_reads h v → v = hist_val h.
Proof.
  unfold hist_reads, hist_val. destruct h as [b [|d ops]]; simpl; [done|]. intros (m & Hm & ->). f_equal.
  apply (proj2 merged_sum) in Hm. unfold Finish. rewrite Hm, sum_operands_app.
  change (mergeInt64 (default [] b) d) with (foldl mergeInt64 (default [] b) [d]).
  rewrite <- foldl_app. rewrite foldl_mergeInt64 by done. unfold encodeInt64. do 3 f_equal.
  assert (sum_operands (option_list b) = decodeInt64 (default [] b)) as -> by (destruct b; [apply Z.add_0_r|done]).
  done.
Qed.

Lemma hist_val_op h o : hist_val (hist_op h o) = bop_value o (hist_val h).
Proof.
  destruct o as [k v|k|k d]; [done..|]. destruct h as [b ops]. unfold hist_val. simpl.
  destruct ops as [|d' ops]; [done|]. cbn [app]. change (d' :: ops ++ [d]) with ((d' :: ops) ++ [d]).
  by rewrite foldl_app.
Qed.

Lemma hist_val_ops k ops h :
  hist_val (foldl hist_op h (filter (fun o => bop_key o = k) ops)) = key_value k ops (hist_val h).
Proof.
  revert h. induction ops as [|o ops IH]; intros h; [done|]. rewrite filter_cons. simpl.
  case_decide; simpl; rewrite IH; [by rewrite hist_val_op|done].
Qed.

(** The pairs a user may see. *)
Abbreviation unreserved := (fun p : bytes * bytes => negb (isReserved p.1) = true).

Lemma filter_range_pairs s t (m : store) : filter unreserved (range_pairs s t m) = user_pairs s t m.
Proof.
  unfold range_pairs, user_pairs. apply sort_pairs_unique.
  - apply NoDup_fst_filter, NoDup_fst_map_to_list.
  - apply StronglySorted_Sorted, StronglySorted_filter, StronglySorted_merge_sort; apply _.
  - rewrite sort_pairs_perm, list_filter_filter.
    rewrite (list_filter_iff _ (fun p => in_range s t p.1 ∧ isReserved p.1 = false)); [done|].
    intros [k v]. simpl. rewrite negb_true_iff. tauto.
Qed.

Section correctness.
Context {DB PSnap PBatch PIter : Type} `{PebbleLaws DB PSnap PBatch PIter}.

Lemma pb_Apply_abs (db db' : DB) b sync :
  pb_Apply db b sync = (db', None) → pb_abs db' = spec_ops (pb_abs db) (pbat_ops b).
Proof.
  intros Ha. apply map_eq. intros k. rewrite lookup_spec_ops, (hist_reads_val _ _ (pb_hist_abs db' k)).
  by rewrite (pb_apply_law _ _ _ _ _ Ha), hist_val_ops, <- (hist_reads_val _ _ (pb_hist_abs db k)).
Qed.

(** *** Cursors *)

Definition at_pos (it : PIter) (l : list (bytes * bytes)) (n : nat) : Prop :=
  it_pairs (pi_view it) = l ∧ pos (pi_view it) = Z.of_nat n.

Lemma at_pos_valid it l n : at_pos it l n → pi_Valid it = bool_decide (n < length l)%nat.
Proof.
  intros [Hl Hp]. rewrite pi_valid_law. unfold Valid, it_len. rewrite Hl, Hp.
  case_bool_decide; [apply andb_true_iff; lia|apply andb_false_iff; right; lia].
Qed.

Lemma at_pos_item it l n p : at_pos it l n → l !! n = Some p → pi_Valid it = true ∧ (pi_Key it, pi_Value it) = p.
Proof.
  intros Ha Hn. assert (pi_Valid it = true) as Hv.
  { rewrite (at_pos_valid it l n Ha). apply bool_decide_true. by eapply lookup_lt_Some. }
  split; [done|]. rewrite pi_key_law, pi_value_law by done. unfold Key, Value.
  rewrite <- pi_valid_law, Hv. destruct Ha as [-> ->]. rewrite Nat2Z.id, Hn. by destruct p.
Qed.

Lemma at_pos_next it l n p :
  at_pos it l n → l !! n = Some p →
  at_pos (pi_Next it).1 l (S n) ∧ (pi_Next it).2 = bool_decide (S n < length l)%nat.
Proof.
  intros Ha Hn. destruct (at_pos_item _ _ _ _ Ha Hn) as [Hv _]. destruct (pi_next_law it Hv) as [E1 E2].
  destruct Ha as [Hl Hp]. unfold at_pos. rewrite E1, E2. unfold Next, it_len. simpl. rewrite Hl, Hp.
  split; [split; [done|lia]|]. case_bool_decide; lia.
Qed.

Lemma at_pos_first it l :
  it_pairs (pi_view it) = l →
  at_pos (pi_First it).1 l 0 ∧ (pi_First it).2 = bool_decide (0 < length l)%nat.
Proof.
  intros Hl. destruct (pi_first_law it) as [E1 E2]. unfold at_pos. rewrite E1, E2. unfold First, it_len. simpl.
  rewrite Hl. split; [done|]. case_bool_decide; lia.
Qed.

(** A movement ends on the next pair to keep, or past the end. *)
Definition lands (keep : bytes * bytes → bool) (l : list (bytes * bytes)) (n : nat) (r : option (PIter * bool)) : Prop :=
  ∃ it' n', r = Some (it', bool_decide (n' < length l)%nat) ∧ at_pos it' l n' ∧ (n ≤ n')%nat
    ∧ filter (fun p => keep p = true) (drop n l) = filter (fun p => keep p = true) (drop n' l)
    ∧ (∀ p, l !! n' = Some p → keep p = true).

Lemma walk_spec keep next l fuel it n acc :
  (∀ it n p, at_pos it l n → l !! n = Some p → lands keep l (S n) (next it)) →
  at_pos it l n → (∀ p, l !! n = Some p → keep p = true) → (length l - n < fuel)%nat →
  ∃ it', walk next fuel it (bool_decide (n < length l)%nat) acc
         = Some (acc ++ filter (fun p => keep p = true) (drop n l), it').
Proof.
  intros Hnext. revert it n acc. induction fuel as [|fuel IH]; intros it n acc Ha Hk Hf; [lia|]. simpl.
  rewrite (at_pos_valid it l n Ha). destruct (l !! n) as [p|] eqn:En.
  - rewrite bool_decide_true by by eapply lookup_lt_Some. simpl.
    destruct (at_pos_item _ _ _ _ Ha En) as [_ ->].
    destruct (Hnext it n p Ha En) as (it1 & n1 & -> & Ha1 & Hn1 & Hfil & Hk1). cbn.
    pose proof (lookup_lt_Some _ _ _ En).
    destruct (IH it1 n1 (acc ++ [p]) Ha1 Hk1) as (it2 & ->); [lia|]. exists it2.
    rewrite (drop_S l p n En), filter_cons_True by by apply Hk. by rewrite Hfil, <- app_assoc.
  - apply lookup_ge_None in En. rewrite bool_decide_false by lia. simpl.
    rewrite drop_ge by done. rewrite app_nil_r. by exists it.
Qed.

Abbreviation user_pair := (fun p : bytes * bytes => negb (isReserved p.1)).

Lemma skipReserved_lands fuel it l n :
  at_pos it l n → (length l - n < fuel)%nat →
  lands user_pair l n (it' ← skipReserved fuel it; Some (it', pi_Valid it')).
Proof.
  revert it n. induction fuel as [|fuel IH]; intros it n Ha Hf; [lia|]. simpl.
  destruct (l !! n) as [p|] eqn:En.
  - destruct (at_pos_item _ _ _ _ Ha En) as [Hv Hkv]. rewrite Hv. simpl.
    assert (pi_Key it = p.1) as -> by by rewrite <- Hkv. destruct (isReserved p.1) eqn:Er.
    + destruct (at_pos_next _ _ _ _ Ha En) as [Ha1 _]. pose proof (lookup_lt_Some _ _ _ En).
      destruct (IH _ (S n) Ha1) as (it' & n' & -> & Ha' & Hn' & Hfil & Hk); [lia|].
      exists it', n'. split_and!; try done; [lia|]. rewrite (drop_S l p n En), filter_cons_False by by rewrite Er.
      done.
    + cbn. rewrite Hv. exists it, n. split_and!; try done; [|by intros q Hq; simplify_eq; rewrite Er].
      by rewrite bool_decide_true by by eapply lookup_lt_Some.
  - pose proof (proj1 (lookup_ge_None _ _) En). rewrite (at_pos_valid it l n Ha), bool_decide_false by lia.
    cbn. rewrite (at_pos_valid it l n Ha). exists it, n. split_and!; try done. intros q Hq. congruence.
Qed.

Lemma consumer_Next_lands fuel it l n p :
  (length l < fuel)%nat → at_pos it l n → l !! n = Some p → lands user_pair l (S n) (consumer_Next fuel it).
Proof.
  intros Hf Ha Hn. unfold consumer_Next. destruct (at_pos_next _ _ _ _ Ha Hn) as [Ha1 Hok].
  destruct (pi_Next it) as [it1 ok]. simpl in *. subst ok. case_bool_decide as E; simpl.
  - apply skipReserved_lands; [done|lia].
  - exists it1, (S n). rewrite bool_decide_false by done. split_and!; try done.
    intros q Hq%lookup_lt_Some. lia.
Qed.

Lemma walk_consumer_spec fuel it :
  (length (it_pairs (pi_view it)) < fuel)%nat →
  ∃ it', walk_consumer fuel it = Some (filter (fun p => user_pair p = true) (it_pairs (pi_view it)), it').
Proof.
  set (l := it_pairs (pi_view it)). intros Hf. unfold walk_consumer.
  destruct (at_pos_first it l eq_refl) as [Ha Hok].
  assert (lands user_pair l 0 (consumer_First fuel it)) as (it1 & n1 & -> & Ha1 & _ & Hfil & Hk).
  { unfold consumer_First. destruct (pi_First it) as [it1 ok]. simpl in *. subst ok.
    case_bool_decide as E; simpl; [apply skipReserved_lands; [done|lia]|].
    exists it1, 0%nat. rewrite bool_decide_false by done. split_and!; try done. intros q Hq%lookup_lt_Some. lia. }
  cbn. rewrite drop_0 in Hfil. rewrite Hfil.
  apply (walk_spec user_pair); [|done|done|lia]. intros. by eapply consumer_Next_lands.
Qed.

Lemma walk_raw_spec fuel it :
  (length (it_pairs (pi_view it)) < fuel)%nat →
  ∃ it', walk_raw fuel it = Some (it_pairs (pi_view it), it').
Proof.
  set (l := it_pairs (pi_view it)). intros Hf. unfold walk_raw.
  destruct (at_pos_first it l eq_refl) as [Ha Hok]. destruct (pi_First it) as [it1 ok]. simpl in *. subst ok.
  destruct (walk_spec (fun _ => true) (fun it => Some (pi_Next it)) l fuel it1 0 []) as (it' & ->); [|done|done|lia|].
  - intros it0 n p Ha0 Hn. destruct (at_pos_next _ _ _ _ Ha0 Hn) as [Ha1 Hok].
    exists (pi_Next it0).1, (S n). rewrite <- Hok. split_and!; try done. by destruct (pi_Next it0).
  - exists it'. by rewrite drop_0, filter_all by done.
Qed.

(** As many rounds as the iterator has pairs, and one to see the end. *)
Definition iter_fuel (it : PIter + pebbleErr) : nat :=
  match it with inl it => S (length (it_pairs (pi_view it))) | inr _ => 0 end.

Lemma RawIter_spec (db : DB) s t :
  ∃ l err, RawIter (iter_fuel (pb_NewIter db s t)) db s t = Some (l, err)
           ∧ (err = None → l = range_pairs s t (pb_abs db)).
Proof.
  unfold RawIter, iter_result. destruct (pb_NewIter db s t) as [it|err] eqn:E; [|by do 2 eexists].
  destruct (walk_raw_spec (iter_fuel (inl it)) it) as (it' & ->); [simpl; lia|]. cbn.
  do 2 eexists. split; [done|]. intros _. by apply pb_iter_law.
Qed.

Lemma NewIter_spec (db : DB) s t :
  ∃ l err, snapshot_NewIter (iter_fuel (ps_NewIter (pb_NewSnapshot db) s t)) (GetSnapshot db) s t = Some (l, err)
           ∧ (err = None → l = user_pairs s t (pb_abs db)).
Proof.
  unfold snapshot_NewIter, iter_result, GetSnapshot. cbn [snap].
  destruct (ps_NewIter _ s t) as [it|err] eqn:E; [|by do 2 eexists].
  destruct (walk_consumer_spec (iter_fuel (inl it)) it) as (it' & ->); [simpl; lia|]. cbn.
  do 2 eexists. split; [done|]. intros _. rewrite (ps_iter_law _ _ _ _ E). apply filter_range_pairs.
Qed.

#[export] Instance pebble_engine : StorageEngine DB (pebbleSnapshot PSnap) PBatch := {
  eng_Get := Get;
  eng_GetSnapshot db := inl (GetSnapshot db);
  eng_NewBatch := pb_NewBatch;
  bat_Set := pbat_Set;
  bat_Delete := pbat_Delete;
  bat_Merge := pbat_Merge;
  eng_ApplyBatch := ApplyBatch;
  eng_Sync := Sync;
  eng_CurrentSequence := CurrentSequence;
  eng_RawIter db s t := default ([], None) (RawIter (iter_fuel (pb_NewIter db s t)) db s t);
  snap_Get := snapshot_Get;
  snap_GetVersion := snapshot_GetVersion;
  snap_NewIter d s t := default ([], None) (snapshot_NewIter (iter_fuel (ps_NewIter (snap d) s t)) d s t);
  snap_Sequence := snap_seq;
}.

Lemma ApplyBatch_pebble (db db' : DB) b sync err :
  ApplyBatch db b sync = (db', err) →
  pb_abs db' = if decide (err = None) then spec_ops (pb_abs db) (pbat_ops b) else pb_abs db.
Proof.
  unfold ApplyBatch. destruct (pb_Apply db b sync) as [db1 [x|]] eqn:E; intros [= <- <-]; simpl.
  - by eapply pb_apply_error.
  - by eapply pb_Apply_abs.
Qed.

(** The adapter keeps the contract of the interface. *)
#[export] Instance pebble_laws : EngineLaws DB (pebbleSnapshot PSnap) PBatch.
Proof.
  refine {| eng_inv _ := True; bat_inv _ _ := True; eng_abs := pb_abs;
            bat_denote b m := spec_ops m (pbat_ops b) |}; try done.
  - intros e k _. simpl. unfold Get. rewrite pb_get_abs. by destruct (_ !! k).
  - intros e s k _ [= <-]. simpl. unfold snapshot_Get. cbn [snap GetSnapshot]. rewrite ps_get_law, pb_get_abs. by destruct (_ !! k).
  - intros e s k _ [= <-]. simpl. unfold snapshot_GetVersion. cbn [snap GetSnapshot]. rewrite ps_get_law, pb_get_abs.
    by destruct (_ !! _).
  - intros e m. simpl. by rewrite pbat_new_law.
  - intros e b k v m _. simpl. rewrite pbat_set_law. apply (spec_ops_app m (pbat_ops b) [_]).
  - intros e b k m _. simpl. rewrite pbat_delete_law. apply (spec_ops_app m (pbat_ops b) [_]).
  - intros e b k v m _. simpl. rewrite pbat_merge_law. apply (spec_ops_app m (pbat_ops b) [_]).
  - intros e b sync e' _ _ Ha. apply (ApplyBatch_pebble e e' b sync None) in Ha. split; [done|].
    by rewrite decide_True in Ha.
  - intros e s t l _. simpl. destruct (RawIter_spec e s t) as (l' & err & -> & Hl). simpl. intros [= <- ->]. by apply Hl.
  - intros e sn s t l _ [= <-]. simpl. change (snap (GetSnapshot e)) with (pb_NewSnapshot e).
    destruct (NewIter_spec e s t) as (l' & err & -> & Hl). simpl. intros [= <- ->]. by apply Hl.
Defined.

(** C31. The Pebble adapter keeps the contract of a storage engine: a batch
    without an error reads as its operations in order, merges computed by
    Int64Merger included; with an error nothing changes; and the iterator of a
    snapshot, which skips reserved keys, yields the user keys of the range in
    order and terminates. *)
Theorem pebble_refines (db db' : DB) (b : PBatch) (sync : bool) (err : option engErr) (k s t : bytes) :
  ApplyBatch db b sync = (db', err) →
  let m := if decide (err = None) then spec_ops (pb_abs db) (pbat_ops b) else pb_abs db in
  Get db' k = from_option inl (inr ErrKeyNotFound) (m !! k)
  ∧ snapshot_Get (GetSnapshot db') k = from_option inl (inr ErrKeyNotFound) (m !! k)
  ∧ ∃ l ierr, snapshot_NewIter (iter_fuel (ps_NewIter (pb_NewSnapshot db') s t)) (GetSnapshot db') s t = Some (l, ierr)
      ∧ (ierr = None → l = user_pairs s t m).
Proof.
  intros Ha%ApplyBatch_pebble m. fold m in Ha. rewrite <- Ha. split_and!; [..|apply NewIter_spec].
  - unfold Get. rewrite pb_get_abs. by destruct (_ !! k).
  - unfold snapshot_Get. cbn [snap GetSnapshot]. rewrite ps_get_law, pb_get_abs. by destruct (_ !! k).
Qed.
End correctness.

(** Int64Merger gives one result however Pebble groups and orders the
    operands: two runs over the same operands, in any order, with partial merges
    of any subsequences, finish with the same bytes, the wrapped int64 sum, which
    is the interface's merge applied one operand at a time. *)
Theorem int64Merger_correct (ops ops' : list bytes) (m m' : int64Merger) :
  merging ops m → merging ops' m' → ops ≡ₚ ops' →
  Finish m = Finish m' ∧ Finish m = encodeInt64 (i64 (sum_operands ops)) ∧ Finish m = foldl mergeInt64 [] ops.
Proof.
  intros Hm Hm' Hp. apply (proj2 merged_sum) in Hm' as E'. pose proof (proj2 merged_sum _ _ Hm) as E.
  assert (sum_operands ops = sum_operands ops') as Hs.
  { clear -Hp. unfold sum_operands. induction Hp; simpl in *; lia. }
  assert (ops ≠ []) as Hne.
  { clear -Hm. revert Hm. apply (merging_ind2 (fun ops _ _ => ops ≠ []) (fun ops _ _ => ops ≠ [])); try done.
    - intros a b x v _ Ha _ _ [? ?]%app_eq_nil. done.
    - intros a b x v _ Ha _ _ [? ?]%app_eq_nil. done. }
  assert (Finish m = encodeInt64 (i64 (sum_operands ops))) as Ef by by (unfold Finish; rewrite E).
  split_and!; [unfold Finish; by rewrite E, E', Hs|done|]. rewrite Ef, foldl_mergeInt64 by done. done.
Qed.

Lemma int64Merger_correct_witness :
  Finish (MergeNewer (Merge (encodeInt64 40)) (encodeInt64 2))
  = Finish (MergeOlder (Merge (encodeInt64 2)) (encodeInt64 40))
  ∧ Finish (MergeNewer (Merge (encodeInt64 40)) (encodeInt64 2)) = encodeInt64 42.
Proof.
  destruct (int64Merger_correct [encodeInt64 40; encodeInt64 2] [encodeInt64 40; encodeInt64 2]
    (MergeNewer (Merge (encodeInt64 40)) (encodeInt64 2)) (MergeOlder (Merge (encodeInt64 2)) (encodeInt64 40)))
    as (H1 & H2 & _).
  - apply (m_newer [_] [_]); [apply m_start, m_operand|apply m_operand].
  - apply (m_older [_] [_]); [apply m_start, m_operand|apply m_operand].
  - reflexivity.
  - split; [exact H1|]. rewrite H2. vm_compute. reflexivity.
Defined.

(** ** A concrete database *)

(** Histories in a map, merged from the oldest operand on when read. *)
Abbreviation histDB :=
  (@gmap (list Init.Byte.byte) (@list_eq_dec Init.Byte.byte byte_eq_dec)
     (@list_countable Init.Byte.byte byte_eq_dec byte_countable) history).

Definition run_merger (h : history) : option bytes :=
  match h.2 with
  | [] => h.1
  | _ :: _ =>
      match option_list h.1 ++ h.2 with
      | [] => None
      | v :: ops => Some (Finish (foldl MergeNewer (Merge v) ops))
      end
  end.

Definition hist_abs (db : histDB) : store := omap run_merger db.

Definition hist_apply (db : histDB) (o : bop) : histDB :=
  partial_alter (fun h => Some (hist_op (default (None, []) h) o)) (bop_key o) db.

#[export] Instance hist_pebble : PebbleDB histDB histDB (list bop) memIter := {
  pb_Get db k := from_option inl (inr PebbleNotFound) (hist_abs db !! k);
  pb_NewSnapshot db := db;
  ps_Get db k := from_option inl (inr PebbleNotFound) (hist_abs db !! k);
  pb_NewBatch _ := [];
  pbat_Set b k v := b ++ [BSet k v];
  pbat_Delete b k := b ++ [BDelete k];
  pbat_Merge b k v := b ++ [BMerge k v];
  pbat_Reset _ := [];
  pb_Apply db b _ := (foldl hist_apply db b, None);
  pb_LogData _ := None;
  pb_NewIter db s t := inl (new_iter (range_pairs s t (hist_abs db)));
  ps_NewIter db s t := inl (new_iter (range_pairs s t (hist_abs db)));
  pi_First := First;
  pi_Next := Next;
  pi_Prev := Prev;
  pi_Valid := Valid;
  pi_Key := Key;
  pi_Value := Value;
  pi_Error _ := None;
}.

Lemma merging_foldl ops done m : merging done m → merging (done ++ ops) (foldl MergeNewer m ops).
Proof.
  revert done m. induction ops as [|v ops IH]; intros d m Hm; simpl; [by rewrite app_nil_r|].
  rewrite cons_middle, app_assoc. apply IH, m_newer; [done|constructor].
Qed.

Lemma run_merger_reads h : hist_reads h (run_merger h).
Proof.
  unfold hist_reads, run_merger. destruct h as [b [|d ops]]; [done|]. cbn [fst snd].
  destruct (option_list b ++ d :: ops) as [|v rest] eqn:E; [by apply app_eq_nil in E as [_ ?]|].
  eexists. split; [|reflexivity]. change (v :: rest) with ([v] ++ rest). apply merging_foldl.
  apply m_start, m_operand.
Qed.

Lemma hist_apply_lookup ops db k :
  default (None, []) (foldl hist_apply db ops !! k)
  = foldl hist_op (default (None, []) (db !! k)) (filter (fun o => bop_key o = k) ops).
Proof.
  revert db. induction ops as [|o ops IH]; intros db; [done|]. simpl. rewrite IH, filter_cons. unfold hist_apply at 1.
  case_decide as E; [subst k; by rewrite lookup_partial_alter_eq|]. by rewrite lookup_partial_alter_ne.
Qed.

#[export] Instance hist_pebble_laws : PebbleLaws histDB histDB (list bop) memIter.
Proof.
  refine {| pb_abs := hist_abs; pb_hist db k := default (None, []) (db !! k); pbat_ops b := b; pi_view it := it |};
    try done.
  - intros db k. unfold hist_abs. rewrite lookup_omap. destruct (db !! k) as [h|]; [|done]. apply run_merger_reads.
  - intros db b sync db' k. simpl. intros [= <-]. apply hist_apply_lookup.
  - intros db s t it. simpl. by intros [= <-].
  - intros db s t it. simpl. by intros [= <-].
Defined.

Definition pebble_ops : list bop :=
  [BSet (bs "a") (encodeInt64 40); BMerge (bs "a") (encodeInt64 2); BSet (versionKey (bs "a")) (bs "x")].

Lemma pebble_refines_witness :
  Get (ApplyBatch (∅ : histDB) pebble_ops true).1 (bs "a") = inl (encodeInt64 42)
  ∧ ∃ ierr, snapshot_NewIter 3 (GetSnapshot (ApplyBatch (∅ : histDB) pebble_ops true).1) [] []
            = Some ([(bs "a", encodeInt64 42)], ierr).
Proof.
  destruct (pebble_refines (∅ : histDB) (ApplyBatch (∅ : histDB) pebble_ops true).1 pebble_ops true None (bs "a") [] [])
    as (Hg & _ & l & ierr & Hi & Hl); [reflexivity|]. split.
  - rewrite Hg. vm_compute. reflexivity.
  - exists None. vm_compute. reflexivity.
Defined.
