(* ===== verification/PebbleSnap.v ===== *)
(** * The shared snapshot of the Pebble engine (src/engine/pebble/pebble.go)

    A goroutine replaces [sharedSnap] on a ticker; a timer closes each replaced
    snapshot a little later; Close stops the goroutine, closes the current
    snapshot and the database. Each of these is one step; closing a snapshot
    twice, or the stop channel twice, is a panic. *)

From S2P Require Import Prelude.

Record lifecycle := {
  sharedSnap : option nat;   (* the snapshot in the atomic pointer *)
  timers : list nat;         (* snapshots waiting for their AfterFunc *)
  opened : list nat;         (* open snapshots of the database *)
  next_snap : nat;
  loop_running : bool;
  stop_closed : bool;        (* [close(e.snapshotStop)] *)
  db_closed : bool;
}.

Inductive snapErr := SnapNone.

(** [snap.Close()] *)
Definition close_snap (s : nat) (l : lifecycle) : result snapErr lifecycle :=
  if decide (s ∈ opened l) then
    Ok {| sharedSnap := sharedSnap l; timers := timers l; opened := filter (fun x => x ≠ s) (opened l);
          next_snap := next_snap l; loop_running := loop_running l; stop_closed := stop_closed l;
          db_closed := db_closed l |}
  else Panic.

(** (e *Engine) refreshSharedSnapshot *)
Definition refreshSharedSnapshot (l : lifecycle) : lifecycle :=
  {| sharedSnap := Some (next_snap l); timers := timers l ++ option_list (sharedSnap l);
     opened := next_snap l :: opened l; next_snap := S (next_snap l); loop_running := loop_running l;
     stop_closed := stop_closed l; db_closed := db_closed l |}.

(** (e *Engine) Open: the first snapshot and the goroutine. *)
Definition Open : lifecycle :=
  refreshSharedSnapshot
    {| sharedSnap := None; timers := []; opened := []; next_snap := 0; loop_running := true; stop_closed := false;
       db_closed := false |}.

(** An iteration of snapshotRefreshLoop on the ticker. *)
Definition tick (l : lifecycle) : lifecycle := refreshSharedSnapshot l.

(** The AfterFunc callback of one replaced snapshot. *)
Definition fire (s : nat) (l : lifecycle) : result snapErr lifecycle :=
  close_snap s
    {| sharedSnap := sharedSnap l; timers := filter (fun x => x ≠ s) (timers l); opened := opened l;
       next_snap := next_snap l; loop_running := loop_running l; stop_closed := stop_closed l;
       db_closed := db_closed l |}.

(** (e *Engine) Close up to [db.Close()]: the goroutine is stopped and waited
    for, the pointer is swapped to nil and its snapshot closed. *)
Definition Close_snapshots (l : lifecycle) : result snapErr lifecycle :=
  if stop_closed l then Panic
  else
    let l := {| sharedSnap := None; timers := timers l; opened := opened l; next_snap := next_snap l;
                loop_running := false; stop_closed := true; db_closed := db_closed l |} in
    Ok l.

Definition Close (l : lifecycle) : result snapErr lifecycle :=
  let! l' := Close_snapshots l in
  let! l' := match sharedSnap l with Some s => close_snap s l' | None => Ok l' end in
  Ok {| sharedSnap := sharedSnap l'; timers := timers l'; opened := opened l'; next_snap := next_snap l';
        loop_running := loop_running l'; stop_closed := stop_closed l'; db_closed := true |}.

(** The steps while the engine is used: it is closed at most once. *)
Inductive sstep (l : lifecycle) : result snapErr lifecycle → Prop :=
  | s_tick : loop_running l = true → sstep l (Ok (tick l))
  | s_fire s : s ∈ timers l → sstep l (fire s l)
  | s_close : stop_closed l = false → sstep l (Close l).

(** ** Every snapshot is closed once *)

(** The open snapshots are the shared one and those with a timer. *)
Record linv (l : lifecycle) : Prop := {
  li_open : opened l ≡ₚ option_list (sharedSnap l) ++ timers l;
  li_nodup : NoDup (opened l);
  li_next : ∀ s, s ∈ opened l → (s < next_snap l)%nat;
  li_stop : loop_running l = false ↔ stop_closed l = true;
}.

Lemma filter_ne_perm (s : nat) a b : NoDup a → a ≡ₚ s :: b → filter (fun x => x ≠ s) a ≡ₚ b.
Proof.
  intros Hnd Hp. rewrite Hp. rewrite filter_cons_False by tauto.
  assert (NoDup (s :: b)) as Hnd' by by rewrite <- Hp. apply NoDup_cons in Hnd' as [Hs _].
  assert (filter (fun x => x ≠ s) b = b) as ->; [|done]. clear Hp. induction b as [|x b IH]; [done|].
  apply not_elem_of_cons in Hs as [Hx Hs]. by rewrite filter_cons_True, IH.
Qed.

Lemma refresh_inv l : linv l → linv (refreshSharedSnapshot l).
Proof.
  intros [H1 H2 H3 H4]. split; cbn; [| | |done].
  - rewrite H1. apply Permutation_skip. by rewrite Permutation_app_comm.
  - constructor; [|done]. intros Hin%H3. lia.
  - intros s [->|Hin%H3]%elem_of_cons; lia.
Qed.

Lemma sstep_inv l r : linv l → sstep l r → ∃ l', r = Ok l' ∧ linv l'.
Proof.
  intros Hi. pose proof Hi as [H1 H2 H3 H4]. intros [Hr|s Hs|Hs].
  - exists (tick l). split; [done|]. by apply refresh_inv.
  - unfold fire, close_snap. cbn [opened]. assert (s ∈ opened l) as Hin by (rewrite H1; apply elem_of_app; by right).
    rewrite decide_True by done. eexists. split; [done|].
    assert (NoDup (option_list (sharedSnap l) ++ timers l)) as Hnd by by rewrite <- H1.
    apply NoDup_app in Hnd as (_ & Hd & Hnt).
    assert (timers l ≡ₚ s :: filter (fun x => x ≠ s) (timers l)) as Ht.
    { etrans; [symmetry; apply (filter_app_complement (fun x => x = s))|].
      assert (filter (fun x => x = s) (timers l) = [s]) as ->; [|done].
      clear -Hs Hnt. induction Hnt as [|x t Hx Hnt IH]; [by apply elem_of_nil in Hs|].
      rewrite filter_cons. apply elem_of_cons in Hs as [->|Hs].
      - rewrite decide_True by done. f_equal. apply filter_none. intros y Hy ->. done.
      - rewrite decide_False by (intros ->; done). by apply IH. }
    split; cbn; [| | |done].
    + apply filter_ne_perm; [done|]. rewrite H1, Ht at 1. by rewrite Permutation_middle.
    + by apply NoDup_filter.
    + intros x [_ Hx]%list_elem_of_filter. by apply H3.
  - unfold Close, Close_snapshots. rewrite Hs. cbn [rbind]. destruct (sharedSnap l) as [s|] eqn:Es.
    + unfold close_snap. cbn [opened]. rewrite decide_True by (rewrite H1; by left). cbn [rbind].
      eexists. split; [done|]. split; cbn; [| | |done].
      * apply filter_ne_perm; [done|]. exact H1.
      * by apply NoDup_filter.
      * intros x [_ Hx]%list_elem_of_filter. by apply H3.
    + cbn [rbind]. eexists. split; [done|]. by split.
Qed.

Lemma Open_inv : linv Open.
Proof. split; cbn; [done|apply NoDup_singleton| |done]. intros s ->%list_elem_of_singleton. lia. Qed.

(** The shared snapshots are handled safely: in every interleaving of
    refreshes, timers and one Close, no snapshot is closed twice, and the open
    snapshots are exactly the current one and those whose timer is still to
    fire. *)
Theorem shared_snapshot_safe (l : lifecycle) (r : result snapErr lifecycle) :
  rtc (fun a b => sstep a (Ok b)) Open l → sstep l r →
  ∃ l', r = Ok l' ∧ opened l' ≡ₚ option_list (sharedSnap l') ++ timers l' ∧ NoDup (opened l').
Proof.
  intros Hr Hs. assert (linv l) as Hi.
  { pose proof Open_inv as H0. revert H0. induction Hr as [|a b c Hab _ IH]; intros H0; [done|].
    apply IH; [done|]. destruct (sstep_inv a (Ok b) H0 Hab) as (b' & [= <-] & ?). done. }
  destruct (sstep_inv l r Hi Hs) as (l' & -> & [H1 H2 _ _]). by exists l'.
Qed.

Lemma shared_snapshot_safe_witness : ∃ l', Close (tick Open) = Ok l' ∧ NoDup (opened l').
Proof.
  destruct (shared_snapshot_safe (tick Open) (Close (tick Open))) as (l' & E & _ & Hn).
  - apply rtc_once. apply s_tick. reflexivity.
  - apply s_close. reflexivity.
  - exists l'. split; [exact E|exact Hn].
Defined.

(** Close can shut the database down under an open snapshot: one refresh
    before Close leaves the replaced snapshot open, and its timer closes it after
    the database. *)
Theorem close_leaves_snapshot_open :
  ∃ l l', Close (tick Open) = Ok l ∧ db_closed l = true ∧ opened l = [0%nat] ∧ timers l = [0%nat]
    ∧ fire 0 l = Ok l' ∧ opened l' = [].
Proof. do 2 eexists. split; [reflexivity|]. split_and!; reflexivity. Qed.

(** A second Close panics on the closed stop channel. *)
Lemma close_twice_panics l : Close Open = Ok l → Close l = Panic.
Proof. intros [= <-]. reflexivity. Qed.
