(* ===== verification/PebbleIter.v ===== *)
(** * The consumer iterator of the Pebble engine as a cursor

    [pebbleConsumerIter] (src/engine/pebble/pebble.go) walks Pebble's iterator in
    both directions and skips the reserved keys. Whatever a client does at valid
    positions, it sees the slice cursor over the unreserved pairs, and every move
    ends. *)

From S2P Require Import Prelude Types EngineSpec Iter Iterators Pebble.

(** The moves a client makes: First at any time, Next and Prev on a pair only.
    [p] is the position, [len] the number of pairs. *)
Fixpoint on_pairs (len p : Z) (ms : list move) : bool :=
  match ms with
  | [] => true
  | MFirst :: ms => on_pairs len 0 ms
  | MNext :: ms => (0 <=? p) && (p <? len) && on_pairs len (p + 1) ms
  | MPrev :: ms => (0 <=? p) && (p <? len) && on_pairs len (p - 1) ms
  end.

(** ** Positions in a filtered list *)

Lemma filter_take_S (l : list (bytes * bytes)) n p :
  l !! n = Some p →
  filter unreserved (take (S n) l) = filter unreserved (take n l) ++ filter unreserved [p].
Proof. intros Hn. by rewrite (take_S_r l n p Hn), filter_app. Qed.

(** The pair at [n] is found in the filtered list after those before [n]. *)
Lemma filter_lookup (l : list (bytes * bytes)) n p :
  l !! n = Some p → unreserved p →
  filter unreserved l !! length (filter unreserved (take n l)) = Some p.
Proof.
  intros Hn Hp.
  assert (filter unreserved l = filter unreserved (take n l) ++ p :: filter unreserved (drop (S n) l)) as ->.
  { rewrite <- (take_drop_middle l n p Hn) at 1. by rewrite filter_app, filter_cons_True. }
  by rewrite lookup_app_r, Nat.sub_diag by lia.
Qed.

Lemma filter_take_all (l : list (bytes * bytes)) n :
  (length l ≤ n)%nat → filter unreserved (take n l) = filter unreserved l.
Proof. intros Hn. by rewrite take_ge. Qed.

Lemma length_filter_take (l : list (bytes * bytes)) n :
  (length (filter unreserved (take n l)) ≤ length (filter unreserved l))%nat.
Proof. rewrite <- (take_drop n l) at 2. rewrite filter_app, length_app. lia. Qed.

Section cursor.
Context {DB PSnap PBatch PIter : Type} `{PebbleLaws DB PSnap PBatch PIter}.
Implicit Types it : PIter.

(** The consumer's move. *)
Definition consumer_move (fuel : nat) (m : move) it : option (PIter * bool) :=
  match m with
  | MFirst => consumer_First fuel it
  | MNext => consumer_Next fuel it
  | MPrev => consumer_Prev fuel it
  end.

(** What a client of the consumer iterator sees; it looks at the pair under the
    iterator when there is one. *)
Fixpoint consumer_observe (fuel : nat) (ms : list move) it : option (list (bool * bool * bytes * bytes)) :=
  match ms with
  | [] => Some []
  | m :: ms =>
      r ← consumer_move fuel m it;
      rest ← consumer_observe fuel ms r.1;
      Some ((r.2, pi_Valid r.1,
             if pi_Valid r.1 then pi_Key r.1 else [], if pi_Valid r.1 then pi_Value r.1 else []) :: rest)
  end.

(** The iterator is just before the pair [n]: on the pair [n - 1], or before the
    first one. *)
Definition just_before it (l : list (bytes * bytes)) (n : nat) : Prop :=
  it_pairs (pi_view it) = l ∧ pos (pi_view it) = Z.of_nat n - 1.

Lemma just_before_at it l n : just_before it l (S n) ↔ at_pos it l n.
Proof. unfold just_before, at_pos. split; intros [? ?]; split; lia || done. Qed.

Lemma just_before_start it l : just_before it l 0 → pi_Valid it = false.
Proof. intros [_ Hp]. rewrite pi_valid_law. unfold Valid. lia. Qed.

Lemma at_pos_prev it l n p :
  at_pos it l n → l !! n = Some p →
  just_before (pi_Prev it).1 l n ∧ (pi_Prev it).2 = bool_decide (0 < n)%nat.
Proof.
  intros Ha Hn. destruct (at_pos_item _ _ _ _ Ha Hn) as [Hv _]. destruct (pi_prev_law it Hv) as [E1 E2].
  destruct Ha as [Hl Hp]. unfold just_before. rewrite E1, E2. unfold Prev. rewrite Hp.
  destruct (Z.leb_spec (Z.of_nat n) 0); simpl; (split; [split; [done|lia]|]); case_bool_decide; lia.
Qed.

(** Backwards the iterator stops on the last unreserved pair before [n], or
    before the first pair. *)
Lemma skipReservedBackward_lands fuel it l n :
  just_before it l n → (n ≤ length l)%nat → (n < fuel)%nat →
  ∃ it' n', skipReservedBackward fuel it = Some it' ∧ just_before it' l n' ∧ (n' ≤ n)%nat
    ∧ filter unreserved (take n l) = filter unreserved (take n' l)
    ∧ (∀ m, n' = S m → ∃ p, l !! m = Some p ∧ unreserved p).
Proof.
  revert it n. induction fuel as [|fuel IH]; intros it n Ha Hn Hf; [lia|]. simpl. destruct n as [|n].
  { rewrite (just_before_start it l Ha). simpl. exists it, 0%nat. by split_and!. }
  apply just_before_at in Ha. destruct (lookup_lt_is_Some_2 l n) as [p Hp]; [lia|].
  destruct (at_pos_item _ _ _ _ Ha Hp) as [Hv Hkv]. rewrite Hv. simpl.
  assert (pi_Key it = p.1) as -> by by rewrite <- Hkv. destruct (isReserved p.1) eqn:Er.
  - destruct (at_pos_prev _ _ _ _ Ha Hp) as [Ha1 _].
    destruct (IH _ n Ha1) as (it' & n' & -> & Ha' & Hn' & Hfil & Hu); [lia|lia|].
    exists it', n'. split_and!; [done|done|lia| |done].
    rewrite (filter_take_S l n p Hp), filter_cons_False, filter_nil, app_nil_r by (by rewrite Er). done.
  - exists it, (S n). split_and!; [done|by apply just_before_at|lia|done|].
    intros m [= <-]. exists p. by rewrite Er.
Qed.

(** ** The correspondence *)

(** The consumer iterator stands on the pair [j] of the unreserved ones, past
    their end, or before the first. *)
Definition corresponds it (l : list (bytes * bytes)) (j : Z) : Prop :=
  (j = -1 ∧ just_before it l 0)
  ∨ ∃ n, at_pos it l n ∧ j = Z.of_nat (length (filter unreserved (take n l)))
      ∧ (∀ p, l !! n = Some p → unreserved p).

(** What is seen at corresponding positions. *)
Lemma corresponds_view it l j :
  corresponds it l j →
  let jt := {| it_pairs := filter unreserved l; pos := j |} in
  pi_Valid it = Valid jt
  ∧ (if pi_Valid it then pi_Key it else []) = Key jt ∧ (if pi_Valid it then pi_Value it else []) = Value jt.
Proof.
  intros [[-> Ha]|(n & Ha & -> & Hu)]; cbn zeta.
  - rewrite (just_before_start it l Ha). unfold Key, Value, Valid. by cbn.
  - rewrite (at_pos_valid it l n Ha). case_bool_decide as Hn.
    + destruct (lookup_lt_is_Some_2 l n Hn) as [p Hp]. destruct (at_pos_item _ _ _ _ Ha Hp) as [_ Hkv].
      pose proof (filter_lookup l n p Hp (Hu p Hp)) as Hj.
      destruct (Valid_lookup {| it_pairs := filter unreserved l;
        pos := Z.of_nat (length (filter unreserved (take n l))) |} p) as (-> & -> & ->); [simpl; lia| |].
      * cbn [it_pairs pos]. by rewrite Nat2Z.id.
      * split; [done|]. by rewrite <- Hkv.
    + rewrite filter_take_all by lia.
      assert (Valid {| it_pairs := filter unreserved l; pos := Z.of_nat (length (filter unreserved l)) |} = false) as Hv
        by (apply Valid_end; unfold it_len; simpl; lia).
      unfold Key, Value. by rewrite Hv.
Qed.

(** A forward movement from [n] ends at the first unreserved pair from there. *)
Lemma lands_corresponds l n r :
  lands (fun p => negb (isReserved p.1)) l n r →
  let j := Z.of_nat (length (filter unreserved (take n l))) in
  ∃ it', r = Some (it', j <? Z.of_nat (length (filter unreserved l))) ∧ corresponds it' l j.
Proof.
  intros (it' & n' & -> & Ha & Hn & Hfil & Hu) j.
  assert (filter unreserved (take n l) = filter unreserved (take n' l)) as E.
  { assert (filter unreserved (take n l) ++ filter unreserved (drop n l)
            = filter unreserved (take n' l) ++ filter unreserved (drop n' l)) as E by (by rewrite <- !filter_app, !take_drop).
    rewrite Hfil in E. by apply app_inv_tail in E. }
  subst j. rewrite E. exists it'. split; [|right; by exists n']. do 2 f_equal. case_bool_decide as Hn'.
  - destruct (lookup_lt_is_Some_2 l n' Hn') as [p Hp].
    pose proof (filter_lookup l n' p Hp (Hu p Hp)) as Hj%lookup_lt_Some. lia.
  - rewrite filter_take_all by lia. lia.
Qed.

Lemma consumer_First_corresponds fuel it l :
  it_pairs (pi_view it) = l → (length l < fuel)%nat →
  ∃ it', consumer_First fuel it = Some (it', 0 <? Z.of_nat (length (filter unreserved l))) ∧ corresponds it' l 0.
Proof.
  intros Hl Hf. destruct (at_pos_first it l Hl) as [Ha Hok]. apply (lands_corresponds l 0).
  unfold consumer_First. destruct (pi_First it) as [it1 ok]. simpl in *. subst ok.
  case_bool_decide as E; simpl; [apply skipReserved_lands; [done|lia]|].
  exists it1, 0%nat. rewrite bool_decide_false by done. split_and!; try done. intros q Hq%lookup_lt_Some. lia.
Qed.

Lemma consumer_Next_corresponds fuel it l n p :
  (length l < fuel)%nat → at_pos it l n → l !! n = Some p → unreserved p →
  let j := Z.of_nat (length (filter unreserved (take n l))) in
  ∃ it', consumer_Next fuel it = Some (it', j + 1 <? Z.of_nat (length (filter unreserved l)))
    ∧ corresponds it' l (j + 1).
Proof.
  intros Hf Ha Hn Hu j. destruct (lands_corresponds l (S n) _ (consumer_Next_lands fuel it l n p Hf Ha Hn))
    as (it' & E & Hc).
  assert (Z.of_nat (length (filter unreserved (take (S n) l))) = j + 1) as Ej.
  { rewrite (filter_take_S l n p Hn), filter_cons_True, filter_nil, length_app by done. simpl. lia. }
  rewrite Ej in *. by exists it'.
Qed.

Lemma consumer_Prev_corresponds fuel it l n p :
  (length l < fuel)%nat → at_pos it l n → l !! n = Some p →
  let j := Z.of_nat (length (filter unreserved (take n l))) in
  ∃ it', consumer_Prev fuel it = Some (it', 0 <? j) ∧ corresponds it' l (j - 1).
Proof.
  intros Hf Ha Hn j. unfold consumer_Prev. destruct (at_pos_prev _ _ _ _ Ha Hn) as [Ha1 Hok].
  pose proof (lookup_lt_Some _ _ _ Hn) as Hlt.
  destruct (pi_Prev it) as [it1 ok]. simpl in Ha1, Hok. subst ok. case_bool_decide as E; simpl.
  - destruct (skipReservedBackward_lands fuel it1 l n Ha1) as (it' & n' & -> & Ha' & Hn' & Hfil & Hu); [lia|lia|].
    cbn. exists it'. subst j. rewrite Hfil. destruct n' as [|m].
    + rewrite (just_before_start it' l Ha'). simpl. split; [done|]. by left.
    + destruct (Hu m eq_refl) as (q & Hq & Hq'). apply just_before_at in Ha'.
      rewrite (filter_take_S l m q Hq), filter_cons_True, filter_nil, length_app by done. simpl.
      rewrite (at_pos_valid it' l m Ha'), bool_decide_true by (by eapply lookup_lt_Some).
      split; [by rewrite (proj2 (Z.ltb_lt 0 _)) by lia|]. right. exists m. split_and!; [done|lia|].
      intros q' Hq''. by simplify_eq.
  - assert (n = 0)%nat as -> by lia. subst j. simpl. exists it1. split; [done|]. by left.
Qed.

(** One move of both. *)
Lemma consumer_move_step fuel m ms it l j :
  let user := filter unreserved l in
  (length l < fuel)%nat → it_pairs (pi_view it) = l → (0 <= j → corresponds it l j) →
  on_pairs (Z.of_nat (length user)) j (m :: ms) = true →
  ∃ it' j' ok, consumer_move fuel m it = Some (it', ok)
    ∧ do_move m {| it_pairs := user; pos := j |} = ({| it_pairs := user; pos := j' |}, ok)
    ∧ corresponds it' l j' ∧ on_pairs (Z.of_nat (length user)) j' ms = true.
Proof.
  intros user Hf Hl Hc Hm. subst user.
  assert (m ≠ MFirst → ∃ n p, at_pos it l n ∧ l !! n = Some p ∧ unreserved p
    ∧ j = Z.of_nat (length (filter unreserved (take n l)))) as Hon.
  { intros Hne. assert (0 <= j < Z.of_nat (length (filter unreserved l))) as Hj
      by (destruct m; [done|simpl in Hm; lia..]).
    destruct (Hc ltac:(lia)) as [[-> _]|(n & Ha & -> & Hu)]; [lia|].
    destruct (l !! n) as [p|] eqn:Hn; [exists n, p; by auto|].
    apply lookup_ge_None in Hn. rewrite filter_take_all in Hj by done. lia. }
  destruct m; cbn [consumer_move do_move iter_First iter_Next iter_Prev memIter_Iterator].
  - destruct (consumer_First_corresponds fuel it l Hl Hf) as (it' & E & Hc').
    exists it', 0, (0 <? Z.of_nat (length (filter unreserved l))). by split_and!.
  - destruct Hon as (n & p & Ha & Hn & Hu & ->); [done|].
    destruct (consumer_Next_corresponds fuel it l n p Hf Ha Hn Hu) as (it' & E & Hc').
    eexists it', _, _. split_and!; [exact E|reflexivity|exact Hc'|].
    simpl in Hm. by apply andb_true_iff in Hm as [_ Hm].
  - destruct Hon as (n & p & Ha & Hn & Hu & ->); [done|].
    destruct (consumer_Prev_corresponds fuel it l n p Hf Ha Hn) as (it' & E & Hc').
    simpl in Hm. apply andb_true_iff in Hm as [_ Hm]. unfold Prev. cbn [pos it_pairs].
    destruct (Z.leb_spec (Z.of_nat (length (filter unreserved (take n l)))) 0) as [Hz|Hz].
    + eexists it', _, _. split_and!; [exact E| |exact Hc'|done].
      assert (length (filter unreserved (take n l)) = 0%nat) as -> by lia. done.
    + eexists it', _, _. split_and!; [exact E| |exact Hc'|done]. f_equal. lia.
Qed.

Lemma corresponds_pairs it l j : corresponds it l j → it_pairs (pi_view it) = l.
Proof. by intros [[_ [? _]]|(n & [? _] & _)]. Qed.

Lemma consumer_observe_spec fuel ms it l j :
  (length l < fuel)%nat → it_pairs (pi_view it) = l → (0 <= j → corresponds it l j) →
  on_pairs (Z.of_nat (length (filter unreserved l))) j ms = true →
  consumer_observe fuel ms it = Some (observe ms {| it_pairs := filter unreserved l; pos := j |}).
Proof.
  intros Hf. revert it j. induction ms as [|m ms IH]; intros it j Hl Hc Hm; [done|].
  destruct (consumer_move_step fuel m ms it l j Hf Hl Hc Hm) as (it' & j' & ok & E1 & E2 & Hc' & Hm').
  cbn [consumer_observe observe]. rewrite E1, E2. cbn.
  rewrite (IH it' j' (corresponds_pairs _ _ _ Hc') (fun _ => Hc') Hm'). cbn.
  by destruct (corresponds_view it' l j' Hc') as (-> & -> & ->).
Qed.

(** C32. The consumer iterator of the Pebble engine is a cursor over the user's
    pairs: for every sequence of First, Next and Prev in which the client steps
    only from a pair, each move terminates, and its result, Valid, Key and Value
    are those of the slice iterator over the unreserved pairs of the range. *)
Theorem pebble_consumer_cursor (db : DB) s t it fuel ms :
  ps_NewIter (pb_NewSnapshot db) s t = inl it →
  (length (range_pairs s t (pb_abs db)) < fuel)%nat →
  on_pairs (Z.of_nat (length (user_pairs s t (pb_abs db)))) (-1) ms = true →
  consumer_observe fuel ms it = Some (observe ms (new_iter (user_pairs s t (pb_abs db)))).
Proof.
  intros Hit Hf Hm. rewrite <- filter_range_pairs in *.
  apply consumer_observe_spec; [done|by apply ps_iter_law|lia|done].
Qed.
End cursor.

(** Two user pairs with a version record between them, on the database of
    histories; the range starts before the reserved keys. *)
Definition cursor_db : histDB :=
  (ApplyBatch (∅ : histDB) [BSet (bs "A") (bs "1"); BSet (versionKey (bs "A")) (bs "x"); BSet (bs "a") (bs "2")] true).1.

Definition cursor_moves : list move := [MFirst; MNext; MPrev; MPrev; MFirst; MNext; MNext].

Lemma pebble_consumer_cursor_witness :
  consumer_observe 4 cursor_moves (new_iter (range_pairs [] [] (pb_abs cursor_db)))
  = Some (observe cursor_moves (new_iter (user_pairs [] [] (pb_abs cursor_db)))).
Proof.
  refine (pebble_consumer_cursor cursor_db [] [] (new_iter (range_pairs [] [] (pb_abs cursor_db))) 4
    cursor_moves _ _ _).
  - reflexivity.
  - apply (bool_decide_unpack _). vm_compute. exact I.
  - vm_compute. reflexivity.
Defined.
