(* ===== verification/PebbleEngine.v ===== *)
(** * The life of a Pebble engine (src/engine/pebble/pebble.go)

    New, Open with its options, Close, Compact, CreateCheckpoint, the batch and
    the shared snapshot's reads, over a disk on which Pebble keeps its databases.
    A method called on an engine that is not open dereferences a nil [*pebble.DB].
    That Pebble's flush and compaction keep what is stored is a class of laws;
    that a checkpoint opens again to the store is left to Pebble. *)

From S2P Require Import Prelude Types EngineSpec Iter Pebble PebbleSnap.

(** The options [Open] passes. *)
Record pebbleOptions := {
  Merger : bytes → int64Merger;
  MemTableSize : Z; L0CompactionThreshold : Z; L0StopWritesThreshold : Z; MaxOpenFiles : Z; DisableWAL : bool;
}.

Definition engine_options : pebbleOptions :=
  {| Merger := Merge; MemTableSize := Z.shiftl 64 20; L0CompactionThreshold := 8; L0StopWritesThreshold := 24;
     MaxOpenFiles := 1000; DisableWAL := false |}.

(** The file system and the parts of Pebble that use it. *)
Class PebbleDisk (Disk DB : Type) := {
  os_MkdirAll : Disk → bytes → Disk * option pebbleErr;
  pebble_Open : Disk → bytes → pebbleOptions → Disk * (DB + pebbleErr);
  pb_Flush : DB → DB * option pebbleErr;
  pb_Compact : DB → bytes → bytes → bool → DB * option pebbleErr;
  pb_Checkpoint : Disk → DB → bytes → Disk * option pebbleErr;
  pb_Close : DB → option pebbleErr;
}.

Section engine.
Context {DB PSnap PBatch PIter Disk : Type} `{PebbleDB DB PSnap PBatch PIter} `{!PebbleDisk Disk DB}.

(** [Engine]: the database when it is open, and the shared snapshots. *)
Record Engine := { pe_db : option DB; pe_dir : bytes; pe_life : option lifecycle }.

Definition set_pe_db (e : Engine) (db : DB) : Engine :=
  {| pe_db := Some db; pe_dir := pe_dir e; pe_life := pe_life e |}.

(** New, DataDir *)
Definition New (dir : bytes) : Engine := {| pe_db := None; pe_dir := dir; pe_life := None |}.
Definition DataDir (e : Engine) : bytes := pe_dir e.

(** (e *Engine) Open *)
Definition engine_Open (disk : Disk) (e : Engine) : Disk * (Engine + engErr) :=
  match os_MkdirAll disk (pe_dir e) with
  | (disk, Some err) => (disk, inr (pebble_err err))
  | (disk, None) =>
      match pebble_Open disk (pe_dir e) engine_options with
      | (disk, inr err) => (disk, inr (pebble_err err))
      | (disk, inl db) => (disk, inl {| pe_db := Some db; pe_dir := pe_dir e; pe_life := Some PebbleSnap.Open |})
      end
  end.

(** (e *Engine) Close: nothing on an engine never opened; [e.db] stays set. *)
Definition engine_Close (e : Engine) : result snapErr (Engine * option engErr) :=
  match pe_db e, pe_life e with
  | Some db, Some l =>
      let! l := PebbleSnap.Close l in
      Ok ({| pe_db := pe_db e; pe_dir := pe_dir e; pe_life := Some l |}, pebble_err <$> pb_Close db)
  | _, _ => Ok (e, None)
  end.

(** (e *Engine) Compact: a flush and a compaction of every key. *)
Definition Compact (e : Engine) : Engine * option engErr :=
  match pe_db e with
  | None => (e, None)
  | Some db =>
      match pb_Flush db with
      | (db, Some err) => (set_pe_db e db, Some (pebble_err err))
      | (db, None) => let '(db, err) := pb_Compact db [] [xff] true in (set_pe_db e db, pebble_err <$> err)
      end
  end.

(** (e *Engine) CreateCheckpoint *)
Definition CreateCheckpoint (disk : Disk) (e : Engine) (dir : bytes) :
    result snapErr (Disk * Engine * option engErr) :=
  match pe_db e with
  | None => Panic
  | Some db =>
      match pb_Flush db with
      | (db, Some err) => Ok (disk, set_pe_db e db, Some (pebble_err err))
      | (db, None) =>
          let '(disk, err) := pb_Checkpoint disk db dir in Ok (disk, set_pe_db e db, pebble_err <$> err)
      end
  end.

(** (e *Engine) NewBatch; (b *pebbleBatch) Set, Delete, Merge, Reset *)
Record pebbleBatch := { b : PBatch }.

Definition NewBatch (e : Engine) : result snapErr pebbleBatch :=
  match pe_db e with None => Panic | Some db => Ok {| b := pb_NewBatch db |} end.

Definition batch_Set (bat : pebbleBatch) (key value : bytes) : pebbleBatch := {| b := pbat_Set (b bat) key value |}.
Definition batch_Delete (bat : pebbleBatch) (key : bytes) : pebbleBatch := {| b := pbat_Delete (b bat) key |}.
Definition batch_Merge (bat : pebbleBatch) (key value : bytes) : pebbleBatch := {| b := pbat_Merge (b bat) key value |}.
Definition batch_Reset (bat : pebbleBatch) : pebbleBatch := {| b := pbat_Reset (b bat) |}.

(** The pooled snapshot and the wrapper whose Close does nothing. *)
Record sharedSnapshot := { ss_snap : PSnap; ss_seq : Z }.

Definition shared_Get (s : sharedSnapshot) (key : bytes) : bytes + engErr := get_result (ps_Get (ss_snap s) key).

Definition shared_GetVersion (s : sharedSnapshot) (key : bytes) : EpochRecord + engErr :=
  match ps_Get (ss_snap s) (versionKey key) with
  | inr PebbleNotFound => inl zero_epoch
  | inr err => inr (pebble_err err)
  | inl val => inl (decodeEpochRecord0 val)
  end.

Definition shared_NewIter (fuel : nat) (s : sharedSnapshot) (start end_ : bytes) :
    option (list (bytes * bytes) * option engErr) :=
  iter_result (walk_consumer fuel) (ps_NewIter (ss_snap s) start end_).

Definition shared_Sequence (s : sharedSnapshot) : Z := ss_seq s.
Definition shared_Close (s : sharedSnapshot) : option engErr := None.
End engine.

Arguments Engine DB : clear implicits.
Arguments pebbleBatch PBatch : clear implicits.
Arguments sharedSnapshot PSnap : clear implicits.

(** ** What is relied on *)

(** Flush and compaction do not change what is stored. *)
Class PebbleDiskLaws (DB PSnap PBatch PIter Disk : Type) `{PebbleLaws DB PSnap PBatch PIter}
    `{!PebbleDisk Disk DB} := {
  flush_law (db db' : DB) err : pb_Flush db = (db', err) → pb_abs db' = pb_abs db;
  compact_law (db db' : DB) s t p err : pb_Compact db s t p = (db', err) → pb_abs db' = pb_abs db;
}.

Section correctness.
Context {DB PSnap PBatch PIter Disk : Type} `{PebbleDiskLaws DB PSnap PBatch PIter Disk}.
Implicit Types e : Engine DB.

(** What a client reads from an open engine. *)
Definition same_reads e1 e2 : Prop :=
  match pe_db e1, pe_db e2 with
  | Some db1, Some db2 =>
      (∀ k, Get db1 k = Get db2 k) ∧ CurrentSequence db1 = CurrentSequence db2
      ∧ (∀ k, snapshot_Get (GetSnapshot db1) k = snapshot_Get (GetSnapshot db2) k)
      ∧ (∀ k, snapshot_GetVersion (GetSnapshot db1) k = snapshot_GetVersion (GetSnapshot db2) k)
  | None, None => True
  | _, _ => False
  end.

Lemma same_abs_reads e1 e2 db1 db2 :
  pe_db e1 = Some db1 → pe_db e2 = Some db2 → pb_abs db1 = pb_abs db2 → same_reads e1 e2.
Proof.
  intros E1 E2 Ha. unfold same_reads, Get, CurrentSequence, snapshot_Get, snapshot_GetVersion. rewrite E1, E2.
  cbn [snap GetSnapshot]. split_and!; intros; rewrite ?ps_get_law, !pb_get_abs, Ha; done.
Qed.

(** Compaction does not change what is read, whether it succeeds or not. *)
Lemma Compact_reads e e' err : Compact e = (e', err) → same_reads e' e.
Proof.
  unfold Compact. destruct (pe_db e) as [db|] eqn:Ed.
  2: { intros [= <- <-]. unfold same_reads. by rewrite Ed. }
  destruct (pb_Flush db) as [db1 [er|]] eqn:Ef; apply flush_law in Ef.
  - intros [= <- <-]. by eapply same_abs_reads.
  - destruct (pb_Compact db1 _ _ _) as [db2 er] eqn:Ec. apply compact_law in Ec.
    intros [= <- <-]. eapply same_abs_reads; [done|done|congruence].
Qed.

(** A checkpoint, made or failed, does not change what the engine reads, and
    what it is made of is the flushed database: with a flush that fails nothing
    is written to the disk. *)
Lemma CreateCheckpoint_reads disk e dir disk' e' err :
  CreateCheckpoint disk e dir = Ok (disk', e', err) →
  same_reads e' e ∧
  ∃ db db1, pe_db e = Some db ∧
    match pb_Flush db with
    | (_, Some er) => disk' = disk ∧ err = Some (pebble_err er)
    | (db1', None) => db1 = db1' ∧ pb_Checkpoint disk db1 dir = (disk', (pb_Checkpoint disk db1 dir).2)
                      ∧ err = pebble_err <$> (pb_Checkpoint disk db1 dir).2
    end.
Proof.
  unfold CreateCheckpoint. destruct (pe_db e) as [db|] eqn:Ed; [|done].
  destruct (pb_Flush db) as [db1 [er|]] eqn:Ef; pose proof (flush_law _ _ _ Ef) as Ha.
  - intros [= <- <- <-]. split; [by eapply same_abs_reads|]. exists db, db1. by rewrite Ef.
  - destruct (pb_Checkpoint disk db1 dir) as [disk1 er] eqn:Ec. intros [= <- <- <-].
    split; [by eapply same_abs_reads|]. exists db, db1. by rewrite Ef, Ec.
Qed.

(** Reads through the pooled snapshot are those of a private one. *)
Lemma shared_reads (s : sharedSnapshot PSnap) fuel k st en :
  let p := {| snap := ss_snap s; snap_seq := ss_seq s |} in
  shared_Get s k = snapshot_Get p k ∧ shared_GetVersion s k = snapshot_GetVersion p k
  ∧ shared_NewIter fuel s st en = snapshot_NewIter fuel p st en ∧ shared_Sequence s = snap_seq p.
Proof. by split_and!. Qed.

(** An open engine closes once: the first Close reports the database's error,
    the second panics on the closed stop channel. *)
Lemma engine_Close_once disk disk' e e1 :
  engine_Open disk e = (disk', inl e1) →
  ∃ e2 err, engine_Close e1 = Ok (e2, err) ∧ engine_Close e2 = Panic.
Proof.
  unfold engine_Open. destruct (os_MkdirAll disk (pe_dir e)) as [d1 [er|]]; [done|].
  destruct (pebble_Open d1 _ _) as [d2 [db|er]]; [|done]. intros [= <- <-].
  do 2 eexists. split; reflexivity.
Qed.

(** An engine that failed to open, or was never opened, closes and compacts
    without an effect, and panics when asked for a batch or a checkpoint. *)
Lemma New_unopened disk dir other :
  let e := New dir in
  engine_Close e = Ok (e, None) ∧ Compact e = (e, None) ∧ NewBatch e = Panic
  ∧ CreateCheckpoint disk e other = Panic.
Proof. by split_and!. Qed.
End correctness.

(** ** A concrete disk *)

Abbreviation histDisk :=
  (@gmap (list Init.Byte.byte) (@list_eq_dec Init.Byte.byte byte_eq_dec)
     (@list_countable Init.Byte.byte byte_eq_dec byte_countable) histDB).

#[export] Instance hist_disk : PebbleDisk histDisk histDB := {
  os_MkdirAll d _ := (d, None);
  pebble_Open d dir _ := (d, inl (default ∅ (d !! dir)));
  pb_Flush db := (db, None);
  pb_Compact db _ _ _ := (db, None);
  pb_Checkpoint d db dir := (<[dir := db]> d, None);
  pb_Close _ := None;
}.

#[export] Instance hist_disk_laws : PebbleDiskLaws histDB histDB (list bop) memIter histDisk.
Proof.
  split.
  - intros db db' err [= <- _]. done.
  - intros db db' s t p err [= <- _]. done.
Qed.
