(* ===== verification/EngineLife.v ===== *)
(** * Opening and closing the Badger and Oshodi engines

    New, Open, Close and the methods that depend on an open database, of
    src/engine/badger/badger.go and src/engine/oshodi/oshodi.go. The databases
    live on a disk whose operations are a class; that what was written survives
    closing is left to the databases. *)

From S2P Require Import Prelude Types EngineSpec Materialise BTree.
From S2P Require Import Badger Oshodi.

(** ** Databases on a disk *)

(** [os.MkdirAll], the database's own Open and Close. *)
Class DiskDB (Disk DB Err : Type) := {
  MkdirAll : Disk → bytes → Disk * option Err;
  disk_Open : Disk → bytes → Disk * (DB + Err);
  disk_Close : Disk → DB → Disk * option Err;
}.

(** ** Badger *)

Module BadgerLife.
Import Badger.

Section life.
Context {Disk DB Txn Item : Type} `{BadgerDB DB Txn Item} `{!DiskDB Disk DB badgerErr}.

Record Engine := { be_db : option DB; be_dir : bytes }.

(** New, DataDir *)
Definition New (dir : bytes) : Engine := {| be_db := None; be_dir := dir |}.
Definition DataDir (e : Engine) : bytes := be_dir e.

(** (e *Engine) Open *)
Definition engine_Open (disk : Disk) (e : Engine) : Disk * (Engine * option engErr) :=
  match MkdirAll disk (be_dir e) with
  | (disk, Some err) => (disk, (e, Some (badger_err err)))
  | (disk, None) =>
      match disk_Open disk (be_dir e) with
      | (disk, inr err) => (disk, (e, Some (badger_err err)))
      | (disk, inl db) => (disk, ({| be_db := Some db; be_dir := be_dir e |}, None))
      end
  end.

(** (e *Engine) Close: nothing on an engine never opened; [e.db] stays set. *)
Definition engine_Close (disk : Disk) (e : Engine) : Disk * option engErr :=
  match be_db e with
  | None => (disk, None)
  | Some db => let '(disk, err) := disk_Close disk db in (disk, badger_err <$> err)
  end.

(** (e *Engine) NewBatch *)
Definition NewBatch (e : Engine) : badgerBatch := [].

(** (s *badgerSnapshot) Sequence *)
Definition snapshot_Sequence (s : badgerSnapshot Txn) : Z := snap_seq s.

(** (e *Engine) ApplyBatch on the engine; a nil database is a panic. *)
Definition engine_ApplyBatch (e : Engine) (b : badgerBatch) (sync : bool) : option (Engine * option engErr) :=
  db ← be_db e;
  let '(db, err) := ApplyBatch db b sync in
  Some ({| be_db := Some db; be_dir := be_dir e |}, err).

Definition engine_Get (e : Engine) (k : bytes) : option (bytes + engErr) := db ← be_db e; Some (Get db k).
End life.

Arguments Engine DB : clear implicits.

Section facts.
Context {Disk DB Txn Item : Type} `{BadgerLaws DB Txn Item} `{!DiskDB Disk DB badgerErr}.
Implicit Types e : Engine DB.

(** An Open that fails leaves the engine without a database: its methods panic,
    and its Close does nothing. *)
Lemma badger_Open_fails (disk disk' : Disk) dir e er b sync k :
  engine_Open disk (New dir) = (disk', (e, Some er)) →
  engine_Get e k = None ∧ engine_ApplyBatch e b sync = None ∧ engine_Close disk' e = (disk', None).
Proof.
  unfold engine_Open. destruct (MkdirAll disk _) as [d1 [er1|]]; [by intros [= <- <- _]|].
  destruct (disk_Open d1 _) as [d2 [db|er1]]; [done|]. by intros [= <- <- _].
Qed.

(** An open engine keeps a database through its batches, and reads after a batch
    as the batch left it. *)
Lemma badger_open_ApplyBatch (disk disk' : Disk) dir e b sync :
  engine_Open disk (New dir) = (disk', (e, None)) →
  ∃ db e' err, be_db e = Some db ∧ engine_ApplyBatch e b sync = Some (e', err) ∧ be_dir e' = dir
    ∧ ∀ k, k ≠ [] → engine_Get e' k
        = Some (found ((if decide (err = None) then spec_ops (db_abs db) b else db_abs db) !! k)).
Proof.
  unfold engine_Open. destruct (MkdirAll disk _) as [d1 [er|]]; [done|].
  destruct (disk_Open d1 _) as [d2 [db|er]]; [|done]. intros [= <- <-]. exists db.
  unfold engine_ApplyBatch. simpl. destruct (ApplyBatch db b sync) as [db' err] eqn:E. apply ApplyBatch_txn in E.
  do 2 eexists. split_and!; [done|reflexivity|done|]. intros k Hk. unfold engine_Get, Get. simpl.
  by rewrite txn_value_abs, txn_new_abs, E.
Qed.
End facts.
End BadgerLife.

(** ** Oshodi *)

Module OshodiLife.
Import Oshodi.

(** [filepath.Join(e.dir, "oshodi.db")], for a clean path. *)
Definition db_path (dir : bytes) : bytes := dir ++ bs "/oshodi.db".

Section life.
Context {Disk B : Type} `{Bucket B} `{!DiskDB Disk B oshErr}.

(** [Engine]: [e.db] with [e.bucket], and [e.seq]. *)
Record Life := { oe_db : option B; oe_seq : Z; oe_dir : bytes }.

(** New, DataDir *)
Definition New (dir : bytes) : Life := {| oe_db := None; oe_seq := 0; oe_dir := dir |}.
Definition DataDir (e : Life) : bytes := oe_dir e.

(** (e *Engine) Open: the database stays set when the sequence cannot be read. *)
Definition engine_Open (disk : Disk) (e : Life) : Disk * (Life * option oshErr) :=
  match MkdirAll disk (oe_dir e) with
  | (disk, Some err) => (disk, (e, Some err))
  | (disk, None) =>
      match disk_Open disk (db_path (oe_dir e)) with
      | (disk, inr err) => (disk, (e, Some err))
      | (disk, inl b) =>
          match readApplied b with
          | inr err => (disk, ({| oe_db := Some b; oe_seq := oe_seq e; oe_dir := oe_dir e |}, Some err))
          | inl s => (disk, ({| oe_db := Some b; oe_seq := s; oe_dir := oe_dir e |}, None))
          end
      end
  end.

(** (e *Engine) Close *)
Definition engine_Close (disk : Disk) (e : Life) : Disk * option oshErr :=
  match oe_db e with None => (disk, None) | Some b => disk_Close disk b end.

(** (e *Engine) NewBatch *)
Definition NewBatch (e : Life) : oshodiBatch := [].

(** (s *oshodiSnapshot) Sequence *)
Definition snapshot_Sequence (s : oshodiSnapshot) : Z := snap_seq s.

(** An open engine, as the operations of Oshodi.v take it. *)
Definition opened (e : Life) : option (Engine B) := b ← oe_db e; Some {| bucket := b; seq := oe_seq e |}.

Definition engine_ApplyBatch (e : Life) (b : oshodiBatch) (sync : bool) : option (Life * option engErr) :=
  o ← opened e;
  let '(o, err) := ApplyBatch o b sync in
  Some ({| oe_db := Some (bucket o); oe_seq := seq o; oe_dir := oe_dir e |}, err).
End life.

Arguments Life B : clear implicits.

Section facts.
Context {Disk B : Type} `{BucketLaws B} `{DataOrder} `{!DiskDB Disk B oshErr}.

(** The sequence an engine opens with is the stored one, and the engine keeps a
    database through its batches, of which an error leaves a prefix. *)
Lemma oshodi_open_ApplyBatch (disk disk' : Disk) dir e b sync :
  engine_Open disk (New dir) = (disk', (e, None)) →
  ∃ o e' o' err n, opened e = Some o ∧ seq o = CurrentSequence o
    ∧ engine_ApplyBatch e b sync = Some (e', err) ∧ opened e' = Some o'
    ∧ (n ≤ length b)%nat ∧ (err = None → n = length b) ∧ abs o' = spec_ops (abs o) (take n b).
Proof.
  unfold engine_Open. cbn [oe_dir New]. destruct (MkdirAll disk dir) as [d1 [er|]]; [done|].
  destruct (disk_Open d1 _) as [d2 [bk|er]]; [|done]. destruct (readApplied bk) as [s|er] eqn:Er; [|done].
  intros [= <- <-]. unfold engine_ApplyBatch. cbn [opened oe_db mbind option_bind oe_seq].
  set (o := {| bucket := bk; seq := s |}). destruct (ApplyBatch o b sync) as [o' er] eqn:Eb.
  apply oshodi_ApplyBatch_abs in Eb as (n & Hn & Ha & Hall).
  exists o, {| oe_db := Some (bucket o'); oe_seq := seq o'; oe_dir := dir |}, o', er, n. split_and!; try done.
  - unfold CurrentSequence. cbn [bucket o]. by rewrite Er.
  - unfold opened. simpl. by destruct o'.
Qed.
End facts.
End OshodiLife.

(** ** A disk with one directory *)

(** Opened anywhere else the databases report an error. *)
#[export] Instance one_badger : DiskDB (option store) mapDB badgerErr := {
  MkdirAll d _ := (d, None);
  disk_Open d path := (d, if decide (path = bs "data") then inl (default ∅ d) else inr (BadgerOther "no such directory"));
  disk_Close _ db := (Some db, None);
}.

#[export] Instance one_oshodi : DiskDB (option store) mapBucket oshErr := {
  MkdirAll d _ := (d, None);
  disk_Open d path := (d, if decide (path = OshodiLife.db_path (bs "data"))
                          then inl {| content := default ∅ d; refuse := Some (bs "2") |} else inr (OshOther "no such file"));
  disk_Close _ b := (Some (content b), None);
}.

(** A batch written, the engine closed and opened again: on this disk the value
    is there. *)
Example badger_reopen :
  let '(disk, (e, _)) := BadgerLife.engine_Open (None : option store) (BadgerLife.New (DB := mapDB) (bs "data")) in
  (r ← BadgerLife.engine_ApplyBatch e badger_ops false;
   let '(disk, _) := BadgerLife.engine_Close disk r.1 in
   let '(_, (e, _)) := BadgerLife.engine_Open disk (BadgerLife.New (DB := mapDB) (bs "data")) in
   BadgerLife.engine_Get e (bs "a")) = Some (inl (encodeInt64 42)).
Proof. vm_compute. reflexivity. Qed.
