(* ===== verification/Fsm.v ===== *)
(** * The replicated state machine (src/conductor/fsm.go)

    [dpxFSM]: conflict detection over the epoch map, translation of a proposal
    into an engine batch with its version records, and the rebuild of the epoch
    map when a store is opened. The engine is any instance of the
    [StorageEngine] interface; the hybrid logical clock is a parameter.
    Buffer pools and telemetry have no observable state and are left out. *)

From S2P Require Import Prelude Types Wire EngineSpec.

Abbreviation epochs :=
  (@gmap (list Init.Byte.byte) (@list_eq_dec Init.Byte.byte byte_eq_dec)
     (@list_countable Init.Byte.byte byte_eq_dec byte_countable) EpochRecord).

(** [m[key]] on a Go map of records: the zero record when the key is absent. *)
Definition epoch_of (m : epochs) (k : bytes) : EpochRecord := default zero_epoch (m !! k).

(** ** Results (shared.ApplyResult) *)

Inductive applyErr :=
  | ErrCorrupt (index : Z) (e : UnmarshalErr)
  | ErrCorruptPanic
  | ErrUnknownOp (op index : Z)
  | ErrApply (e : engErr)
  | ErrWalSync (index : Z) (e : engErr).

Record ApplyResult := { Conflict : bool; ResErr : option applyErr }.

Definition res_ok : ApplyResult := {| Conflict := false; ResErr := None |}.
Definition res_conflict : ApplyResult := {| Conflict := true; ResErr := None |}.
Definition res_err (e : applyErr) : ApplyResult := {| Conflict := false; ResErr := Some e |}.

(** [results[i].Err == nil && !results[i].Conflict] *)
Definition is_ok (r : ApplyResult) : bool :=
  match ResErr r with None => negb (Conflict r) | Some _ => false end.

(** The result is an error of the engine: of the commit or of the sync. *)
Definition engine_error (r : ApplyResult) : bool :=
  match ResErr r with Some (ErrApply _ | ErrWalSync _ _) => true | _ => false end.

Definition no_engine_error (rs : list ApplyResult) : Prop := Forall (fun r => engine_error r = false) rs.

#[export] Instance no_engine_error_dec rs : Decision (no_engine_error rs).
Proof. unfold no_engine_error. apply _. Defined.

(** ** Conflict detection *)

(** The exemption of a debit read from a credit write. *)
Definition exempt (er : EpochRecord) (re : ReadEntry) : bool := IsCredit er && re_IsDebit re.

(** (f *dpxFSM) detectConflict *)
Fixpoint detectConflict (keyEpoch shadow : epochs) (rs : list ReadEntry) : bool :=
  match rs with
  | [] => false
  | re :: rs' =>
      let c := epoch_of keyEpoch (re_Key re) in
      if (re_Epoch re <? Epoch c) && negb (exempt c re) then true
      else match shadow !! re_Key re with
           | Some s => if negb (exempt s re) then true else detectConflict keyEpoch shadow rs'
           | None => detectConflict keyEpoch shadow rs'
           end
  end.

(** ** Writes of a proposal *)

(** The engine operation of the switch on [w.Op]; [None] is no matching case. *)
Definition write_op (w : WriteEntry) : option bop :=
  if we_Op w =? OpSet then Some (BSet (we_Key w) (we_Value w))
  else if we_Op w =? OpDelete then Some (BDelete (we_Key w))
  else if (we_Op w =? OpCredit) || (we_Op w =? OpDebit) then Some (BMerge (we_Key w) (we_Value w))
  else None.

(** The epoch record a write leaves. *)
Definition write_epoch (index : Z) (w : WriteEntry) : EpochRecord :=
  {| Epoch := index; IsCredit := we_Op w =? OpCredit |}.

Definition version_op (index : Z) (w : WriteEntry) : bop :=
  BSet (versionKey (we_Key w)) (encodeEpochRecord (write_epoch index w)).

Definition applied_op (index : Z) : bop := BSet appliedKey (encodeUint64 index).

Section fsm.
Context {Eng Snap Bat : Type} `{StorageEngine Eng Snap Bat}.
(** The clock of github.com/olekukonko/hlc. *)
Context {Clock : Type} (clock_Observe : Clock → Z → Z → Clock).

Record dpxFSM := {
  f_applied : Z;
  f_engine : Eng;
  f_keyEpoch : epochs;
  f_syncPolicy : SyncPolicy;
  f_clock : Clock;
  f_watchers : bool;        (* [watchers != nil] *)
  f_metrics : option Z;     (* [metrics.ConflictTotal]; [None] when [metrics == nil] *)
  f_skipHLC : bool;
}.

Definition set_engine (f : dpxFSM) (e : Eng) : dpxFSM :=
  {| f_applied := f_applied f; f_engine := e; f_keyEpoch := f_keyEpoch f;
     f_syncPolicy := f_syncPolicy f; f_clock := f_clock f; f_watchers := f_watchers f;
     f_metrics := f_metrics f; f_skipHLC := f_skipHLC f |}.
Definition set_keyEpoch (f : dpxFSM) (ke : epochs) : dpxFSM :=
  {| f_applied := f_applied f; f_engine := f_engine f; f_keyEpoch := ke;
     f_syncPolicy := f_syncPolicy f; f_clock := f_clock f; f_watchers := f_watchers f;
     f_metrics := f_metrics f; f_skipHLC := f_skipHLC f |}.
Definition set_applied (f : dpxFSM) (a : Z) : dpxFSM :=
  {| f_applied := a; f_engine := f_engine f; f_keyEpoch := f_keyEpoch f;
     f_syncPolicy := f_syncPolicy f; f_clock := f_clock f; f_watchers := f_watchers f;
     f_metrics := f_metrics f; f_skipHLC := f_skipHLC f |}.
Definition set_clock (f : dpxFSM) (c : Clock) : dpxFSM :=
  {| f_applied := f_applied f; f_engine := f_engine f; f_keyEpoch := f_keyEpoch f;
     f_syncPolicy := f_syncPolicy f; f_clock := c; f_watchers := f_watchers f;
     f_metrics := f_metrics f; f_skipHLC := f_skipHLC f |}.
(** [if metrics != nil { metrics.ConflictTotal.Add(1) }] *)
Definition count_conflict (f : dpxFSM) : dpxFSM :=
  {| f_applied := f_applied f; f_engine := f_engine f; f_keyEpoch := f_keyEpoch f;
     f_syncPolicy := f_syncPolicy f; f_clock := f_clock f; f_watchers := f_watchers f;
     f_metrics := (fun n => u64 (n + 1)) <$> f_metrics f; f_skipHLC := f_skipHLC f |}.

(** newFSM *)
Definition newFSM (eng : Eng) (sp : SyncPolicy) (watchers : bool) (metrics : option Z)
    (clock : Clock) : dpxFSM :=
  {| f_applied := 0; f_engine := eng; f_keyEpoch := ∅; f_syncPolicy := sp; f_clock := clock;
     f_watchers := watchers; f_metrics := metrics; f_skipHLC := false |}.

(** *** Opening: rebuild the epoch map from the version records *)

Inductive OpenErr :=
  | OpenCorrupted (userKey : bytes) (len : nat)
  | OpenAborted
  | OpenScan (e : engErr).

(** The scan loop; [stop i] is whether [stopc] was closed when polled after
    the [i]-th record (a nil channel is never closed). *)
Fixpoint rebuild (stop : nat → bool) (i : nat) (pairs : list (bytes * bytes)) (m : epochs) :
    result OpenErr epochs :=
  match pairs with
  | [] => Ok m
  | (k, v) :: pairs' =>
      let prefixLen := length (bs "__dpx:ver:") in
      if decide (length k ≤ prefixLen)%nat then rebuild stop i pairs' m
      else
        let userKey := drop prefixLen k in
        match decodeEpochRecord v with
        | None => Err (OpenCorrupted userKey (length v))
        | Some er =>
            let m := <[userKey := er]> m in
            if stop i then Err OpenAborted else rebuild stop (S i) pairs' m
        end
  end.

(** (f *dpxFSM) open *)
Definition open (stop : nat → bool) (f : dpxFSM) : result OpenErr dpxFSM :=
  let '(pairs, err) := eng_RawIter (f_engine f) rawIterStart rawIterEnd in
  let! ke := rebuild stop 0 pairs ∅ in
  match err with
  | Some e => Err (OpenScan e)
  | None => Ok (set_applied (set_keyEpoch f ke) (eng_CurrentSequence (f_engine f)))
  end.

(** *** Applying one proposal *)

(** The loop over the writes, with the batch, the shadow map and the epoch
    map it fills. An unknown operation returns at once, with what was filled
    so far. *)
Fixpoint apply_writes (index : Z) (ws : list WriteEntry) (bat : Bat) (shadow ke : epochs) :
    Bat * epochs * epochs * option applyErr :=
  match ws with
  | [] => (bat, shadow, ke, None)
  | w :: ws' =>
      match write_op w with
      | None => (bat, shadow, ke, Some (ErrUnknownOp (we_Op w) index))
      | Some o =>
          let bat := match o with
                     | BSet k v => bat_Set bat k v
                     | BDelete k => bat_Delete bat k
                     | BMerge k v => bat_Merge bat k v
                     end in
          let er := write_epoch index w in
          let bat := bat_Set bat (versionKey (we_Key w)) (encodeEpochRecord er) in
          apply_writes index ws' bat (<[we_Key w := er]> shadow) (<[we_Key w := er]> ke)
      end
  end.

(** (f *dpxFSM) applyProposal *)
Definition applyProposal (f : dpxFSM) (index : Z) (p : Proposal) (shadow : epochs) :
    dpxFSM * epochs * option applyErr :=
  let '(bat, shadow, ke, err) :=
    apply_writes index (Writes p) (eng_NewBatch (f_engine f)) shadow (f_keyEpoch f) in
  let f := set_keyEpoch f ke in
  match err with
  | Some e => (f, shadow, Some e)
  | None =>
      let bat := bat_Set bat appliedKey (encodeUint64 index) in
      let '(eng, err) := eng_ApplyBatch (f_engine f) bat (bool_decide (f_syncPolicy f = SyncFull)) in
      let f := set_engine f eng in
      match err with
      | Some e => (f, shadow, Some (ErrApply e))
      | None =>
          let f := set_applied f index in
          if decide (f_syncPolicy f = SyncBatch) then
            match eng_Sync (f_engine f) with
            | Some e => (f, shadow, Some (ErrWalSync index e))
            | None => (f, shadow, None)
            end
          else (f, shadow, None)
      end
  end.

(** (f *dpxFSM) applyProposalToBatch: the writes go to the caller's batch. *)
Definition applyProposalToBatch (index : Z) (p : Proposal) (bat : Bat) (shadow ke : epochs) :
    Bat * epochs * epochs * option applyErr :=
  let '(bat, shadow, ke, err) := apply_writes index (Writes p) bat shadow ke in
  match err with
  | Some e => (bat, shadow, ke, Some e)
  | None => (bat_Set bat appliedKey (encodeUint64 index), shadow, ke, None)
  end.

(** *** Applying committed Raft log entries *)

(** [hraft.Log]: whether it is a [LogCommand], its index and its data. *)
Record Log := { log_command : bool; log_Index : Z; log_Data : bytes }.

(** [clock.Observe] unless the clock is skipped or the timestamp is zero. *)
Definition observe (f : dpxFSM) (p : Proposal) : dpxFSM :=
  if negb (f_skipHLC f) && negb (TimestampIsZero p)
  then set_clock f (clock_Observe (f_clock f) (TimestampWall p) (TimestampCounter p))
  else f.

(** One round of the loop of applyBatch: the result, and the writes the
    watchers are notified of. *)
Definition apply_log (f : dpxFSM) (shadow : epochs) (log : Log) :
    dpxFSM * epochs * ApplyResult * list (list WriteEntry) :=
  if negb (log_command log) then (f, shadow, res_ok, [])
  else
    match Unmarshal zero_proposal (log_Data log) with
    | Err e => (f, shadow, res_err (ErrCorrupt (log_Index log) e), [])
    | Panic => (f, shadow, res_err ErrCorruptPanic, [])
    | Ok p =>
        let f := observe f p in
        if detectConflict (f_keyEpoch f) shadow (ReadSet p) then (f, shadow, res_conflict, [])
        else
          let '(f, shadow, err) := applyProposal f (log_Index log) p shadow in
          match err with
          | Some e => (f, shadow, res_err e, [])
          | None => (f, shadow, res_ok, if f_watchers f then [Writes p] else [])
          end
    end.

(** (f *dpxFSM) applyBatch, with one shadow map for the whole batch. *)
Fixpoint apply_logs (f : dpxFSM) (shadow : epochs) (logs : list Log) :
    dpxFSM * list ApplyResult * list (list WriteEntry) :=
  match logs with
  | [] => (f, [], [])
  | log :: logs' =>
      let '(f, shadow, r, n) := apply_log f shadow log in
      let '(f, rs, ns) := apply_logs f shadow logs' in
      (f, r :: rs, n ++ ns)
  end.

Definition applyBatch (f : dpxFSM) (logs : list Log) :
    dpxFSM * list ApplyResult * list (list WriteEntry) := apply_logs f ∅ logs.

(** (f *dpxFSM) Apply: a batch of one. *)
Definition Apply (f : dpxFSM) (log : Log) : dpxFSM * option ApplyResult :=
  if negb (log_command log) then (f, Some res_ok)
  else let '(f, rs, _) := applyBatch f [log] in (f, head rs).
End fsm.

Arguments dpxFSM Eng Clock : clear implicits.
