(* ===== verification/Occ.v ===== *)
(** * Optimistic concurrency control, over abstract stores

    The vocabulary in which the commit protocol is specified: the version of a
    key in a store, the operations a committed proposal performs, and the two
    invariants the protocol rests on, [ke_ok] (the in-memory epoch map mirrors
    the stored versions) and [hist] (a key whose version has not moved since a
    snapshot still has its value). Shared by every proposer. *)

From S2P Require Import Prelude Types EngineSpec Fsm.

(** ** Specification *)

(** The stored version of a key. *)
Definition ver (m : store) (k : bytes) : EpochRecord :=
  from_option decodeEpochRecord0 zero_epoch (m !! versionKey k).

(** The engine operations of one write: the operation itself, if the code of
    the write is known, and the version record. *)
Definition write_ops (idx : Z) (w : WriteEntry) : list bop :=
  option_list (write_op w) ++ [version_op idx w].

Definition writes_ops (idx : Z) (ws : list WriteEntry) : list bop := concat (map (write_ops idx) ws).

(** A committed proposal: its writes in order, then the applied index. *)
Definition commit_ops (idx : Z) (ws : list WriteEntry) : list bop :=
  writes_ops idx ws ++ [applied_op idx].

Definition commit (m : store) (c : Z * Proposal) : store :=
  spec_ops m (commit_ops c.1 (Writes c.2)).

(** Serial execution of committed proposals. *)
Definition commits (m : store) (cs : list (Z * Proposal)) : store := foldl commit m cs.

Definition epochs_after (idx : Z) (ws : list WriteEntry) (ke : epochs) : epochs :=
  foldl (fun ke w => <[we_Key w := write_epoch idx w]> ke) ke ws.

(** The writes of a transaction only touch unreserved keys. *)
Definition user_writes (ws : list WriteEntry) : Prop :=
  Forall (fun w => isReserved (we_Key w) = false) ws.

Definition ke_ok (ke : epochs) (m : store) : Prop :=
  ∀ k, isReserved k = false → epoch_of ke k = ver m k.

Definition bounded (i : Z) (m : store) : Prop :=
  ∀ k, isReserved k = false → 0 <= Epoch (ver m k) <= i.

(** Relative to a store [m0] taken when the index was [i0]: a key whose version
    is not newer than [i0] has the value and version it had in [m0]. *)
Definition hist (i0 : Z) (m0 m : store) : Prop :=
  ∀ k, isReserved k = false → Epoch (ver m k) <= i0 → m !! k = m0 !! k ∧ ver m k = ver m0 k.

(** What conflict detection lets through. *)
Definition passes (er : EpochRecord) (re : ReadEntry) : Prop :=
  Epoch er <= re_Epoch re ∨ exempt er re = true.

(** The read set was recorded against the store [m0]: no entry is newer than the
    version its key had there. (An entry whose version could not be read stays
    at epoch zero.) *)
Definition reads_from (m0 : store) (rs : list ReadEntry) : Prop :=
  Forall (fun re => isReserved (re_Key re) = false ∧ re_Epoch re <= Epoch (ver m0 (re_Key re))) rs.

(** Every entry has the version its key had in [m0]. *)
Definition reads_exact (m0 : store) (rs : list ReadEntry) : Prop :=
  Forall (fun re => isReserved (re_Key re) = false ∧ re_Epoch re = Epoch (ver m0 (re_Key re))) rs.

(** The reads of a committed proposal, judged at its place in the serial order:
    a plain read still has the value it had in [m0]; a debit read has it too, or
    the last write to the key was a credit. *)
Definition read_valid (m0 m : store) (re : ReadEntry) : Prop :=
  m !! re_Key re = m0 !! re_Key re
  ∨ (re_IsDebit re = true ∧ IsCredit (ver m (re_Key re)) = true).

(** ** Versions after writes *)

Lemma ver_nonneg m k : 0 <= Epoch (ver m k).
Proof.
  unfold ver. destruct (m !! versionKey k) as [b|]; simpl; [|lia]. unfold decodeEpochRecord0.
  case_decide; simpl; [lia|]. apply le_combine_bound.
Qed.

Lemma write_op_key w o : write_op w = Some o → bop_key o = we_Key w.
Proof. unfold write_op. repeat case_match; intros; simplify_eq; done. Qed.

Lemma write_ops_keys idx w o :
  o ∈ write_ops idx w → bop_key o = we_Key w ∨ bop_key o = versionKey (we_Key w).
Proof.
  unfold write_ops. rewrite elem_of_app. intros [Ho|Ho].
  - left. destruct (write_op w) eqn:E; simpl in Ho; [|by apply elem_of_nil in Ho].
    apply list_elem_of_singleton in Ho. subst. by apply write_op_key.
  - apply list_elem_of_singleton in Ho. subst. by right.
Qed.

(** A key that is neither written nor a version record keeps its value. *)
Lemma lookup_write_ops_ne idx w m k :
  k ≠ we_Key w → k ≠ versionKey (we_Key w) → spec_ops m (write_ops idx w) !! k = m !! k.
Proof.
  intros H1 H2. apply lookup_spec_ops_notin.
  intros (o & -> & [E|E]%write_ops_keys)%list_elem_of_fmap; congruence.
Qed.

Lemma lookup_write_ops_version idx w m :
  isReserved (we_Key w) = false →
  spec_ops m (write_ops idx w) !! versionKey (we_Key w) = Some (encodeEpochRecord (write_epoch idx w)).
Proof.
  intros Hr. unfold write_ops. rewrite spec_ops_app. simpl.
  rewrite lookup_spec_op. simpl. by rewrite decide_True.
Qed.

Lemma ver_write_ops idx w m k :
  isReserved (we_Key w) = false → is_u64 idx →
  ver (spec_ops m (write_ops idx w)) k
  = if decide (we_Key w = k) then write_epoch idx w else ver m k.
Proof.
  intros Hr Hi. unfold ver. case_decide as E.
  - subst k. rewrite lookup_write_ops_version by done. simpl. by rewrite decode_encode_epoch0.
  - rewrite lookup_write_ops_ne; [done| |].
    + intros E'. symmetry in E'. by apply user_key_ne_version in E'.
    + intros E'. by apply (inj versionKey) in E'.
Qed.

Lemma ver_applied_op m idx k : ver (spec_op m (applied_op idx)) k = ver m k.
Proof.
  unfold ver. rewrite lookup_spec_op_ne; [done|]. simpl. intros E. by apply (versionKey_ne_applied k).
Qed.

Lemma lookup_applied_op m idx k : isReserved k = false → spec_op m (applied_op idx) !! k = m !! k.
Proof. intros Hk. apply lookup_spec_op_ne. simpl. intros <-. done. Qed.

Lemma writes_ops_cons idx w ws m :
  spec_ops m (writes_ops idx (w :: ws)) = spec_ops (spec_ops m (write_ops idx w)) (writes_ops idx ws).
Proof. apply spec_ops_app. Qed.

Lemma commit_ops_last idx ws m :
  spec_ops m (commit_ops idx ws) = spec_op (spec_ops m (writes_ops idx ws)) (applied_op idx).
Proof. apply spec_ops_app. Qed.

(** ** The invariants are kept by a commit *)

Section invariants.
Context (idx : Z) (Hidx : is_u64 idx).

Lemma ke_ok_write ke m w :
  isReserved (we_Key w) = false → ke_ok ke m →
  ke_ok (<[we_Key w := write_epoch idx w]> ke) (spec_ops m (write_ops idx w)).
Proof.
  intros Hr Hke k Hk. unfold epoch_of. rewrite lookup_insert, ver_write_ops by done.
  case_decide; [done|]. by apply Hke.
Qed.

Lemma ke_ok_writes ke m ws :
  user_writes ws → ke_ok ke m → ke_ok (epochs_after idx ws ke) (spec_ops m (writes_ops idx ws)).
Proof.
  intros Hw. revert ke m. induction Hw as [|w ws Hr _ IH]; intros ke m Hke; [done|].
  rewrite writes_ops_cons. apply IH. by apply ke_ok_write.
Qed.

Lemma ke_ok_commit ke m ws :
  user_writes ws → ke_ok ke m → ke_ok (epochs_after idx ws ke) (spec_ops m (commit_ops idx ws)).
Proof.
  intros Hw Hke k Hk. rewrite commit_ops_last, ver_applied_op. by apply ke_ok_writes.
Qed.

Lemma hist_write i0 m0 m w :
  i0 < idx → isReserved (we_Key w) = false → hist i0 m0 m → hist i0 m0 (spec_ops m (write_ops idx w)).
Proof.
  intros Hi Hr Hh k Hk He. rewrite ver_write_ops in He |- * by done.
  case_decide as E; [simpl in He; lia|].
  rewrite lookup_write_ops_ne by (congruence || by apply user_key_ne_version). by apply Hh.
Qed.

Lemma hist_commit i0 m0 m ws :
  i0 < idx → user_writes ws → hist i0 m0 m → hist i0 m0 (spec_ops m (commit_ops idx ws)).
Proof.
  intros Hi Hw Hh. assert (hist i0 m0 (spec_ops m (writes_ops idx ws))) as Hh'.
  { revert m Hh. induction Hw as [|w ws Hr _ IH]; intros m Hh; [done|].
    rewrite writes_ops_cons. apply IH. by apply hist_write. }
  intros k Hk. rewrite commit_ops_last, ver_applied_op, lookup_applied_op by done. by apply Hh'.
Qed.

Lemma bounded_commit i m ws :
  i <= idx → user_writes ws → bounded i m → bounded idx (spec_ops m (commit_ops idx ws)).
Proof.
  intros Hi Hw Hb. assert (bounded idx (spec_ops m (writes_ops idx ws))) as Hb'.
  { assert (bounded idx m) as Hm by (intros k Hk; specialize (Hb k Hk); lia).
    clear Hb. revert m Hm. induction Hw as [|w ws Hr _ IH]; intros m Hm; [done|].
    rewrite writes_ops_cons. apply IH. intros k Hk. rewrite ver_write_ops by done.
    case_decide; simpl; [width_lia|by apply Hm]. }
  intros k Hk. rewrite commit_ops_last, ver_applied_op. by apply Hb'.
Qed.
End invariants.

Lemma hist_refl i m : hist i m m.
Proof. by intros k Hk He. Qed.

(** Validation against the current version makes every read valid. *)
Lemma passes_valid_ver i0 m0 m rs re :
  hist i0 m0 m → bounded i0 m0 → reads_from m0 rs →
  re ∈ rs → passes (ver m (re_Key re)) re → read_valid m0 m re.
Proof.
  intros Hh Hb Hrs Hin Hp. unfold reads_from in Hrs. rewrite Forall_forall in Hrs.
  destruct (Hrs re Hin) as [Hr He]. destruct Hp as [Hp|Hp].
  - left. apply Hh; [done|]. specialize (Hb _ Hr). lia.
  - right. unfold exempt in Hp. apply andb_true_iff in Hp as [? ?]. done.
Qed.

Lemma detectConflict_false ke sh rs :
  detectConflict ke sh rs = false → Forall (fun re => passes (epoch_of ke (re_Key re)) re) rs.
Proof.
  induction rs as [|re rs IH]; intros Hd; [constructor|]. simpl in Hd.
  destruct (re_Epoch re <? Epoch (epoch_of ke (re_Key re))) eqn:E1; simpl in Hd.
  - destruct (exempt (epoch_of ke (re_Key re)) re) eqn:E2; [|done].
    constructor; [by right|]. apply IH. repeat case_match; done.
  - constructor; [left; lia|]. apply IH. repeat case_match; done.
Qed.
