(* ===== verification/Direct.v ===== *)
(** * The direct proposer (src/conductor/direct.go)

    Single-node mode: proposals are drained from a channel into batches, checked
    for conflicts in order, and committed to the engine in one batch. A batch of
    at most 64 entries uses a fixed-size array of the keys written so far, a
    larger one the FSM's shadow map. Pools and telemetry are left out; the
    result channels are the list of results, one per entry. *)

From S2P Require Import Prelude Types Wire EngineSpec Fsm Occ.

Definition maxStackShadow : nat := 64.
Definition maxBatchSize : nat := 2048.

(** The stack shadow: entries in the order they were added. *)
Abbreviation stack := (list (list Init.Byte.byte * EpochRecord)).

(** [for j := 0; j < shadowLen; j++ { if stackShadow[j].key == k ... break }] *)
Fixpoint stack_find (sh : stack) (k : bytes) : option EpochRecord :=
  match sh with
  | [] => None
  | (k', er) :: sh' => if decide (k' = k) then Some er else stack_find sh' k
  end.

(** The conflict loop of the small-batch path: a stale epoch ends it, a shadow
    hit only sets the flag. *)
Fixpoint stack_conflict (ke : epochs) (sh : stack) (rs : list ReadEntry) (conflict : bool) : bool :=
  match rs with
  | [] => conflict
  | re :: rs' =>
      let c := epoch_of ke (re_Key re) in
      if (re_Epoch re <? Epoch c) && negb (exempt c re) then true
      else
        let conflict := match stack_find sh (re_Key re) with
                        | Some s => if negb (exempt s re) then true else conflict
                        | None => conflict
                        end in
        stack_conflict ke sh rs' conflict
  end.

Section direct.
Context {Eng Snap Bat : Type} `{StorageEngine Eng Snap Bat}.
Context {Clock : Type} (clock_Observe : Clock → Z → Z → Clock).

Record directProposer := {
  d_fsm : dpxFSM Eng Clock;
  d_closed : bool;
  d_index : Z;
}.

Definition set_fsm (d : directProposer) (f : dpxFSM Eng Clock) : directProposer :=
  {| d_fsm := f; d_closed := d_closed d; d_index := d_index d |}.
Definition set_index (d : directProposer) (i : Z) : directProposer :=
  {| d_fsm := d_fsm d; d_closed := d_closed d; d_index := i |}.

(** newDirectProposer: the FSM is opened on the engine, and [index] starts at
    its zero value. *)
Definition newDirectProposer (eng : Eng) (sp : SyncPolicy) (watchers : bool) (metrics : option Z)
    (clock : Clock) : result OpenErr directProposer :=
  let f := newFSM eng sp watchers metrics clock in
  let f := {| f_applied := f_applied f; f_engine := f_engine f; f_keyEpoch := f_keyEpoch f;
              f_syncPolicy := f_syncPolicy f; f_clock := f_clock f; f_watchers := f_watchers f;
              f_metrics := f_metrics f; f_skipHLC := true |} in
  let! f := open (fun _ => false) f in
  Ok {| d_fsm := f; d_closed := false; d_index := 0 |}.

(** *** The small-batch path *)

(** The writes of an accepted entry. The switch has no default case: an
    unknown operation adds nothing to the batch but is still versioned. *)
Fixpoint stack_writes (idx : Z) (ws : list WriteEntry) (bat : Bat) (sh : stack) (ke : epochs) :
    Bat * stack * epochs :=
  match ws with
  | [] => (bat, sh, ke)
  | w :: ws' =>
      let bat := match write_op w with
                 | Some (BSet k v) => bat_Set bat k v
                 | Some (BDelete k) => bat_Delete bat k
                 | Some (BMerge k v) => bat_Merge bat k v
                 | None => bat
                 end in
      let er := write_epoch idx w in
      let bat := bat_Set bat (versionKey (we_Key w)) (encodeEpochRecord er) in
      let sh := if decide (length sh < maxStackShadow)%nat then sh ++ [(we_Key w, er)] else sh in
      stack_writes idx ws' bat sh (<[we_Key w := er]> ke)
  end.

(** One entry: [d.index++], the clock, conflict detection, the writes. *)
Definition small_entry (d : directProposer) (bat : Bat) (sh : stack) (hasWrite : bool) (p : Proposal) :
    directProposer * Bat * stack * bool * ApplyResult :=
  let d := set_index d (u64 (d_index d + 1)) in
  let idx := d_index d in
  let d := set_fsm d (observe clock_Observe (d_fsm d) p) in
  if stack_conflict (f_keyEpoch (d_fsm d)) sh (ReadSet p) false then
    (set_fsm d (count_conflict (d_fsm d)), bat, sh, hasWrite, res_conflict)
  else
    let '(bat, sh, ke) := stack_writes idx (Writes p) bat sh (f_keyEpoch (d_fsm d)) in
    (set_fsm d (set_keyEpoch (d_fsm d) ke), bat_Set bat appliedKey (encodeUint64 idx), sh, true, res_ok).

Fixpoint small_batch (d : directProposer) (bat : Bat) (sh : stack) (hasWrite : bool)
    (ps : list Proposal) : directProposer * Bat * bool * list ApplyResult :=
  match ps with
  | [] => (d, bat, hasWrite, [])
  | p :: ps' =>
      let '(d, bat, sh, hasWrite, r) := small_entry d bat sh hasWrite p in
      let '(d, bat, hasWrite, rs) := small_batch d bat sh hasWrite ps' in
      (d, bat, hasWrite, r :: rs)
  end.

(** *** The large-batch path *)

Definition large_entry (d : directProposer) (bat : Bat) (shadow : epochs) (hasWrite : bool)
    (p : Proposal) : directProposer * Bat * epochs * bool * ApplyResult :=
  let d := set_index d (u64 (d_index d + 1)) in
  let idx := d_index d in
  let d := set_fsm d (observe clock_Observe (d_fsm d) p) in
  if detectConflict (f_keyEpoch (d_fsm d)) shadow (ReadSet p) then
    (set_fsm d (count_conflict (d_fsm d)), bat, shadow, hasWrite, res_conflict)
  else
    let '(bat, shadow, ke, err) := applyProposalToBatch idx p bat shadow (f_keyEpoch (d_fsm d)) in
    let d := set_fsm d (set_keyEpoch (d_fsm d) ke) in
    match err with
    | Some e => (d, bat, shadow, hasWrite, res_err e)
    | None => (d, bat, shadow, true, res_ok)
    end.

Fixpoint large_batch (d : directProposer) (bat : Bat) (shadow : epochs) (hasWrite : bool)
    (ps : list Proposal) : directProposer * Bat * bool * list ApplyResult :=
  match ps with
  | [] => (d, bat, hasWrite, [])
  | p :: ps' =>
      let '(d, bat, shadow, hasWrite, r) := large_entry d bat shadow hasWrite p in
      let '(d, bat, hasWrite, rs) := large_batch d bat shadow hasWrite ps' in
      (d, bat, hasWrite, r :: rs)
  end.

(** *** Commit and delivery *)

(** The engine commit of the batch: an error replaces every success. *)
Definition commit_batch (d : directProposer) (bat : Bat) (rs : list ApplyResult) :
    directProposer * list ApplyResult :=
  let f := d_fsm d in
  let '(eng, err) := eng_ApplyBatch (f_engine f) bat (bool_decide (f_syncPolicy f = SyncFull)) in
  let f := set_engine f eng in
  match err with
  | Some e => (set_fsm d f, map (fun r => if is_ok r then res_err (ErrApply e) else r) rs)
  | None =>
      let f := set_applied f (d_index d) in
      (* the result of [Sync] is not looked at *)
      let _ := if decide (f_syncPolicy f = SyncBatch) then eng_Sync (f_engine f) else None in
      (set_fsm d f, rs)
  end.

(** The writes of the successful entries, in order, for the watchers. *)
Definition notified (f : dpxFSM Eng Clock) (ps : list Proposal) (rs : list ApplyResult) :
    list (list WriteEntry) :=
  if f_watchers f then
    omap (fun '(p, r) => if is_ok r then Some (Writes p) else None) (combine ps rs)
  else [].

(** (d *directProposer) applyBatchDirect *)
Definition applyBatchDirect (d : directProposer) (ps : list Proposal) :
    directProposer * list ApplyResult * list (list WriteEntry) :=
  let engBatch := eng_NewBatch (f_engine (d_fsm d)) in
  let '(d, bat, hasWrite, rs) :=
    if decide (length ps ≤ maxStackShadow)%nat then small_batch d engBatch [] false ps
    else large_batch d engBatch ∅ false ps in
  let '(d, rs) := if hasWrite : bool then commit_batch d bat rs else (d, rs) in
  (d, rs, notified (d_fsm d) ps rs).

(** (d *directProposer) ApplyOneDirect *)
Definition ApplyOneDirect (d : directProposer) (p : Proposal) :
    directProposer * option ApplyResult :=
  let '(d, rs, _) := applyBatchDirect d [p] in (d, head rs).
End direct.

Arguments directProposer Eng Clock : clear implicits.

(** ** Correctness of a batch *)

(** The committed entries of a batch that starts at index [i]: the proposals
    whose result is a success, with the index each was given. *)
Fixpoint accepted (i : Z) (ps : list Proposal) (rs : list ApplyResult) : list (Z * Proposal) :=
  match ps, rs with
  | p :: ps', r :: rs' => (if is_ok r then [(i + 1, p)] else []) ++ accepted (i + 1) ps' rs'
  | _, _ => []
  end.

(** What a client may submit: writes of known operations to unreserved keys. *)
Definition client_writes (ws : list WriteEntry) : Prop :=
  Forall (fun w => isReserved (we_Key w) = false ∧ known_op (we_Op w)) ws.

Definition client_proposal (p : Proposal) : Prop := client_writes (Writes p).

Lemma client_user ws : client_writes ws → user_writes ws.
Proof. intros Hw. eapply Forall_impl; [exact Hw|]. naive_solver. Qed.

Lemma known_write_op w : known_op (we_Op w) → ∃ o, write_op w = Some o.
Proof.
  unfold known_op, write_op. intros [E|[E|[E|E]]]; rewrite E; simpl; eauto.
Qed.

(** Every committed proposal passed validation at its place in the serial order. *)
Definition validated (m : store) (cs : list (Z * Proposal)) : Prop :=
  ∀ cs1 c cs2, cs = cs1 ++ c :: cs2 →
    Forall (fun re => isReserved (re_Key re) = false →
                      passes (ver (commits m cs1) (re_Key re)) re) (ReadSet c.2).

Lemma commits_snoc m cs c : commits m (cs ++ [c]) = commit (commits m cs) c.
Proof. unfold commits. by rewrite foldl_app. Qed.

Lemma validated_snoc m cs c :
  validated m cs →
  Forall (fun re => isReserved (re_Key re) = false → passes (ver (commits m cs) (re_Key re)) re)
    (ReadSet c.2) →
  validated m (cs ++ [c]).
Proof.
  intros Hv Hc cs1 c' cs2 E. destruct cs2 as [|c2 cs2 _] using rev_ind.
  - apply app_inj_tail in E as [-> ->]. done.
  - rewrite app_comm_cons, app_assoc in E. apply app_inj_tail in E as [-> _]. by eapply Hv.
Qed.

(** The shadow can only add conflicts. *)
Lemma stack_conflict_true ke sh rs : stack_conflict ke sh rs true = true.
Proof.
  induction rs as [|re rs IH]; [done|]. simpl. case_match; [done|].
  destruct (stack_find sh (re_Key re)); [case_match|]; done.
Qed.

Lemma stack_conflict_false ke sh rs :
  stack_conflict ke sh rs false = false →
  Forall (fun re => passes (epoch_of ke (re_Key re)) re) rs.
Proof.
  induction rs as [|re rs IH]; intros Hd; [constructor|]. simpl in Hd.
  destruct (re_Epoch re <? Epoch (epoch_of ke (re_Key re))) eqn:E1; simpl in Hd.
  - destruct (exempt (epoch_of ke (re_Key re)) re) eqn:E2; [|done]. simpl in Hd.
    constructor; [by right|]. apply IH.
    repeat case_match; try done; by rewrite stack_conflict_true in Hd.
  - constructor; [left; lia|]. apply IH.
    repeat case_match; try done; by rewrite stack_conflict_true in Hd.
Qed.

(** Validation without a shadow is exact. *)
Lemma stack_conflict_exact ke rs :
  stack_conflict ke [] rs false = false ↔ Forall (fun re => passes (epoch_of ke (re_Key re)) re) rs.
Proof.
  split; [apply stack_conflict_false|].
  induction 1 as [|re rs Hp _ IH]; [done|]. simpl.
  assert ((re_Epoch re <? Epoch (epoch_of ke (re_Key re))) && negb (exempt (epoch_of ke (re_Key re)) re) = false)
    as -> by (destruct Hp as [Hp| ->]; [rewrite (proj2 (Z.ltb_ge _ _)) by lia; done|apply andb_false_r]).
  done.
Qed.

Section correctness.
Context {Eng Snap Bat : Type} `{EngineLaws Eng Snap Bat}.
Context {Clock : Type} (clock_Observe : Clock → Z → Z → Clock).
Implicit Types d : directProposer Eng Clock.

(** The store and epoch map of a proposer. *)
Definition d_store d : store := eng_abs (f_engine (d_fsm d)).
Definition d_epochs d : epochs := f_keyEpoch (d_fsm d).

(** *** Engine errors in the results *)

(** Before the commit no result is an error of the engine. *)
Lemma small_batch_clean ps d bat sh hw d' bat' hw' rs :
  small_batch clock_Observe d bat sh hw ps = (d', bat', hw', rs) → no_engine_error rs.
Proof.
  revert d bat sh hw d' bat' hw' rs. induction ps as [|p ps IH]; intros d bat sh hw d' bat' hw' rs; simpl.
  { intros [= <- <- <- <-]. constructor. }
  destruct (small_entry _ _ _ _ _ _) as [[[[d1 bat1] sh1] hw1] r] eqn:E.
  destruct (small_batch _ _ _ _ _ _) as [[[d2 bat2] hw2] rs2] eqn:E2. intros [= <- <- <- <-].
  constructor; [|by eapply IH]. unfold small_entry in E.
  destruct (stack_conflict _ _ _ _); [by simplify_eq|]. destruct (stack_writes _ _ _ _ _) as [[??]?]. by simplify_eq.
Qed.

Lemma apply_writes_err idx ws (bat bat' : Bat) shadow ke shadow' ke' e :
  apply_writes idx ws bat shadow ke = (bat', shadow', ke', Some e) → ∃ op i, e = ErrUnknownOp op i.
Proof.
  revert bat shadow ke. induction ws as [|w ws IH]; intros bat shadow ke; simpl; [done|].
  destruct (write_op w) as [[]|]; eauto. intros [= _ _ _ <-]. eauto.
Qed.

Lemma large_batch_clean ps d bat sh hw d' bat' hw' rs :
  large_batch clock_Observe d bat sh hw ps = (d', bat', hw', rs) → no_engine_error rs.
Proof.
  revert d bat sh hw d' bat' hw' rs. induction ps as [|p ps IH]; intros d bat sh hw d' bat' hw' rs; simpl.
  { intros [= <- <- <- <-]. constructor. }
  destruct (large_entry _ _ _ _ _ _) as [[[[d1 bat1] sh1] hw1] r] eqn:E.
  destruct (large_batch _ _ _ _ _ _) as [[[d2 bat2] hw2] rs2] eqn:E2. intros [= <- <- <- <-].
  constructor; [|by eapply IH]. unfold large_entry in E. destruct (detectConflict _ _ _); [by simplify_eq|].
  unfold applyProposalToBatch in E. destruct (apply_writes _ _ _ _ _) as [[[??]?] [e|]] eqn:Ew; simplify_eq; [|done].
  apply apply_writes_err in Ew as (op & i & ->). done.
Qed.

(** Every proposal has a result, engine errors or not. *)
Lemma small_batch_length ps d bat sh hw d' bat' hw' rs :
  small_batch clock_Observe d bat sh hw ps = (d', bat', hw', rs) → length rs = length ps.
Proof.
  revert d bat sh hw d' bat' hw' rs. induction ps as [|p ps IH]; intros d bat sh hw d' bat' hw' rs; simpl.
  { by intros [= <- <- <- <-]. }
  destruct (small_entry _ _ _ _ _ _) as [[[[d1 bat1] sh1] hw1] r].
  destruct (small_batch _ _ _ _ _ _) as [[[d2 bat2] hw2] rs2] eqn:E2. intros [= <- <- <- <-]. simpl. f_equal. by eapply IH.
Qed.

Lemma large_batch_length ps d bat sh hw d' bat' hw' rs :
  large_batch clock_Observe d bat sh hw ps = (d', bat', hw', rs) → length rs = length ps.
Proof.
  revert d bat sh hw d' bat' hw' rs. induction ps as [|p ps IH]; intros d bat sh hw d' bat' hw' rs; simpl.
  { by intros [= <- <- <- <-]. }
  destruct (large_entry _ _ _ _ _ _) as [[[[d1 bat1] sh1] hw1] r].
  destruct (large_batch _ _ _ _ _ _) as [[[d2 bat2] hw2] rs2] eqn:E2. intros [= <- <- <- <-]. simpl. f_equal. by eapply IH.
Qed.

Lemma applyBatchDirect_length d ps d' rs ns :
  applyBatchDirect clock_Observe d ps = (d', rs, ns) → length rs = length ps.
Proof.
  unfold applyBatchDirect. destruct (if decide _ then _ else _) as [[[d1 bat] hw] rs1] eqn:E.
  assert (length rs1 = length ps) as <- by (case_decide; [by eapply small_batch_length|by eapply large_batch_length]).
  destruct hw; [|by intros [= _ <- _]]. unfold commit_batch.
  destruct (eng_ApplyBatch _ _ _) as [eng [er|]]; intros [= _ <- _]; [apply length_map|done].
Qed.

(** A commit that fails shows in the results of the entries it was to commit. *)
Lemma commit_batch_err i d bat ps rs d' rs' :
  accepted i ps rs ≠ [] → commit_batch d bat rs = (d', rs') → no_engine_error rs' →
  (eng_ApplyBatch (f_engine (d_fsm d)) bat (bool_decide (f_syncPolicy (d_fsm d) = SyncFull))).2 = None.
Proof.
  unfold commit_batch. destruct (eng_ApplyBatch _ _ _) as [eng [e|]]; [|done]. intros Hne [= _ <-] Hno.
  exfalso. revert i ps Hne. induction rs as [|r rs IH]; intros i ps Hne; [by destruct ps|].
  destruct ps as [|p ps]; [done|]. simpl in Hno, Hne. apply Forall_cons in Hno as [Hr Hno].
  destruct (is_ok r) eqn:E; [done|]. by apply (IH Hno (i + 1) ps).
Qed.

(** *** Filling the batch *)

Lemma bat_write_is e bat ops w idx :
  bat_is e bat ops →
  bat_is e (bat_Set (match write_op w with
                     | Some (BSet k v) => bat_Set bat k v
                     | Some (BDelete k) => bat_Delete bat k
                     | Some (BMerge k v) => bat_Merge bat k v
                     | None => bat
                     end) (versionKey (we_Key w)) (encodeEpochRecord (write_epoch idx w)))
    (ops ++ write_ops idx w).
Proof.
  intros Hb. unfold write_ops. destruct (write_op w) as [o|].
  - rewrite app_assoc. apply (bat_is_add e _ _ (version_op idx w)).
    pose proof (bat_is_add e _ _ o Hb). by destruct o.
  - by apply (bat_is_add e _ _ (version_op idx w)).
Qed.

Lemma stack_writes_spec e idx ws bat ops sh ke :
  bat_is e bat ops →
  ∃ bat' sh', stack_writes idx ws bat sh ke = (bat', sh', epochs_after idx ws ke)
    ∧ bat_is e bat' (ops ++ writes_ops idx ws).
Proof.
  revert bat ops sh ke. induction ws as [|w ws IH]; intros bat ops sh ke Hb; simpl.
  { exists bat, sh. by rewrite app_nil_r. }
  edestruct (IH _ _ (if decide (length sh < maxStackShadow)%nat
                     then sh ++ [(we_Key w, write_epoch idx w)] else sh)
    (<[we_Key w := write_epoch idx w]> ke) (bat_write_is e bat ops w idx Hb))
    as (bat' & sh' & -> & Hb').
  exists bat', sh'. split; [done|]. by rewrite <- app_assoc in Hb'.
Qed.

Lemma apply_writes_spec e idx ws bat ops shadow ke :
  client_writes ws → bat_is e bat ops →
  ∃ bat', apply_writes idx ws bat shadow ke
          = (bat', epochs_after idx ws shadow, epochs_after idx ws ke, None)
    ∧ bat_is e bat' (ops ++ writes_ops idx ws).
Proof.
  intros Hw. revert bat ops shadow ke.
  induction Hw as [|w ws [_ Hk] _ IH]; intros bat ops shadow ke Hb; simpl.
  { exists bat. by rewrite app_nil_r. }
  pose proof (bat_write_is e bat ops w idx Hb) as Hb1.
  destruct (known_write_op w Hk) as [o Ho]. rewrite Ho in *.
  edestruct (IH _ _ (<[we_Key w := write_epoch idx w]> shadow)
    (<[we_Key w := write_epoch idx w]> ke) Hb1) as (bat' & -> & Hb').
  exists bat'. split; [done|]. by rewrite <- app_assoc in Hb'.
Qed.

(** *** The loop invariant

    [m] is the store at the start of the batch; [cs] what has been committed. *)
Record loop_inv (e : Eng) (m : store) (d : directProposer Eng Clock) (bat : Bat) (hasWrite : bool)
    (cs : list (Z * Proposal)) : Prop := {
  li_engine : f_engine (d_fsm d) = e;
  li_bat : bat_is e bat (concat (map (fun c => commit_ops c.1 (Writes c.2)) cs));
  li_ke : ke_ok (d_epochs d) (commits m cs);
  li_bounded : bounded (d_index d) (commits m cs);
  li_valid : validated m cs;
  li_has : hasWrite = negb (bool_decide (cs = []));
}.

Lemma loop_inv_conflict e m d d' bat hw cs :
  loop_inv e m d bat hw cs → f_engine (d_fsm d') = e → d_epochs d' = d_epochs d →
  d_index d <= d_index d' → loop_inv e m d' bat hw cs.
Proof.
  intros [] He Hk Hi. split; try done; [by rewrite Hk|].
  intros k Hr. specialize (li_bounded0 k Hr). lia.
Qed.

Lemma loop_inv_commit e m d d' bat bat' hw cs p idx :
  loop_inv e m d bat hw cs → user_writes (Writes p) → is_u64 idx → d_index d <= idx →
  f_engine (d_fsm d') = e → d_index d' = idx →
  d_epochs d' = epochs_after idx (Writes p) (d_epochs d) →
  bat_is e bat' (concat (map (fun c => commit_ops c.1 (Writes c.2)) cs) ++ writes_ops idx (Writes p)) →
  Forall (fun re => passes (epoch_of (d_epochs d) (re_Key re)) re) (ReadSet p) →
  loop_inv e m d' (bat_Set bat' appliedKey (encodeUint64 idx)) true (cs ++ [(idx, p)]).
Proof.
  intros [] Hw Hu Hle He Hi Hk Hb Hp. split.
  - done.
  - rewrite map_app, concat_app. simpl. rewrite app_nil_r. unfold commit_ops.
    rewrite app_assoc. by apply (bat_is_add e _ _ (applied_op idx)).
  - rewrite Hk, commits_snoc. by apply ke_ok_commit.
  - rewrite Hi, commits_snoc. by eapply bounded_commit.
  - apply validated_snoc; [done|]. eapply Forall_impl; [exact Hp|].
    intros re Hre Hr. by rewrite <- li_ke0.
  - by destruct cs.
Qed.

Lemma observe_fields (f : dpxFSM Eng Clock) p :
  f_engine (observe clock_Observe f p) = f_engine f
  ∧ f_keyEpoch (observe clock_Observe f p) = f_keyEpoch f.
Proof. unfold observe. by destruct (_ && _). Qed.

Lemma small_entry_inv e m d bat sh hw cs p :
  loop_inv e m d bat hw cs → client_proposal p → 0 <= d_index d → d_index d + 1 < 2 ^ 64 →
  ∃ d' bat' sh' hw' r,
    small_entry clock_Observe d bat sh hw p = (d', bat', sh', hw', r)
    ∧ d_index d' = d_index d + 1
    ∧ loop_inv e m d' bat' hw' (cs ++ if is_ok r then [(d_index d + 1, p)] else []).
Proof.
  intros Hli Hp Hi Hb. unfold small_entry. cbn [d_index set_index set_fsm].
  rewrite (u64_small (d_index d + 1)) by width_lia. cbn [d_fsm set_index set_fsm].
  destruct (observe_fields (d_fsm d) p) as [Eo Ek].
  destruct (stack_conflict _ _ _ _) eqn:Ec.
  - do 5 eexists. split; [reflexivity|]. split; [done|]. simpl. rewrite app_nil_r.
    eapply loop_inv_conflict; [done| |done|simpl; lia].
    simpl. rewrite Eo. by destruct Hli.
  - apply stack_conflict_false in Ec. rewrite Ek in Ec |- *.
    destruct (stack_writes_spec e (d_index d + 1) (Writes p) bat _ sh (f_keyEpoch (d_fsm d))
      (li_bat _ _ _ _ _ _ Hli)) as (bat' & sh' & -> & Hb').
    do 5 eexists. split; [reflexivity|]. split; [done|]. simpl.
    eapply loop_inv_commit; try done; try (simpl; lia).
    + by apply client_user.
    + width_lia.
    + simpl. rewrite Eo. by destruct Hli.
Qed.

Lemma large_entry_inv e m d bat sh hw cs p :
  loop_inv e m d bat hw cs → client_proposal p → 0 <= d_index d → d_index d + 1 < 2 ^ 64 →
  ∃ d' bat' sh' hw' r,
    large_entry clock_Observe d bat sh hw p = (d', bat', sh', hw', r)
    ∧ d_index d' = d_index d + 1
    ∧ loop_inv e m d' bat' hw' (cs ++ if is_ok r then [(d_index d + 1, p)] else []).
Proof.
  intros Hli Hp Hi Hb. unfold large_entry. cbn [d_index set_index set_fsm].
  rewrite (u64_small (d_index d + 1)) by width_lia. cbn [d_fsm set_index set_fsm].
  destruct (observe_fields (d_fsm d) p) as [Eo Ek].
  destruct (detectConflict _ _ _) eqn:Ec.
  - do 5 eexists. split; [reflexivity|]. split; [done|]. simpl. rewrite app_nil_r.
    eapply loop_inv_conflict; [done| |done|simpl; lia].
    simpl. rewrite Eo. by destruct Hli.
  - apply detectConflict_false in Ec. rewrite Ek in Ec |- *. unfold applyProposalToBatch.
    destruct (apply_writes_spec e (d_index d + 1) (Writes p) bat _ sh (f_keyEpoch (d_fsm d))
      Hp (li_bat _ _ _ _ _ _ Hli)) as (bat' & -> & Hb').
    do 5 eexists. split; [reflexivity|]. split; [done|]. simpl.
    eapply loop_inv_commit; try done; try (simpl; lia).
    + by apply client_user.
    + width_lia.
    + simpl. rewrite Eo. by destruct Hli.
Qed.

(** Both loops, over a whole batch. *)
Lemma small_batch_inv e m ps d bat sh hw cs :
  loop_inv e m d bat hw cs → Forall client_proposal ps → 0 <= d_index d →
  d_index d + Z.of_nat (length ps) < 2 ^ 64 →
  ∃ d' bat' hw' rs,
    small_batch clock_Observe d bat sh hw ps = (d', bat', hw', rs)
    ∧ length rs = length ps ∧ d_index d' = d_index d + Z.of_nat (length ps)
    ∧ loop_inv e m d' bat' hw' (cs ++ accepted (d_index d) ps rs).
Proof.
  intros Hli Hps. revert d bat sh hw cs Hli.
  induction Hps as [|p ps Hp _ IH]; intros d bat sh hw cs Hli Hi Hb; simpl.
  { exists d, bat, hw, []. rewrite app_nil_r. split_and!; try done; lia. }
  simpl in Hb.
  destruct (small_entry_inv e m d bat sh hw cs p Hli Hp) as (d1 & bat1 & sh1 & hw1 & r & -> & E1 & Hli1);
    [lia|lia|].
  destruct (IH d1 bat1 sh1 hw1 _ Hli1) as (d2 & bat2 & hw2 & rs & -> & Hlen & E2 & Hli2); [lia|lia|].
  exists d2, bat2, hw2, (r :: rs). rewrite E1, <- app_assoc in Hli2.
  split_and!; try done; simpl; lia.
Qed.

Lemma large_batch_inv e m ps d bat sh hw cs :
  loop_inv e m d bat hw cs → Forall client_proposal ps → 0 <= d_index d →
  d_index d + Z.of_nat (length ps) < 2 ^ 64 →
  ∃ d' bat' hw' rs,
    large_batch clock_Observe d bat sh hw ps = (d', bat', hw', rs)
    ∧ length rs = length ps ∧ d_index d' = d_index d + Z.of_nat (length ps)
    ∧ loop_inv e m d' bat' hw' (cs ++ accepted (d_index d) ps rs).
Proof.
  intros Hli Hps. revert d bat sh hw cs Hli.
  induction Hps as [|p ps Hp _ IH]; intros d bat sh hw cs Hli Hi Hb; simpl.
  { exists d, bat, hw, []. rewrite app_nil_r. split_and!; try done; lia. }
  simpl in Hb.
  destruct (large_entry_inv e m d bat sh hw cs p Hli Hp) as (d1 & bat1 & sh1 & hw1 & r & -> & E1 & Hli1);
    [lia|lia|].
  destruct (IH d1 bat1 sh1 hw1 _ Hli1) as (d2 & bat2 & hw2 & rs & -> & Hlen & E2 & Hli2); [lia|lia|].
  exists d2, bat2, hw2, (r :: rs). rewrite E1, <- app_assoc in Hli2.
  split_and!; try done; simpl; lia.
Qed.

(** ** The proposer's invariant *)

Record dinv d : Prop := {
  di_engine : eng_inv (f_engine (d_fsm d));
  di_ke : ke_ok (d_epochs d) (d_store d);
  di_index : 0 <= d_index d;
  di_bounded : bounded (d_index d) (d_store d);
}.

Lemma loop_inv_start d :
  dinv d → loop_inv (f_engine (d_fsm d)) (d_store d) d (eng_NewBatch (f_engine (d_fsm d))) false [].
Proof.
  intros []. split; try done; [apply bat_is_new|]. intros cs1 c cs2 E. by destruct cs1.
Qed.

Lemma spec_ops_commits m cs :
  spec_ops m (concat (map (fun c => commit_ops c.1 (Writes c.2)) cs)) = commits m cs.
Proof.
  revert m. induction cs as [|c cs IH]; intros m; [done|]. simpl. by rewrite spec_ops_app, IH.
Qed.

(** With no engine error among its results, the store after a batch is the
    serial execution of its accepted entries, each of which was validated at its
    place. *)
Lemma applyBatchDirect_spec d ps d' rs ns :
  dinv d → Forall client_proposal ps → d_index d + Z.of_nat (length ps) < 2 ^ 64 →
  applyBatchDirect clock_Observe d ps = (d', rs, ns) → no_engine_error rs →
  dinv d' ∧ length rs = length ps ∧ d_index d' = d_index d + Z.of_nat (length ps)
  ∧ d_store d' = commits (d_store d) (accepted (d_index d) ps rs)
  ∧ validated (d_store d) (accepted (d_index d) ps rs).
Proof.
  intros Hd Hps Hb Ha Hno. pose proof (loop_inv_start d Hd) as Hli. unfold applyBatchDirect in Ha.
  set (run := if decide _ then _ else _) in Ha.
  assert (∃ d1 bat hw rs1, run = (d1, bat, hw, rs1) ∧ length rs1 = length ps
    ∧ d_index d1 = d_index d + Z.of_nat (length ps)
    ∧ loop_inv (f_engine (d_fsm d)) (d_store d) d1 bat hw (accepted (d_index d) ps rs1))
    as (d1 & bat & hw & rs1 & Erun & Hlen & Hidx & Hli1).
  { unfold run. case_decide.
    - eapply (small_batch_inv _ _ ps d _ [] false []); try done; apply Hd.
    - eapply (large_batch_inv _ _ ps d _ ∅ false []); try done; apply Hd. }
  rewrite Erun in Ha. clear run Erun. destruct Hli1 as [He Hbat Hke Hbd Hval Hhas].
  destruct hw.
  - destruct (commit_batch d1 bat rs1) as [d2 rs2] eqn:Ecb. simplify_eq.
    apply eq_sym, negb_true_iff, bool_decide_eq_false in Hhas.
    pose proof (commit_batch_err _ _ _ _ _ _ _ Hhas Ecb Hno) as Herr.
    unfold commit_batch in Ecb. rewrite He in Ecb, Herr.
    destruct (eng_ApplyBatch (f_engine (d_fsm d)) bat _) as [eng err] eqn:Eapp.
    simpl in Herr. subst err. simplify_eq/=.
    destruct (bat_is_apply _ _ _ _ _ (di_engine _ Hd) Hbat Eapp) as [Hinv Habs].
    rewrite spec_ops_commits in Habs. change (eng_abs (f_engine (d_fsm d))) with (d_store d) in Habs.
    split_and!; [|done|done|done|done].
    split; unfold d_store, d_epochs in *; simpl in *; try done.
    + by rewrite Habs.
    + destruct Hd. lia.
    + by rewrite Habs.
  - simplify_eq. symmetry in Hhas. apply negb_false_iff, bool_decide_eq_true in Hhas.
    rewrite Hhas in *. assert (d_store d' = d_store d) as Es by (unfold d_store; by rewrite He).
    split_and!; try done. split; unfold d_epochs, d_store in *; rewrite ?He; try done.
    + apply Hd.
    + destruct Hd. lia.
Qed.

(** An engine without errors gives none. *)
Lemma applyBatchDirect_clean `{!InfallibleEngine Eng Snap Bat} d ps d' rs ns :
  dinv d → Forall client_proposal ps → d_index d + Z.of_nat (length ps) < 2 ^ 64 →
  applyBatchDirect clock_Observe d ps = (d', rs, ns) → no_engine_error rs.
Proof.
  intros Hd Hps Hb. pose proof (loop_inv_start d Hd) as Hli. unfold applyBatchDirect.
  set (run := if decide _ then _ else _).
  assert (∃ d1 bat hw rs1, run = (d1, bat, hw, rs1) ∧ no_engine_error rs1 ∧ f_engine (d_fsm d1) = f_engine (d_fsm d)
    ∧ bat_inv (f_engine (d_fsm d)) bat) as (d1 & bat & hw & rs1 & -> & Hno & He & Hbi).
  { unfold run. case_decide.
    - destruct (small_batch_inv _ _ ps d _ [] false [] Hli Hps (di_index _ Hd) Hb) as (d1 & bat & hw & rs1 & E & _ & _ & Hl).
      do 4 eexists. split_and!; [exact E|by eapply small_batch_clean|apply Hl|apply Hl].
    - destruct (large_batch_inv _ _ ps d _ ∅ false [] Hli Hps (di_index _ Hd) Hb) as (d1 & bat & hw & rs1 & E & _ & _ & Hl).
      do 4 eexists. split_and!; [exact E|by eapply large_batch_clean|apply Hl|apply Hl]. }
  destruct hw; [|by intros [= _ <- _]]. unfold commit_batch. rewrite He.
  pose proof (apply_no_error _ bat (bool_decide (f_syncPolicy (d_fsm d1) = SyncFull)) Hbi) as Hn.
  destruct (eng_ApplyBatch _ bat _) as [eng er]. simpl in Hn. subst er. by intros [= _ <- _].
Qed.

(** ** Reachable states *)

(** One batch of client proposals, within the range of the 64-bit index, none of
    which is answered with an engine error. *)
Inductive dstep d d' : Prop :=
  | dstep_batch ps rs ns :
      Forall client_proposal ps → d_index d + Z.of_nat (length ps) < 2 ^ 64 →
      applyBatchDirect clock_Observe d ps = (d', rs, ns) → no_engine_error rs → dstep d d'.

Definition dreach := rtc dstep.

Definition commit_wf (i0 : Z) (c : Z * Proposal) : Prop :=
  i0 < c.1 ∧ is_u64 c.1 ∧ user_writes (Writes c.2).

Lemma accepted_wf i i0 ps rs :
  Forall client_proposal ps → i0 <= i → 0 <= i → i + Z.of_nat (length ps) < 2 ^ 64 →
  Forall (commit_wf i0) (accepted i ps rs).
Proof.
  intros Hps. revert i rs. induction Hps as [|p ps Hp _ IH]; intros i rs H1 H2 H3; [constructor|].
  destruct rs as [|r rs]; [constructor|]. simpl in H3 |- *. apply Forall_app. split.
  - destruct (is_ok r); [|constructor]. constructor; [|constructor].
    split_and!; simpl; [lia|width_lia|by apply client_user].
  - apply IH; lia.
Qed.

Lemma hist_commits i0 m0 m cs :
  Forall (commit_wf i0) cs → hist i0 m0 m → hist i0 m0 (commits m cs).
Proof.
  intros Hcs. revert m. induction Hcs as [|c cs (Hi & Hu & Hw) _ IH]; intros m Hh; [done|].
  apply IH. by apply hist_commit.
Qed.

Lemma dreach_hist d0 d :
  dinv d0 → dreach d0 d →
  dinv d ∧ d_index d0 <= d_index d ∧ hist (d_index d0) (d_store d0) (d_store d).
Proof.
  intros Hd0 Hr. revert d Hr.
  apply (rtc_ind_r (fun d => dinv d ∧ d_index d0 <= d_index d
                            ∧ hist (d_index d0) (d_store d0) (d_store d))).
  { split_and!; [done|lia|apply hist_refl]. }
  intros d d' _ [ps rs ns Hps Hb Ha Hno] (Hd & Hi & Hh).
  destruct (applyBatchDirect_spec d ps d' rs ns Hd Hps Hb Ha Hno) as (Hd' & _ & Hi' & Hs & _).
  split_and!; [done|lia|]. rewrite Hs. apply hist_commits; [|done].
  apply accepted_wf; [done|lia|apply Hd|done].
Qed.

(** The successful entries of a batch, in order, with their reads. *)
Lemma direct_batch_serial d0 d ps d' rs ns :
  dinv d0 → dreach d0 d →
  Forall client_proposal ps → d_index d + Z.of_nat (length ps) < 2 ^ 64 →
  applyBatchDirect clock_Observe d ps = (d', rs, ns) → no_engine_error rs →
  let cs := accepted (d_index d) ps rs in
  d_store d' = commits (d_store d) cs ∧
  ∀ cs1 idx p cs2, cs = cs1 ++ (idx, p) :: cs2 →
    reads_from (d_store d0) (ReadSet p) →
    Forall (read_valid (d_store d0) (commits (d_store d) cs1)) (ReadSet p).
Proof.
  intros Hd0 Hr Hps Hb Ha Hno cs.
  destruct (dreach_hist d0 d Hd0 Hr) as (Hd & Hi & Hh).
  destruct (applyBatchDirect_spec d ps d' rs ns Hd Hps Hb Ha Hno) as (_ & _ & _ & Hs & Hv).
  split; [done|]. intros cs1 idx p cs2 E Hrf. specialize (Hv cs1 (idx, p) cs2 E).
  assert (Forall (commit_wf (d_index d0)) cs1) as Hcs1.
  { assert (Forall (commit_wf (d_index d0)) cs) as Hcs by (apply accepted_wf; try done; apply Hd).
    rewrite E in Hcs. by apply Forall_app in Hcs as [? _]. }
  rewrite Forall_forall in Hv |- *. intros re Hin.
  apply (passes_valid_ver (d_index d0) (d_store d0) _ (ReadSet p)); try done.
  - by apply hist_commits.
  - apply Hd0.
  - apply Hv; [done|]. unfold reads_from in Hrf. rewrite Forall_forall in Hrf. by apply Hrf.
Qed.

(** ** Properties *)

(** C2. Serializability of the direct proposer. Let [d0] be a good state (the
    in-memory epoch map agrees with the stored version records and the index is
    not below any version, which a reopened proposer does not ensure), in which
    a client took its snapshot, and let batches of client proposals (known
    operations on unreserved keys), none answered with an error of the engine,
    lead to [d], the 64-bit index not overflowing. The next such batch leaves
    exactly the store of executing its successful proposals one after the other;
    and each of those that was read in [d0] is valid where it stands in that
    order: every key it read plainly still has its snapshot value there, and
    every key it debited still has it or was last written by a credit. *)
Theorem direct_batch_serializable d0 d ps d' rs ns :
  dinv d0 → dreach d0 d →
  Forall client_proposal ps → d_index d + Z.of_nat (length ps) < 2 ^ 64 →
  applyBatchDirect clock_Observe d ps = (d', rs, ns) → no_engine_error rs →
  let cs := accepted (d_index d) ps rs in
  d_store d' = commits (d_store d) cs ∧
  ∀ cs1 idx p cs2, cs = cs1 ++ (idx, p) :: cs2 →
    reads_from (d_store d0) (ReadSet p) →
    Forall (read_valid (d_store d0) (commits (d_store d) cs1)) (ReadSet p).
Proof. apply direct_batch_serial. Qed.

(** C9. The invariant behind serializability is kept by every batch of client
    proposals that is answered without an error of the engine, while the 64-bit
    index does not overflow: the in-memory epoch map agrees with the version
    records in the engine, and no version exceeds the index. Every proposal gets
    a result and advances the index by one. (After a batch that the engine
    refused the epoch map is ahead of the records.) *)
Theorem direct_batch_invariant d ps d' rs ns :
  dinv d → Forall client_proposal ps → d_index d + Z.of_nat (length ps) < 2 ^ 64 →
  applyBatchDirect clock_Observe d ps = (d', rs, ns) → no_engine_error rs →
  dinv d' ∧ length rs = length ps ∧ d_index d' = d_index d + Z.of_nat (length ps).
Proof.
  intros Hd Hps Hb Ha Hno.
  destruct (applyBatchDirect_spec d ps d' rs ns Hd Hps Hb Ha Hno) as (? & ? & ? & _). done.
Qed.
End correctness.
