(* ===== verification/Failures.v ===== *)
(** * Failed commits (src/conductor/direct.go)

    The epoch map is updated while a batch is built, before the engine commits
    it. When the commit fails the epochs stay: the keys the batch wrote are newer
    in the proposer than in the store, and whoever reads them from the store is
    told to retry until the node is opened again. *)

From S2P Require Import Prelude Types Wire EngineSpec Badger Fsm Occ Direct.

(** The proposer believes [k] was written after index [i]. *)
Definition newer (ke : epochs) (k : bytes) (i : Z) : Prop := i < Epoch (epoch_of ke k).

Lemma newer_insert ke k k' er i : newer ke k i ∨ k = k' → i < Epoch er → newer (<[k' := er]> ke) k i.
Proof.
  intros Hk He. unfold newer, epoch_of in *. rewrite lookup_insert. case_decide; [done|].
  destruct Hk; [done|congruence].
Qed.

(** Reading a key older than the proposer's version is a conflict. *)
Lemma newer_conflict ke rs re i :
  re ∈ rs → newer ke (re_Key re) i → re_Epoch re <= i → re_IsDebit re = false →
  stack_conflict ke [] rs false = true.
Proof.
  intros Hin Hn He Hd. destruct (stack_conflict ke [] rs false) eqn:E; [done|].
  apply stack_conflict_exact in E. rewrite Forall_forall in E. apply E in Hin. unfold newer in Hn.
  destruct Hin as [Hp|Hp]; [lia|]. unfold exempt in Hp. rewrite Hd, andb_false_r in Hp. done.
Qed.

Section failures.
Context {Eng Snap Bat : Type} `{StorageEngine Eng Snap Bat}.
Context {Clock : Type} (clock_Observe : Clock → Z → Z → Clock).

(** What the epoch map holds after the writes of an accepted entry. *)
Definition epochs_cover (ke ke' : epochs) (ws : list WriteEntry) (i : Z) : Prop :=
  ∀ k, newer ke k i ∨ k ∈ map we_Key ws → newer ke' k i.

Lemma epochs_cover_cons idx w ws ke ke' i :
  i < idx → epochs_cover (<[we_Key w := write_epoch idx w]> ke) ke' ws i → epochs_cover ke ke' (w :: ws) i.
Proof.
  intros Hi Hc k Hk. apply Hc. simpl in Hk. rewrite elem_of_cons in Hk.
  destruct Hk as [Hk|[->|Hk]]; [|left; apply newer_insert; [by right|done]|by right].
  left. apply newer_insert; [by left|done].
Qed.

Lemma stack_writes_cover idx ws (bat bat' : Bat) sh sh' ke ke' i :
  i < idx → stack_writes idx ws bat sh ke = (bat', sh', ke') → epochs_cover ke ke' ws i.
Proof.
  intros Hi. revert bat sh ke. induction ws as [|w ws IH]; intros bat sh ke; simpl.
  { intros [= <- <- <-] k [?|?%elem_of_nil]; done. }
  intros Hs. apply IH in Hs. by eapply epochs_cover_cons.
Qed.

Lemma apply_writes_cover idx ws (bat bat' : Bat) sh sh' ke ke' err i :
  i < idx → apply_writes idx ws bat sh ke = (bat', sh', ke', err) →
  (∀ k, newer ke k i → newer ke' k i) ∧ (err = None → epochs_cover ke ke' ws i)
  ∧ (∀ e, err ≠ Some (ErrApply e)).
Proof.
  intros Hi. revert bat sh ke. induction ws as [|w ws IH]; intros bat sh ke; simpl.
  { intros [= <- <- <- <-]. split_and!; [done| |done]. intros _ k [?|?%elem_of_nil]; done. }
  destruct (write_op w); [|by intros [= <- <- <- <-]]. intros Hs. apply IH in Hs as (H1 & H2 & H3).
  split_and!; [| |done].
  - intros k Hk. apply H1, newer_insert; [by left|done].
  - intros He. by eapply epochs_cover_cons, H2.
Qed.

(** Both paths: epochs newer than the start of the batch are kept, and the keys
    of every accepted entry are newer. *)
Definition batch_cover (d d' : directProposer Eng Clock) (ps : list Proposal) (rs : list ApplyResult) (i : Z) : Prop :=
  (∀ k, newer (f_keyEpoch (d_fsm d)) k i → newer (f_keyEpoch (d_fsm d')) k i)
  ∧ (∀ j p r w, ps !! j = Some p → rs !! j = Some r → is_ok r = true → w ∈ Writes p →
       newer (f_keyEpoch (d_fsm d')) (we_Key w) i)
  ∧ Forall (fun r => ∀ e, r ≠ res_err (ErrApply e)) rs.

Lemma batch_cover_cons d d1 d' p ps r rs i :
  (∀ k, newer (f_keyEpoch (d_fsm d)) k i → newer (f_keyEpoch (d_fsm d1)) k i) →
  (is_ok r = true → epochs_cover (f_keyEpoch (d_fsm d)) (f_keyEpoch (d_fsm d1)) (Writes p) i) →
  (∀ e, r ≠ res_err (ErrApply e)) →
  batch_cover d1 d' ps rs i → batch_cover d d' (p :: ps) (r :: rs) i.
Proof.
  intros H1 H2 Hr' (H3 & H4 & H5). split_and!; [by auto| |by constructor]. intros [|j] q r' w Hp Hr Hok Hw; simplify_eq/=; [|by eapply H4].
  apply H3, H2; [done|]. right. apply list_elem_of_fmap. by exists w.
Qed.

Lemma small_entry_cover (d d' : directProposer Eng Clock) bat bat' sh sh' hw hw' p r i :
  0 <= i <= d_index d → d_index d + 1 < 2 ^ 64 →
  small_entry clock_Observe d bat sh hw p = (d', bat', sh', hw', r) →
  (∀ k, newer (f_keyEpoch (d_fsm d)) k i → newer (f_keyEpoch (d_fsm d')) k i)
  ∧ (is_ok r = true → epochs_cover (f_keyEpoch (d_fsm d)) (f_keyEpoch (d_fsm d')) (Writes p) i)
  ∧ (∀ e, r ≠ res_err (ErrApply e)) ∧ d_index d' = d_index d + 1.
Proof.
  intros Hi Hb. unfold small_entry.
  destruct (observe_fields clock_Observe (d_fsm d) p) as [_ Hke].
  cbn [d_fsm d_index set_index set_fsm]. rewrite Hke, u64_small by width_lia.
  case_match; [intros [= <- <- <- <- <-]; cbn; by rewrite Hke|].
  destruct (stack_writes _ _ _ _ _) as [[bat1 sh1] ke] eqn:E. apply (stack_writes_cover _ _ _ _ _ _ _ _ i) in E; [|lia].
  intros [= <- <- <- <- <-]. cbn. split_and!; [|done|done|done]. intros k Hk. apply E. by left.
Qed.

Lemma large_entry_cover (d d' : directProposer Eng Clock) bat bat' sh sh' hw hw' p r i :
  0 <= i <= d_index d → d_index d + 1 < 2 ^ 64 →
  large_entry clock_Observe d bat sh hw p = (d', bat', sh', hw', r) →
  (∀ k, newer (f_keyEpoch (d_fsm d)) k i → newer (f_keyEpoch (d_fsm d')) k i)
  ∧ (is_ok r = true → epochs_cover (f_keyEpoch (d_fsm d)) (f_keyEpoch (d_fsm d')) (Writes p) i)
  ∧ (∀ e, r ≠ res_err (ErrApply e)) ∧ d_index d' = d_index d + 1.
Proof.
  intros Hi Hb. unfold large_entry.
  destruct (observe_fields clock_Observe (d_fsm d) p) as [_ Hke].
  cbn [d_fsm d_index set_index set_fsm]. rewrite Hke, u64_small by width_lia.
  case_match; [intros [= <- <- <- <- <-]; cbn; by rewrite Hke|]. unfold applyProposalToBatch.
  destruct (apply_writes _ _ _ _ _) as [[[bat1 sh1] ke] err] eqn:E.
  apply (apply_writes_cover _ _ _ _ _ _ _ _ _ i) in E as (H1 & H2 & H3); [|lia].
  destruct err as [x|]; intros [= <- <- <- <- <-]; cbn; split_and!; try done; [|by auto].
  intros e [= ->]. by apply (H3 e).
Qed.

Lemma small_batch_cover ps (d d' : directProposer Eng Clock) bat bat' sh hw hw' rs i :
  0 <= i <= d_index d → d_index d + Z.of_nat (length ps) < 2 ^ 64 →
  small_batch clock_Observe d bat sh hw ps = (d', bat', hw', rs) → batch_cover d d' ps rs i.
Proof.
  revert d bat sh hw rs. induction ps as [|p ps IH]; intros d bat sh hw rs Hi Hb; simpl.
  { intros [= <- <- <- <-]. by split_and!. }
  cbn [length] in Hb. destruct (small_entry _ _ _ _ _ _) as [[[[d1 bat1] sh1] hw1] r] eqn:E.
  apply (small_entry_cover _ _ _ _ _ _ _ _ _ _ i) in E as (H1 & H2 & H3 & H4); [|lia..].
  destruct (small_batch _ d1 _ _ _ ps) as [[[d2 bat2] hw2] rs2] eqn:E2. intros [= <- <- <- <-].
  apply (batch_cover_cons d d1); [done..|]. eapply (IH d1); [lia|lia|exact E2].
Qed.

Lemma large_batch_cover ps (d d' : directProposer Eng Clock) bat bat' sh hw hw' rs i :
  0 <= i <= d_index d → d_index d + Z.of_nat (length ps) < 2 ^ 64 →
  large_batch clock_Observe d bat sh hw ps = (d', bat', hw', rs) → batch_cover d d' ps rs i.
Proof.
  revert d bat sh hw rs. induction ps as [|p ps IH]; intros d bat sh hw rs Hi Hb; simpl.
  { intros [= <- <- <- <-]. by split_and!. }
  cbn [length] in Hb. destruct (large_entry _ _ _ _ _ _) as [[[[d1 bat1] sh1] hw1] r] eqn:E.
  apply (large_entry_cover _ _ _ _ _ _ _ _ _ _ i) in E as (H1 & H2 & H3 & H4); [|lia..].
  destruct (large_batch _ d1 _ _ _ ps) as [[[d2 bat2] hw2] rs2] eqn:E2. intros [= <- <- <- <-].
  apply (batch_cover_cons d d1); [done..|]. eapply (IH d1); [lia|lia|exact E2].
Qed.

Lemma applyBatchDirect_failed (d d' : directProposer Eng Clock) ps rs ns j p e w :
  0 <= d_index d → d_index d + Z.of_nat (length ps) < 2 ^ 64 →
  applyBatchDirect clock_Observe d ps = (d', rs, ns) →
  ps !! j = Some p → rs !! j = Some (res_err (ErrApply e)) → w ∈ Writes p →
  newer (f_keyEpoch (d_fsm d')) (we_Key w) (d_index d).
Proof.
  intros Hi Hb Ha Hp Hr Hw. unfold applyBatchDirect in Ha.
  destruct (if decide _ then _ else _) as [[[d1 bat] hw] rs1] eqn:E.
  assert (batch_cover d d1 ps rs1 (d_index d)) as (_ & Hc & Hne).
  { case_decide; [eapply small_batch_cover|eapply large_batch_cover]; [lia|done|exact E|lia|done|exact E]. }
  rewrite Forall_forall in Hne.
  assert (∀ x, x ∈ rs1 → x ≠ res_err (ErrApply e)) as Hx by (intros x Hin; by apply Hne).
  destruct hw; [|simplify_eq; by apply list_elem_of_lookup_2, Hx in Hr].
  unfold commit_batch in Ha. destruct (eng_ApplyBatch _ _ _) as [eng' [er|]]; simplify_eq;
    [|by apply list_elem_of_lookup_2, Hx in Hr].
  cbn. rewrite list_lookup_fmap in Hr. destruct (rs1 !! j) as [r1|] eqn:E1; [|done]. simpl in Hr.
  destruct (is_ok r1) eqn:Eo; [by eapply Hc|]. injection Hr as ->. by apply list_elem_of_lookup_2, Hx in E1.
Qed.

(** Submitting one proposal again and again: the results. *)
Fixpoint resubmit (n : nat) (d : directProposer Eng Clock) (q : Proposal) : list (option ApplyResult) :=
  match n with
  | O => []
  | S n => let '(d, r) := ApplyOneDirect clock_Observe d q in r :: resubmit n d q
  end.

Lemma ApplyOneDirect_conflict (d : directProposer Eng Clock) q re i :
  re ∈ ReadSet q → newer (f_keyEpoch (d_fsm d)) (re_Key re) i → re_Epoch re <= i → re_IsDebit re = false →
  ∃ d', ApplyOneDirect clock_Observe d q = (d', Some res_conflict) ∧ f_keyEpoch (d_fsm d') = f_keyEpoch (d_fsm d).
Proof.
  intros Hin Hn He Hd. unfold ApplyOneDirect, applyBatchDirect.
  rewrite decide_True by (unfold maxStackShadow; simpl; lia). cbn [small_batch]. unfold small_entry.
  destruct (observe_fields clock_Observe (d_fsm d) q) as [_ Hke].
  cbn [d_fsm d_index set_index set_fsm]. rewrite Hke.
  rewrite (newer_conflict (f_keyEpoch (d_fsm d)) (ReadSet q) re i) by done.
  eexists. split; [reflexivity|]. cbn. exact Hke.
Qed.

(** C39. A failed commit blocks the keys it wrote: when a proposal of a batch was
    answered with the engine's commit error, a proposal that reads a key the
    failed one wrote, by a plain (not a debit) read and at an epoch not above the
    index before the batch, is answered with a conflict, however often it is
    submitted, alone in its batch and with nothing else applied in between. The
    index is a 64-bit number that does not overflow in the batch. *)
Theorem failed_commit_blocks (d d' : directProposer Eng Clock) ps rs ns j p e w q re n :
  0 <= d_index d → d_index d + Z.of_nat (length ps) < 2 ^ 64 →
  applyBatchDirect clock_Observe d ps = (d', rs, ns) →
  ps !! j = Some p → rs !! j = Some (res_err (ErrApply e)) → w ∈ Writes p →
  re ∈ ReadSet q → re_Key re = we_Key w → re_IsDebit re = false → re_Epoch re <= d_index d →
  resubmit n d' q = replicate n (Some res_conflict).
Proof.
  intros Hi Hb Ha Hp Hr Hw Hin Hk Hd He.
  pose proof (applyBatchDirect_failed d d' ps rs ns j p e w Hi Hb Ha Hp Hr Hw) as Hn. rewrite <- Hk in Hn.
  clear Ha Hp Hr. revert d' Hn. induction n as [|n IH]; intros d' Hn; [done|]. simpl.
  destruct (ApplyOneDirect_conflict d' q re (d_index d)) as (d1 & -> & Hke); [done..|].
  f_equal. apply IH. by rewrite Hke.
Qed.
End failures.

(** ** A failed batch on Badger *)

(** Two clients are batched together; one writes the empty key, which Badger
    refuses. *)
Definition badger_proposer : directProposer mapDB unit :=
  {| d_fsm := {| f_applied := 0; f_engine := ∅; f_keyEpoch := ∅; f_syncPolicy := SyncNone; f_clock := tt;
                 f_watchers := false; f_metrics := None; f_skipHLC := true |};
     d_closed := false; d_index := 0 |}.

Definition write_of (k : bytes) : WriteEntry := {| we_Op := OpSet; we_Key := k; we_Value := bs "v" |}.
Definition set_of (rs : list ReadEntry) (k : bytes) : Proposal :=
  {| ReadSet := rs; Writes := [write_of k]; TimestampWall := 0; TimestampCounter := 0 |}.
Definition read_of (k : bytes) : ReadEntry := {| re_Key := k; re_Epoch := 0; re_IsDebit := false |}.

Definition badger_batch : directProposer mapDB unit * list ApplyResult * list (list WriteEntry) :=
  applyBatchDirect (fun c _ _ => c) badger_proposer [set_of [] (bs "a"); set_of [] []].

Lemma failed_commit_blocks_witness :
  badger_batch.1.2 = replicate 2 (res_err (ErrApply (ErrEngine "Key cannot be empty")))
  ∧ resubmit (fun c _ _ => c) 50 badger_batch.1.1 (set_of [read_of (bs "a")] (bs "a"))
    = replicate 50 (Some res_conflict).
Proof.
  split; [vm_compute; reflexivity|].
  apply (failed_commit_blocks (fun c _ _ => c) badger_proposer badger_batch.1.1
    [set_of [] (bs "a"); set_of [] []] badger_batch.1.2 badger_batch.2 0 (set_of [] (bs "a"))
    (ErrEngine "Key cannot be empty") (write_of (bs "a")) _ (read_of (bs "a")));
    [simpl; lia|simpl; lia|reflexivity|reflexivity|vm_compute; reflexivity|by left|by left|reflexivity..|simpl; lia].
Defined.
