(* ===== verification/Loop.v ===== *)
(** * The applier loop of the direct proposer (src/conductor/direct.go)

    The applier's side of the submit channel: one goroutine drains it into
    batches, applies a batch on the ticker, when it is full, or at shutdown, and
    computes one result per entry. Each iteration of the loop is one step. The
    callers, the pool their entries come from and the channels on which the
    results reach them, or miss them, are in EntryPool.v. *)

From S2P Require Import Prelude Types Wire EngineSpec Fsm Occ Direct.

Definition submitBufSize : Z := 16384.

Section loop.
Context {Eng Snap Bat : Type} `{StorageEngine Eng Snap Bat}.
Context {Clock : Type} (clock_Observe : Clock → Z → Z → Clock).

(** One use of a [proposalEntry]: a number for the send and the proposal. *)
Abbreviation entry := (nat * Proposal)%type.

Record loop := {
  l_d : directProposer Eng Clock;
  submitCh : list entry;
  batch : list entry;
  delivered : list (nat * ApplyResult);  (* results computed, in order *)
  announced : list (list WriteEntry);    (* writes passed to [NotifyBatch], in order *)
  l_done : bool;                         (* [close(d.done)] *)
  running : bool;                        (* the goroutine has not returned *)
}.

(** newDirectProposerWithInterval starts the goroutine on an empty batch. *)
Definition start (d : directProposer Eng Clock) : loop :=
  {| l_d := d; submitCh := []; batch := []; delivered := []; announced := []; l_done := false; running := true |}.

(** [case d.submitCh <- entry]: possible while the channel has room. *)
Definition send (l : loop) (e : entry) : option loop :=
  if Z.of_nat (length (submitCh l)) <? submitBufSize
  then Some {| l_d := l_d l; submitCh := submitCh l ++ [e]; batch := batch l;
               delivered := delivered l; announced := announced l; l_done := l_done l; running := running l |}
  else None.

(** The [flush] closure: an empty batch does nothing. *)
Definition flush (l : loop) : loop :=
  match batch l with
  | [] => l
  | es =>
      let '(d, rs, ns) := applyBatchDirect clock_Observe (l_d l) (map snd es) in
      {| l_d := d; submitCh := submitCh l; batch := [];
         delivered := delivered l ++ combine (map fst es) rs; announced := announced l ++ ns;
         l_done := l_done l; running := running l |}
  end.

(** [for len(batch) < maxBatchSize { select { case e := <-d.submitCh: append; default: break drain } }] *)
Definition drain (l : loop) : loop :=
  let n := (maxBatchSize - length (batch l))%nat in
  {| l_d := l_d l; submitCh := drop n (submitCh l); batch := batch l ++ take n (submitCh l);
     delivered := delivered l; announced := announced l; l_done := l_done l; running := running l |}.

(** [case entry := <-d.submitCh]: take one entry, drain, flush when full. *)
Definition recv (l : loop) : option loop :=
  match submitCh l with
  | [] => None
  | e :: q =>
      let l := drain {| l_d := l_d l; submitCh := q; batch := batch l ++ [e]; delivered := delivered l;
                        announced := announced l; l_done := l_done l; running := running l |} in
      Some (if decide (maxBatchSize ≤ length (batch l))%nat then flush l else l)
  end.

(** [case <-ticker.C] *)
Definition tick (l : loop) : loop := flush l.

(** [case <-d.done]: flush what is batched and return. *)
Definition stop (l : loop) : loop :=
  let l := flush l in
  {| l_d := l_d l; submitCh := submitCh l; batch := batch l; delivered := delivered l;
     announced := announced l; l_done := l_done l; running := false |}.

(** (d *directProposer) Shutdown, up to the wait for the goroutine. *)
Definition Shutdown (l : loop) : loop :=
  if d_closed (l_d l) then l
  else {| l_d := {| d_fsm := d_fsm (l_d l); d_closed := true; d_index := d_index (l_d l) |};
          submitCh := submitCh l; batch := batch l; delivered := delivered l; announced := announced l; l_done := true;
          running := running l |}.

(** What happens before the goroutine's select picks [d.done]: it picks another
    ready case, or a caller that passed the check of the flag still sends. *)
Inductive iteration := IRecv | ITick | ISend (e : entry).

Definition iterate (l : loop) (i : iteration) : loop :=
  match i with
  | IRecv => default l (recv l)
  | ITick => tick l
  | ISend e => default l (send l e)
  end.

(** The goroutine up to its return, which [d.wg.Wait()] waits for. *)
Definition finish (l : loop) (its : list iteration) : loop := stop (foldl iterate l its).

(** The steps: an entry is sent (also after a shutdown, by a caller that checked
    the closed flag before it), the goroutine selects one of its ready cases. The
    entries sent are recorded on the side. *)
Inductive lstep : loop * list entry → loop * list entry → Prop :=
  | l_submit l l' h e : send l e = Some l' → client_proposal e.2 → lstep (l, h) (l', h ++ [e])
  | l_recv l l' h : running l = true → recv l = Some l' → lstep (l, h) (l', h)
  | l_tick l h : running l = true → lstep (l, h) (tick l, h)
  | l_stop l h : running l = true → l_done l = true → lstep (l, h) (stop l, h)
  | l_shutdown l h : lstep (l, h) (Shutdown l, h).
End loop.

Arguments loop Eng Clock : clear implicits.

(** ** Every entry is applied once, in order *)

Lemma accepted_app i ps1 rs1 ps2 rs2 :
  length ps1 = length rs1 →
  accepted i (ps1 ++ ps2) (rs1 ++ rs2)
  = accepted i ps1 rs1 ++ accepted (i + Z.of_nat (length ps1)) ps2 rs2.
Proof.
  revert i rs1. induction ps1 as [|p ps1 IH]; intros i [|r rs1] Hl; try done; simpl.
  { by rewrite Z.add_0_r. }
  rewrite IH by (simpl in Hl; lia). rewrite <- app_assoc. do 3 f_equal. lia.
Qed.

Section correctness.
Context {Eng Snap Bat : Type} `{EngineLaws Eng Snap Bat}.
Context {Clock : Type} (clock_Observe : Clock → Z → Z → Clock).
Context (d0 : directProposer Eng Clock).

Abbreviation entry := (nat * Proposal)%type.

(** [h] is the history of entries sent; [fin] those already applied. Of the
    store something is known as long as the engine has not reported an error. *)
Record linv (l : loop Eng Clock) (h fin : list entry) : Prop := {
  lv_history : h = fin ++ batch l ++ submitCh l;
  lv_client : Forall (fun e => client_proposal e.2) h;
  lv_ids : map fst (delivered l) = map fst fin;
  lv_batch : (length (batch l) ≤ maxBatchSize)%nat;
  lv_store : no_engine_error (map snd (delivered l)) → d_index d0 + Z.of_nat (length h) < 2 ^ 64 →
    dinv (l_d l) ∧ d_index (l_d l) = d_index d0 + Z.of_nat (length fin)
    ∧ d_store (l_d l) = commits (d_store d0) (accepted (d_index d0) (map snd fin) (map snd (delivered l)));
}.

Lemma delivered_length l h fin : linv l h fin → length (delivered l) = length fin.
Proof.
  intros Hl. rewrite <- (length_map fst (delivered l)), (lv_ids l h fin Hl). apply length_map.
Qed.

Lemma flush_inv l h fin :
  linv l h fin →
  linv (flush clock_Observe l) h (fin ++ batch l) ∧ batch (flush clock_Observe l) = []
  ∧ submitCh (flush clock_Observe l) = submitCh l ∧ running (flush clock_Observe l) = running l
  ∧ l_done (flush clock_Observe l) = l_done l.
Proof.
  intros Hl. pose proof (delivered_length l h fin Hl) as Hdl. unfold flush.
  destruct (batch l) as [|e0 es0] eqn:Eb; [rewrite app_nil_r; by rewrite Eb|].
  remember (e0 :: es0) as es eqn:Ees. clear Ees e0 es0.
  destruct Hl as [H1 H2 H3 H4 H5]. rewrite Eb in *.
  destruct (applyBatchDirect clock_Observe (l_d l) (map snd es)) as [[d rs] ns] eqn:Ea.
  assert (Forall client_proposal (map snd es)) as Hc.
  { rewrite H1 in H2. apply Forall_app in H2 as [_ [H2 _]%Forall_app]. by apply Forall_fmap. }
  assert (Z.of_nat (length h) = Z.of_nat (length fin) + Z.of_nat (length es) + Z.of_nat (length (submitCh l))) as Hlen
    by (rewrite H1, !length_app; lia).
  pose proof (applyBatchDirect_length clock_Observe _ _ _ _ _ Ea) as Hrs. rewrite length_map in Hrs.
  assert (map snd (combine (map fst es) rs) = rs) as Hsnd.
  { clear -Hrs. revert rs Hrs. induction es as [|e es IH]; intros [|r rs] Hl; simpl in *; try done.
    f_equal. apply IH. lia. }
  split_and!; try done. split; cbn; try done.
  - by rewrite <- app_assoc.
  - rewrite map_app, H3, map_app. f_equal. clear -Hrs. revert rs Hrs.
    induction es as [|e es IH]; intros [|r rs] Hl; simpl in *; try done. f_equal. apply IH. lia.
  - unfold maxBatchSize. lia.
  - rewrite map_app, Hsnd. intros [Hno1 Hno2]%Forall_app Hb. destruct (H5 Hno1 Hb) as (Hdi & Hidx & Hst0).
    destruct (applyBatchDirect_spec clock_Observe (l_d l) (map snd es) d rs ns Hdi Hc) as (Hd & _ & Hi & Hst & _);
      [rewrite length_map; lia|done|done|].
    rewrite length_map in Hi. split_and!; [done|rewrite Hi, Hidx, length_app; lia|].
    rewrite Hst, Hst0, Hidx, !map_app, accepted_app by (rewrite !length_map; lia). rewrite length_map.
    unfold commits. by rewrite foldl_app.
Qed.

Lemma drain_inv l h fin :
  linv l h fin → linv (drain l) h fin.
Proof.
  intros [H1 H2 H3 H4 H5]. unfold drain.
  split; cbn [batch submitCh delivered l_d]; try done.
  - rewrite H1, <- app_assoc. by rewrite take_drop.
  - rewrite length_app, length_take. lia.
Qed.

Lemma linv_set l l' h fin :
  linv l h fin → batch l' = batch l → submitCh l' = submitCh l → delivered l' = delivered l →
  d_fsm (l_d l') = d_fsm (l_d l) → d_index (l_d l') = d_index (l_d l) → linv l' h fin.
Proof.
  intros [H1 H2 H3 H4 H5] E1 E2 E3 E4 E5.
  split; rewrite ?E1, ?E2, ?E3, ?E5; try done. intros Hno Hb. destruct (H5 Hno Hb) as (Hd & Hi & Hs).
  split_and!; [|done|unfold d_store in *; by rewrite E4].
  destruct Hd. split; unfold d_store, d_epochs in *; rewrite ?E4, ?E5; done.
Qed.

Lemma recv_inv l l' h fin :
  linv l h fin → (length (batch l) < maxBatchSize)%nat →
  recv clock_Observe l = Some l' →
  (∃ fin', linv l' h fin') ∧ (length (batch l') < maxBatchSize)%nat ∧ running l' = running l
  ∧ (length (submitCh l') < length (submitCh l))%nat.
Proof.
  intros Hl Hlt Hr. unfold recv in Hr. destruct (submitCh l) as [|e q] eqn:Eq; [done|].
  set (l1 := {| l_d := l_d l; submitCh := q; batch := batch l ++ [e]; delivered := delivered l;
                announced := announced l; l_done := l_done l; running := running l |}) in Hr.
  assert (linv l1 h fin) as Hl1.
  { destruct Hl as [H1 H2 H3 H4 H5]. split; cbn; try done.
    - rewrite H1, Eq, <- app_assoc. done.
    - rewrite length_app. simpl. lia. }
  pose proof (drain_inv l1 h fin Hl1) as Hl2.
  assert (length (submitCh (drain l1)) ≤ length q)%nat as Hq
    by (subst l1; unfold drain; cbn [submitCh]; rewrite length_drop; lia).
  case_decide as Hd; simplify_eq.
  - destruct (flush_inv (drain l1) h fin Hl2) as (Hf & Ef & Es & Er & _).
    split_and!; [by eauto|rewrite Ef; unfold maxBatchSize; cbn [length]; lia|by rewrite Er|rewrite Es; cbn [length]; lia].
  - split_and!; [by eauto|lia|done|cbn [length]; lia].
Qed.

(** The invariant of reachable states: the batch is never left full. *)
Lemma lreach_inv l h :
  dinv d0 → rtc (lstep clock_Observe) (start d0, []) (l, h) →
  (∃ fin, linv l h fin) ∧ (length (batch l) < maxBatchSize)%nat.
Proof.
  intros Hd0 Hr. remember (l, h) as s eqn:Es. revert l h Es. revert s Hr.
  refine (rtc_ind_r (fun s => ∀ l h, s = (l, h) →
    (∃ fin, linv l h fin) ∧ (length (batch l) < maxBatchSize)%nat) (start d0, []) _ _).
  - intros l h [= <- <-]. split; [|cbn; unfold maxBatchSize; lia]. exists []. split; cbn; try done; [lia|].
    intros _ _. split_and!; [done|lia|done].
  - intros s s' _ Hs IH l h ->. inversion Hs; subst; destruct (IH _ _ eq_refl) as [[fin Hf] Hbt].
    + match goal with E : send _ _ = Some _ |- _ => rename E into Es end. unfold send in Es. destruct (_ <? _); [|done]. injection Es as <-.
      split; [|done]. exists fin. destruct Hf as [H1 H2 H3 H7 H8]. split; cbn; try done.
      * by rewrite H1, <- !app_assoc.
      * apply Forall_app. split; [done|]. by constructor.
      * intros Hno. rewrite length_app. simpl. intros Hb. apply H8; [done|lia].
    + edestruct (recv_inv _ l h fin Hf Hbt) as (? & ? & _); done.
    + destruct (flush_inv _ h fin Hf) as (Hf' & Ef & _). split; [by eauto|].
      unfold tick. rewrite Ef. unfold maxBatchSize. simpl. lia.
    + destruct (flush_inv _ h fin Hf) as (Hf' & Ef & _). split.
      * eexists. eapply linv_set; [exact Hf'|done..].
      * cbn. rewrite Ef. unfold maxBatchSize. simpl. lia.
    + unfold Shutdown. case_match; [by eauto|]. split; [|done]. exists fin. by eapply linv_set.
Qed.

(** *** Shutdown *)

Definition client_iteration (i : iteration) : Prop :=
  match i with ISend e => client_proposal e.2 | _ => True end.

(** An iteration never puts an entry back into the channel. *)
Lemma iterate_inv l h fin i :
  linv l h fin → (length (batch l) < maxBatchSize)%nat → client_iteration i →
  ∃ es fin', linv (iterate clock_Observe l i) (h ++ es) fin'
    ∧ (length (batch (iterate clock_Observe l i)) < maxBatchSize)%nat ∧ (length es ≤ 1)%nat
    ∧ (length h + length (submitCh (iterate clock_Observe l i)) ≤ length (h ++ es) + length (submitCh l))%nat.
Proof.
  intros Hl Hb Hi. destruct i as [| |e]; cbn [iterate].
  - destruct (recv clock_Observe l) as [l'|] eqn:Er; cbn [from_option id].
    + destruct (recv_inv l l' h fin Hl Hb Er) as ([fin' Hl'] & Hb' & _ & Hlt).
      exists [], fin'. rewrite app_nil_r. cbn [length]. split_and!; [done|done|lia|lia].
    + exists [], fin. rewrite app_nil_r. cbn [length]. split_and!; [done|done|lia|lia].
  - destruct (flush_inv l h fin Hl) as (Hf & Ef & Es & _). exists [], (fin ++ batch l).
    rewrite app_nil_r. unfold tick. rewrite Ef, Es. unfold maxBatchSize. cbn [length]. split_and!; [done|lia|lia|lia].
  - unfold send. destruct (_ <? _); cbn [from_option id].
    + exists [e], fin. cbn [batch submitCh]. rewrite !length_app. cbn [length]. split_and!; [|done|lia|lia].
      destruct Hl as [H1 H2 H3 H4 H5]. split; cbn; try done.
      * by rewrite H1, <- !app_assoc.
      * apply Forall_app. split; [done|]. by constructor.
      * intros Hno. rewrite length_app. simpl. intros ?. apply H5; [done|lia].
    + exists [], fin. rewrite app_nil_r. cbn [length]. split_and!; [done|done|lia|lia].
Qed.

Lemma iterates_inv its l h fin :
  linv l h fin → (length (batch l) < maxBatchSize)%nat → Forall client_iteration its →
  ∃ es fin', linv (foldl (iterate clock_Observe) l its) (h ++ es) fin' ∧ (length es ≤ length its)%nat
    ∧ (length h + length (submitCh (foldl (iterate clock_Observe) l its)) ≤ length (h ++ es) + length (submitCh l))%nat.
Proof.
  revert l h fin. induction its as [|i its IH]; intros l h fin Hl Hb Hc; cbn [foldl].
  { exists [], fin. rewrite app_nil_r. split_and!; done. }
  inversion Hc; subst. destruct (iterate_inv l h fin i) as (es1 & fin1 & Hl1 & Hb1 & Hn1 & Hq1); [done..|].
  destruct (IH _ _ _ Hl1 Hb1) as (es2 & fin2 & Hl2 & Hn2 & Hq2); [done|].
  exists (es1 ++ es2), fin2. rewrite app_assoc. rewrite !length_app in *. cbn [length]. split_and!; [done|lia|lia].
Qed.

(** What the applier has batched when the shutdown comes is applied before the
    goroutine returns, before anything it still receives. *)
Lemma finish_applies l its :
  dinv (l_d l) → d_index (l_d l) = d_index d0 → d_store (l_d l) = d_store d0 → delivered l = [] →
  (length (batch l) < maxBatchSize)%nat → Forall (fun e => client_proposal e.2) (batch l ++ submitCh l) →
  Forall client_iteration its →
  ∃ fin, batch l `prefix_of` fin ∧ map fst (delivered (finish clock_Observe l its)) = map fst fin
    ∧ (no_engine_error (map snd (delivered (finish clock_Observe l its))) →
       d_index d0 + Z.of_nat (length (batch l ++ submitCh l) + length its) < 2 ^ 64 →
       dinv (l_d (finish clock_Observe l its)) ∧ d_store (l_d (finish clock_Observe l its))
         = commits (d_store d0) (accepted (d_index d0) (map snd fin)
             (map snd (delivered (finish clock_Observe l its))))).
Proof.
  intros Hd Hi Hs Hdl Hb Hc Hcs.
  assert (linv l (batch l ++ submitCh l) []) as Hl.
  { split; [done|done|by rewrite Hdl|lia|]. intros _ _. rewrite Hdl, Hi, Hs. cbn. split_and!; [done|lia|done]. }
  destruct (iterates_inv its l _ [] Hl Hb Hcs) as (es & fin & Hl' & Hes & Hq).
  destruct (flush_inv _ _ _ Hl') as (Hf & Eb & Eq & _). unfold finish, stop. cbn [delivered l_d].
  set (l' := flush clock_Observe (foldl (iterate clock_Observe) l its)) in *.
  set (fin' := fin ++ batch (foldl (iterate clock_Observe) l its)) in *.
  exists fin'. destruct Hf as [H1 H2 H3 H4 H5]. rewrite Eb, Eq, app_nil_l in H1.
  split_and!; [|done|].
  - assert (length (batch l) ≤ length fin')%nat as Hle.
    { pose proof (f_equal length H1) as Hh. rewrite !length_app in Hh, Hq. lia. }
    rewrite <- app_assoc in H1. exists (drop (length (batch l)) fin').
    rewrite <- (take_drop (length (batch l)) fin') at 1. f_equal.
    apply (f_equal (take (length (batch l)))) in H1. rewrite take_app_length in H1.
    rewrite take_app_le in H1 by done. done.
  - intros Hno Hbd. destruct (H5 Hno) as (? & _ & ?); [|done]. rewrite length_app. lia.
Qed.

(** With nothing but its own steps the loop empties the channel. *)
Lemma drain_all n l h fin :
  (length (submitCh l) ≤ n)%nat → linv l h fin → (length (batch l) < maxBatchSize)%nat →
  running l = true →
  ∃ l' fin', rtc (lstep clock_Observe) (l, h) (l', h) ∧ linv l' h fin' ∧ submitCh l' = [] ∧ batch l' = [].
Proof.
  revert l fin. induction n as [|n IH]; intros l fin Hn Hl Hbt Hr.
  - destruct (submitCh l) eqn:Eq; [|simpl in Hn; lia].
    destruct (flush_inv l h fin Hl) as (Hf & Ef & Es & _).
    exists (tick clock_Observe l), (fin ++ batch l). split_and!; [|done|by rewrite <- Eq|done].
    apply rtc_once. by apply l_tick.
  - destruct (recv clock_Observe l) as [l1|] eqn:Er.
    + destruct (recv_inv l l1 h fin Hl Hbt Er) as ([fin1 Hl1] & Hbt1 & Hr1 & Hlt).
      destruct (IH l1 fin1) as (l' & fin' & Hsteps & Hrest); [lia|done|done|congruence|].
      exists l', fin'. split; [|done]. eapply rtc_l; [|exact Hsteps]. by apply l_recv.
    + apply (IH l fin); try done. unfold recv in Er. destruct (submitCh l); [simpl; lia|done].
Qed.

(** The applier takes the entries in order and once: in every reachable state
    the entries sent are those applied, then the batch, then the channel, and
    one result was computed for each entry applied; the batch is below its
    limit; and if none of the results is an error of the engine and the 64-bit
    index does not overflow, the store is the serial execution of the entries
    whose result is a success. *)
Theorem loop_fifo l h :
  dinv d0 → rtc (lstep clock_Observe) (start d0, []) (l, h) →
  ∃ fin, h = fin ++ batch l ++ submitCh l ∧ map fst (delivered l) = map fst fin
    ∧ (length (batch l) < maxBatchSize)%nat
    ∧ (no_engine_error (map snd (delivered l)) → d_index d0 + Z.of_nat (length h) < 2 ^ 64 →
       dinv (l_d l) ∧ d_store (l_d l)
         = commits (d_store d0) (accepted (d_index d0) (map snd fin) (map snd (delivered l)))).
Proof.
  intros Hd0 Hr. destruct (lreach_inv l h Hd0 Hr) as [[fin Hl] Hbt].
  exists fin. destruct Hl as [? ? Hids ? Hs]. split_and!; try done. intros Hno Hb. by destruct (Hs Hno Hb) as (? & _ & ?).
Qed.

(** No entry stays in the channel: from every reachable state whose goroutine is
    running, its own steps lead to a state in which every entry sent has been
    applied. *)
Theorem loop_applies_all l h :
  dinv d0 → rtc (lstep clock_Observe) (start d0, []) (l, h) → running l = true →
  ∃ l', rtc (lstep clock_Observe) (l, h) (l', h) ∧ map fst (delivered l') = map fst h.
Proof.
  intros Hd0 Hr Hrun. destruct (lreach_inv l h Hd0 Hr) as [[fin Hl] Hbt].
  destruct (drain_all (length (submitCh l)) l h fin) as (l' & fin' & Hsteps & Hl' & Eq & Eb); [done..|].
  exists l'. split; [done|]. rewrite (lv_ids l' h fin' Hl'), (lv_history l' h fin' Hl'), Eq, Eb.
  by rewrite app_nil_r.
Qed.
End correctness.
