(* ===== verification/Reopen.v ===== *)
(** * Opening a store (dpxFSM.open, src/conductor/fsm.go)

    The epoch map is rebuilt from the version records found by a raw scan of
    [[rawIterStart, rawIterEnd)]. The rebuilt map is exactly the stored versions
    of the keys the scan reaches, so an FSM that is reopened detects the same
    conflicts as the one that was closed. *)

From S2P Require Import Prelude Types Wire EngineSpec Fsm Occ.

(** The keys the scan reaches: not empty, and below sixteen 0xFF bytes. *)
Definition scanned (k : bytes) : Prop := k ≠ [] ∧ bytes_lt k (replicate 16 xff).

#[export] Instance scanned_dec k : Decision (scanned k).
Proof. unfold scanned. apply _. Defined.

(** Every version record in the store can be decoded. *)
Definition versions_wf (m : store) : Prop :=
  ∀ k v, m !! versionKey k = Some v → (9 ≤ length v)%nat.

(** ** The scanned range *)

Lemma bytes_compare_prefix p a b : bytes_compare (p ++ a) (p ++ b) = bytes_compare a b.
Proof. induction p as [|c p IH]; simpl; [done|]. by rewrite N.compare_refl. Qed.

Lemma in_range_version k :
  in_range rawIterStart rawIterEnd (versionKey k) ↔ bytes_lt k (replicate 16 xff).
Proof.
  unfold in_range, rawIterStart, rawIterEnd, versionKey.
  assert (bytes_le verPrefix (verPrefix ++ k)) as Hle.
  { unfold bytes_le, bytes_ltb. rewrite <- (app_nil_r verPrefix) at 2.
    rewrite bytes_compare_prefix. by destruct k. }
  unfold bytes_lt, bytes_ltb. rewrite bytes_compare_prefix. naive_solver.
Qed.

Lemma prefix_range p r k : bytes_le p k → bytes_lt k (p ++ r) → ∃ u, k = p ++ u.
Proof.
  revert k. unfold bytes_le, bytes_lt, bytes_ltb.
  induction p as [|c p IH]; intros k; [by exists k|]. destruct k as [|c' k]; simpl; [done|].
  rewrite (N.compare_antisym (Byte.to_N c) (Byte.to_N c')).
  destruct (N.compare_spec (Byte.to_N c) (Byte.to_N c')) as [E|E|E]; simpl; try done.
  intros H1 H2. destruct (IH k H1 H2) as [u ->]. exists u.
  assert (c' = c) as -> by (pose proof (Byte.of_to_N c'); pose proof (Byte.of_to_N c); congruence).
  done.
Qed.

(** A key of the scanned range is a version key. *)
Lemma in_range_prefix k : in_range rawIterStart rawIterEnd k → ∃ u, k = versionKey u.
Proof. intros [Hle [E|Hlt]]; [done|]. by eapply prefix_range. Qed.

Lemma elem_of_range_pairs s e m k v :
  (k, v) ∈ range_pairs s e m ↔ in_range s e k ∧ m !! k = Some v.
Proof.
  unfold range_pairs. rewrite (elem_of_Permutation_proper _ _ _ (sort_pairs_perm _)).
  rewrite list_elem_of_filter, elem_of_map_to_list. done.
Qed.

Lemma NoDup_range_pairs s e m : NoDup (range_pairs s e m).*1.
Proof.
  unfold range_pairs. rewrite sort_pairs_perm.
  apply NoDup_fst_filter, NoDup_fst_map_to_list.
Qed.

(** ** The rebuild loop *)

(** The records the loop accepts. *)
Definition good_pair (p : bytes * bytes) : Prop :=
  (∃ u, p.1 = versionKey u) ∧ (9 ≤ length p.2)%nat.

Lemma decode_long v : (9 ≤ length v)%nat → decodeEpochRecord v = Some (decodeEpochRecord0 v).
Proof.
  intros Hv. unfold decodeEpochRecord, decodeEpochRecord0. by rewrite !decide_False by lia.
Qed.

(** One record: an empty user key is skipped. *)
Lemma rebuild_cons i u v pairs m :
  (9 ≤ length v)%nat →
  ∃ j, rebuild (fun _ => false) i ((versionKey u, v) :: pairs) m
  = rebuild (fun _ => false) j pairs
      (if decide (u = []) then m else <[u := decodeEpochRecord0 v]> m).
Proof.
  intros Hv. cbn [rebuild].
  rewrite (decode_long v Hv).
  assert (length (versionKey u) = 10 + length u)%nat as -> by (unfold versionKey; by rewrite length_app).
  change (length (bs "__dpx:ver:")) with 10%nat.
  replace (drop 10 (versionKey u)) with u
    by (symmetry; apply (drop_app_length' verPrefix u 10); reflexivity).
  destruct u as [|c u]; [by exists i|]. exists (S i).
  by rewrite decide_False by (simpl; lia).
Qed.

Lemma rebuild_lookup pairs : ∀ i m,
  NoDup pairs.*1 → Forall good_pair pairs →
  ∃ ke, rebuild (fun _ => false) i pairs m = Ok ke
    ∧ (∀ u v, u ≠ [] → (versionKey u, v) ∈ pairs → ke !! u = Some (decodeEpochRecord0 v))
    ∧ (∀ u, u = [] ∨ versionKey u ∉ pairs.*1 → ke !! u = m !! u).
Proof.
  induction pairs as [|[k v] pairs IH]; intros i m Hnd Hg; simpl in Hnd.
  { exists m. split_and!; [done| |done]. intros u v _ Hin. by apply elem_of_nil in Hin. }
  apply NoDup_cons in Hnd as [Hni Hnd]. apply Forall_cons in Hg as [[[u0 E] Hv] Hg].
  simpl in E, Hv. subst k. destruct (rebuild_cons i u0 v pairs m Hv) as [j ->].
  destruct (IH j (if decide (u0 = []) then m else <[u0:=decodeEpochRecord0 v]> m) Hnd Hg)
    as (ke & -> & H1 & H2).
  exists ke. split_and!; [done| |].
  - intros u w Hu [E|Hin]%elem_of_cons; [|by apply H1].
    apply pair_eq in E as [E ->]. apply (inj versionKey) in E. subst u0.
    rewrite H2 by by right. rewrite decide_False by done. by rewrite lookup_insert, decide_True.
  - intros u Hu. rewrite H2 by (destruct Hu as [?|Hu]; [by left|right]; set_solver).
    case_decide; [done|]. apply lookup_insert_ne. intros ->. set_solver.
Qed.

Section open.
Context {Eng Snap Bat : Type} `{EngineLaws Eng Snap Bat}.
Context {Clock : Type}.
Implicit Types f : dpxFSM Eng Clock.

(** The stored version of a key the scan reaches. *)
Definition scanned_version (m : store) (k : bytes) : option EpochRecord :=
  if decide (scanned k) then decodeEpochRecord0 <$> m !! versionKey k else None.

Lemma open_spec f :
  eng_inv (f_engine f) → versions_wf (eng_abs (f_engine f)) →
  (eng_RawIter (f_engine f) rawIterStart rawIterEnd).2 = None →
  ∃ ke, open (fun _ => false) f
        = Ok (set_applied (set_keyEpoch f ke) (eng_CurrentSequence (f_engine f)))
    ∧ ∀ k, ke !! k = scanned_version (eng_abs (f_engine f)) k.
Proof.
  intros Hi Hwf Herr. unfold open.
  destruct (eng_RawIter _ _ _) as [pairs err] eqn:Eit. simpl in Herr. subst err.
  apply law_raw_iter in Eit; [|done]. subst pairs.
  set (m := eng_abs (f_engine f)) in *.
  destruct (rebuild_lookup (range_pairs rawIterStart rawIterEnd m) 0 ∅) as (ke & -> & H1 & H2).
  { apply NoDup_range_pairs. }
  { apply Forall_forall. intros [k v] [Hr Hk]%elem_of_range_pairs.
    destruct (in_range_prefix k Hr) as [u ->]. split; [by exists u|]. by eapply Hwf. }
  exists ke. split; [done|]. intros k. unfold scanned_version, scanned. case_decide as Hs.
  - destruct Hs as [Hne Hlt]. destruct (m !! versionKey k) as [v|] eqn:Ev; simpl.
    + apply H1; [done|]. apply elem_of_range_pairs. by rewrite in_range_version.
    + rewrite H2; [done|right]. intros [[? v] [E Hin]]%list_elem_of_fmap. simpl in E. subst.
      apply elem_of_range_pairs in Hin as [_ Hin]. congruence.
  - apply H2. destruct (decide (k = [])) as [|Hne]; [by left|right].
    intros [[? v] [E Hin]]%list_elem_of_fmap. simpl in E. subst.
    apply elem_of_range_pairs in Hin as [Hr _]. rewrite in_range_version in Hr. naive_solver.
Qed.

(** When every versioned key is within reach of the scan, the rebuilt map is
    the one conflict detection relies on. *)
Lemma scanned_version_ke_ok ke m :
  (∀ k, ke !! k = scanned_version m k) → (∀ k, is_Some (m !! versionKey k) → scanned k) →
  ke_ok ke m.
Proof.
  intros Hke Hm k _. unfold epoch_of, ver. rewrite Hke. unfold scanned_version.
  case_decide as Hs.
  - by destruct (m !! versionKey k).
  - destruct (m !! versionKey k) eqn:E; [|done]. destruct Hs. by apply Hm.
Qed.

(** C13. Opening rebuilds the epoch map. On a store whose version records are
    all at least nine bytes long, when the raw iterator reports no error and the
    stop channel does not fire during the scan, open succeeds; the epoch map
    holds, for every key the scan reaches (not the empty key, and below the
    scan's upper bound), exactly the version stored for it, and nothing else; the
    applied index is the engine's sequence. If every versioned key is within
    reach, the map is the one conflict detection relies on. *)
Theorem open_rebuilds_epochs f :
  eng_inv (f_engine f) → versions_wf (eng_abs (f_engine f)) →
  (eng_RawIter (f_engine f) rawIterStart rawIterEnd).2 = None →
  ∃ f', open (fun _ => false) f = Ok f'
    ∧ f_engine f' = f_engine f
    ∧ f_applied f' = eng_CurrentSequence (f_engine f)
    ∧ (∀ k, f_keyEpoch f' !! k = scanned_version (eng_abs (f_engine f)) k)
    ∧ ((∀ k, is_Some (eng_abs (f_engine f) !! versionKey k) → scanned k) →
       ke_ok (f_keyEpoch f') (eng_abs (f_engine f))).
Proof.
  intros Hi Hwf Herr. destruct (open_spec f Hi Hwf Herr) as (ke & -> & Hke).
  eexists. split_and!; try done. by apply scanned_version_ke_ok.
Qed.
End open.

(** ** Version records stay decodable *)

Lemma versions_wf_empty : versions_wf ∅.
Proof. intros k v. by rewrite lookup_empty. Qed.

Lemma versions_wf_commit m c : user_writes (Writes c.2) → versions_wf m → versions_wf (commit m c).
Proof.
  destruct c as [idx [rs ws tw tc]]. unfold commit. simpl. intros Hw Hm.
  rewrite commit_ops_last. intros k v. rewrite lookup_spec_op_ne
    by (intros E; symmetry in E; by apply versionKey_ne_applied in E).
  revert k v. change (versions_wf (spec_ops m (writes_ops idx ws))).
  revert m Hm. induction Hw as [|w ws Hr _ IH]; intros m Hm; [done|].
  rewrite writes_ops_cons. apply IH. intros k v.
  destruct (decide (k = we_Key w)) as [->|Hne].
  - rewrite lookup_write_ops_version by done. intros [= <-].
    by rewrite length_encodeEpochRecord.
  - rewrite lookup_write_ops_ne; [apply Hm| |].
    + intros E. symmetry in E. by apply user_key_ne_version in E.
    + intros E. by apply (inj versionKey) in E.
Qed.

Lemma versions_wf_commits m cs :
  Forall (fun c => user_writes (Writes c.2)) cs → versions_wf m → versions_wf (commits m cs).
Proof.
  intros Hcs. revert m. induction Hcs as [|c cs Hc _ IH]; intros m Hm; [done|].
  apply IH. by apply versions_wf_commit.
Qed.
