(* ===== verification/Raft.v ===== *)
(** * Applying the replicated log (dpxFSM.applyBatch, src/conductor/fsm.go)

    Correctness of the Raft apply path over any storage engine that meets its
    laws: a batch of committed log entries executes serially, and the way the
    log is cut into batches does not matter to proposals whose reads predate
    their batch. *)

From S2P Require Import Prelude Types Wire EngineSpec Fsm Occ Direct.

(** The proposal of a log entry; [None] for entries that carry none. *)
Definition log_proposal (log : Log) : option Proposal :=
  if log_command log then
    match Unmarshal zero_proposal (log_Data log) with Ok p => Some p | _ => None end
  else None.

(** Log entries with increasing 64-bit indices above [i] whose proposals are
    client proposals. Entries that do not decode are allowed. *)
Fixpoint logs_wf (i : Z) (logs : list Log) : Prop :=
  match logs with
  | [] => True
  | log :: logs' =>
      i < log_Index log ∧ is_u64 (log_Index log)
      ∧ (∀ p, log_proposal log = Some p → client_proposal p)
      ∧ logs_wf (log_Index log) logs'
  end.

(** The proposals a batch committed, with their log indices. *)
Fixpoint accepted_logs (logs : list Log) (rs : list ApplyResult) : list (Z * Proposal) :=
  match logs, rs with
  | log :: logs', r :: rs' =>
      (match log_proposal log with
       | Some p => if is_ok r then [(log_Index log, p)] else []
       | None => []
       end) ++ accepted_logs logs' rs'
  | _, _ => []
  end.

Section raft.
Context {Eng Snap Bat : Type} `{EngineLaws Eng Snap Bat}.
Context {Clock : Type} (clock_Observe : Clock → Z → Z → Clock).
Implicit Types f : dpxFSM Eng Clock.

Definition f_store f : store := eng_abs (f_engine f).

(** The FSM's invariant, the last log index being [i]. *)
Record finv (i : Z) f : Prop := {
  fi_engine : eng_inv (f_engine f);
  fi_ke : ke_ok (f_keyEpoch f) (f_store f);
  fi_index : 0 <= i;
  fi_bounded : bounded i (f_store f);
}.

Lemma finv_mono i j f : i <= j → finv i f → finv j f.
Proof.
  intros Hij []. split; try done; [lia|]. intros k Hk. specialize (fi_bounded0 k Hk). lia.
Qed.

(** *** One proposal *)

Lemma applyProposal_spec i f idx p shadow f' shadow' err :
  finv i f → i < idx → is_u64 idx → client_proposal p →
  applyProposal f idx p shadow = (f', shadow', err) →
  (∀ e, err = Some e → engine_error (res_err e) = false) →
  err = None ∧ shadow' = epochs_after idx (Writes p) shadow
    ∧ finv idx f' ∧ f_store f' = commit (f_store f) (idx, p) ∧ f_applied f' = idx
    ∧ f_watchers f' = f_watchers f.
Proof.
  intros [] Hi Hu Hp. unfold applyProposal.
  destruct (apply_writes_spec (f_engine f) idx (Writes p) _ [] shadow (f_keyEpoch f) Hp
    (bat_is_new (f_engine f))) as (bat & -> & Hb).
  apply (bat_is_add _ _ _ (applied_op idx)) in Hb. simpl in Hb.
  change (bat_Set bat appliedKey (encodeUint64 idx)) with (bat_add bat (applied_op idx)).
  cbn [f_engine set_keyEpoch f_syncPolicy].
  destruct (eng_ApplyBatch _ _ _) as [eng [er|]] eqn:Ea.
  { intros [= _ _ <-] He. by specialize (He _ eq_refl). }
  destruct (bat_is_apply _ _ _ _ _ fi_engine0 Hb Ea) as [Hinv Habs].
  change (eng_abs eng = commit (f_store f) (idx, p)) in Habs.
  set (f1 := set_applied (set_engine (set_keyEpoch f (epochs_after idx (Writes p) (f_keyEpoch f))) eng) idx).
  intros Hr He. assert (err = None ∧ f' = f1 ∧ shadow' = epochs_after idx (Writes p) shadow) as (-> & -> & ->).
  { destruct (decide _); [|by simplify_eq]. destruct (eng_Sync _) as [er|]; simplify_eq; [|done].
    by specialize (He _ eq_refl). }
  unfold f_store. cbn. split_and!; try done. split; unfold f_store; cbn; try done.
  - rewrite Habs. apply ke_ok_commit; [done|by apply client_user|done].
  - lia.
  - rewrite Habs. apply (bounded_commit idx Hu i); [lia|by apply client_user|done].
Qed.

Lemma finv_observe i f p : finv i f → finv i (observe clock_Observe f p).
Proof. intros []. unfold observe. case_match; by split. Qed.

(** *** One log entry *)

Lemma apply_log_spec i f shadow log f' shadow' r n :
  finv i f → i < log_Index log → is_u64 (log_Index log) →
  (∀ p, log_proposal log = Some p → client_proposal p) →
  apply_log clock_Observe f shadow log = (f', shadow', r, n) → engine_error r = false →
  finv (log_Index log) f'
    ∧ f_store f' = commits (f_store f) (accepted_logs [log] [r])
    ∧ validated (f_store f) (accepted_logs [log] [r]).
Proof.
  intros Hf Hi Hu Hp. cbn [accepted_logs]. intros Ha Hno. revert Ha. unfold apply_log, log_proposal in *.
  assert (∀ g, finv i g → finv (log_Index log) g) as Hmono
    by (intros g; apply finv_mono; lia).
  assert (validated (f_store f) []) as Hv0 by (intros cs1 c cs2 E; by destruct cs1).
  destruct (log_command log); simpl; [|intros [= <- <- <- <-]; split_and!; [by apply Hmono|done|done]].
  destruct (Unmarshal zero_proposal (log_Data log)) as [p|e|];
    [|intros [= <- <- <- <-]; split_and!; [by apply Hmono|done|done]..].
  assert (f_store (observe clock_Observe f p) = f_store f) as Eo.
  { unfold f_store. by rewrite (proj1 (observe_fields clock_Observe f p)). }
  pose proof (finv_observe i f p Hf) as Hf'.
  destruct (detectConflict _ _ _) eqn:Ec.
  { intros [= <- <- <- <-]. split; [by apply Hmono|]. split; done. }
  destruct (applyProposal _ (log_Index log) p shadow) as [[f1 sh1] err] eqn:Eap. intros Hr.
  destruct (applyProposal_spec i _ (log_Index log) p shadow _ _ _ Hf' Hi Hu (Hp p eq_refl) Eap)
    as (-> & _ & Hf1 & Hs & _ & Hw); [intros e ->; by simplify_eq|].
  injection Hr as <- <- <- <-. split; [done|]. simpl. rewrite Eo in Hs. split; [done|].
  apply (validated_snoc _ []); [done|]. apply detectConflict_false in Ec.
  eapply Forall_impl; [exact Ec|]. intros re Hre Hr. simpl.
  destruct Hf'. rewrite <- Eo. by rewrite <- fi_ke0.
Qed.

(** *** A batch *)

Lemma commits_app m cs1 cs2 : commits m (cs1 ++ cs2) = commits (commits m cs1) cs2.
Proof. apply foldl_app. Qed.

Lemma validated_app m cs1 cs2 :
  validated m cs1 → validated (commits m cs1) cs2 → validated m (cs1 ++ cs2).
Proof.
  intros H1 H2 l c r E. apply app_eq_app in E as [t [[E1 E2]|[E1 E2]]].
  - destruct t as [|c' t]; simpl in E2; simplify_eq.
    + rewrite app_nil_r in *. by apply (H2 [] c r).
    + by eapply H1.
  - subst l. rewrite commits_app. by eapply H2.
Qed.

Lemma apply_logs_spec i f shadow logs f' rs ns :
  finv i f → logs_wf i logs →
  apply_logs clock_Observe f shadow logs = (f', rs, ns) → no_engine_error rs →
  ∃ j, i <= j ∧ finv j f' ∧ length rs = length logs
    ∧ f_store f' = commits (f_store f) (accepted_logs logs rs)
    ∧ validated (f_store f) (accepted_logs logs rs).
Proof.
  revert i f shadow f' rs ns.
  induction logs as [|log logs IH]; intros i f shadow f' rs ns Hf Hwf Ha Hno; simpl in Ha.
  { simplify_eq. exists i. split_and!; try done. intros cs1 c cs2 E. by destruct cs1. }
  destruct Hwf as (Hi & Hu & Hp & Hwf).
  destruct (apply_log clock_Observe f shadow log) as [[[f1 sh1] r] n] eqn:E1.
  destruct (apply_logs clock_Observe f1 sh1 logs) as [[f2 rs2] ns2] eqn:E2.
  simplify_eq. apply Forall_cons in Hno as [Hr Hno].
  destruct (apply_log_spec i f shadow log _ _ _ _ Hf Hi Hu Hp E1 Hr) as (Hf1 & Hs1 & Hv1).
  destruct (IH _ _ _ _ _ _ Hf1 Hwf E2 Hno) as (j & Hj & Hf2 & Hl & Hs2 & Hv2).
  assert (accepted_logs (log :: logs) (r :: rs2) = accepted_logs [log] [r] ++ accepted_logs logs rs2)
    as Ea by (simpl; by rewrite app_nil_r).
  rewrite Ea, commits_app, <- Hs1. exists j. split_and!; try done; [lia|simpl; lia|].
  apply validated_app; [done|]. by rewrite <- Hs1.
Qed.

(** C3. Serializability of the replicated log. On an FSM in a good state (its
    epoch map agrees with the version records in the engine, no version above
    the last index), a batch of log entries with increasing 64-bit indices above
    it, corrupt and foreign entries included, whose proposals are client
    proposals (known operations on unreserved keys), is applied, and no entry is
    answered with an error of the engine, neither of the commit nor of the sync.
    Then every entry has one result, the state is good again, the store is
    exactly that of the committed proposals executed in log order, and every
    committed proposal passed validation against the versions at its place in
    that order. *)
Theorem raft_batch_serializable i f logs f' rs ns :
  finv i f → logs_wf i logs →
  applyBatch clock_Observe f logs = (f', rs, ns) → no_engine_error rs →
  ∃ j, i <= j ∧ finv j f' ∧ length rs = length logs
    ∧ f_store f' = commits (f_store f) (accepted_logs logs rs)
    ∧ validated (f_store f) (accepted_logs logs rs).
Proof. apply apply_logs_spec. Qed.
End raft.
