(* ===== verification/Batching.v ===== *)
(** * Batches and shadows (src/conductor/fsm.go, src/conductor/direct.go)

    Within a batch the apply paths keep a shadow of the keys written so far. The
    shadow adds nothing to the epoch map for proposals whose reads predate the
    batch: the log may then be cut into batches anywhere, and the fixed-size
    shadow of small direct batches decides like the map of large ones. *)

From S2P Require Import Prelude Types Wire EngineSpec Fsm Occ Direct Raft.

(** Every read epoch is at most [i0]. *)
Definition reads_before (i0 : Z) (rs : list ReadEntry) : Prop :=
  Forall (fun re => re_Epoch re <= i0) rs.

(** A shadowed key has the shadow's record in the epoch map, newer than [i0]. *)
Definition shadow_ok (i0 : Z) (shadow ke : epochs) : Prop :=
  ∀ k s, shadow !! k = Some s → ke !! k = Some s ∧ i0 < Epoch s.

Lemma shadow_ok_empty i0 ke : shadow_ok i0 ∅ ke.
Proof. intros k s. by rewrite lookup_empty. Qed.

Lemma shadow_ok_insert i0 shadow ke k er :
  i0 < Epoch er → shadow_ok i0 shadow ke → shadow_ok i0 (<[k:=er]> shadow) (<[k:=er]> ke).
Proof.
  intros Hi Hs k' s. rewrite !lookup_insert. case_decide; [intros [= <-]; done|apply Hs].
Qed.

(** Old reads: the shadow never decides. *)
Lemma detectConflict_shadow i0 ke shadow rs :
  shadow_ok i0 shadow ke → reads_before i0 rs →
  detectConflict ke shadow rs = detectConflict ke ∅ rs.
Proof.
  intros Hs. induction 1 as [|re rs Hre _ IH]; [done|]. simpl. rewrite lookup_empty.
  destruct (shadow !! re_Key re) as [s|] eqn:Es; [|by rewrite IH].
  destruct (Hs _ _ Es) as [Hk Hlt]. unfold epoch_of. rewrite Hk. simpl.
  assert ((re_Epoch re <? Epoch s) = true) as -> by lia. simpl.
  destruct (exempt s re); simpl; [by rewrite IH|done].
Qed.

Section raft.
Context {Eng Snap Bat : Type} `{StorageEngine Eng Snap Bat}.
Context {Clock : Type} (clock_Observe : Clock → Z → Z → Clock).
Implicit Types f : dpxFSM Eng Clock.

(** The shadow is written, never read, by the write loop. *)
Lemma apply_writes_shadow i0 idx ws bat shadow sh2 ke bat' shadow' ke' err :
  i0 < idx → shadow_ok i0 shadow ke →
  apply_writes idx ws bat shadow ke = (bat', shadow', ke', err) →
  shadow_ok i0 shadow' ke' ∧ ∃ sh2', apply_writes idx ws bat sh2 ke = (bat', sh2', ke', err).
Proof.
  intros Hi. revert bat shadow sh2 ke.
  induction ws as [|w ws IH]; intros bat shadow sh2 ke Hs; simpl; [intros [= <- <- <- <-]; eauto|].
  destruct (write_op w) as [o|]; [|intros [= <- <- <- <-]; eauto].
  apply IH. by apply shadow_ok_insert.
Qed.

Lemma applyProposal_shadow i0 f idx p shadow sh2 f' shadow' err :
  i0 < idx → shadow_ok i0 shadow (f_keyEpoch f) →
  applyProposal f idx p shadow = (f', shadow', err) →
  shadow_ok i0 shadow' (f_keyEpoch f') ∧ ∃ sh2', applyProposal f idx p sh2 = (f', sh2', err).
Proof.
  intros Hi Hs. unfold applyProposal.
  destruct (apply_writes idx (Writes p) _ shadow _) as [[[bat sh1] ke1] e1] eqn:E1.
  destruct (apply_writes_shadow i0 _ _ _ _ sh2 _ _ _ _ _ Hi Hs E1) as [Hs1 [sh2' ->]].
  destruct e1 as [e|]; [intros [= <- <- <-]; eauto|].
  destruct (eng_ApplyBatch _ _ _) as [eng [e|]]; [intros [= <- <- <-]; eauto|].
  destruct (decide _); [destruct (eng_Sync _)|]; intros [= <- <- <-]; eauto.
Qed.

(** Log entries above [i0] whose reads are at most [i0]. *)
Definition log_reads_before (i0 : Z) (log : Log) : Prop :=
  i0 < log_Index log ∧ ∀ p, log_proposal log = Some p → reads_before i0 (ReadSet p).

Lemma apply_log_shadow i0 f log shadow f' shadow' r n :
  log_reads_before i0 log → shadow_ok i0 shadow (f_keyEpoch f) →
  apply_log clock_Observe f shadow log = (f', shadow', r, n) →
  shadow_ok i0 shadow' (f_keyEpoch f')
  ∧ ∃ sh2', apply_log clock_Observe f ∅ log = (f', sh2', r, n).
Proof.
  intros [Hi Hr] Hs. unfold apply_log, log_proposal in *.
  destruct (log_command log); simpl; [|intros [= <- <- <- <-]; eauto].
  destruct (Unmarshal zero_proposal (log_Data log)) as [p|e|];
    [|intros [= <- <- <- <-]; eauto|intros [= <- <- <- <-]; eauto].
  assert (shadow_ok i0 shadow (f_keyEpoch (observe clock_Observe f p))) as Hs'
    by (unfold observe; by case_match).
  rewrite (detectConflict_shadow i0) by auto.
  destruct (detectConflict _ _ _); [intros [= <- <- <- <-]; eauto|].
  destruct (applyProposal _ (log_Index log) p shadow) as [[f1 sh1] err] eqn:E1.
  destruct (applyProposal_shadow i0 _ _ _ _ ∅ _ _ _ Hi Hs' E1) as [Hs1 [sh2' ->]].
  destruct err; intros [= <- <- <- <-]; eauto.
Qed.

(** Apply the log one entry per batch. *)
Fixpoint apply_singly f (logs : list Log) : dpxFSM Eng Clock * list ApplyResult * list (list WriteEntry) :=
  match logs with
  | [] => (f, [], [])
  | log :: logs' =>
      let '(f, rs1, n1) := applyBatch clock_Observe f [log] in
      let '(f, rs2, n2) := apply_singly f logs' in
      (f, rs1 ++ rs2, n1 ++ n2)
  end.

Lemma apply_logs_singly i0 logs f shadow :
  Forall (log_reads_before i0) logs → shadow_ok i0 shadow (f_keyEpoch f) →
  apply_logs clock_Observe f shadow logs = apply_singly f logs.
Proof.
  intros Hl. revert f shadow. induction Hl as [|log logs Hlog _ IH]; intros f shadow Hs; [done|].
  simpl. unfold applyBatch. simpl.
  destruct (apply_log clock_Observe f shadow log) as [[[f1 sh1] r] n] eqn:E1.
  destruct (apply_log_shadow i0 _ _ _ _ _ _ _ Hlog Hs E1) as [Hs1 [sh2 ->]].
  rewrite (IH f1 sh1 Hs1). destruct (apply_singly f1 logs) as [[f2 rs2] n2].
  by rewrite app_nil_r.
Qed.

(** Batching is transparent to old reads: when the reads of every entry
    predate the batch, applying the entries as one batch gives the same FSM,
    results and notifications as applying them one by one, whatever the
    engine answers. *)
Theorem raft_batching_irrelevant i0 logs f :
  Forall (log_reads_before i0) logs → applyBatch clock_Observe f logs = apply_singly f logs.
Proof. intros Hl. apply (apply_logs_singly i0); [done|apply shadow_ok_empty]. Qed.
End raft.

(** ** The two shadows of the direct proposer *)

(** Every key of the stack shadow was written above [i0]. *)
Definition stack_ok (i0 : Z) (sh : stack) (ke : epochs) : Prop :=
  ∀ k s, stack_find sh k = Some s → i0 < Epoch (epoch_of ke k).

(** Reads that are old and not debits. *)
Definition plain_reads (i0 : Z) (rs : list ReadEntry) : Prop :=
  Forall (fun re => re_Epoch re <= i0 ∧ re_IsDebit re = false) rs.

Lemma exempt_plain er re : re_IsDebit re = false → exempt er re = false.
Proof. unfold exempt. intros ->. apply andb_false_r. Qed.

Lemma stack_conflict_plain i0 ke sh shadow rs :
  stack_ok i0 sh ke → shadow_ok i0 shadow ke → plain_reads i0 rs →
  stack_conflict ke sh rs false = detectConflict ke shadow rs.
Proof.
  intros Hsh Hs Hr.
  assert (reads_before i0 rs) as Hb by (eapply Forall_impl; [exact Hr|naive_solver]).
  rewrite (detectConflict_shadow i0 ke shadow) by done. clear Hb.
  induction Hr as [|re rs [He Hd] _ IH]; [done|]. simpl. rewrite lookup_empty.
  rewrite !(exempt_plain _ re) by done. rewrite andb_true_r.
  destruct (re_Epoch re <? _) eqn:Elt; [done|].
  destruct (stack_find sh (re_Key re)) as [s|] eqn:Ef; [|done].
  apply Hsh in Ef. lia.
Qed.

Lemma stack_find_app sh k er k' :
  stack_find (sh ++ [(k, er)]) k'
  = match stack_find sh k' with
    | Some s => Some s
    | None => if decide (k = k') then Some er else None
    end.
Proof. induction sh as [|[k0 e0] sh IH]; simpl; [done|]. by destruct (decide (k0 = k')). Qed.

Lemma stack_ok_write i0 sh ke k er :
  i0 < Epoch er → stack_ok i0 sh ke →
  stack_ok i0 (if decide (length sh < maxStackShadow)%nat then sh ++ [(k, er)] else sh) (<[k:=er]> ke).
Proof.
  intros Hi Hs k' s Hf. unfold epoch_of. rewrite lookup_insert. destruct (decide (k = k')) as [E|E]; [exact Hi|].
  apply (Hs k' s). case_decide; [|done]. rewrite stack_find_app in Hf.
  destruct (stack_find sh k'); [done|]. by rewrite decide_False in Hf.
Qed.

Section direct.
Context {Eng Snap Bat : Type} `{StorageEngine Eng Snap Bat}.
Context {Clock : Type} (clock_Observe : Clock → Z → Z → Clock).
Implicit Types d : directProposer Eng Clock.

Lemma writes_agree i0 idx ws bat sh shadow ke :
  i0 < idx → client_writes ws → stack_ok i0 sh ke → shadow_ok i0 shadow ke →
  ∃ bat' sh' shadow' ke',
    stack_writes idx ws bat sh ke = (bat', sh', ke')
    ∧ apply_writes idx ws bat shadow ke = (bat', shadow', ke', None)
    ∧ stack_ok i0 sh' ke' ∧ shadow_ok i0 shadow' ke'.
Proof.
  intros Hi Hw. revert bat sh shadow ke.
  induction Hw as [|w ws [_ Hk] _ IH]; intros bat sh shadow ke H1 H2; [by eauto 10|].
  cbn [stack_writes apply_writes]. destruct (known_write_op w Hk) as [o ->].
  apply IH; [by apply stack_ok_write|by apply shadow_ok_insert].
Qed.

(** What a batch may hold for the two paths to agree. *)
Definition plain_proposal (i0 : Z) (p : Proposal) : Prop :=
  client_proposal p ∧ plain_reads i0 (ReadSet p).

Lemma batches_agree i0 ps d bat sh shadow hw :
  Forall (plain_proposal i0) ps → i0 <= d_index d → 0 <= d_index d →
  d_index d + Z.of_nat (length ps) < 2 ^ 64 →
  stack_ok i0 sh (f_keyEpoch (d_fsm d)) → shadow_ok i0 shadow (f_keyEpoch (d_fsm d)) →
  small_batch clock_Observe d bat sh hw ps = large_batch clock_Observe d bat shadow hw ps.
Proof.
  intros Hps. revert d bat sh shadow hw.
  induction Hps as [|p ps [Hp Hr] _ IH]; intros d bat sh shadow hw Hi H0 Hb H1 H2; [done|].
  cbn [length] in Hb. cbn [small_batch large_batch]. unfold small_entry, large_entry.
  assert (u64 (d_index d + 1) = d_index d + 1) as Eu by (apply u64_small; width_lia).
  cbn [d_index d_fsm set_index set_fsm]. rewrite Eu.
  assert (f_keyEpoch (observe clock_Observe (d_fsm d) p) = f_keyEpoch (d_fsm d)) as Ek
    by (unfold observe; by case_match).
  rewrite Ek, (stack_conflict_plain i0 _ _ shadow) by done.
  destruct (detectConflict _ _ _).
  { rewrite (IH _ bat sh shadow hw); [done|..]; cbn; rewrite ?Ek; try done; lia. }
  unfold applyProposalToBatch.
  destruct (writes_agree i0 (d_index d + 1) (Writes p) bat sh shadow (f_keyEpoch (d_fsm d)))
    as (bat' & sh' & shadow' & ke' & -> & -> & H1' & H2'); [lia|done..|].
  rewrite (IH _ _ sh' shadow' true); [done|..]; cbn; try done; lia.
Qed.

(** The array-backed path of small batches is an optimisation of the
    map-backed one: on proposals with plain reads taken before the batch the
    two give the same proposer state, engine batch and results. *)
Theorem small_path_agrees ps d bat :
  Forall (plain_proposal (d_index d)) ps → 0 <= d_index d →
  d_index d + Z.of_nat (length ps) < 2 ^ 64 →
  small_batch clock_Observe d bat [] false ps = large_batch clock_Observe d bat ∅ false ps.
Proof.
  intros Hps H0 Hb. apply (batches_agree (d_index d)); try done; lia.
Qed.
End direct.
