(* ===== verification/Sharded.v ===== *)
(** * The sharded proposer (src/conductor/sharded_direct.go)

    128 inline proposers, each with its own epoch map and index, over one shared
    engine. A proposal is applied, whole, by the shard of its first write. The
    spinlock makes [applyInline] one atomic step per shard. *)

From S2P Require Import Prelude Types Wire EngineSpec Shard Dump Mvcc Fsm Occ Direct.

Inductive proposeErr := ErrShardedClosed | ErrUnmarshal (e : UnmarshalErr).

(** ** The MVCC fast path *)

(** The value of a [MVCCWriteOp]: bytes of its own, or the first [n] bytes of
    the buffer [epochBuf] that the loop keeps overwriting. *)
Inductive opValue := VBytes (b : bytes) | VEpochBuf (n : nat).

(** A [MVCCWriteOp] before the buffer has its final contents. *)
Inductive writeOp :=
  | WSet (k : bytes) (v : opValue)
  | WDelete (k : bytes)
  | WMerge (k : bytes) (v : opValue).

(** Dereference the values at the time of the call. *)
Definition deref (epochBuf : bytes) (v : opValue) : bytes :=
  match v with VBytes b => b | VEpochBuf n => take n epochBuf end.

Definition deref_op (epochBuf : bytes) (o : writeOp) : bop :=
  match o with
  | WSet k v => BSet k (deref epochBuf v)
  | WDelete k => BDelete k
  | WMerge k v => BMerge k (deref epochBuf v)
  end.

(** The loop over the writes: the operations, the buffer and the epoch map. *)
Fixpoint mvcc_writes (idx : Z) (ws : list WriteEntry) (writes : list writeOp) (epochBuf : bytes)
    (ke : epochs) : list writeOp * bytes * epochs :=
  match ws with
  | [] => (writes, epochBuf, ke)
  | w :: ws' =>
      let writes := match write_op w with
                    | Some (BSet k v) => writes ++ [WSet k (VBytes v)]
                    | Some (BDelete k) => writes ++ [WDelete k]
                    | Some (BMerge k v) => writes ++ [WMerge k (VBytes v)]
                    | None => writes
                    end in
      let er := write_epoch idx w in
      let epochBuf := encodeEpochRecord er in
      let writes := writes ++ [WSet (versionKey (we_Key w)) (VEpochBuf 9)] in
      mvcc_writes idx ws' writes epochBuf (<[we_Key w := er]> ke)
  end.

(** The operations handed to [ApplyShardDirect]. *)
Definition mvcc_ops (idx : Z) (ws : list WriteEntry) (ke : epochs) : list bop * epochs :=
  let '(writes, epochBuf, ke) := mvcc_writes idx ws [] (replicate 9 x00) ke in
  (* [encodeUint64(idx, epochBuf[:8])] overwrites the first eight bytes *)
  let epochBuf := encodeUint64 idx ++ drop 8 epochBuf in
  let writes := writes ++ [WSet appliedKey (VEpochBuf 8)] in
  (map (deref_op epochBuf) writes, ke).

Section sharded.
Context {Eng Snap Bat : Type} `{StorageEngine Eng Snap Bat}.

(** The engine as the type switch of [applyInline] sees it. *)
Inductive shardEngine :=
  | EngMVCC (e : MVCCEngine)  (* a [*memory.MVCCEngine] with [IsSharded()] *)
  | EngOther (e : Eng).

Record shardProposer := { sp_keyEpoch : epochs; sp_applied : Z; sp_index : Z }.

Record shardedDirectProposer := {
  sd_engine : shardEngine;
  sd_shards : list shardProposer;
  sd_closed : bool;
  sd_syncPolicy : SyncPolicy;
  sd_watchers : bool;
  sd_metrics : option Z;
}.

Definition new_shard (f : dpxFSM Eng unit) : shardProposer :=
  {| sp_keyEpoch := f_keyEpoch f; sp_applied := f_applied f; sp_index := 0 |}.

(** newShardedDirectProposer on an engine other than MVCC: every shard's FSM
    is opened on the same engine, so all start with the same epoch map. *)
Definition newShardedDirectProposer (eng : Eng) (sp : SyncPolicy) (watchers : bool)
    (metrics : option Z) : result OpenErr shardedDirectProposer :=
  let! f := open (fun _ => false) (newFSM eng sp watchers metrics tt) in
  Ok {| sd_engine := EngOther eng; sd_shards := replicate numShards (new_shard f); sd_closed := false;
        sd_syncPolicy := sp; sd_watchers := watchers; sd_metrics := metrics |}.

(** The same on a sharded MVCC engine, through its [RawIter]. *)
Definition newShardedDirectProposer_mvcc (e : MVCCEngine) (sp : SyncPolicy) (watchers : bool)
    (metrics : option Z) : result OpenErr shardedDirectProposer :=
  let! ke := rebuild (fun _ => false) 0 (mvcc_RawIter e rawIterStart rawIterEnd) ∅ in
  let sh := {| sp_keyEpoch := ke; sp_applied := CurrentSequence e; sp_index := 0 |} in
  Ok {| sd_engine := EngMVCC e; sd_shards := replicate numShards sh; sd_closed := false;
        sd_syncPolicy := sp; sd_watchers := watchers; sd_metrics := metrics |}.

(** (s *shardedDirectProposer) shardFor *)
Definition proposal_shard (p : Proposal) : nat :=
  match Writes p, ReadSet p with
  | w :: _, _ => conductor_shardFor (we_Key w)
  | [], re :: _ => conductor_shardFor (re_Key re)
  | [], [] => 0%nat
  end.

(** The fallback loop over the writes. *)
Fixpoint inline_writes (idx : Z) (ws : list WriteEntry) (bat : Bat) (ke : epochs) : Bat * epochs :=
  match ws with
  | [] => (bat, ke)
  | w :: ws' =>
      let bat := match write_op w with
                 | Some (BSet k v) => bat_Set bat k v
                 | Some (BDelete k) => bat_Delete bat k
                 | Some (BMerge k v) => bat_Merge bat k v
                 | None => bat
                 end in
      let er := write_epoch idx w in
      let bat := bat_Set bat (versionKey (we_Key w)) (encodeEpochRecord er) in
      inline_writes idx ws' bat (<[we_Key w := er]> ke)
  end.

Definition count_conflicts (s : shardedDirectProposer) : shardedDirectProposer :=
  {| sd_engine := sd_engine s; sd_shards := sd_shards s; sd_closed := sd_closed s;
     sd_syncPolicy := sd_syncPolicy s; sd_watchers := sd_watchers s;
     sd_metrics := (fun n => u64 (n + 1)) <$> sd_metrics s |}.

Definition set_shard (s : shardedDirectProposer) (i : nat) (sp : shardProposer) : shardedDirectProposer :=
  {| sd_engine := sd_engine s; sd_shards := <[i := sp]> (sd_shards s); sd_closed := sd_closed s;
     sd_syncPolicy := sd_syncPolicy s; sd_watchers := sd_watchers s; sd_metrics := sd_metrics s |}.

Definition set_sd_engine (s : shardedDirectProposer) (e : shardEngine) : shardedDirectProposer :=
  {| sd_engine := e; sd_shards := sd_shards s; sd_closed := sd_closed s;
     sd_syncPolicy := sd_syncPolicy s; sd_watchers := sd_watchers s; sd_metrics := sd_metrics s |}.

(** [notified]: the writes passed to the watchers, if any. *)
Definition notify_one (s : shardedDirectProposer) (p : Proposal) : list (list WriteEntry) :=
  if sd_watchers s then [Writes p] else [].

(** (sp *shardProposer) applyInline on shard [i]. The conflict check looks at
    the epoch map only: the local shadow stays empty; and only when there are
    at most 64 reads. *)
Definition applyInline (s : shardedDirectProposer) (i : nat) (sp : shardProposer) (p : Proposal) :
    shardedDirectProposer * ApplyResult * list (list WriteEntry) :=
  let idx := u64 (sp_index sp + 1) in
  let conflict := if decide (length (ReadSet p) ≤ maxStackShadow)%nat
                  then stack_conflict (sp_keyEpoch sp) [] (ReadSet p) false else false in
  if conflict : bool then
    (count_conflicts (set_shard s i {| sp_keyEpoch := sp_keyEpoch sp; sp_applied := sp_applied sp;
                                       sp_index := idx |}), res_conflict, [])
  else
    match sd_engine s with
    | EngMVCC e =>
        let '(ops, ke) := mvcc_ops idx (Writes p) (sp_keyEpoch sp) in
        let '(e, commitSeq) := mvcc_ApplyShardDirect e i ops in
        let s := set_shard (set_sd_engine s (EngMVCC e)) i
                   {| sp_keyEpoch := ke; sp_applied := commitSeq; sp_index := idx |} in
        (s, res_ok, notify_one s p)
    | EngOther e =>
        let '(bat, ke) := inline_writes idx (Writes p) (eng_NewBatch e) (sp_keyEpoch sp) in
        let bat := bat_Set bat appliedKey (encodeUint64 idx) in
        let '(e, err) := eng_ApplyBatch e bat (bool_decide (sd_syncPolicy s = SyncFull)) in
        let s := set_sd_engine s (EngOther e) in
        match err with
        | Some er =>
            (set_shard s i {| sp_keyEpoch := ke; sp_applied := sp_applied sp; sp_index := idx |},
             res_err (ErrApply er), [])
        | None =>
            (* the result of [Sync] is not looked at *)
            let _ := if decide (sd_syncPolicy s = SyncBatch) then eng_Sync e else None in
            let s := set_shard s i {| sp_keyEpoch := ke; sp_applied := idx; sp_index := idx |} in
            (s, res_ok, notify_one s p)
        end
    end.

(** (s *shardedDirectProposer) ProposeDirect; [Panic] is an index out of the
    array of shards. *)
Definition ProposeDirect (s : shardedDirectProposer) (p : Proposal) :
    result proposeErr (shardedDirectProposer * ApplyResult * list (list WriteEntry)) :=
  if sd_closed s then Err ErrShardedClosed
  else
    let sh := proposal_shard p in
    match sd_shards s !! sh with
    | Some sp => Ok (applyInline s sh sp p)
    | None => Panic
    end.

(** (s *shardedDirectProposer) Propose *)
Definition Propose (s : shardedDirectProposer) (data : bytes) :
    result proposeErr (shardedDirectProposer * ApplyResult * list (list WriteEntry)) :=
  if sd_closed s then Err ErrShardedClosed
  else
    match Unmarshal zero_proposal data with
    | Ok p => ProposeDirect s p
    | Err e => Err (ErrUnmarshal e)
    | Panic => Panic
    end.

(** (s *shardedDirectProposer) Shutdown *)
Definition Shutdown (s : shardedDirectProposer) : shardedDirectProposer :=
  {| sd_engine := sd_engine s; sd_shards := sd_shards s; sd_closed := true;
     sd_syncPolicy := sd_syncPolicy s; sd_watchers := sd_watchers s; sd_metrics := sd_metrics s |}.
End sharded.

Arguments shardEngine Eng : clear implicits.
Arguments shardedDirectProposer Eng : clear implicits.
