(* ===== verification/ShardedSpec.v ===== *)
(** * Correctness of the sharded proposer

    Over an engine that meets its laws, proposals whose keys all belong to one
    shard are serializable, although every shard counts its own epochs. *)

From S2P Require Import Prelude Types Wire EngineSpec Shard Dump Mvcc.
From S2P Require Import MvccSpec Fsm Occ Direct Reopen Sharded.

(** All keys of the proposal belong to shard [i], and the read set is small
    enough to be checked. *)
Definition single_shard (i : nat) (p : Proposal) : Prop :=
  Forall (fun w => shardFor (we_Key w) = i) (Writes p)
  ∧ Forall (fun re => shardFor (re_Key re) = i) (ReadSet p)
  ∧ (length (ReadSet p) ≤ maxStackShadow)%nat.

(** What the sharded proposer handles correctly. *)
Definition shard_proposal (p : Proposal) : Prop :=
  client_proposal p ∧ single_shard (proposal_shard p) p
  ∧ Forall (fun re => isReserved (re_Key re) = false) (ReadSet p).

(** [hist] with one index per shard. *)
Definition shard_hist (i0 : nat → Z) (m0 m : store) : Prop :=
  ∀ k, isReserved k = false → Epoch (ver m k) <= i0 (shardFor k) →
    m !! k = m0 !! k ∧ ver m k = ver m0 k.

(** *** Keys outside a proposal *)

Lemma commit_other_key m idx p k :
  isReserved k = false → is_u64 idx → user_writes (Writes p) → k ∉ map we_Key (Writes p) →
  commit m (idx, p) !! k = m !! k ∧ ver (commit m (idx, p)) k = ver m k.
Proof.
  intros Hk Hu Hw Hn. unfold commit. simpl.
  rewrite commit_ops_last, ver_applied_op, lookup_applied_op by done.
  revert m Hn. induction Hw as [|w ws Hr _ IH]; intros m Hn; [done|]. simpl in Hn.
  apply not_elem_of_cons in Hn as [Hne Hn]. rewrite writes_ops_cons.
  destruct (IH (spec_ops m (write_ops idx w)) Hn) as [-> ->]. split.
  - apply lookup_write_ops_ne; [done|by apply user_key_ne_version].
  - by rewrite ver_write_ops, decide_False.
Qed.

Lemma ver_commit_written m idx p k :
  is_u64 idx → user_writes (Writes p) → k ∈ map we_Key (Writes p) →
  Epoch (ver (commit m (idx, p)) k) = idx.
Proof.
  intros Hu Hw Hin. unfold commit. simpl. rewrite commit_ops_last, ver_applied_op.
  revert m Hin. induction Hw as [|w ws Hr Hws IH]; intros m Hin; [by apply elem_of_nil in Hin|].
  rewrite writes_ops_cons. destruct (decide (k ∈ map we_Key ws)) as [Hi|Hi]; [by apply IH|].
  simpl in Hin. apply elem_of_cons in Hin as [->|?]; [|done].
  assert (ver (spec_ops (spec_ops m (write_ops idx w)) (writes_ops idx ws)) (we_Key w)
          = ver (spec_ops m (write_ops idx w)) (we_Key w)) as ->.
  { set (m1 := spec_ops m (write_ops idx w)).
    destruct (commit_other_key m1 idx {| ReadSet := []; Writes := ws; TimestampWall := 0;
      TimestampCounter := 0 |} (we_Key w)) as [_ E]; try done.
    unfold commit in E. simpl in E. by rewrite commit_ops_last, ver_applied_op in E. }
  by rewrite ver_write_ops, decide_True.
Qed.

Section spec.
Context {Eng Snap Bat : Type} `{EngineLaws Eng Snap Bat}.
Implicit Types s : shardedDirectProposer Eng.

(** The store behind the proposer. *)
Definition sd_store s : store := match sd_engine s with EngOther e => eng_abs e | EngMVCC _ => ∅ end.

Definition shard_index s (i : nat) : Z := from_option sp_index 0 (sd_shards s !! i).

(** Every shard's epoch map is right for the keys of that shard, and its index
    is not behind their versions. *)
Record sinv s : Prop := {
  si_engine : ∃ e, sd_engine s = EngOther e ∧ eng_inv e;
  si_shards : length (sd_shards s) = numShards;
  si_open : sd_closed s = false;
  si_index : ∀ i sp, sd_shards s !! i = Some sp → 0 <= sp_index sp;
  si_ke : ∀ i sp k, sd_shards s !! i = Some sp → isReserved k = false → shardFor k = i →
    epoch_of (sp_keyEpoch sp) k = ver (sd_store s) k ∧ 0 <= Epoch (ver (sd_store s) k) <= sp_index sp;
}.

Lemma inline_writes_spec e idx ws bat ops ke :
  bat_is e bat ops →
  ∃ bat', inline_writes idx ws bat ke = (bat', epochs_after idx ws ke)
    ∧ bat_is e bat' (ops ++ writes_ops idx ws).
Proof.
  revert bat ops ke. induction ws as [|w ws IH]; intros bat ops ke Hb; simpl.
  { exists bat. by rewrite app_nil_r. }
  edestruct (IH _ _ (<[we_Key w := write_epoch idx w]> ke) (bat_write_is e bat ops w idx Hb))
    as (bat' & -> & Hb').
  exists bat'. split; [done|]. by rewrite <- app_assoc in Hb'.
Qed.

(** The epoch map follows the version of each single key. *)
Lemma epochs_after_key idx p ke m k :
  is_u64 idx → user_writes (Writes p) → epoch_of ke k = ver m k →
  epoch_of (epochs_after idx (Writes p) ke) k = ver (commit m (idx, p)) k.
Proof.
  intros Hi Hw He. unfold commit. simpl. rewrite commit_ops_last, ver_applied_op.
  revert ke m He. induction Hw as [|w ws Hr _ IH]; intros ke m He; [done|].
  rewrite writes_ops_cons. apply IH. rewrite ver_write_ops by done.
  unfold epoch_of in *. rewrite lookup_insert. by case_decide.
Qed.

(** Replacing the state of one shard. *)
Lemma sinv_update s s' i sp sp' :
  sinv s → sd_shards s !! i = Some sp → sd_shards s' = <[i := sp']> (sd_shards s) →
  sd_closed s' = false → (∃ e, sd_engine s' = EngOther e ∧ eng_inv e) → 0 <= sp_index sp' →
  (∀ k, isReserved k = false → shardFor k ≠ i → ver (sd_store s') k = ver (sd_store s) k) →
  (∀ k, isReserved k = false → shardFor k = i →
     epoch_of (sp_keyEpoch sp') k = ver (sd_store s') k ∧ 0 <= Epoch (ver (sd_store s') k) <= sp_index sp') →
  sinv s'.
Proof.
  intros [] Hi Hs Hc He Hx0 Hother Hsame.
  assert (∀ j x, sd_shards s' !! j = Some x → (j = i ∧ x = sp') ∨ (j ≠ i ∧ sd_shards s !! j = Some x)) as Hj.
  { intros j x Hx. rewrite Hs in Hx. destruct (decide (j = i)) as [->|Hne].
    - left. rewrite list_lookup_insert_eq in Hx by (by eapply lookup_lt_Some). by simplify_eq.
    - right. by rewrite list_lookup_insert_ne in Hx. }
  split; try done.
  - by rewrite Hs, length_insert.
  - intros j x [[-> ->]|[_ Hx]]%Hj; [done|by eapply si_index0].
  - intros j x k [[-> ->]|[Hne Hx]]%Hj Hk Hkj; [by apply Hsame|].
    rewrite Hother by congruence. by eapply si_ke0.
Qed.

Lemma shard_index_update s s' i sp sp' j :
  sd_shards s !! i = Some sp → sd_shards s' = <[i := sp']> (sd_shards s) →
  sp_index sp' = sp_index sp + 1 →
  shard_index s' j = shard_index s j + if decide (j = i) then 1 else 0.
Proof.
  intros Hi Hs Hx. unfold shard_index. rewrite Hs. case_decide as E.
  - subst j. rewrite list_lookup_insert_eq by (by eapply lookup_lt_Some). by rewrite Hi.
  - rewrite list_lookup_insert_ne by done. lia.
Qed.

(** A committed proposal of shard [i]. *)
Lemma sinv_commit s s' i sp sp' p e :
  sinv s → sd_shards s !! i = Some sp → sp_index sp + 1 < 2 ^ 64 →
  client_proposal p → Forall (fun w => shardFor (we_Key w) = i) (Writes p) →
  sd_shards s' = <[i := sp']> (sd_shards s) → sd_closed s' = false →
  sd_engine s' = EngOther e → eng_inv e → sp_index sp' = sp_index sp + 1 →
  sp_keyEpoch sp' = epochs_after (sp_index sp + 1) (Writes p) (sp_keyEpoch sp) →
  sd_store s' = commit (sd_store s) (sp_index sp + 1, p) →
  sinv s'.
Proof.
  intros Hs Hsp Hb Hp Hw Hs' Hc He Hei Hx Hke Hst.
  pose proof (client_user _ Hp) as Hu. pose proof (si_index s Hs i sp Hsp) as Hx0.
  assert (is_u64 (sp_index sp + 1)) as Hu64 by width_lia.
  assert (∀ k, k ∈ map we_Key (Writes p) → shardFor k = i) as Hin.
  { intros k (w & -> & Hwi)%list_elem_of_fmap. rewrite Forall_forall in Hw. by apply Hw. }
  eapply (sinv_update s s' i sp sp'); try done; [by eauto|lia| |].
  - intros k Hk Hne. rewrite Hst. apply commit_other_key; try done. naive_solver.
  - intros k Hk Hki. rewrite Hst, Hke, Hx. destruct (si_ke s Hs i sp k Hsp Hk Hki) as [Hek Hbk].
    split; [by apply epochs_after_key|].
    destruct (decide (k ∈ map we_Key (Writes p))) as [Hw'|Hw'].
    + rewrite ver_commit_written by done. lia.
    + destruct (commit_other_key (sd_store s) (sp_index sp + 1) p k) as [_ ->]; try done. lia.
Qed.

(** One proposal: [applyInline] on the proposal's own shard. *)
Lemma applyInline_spec s p sp s' r ns :
  sinv s → shard_proposal p → sd_shards s !! proposal_shard p = Some sp → sp_index sp + 1 < 2 ^ 64 →
  applyInline s (proposal_shard p) sp p = (s', r, ns) → engine_error r = false →
  sinv s'
    ∧ (∀ j, shard_index s' j
            = shard_index s j + if decide (j = proposal_shard p) then 1 else 0)
    ∧ ((r = res_conflict ∧ sd_store s' = sd_store s
        ∧ ¬ Forall (fun re => passes (ver (sd_store s) (re_Key re)) re) (ReadSet p))
       ∨ (r = res_ok ∧ sd_store s' = commit (sd_store s) (sp_index sp + 1, p)
        ∧ Forall (fun re => passes (ver (sd_store s) (re_Key re)) re) (ReadSet p))).
Proof.
  intros Hs (Hc & (Hw & Hr & Hlen) & Hres) Hsp Hb Hap Hno. revert Hap. pose proof (si_index s Hs _ sp Hsp) as Hx0.
  assert (∀ re, re ∈ ReadSet p → epoch_of (sp_keyEpoch sp) (re_Key re) = ver (sd_store s) (re_Key re)) as Hke.
  { intros re Hin. rewrite Forall_forall in Hr, Hres. by eapply (si_ke s Hs); eauto. }
  assert (Forall (fun re => passes (epoch_of (sp_keyEpoch sp) (re_Key re)) re) (ReadSet p)
          ↔ Forall (fun re => passes (ver (sd_store s) (re_Key re)) re) (ReadSet p)) as Hpass.
  { rewrite !Forall_forall. split; intros HF re Hin; specialize (HF re Hin);
      [rewrite <- Hke by done|rewrite Hke by done]; done. }
  rewrite <- stack_conflict_exact in Hpass. unfold applyInline.
  rewrite (u64_small (sp_index sp + 1)) by width_lia. rewrite decide_True by done.
  destruct (stack_conflict _ _ _ _) eqn:Ec.
  - intros [= <- <- <-]. split_and!.
    + eapply (sinv_update s _ _ sp); try done; [apply Hs|apply Hs|simpl; lia|].
      intros k Hk Hki. destruct (si_ke s Hs _ sp k Hsp Hk Hki) as [? ?]. simpl.
      change (sd_store (count_conflicts _)) with (sd_store s). split; [done|lia].
    + intros j. by eapply shard_index_update.
    + left. split_and!; [done|done|]. intros HF. by apply Hpass in HF.
  - destruct (si_engine s Hs) as (e & Ee & Hei). rewrite Ee.
    assert (sd_store s = eng_abs e) as Est by (unfold sd_store; by rewrite Ee).
    destruct (inline_writes_spec e (sp_index sp + 1) (Writes p) _ [] (sp_keyEpoch sp) (bat_is_new e))
      as (bat & -> & Hbat).
    apply (bat_is_add _ _ _ (applied_op (sp_index sp + 1))) in Hbat. simpl in Hbat.
    destruct (eng_ApplyBatch e _ _) as [e' [er|]] eqn:Ea; [by intros [= <- <- <-]|].
    destruct (bat_is_apply _ _ _ _ _ Hei Hbat Ea) as [Hei' Habs]. rewrite <- Est in Habs.
    intros [= <- <- <-]. split_and!.
    + eapply (sinv_commit s _ _ sp); try done. apply Hs.
    + intros j. by eapply shard_index_update.
    + right. split_and!; [done|done|]. by apply Hpass.
Qed.

(** ** Reachable states *)

(** One proposal within one shard, applied alone and not answered with an error
    of the engine. *)
Inductive sstep s s' : Prop :=
  | sstep_propose p r ns :
      shard_proposal p → shard_index s (proposal_shard p) + 1 < 2 ^ 64 →
      ProposeDirect s p = Ok (s', r, ns) → engine_error r = false → sstep s s'.

Lemma ProposeDirect_spec s p s' r ns :
  sinv s → shard_proposal p → shard_index s (proposal_shard p) + 1 < 2 ^ 64 →
  ProposeDirect s p = Ok (s', r, ns) → engine_error r = false →
  sinv s'
  ∧ (∀ j, shard_index s' j = shard_index s j + if decide (j = proposal_shard p) then 1 else 0)
  ∧ ((r = res_conflict ∧ sd_store s' = sd_store s
      ∧ ¬ Forall (fun re => passes (ver (sd_store s) (re_Key re)) re) (ReadSet p))
     ∨ (r = res_ok ∧ sd_store s' = commit (sd_store s) (shard_index s (proposal_shard p) + 1, p)
      ∧ Forall (fun re => passes (ver (sd_store s) (re_Key re)) re) (ReadSet p))).
Proof.
  intros Hs Hp Hb Ha Hno. unfold ProposeDirect in Ha. rewrite (si_open s Hs) in Ha.
  destruct (sd_shards s !! proposal_shard p) as [sp|] eqn:Esp; [|done].
  unfold shard_index in *. rewrite Esp in *. simpl in *.
  injection Ha as Ha. by apply (applyInline_spec s p sp s' r ns).
Qed.

Lemma shard_index_nonneg s j : sinv s → 0 <= shard_index s j.
Proof.
  intros Hs. unfold shard_index. destruct (sd_shards s !! j) eqn:E; simpl; [|lia].
  by eapply (si_index s Hs).
Qed.

Lemma shard_hist_commit i0 m0 m idx p :
  is_u64 idx → client_proposal p → Forall (fun w => i0 (shardFor (we_Key w)) < idx) (Writes p) →
  shard_hist i0 m0 m → shard_hist i0 m0 (commit m (idx, p)).
Proof.
  intros Hu Hp Hi Hh k Hk He. pose proof (client_user _ Hp) as Hw.
  destruct (decide (k ∈ map we_Key (Writes p))) as [Hin|Hn].
  - rewrite ver_commit_written in He by done. apply list_elem_of_fmap in Hin as (w & -> & Hin).
    rewrite Forall_forall in Hi. specialize (Hi w Hin). lia.
  - destruct (commit_other_key m idx p k) as [E1 E2]; try done. rewrite E2 in He |- *.
    rewrite E1. by apply Hh.
Qed.

Lemma sreach_hist s0 s :
  sinv s0 → rtc sstep s0 s →
  sinv s ∧ (∀ j, shard_index s0 j <= shard_index s j)
  ∧ shard_hist (shard_index s0) (sd_store s0) (sd_store s).
Proof.
  intros Hs0 Hr. revert s Hr.
  apply (rtc_ind_r (fun s => sinv s ∧ (∀ j, shard_index s0 j <= shard_index s j)
                            ∧ shard_hist (shard_index s0) (sd_store s0) (sd_store s))).
  { split_and!; [done|lia|]. by intros k Hk He. }
  intros s s' _ [p r ns Hp Hb Ha Hno] (Hs & Hi & Hh).
  destruct (ProposeDirect_spec s p s' r ns Hs Hp Hb Ha Hno) as (Hs' & Hidx & Hcase).
  split_and!; [done|intros j; rewrite Hidx; specialize (Hi j); case_decide; lia|].
  destruct Hcase as [(_ & -> & _)|(_ & -> & _)]; [done|].
  destruct Hp as (Hc & (Hw & _) & _).
  apply shard_hist_commit; [|done| |done].
  - pose proof (shard_index_nonneg s (proposal_shard p) Hs). width_lia.
  - eapply Forall_impl; [exact Hw|]. intros w ->. specialize (Hi (proposal_shard p)). lia.
Qed.

(** A commit keeps the reads recorded in an earlier state valid. *)
Lemma sharded_commit_valid s0 s p s' r ns :
  sinv s0 → rtc sstep s0 s → shard_proposal p →
  shard_index s (proposal_shard p) + 1 < 2 ^ 64 →
  ProposeDirect s p = Ok (s', r, ns) → engine_error r = false →
  sinv s'
  ∧ ((r = res_conflict ∧ sd_store s' = sd_store s)
     ∨ (r = res_ok ∧ sd_store s' = commit (sd_store s) (shard_index s (proposal_shard p) + 1, p)
        ∧ (reads_from (sd_store s0) (ReadSet p) →
           Forall (read_valid (sd_store s0) (sd_store s)) (ReadSet p)))).
Proof.
  intros Hs0 Hr Hp Hb Ha Hno. destruct (sreach_hist s0 s Hs0 Hr) as (Hs & Hi & Hh).
  destruct (ProposeDirect_spec s p s' r ns Hs Hp Hb Ha Hno) as (Hs' & _ & Hcase).
  split; [done|]. destruct Hcase as [(-> & Est & _)|(-> & Est & Hpass)]; [by left|right].
  split_and!; [done|done|]. intros Hrf. unfold reads_from in Hrf. rewrite Forall_forall in *.
  intros re Hin. destruct (Hrf re Hin) as [Hk He]. destruct (Hpass re Hin) as [Hle|Hex].
  - left. apply Hh; [done|]. destruct Hs0 as [_ Hlen _ _ Hke0].
    destruct (lookup_lt_is_Some_2 (sd_shards s0) (shardFor (re_Key re))) as [sp Hsp].
    { rewrite Hlen. apply shardFor_lt. }
    destruct (Hke0 _ sp (re_Key re) Hsp Hk eq_refl) as [_ Hbd].
    unfold shard_index. rewrite Hsp. simpl. lia.
  - right. unfold exempt in Hex. apply andb_true_iff in Hex as [? ?]. done.
Qed.

(** C4. The sharded proposer is serializable for proposals within one shard, on
    its path for engines other than the MVCC one. The proposals are client
    proposals of at most 64 reads, all of unreserved keys, whose written and read
    keys all belong to the shard the proposal is sent to; they are applied one at
    a time, none answered with an error of the engine, and no shard's 64-bit
    index overflows. From any good state [s0] (every shard's epoch map agrees
    with the stored versions of its keys and its index is not below them) in
    which the reads were recorded, through such proposals to [s]: the next one
    commits exactly when no key it read has a newer version (credits excepted for
    debits); committing executes its writes on the store, and its reads are then
    still valid; otherwise the store is unchanged. *)
Theorem sharded_serializable s0 s p s' r ns :
  sinv s0 → rtc sstep s0 s → shard_proposal p →
  shard_index s (proposal_shard p) + 1 < 2 ^ 64 →
  ProposeDirect s p = Ok (s', r, ns) → engine_error r = false →
  sinv s'
  ∧ (r = res_ok ↔ Forall (fun re => passes (ver (sd_store s) (re_Key re)) re) (ReadSet p))
  ∧ ((r = res_conflict ∧ sd_store s' = sd_store s)
     ∨ (r = res_ok ∧ sd_store s' = commit (sd_store s) (shard_index s (proposal_shard p) + 1, p)
        ∧ (reads_from (sd_store s0) (ReadSet p) →
           Forall (read_valid (sd_store s0) (sd_store s)) (ReadSet p)))).
Proof.
  intros Hs0 Hr Hp Hb Ha Hno. destruct (sharded_commit_valid s0 s p s' r ns Hs0 Hr Hp Hb Ha Hno) as [Hs' Hc].
  split_and!; [done| |done]. destruct (sreach_hist s0 s Hs0 Hr) as (Hs & _).
  destruct (ProposeDirect_spec s p s' r ns Hs Hp Hb Ha Hno) as (_ & _ & [(-> & _ & Hn)|(-> & _ & Hf)]); done.
Qed.
End spec.
