(* ===== verification/Buffers.v ===== *)
(** * The buffers of the apply path (src/conductor/fsm.go, src/helpers.go)

    [versionKey], [encodeEpochRecord] and [encodeUint64] write into buffers their
    callers reuse for every write of a proposal. Here the buffers are arrays of a
    heap and the results slices of them, so that a later call overwrites an
    earlier result. The value-level definitions of Fsm.v and Sharded.v are
    refinements of these. *)

From S2P Require Import Prelude Types EngineSpec Mvcc Fsm Occ Sharded.

(** ** Slices *)

(** The arrays allocated so far. *)
Abbreviation heap := (list (list Init.Byte.byte)).

(** A slice from the start of its array; its capacity is the array's length. *)
Record slice := { sl_arr : nat; sl_len : nat }.

(** The bytes a slice holds now. *)
Definition read (h : heap) (s : slice) : option bytes :=
  ar ← h !! sl_arr s; if decide (sl_len s ≤ length ar)%nat then Some (take (sl_len s) ar) else None.

(** [s[:n]]; [None] is the panic when [n] exceeds the capacity. *)
Definition reslice (h : heap) (s : slice) (n : nat) : option slice :=
  ar ← h !! sl_arr s; if decide (n ≤ length ar)%nat then Some {| sl_arr := sl_arr s; sl_len := n |} else None.

Definition overwrite (ar : bytes) (off : nat) (data : bytes) : bytes :=
  take off ar ++ data ++ drop (off + length data) ar.

(** [copy(s[off:], data)] with room for all of it. *)
Definition write_at (h : heap) (s : slice) (off : nat) (data : bytes) : option heap :=
  ar ← h !! sl_arr s;
  if decide (off + length data ≤ sl_len s ∧ sl_len s ≤ length ar)%nat
  then Some (<[sl_arr s := overwrite ar off data]> h) else None.

Section growth.
(** By how much [append] allocates more than it needs. *)
Context (spare : nat → nat).

(** [append(s, data...)]: in place when the capacity allows it, else a new array. *)
Definition append (h : heap) (s : slice) (data : bytes) : option (heap * slice) :=
  ar ← h !! sl_arr s;
  let n := (sl_len s + length data)%nat in
  if decide (n ≤ length ar)%nat
  then Some (<[sl_arr s := overwrite ar (sl_len s) data]> h, {| sl_arr := sl_arr s; sl_len := n |})
  else Some (h ++ [take (sl_len s) ar ++ data ++ replicate (spare n) x00], {| sl_arr := length h; sl_len := n |}).

(** ** The helpers *)

(** versionKey of the conductor:
    [append(append(buf[:0], "__dpx:ver:"...), key...)] *)
Definition versionKey_into (h : heap) (buf : slice) (key : bytes) : option (heap * slice) :=
  s ← reslice h buf 0; '(h, s) ← append h s verPrefix; append h s key.

(** encodeEpochRecord of the conductor *)
Definition encodeEpochRecord_into (h : heap) (er : EpochRecord) (buf : slice) : option (heap * slice) :=
  b ← reslice h buf 9;
  h ← write_at h b 0 (le64 (Epoch er));
  h ← (if IsCredit er then write_at h b 8 [x01] else write_at h b 8 [x00]);
  Some (h, b).

(** encodeUint64 of the conductor *)
Definition encodeUint64_into (h : heap) (v : Z) (buf : slice) : option (heap * slice) :=
  b ← reslice h buf 8; h ← write_at h b 0 (le64 v); Some (h, b).

(** ** applyProposalToBatch over the heap

    Set of a batch copies its key and its value ([string(key)],
    [copy(cp, value)]): it takes what the slices hold at the call. *)
Section copying.
Context {Eng Snap Bat : Type} `{StorageEngine Eng Snap Bat}.

Definition Set_slices (h : heap) (bat : Bat) (k v : slice) : option Bat :=
  kb ← read h k; vb ← read h v; Some (bat_Set bat kb vb).

(** The writes of one proposal. The key of the shadow map is a string that shares
    the memory of [w.Key]; it is taken by value here, because the proposal is not
    written to while the map lives. *)
Fixpoint heap_writes (vkBuf epochBuf : slice) (index : Z) (ws : list WriteEntry) (h : heap) (bat : Bat)
    (shadow ke : epochs) : option (heap * (Bat * epochs * epochs * option applyErr)) :=
  match ws with
  | [] => Some (h, (bat, shadow, ke, None))
  | w :: ws' =>
      match write_op w with
      | None => Some (h, (bat, shadow, ke, Some (ErrUnknownOp (we_Op w) index)))
      | Some o =>
          let bat := match o with
                     | BSet k v => bat_Set bat k v
                     | BDelete k => bat_Delete bat k
                     | BMerge k v => bat_Merge bat k v
                     end in
          let er := write_epoch index w in
          '(h, vk) ← versionKey_into h vkBuf (we_Key w);
          '(h, ev) ← encodeEpochRecord_into h er epochBuf;
          bat ← Set_slices h bat vk ev;
          heap_writes vkBuf epochBuf index ws' h bat (<[we_Key w := er]> shadow) (<[we_Key w := er]> ke)
      end
  end.

(** [var epochBuf [9]byte] and [var appliedBuf [8]byte] are fresh arrays. *)
Definition heap_applyProposalToBatch (vkBuf : slice) (index : Z) (p : Proposal) (h : heap) (bat : Bat)
    (shadow ke : epochs) : option (heap * (Bat * epochs * epochs * option applyErr)) :=
  let epochBuf := {| sl_arr := length h; sl_len := 9 |} in
  let appliedBuf := {| sl_arr := S (length h); sl_len := 8 |} in
  let h := h ++ [replicate 9 x00; replicate 8 x00] in
  '(h, (bat, shadow, ke, err)) ← heap_writes vkBuf epochBuf index (Writes p) h bat shadow ke;
  match err with
  | Some e => Some (h, (bat, shadow, ke, Some e))
  | None =>
      '(h, av) ← encodeUint64_into h index appliedBuf;
      vb ← read h av;
      Some (h, (bat_Set bat appliedKey vb, shadow, ke, None))
  end.
End copying.

(** ** The MVCC path of applyInline over the heap

    The operations keep the slices; [ApplyShardDirect] reads them once all are
    built. Keys are converted to strings, so copied, at once. *)

Inductive heapValue := HBytes (b : bytes) | HSlice (s : slice).
Inductive heapOp := HSet (k : bytes) (v : heapValue) | HDelete (k : bytes) | HMerge (k : bytes) (v : heapValue).

Definition read_value (h : heap) (v : heapValue) : option bytes :=
  match v with HBytes b => Some b | HSlice s => read h s end.

Definition read_op (h : heap) (o : heapOp) : option bop :=
  match o with
  | HSet k v => BSet k <$> read_value h v
  | HDelete k => Some (BDelete k)
  | HMerge k v => BMerge k <$> read_value h v
  end.

Fixpoint heap_mvcc_writes (vkBuf epochBuf : slice) (idx : Z) (ws : list WriteEntry) (h : heap)
    (writes : list heapOp) (ke : epochs) : option (heap * list heapOp * epochs) :=
  match ws with
  | [] => Some (h, writes, ke)
  | w :: ws' =>
      let writes := match write_op w with
                    | Some (BSet k v) => writes ++ [HSet k (HBytes v)]
                    | Some (BDelete k) => writes ++ [HDelete k]
                    | Some (BMerge k v) => writes ++ [HMerge k (HBytes v)]
                    | None => writes
                    end in
      let er := write_epoch idx w in
      '(h, vk) ← versionKey_into h vkBuf (we_Key w);
      kb ← read h vk;
      '(h, ev) ← encodeEpochRecord_into h er epochBuf;
      heap_mvcc_writes vkBuf epochBuf idx ws' h (writes ++ [HSet kb (HSlice ev)]) (<[we_Key w := er]> ke)
  end.

Definition heap_mvcc_ops (vkBuf : slice) (idx : Z) (ws : list WriteEntry) (h : heap) (ke : epochs) :
    option (heap * list bop * epochs) :=
  let epochBuf := {| sl_arr := length h; sl_len := 9 |} in
  let h := h ++ [replicate 9 x00] in
  '(h, writes, ke) ← heap_mvcc_writes vkBuf epochBuf idx ws h [] ke;
  '(h, av) ← encodeUint64_into h idx {| sl_arr := sl_arr epochBuf; sl_len := 8 |};
  ops ← mapM (read_op h) (writes ++ [HSet appliedKey (HSlice av)]);
  Some (h, ops, ke).

End growth.

(** ** What the helpers leave alone *)

(** [h'] comes from [h] by allocating and by overwriting arrays of [A]. *)
Record keeps (A : list nat) (h h' : heap) : Prop := {
  k_grows : (length h ≤ length h')%nat;
  k_other : ∀ a, a ∉ A → (a < length h)%nat → h' !! a = h !! a;
  k_size : ∀ a ar, h !! a = Some ar → ∃ ar', h' !! a = Some ar' ∧ length ar' = length ar;
}.

Lemma keeps_refl A h : keeps A h h.
Proof. split; eauto. Qed.

Lemma keeps_trans A B h h1 h2 :
  keeps A h h1 → keeps B h1 h2 → (∀ b, b ∈ B → b ∈ A ∨ length h ≤ b)%nat → keeps A h h2.
Proof.
  intros [G1 O1 S1] [G2 O2 S2] HB. split; [lia|..].
  - intros a Ha Hl. rewrite O2, O1; [done..| |lia]. intros [?|?]%HB; [done|lia].
  - intros a ar (ar1 & (ar2 & E & <-)%S2 & <-)%S1. eauto.
Qed.

Lemma length_overwrite ar off data : (off + length data ≤ length ar)%nat → length (overwrite ar off data) = length ar.
Proof. intros Hl. unfold overwrite. rewrite !length_app, length_take, length_drop. lia. Qed.

Lemma take_overwrite ar off data : (off + length data ≤ length ar)%nat →
  take (off + length data) (overwrite ar off data) = take off ar ++ data.
Proof. intros Hl. unfold overwrite. rewrite app_assoc. apply take_app_length'. rewrite length_app, length_take. lia. Qed.

Lemma keeps_insert h a ar ar' : h !! a = Some ar → length ar' = length ar → keeps [a] h (<[a := ar']> h).
Proof.
  intros Ha Hl. split; [by rewrite length_insert|..].
  - intros b Hb _. rewrite list_lookup_insert_ne by set_solver. done.
  - intros b br Hb. destruct (decide (b = a)) as [->|Hn]; [|by rewrite list_lookup_insert_ne; eauto].
    exists ar'. rewrite list_lookup_insert_eq by by eapply lookup_lt_Some. by simplify_eq.
Qed.

Lemma write_at_spec h s ar off data :
  h !! sl_arr s = Some ar → (off + length data ≤ sl_len s)%nat → (sl_len s ≤ length ar)%nat →
  write_at h s off data = Some (<[sl_arr s := overwrite ar off data]> h)
  ∧ keeps [sl_arr s] h (<[sl_arr s := overwrite ar off data]> h).
Proof.
  intros Ha H1 H2. unfold write_at. rewrite Ha. cbn. rewrite decide_True by done. split; [done|].
  apply (keeps_insert _ _ _ _ Ha), length_overwrite. lia.
Qed.

(** encodeEpochRecord leaves the record in the first nine bytes of the buffer. *)
Lemma encodeEpochRecord_into_spec h er buf ar : h !! sl_arr buf = Some ar → length ar = 9%nat →
  encodeEpochRecord_into h er buf
  = Some (<[sl_arr buf := encodeEpochRecord er]> h, {| sl_arr := sl_arr buf; sl_len := 9 |}).
Proof.
  intros Ha Hl. pose proof (lookup_lt_Some _ _ _ Ha). unfold encodeEpochRecord_into, reslice. rewrite Ha. cbn [mbind option_bind].
  rewrite decide_True by lia. cbn [mbind option_bind].
  set (b := {| sl_arr := sl_arr buf; sl_len := 9 |}).
  destruct (write_at_spec h b ar 0 (le64 (Epoch er)) Ha) as [-> _]; [rewrite length_le64; simpl; lia|simpl; lia|]. cbn [mbind option_bind].
  set (ar1 := overwrite ar 0 (le64 (Epoch er))).
  assert (length ar1 = 9%nat) as Hl1 by (subst ar1; rewrite length_overwrite; rewrite ?length_le64; lia).
  assert (∀ x, write_at (<[sl_arr b := ar1]> h) b 8 [x]
    = Some (<[sl_arr b := le64 (Epoch er) ++ [x]]> h)) as Hw.
  { intros x. destruct (write_at_spec (<[sl_arr b := ar1]> h) b ar1 8 [x]) as [-> _];
      [by rewrite list_lookup_insert_eq|simpl; lia|simpl; lia|].
    rewrite list_insert_insert_eq. do 2 f_equal. unfold overwrite. rewrite (drop_ge ar1) by (simpl; lia).
    by rewrite app_nil_r. }
  unfold encodeEpochRecord. destruct (IsCredit er); by rewrite Hw.
Qed.

Lemma encodeUint64_into_spec h v buf ar : h !! sl_arr buf = Some ar → (8 ≤ length ar)%nat →
  encodeUint64_into h v buf = Some (<[sl_arr buf := encodeUint64 v ++ drop 8 ar]> h, {| sl_arr := sl_arr buf; sl_len := 8 |}).
Proof.
  intros Ha Hl. unfold encodeUint64_into, reslice. rewrite Ha. cbn [mbind option_bind].
  rewrite decide_True by lia. cbn [mbind option_bind].
  destruct (write_at_spec h {| sl_arr := sl_arr buf; sl_len := 8 |} ar 0 (le64 v) Ha) as [-> _]; simpl; rewrite ?length_le64; try lia.
  cbn. unfold overwrite, encodeUint64. by rewrite length_le64.
Qed.

Section growth_lemmas.
Context (spare : nat → nat).

Lemma append_spec h s ar data : h !! sl_arr s = Some ar → (sl_len s ≤ length ar)%nat →
  ∃ h' s', append spare h s data = Some (h', s') ∧ read h' s' = Some (take (sl_len s) ar ++ data)
    ∧ sl_len s' = (sl_len s + length data)%nat
    ∧ keeps [sl_arr s] h h' ∧ (sl_arr s' = sl_arr s ∨ length h ≤ sl_arr s')%nat.
Proof.
  intros Ha Hl. pose proof (lookup_lt_Some _ _ _ Ha). unfold append. rewrite Ha. cbn [mbind option_bind].
  case_decide as Hc; (do 2 eexists; split; [done|]); cbn [sl_arr sl_len].
  - split; [|split; [done|split; [|by left]]]; [|apply (keeps_insert _ _ _ _ Ha), length_overwrite; lia].
    unfold read. cbn. rewrite list_lookup_insert_eq by done. cbn.
    rewrite decide_True by (rewrite length_overwrite; lia). by rewrite take_overwrite by lia.
  - split; [|split; [done|split; [|right; lia]]].
    + unfold read. cbn. rewrite lookup_app_r, Nat.sub_diag by lia. cbn.
      rewrite decide_True by (rewrite !length_app, length_take; lia). rewrite app_assoc, take_app_length'; [done|].
      rewrite length_app, length_take. lia.
    + split; [rewrite length_app; simpl; lia|intros; by rewrite lookup_app_l|].
      intros a br Hb. rewrite lookup_app_l by by eapply lookup_lt_Some. eauto.
Qed.

(** versionKey holds the version key, whatever the buffer held, and touches no
    other array. *)
Lemma versionKey_into_spec h buf ar key : h !! sl_arr buf = Some ar →
  ∃ h' s, versionKey_into spare h buf key = Some (h', s) ∧ read h' s = Some (versionKey key)
    ∧ keeps [sl_arr buf] h h' ∧ (sl_arr s = sl_arr buf ∨ length h ≤ sl_arr s)%nat.
Proof.
  intros Ha. unfold versionKey_into, reslice. rewrite Ha. cbn [mbind option_bind]. rewrite decide_True by lia. cbn [mbind option_bind].
  destruct (append_spec h {| sl_arr := sl_arr buf; sl_len := 0 |} ar verPrefix Ha) as (h1 & s1 & -> & R1 & L1 & K1 & A1);
    [simpl; lia|]. cbn [mbind option_bind].
  unfold read in R1. destruct (h1 !! sl_arr s1) as [ar1|] eqn:E1; [|done]. cbn in R1. case_decide; simplify_eq.
  destruct (append_spec h1 s1 ar1 key E1) as (h2 & s2 & -> & R2 & _ & K2 & A2); [done|].
  exists h2, s2. split; [done|]. split; [rewrite R2; by f_equal; f_equal|]. cbn [sl_arr] in *.
  pose proof (k_grows _ _ _ K1). split; [|destruct A1 as [<-|?]; destruct A2 as [->|?]; lia].
  eapply keeps_trans; [done..|]. intros b ->%list_elem_of_singleton. destruct A1 as [->|?]; [left; set_solver|by right].
Qed.
End growth_lemmas.
