(* ===== verification/BuffersProps.v ===== *)
(** * Reused buffers are invisible where batches copy (src/conductor/fsm.go)

    The loops over the heap of Buffers.v give what the value-level loops of Fsm.v
    and Sharded.v give, and never panic. *)

From S2P Require Import Prelude Types EngineSpec Shard Iter BTree Memory Mvcc Fsm Occ Sharded Buffers.

(** The buffer for version keys and the nine bytes for epoch records, apart. *)
Record bufs (h : heap) (vk eb : slice) : Prop := {
  b_vk : is_Some (h !! sl_arr vk);
  b_eb : ∃ ar, h !! sl_arr eb = Some ar ∧ length ar = 9%nat;
  b_apart : sl_arr vk ≠ sl_arr eb;
}.

Lemma bufs_keeps A h h' vk eb : bufs h vk eb → keeps A h h' → bufs h' vk eb.
Proof.
  intros [[ar Hv] (er & He & Hl) Hn] K. split; [|..|done].
  - destruct (k_size _ _ _ K _ _ Hv) as (ar' & E & _). eauto.
  - destruct (k_size _ _ _ K _ _ He) as (er' & E & ?). exists er'. split; [done|lia].
Qed.

Section refine.
Context (spare : nat → nat).

(** One write: the version key and the record can be read back together. *)
Lemma write_buffers h vk eb key er : bufs h vk eb →
  ∃ h1 s h2, versionKey_into spare h vk key = Some (h1, s)
    ∧ encodeEpochRecord_into h1 er eb = Some (h2, {| sl_arr := sl_arr eb; sl_len := 9 |})
    ∧ read h1 s = Some (versionKey key) ∧ read h2 s = Some (versionKey key)
    ∧ h2 !! sl_arr eb = Some (encodeEpochRecord er)
    ∧ keeps [sl_arr vk; sl_arr eb] h h2.
Proof.
  intros Hb. destruct (b_vk _ _ _ Hb) as [ar Hv].
  destruct (versionKey_into_spec spare h vk ar key Hv) as (h1 & s & E1 & R1 & K1 & A1).
  pose proof (bufs_keeps _ _ _ _ _ Hb K1) as Hb1. destruct (b_eb _ _ _ Hb1) as (br & He & Hl).
  exists h1, s. eexists. split; [done|]. split; [by eapply encodeEpochRecord_into_spec|].
  destruct (b_eb _ _ _ Hb) as (br0 & He0 & _). apply lookup_lt_Some in He0.
  assert (sl_arr s ≠ sl_arr eb) as Hs by (destruct A1 as [->|?]; [apply (b_apart _ _ _ Hb)|lia]).
  split; [done|]. split; [unfold read in *; by rewrite list_lookup_insert_ne|].
  split; [apply list_lookup_insert_eq; by eapply lookup_lt_Some|].
  eapply (keeps_trans _ [sl_arr eb] h h1); [|apply (keeps_insert _ _ _ _ He); by rewrite length_encodeEpochRecord|set_solver].
  split; [apply K1| |apply K1]. intros a Ha. apply (k_other _ _ _ K1). set_solver.
Qed.

Lemma read_whole h a ar n : h !! a = Some ar → length ar = n → read h {| sl_arr := a; sl_len := n |} = Some ar.
Proof. intros Ha <-. unfold read. simpl. rewrite Ha. simpl. rewrite decide_True by lia. by rewrite firstn_all. Qed.

Section copying.
Context {Eng Snap Bat : Type} `{StorageEngine Eng Snap Bat}.

Lemma heap_writes_refines vk eb index ws : ∀ h (bat : Bat) shadow ke, bufs h vk eb →
  ∃ h', heap_writes spare vk eb index ws h bat shadow ke = Some (h', apply_writes index ws bat shadow ke)
    ∧ keeps [sl_arr vk; sl_arr eb] h h'.
Proof.
  induction ws as [|w ws IH]; intros h bat shadow ke Hb; [eauto using keeps_refl|]. cbn [heap_writes apply_writes].
  destruct (write_op w) as [o|]; [|eauto using keeps_refl].
  destruct (write_buffers h vk eb (we_Key w) (write_epoch index w) Hb) as (h1 & s & h2 & -> & E2 & _ & R & Re & K).
  cbn [mbind option_bind]. rewrite E2. cbn [mbind option_bind]. unfold Set_slices. rewrite R.
  rewrite (read_whole _ _ _ _ Re (length_encodeEpochRecord _)). cbn [mbind option_bind].
  edestruct IH as (h' & -> & K'); [by eapply bufs_keeps|]. exists h'. split; [done|].
  eapply keeps_trans; [done..|]. set_solver.
Qed.

(** C35. Reusing the buffers is invisible: applyProposalToBatch, run over a heap in
    which every version key of the proposal is built in one pooled buffer and
    every epoch record in one array of nine bytes, overwritten by the next
    write, never panics and fills the batch, the shadow map and the epoch map
    exactly as if every key and record were a fresh value, for every proposal
    and whatever the pooled buffer holds and however large it is; no other
    array is changed, and the pooled buffer keeps its capacity. *)
Theorem buffers_invisible vkBuf index p h (bat : Bat) shadow ke :
  is_Some (h !! sl_arr vkBuf) →
  ∃ h', heap_applyProposalToBatch spare vkBuf index p h bat shadow ke
      = Some (h', applyProposalToBatch index p bat shadow ke)
    ∧ (∀ a, a ≠ sl_arr vkBuf → (a < length h)%nat → h' !! a = h !! a)
    ∧ (length <$> h' !! sl_arr vkBuf = length <$> h !! sl_arr vkBuf).
Proof.
  intros [ar Hv]. pose proof (lookup_lt_Some _ _ _ Hv) as Hlt.
  unfold heap_applyProposalToBatch, applyProposalToBatch. set (h0 := h ++ _).
  set (eb := {| sl_arr := length h; sl_len := 9 |}). set (ab := {| sl_arr := S (length h); sl_len := 8 |}).
  assert (bufs h0 vkBuf eb) as Hb.
  { split; [by exists ar; apply lookup_app_l_Some|exists (replicate 9 x00)|simpl; lia].
    split; [|done]. unfold h0. simpl. by rewrite lookup_app_r, Nat.sub_diag by lia. }
  destruct (heap_writes_refines vkBuf eb index (Writes p) h0 bat shadow ke Hb) as (h1 & -> & K).
  cbn [mbind option_bind]. destruct (apply_writes index (Writes p) bat shadow ke) as [[[bat' shadow'] ke'] err].
  assert (∀ h', keeps [sl_arr ab] h1 h' → (∀ a, a ≠ sl_arr vkBuf → (a < length h)%nat → h' !! a = h !! a)
    ∧ length <$> h' !! sl_arr vkBuf = length <$> h !! sl_arr vkBuf) as Hend.
  { intros h' K'.
    assert (keeps [sl_arr vkBuf; sl_arr eb; sl_arr ab] h0 h') as [G O S].
    { eapply (keeps_trans _ [sl_arr ab] h0 h1); [|done|set_solver].
      split; [apply K| |apply K]. intros a Ha. apply (k_other _ _ _ K). set_solver. }
    split.
    - intros a Ha Hl. rewrite O; [unfold h0; by rewrite lookup_app_l| |unfold h0; rewrite length_app; lia].
      simpl. intros Hin. repeat (apply elem_of_cons in Hin as [->|Hin]; [lia|]). set_solver.
    - destruct (S (sl_arr vkBuf) ar) as (ar' & -> & E); [by apply lookup_app_l_Some|]. rewrite Hv. simpl. by rewrite E. }
  destruct err as [e|]; [exists h1; split; [done|]; apply Hend, keeps_refl|].
  assert (h0 !! sl_arr ab = Some (replicate 8 x00)) as Ha0.
  { unfold h0. simpl. rewrite lookup_app_r by lia. by replace (S (length h) - length h)%nat with 1%nat by lia. }
  destruct (k_size _ _ _ K _ _ Ha0) as (br & Hbr & Hl).
  rewrite (encodeUint64_into_spec _ _ ab br Hbr) by (rewrite Hl; done). cbn [mbind option_bind].
  rewrite (drop_ge br), app_nil_r by (rewrite Hl; done).
  erewrite read_whole; [|apply list_lookup_insert_eq; by eapply lookup_lt_Some|by apply length_le64]. cbn [mbind option_bind].
  eexists. split; [done|]. apply Hend, (keeps_insert _ _ _ _ Hbr). rewrite Hl. apply length_le64.
Qed.
End copying.

(** *** The MVCC path *)

(** An operation of Sharded.v as one over the heap: [epochBuf] is the array [a]. *)
Definition heap_value (a : nat) (v : opValue) : heapValue :=
  match v with VBytes b => HBytes b | VEpochBuf n => HSlice {| sl_arr := a; sl_len := n |} end.
Definition heap_op (a : nat) (o : writeOp) : heapOp :=
  match o with
  | WSet k v => HSet k (heap_value a v)
  | WDelete k => HDelete k
  | WMerge k v => HMerge k (heap_value a v)
  end.

Lemma heap_mvcc_writes_refines vk eb idx ws : ∀ h writes buf ke,
  bufs h vk eb → h !! sl_arr eb = Some buf →
  ∃ h' writes' buf' ke', mvcc_writes idx ws writes buf ke = (writes', buf', ke')
    ∧ heap_mvcc_writes spare vk eb idx ws h (map (heap_op (sl_arr eb)) writes) ke
      = Some (h', map (heap_op (sl_arr eb)) writes', ke')
    ∧ h' !! sl_arr eb = Some buf' ∧ bufs h' vk eb.
Proof.
  induction ws as [|w ws IH]; intros h writes buf ke Hb He; [do 4 eexists; eauto|]. cbn [mvcc_writes heap_mvcc_writes].
  destruct (write_buffers h vk eb (we_Key w) (write_epoch idx w) Hb) as (h1 & s & h2 & -> & E2 & R & _ & Re & K).
  cbn [mbind option_bind]. rewrite R. cbn [mbind option_bind]. rewrite E2. cbn [mbind option_bind].
  edestruct (IH h2) as (h' & writes' & buf' & ke' & E & E' & He' & Hb'); [by eapply bufs_keeps|done|].
  do 4 eexists. split; [exact E|]. split; [|done]. rewrite <- E'. rewrite map_app. f_equal. f_equal.
  destruct (write_op w) as [[]|]; by rewrite ?map_app.
Qed.

(** The buffer of the records is written to the end of the loop before any
    operation is read. *)
Definition op_fits (o : writeOp) : Prop :=
  match o with WSet _ (VEpochBuf n) | WMerge _ (VEpochBuf n) => (n ≤ 9)%nat | _ => True end.

Lemma mvcc_writes_fit idx ws : ∀ writes buf ke, Forall op_fits writes → length buf = 9%nat →
  Forall op_fits (mvcc_writes idx ws writes buf ke).1.1 ∧ length (mvcc_writes idx ws writes buf ke).1.2 = 9%nat.
Proof.
  induction ws as [|w ws IH]; intros writes buf ke Hf Hl; [done|]. cbn [mvcc_writes].
  apply IH; [|apply length_encodeEpochRecord]. apply Forall_app. split; [|by repeat constructor].
  destruct (write_op w) as [[]|]; [apply Forall_app; split; [done|by repeat constructor]..|done].
Qed.

Lemma read_heap_op h a buf o : h !! a = Some buf → length buf = 9%nat → op_fits o →
  read_op h (heap_op a o) = Some (deref_op buf o).
Proof.
  intros Ha Hl Ho. destruct o as [k [b|n]|k|k [b|n]]; simpl in *; try done;
    unfold read; simpl; rewrite Ha; simpl; by rewrite decide_True by lia.
Qed.

(** The same over the sharded proposer's MVCC path, where the operations keep
    the slices instead of copying them: what ApplyShardDirect reads is what
    Sharded.mvcc_ops says, every record with the flag the last write of the
    proposal left in the shared array. *)
Theorem mvcc_path_aliases vkBuf idx ws h ke :
  is_Some (h !! sl_arr vkBuf) →
  ∃ h', heap_mvcc_ops spare vkBuf idx ws h ke = Some (h', (mvcc_ops idx ws ke).1, (mvcc_ops idx ws ke).2).
Proof.
  intros [ar Hv]. pose proof (lookup_lt_Some _ _ _ Hv) as Hlt.
  unfold heap_mvcc_ops, mvcc_ops. set (h0 := h ++ _). set (eb := {| sl_arr := length h; sl_len := 9 |}).
  assert (h0 !! sl_arr eb = Some (replicate 9 x00)) as He.
  { unfold h0. simpl. by rewrite lookup_app_r, Nat.sub_diag by lia. }
  assert (bufs h0 vkBuf eb) as Hb.
  { split; [by exists ar; apply lookup_app_l_Some|by exists (replicate 9 x00)|simpl; lia]. }
  destruct (heap_mvcc_writes_refines vkBuf eb idx ws h0 [] _ ke Hb He) as (h1 & writes & buf & ke' & E & E' & Hbuf & _).
  change (map (heap_op (sl_arr eb)) []) with (@nil heapOp) in E'. rewrite E, E'. cbn [mbind option_bind].
  destruct (mvcc_writes_fit idx ws [] (replicate 9 x00) ke) as [Hf Hl]; [constructor|done|]. rewrite E in Hf, Hl. simpl in Hf, Hl.
  rewrite (encodeUint64_into_spec h1 idx {| sl_arr := sl_arr eb; sl_len := 8 |} buf Hbuf) by lia. cbn [mbind option_bind fst snd].
  set (h2 := <[_ := _]> h1). set (buf' := encodeUint64 idx ++ drop 8 buf).
  assert (h2 !! sl_arr eb = Some buf') as Hb2 by (apply list_lookup_insert_eq; by eapply lookup_lt_Some).
  assert (length buf' = 9%nat) as Hl2 by (unfold buf'; rewrite length_app, length_drop, Hl; unfold encodeUint64; by rewrite length_le64).
  assert (mapM (read_op h2) (map (heap_op (sl_arr eb)) (writes ++ [WSet appliedKey (VEpochBuf 8)]))
    = Some (map (deref_op buf') (writes ++ [WSet appliedKey (VEpochBuf 8)]))) as Hm.
  { assert (Forall op_fits (writes ++ [WSet appliedKey (VEpochBuf 8)])) as Hf'
      by (apply Forall_app; split; [done|repeat constructor; simpl; lia]).
    clear -Hf' Hb2 Hl2. induction Hf' as [|o os Ho Hos IH]; [done|]. cbn [map mapM].
    by rewrite (read_heap_op _ _ _ _ Hb2 Hl2 Ho), IH. }
  rewrite map_app in Hm.
  match goal with |- context [mapM (read_op h2) ?l] => replace (mapM (read_op h2) l) with
    (Some (map (deref_op buf') (writes ++ [WSet appliedKey (VEpochBuf 8)]))) by (symmetry; exact Hm) end.
  cbn [mbind option_bind]. eauto.
Qed.
End refine.

(** A pooled buffer with room for four bytes, so that version keys move to new
    arrays, and one that holds an earlier key. *)
Lemma buffers_invisible_witness :
  let h := [bs "olddata that is in the way"; bs "keep"] in
  let p := {| ReadSet := []; TimestampWall := 0; TimestampCounter := 0;
              Writes := [{| we_Op := OpSet; we_Key := bs "a"; we_Value := bs "1" |};
                         {| we_Op := OpCredit; we_Key := bs "a-rather-long-key-for-it"; we_Value := bs "2" |}] |} in
  is_Some (h !! 0%nat) ∧
  ∃ h', heap_applyProposalToBatch (fun n => n) {| sl_arr := 0; sl_len := 3 |} 7 p h (NewBatch (New (T := gmap bytes bytes))) ∅ ∅
      = Some (h', applyProposalToBatch 7 p (NewBatch (New (T := gmap bytes bytes))) ∅ ∅)
    ∧ h' !! 1%nat = Some (bs "keep").
Proof.
  intros h p. split; [by eexists|].
  destruct (buffers_invisible (fun n => n) {| sl_arr := 0; sl_len := 3 |} 7 p h (NewBatch (New (T := gmap bytes bytes))) ∅ ∅)
    as (h' & E & O & _); [by eexists|]. exists h'. split; [exact E|]. apply (O 1%nat); simpl; lia.
Defined.

Lemma mvcc_path_aliases_witness :
  let h := [bs "olddata that is in the way"] in
  let ws := [{| we_Op := OpSet; we_Key := bs "a"; we_Value := bs "1" |};
             {| we_Op := OpCredit; we_Key := bs "b"; we_Value := bs "2" |}] in
  is_Some (h !! 0%nat) ∧
  ∃ h', heap_mvcc_ops (fun n => n) {| sl_arr := 0; sl_len := 3 |} 7 ws h ∅ = Some (h', (mvcc_ops 7 ws ∅).1, (mvcc_ops 7 ws ∅).2).
Proof. intros h ws. split; [by eexists|]. apply mvcc_path_aliases. by eexists. Defined.
