(* ===== verification/ShardedConc.v ===== *)
(** * The sharded proposer under concurrency

    src/conductor/sharded_direct.go over the sharded in-memory engine
    (src/engine/memory/memory.go), goroutine by goroutine. [ProposeDirect] reads
    the closed flag, spins on the lock of its shard, decides and buffers its
    writes, applies the buffered batch one engine shard at a time, each under
    that shard's mutex, and releases the lock. [GetSnapshot] loads the shards one
    after the other and takes no lock. A scheduler picks the goroutine that moves
    next; each of its steps is an atomic operation or a critical section. *)

From S2P Require Import Prelude Types Wire EngineSpec Shard BTree Memory Dump Mvcc.
From S2P Require Import MvccSpec Fsm Occ Direct Sharded ShardedSpec.

Section conc.
Context {T : Type} `{BTreeG T}.

(** ** Goroutines *)

Inductive goroutine :=
  | Idle (p : Proposal)                         (* before [s.closed.Load()] *)
  | Spin (i : nat) (p : Proposal)               (* in the loop on [sp.mu.CompareAndSwap] *)
  | Held (i : nat) (p : Proposal)               (* the lock is taken *)
  | Applying (i : nat) (p : Proposal) (idx : Z) (byShard : gmap nat (list bop)) (shardIds : list nat)
                                                (* the loop of [applyBatchSharded] *)
  | Unlocking (i : nat) (p : Proposal) (r : ApplyResult)
                                                (* the deferred [sp.mu.Store(0)] *)
  | Done (p : Proposal) (r : result proposeErr ApplyResult)
  | Loading (states : list (state T))           (* the loop of [GetSnapshot] *)
  | Snapped (snap : Snapshot T).

Record system := {
  c_engine : Engine T;
  c_shards : list shardProposer;
  c_locks : list bool;            (* [sp.mu] *)
  c_closed : bool;
  c_syncPolicy : SyncPolicy;
  c_watchers : bool;
  c_metrics : option Z;
  c_notified : list (list WriteEntry);
  c_threads : list goroutine;
}.

Definition set_c_engine (c : system) (e : Engine T) : system :=
  {| c_engine := e; c_shards := c_shards c; c_locks := c_locks c; c_closed := c_closed c;
     c_syncPolicy := c_syncPolicy c; c_watchers := c_watchers c; c_metrics := c_metrics c;
     c_notified := c_notified c; c_threads := c_threads c |}.
Definition set_c_shard (c : system) (i : nat) (sp : shardProposer) : system :=
  {| c_engine := c_engine c; c_shards := <[i := sp]> (c_shards c); c_locks := c_locks c;
     c_closed := c_closed c; c_syncPolicy := c_syncPolicy c; c_watchers := c_watchers c;
     c_metrics := c_metrics c; c_notified := c_notified c; c_threads := c_threads c |}.
Definition set_lock (c : system) (i : nat) (b : bool) : system :=
  {| c_engine := c_engine c; c_shards := c_shards c; c_locks := <[i := b]> (c_locks c);
     c_closed := c_closed c; c_syncPolicy := c_syncPolicy c; c_watchers := c_watchers c;
     c_metrics := c_metrics c; c_notified := c_notified c; c_threads := c_threads c |}.
Definition c_count_conflict (c : system) : system :=
  {| c_engine := c_engine c; c_shards := c_shards c; c_locks := c_locks c;
     c_closed := c_closed c; c_syncPolicy := c_syncPolicy c; c_watchers := c_watchers c;
     c_metrics := (fun n => u64 (n + 1)) <$> c_metrics c;
     c_notified := c_notified c; c_threads := c_threads c |}.
Definition c_notify (c : system) (ws : list WriteEntry) : system :=
  {| c_engine := c_engine c; c_shards := c_shards c; c_locks := c_locks c;
     c_closed := c_closed c; c_syncPolicy := c_syncPolicy c; c_watchers := c_watchers c;
     c_metrics := c_metrics c;
     c_notified := if c_watchers c then c_notified c ++ [ws] else c_notified c;
     c_threads := c_threads c |}.
Definition set_thread (c : system) (t : nat) (g : goroutine) : system :=
  {| c_engine := c_engine c; c_shards := c_shards c; c_locks := c_locks c;
     c_closed := c_closed c; c_syncPolicy := c_syncPolicy c; c_watchers := c_watchers c;
     c_metrics := c_metrics c; c_notified := c_notified c; c_threads := <[t := g]> (c_threads c) |}.

(** (s *shardedDirectProposer) Shutdown *)
Definition c_Shutdown (c : system) : system :=
  {| c_engine := c_engine c; c_shards := c_shards c; c_locks := c_locks c;
     c_closed := true; c_syncPolicy := c_syncPolicy c; c_watchers := c_watchers c;
     c_metrics := c_metrics c; c_notified := c_notified c; c_threads := c_threads c |}.

(** ** Steps *)

(** The part of [applyInline] between taking the lock and [ApplyBatch]: only
    the holder of the lock reads or writes this shard's state. *)
Definition decide_inline (c : system) (i : nat) (sp : shardProposer) (p : Proposal) :
    system * goroutine :=
  let idx := u64 (sp_index sp + 1) in
  let conflict := if decide (length (ReadSet p) ≤ maxStackShadow)%nat
                  then stack_conflict (sp_keyEpoch sp) [] (ReadSet p) false else false in
  if conflict : bool then
    (c_count_conflict (set_c_shard c i {| sp_keyEpoch := sp_keyEpoch sp;
       sp_applied := sp_applied sp; sp_index := idx |}), Unlocking i p res_conflict)
  else
    let '(bat, ke) := inline_writes idx (Writes p) (NewBatch (c_engine c)) (sp_keyEpoch sp) in
    let bat := batch_Set bat appliedKey (encodeUint64 idx) in
    let m := match bat with ShardedBatch m => m | MemBatch _ => ∅ end in
    (set_c_shard c i {| sp_keyEpoch := ke; sp_applied := sp_applied sp; sp_index := idx |},
     Applying i p idx m (shardIds m)).

(** One step of a goroutine; [None] when it has ended. A failed compare-and-swap
    changes nothing. *)
Definition advance (c : system) (g : goroutine) : option (system * goroutine) :=
  match g with
  | Idle p =>
      if c_closed c then Some (c, Done p (Err ErrShardedClosed))
      else Some (c, Spin (proposal_shard p) p)
  | Spin i p =>
      match c_locks c !! i with
      | Some false => Some (set_lock c i true, Held i p)
      | Some true => Some (c, Spin i p)
      | None => Some (c, Done p Panic)
      end
  | Held i p =>
      match c_shards c !! i with
      | Some sp => Some (decide_inline c i sp p)
      | None => Some (c, Done p Panic)
      end
  | Applying i p idx m (s :: ids) =>
      Some (set_c_engine c (set_shards (c_engine c) (apply_shard m (shards (c_engine c)) s)),
            Applying i p idx m ids)
  | Applying i p idx m [] =>
      match c_shards c !! i with
      | Some sp =>
          Some (c_notify (set_c_shard c i {| sp_keyEpoch := sp_keyEpoch sp; sp_applied := idx;
                                             sp_index := sp_index sp |}) (Writes p),
                Unlocking i p res_ok)
      | None => Some (c, Done p Panic)
      end
  | Unlocking i p r => Some (set_lock c i false, Done p (Ok r))
  | Done _ _ => None
  | Loading states =>
      if decide (length states < numShards)%nat
      then Some (c, Loading (states ++ [shard (shards (c_engine c)) (length states)]))
      else Some (c, Snapped (ShardedSnapshot states))
  | Snapped _ => None
  end.

Definition schedule1 (c : system) (t : nat) : option system :=
  g ← c_threads c !! t; r ← advance c g; Some (set_thread r.1 t r.2).

Inductive cstep (c c' : system) : Prop :=
  | cstep_thread t : schedule1 c t = Some c' → cstep c c'
  | cstep_shutdown : c' = c_Shutdown c → cstep c c'.

(** Run the goroutines in a given order. *)
Definition run_schedule (c : system) (ts : list nat) : option system :=
  foldl (fun oc t => oc ≫= fun c => schedule1 c t) (Some c) ts.
End conc.

Arguments goroutine T : clear implicits.
Arguments system T : clear implicits.
