(* ===== verification/ShardedConcSpec.v ===== *)
(** * The concurrent sharded proposer refines the serial one

    Every interleaving of the goroutines of [ShardedConc] is explained by a
    serial execution of [ProposeDirect]: a proposal takes effect when it decides,
    under the lock of its shard. The store lags behind while batches are being
    applied; once they are, it is the serial one, except for the applied index,
    which the shards overwrite in any order. *)

From S2P Require Import Prelude Types Wire EngineSpec Shard BTree Memory Dump Mvcc.
From S2P Require Import MvccSpec Fsm Occ Direct Sharded ShardedSpec ShardedConc.

(** A proposal whose writes are to user keys of the shard it is routed to. *)
Definition shardable (p : Proposal) : Prop :=
  user_writes (Writes p) ∧ Forall (fun w => shardFor (we_Key w) = proposal_shard p) (Writes p).

Lemma proposal_shard_lt p : (proposal_shard p < numShards)%nat.
Proof.
  unfold proposal_shard. destruct (Writes p), (ReadSet p); rewrite ?shardFor_conductor;
    auto with dpx. unfold numShards. lia.
Qed.

(** The shard whose proposals write a key: the key's own shard, or that of the
    user key a version record is about. *)
Definition owner (k : bytes) : option nat :=
  if isReserved k then
    let u := drop (length verPrefix) k in
    if bool_decide (k = versionKey u) && negb (isReserved u) then Some (shardFor u) else None
  else Some (shardFor k).

Lemma owner_user k : isReserved k = false → owner k = Some (shardFor k).
Proof. intros Hk. unfold owner. by rewrite Hk. Qed.

Lemma owner_version u : isReserved u = false → owner (versionKey u) = Some (shardFor u).
Proof.
  intros Hu. unfold owner. rewrite isReserved_versionKey.
  change (drop (length verPrefix) (versionKey u)) with u. by rewrite bool_decide_true, Hu.
Qed.

Lemma commit_ops_owned p idx k :
  shardable p → k ≠ appliedKey → owner k ≠ Some (proposal_shard p) → k ∉ map bop_key (commit_ops idx (Writes p)).
Proof.
  intros [Hu Hs] Ha Ho (o & -> & Hin)%list_elem_of_fmap. unfold commit_ops in Hin.
  apply elem_of_app in Hin as [Hin| ->%list_elem_of_singleton]; [|done].
  apply list_elem_of_In, in_concat in Hin as (l & (w & <- & Hw)%in_map_iff & Hin).
  apply list_elem_of_In in Hin, Hw. unfold user_writes in Hu. rewrite Forall_forall in Hu, Hs.
  apply Ho.
  rewrite <- (Hs w Hw). apply write_ops_keys in Hin as [->| ->]; [apply owner_user|apply owner_version]; auto.
Qed.

(** A list of operations that leaves a key alone. *)
Definition inert (k : bytes) (ops : list bop) : Prop := ∀ v, key_value k ops v = v.

Lemma inert_notin k ops : k ∉ map bop_key ops → inert k ops.
Proof.
  intros Hn v. induction ops as [|o ops IH] in v, Hn |- *; [done|]. simpl in *.
  apply not_elem_of_cons in Hn as [Hne Hn]. rewrite decide_False by done. by apply IH.
Qed.

Lemma inert_concat {A} (f : A → list bop) k l :
  (∀ x, x ∈ l → inert k (f x)) → inert k (concat (map f l)).
Proof.
  intros Hl v. induction l as [|x l IH] in v, Hl |- *; [done|]. simpl.
  rewrite key_value_app, (Hl x) by (by left). apply IH. intros y Hy. apply Hl. by right.
Qed.

(** The operations of the engine shards a batch has still to visit. *)
Definition batch_ops (m : gmap nat (list bop)) (ids : list nat) : list bop :=
  concat (map (fun s => default [] (m !! s)) ids).

Lemma key_value_batch_ops m ids k v :
  batch_routed m → NoDup ids →
  key_value k (batch_ops m ids) v
  = if decide (shardFor k ∈ ids) then key_value k (default [] (m !! shardFor k)) v else v.
Proof.
  intros Hm. unfold batch_ops. revert v. induction ids as [|s ids IH]; intros v Hnd; simpl; [done|].
  apply NoDup_cons in Hnd as [Hs Hnd]. rewrite key_value_app, IH by done.
  destruct (decide (shardFor k = s)) as [<-|Hne].
  - rewrite decide_False by done. by rewrite decide_True by (by left).
  - rewrite (key_value_other k s (default [] (m !! s))) by (done || by apply batch_routed_default).
    apply decide_ext. rewrite elem_of_cons. naive_solver.
Qed.

Section spec.
Context {T : Type} `{BTreeLaws T}.
Implicit Types (c : system T) (s : shardedDirectProposer (Engine T)) (g : goroutine T).

(** ** Locks *)

(** The shard whose lock a goroutine holds. *)
Definition holder g : option nat :=
  match g with Held i _ | Applying i _ _ _ _ | Unlocking i _ _ => Some i | _ => None end.

Definition lock_inv (locks : list bool) (ts : list (goroutine T)) : Prop :=
  (∀ t g i, ts !! t = Some g → holder g = Some i → locks !! i = Some true)
  ∧ (∀ t t' g g' i, ts !! t = Some g → ts !! t' = Some g' → holder g = Some i → holder g' = Some i → t = t')
  ∧ (∀ i, locks !! i = Some true → ∃ t g, ts !! t = Some g ∧ holder g = Some i).

(** Looking up in an updated list of goroutines. *)
Lemma lookup_threads_insert (ts : list (goroutine T)) t t' g g' :
  <[t := g]> ts !! t' = Some g' → (t' = t ∧ g' = g) ∨ (t' ≠ t ∧ ts !! t' = Some g').
Proof. intros [(-> & <- & _)|[Hne Hg]]%list_lookup_insert_Some; naive_solver. Qed.

Lemma holder_insert (ts : list (goroutine T)) t t' g g' gt i :
  ts !! t' = Some g → holder g = Some i → ts !! t = Some gt → (t' = t → holder g' = Some i) →
  ∃ t1 g1, <[t := g']> ts !! t1 = Some g1 ∧ holder g1 = Some i.
Proof.
  intros Hg Hi Ht Hg'. exists t'. destruct (decide (t' = t)) as [->|Hne].
  - exists g'. rewrite list_lookup_insert_eq by (by eapply lookup_lt_Some). auto.
  - exists g. by rewrite list_lookup_insert_ne.
Qed.

Lemma lock_keep locks ts t g g' :
  lock_inv locks ts → ts !! t = Some g → holder g' = holder g → lock_inv locks (<[t := g']> ts).
Proof.
  intros (Hl & Hx & Ht) Hg Hh. split_and!.
  - intros t1 g1 i [[-> ->]|[_ H1]]%lookup_threads_insert Hi; [|by eauto]. rewrite Hh in Hi. eauto.
  - intros t1 t2 g1 g2 i [[-> ->]|[Hn1 H1]]%lookup_threads_insert
      [[-> ->]|[Hn2 H2]]%lookup_threads_insert Hi1 Hi2; try done; rewrite ?Hh in *; by eauto.
  - intros i (t1 & g1 & H1 & Hi)%Ht. eapply holder_insert; try done. intros ->. congruence.
Qed.

Lemma lock_acquire locks ts t g g' i :
  lock_inv locks ts → ts !! t = Some g → holder g = None → holder g' = Some i → locks !! i = Some false →
  lock_inv (<[i := true]> locks) (<[t := g']> ts).
Proof.
  intros (Hl & Hx & Ht) Hg Hn Hh Hf. assert (i < length locks)%nat as Hlt by (by eapply lookup_lt_Some).
  assert (∀ t1 g1, ts !! t1 = Some g1 → holder g1 ≠ Some i) as Hfree.
  { intros t1 g1 H1 Hi. specialize (Hl _ _ _ H1 Hi). congruence. }
  split_and!.
  - intros t1 g1 j [[-> ->]|[_ H1]]%lookup_threads_insert Hj.
    + rewrite Hh in Hj. injection Hj as <-. by apply list_lookup_insert_eq.
    + destruct (decide (i = j)) as [->|Hne]; [by apply list_lookup_insert_eq|].
      rewrite list_lookup_insert_ne by done. eauto.
  - intros t1 t2 g1 g2 j [[-> ->]|[Hn1 H1]]%lookup_threads_insert
      [[-> ->]|[Hn2 H2]]%lookup_threads_insert Hj1 Hj2; try done.
    + rewrite Hh in Hj1. injection Hj1 as <-. by destruct (Hfree t2 g2 H2).
    + rewrite Hh in Hj2. injection Hj2 as <-. by destruct (Hfree t1 g1 H1).
    + eauto.
  - intros j Hj. destruct (decide (i = j)) as [<-|Hne].
    + exists t, g'. by rewrite list_lookup_insert_eq by (by eapply lookup_lt_Some).
    + rewrite list_lookup_insert_ne in Hj by done. apply Ht in Hj as (t1 & g1 & H1 & Hj).
      eapply holder_insert; try done. intros ->. congruence.
Qed.

Lemma lock_release locks ts t g g' i :
  lock_inv locks ts → ts !! t = Some g → holder g = Some i → holder g' = None →
  lock_inv (<[i := false]> locks) (<[t := g']> ts).
Proof.
  intros (Hl & Hx & Ht) Hg Hh Hn. split_and!.
  - intros t1 g1 j [[-> ->]|[Hne H1]]%lookup_threads_insert Hj; [congruence|].
    destruct (decide (i = j)) as [->|Hij]; [by destruct Hne; eauto|].
    rewrite list_lookup_insert_ne by done. eauto.
  - intros t1 t2 g1 g2 j [[-> ->]|[Hn1 H1]]%lookup_threads_insert
      [[-> ->]|[Hn2 H2]]%lookup_threads_insert Hj1 Hj2; try done; try congruence. eauto.
  - intros j Hj. destruct (decide (i = j)) as [<-|Hne].
    + apply list_lookup_insert_Some in Hj as [(_ & ? & _)|[? _]]; done.
    + rewrite list_lookup_insert_ne in Hj by done. apply Ht in Hj as (t1 & g1 & H1 & Hj).
      eapply holder_insert; try done. intros ->. congruence.
Qed.

(** ** The simulation relation *)

(** What a goroutine has still to write to the engine, and what it has decided. *)
Definition pending_ops g : list bop :=
  match g with Applying _ _ _ m ids => batch_ops m ids | _ => [] end.

Definition outcome g : option (Proposal * ApplyResult) :=
  match g with
  | Applying _ p _ _ _ => Some (p, res_ok)
  | Unlocking _ p r | Done p (Ok r) => Some (p, r)
  | _ => None
  end.

Definition thread_ok g : Prop :=
  match g with
  | Idle p => shardable p
  | Spin i p | Held i p => i = proposal_shard p ∧ shardable p
  | Applying i p _ m ids =>
      i = proposal_shard p ∧ batch_routed m ∧ NoDup ids
      ∧ (∀ k, k ≠ appliedKey → owner k ≠ Some i → inert k (default [] (m !! shardFor k)))
  | Unlocking i p _ => i = proposal_shard p
  | Done _ r => r ≠ Panic
  | Loading states => (length states ≤ numShards)%nat
  | Snapped _ => True
  end.

(** What a conflict check reads and writes of a shard. *)
Definition sp_core (sp : shardProposer) : epochs * Z := (sp_keyEpoch sp, sp_index sp).

(** The store once the goroutines have applied what they hold. *)
Definition flushed (ts : list (goroutine T)) (k : bytes) (v : option bytes) : option bytes :=
  key_value k (concat (map pending_ops ts)) v.

Record sim c s (log : list (Proposal * ApplyResult)) : Prop := {
  sim_engine : sharded (c_engine c) = true ∧ routed (shards (c_engine c));
  sim_atomic : ∃ e, sd_engine s = EngOther e ∧ sharded e = true ∧ inv e;
  sim_open : sd_closed s = false;
  sim_shards : map sp_core (c_shards c) = map sp_core (sd_shards s);
  sim_len : length (c_shards c) = numShards ∧ length (c_locks c) = numShards;
  sim_threads : Forall thread_ok (c_threads c);
  sim_locks : lock_inv (c_locks c) (c_threads c);
  sim_store : ∀ k, k ≠ appliedKey →
    sd_store s !! k = flushed (c_threads c) k (shards_map (shards (c_engine c)) !! k);
  sim_log : omap outcome (c_threads c) ≡ₚ log;
}.

(** Serial executions of the proposer, with what each proposal was answered. *)
Inductive serial s0 : list (Proposal * ApplyResult) → shardedDirectProposer (Engine T) → Prop :=
  | serial_nil : serial s0 [] s0
  | serial_snoc log s p s' r ns :
      serial s0 log s → ProposeDirect s p = Ok (s', r, ns) → serial s0 (log ++ [(p, r)]) s'.

(** ** Pending operations of the other goroutines *)

Definition before (ts : list (goroutine T)) (t : nat) : list bop := concat (map pending_ops (take t ts)).
Definition after (ts : list (goroutine T)) (t : nat) : list bop := concat (map pending_ops (drop (S t) ts)).

Lemma flushed_at (ts : list (goroutine T)) t g k v :
  ts !! t = Some g →
  flushed ts k v = key_value k (after ts t) (key_value k (pending_ops g) (key_value k (before ts t) v)).
Proof.
  intros Hg. unfold flushed, before, after. rewrite <- (take_drop_middle ts t g Hg) at 1.
  by rewrite map_app, concat_app, key_value_app; simpl; rewrite key_value_app.
Qed.

Lemma flushed_set (ts : list (goroutine T)) t g g' k v :
  ts !! t = Some g →
  flushed (<[t := g']> ts) k v
  = key_value k (after ts t) (key_value k (pending_ops g') (key_value k (before ts t) v)).
Proof.
  intros Hg. unfold flushed, before, after.
  rewrite insert_take_drop by (by eapply lookup_lt_Some).
  by rewrite map_app, concat_app, key_value_app; simpl; rewrite key_value_app.
Qed.

Lemma outcome_set (ts : list (goroutine T)) t g g' :
  ts !! t = Some g → outcome g' = outcome g → omap outcome (<[t := g']> ts) = omap outcome ts.
Proof.
  intros Hg Ho. rewrite insert_take_drop by (by eapply lookup_lt_Some).
  rewrite <- (take_drop_middle ts t g Hg) at 3. rewrite !omap_app. simpl. by rewrite Ho.
Qed.

Lemma outcome_decided (ts : list (goroutine T)) t g g' x :
  ts !! t = Some g → outcome g = None → outcome g' = Some x →
  omap outcome (<[t := g']> ts) ≡ₚ omap outcome ts ++ [x].
Proof.
  intros Hg Hn Hs. rewrite insert_take_drop by (by eapply lookup_lt_Some).
  rewrite <- (take_drop_middle ts t g Hg) at 3. rewrite !omap_app. simpl. rewrite Hn, Hs.
  rewrite <- Permutation_middle. apply Permutation_cons_append.
Qed.

(** While a goroutine holds the lock of shard [i], no other one has operations
    on the keys that shard owns. *)
Lemma others_inert c s log t g i k :
  sim c s log → c_threads c !! t = Some g → holder g = Some i → owner k = Some i → k ≠ appliedKey →
  inert k (before (c_threads c) t) ∧ inert k (after (c_threads c) t).
Proof.
  intros Hs Hg Hh Ho Ha.
  assert (∀ t' g', t' ≠ t → c_threads c !! t' = Some g' → inert k (pending_ops g')) as Hoth.
  { intros t' g' Hne Hg'. pose proof (sim_threads _ _ _ Hs) as Hok. rewrite Forall_lookup in Hok.
    specialize (Hok _ _ Hg'). destruct g' as [| | |j p idx m ids| | | |]; try done.
    destruct Hok as (_ & Hm & Hnd & Hin). intros v. simpl. rewrite key_value_batch_ops by done.
    case_decide; [|done]. apply Hin; [done|]. intros Hj.
    assert (i = j) as <- by congruence.
    destruct Hne. by eapply (proj1 (proj2 (sim_locks _ _ _ Hs))). }
  split; apply inert_concat; intros x [j Hj]%list_elem_of_lookup.
  - apply lookup_take_Some in Hj as [Hj Hlt]. eapply (Hoth j); [lia|done].
  - rewrite lookup_drop in Hj. eapply (Hoth _); [|exact Hj]. lia.
Qed.

(** ** Steps that decide nothing *)

Lemma sim_frame c c' s log t g g' :
  sim c s log → c_threads c !! t = Some g →
  c_engine c' = c_engine c → map sp_core (c_shards c') = map sp_core (c_shards c) →
  length (c_locks c') = length (c_locks c) → c_threads c' = c_threads c →
  pending_ops g' = pending_ops g → outcome g' = outcome g → thread_ok g' →
  lock_inv (c_locks c') (<[t := g']> (c_threads c)) →
  sim (set_thread c' t g') s log.
Proof.
  intros [] Hg He Hsp Hl Ht Hp Ho Hok Hlk.
  assert (length (c_shards c') = length (c_shards c)) as Hls
    by (apply (f_equal length) in Hsp; by rewrite !length_map in Hsp).
  split; cbn [set_thread c_engine c_shards c_locks c_threads]; rewrite ?Ht, ?He, ?Hsp, ?Hl, ?Hls; try done.
  - by apply Forall_insert.
  - intros k Hk. rewrite (flushed_set _ _ g), Hp, <- (flushed_at _ _ g) by done. by apply sim_store0.
  - by rewrite (outcome_set _ _ g).
Qed.

(** Changing only the applied index of a shard. *)
Lemma map_core_insert (l : list shardProposer) i sp sp' :
  l !! i = Some sp → sp_core sp' = sp_core sp → map sp_core (<[i := sp']> l) = map sp_core l.
Proof.
  intros Hi Hc. apply list_eq. intros j. rewrite !list_lookup_fmap.
  destruct (decide (i = j)) as [->|Hne].
  - rewrite list_lookup_insert_eq by (by eapply lookup_lt_Some). rewrite Hi. simpl. by rewrite Hc.
  - by rewrite list_lookup_insert_ne.
Qed.

(** Applying the next engine shard of a batch. *)
Lemma sim_apply c s log t i p idx m x ids :
  sim c s log → c_threads c !! t = Some (Applying i p idx m (x :: ids)) →
  sim (set_thread (set_c_engine c (set_shards (c_engine c) (apply_shard m (shards (c_engine c)) x))) t
         (Applying i p idx m ids)) s log.
Proof.
  intros Hs Hg. pose proof (fun k => others_inert c s log t _ i k Hs Hg) as Hoth.
  destruct Hs. destruct sim_engine0 as [Hse Hr].
  pose proof (proj1 (Forall_lookup _ _) sim_threads0 _ _ Hg) as (Hi & Hm & Hnd & Hin).
  apply NoDup_cons in Hnd as [Hx Hnd].
  destruct (foldl_apply_shard m [x] (shards (c_engine c)) Hm Hr ltac:(repeat constructor; by intros ?%elem_of_nil))
    as [Hr' Hlk]. simpl in Hr', Hlk.
  assert (∀ k, shards_map (apply_shard m (shards (c_engine c)) x) !! k
    = if decide (shardFor k = x) then key_value k (default [] (m !! shardFor k)) (shards_map (shards (c_engine c)) !! k)
      else shards_map (shards (c_engine c)) !! k) as Hnew.
  { intros k. rewrite !lookup_shards_map, Hlk by (done || auto with dpx).
    destruct (decide (shardFor k = x)) as [<-|Hne].
    - rewrite decide_True by (by left). apply lookup_spec_ops.
    - by rewrite decide_False by (rewrite list_elem_of_singleton; done). }
  split; cbn [set_thread set_c_engine c_engine c_shards c_locks c_threads set_shards sharded shards]; try done.
  - apply Forall_insert; [done|]. done.
  - by eapply lock_keep.
  - intros k Hk. rewrite sim_store0, Hnew by done.
    rewrite (flushed_at _ _ _ _ _ Hg), (flushed_set _ _ _ _ _ _ Hg). cbn [pending_ops].
    rewrite !key_value_batch_ops by (done || by apply NoDup_cons).
    destruct (decide (owner k = Some i)) as [Ho|Ho].
    + destruct (Hoth k eq_refl Ho Hk) as [HB HA]. unfold inert in *. rewrite !HA, !HB.
      destruct (decide (shardFor k = x)) as [<-|Hne].
      * rewrite decide_True by (by left). by rewrite decide_False.
      * apply decide_ext. rewrite elem_of_cons. naive_solver.
    + pose proof (Hin k Hk Ho) as Hk'. unfold inert in Hk'. by repeat case_decide; rewrite ?Hk'.
  - by rewrite (outcome_set _ _ _ _ Hg).
Qed.

(** ** The step that decides *)

(** The shard's state as the serial proposer has it. *)
Lemma sim_shard c s log i sp :
  sim c s log → c_shards c !! i = Some sp →
  ∃ sp', sd_shards s !! i = Some sp' ∧ sp_keyEpoch sp' = sp_keyEpoch sp ∧ sp_index sp' = sp_index sp.
Proof.
  intros Hs Hi. pose proof (sim_shards _ _ _ Hs) as E. apply (f_equal (fun l => l !! i)) in E.
  rewrite !list_lookup_fmap, Hi in E. destruct (sd_shards s !! i) as [sp'|]; [|done].
  exists sp'. injection E as -> ->. done.
Qed.

(** The buffered batch, shard by shard, has the effect of the commit. *)
Lemma batch_of_commit (e : Engine T) m ops :
  bat_is e (ShardedBatch m) ops → batch_routed m →
  ∀ k v, key_value k (default [] (m !! shardFor k)) v = key_value k ops v
       ∧ key_value k (batch_ops m (shardIds m)) v = key_value k ops v.
Proof.
  intros [_ Hd] Hm k v. destruct (shardIds_spec m) as [Hnd Hids].
  assert (key_value k (default [] (m !! shardFor k)) v = key_value k ops v) as E.
  { set (m0 := partial_alter (fun _ => v) k (∅ : store)).
    assert (m0 !! k = v) as Hv by apply lookup_partial_alter_eq.
    rewrite <- Hv, <- lookup_denote_sharded, <- lookup_spec_ops by done. by rewrite <- Hd. }
  split; [done|]. rewrite key_value_batch_ops by done. rewrite <- E. case_decide as Hin; [done|].
  rewrite Hids in Hin. apply eq_None_not_Some in Hin. by rewrite Hin.
Qed.

(** What [inline_writes] and the applied index make of a new batch. *)
Lemma decided_batch (e : Engine T) idx p ke bat ke' :
  sharded e = true → inline_writes idx (Writes p) (NewBatch e) ke = (bat, ke') →
  ∃ m, batch_Set bat appliedKey (encodeUint64 idx) = ShardedBatch m ∧ batch_routed m
    ∧ bat_is e (ShardedBatch m) (commit_ops idx (Writes p)).
Proof.
  intros He Hw. destruct (inline_writes_spec (Snap := Snapshot T) e idx (Writes p) (eng_NewBatch e) [] ke (bat_is_new e)) as (b & E & Hb).
  change (eng_NewBatch e) with (NewBatch e) in E.
  rewrite Hw in E. injection E as <- _. apply (bat_is_add _ _ _ (applied_op idx)) in Hb.
  simpl in Hb. change (bat_Set bat appliedKey _) with (batch_Set bat appliedKey (encodeUint64 idx)) in Hb.
  destruct (batch_Set bat appliedKey (encodeUint64 idx)) as [ops|m] eqn:Eb.
  - destruct Hb as [Hinv _]. simpl in Hinv. congruence.
  - exists m. split_and!; [done|by apply Hb|exact Hb].
Qed.

(** Both sides update the same shard. *)
Lemma core_insert_both c s log i x x' :
  sim c s log → sp_core x = sp_core x' →
  map sp_core (<[i := x]> (c_shards c)) = map sp_core (<[i := x']> (sd_shards s)).
Proof.
  intros Hs Hx. pose proof (sim_shards _ _ _ Hs) as E.
  change (map sp_core) with (fmap (M := list) sp_core) in *. rewrite !list_fmap_insert. by rewrite E, Hx.
Qed.

(** A refused proposal. *)
Lemma sim_refuse c s log t p sp sp' idx :
  sim c s log → c_threads c !! t = Some (Held (proposal_shard p) p) →
  sp_keyEpoch sp' = sp_keyEpoch sp →
  sim (set_thread (c_count_conflict (set_c_shard c (proposal_shard p)
         {| sp_keyEpoch := sp_keyEpoch sp; sp_applied := sp_applied sp; sp_index := idx |})) t
         (Unlocking (proposal_shard p) p res_conflict))
      (count_conflicts (set_shard s (proposal_shard p)
         {| sp_keyEpoch := sp_keyEpoch sp; sp_applied := sp_applied sp'; sp_index := idx |}))
      (log ++ [(p, res_conflict)]).
Proof.
  intros Hs Hg Hke.
  pose proof (core_insert_both c s log (proposal_shard p)
    {| sp_keyEpoch := sp_keyEpoch sp; sp_applied := sp_applied sp; sp_index := idx |}
    {| sp_keyEpoch := sp_keyEpoch sp; sp_applied := sp_applied sp'; sp_index := idx |} Hs eq_refl) as Hsh.
  destruct Hs.
  split; cbn [c_count_conflict set_c_shard set_thread c_engine c_shards c_locks c_threads]; try done.
  - by rewrite length_insert.
  - by apply Forall_insert.
  - by eapply lock_keep.
  - intros k Hk. rewrite (flushed_set _ _ _ _ _ _ Hg). change (sd_store (count_conflicts _)) with (sd_store s).
    rewrite sim_store0, (flushed_at _ _ _ _ _ Hg) by done. done.
  - rewrite (outcome_decided _ _ _ _ (p, res_conflict) Hg) by done. by rewrite sim_log0.
Qed.

(** An accepted proposal: the serial proposer has applied it to its engine [e'],
    the goroutine is about to apply it shard by shard. *)
Lemma sim_accept c s log t p sp ke idx e e' m :
  sim c s log → c_threads c !! t = Some (Held (proposal_shard p) p) →
  sd_engine s = EngOther e → bat_is e (ShardedBatch m) (commit_ops idx (Writes p)) → batch_routed m →
  sharded e' = true → inv e' → abs e' = spec_ops (abs e) (commit_ops idx (Writes p)) →
  sim (set_thread (set_c_shard c (proposal_shard p)
         {| sp_keyEpoch := ke; sp_applied := sp_applied sp; sp_index := idx |}) t
         (Applying (proposal_shard p) p idx m (shardIds m)))
      (set_shard (set_sd_engine s (EngOther e')) (proposal_shard p)
         {| sp_keyEpoch := ke; sp_applied := idx; sp_index := idx |})
      (log ++ [(p, res_ok)]).
Proof.
  intros Hs Hg Ee Hbat Hm Hse' Hie' Habs.
  pose proof (fun k => others_inert c s log t _ _ k Hs Hg eq_refl) as Hoth.
  pose proof (core_insert_both c s log (proposal_shard p)
    {| sp_keyEpoch := ke; sp_applied := sp_applied sp; sp_index := idx |}
    {| sp_keyEpoch := ke; sp_applied := idx; sp_index := idx |} Hs eq_refl) as Hsh.
  destruct Hs. pose proof (proj1 (Forall_lookup _ _) sim_threads0 _ _ Hg) as [_ Hp].
  split; cbn [set_c_shard set_thread c_engine c_shards c_locks c_threads]; try done.
  - eexists. done.
  - by rewrite length_insert.
  - apply Forall_insert; [done|]. destruct (shardIds_spec m) as [Hnd _]. split_and!; try done.
    intros k Hk Ho v. rewrite (proj1 (batch_of_commit e m _ Hbat Hm k v)).
    apply inert_notin. by apply commit_ops_owned.
  - by eapply lock_keep.
  - intros k Hk. rewrite (flushed_set _ _ _ _ _ _ Hg). cbn [pending_ops].
    rewrite (proj2 (batch_of_commit e m _ Hbat Hm k _)).
    transitivity (key_value k (commit_ops idx (Writes p)) (sd_store s !! k)).
    { transitivity (abs e' !! k); [reflexivity|]. rewrite Habs, lookup_spec_ops.
      unfold sd_store. by rewrite Ee. }
    rewrite sim_store0, (flushed_at _ _ _ _ _ Hg) by done. cbn [pending_ops].
    destruct (decide (owner k = Some (proposal_shard p))) as [Ho|Ho].
    + destruct (Hoth k Ho Hk) as [HB HA]. unfold inert in *. by rewrite !HA, !HB.
    + pose proof (inert_notin k _ (commit_ops_owned p idx k Hp Hk Ho)) as Hi.
      unfold inert in Hi. by rewrite !Hi.
  - rewrite (outcome_decided _ _ _ _ (p, res_ok) Hg) by done. by rewrite sim_log0.
Qed.

Lemma sim_decide c s log t i p sp c' g' :
  sim c s log → c_threads c !! t = Some (Held i p) → c_shards c !! i = Some sp →
  decide_inline c i sp p = (c', g') →
  ∃ s' r ns, ProposeDirect s p = Ok (s', r, ns) ∧ sim (set_thread c' t g') s' (log ++ [(p, r)]).
Proof.
  intros Hs Hg Hsp Hd. destruct (sim_shard _ _ _ _ _ Hs Hsp) as (sp' & Hsp' & Hke & Hix).
  pose proof (proj1 (Forall_lookup _ _) (sim_threads _ _ _ Hs) _ _ Hg) as [-> Hp].
  destruct (sim_atomic _ _ _ Hs) as (e & Ee & Hse & Hie). destruct (sim_engine _ _ _ Hs) as [Hce Hr].
  unfold ProposeDirect, applyInline. rewrite (sim_open _ _ _ Hs), Hsp', Hke, Hix, Ee.
  unfold decide_inline in Hd. destruct (if decide _ then _ else _).
  { injection Hd as <- <-. do 3 eexists. split; [done|]. by apply sim_refuse. }
  assert (NewBatch (c_engine c) = NewBatch e) as Enb by (unfold NewBatch; by rewrite Hce, Hse).
  rewrite Enb in Hd. change (eng_NewBatch e) with (NewBatch e).
  destruct (inline_writes _ _ _ _) as [bat ke'] eqn:Ew.
  destruct (decided_batch e _ p _ _ _ Hse Ew) as (m & Eb & Hm & Hbat). rewrite Eb in Hd.
  change (bat_Set bat appliedKey ?v) with (batch_Set bat appliedKey v). rewrite Eb.
  destruct (eng_ApplyBatch e _ _) as [e' err] eqn:Ea.
  pose proof (apply_no_error e _ (bool_decide (sd_syncPolicy s = SyncFull)) (proj1 Hbat)) as Hn.
  rewrite Ea in Hn. simpl in Hn. subst err.
  assert (eng_inv (Snap := Snapshot T) (Bat := Batch) e) as Hei by exact Hie.
  destruct (bat_is_apply _ _ _ _ _ Hei Hbat Ea) as [Hie' Habs].
  injection Hd as <- <-. do 3 eexists. split; [done|]. eapply sim_accept; try done.
  cbn in Ea. unfold ApplyBatch in Ea. rewrite Hse in Ea. injection Ea as <-.
  unfold applyBatchSharded. by case_decide.
Qed.

(** ** Every step is simulated *)

Definition extends s log s' log' : Prop :=
  (s' = s ∧ log' = log) ∨ ∃ p r ns, ProposeDirect s p = Ok (s', r, ns) ∧ log' = log ++ [(p, r)].

Lemma sim_shutdown c s log : sim c s log → sim (c_Shutdown c) s log.
Proof. intros []. by split. Qed.

Lemma sim_step c s log c' :
  sim c s log → cstep c c' → ∃ s' log', sim c' s' log' ∧ extends s log s' log'.
Proof.
  intros Hs [t Hc| ->]; [|exists s, log; split; [by apply sim_shutdown|by left]].
  unfold schedule1 in Hc. destruct (c_threads c !! t) as [g|] eqn:Hg; [|done]. simpl in Hc.
  destruct (advance c g) as [[c1 g']|] eqn:Ha; [|done]. simpl in Hc. injection Hc as <-.
  pose proof (proj1 (Forall_lookup _ _) (sim_threads _ _ _ Hs) _ _ Hg) as Hok.
  pose proof (sim_locks _ _ _ Hs) as Hl. pose proof (sim_len _ _ _ Hs) as [Hlen Hlk].
  assert (∀ p, ∃ sp, c_shards c !! proposal_shard p = Some sp) as Hsh.
  { intros p. apply lookup_lt_is_Some_2. rewrite Hlen. apply proposal_shard_lt. }
  destruct g as [p|i p|i p|i p idx m ids|i p r|p r|l|sn]; simpl in Ha, Hok.
  - exists s, log. split; [|by left]. destruct (c_closed c); injection Ha as <- <-;
      (eapply sim_frame; try done; by eapply lock_keep).
  - destruct Hok as [-> Hp]. exists s, log. split; [|by left].
    destruct (c_locks c !! proposal_shard p) as [[]|] eqn:El.
    + injection Ha as <- <-. eapply sim_frame; try done. by eapply lock_keep.
    + injection Ha as <- <-. eapply sim_frame; try done; [by apply length_insert|]. by eapply lock_acquire.
    + apply lookup_ge_None in El. pose proof (proposal_shard_lt p). lia.
  - destruct Hok as [-> Hp]. destruct (Hsh p) as [sp Hsp]. rewrite Hsp in Ha. injection Ha as Ha.
    destruct (sim_decide _ _ _ _ _ _ _ _ _ Hs Hg Hsp Ha) as (s' & r & ns & Hpd & Hs').
    exists s', (log ++ [(p, r)]). split; [done|]. right. eauto.
  - exists s, log. split; [|by left]. destruct ids as [|x ids].
    + destruct Hok as (-> & _). destruct (Hsh p) as [sp Hsp]. rewrite Hsp in Ha. injection Ha as <- <-.
      eapply sim_frame; try done; [by eapply map_core_insert|by eapply lock_keep].
    + injection Ha as <- <-. by apply sim_apply.
  - exists s, log. split; [|by left]. injection Ha as <- <-.
    eapply sim_frame; try done; [by apply length_insert|]. by eapply lock_release.
  - done.
  - exists s, log. split; [|by left]. case_decide; injection Ha as <- <-.
    + eapply sim_frame; try done; [|by eapply lock_keep]. simpl. rewrite length_app. simpl. lia.
    + eapply sim_frame; try done. by eapply lock_keep.
  - done.
Qed.

(** ** Executions *)

(** A system that starts where the serial proposer stands: no lock is held, and
    every goroutine is about to propose or to take a snapshot. *)
Definition starts c s : Prop :=
  sd_engine s = EngOther (c_engine c) ∧ sharded (c_engine c) = true ∧ inv (c_engine c)
  ∧ c_shards c = sd_shards s ∧ sd_closed s = false
  ∧ length (c_shards c) = numShards ∧ c_locks c = replicate numShards false
  ∧ Forall (fun g => match g with Idle p => shardable p | Loading [] => True | _ => False end) (c_threads c).

(** What the goroutines have decided so far. *)
Definition decided c : list (Proposal * ApplyResult) := omap outcome (c_threads c).

(** No batch is being applied. *)
Definition settled c : Prop :=
  Forall (fun g => match g with Applying _ _ _ _ (_ :: _) => False | _ => True end) (c_threads c).

Lemma sim_starts c s : starts c s → sim c s [].
Proof.
  intros (He & Hsh & Hi & Hsp & Ho & Hlen & Hl & Ht). rewrite Forall_lookup in Ht.
  assert (∀ t g, c_threads c !! t = Some g → thread_ok g ∧ holder g = None ∧ pending_ops g = [] ∧ outcome g = None) as Hg.
  { intros t g Hg. specialize (Ht t g Hg). destruct g as [| | | | | |[]|]; try done. split; [simpl; lia|done]. }
  split.
  - split; [done|]. by apply Hi.
  - eauto.
  - done.
  - by rewrite Hsp.
  - split; [done|]. rewrite Hl. apply length_replicate.
  - apply Forall_lookup. intros t g H1. by apply (Hg t g).
  - split.
    + intros t g i H1 Hh. destruct (Hg t g H1) as (_ & Hn & _). congruence.
    + split.
      * intros t t' g g' i H1 _ Hh. destruct (Hg t g H1) as (_ & Hn & _). congruence.
      * intros i Hli. rewrite Hl in Hli. by apply lookup_replicate in Hli as [? _].
  - intros k _. unfold sd_store. rewrite He. unfold flushed.
    assert (inert k (concat (map pending_ops (c_threads c)))) as ->.
    { apply inert_concat. intros g [t H1]%list_elem_of_lookup. destruct (Hg t g H1) as (_ & _ & -> & _). done. }
    simpl. unfold abs. by rewrite Hsh.
  - assert (∀ g, g ∈ c_threads c → outcome g = None) as Hn.
    { intros g [t H1]%list_elem_of_lookup. by apply (Hg t g). }
    clear -Hn. induction (c_threads c) as [|g l IH]; [done|]. simpl.
    rewrite (Hn g) by (by left). apply IH. intros g' Hg'. apply Hn. by right.
Qed.

Lemma serial_app s0 l1 s1 l2 s2 : serial s0 l1 s1 → serial s1 l2 s2 → serial s0 (l1 ++ l2) s2.
Proof.
  intros H1 H2. induction H2 as [|log s p s' r ns _ IH Hp]; [by rewrite app_nil_r|].
  rewrite app_assoc. by eapply serial_snoc.
Qed.

Lemma sim_steps c s log c' :
  sim c s log → rtc cstep c c' → ∃ s' log', sim c' s' (log ++ log') ∧ serial s log' s'.
Proof.
  intros Hs Hr. revert c' Hr.
  apply (rtc_ind_r (fun c' => ∃ s' log', sim c' s' (log ++ log') ∧ serial s log' s')).
  { exists s, []. rewrite app_nil_r. split; [done|constructor]. }
  intros c1 c2 _ Hst (s1 & l1 & H1 & Hser). destruct (sim_step _ _ _ _ H1 Hst) as (s2 & l2 & H2 & He).
  destruct He as [[-> ->]|(p & r & ns & Hp & ->)]; [by eauto|].
  exists s2, (l1 ++ [(p, r)]). rewrite app_assoc. split; [done|]. by eapply serial_snoc.
Qed.

Lemma settled_inert c k : settled c → inert k (concat (map pending_ops (c_threads c))).
Proof.
  intros Hq. apply inert_concat. intros g Hg v. unfold settled in Hq. rewrite Forall_forall in Hq. specialize (Hq g Hg).
  by destruct g as [| | |? ? ? ? []| | | |].
Qed.

(** C14. The sharded proposer over the in-memory engine in sharded mode is
    linearizable for proposals whose writes are to unreserved keys that all lie
    in one shard, each proposal's own. From a state in which no lock is held
    and every goroutine is about to propose or to take a snapshot, whatever the
    scheduling of the goroutines, at any two moments [c1] and [c2] of an
    execution the proposals decided so far were answered as a serial execution of ProposeDirect answers
    them, the later ones after the earlier ones; and whenever no batch is half
    applied, the engine holds what that serial execution stores, the applied
    index apart. *)
Theorem sharded_linearizable c0 s0 c1 c2 :
  starts c0 s0 → rtc cstep c0 c1 → rtc cstep c1 c2 →
  ∃ log1 s1 log2 s2, serial s0 log1 s1 ∧ serial s1 log2 s2
    ∧ decided c1 ≡ₚ log1 ∧ decided c2 ≡ₚ log1 ++ log2
    ∧ (settled c2 → ∀ k, k ≠ appliedKey → Get (c_engine c2) k = sd_store s2 !! k).
Proof.
  intros Hs0 Hr1 Hr2. apply sim_starts in Hs0.
  destruct (sim_steps _ _ _ _ Hs0 Hr1) as (s1 & l1 & H1 & Hs1).
  destruct (sim_steps _ _ _ _ H1 Hr2) as (s2 & l2 & H2 & Hs2). simpl in *.
  exists l1, s1, l2, s2. split_and!; [done|done|apply H1|apply H2|].
  intros Hq k Hk. rewrite (sim_store _ _ _ H2) by done. unfold flushed. rewrite settled_inert by done.
  destruct (sim_engine _ _ _ H2) as [He Hr]. unfold Get. rewrite He.
  by rewrite lookup_shards_map, lookup_state_map.
Qed.
End spec.
