(* ===== verification/ShardedConcProps.v ===== *)
(** * Progress and snapshots of the concurrent sharded proposer

    No schedule can block the goroutines for good, and what a snapshot taken
    while batches are being applied is: each shard as it was at some moment of
    the taking, not all of them at the same one. *)

From S2P Require Import Prelude Types Wire EngineSpec Shard BTree Memory Dump Mvcc.
From S2P Require Import MvccSpec Fsm Occ Direct Sharded ShardedSpec ShardedConc ShardedConcSpec.

Section props.
Context {T : Type} `{BTreeLaws T}.
Implicit Types (c : system T) (g : goroutine T).

(** ** Progress *)

Definition finished g : bool := match g with Done _ _ | Snapped _ => true | _ => false end.

(** [c] can be run so that goroutine [t] ends and no other moves. *)
Definition can_finish c (t : nat) : Prop :=
  ∃ c' g', rtc cstep c c' ∧ finished g' = true ∧ c_threads c' = <[t := g']> (c_threads c).

Lemma can_finish_step c t g c1 g1 :
  c_threads c !! t = Some g → advance c g = Some (c1, g1) → c_threads c1 = c_threads c →
  can_finish (set_thread c1 t g1) t → can_finish c t.
Proof.
  intros Hg Ha Ht (c' & g' & Hr & Hf & Hc'). exists c', g'. split_and!; [|done|].
  - eapply rtc_l; [|exact Hr]. apply (cstep_thread _ _ t). unfold schedule1. by rewrite Hg; simpl; rewrite Ha.
  - rewrite Hc'. simpl. rewrite Ht. apply list_insert_insert_eq.
Qed.

Lemma can_finish_done c t g c1 g1 :
  c_threads c !! t = Some g → advance c g = Some (c1, g1) → c_threads c1 = c_threads c →
  finished g1 = true → can_finish c t.
Proof.
  intros Hg Ha Ht Hf. exists (set_thread c1 t g1), g1. split_and!; [|done|by simpl; rewrite Ht].
  apply rtc_once, (cstep_thread _ _ t). unfold schedule1. by rewrite Hg; simpl; rewrite Ha.
Qed.

(** The goroutine just moved, in the system it moved to. *)
Lemma lookup_moved c t g g1 : c_threads c !! t = Some g → <[t := g1]> (c_threads c) !! t = Some g1.
Proof. intros Hg. apply list_lookup_insert_eq. by eapply lookup_lt_Some. Qed.

Lemma finish_unlocking c t i p r : c_threads c !! t = Some (Unlocking i p r) → can_finish c t.
Proof. intros Hg. by eapply can_finish_done. Qed.

Lemma finish_applying c t i p idx m ids :
  is_Some (c_shards c !! i) → c_threads c !! t = Some (Applying i p idx m ids) → can_finish c t.
Proof.
  revert c. induction ids as [|x ids IH]; intros c [sp Hi] Hg.
  - eapply can_finish_step; [exact Hg|simpl; by rewrite Hi|done|].
    eapply finish_unlocking. by eapply lookup_moved.
  - eapply can_finish_step; [exact Hg|done|done|].
    eapply IH; [by exists sp|by eapply lookup_moved].
Qed.

Lemma finish_held c t i p :
  is_Some (c_shards c !! i) → c_threads c !! t = Some (Held i p) → can_finish c t.
Proof.
  intros [sp Hi] Hg. destruct (decide_inline c i sp p) as [c1 g1] eqn:E.
  assert (c_threads c1 = c_threads c ∧ is_Some (c_shards c1 !! i)
    ∧ ((∃ idx m ids, g1 = Applying i p idx m ids) ∨ ∃ r, g1 = Unlocking i p r)) as (Ht & Hi1 & Hg1).
  { unfold decide_inline in E. assert (i < length (c_shards c))%nat as Hlt by (by eapply lookup_lt_Some).
    destruct (if decide _ then _ else _).
    - injection E as <- <-. split_and!; [done| |eauto]. simpl. by rewrite list_lookup_insert_eq.
    - destruct (inline_writes _ _ _ _) as [bat ke]. injection E as <- <-.
      split_and!; [done| |eauto]. simpl. by rewrite list_lookup_insert_eq. }
  eapply can_finish_step; [exact Hg|simpl; by rewrite Hi, E|done|].
  assert (c_threads (set_thread c1 t g1) !! t = Some g1) as Hl by (simpl; rewrite Ht; by eapply lookup_moved).
  destruct Hg1 as [(idx & m & ids & ->)|[r ->]]; [by eapply finish_applying|by eapply finish_unlocking].
Qed.

Lemma finish_loading c t l : (length l ≤ numShards)%nat → c_threads c !! t = Some (Loading l) → can_finish c t.
Proof.
  remember (numShards - length l)%nat as n eqn:En. revert c l En.
  induction n as [|n IH]; intros c l En Hl Hg.
  - eapply can_finish_done; [exact Hg|simpl; by rewrite decide_False by lia|done|done].
  - eapply can_finish_step; [exact Hg|simpl; by rewrite decide_True by lia|done|].
    eapply IH; [| |by eapply lookup_moved]; rewrite length_app; simpl; lia.
Qed.

Lemma sim_has_shard c s log p : sim c s log → is_Some (c_shards c !! proposal_shard p).
Proof.
  intros Hs. apply lookup_lt_is_Some_2. destruct (sim_len _ _ _ Hs) as [-> _]. apply proposal_shard_lt.
Qed.

Lemma holder_can_finish c s log t g i :
  sim c s log → c_threads c !! t = Some g → holder g = Some i → finished g = false ∧ can_finish c t.
Proof.
  intros Hs Hg Hh. pose proof (sim_threads _ _ _ Hs) as Hok. rewrite Forall_lookup in Hok.
  specialize (Hok t g Hg). destruct g; try done; simpl in Hok.
  - destruct Hok as [-> _]. split; [done|]. eapply finish_held; [by eapply sim_has_shard|done].
  - destruct Hok as [-> _]. split; [done|]. eapply finish_applying; [by eapply sim_has_shard|done].
  - split; [done|]. by eapply finish_unlocking.
Qed.

(** A lock is free, or its holder can finish. *)
Lemma lock_free_or_holder c s log p :
  sim c s log →
  (∃ t g, c_threads c !! t = Some g ∧ finished g = false ∧ can_finish c t)
  ∨ c_locks c !! proposal_shard p = Some false.
Proof.
  intros Hs. destruct (lookup_lt_is_Some_2 (c_locks c) (proposal_shard p)) as [[] Hb]; [| |by right].
  - destruct (sim_len _ _ _ Hs) as [_ ->]. apply proposal_shard_lt.
  - left. destruct (proj2 (proj2 (sim_locks _ _ _ Hs)) _ Hb) as (t & g & Hg & Hh).
    destruct (holder_can_finish c s log t g _ Hs Hg Hh). eauto.
Qed.

Lemma finish_spin c s log c1 t p :
  sim c s log → c_threads c1 !! t = Some (Spin (proposal_shard p) p) → c_locks c1 = c_locks c →
  c_shards c1 = c_shards c → c_locks c !! proposal_shard p = Some false → can_finish c1 t.
Proof.
  intros Hs Hg El Es Hfree. eapply can_finish_step; [exact Hg|simpl; by rewrite El, Hfree|done|].
  eapply finish_held; [simpl; rewrite Es; by eapply sim_has_shard|by eapply lookup_moved].
Qed.

(** Of the goroutines that have not ended, one can: the holder of a lock, or,
    when no lock is held, any. *)
Lemma some_can_finish c s log t g :
  sim c s log → c_threads c !! t = Some g → finished g = false →
  ∃ t' g', c_threads c !! t' = Some g' ∧ finished g' = false ∧ can_finish c t'.
Proof.
  intros Hs Hg Hf. pose proof (sim_threads _ _ _ Hs) as Hok. rewrite Forall_lookup in Hok.
  pose proof (Hok t g Hg) as Hokg. pose proof (fun i => holder_can_finish c s log t g i Hs Hg) as Hh.
  destruct g as [p|i p|i p|i p idx m ids|i p r|p r|l|]; try done; simpl in Hokg, Hh.
  - destruct (lock_free_or_holder c s log p Hs) as [?|Hfree]; [done|]. exists t, (Idle p). split_and!; [done..|].
    destruct (c_closed c) eqn:Ec.
    + eapply can_finish_done; [exact Hg|simpl; by rewrite Ec|done|done].
    + eapply can_finish_step; [exact Hg|simpl; by rewrite Ec|done|].
      eapply finish_spin; try done. by eapply lookup_moved.
  - destruct Hokg as [-> _]. destruct (lock_free_or_holder c s log p Hs) as [?|Hfree]; [done|].
    exists t, (Spin (proposal_shard p) p). split_and!; [done..|]. by eapply finish_spin.
  - exists t, (Held i p). split_and!; [done..|]. by eapply Hh.
  - exists t, (Applying i p idx m ids). split_and!; [done..|]. by eapply Hh.
  - exists t, (Unlocking i p r). split_and!; [done..|]. by eapply Hh.
  - exists t, (Loading l). split_and!; [done..|]. by eapply finish_loading.
Qed.

Definition unfinished c : nat := length (filter (fun g => finished g = false) (c_threads c)).

Lemma unfinished_decreases c c' t g g' :
  c_threads c !! t = Some g → finished g = false → finished g' = true →
  c_threads c' = <[t := g']> (c_threads c) → (unfinished c' < unfinished c)%nat.
Proof.
  intros Hg Hf Hf' Hc'. unfold unfinished. rewrite Hc', insert_take_drop by (by eapply lookup_lt_Some).
  rewrite <- (take_drop_middle _ t g Hg) at 3. rewrite !filter_app, !length_app, !filter_cons.
  rewrite decide_False by congruence. rewrite decide_True by done. simpl. lia.
Qed.

(** C30. No deadlock: from every state the goroutines can reach, under any
    scheduling and with proposals that each write within one shard, a
    continuation exists in which every proposal is answered and every snapshot is
    taken. *)
Theorem sharded_progress c0 s0 c :
  starts c0 s0 → rtc cstep c0 c →
  ∃ c', rtc cstep c c' ∧ Forall (fun g => finished g = true) (c_threads c').
Proof.
  intros Hs0 Hr. destruct (sim_steps _ _ _ _ (sim_starts _ _ Hs0) Hr) as (s & log & Hs & _). clear Hr Hs0.
  simpl in Hs. revert s log Hs. remember (unfinished c) as n eqn:En. revert c En.
  induction n as [n IH] using lt_wf_ind. intros c -> s log Hs.
  destruct (decide (Forall (fun g => finished g = true) (c_threads c))) as [Hall|Hnot]; [by exists c|].
  apply not_Forall_Exists, Exists_exists in Hnot; [|apply _]. destruct Hnot as (g & [t Hg]%list_elem_of_lookup & Hf).
  apply not_true_is_false in Hf. destruct (some_can_finish c s log t g Hs Hg Hf) as (t' & g' & Hg' & Hf' & Hcan).
  destruct Hcan as (c1 & g1 & Hr1 & Hf1 & Hc1). destruct (sim_steps _ _ _ _ Hs Hr1) as (s1 & l1 & Hs1 & _).
  destruct (IH _ (unfinished_decreases c c1 t' g' g1 Hg' Hf' Hf1 Hc1) c1 eq_refl s1 _ Hs1) as (c2 & Hr2 & H2).
  exists c2. split; [by etransitivity|done].
Qed.

(** ** Snapshots *)

Lemma advance_mode c g c' g' :
  advance c g = Some (c', g') → sharded (c_engine c') = sharded (c_engine c).
Proof.
  destruct g as [p|i p|i p|i p idx m []|i p r|p r|l|sn]; simpl; unfold decide_inline; intros Ha;
    repeat case_match; by simplify_eq.
Qed.

Lemma cstep_mode c c' : cstep c c' → sharded (c_engine c') = sharded (c_engine c).
Proof.
  intros [t Hc| ->]; [|done]. unfold schedule1 in Hc. destruct (c_threads c !! t) as [g|]; [|done].
  simpl in Hc. destruct (advance c g) as [[c1 g']|] eqn:Ha; [|done]. simpl in Hc. injection Hc as <-.
  by apply advance_mode in Ha.
Qed.

(** A moment between [c0] and [c] at which shard [i] was [st]. *)
Definition seen_at c0 c (i : nat) (st : state T) : Prop :=
  ∃ ci, rtc cstep c0 ci ∧ rtc cstep ci c ∧ shard (shards (c_engine ci)) i = st.

Lemma seen_at_step c0 c c' i st : seen_at c0 c i st → cstep c c' → seen_at c0 c' i st.
Proof. intros (ci & H1 & H2 & H3) Hs. exists ci. split_and!; [done|by eapply rtc_r|done]. Qed.

(** What goroutine [t] has loaded so far. *)
Definition loaded c0 c g : Prop :=
  ∃ l, (g = Loading l ∨ (g = Snapped (ShardedSnapshot l) ∧ length l = numShards))
    ∧ (length l ≤ numShards)%nat ∧ ∀ i st, l !! i = Some st → seen_at c0 c i st.

Lemma loaded_steps c0 c t :
  c_threads c0 !! t = Some (Loading []) → rtc cstep c0 c →
  ∃ g, c_threads c !! t = Some g ∧ loaded c0 c g.
Proof.
  intros H0t Hr. revert c Hr.
  apply (rtc_ind_r (fun c => ∃ g, c_threads c !! t = Some g ∧ loaded c0 c g)).
  { exists (Loading []). split; [done|]. exists []. split; [by left|]. split; [simpl; lia|done]. }
  intros c c' Hr Hst (g & Hg & l & Hl & Hlen & Hseen).
  assert (∀ i st, l !! i = Some st → seen_at c0 c' i st) as Hseen' by (intros; eapply seen_at_step; eauto).
  pose proof Hst as Hst'. destruct Hst as [u Hc| ->]; [|by exists g; split; [done|]; exists l].
  unfold schedule1 in Hc. destruct (c_threads c !! u) as [gu|] eqn:Hgu; [|done]. simpl in Hc.
  destruct (advance c gu) as [[c1 g1]|] eqn:Ha; [|done]. simpl in Hc.
  assert (c_threads c1 = c_threads c) as Ht.
  { clear -Ha. destruct gu as [p|i p|i p|i p idx m []|i p r|p r|k|sn]; simpl in Ha; unfold decide_inline in Ha;
      repeat case_match; by simplify_eq. }
  destruct (decide (u = t)) as [->|Hne].
  2: { exists g. split; [|by exists l]. injection Hc as <-. simpl. by rewrite list_lookup_insert_ne, Ht. }
  rewrite Hg in Hgu. injection Hgu as <-. exists g1.
  split; [injection Hc as <-; simpl; rewrite Ht; by eapply lookup_moved|].
  destruct Hl as [->|[-> _]]; [|done]. simpl in Ha. case_decide as Hlt; injection Ha as <- <-.
  - exists (l ++ [shard (shards (c_engine c)) (length l)]). split; [by left|].
    rewrite length_app. simpl. split; [lia|]. intros i st [Hi|[Hge Hi]]%lookup_app_Some; [by apply Hseen'|].
    apply list_lookup_singleton_Some in Hi as [Hi <-]. assert (i = length l) as -> by lia.
    exists c. split_and!; [done|by apply rtc_once|done].
  - exists l. split; [right; split; [done|lia]|done].
Qed.

(** What a snapshot of the sharded engine shows: for each shard there is a
    moment while the snapshot was being taken at which every key of that shard
    had, in the engine, the value the snapshot shows. *)
Theorem snapshot_shardwise c0 c t snap :
  sharded (c_engine c0) = true → c_threads c0 !! t = Some (Loading []) → rtc cstep c0 c →
  c_threads c !! t = Some (Snapped snap) →
  ∀ i, (i < numShards)%nat →
  ∃ ci, rtc cstep c0 ci ∧ rtc cstep ci c
    ∧ ∀ k, shardFor k = i → Snapshot_Get snap k = Get (c_engine ci) k.
Proof.
  intros Hm H0t Hr Hg i Hi. destruct (loaded_steps c0 c t H0t Hr) as (g & Hg' & l & Hl & _ & Hseen).
  rewrite Hg in Hg'. injection Hg' as <-. destruct Hl as [?|[[= ->] Hlen]]; [done|].
  destruct (lookup_lt_is_Some_2 l i) as [st Hst]; [by rewrite Hlen|].
  destruct (Hseen i st Hst) as (ci & H1 & H2 & Hsh). exists ci. split_and!; [done|done|].
  intros k Hk. unfold Snapshot_Get, Get.
  assert (sharded (c_engine ci) = true) as ->.
  { clear -Hm H1. induction H1 as [|x y z Hs _ IH]; [done|]. apply IH. by rewrite (cstep_mode _ _ Hs). }
  simpl. rewrite Hk, Hsh. unfold shard. by rewrite Hst.
Qed.
End props.
