(* ===== verification/Scenarios.v ===== *)
(** * Concrete stores

    The generic theorems on the apply paths, at the in-memory engine over finite
    maps: a fresh proposer satisfies every hypothesis, and the executions that
    show the limits of conflict detection are evaluated here. *)

From S2P Require Import Prelude Types Wire EngineSpec BTree Memory Fsm.
From S2P Require Import Occ Direct Reopen Raft Batching Loop.

(** The in-memory engine over finite maps, and a clock that does nothing. *)
Abbreviation MemEngine := (Engine (gmap bytes bytes)).
Definition no_clock (_ : unit) (_ _ : Z) : unit := tt.
Abbreviation MemProposer := (directProposer MemEngine unit).
Abbreviation MemFSM := (dpxFSM MemEngine unit).

Definition fresh_fsm : MemFSM := newFSM (New : MemEngine) SyncNone false (Some 0) tt.

Definition fresh : MemProposer :=
  {| d_fsm := {| f_applied := 0; f_engine := New; f_keyEpoch := ∅; f_syncPolicy := SyncNone;
                 f_clock := tt; f_watchers := false; f_metrics := Some 0; f_skipHLC := true |};
     d_closed := false; d_index := 0 |}.

Lemma fresh_is_new : newDirectProposer (New : MemEngine) SyncNone false (Some 0) tt = Ok fresh.
Proof. reflexivity. Qed.

Lemma empty_ok i : 0 <= i → ke_ok ∅ ∅ ∧ bounded i ∅.
Proof.
  intros Hi. assert (∀ k, ver ∅ k = zero_epoch) as Hv
    by (intros k; unfold ver; by rewrite lookup_empty).
  split; intros k Hk; rewrite Hv; [unfold epoch_of; by rewrite lookup_empty|simpl; lia].
Qed.

Lemma d_store_fresh : d_store fresh = ∅.
Proof. exact abs_New. Qed.

Lemma f_store_fresh : f_store fresh_fsm = ∅.
Proof. exact abs_New. Qed.

Lemma fresh_dinv : dinv fresh.
Proof.
  split; [apply inv_New| |simpl; lia|]; rewrite d_store_fresh; by apply (empty_ok 0).
Qed.

Lemma fresh_finv : finv 0 fresh_fsm.
Proof.
  split; [apply inv_New| |done|]; rewrite f_store_fresh; by apply (empty_ok 0).
Qed.

(** ** Sample proposals *)

Definition k_a : bytes := bs "a".
Definition k_b : bytes := bs "b".

Definition prop (rs : list ReadEntry) (ws : list WriteEntry) : Proposal :=
  {| ReadSet := rs; Writes := ws; TimestampWall := 0; TimestampCounter := 0 |}.
Definition rd (k : bytes) (e : Z) : ReadEntry := {| re_Key := k; re_Epoch := e; re_IsDebit := false |}.
Definition rd_debit (k : bytes) (e : Z) : ReadEntry := {| re_Key := k; re_Epoch := e; re_IsDebit := true |}.
Definition wr (op : Z) (k v : bytes) : WriteEntry := {| we_Op := op; we_Key := k; we_Value := v |}.

Definition set_a (v : Z) : WriteEntry := wr OpSet k_a (encodeInt64 v).
Definition debit_a (v : Z) : WriteEntry := wr OpDebit k_a (encodeInt64 (- v)).
Definition credit_a (v : Z) : WriteEntry := wr OpCredit k_a (encodeInt64 v).

#[export] Instance known_op_dec op : Decision (known_op op).
Proof. unfold known_op. apply _. Defined.
#[export] Instance client_proposal_dec p : Decision (client_proposal p).
Proof. unfold client_proposal, client_writes. apply _. Defined.

(** A read-modify-write of [a] that read it before any commit. *)
Definition rmw_a : Proposal := prop [rd k_a 0] [set_a 7].

(** ** Witnesses *)

Lemma direct_batch_serializable_witness :
  let '(d, rs, _) := applyBatchDirect no_clock fresh [rmw_a; rmw_a] in
  rs = [res_ok; res_conflict] ∧ d_store d = commits ∅ [(1, rmw_a)].
Proof.
  destruct (applyBatchDirect no_clock fresh [rmw_a; rmw_a]) as [[d rs] ns] eqn:E.
  destruct (direct_batch_serializable no_clock fresh fresh [rmw_a; rmw_a] d rs ns) as [Hs _].
  - apply fresh_dinv.
  - apply rtc_refl.
  - apply (bool_decide_unpack _); vm_compute; exact I.
  - vm_compute. reflexivity.
  - exact E.
  - change rs with ((d, rs, ns).1.2). rewrite <- E. apply (bool_decide_unpack _); vm_compute; exact I.
  - assert (rs = [res_ok; res_conflict]) as Er
      by (change rs with ((d, rs, ns).1.2); rewrite <- E; vm_compute; reflexivity).
    split; [exact Er|]. rewrite Hs, Er, d_store_fresh. reflexivity.
Defined.

Lemma direct_batch_invariant_witness :
  dinv (applyBatchDirect no_clock fresh [rmw_a]).1.1.
Proof.
  destruct (applyBatchDirect no_clock fresh [rmw_a]) as [[d rs] ns] eqn:E.
  refine (proj1 (direct_batch_invariant no_clock fresh [rmw_a] d rs ns fresh_dinv
    ltac:(apply (bool_decide_unpack _); vm_compute; exact I) ltac:(vm_compute; reflexivity) E _)).
  change rs with ((d, rs, ns).1.2). rewrite <- E. apply (bool_decide_unpack _); vm_compute; exact I.
Defined.

(** The proposer after one commit to [a]. *)
Definition written : directProposer MemEngine unit := (applyBatchDirect no_clock fresh [rmw_a]).1.1.

Lemma written_spec : dinv written ∧ d_store written = commits ∅ [(1, rmw_a)].
Proof.
  destruct (applyBatchDirect no_clock fresh [rmw_a]) as [[d rs] ns] eqn:E.
  assert (rs = [res_ok]) as Er by (change rs with ((d, rs, ns).1.2); rewrite <- E; vm_compute; reflexivity).
  destruct (applyBatchDirect_spec no_clock fresh [rmw_a] d rs ns fresh_dinv) as (Hd & _ & _ & Hs & _).
  - apply (bool_decide_unpack _); vm_compute; exact I.
  - vm_compute. reflexivity.
  - exact E.
  - rewrite Er. by constructor.
  - unfold written. rewrite E. split; [exact Hd|]. cbn [fst]. rewrite Hs, Er, d_store_fresh. reflexivity.
Qed.

(** A store with one version record: the record is in the epoch map again. *)
Lemma open_rebuilds_epochs_witness :
  ∃ f', open (fun _ => false) (d_fsm written) = Ok f'
    ∧ f_keyEpoch f' !! k_a = Some {| Epoch := 1; IsCredit := false |}.
Proof.
  destruct (open_rebuilds_epochs (d_fsm written)) as (f' & Ho & _ & _ & Hk & _).
  - apply (di_engine _ (proj1 written_spec)).
  - change (versions_wf (d_store written)). rewrite (proj2 written_spec).
    apply versions_wf_commits; [|apply versions_wf_empty].
    constructor; [|constructor]. unfold user_writes. apply (bool_decide_unpack _). vm_compute. exact I.
  - reflexivity.
  - exists f'. split; [exact Ho|]. rewrite Hk. change (eng_abs _) with (d_store written).
    rewrite (proj2 written_spec). vm_compute. reflexivity.
Defined.

(** A log entry that carries a proposal. *)
Definition log_of (idx : Z) (p : Proposal) : Log :=
  {| log_command := true; log_Index := idx;
     log_Data := default [] (Marshal p) |}.

Lemma log_proposal_client log q :
  log_proposal log = Some q → client_proposal q → ∀ p, log_proposal log = Some p → client_proposal p.
Proof. intros -> Hq p [= <-]. exact Hq. Qed.

Lemma raft_batch_serializable_witness :
  let '(f, rs, _) := applyBatch no_clock fresh_fsm [log_of 3 rmw_a; log_of 5 rmw_a] in
  rs = [res_ok; res_conflict] ∧ f_store f = commits ∅ [(3, rmw_a)].
Proof.
  destruct (applyBatch no_clock fresh_fsm [log_of 3 rmw_a; log_of 5 rmw_a]) as [[f rs] ns] eqn:E.
  assert (∀ idx, log_proposal (log_of idx rmw_a) = Some rmw_a) as Hp by (intros; vm_compute; reflexivity).
  destruct (raft_batch_serializable no_clock 0 fresh_fsm [log_of 3 rmw_a; log_of 5 rmw_a] f rs ns)
    as (j & _ & _ & _ & Hs & _).
  - apply fresh_finv.
  - assert (client_proposal rmw_a) as Hc by (apply (bool_decide_unpack _); vm_compute; exact I).
    cbn [logs_wf]. split_and!; try (cbn; width_lia); try (exact I);
      eapply log_proposal_client; [apply Hp|exact Hc|apply Hp|exact Hc].
  - exact E.
  - change rs with ((f, rs, ns).1.2). rewrite <- E. apply (bool_decide_unpack _); vm_compute; exact I.
  - assert (rs = [res_ok; res_conflict]) as Er
      by (change rs with ((f, rs, ns).1.2); rewrite <- E; vm_compute; reflexivity).
    split; [exact Er|]. rewrite Hs, Er, f_store_fresh. cbn [accepted_logs].
    rewrite !Hp. reflexivity.
Defined.

(** Two entries of one batch that both read [a] before it: as one batch or one
    by one, the second conflicts. *)
Lemma raft_batching_irrelevant_witness :
  (applyBatch no_clock fresh_fsm [log_of 3 rmw_a; log_of 5 rmw_a]).1.2
  = (apply_singly no_clock fresh_fsm [log_of 3 rmw_a; log_of 5 rmw_a]).1.2.
Proof.
  rewrite (raft_batching_irrelevant no_clock 2 [log_of 3 rmw_a; log_of 5 rmw_a] fresh_fsm);
    [reflexivity|].
  assert (∀ idx, 2 < idx → log_reads_before 2 (log_of idx rmw_a)) as Hl.
  { intros idx Hi. split; [exact Hi|]. intros p Hp.
    assert (Some p = Some rmw_a) as E by (rewrite <- Hp; vm_compute; reflexivity).
    injection E as ->. constructor; [cbn; lia|constructor]. }
  constructor; [apply Hl; lia|constructor; [apply Hl; lia|constructor]].
Defined.

Lemma small_path_agrees_witness :
  (small_batch no_clock fresh (eng_NewBatch (New : MemEngine)) [] false [rmw_a; rmw_a]).2
  = (large_batch no_clock fresh (eng_NewBatch (New : MemEngine)) ∅ false [rmw_a; rmw_a]).2.
Proof.
  rewrite (small_path_agrees no_clock [rmw_a; rmw_a] fresh); [reflexivity| |cbn; lia|cbn; lia].
  assert (plain_proposal 0 rmw_a) as Hp.
  { split; [apply (bool_decide_unpack _); vm_compute; exact I|].
    constructor; [cbn; split; [lia|reflexivity]|constructor]. }
  constructor; [exact Hp|constructor; [exact Hp|constructor]].
Defined.

(** One entry is sent to the applier loop. *)
Definition one_sent : loop MemEngine unit :=
  {| l_d := fresh; submitCh := [(0%nat, rmw_a)]; batch := []; delivered := []; announced := [];
     l_done := false; running := true |}.

Lemma one_sent_reachable : rtc (lstep no_clock) (start fresh, []) (one_sent, [(0%nat, rmw_a)]).
Proof.
  apply rtc_once. apply (l_submit no_clock (start fresh) one_sent []); [done|].
  apply (bool_decide_unpack _); vm_compute; exact I.
Qed.

Lemma loop_fifo_witness :
  ∃ fin, [(0%nat, rmw_a)] = fin ++ batch one_sent ++ submitCh one_sent ∧ map fst (delivered one_sent) = map fst fin.
Proof.
  destruct (loop_fifo no_clock fresh one_sent [(0%nat, rmw_a)] fresh_dinv one_sent_reachable) as (fin & H1 & H2 & _).
  exists fin. split; [exact H1|exact H2].
Defined.

Lemma loop_applies_all_witness :
  ∃ l', rtc (lstep no_clock) (one_sent, [(0%nat, rmw_a)]) (l', [(0%nat, rmw_a)])
        ∧ map fst (delivered l') = [0%nat].
Proof.
  exact (loop_applies_all no_clock fresh one_sent [(0%nat, rmw_a)] fresh_dinv one_sent_reachable eq_refl).
Defined.

(** ** Limits of conflict detection *)

(** The log of a leader: [a] is set at index 5, read at that version, and set
    again at index 6. *)
Definition leader_log : list Log := [log_of 5 (prop [] [set_a 1]); log_of 6 (prop [rd k_a 5] [set_a 2])].

(** Batch boundaries change the outcome of a replicated log: two replicas
    that apply the same two entries, one in two batches and the other in one
    (as it happens on replay), give different results and end with different
    values, because any key written earlier in the same batch is a conflict even
    for a reader that has seen that write. *)
Theorem raft_batch_boundary_diverges :
  let '(f1, rs1, _) := apply_singly no_clock fresh_fsm leader_log in
  let '(f2, rs2, _) := applyBatch no_clock fresh_fsm leader_log in
  rs1 = [res_ok; res_ok] ∧ rs2 = [res_ok; res_conflict]
  ∧ eng_Get (f_engine f1) k_a = inl (encodeInt64 2)
  ∧ eng_Get (f_engine f2) k_a = inl (encodeInt64 1).
Proof. vm_compute. split_and!; reflexivity. Qed.

(** Clients of a store in which [a] was set to 100 at index 1. Both clients of
    the scenario read it there and debit 80. *)
Definition spend : Proposal := prop [rd_debit k_a 1] [debit_a 80].

(** A credit hides an earlier debit: after [a] := 100, a debit of 80, and a
    credit of 5, a second debit of 80 that was checked against the balance 100
    commits, and the balance is -55. The epoch map keeps only the last write of
    a key, and a debit is exempt from conflicts with a credit. *)
Theorem credit_masks_debit :
  let '(d, r1) := ApplyOneDirect no_clock fresh (prop [] [set_a 100]) in
  let '(d, r2) := ApplyOneDirect no_clock d spend in
  let '(d3, r3) := ApplyOneDirect no_clock d spend in
  let '(d, r4) := ApplyOneDirect no_clock d (prop [] [credit_a 5]) in
  let '(d, r5) := ApplyOneDirect no_clock d spend in
  r2 = Some res_ok ∧ r3 = Some res_conflict ∧ r4 = Some res_ok ∧ r5 = Some res_ok
  ∧ eng_Get (f_engine (d_fsm d)) k_a = inl (encodeInt64 (-55)).
Proof. vm_compute. split_and!; reflexivity. Qed.

(** Reopening a direct proposer restarts its index: with three commits to
    [a] before the restart (versions up to 3), a client that reads [a] at
    version 3 after it and a commit that overwrites [a] afterwards (at index 1)
    are not seen as a conflict, and the overwritten update is lost. *)
Theorem reopened_index_loses_update :
  let '(d, _) := ApplyOneDirect no_clock fresh (prop [] [set_a 1]) in
  let '(d, _) := ApplyOneDirect no_clock d (prop [] [set_a 2]) in
  let '(d, _) := ApplyOneDirect no_clock d (prop [] [set_a 3]) in
  match newDirectProposer (f_engine (d_fsm d)) SyncNone false None tt with
  | Ok d' =>
      let e := match eng_GetSnapshot (f_engine (d_fsm d')) with
               | inl s => match snap_GetVersion s k_a with inl v => Epoch v | inr _ => 0 end
               | inr _ => 0
               end in
      let '(d', r1) := ApplyOneDirect no_clock d' (prop [] [set_a 50]) in
      let '(d', r2) := ApplyOneDirect no_clock d' (prop [rd k_a e] [set_a 4]) in
      e = 3 ∧ r1 = Some res_ok ∧ r2 = Some res_ok
      ∧ eng_Get (f_engine (d_fsm d')) k_a = inl (encodeInt64 4)
  | _ => False
  end.
Proof. vm_compute. split_and!; reflexivity. Qed.
