(* ===== verification/EntryPool.v ===== *)
(** * Pooled entries of the direct proposer (src/conductor/direct.go)

    [ProposeDirect] takes its entry, and with it the channel its result comes
    back on, from a [sync.Pool]; the applier puts the entry back right after it
    has sent the result, whether or not the caller has received it. This file
    models callers, entries, their channels and the pool, and the applier as the
    steps receive, flush and deliver; which of them it takes when, the loop over
    batches, is in Loop.v.

    A channel of capacity one is its buffered value and the callers parked on
    it: a send hands the value to the first parked caller, or fills the
    buffer. *)

From S2P Require Import Prelude Types Wire EngineSpec BTree Memory Fsm Occ Direct Loop Scenarios.

(** ** State *)

(** [proposalEntry]; [en_buf] and [en_wait] are its [resultCh]. *)
Record entryObj := { en_p : option Proposal; en_buf : option ApplyResult; en_wait : list nat }.

(** A goroutine in [ProposeDirect]: before the call, past the check of the closed
    flag, holding an entry, past the first select, parked in the second one, or returned with a result or
    errDirectClosed ([None]). *)
Inductive caller :=
  | Calling (p : Proposal)
  | Checked (p : Proposal)
  | Got (p : Proposal) (id : nat)
  | Sent (p : Proposal) (id : nat)
  | Parked (p : Proposal) (id : nat)
  | Returned (p : Proposal) (r : option ApplyResult).

(** An entry on its way, with the caller who sent it and its proposal, which
    the code does not keep. *)
Abbreviation ticket := (nat * (nat * Proposal))%type.

(** A pool without one occurrence of [id]. *)
Fixpoint take_id (id : nat) (l : list nat) : option (list nat) :=
  match l with
  | [] => None
  | x :: l => if decide (x = id) then Some l else (x ::.) <$> take_id id l
  end.

(** The steps of callers and applier. *)
Inductive action :=
  | CallerCheck (t : nat)                       (* [d.closed.Load()] *)
  | CallerGet (t : nat) (choice : option nat)   (* [Get]: a pooled entry, or [New] *)
  | CallerSend (t : nat)
  | CallerRecv (t : nat)
  | CallerQuit (t : nat)                        (* [case <-d.done] *)
  | ApplierRecv
  | ApplierFlush
  | ApplierDeliver
  | PoolShutdown.

#[export] Instance action_eq_dec : EqDecision action.
Proof. solve_decision. Defined.

Section pool.
Context {Eng Snap Bat : Type} `{StorageEngine Eng Snap Bat}.
Context {Clock : Type} (clock_Observe : Clock → Z → Z → Clock).

Record psys := {
  ps_d : directProposer Eng Clock;
  ps_done : bool;
  ps_entries : list entryObj;
  ps_pool : list nat;
  ps_submit : list ticket;
  ps_batch : list ticket;
  ps_deliver : list (ticket * ApplyResult);        (* results still to be sent *)
  ps_callers : list caller;
  ps_log : list (nat * Proposal * ApplyResult);    (* every result computed, in order *)
}.

Definition set_callers (s : psys) (l : list caller) : psys :=
  {| ps_d := ps_d s; ps_done := ps_done s; ps_entries := ps_entries s; ps_pool := ps_pool s;
     ps_submit := ps_submit s; ps_batch := ps_batch s; ps_deliver := ps_deliver s; ps_callers := l;
     ps_log := ps_log s |}.
Definition set_caller (s : psys) (t : nat) (c : caller) : psys := set_callers s (<[t := c]> (ps_callers s)).
Definition set_entry (s : psys) (id : nat) (o : entryObj) : psys :=
  {| ps_d := ps_d s; ps_done := ps_done s; ps_entries := <[id := o]> (ps_entries s); ps_pool := ps_pool s;
     ps_submit := ps_submit s; ps_batch := ps_batch s; ps_deliver := ps_deliver s;
     ps_callers := ps_callers s; ps_log := ps_log s |}.
Definition set_pool (s : psys) (l : list nat) : psys :=
  {| ps_d := ps_d s; ps_done := ps_done s; ps_entries := ps_entries s; ps_pool := l;
     ps_submit := ps_submit s; ps_batch := ps_batch s; ps_deliver := ps_deliver s;
     ps_callers := ps_callers s; ps_log := ps_log s |}.
Definition set_queues (s : psys) (q b : list ticket) (dl : list (ticket * ApplyResult)) : psys :=
  {| ps_d := ps_d s; ps_done := ps_done s; ps_entries := ps_entries s; ps_pool := ps_pool s;
     ps_submit := q; ps_batch := b; ps_deliver := dl; ps_callers := ps_callers s; ps_log := ps_log s |}.

(** Nothing is pooled when the process starts. *)
Definition start_pool (d : directProposer Eng Clock) (ps : list Proposal) : psys :=
  {| ps_d := d; ps_done := false; ps_entries := []; ps_pool := []; ps_submit := []; ps_batch := [];
     ps_deliver := []; ps_callers := map Calling ps; ps_log := [] |}.

(** ** Steps *)

(** [entryPool.Get()] and [entry.p = p]. *)
Definition take_entry (s : psys) (p : Proposal) (choice : option nat) : option (psys * nat) :=
  match choice with
  | None =>
      Some ({| ps_d := ps_d s; ps_done := ps_done s;
               ps_entries := ps_entries s ++ [{| en_p := Some p; en_buf := None; en_wait := [] |}];
               ps_pool := ps_pool s; ps_submit := ps_submit s; ps_batch := ps_batch s;
               ps_deliver := ps_deliver s; ps_callers := ps_callers s; ps_log := ps_log s |},
            length (ps_entries s))
  | Some id =>
      match take_id id (ps_pool s), ps_entries s !! id with
      | Some pool, Some o =>
          Some (set_entry (set_pool s pool) id
                  {| en_p := Some p; en_buf := en_buf o; en_wait := en_wait o |}, id)
      | _, _ => None
      end
  end.

(** The applier sends one result and pools the entry. *)
Definition deliver (s : psys) (id : nat) (o : entryObj) (r : ApplyResult) : psys :=
  let s := match en_wait o with
           | [] => set_entry s id {| en_p := None; en_buf := Some r; en_wait := [] |}
           | t :: ws =>
               let s := set_entry s id {| en_p := None; en_buf := None; en_wait := ws |} in
               match ps_callers s !! t with
               | Some (Parked p _) => set_caller s t (Returned p (Some r))
               | _ => s
               end
           end in
  set_pool s (ps_pool s ++ [id]).

(** The second select of caller [t] finds [done] closed. *)
Definition quit (s : psys) (t : nat) (p : Proposal) (id : nat) : option psys :=
  match ps_entries s !! id with
  | None => None
  | Some o =>
      Some (set_caller (set_entry s id {| en_p := en_p o; en_buf := en_buf o; en_wait := filter (fun x => x ≠ t) (en_wait o) |})
              t (Returned p None))
  end.

(** One step; [None] when the action is not possible, or dereferences a nil
    proposal. *)
Definition astep (s : psys) (a : action) : option psys :=
  match a with
  | CallerCheck t =>
      match ps_callers s !! t with
      | Some (Calling p) => Some (set_caller s t (if d_closed (ps_d s) then Returned p None else Checked p))
      | _ => None
      end
  | CallerGet t choice =>
      match ps_callers s !! t with
      | Some (Checked p) =>
          match take_entry s p choice with
          | Some (s, id) => Some (set_caller s t (Got p id))
          | None => None
          end
      | _ => None
      end
  | CallerSend t =>
      match ps_callers s !! t with
      | Some (Got p id) =>
          if Z.of_nat (length (ps_submit s)) <? submitBufSize
          then Some (set_caller (set_queues s (ps_submit s ++ [(id, (t, p))]) (ps_batch s) (ps_deliver s)) t (Sent p id))
          else None
      | _ => None
      end
  | CallerRecv t =>
      match ps_callers s !! t with
      | Some (Sent p id) =>
          match ps_entries s !! id with
          | None => None
          | Some o =>
              match en_buf o with
              | Some r => Some (set_caller (set_entry s id {| en_p := en_p o; en_buf := None; en_wait := en_wait o |})
                                  t (Returned p (Some r)))
              | None => Some (set_caller (set_entry s id {| en_p := en_p o; en_buf := None; en_wait := en_wait o ++ [t] |})
                                t (Parked p id))
              end
          end
      | _ => None
      end
  | CallerQuit t =>
      if ps_done s then
        match ps_callers s !! t with
        | Some (Got p id) =>
            match ps_entries s !! id with
            | None => None
            | Some o =>
                Some (set_caller (set_pool (set_entry s id {| en_p := None; en_buf := en_buf o; en_wait := en_wait o |})
                                    (ps_pool s ++ [id])) t (Returned p None))
            end
        | Some (Sent p id) | Some (Parked p id) => quit s t p id
        | _ => None
        end
      else None
  | ApplierRecv =>
      match ps_deliver s, ps_submit s with
      | [], tk :: q => if decide (length (ps_batch s) < maxBatchSize)%nat
                       then Some (set_queues s q (ps_batch s ++ [tk]) []) else None
      | _, _ => None
      end
  | ApplierFlush =>
      match ps_deliver s, ps_batch s with
      | [], tk :: b =>
          match mapM (fun tk : ticket => ps_entries s !! tk.1 ≫= en_p) (tk :: b) with
          | None => None
          | Some props =>
              let '(d, rs, _) := applyBatchDirect clock_Observe (ps_d s) props in
              Some {| ps_d := d; ps_done := ps_done s; ps_entries := ps_entries s; ps_pool := ps_pool s;
                      ps_submit := ps_submit s; ps_batch := []; ps_deliver := combine (tk :: b) rs;
                      ps_callers := ps_callers s;
                      ps_log := ps_log s ++ map (fun x => (x.1.2, x.2)) (combine (tk :: b) rs) |}
          end
      | _, _ => None
      end
  | ApplierDeliver =>
      match ps_deliver s with
      | [] => None
      | (tk, r) :: dl =>
          match ps_entries s !! tk.1 with
          | None => None
          | Some o => Some (deliver (set_queues s (ps_submit s) (ps_batch s) dl) tk.1 o r)
          end
      end
  | PoolShutdown =>
      Some {| ps_d := {| d_fsm := d_fsm (ps_d s); d_closed := true; d_index := d_index (ps_d s) |};
              ps_done := true; ps_entries := ps_entries s; ps_pool := ps_pool s; ps_submit := ps_submit s;
              ps_batch := ps_batch s; ps_deliver := ps_deliver s; ps_callers := ps_callers s;
              ps_log := ps_log s |}
  end.

Fixpoint arun (s : psys) (acts : list action) : option psys :=
  match acts with
  | [] => Some s
  | a :: acts => match astep s a with Some s => arun s acts | None => None end
  end.
End pool.

Arguments psys Eng Clock : clear implicits.

(** ** Results that reach the wrong caller *)

(** Caller 0 sends its entry and is descheduled before the second select; its
    proposal is applied, the result buffered and the entry pooled; caller 1
    takes the entry over. *)
Definition overtake : list action :=
  [CallerCheck 0; CallerGet 0 None; CallerSend 0; ApplierRecv; ApplierFlush; ApplierDeliver;
   CallerCheck 1; CallerGet 1 (Some 0%nat); CallerSend 1; CallerRecv 1;      (* the result of caller 0 *)
   CallerRecv 0; ApplierRecv; ApplierFlush; ApplierDeliver].  (* the result of caller 1 *)

(** Two read-modify-writes of one key that both read version 0. *)
Definition swapped : option (psys MemEngine unit) :=
  arun no_clock (start_pool fresh [rmw_a; prop [rd k_a 0] [set_a 8]]) overtake.


(** The applier drains a result nobody has received yet: the first caller then
    takes the second one's result, and the second waits for one that was thrown
    away; only a shutdown ends its wait. *)
Definition lost_result : option (psys MemEngine unit) :=
  arun no_clock (start_pool fresh [rmw_a; prop [] [set_a 8]])
    [CallerCheck 0; CallerGet 0 None; CallerSend 0; ApplierRecv; ApplierFlush; ApplierDeliver;
     CallerCheck 1; CallerGet 1 (Some 0%nat); CallerSend 1; ApplierRecv; ApplierFlush; ApplierDeliver; CallerRecv 0; CallerRecv 1].

(** Nothing but a shutdown moves a system whose queues are empty and whose
    callers have returned or are parked. *)
Lemma stuck_state {Eng Snap Bat Clock} `{StorageEngine Eng Snap Bat} (co : Clock → Z → Z → Clock)
    (s : psys Eng Clock) a :
  ps_submit s = [] → ps_batch s = [] → ps_deliver s = [] → ps_done s = false →
  Forall (fun c => match c with Returned _ _ | Parked _ _ => True | _ => False end) (ps_callers s) →
  a ≠ PoolShutdown → astep co s a = None.
Proof.
  intros Hq Hb Hd Hn Hc Ha. rewrite Forall_lookup in Hc.
  destruct a as [t|t ch|t|t|t| | | |]; unfold astep; rewrite ?Hq, ?Hb, ?Hd, ?Hn; try done;
    destruct (ps_callers s !! t) as [c|] eqn:E; try done; specialize (Hc _ _ E); by destruct c.
Qed.

Lemma pooled_entry_loses_result :
  ∃ s, lost_result = Some s ∧ ps_callers s !! 1%nat = Some (Parked (prop [] [set_a 8]) 0)
    ∧ ((1%nat, prop [] [set_a 8]), res_ok) ∈ ps_log s
    ∧ ∀ a, a ≠ PoolShutdown → astep no_clock s a = None.
Proof.
  assert ((fun s => (ps_submit s, ps_batch s, ps_deliver s, ps_done s, ps_callers s, ps_log s)) <$> lost_result
          = Some ([], [], [], false, [Returned rmw_a (Some res_ok); Parked (prop [] [set_a 8]) 0],
                  [(0%nat, rmw_a, res_ok); (1%nat, prop [] [set_a 8], res_ok)])) as E
    by (vm_compute; reflexivity).
  destruct lost_result as [s|]; [|discriminate E]. injection E as E1 E2 E3 E4 E5 E6.
  exists s. split; [done|]. rewrite E5, E6. split; [done|]. split; [set_solver|].
  intros a Ha. apply stuck_state; [done..| |done]. rewrite E5. by repeat constructor.
Qed.
