(* ===== verification/EntryPoolOrder.v ===== *)
(** * What pooling leaves intact (src/conductor/direct.go)

    The pool of entries can hand a result to the wrong caller, or lose it
    (EntryPool.v). It does not disturb the applier: whatever entry a proposal
    travels in, the proposals are applied in the order they were sent, each once
    and each as its caller submitted it, and the applier can always work off what
    was sent. *)

From S2P Require Import Prelude Types Wire EngineSpec BTree Memory Fsm Occ Direct Loop Scenarios EntryPool.

(** ** Identities in use *)

Definition caller_prop (c : caller) : Proposal :=
  match c with Calling p | Checked p | Got p _ | Sent p _ | Parked p _ | Returned p _ => p end.

(** The entry a caller holds before it is sent. *)
Definition got_id (c : caller) : option nat := match c with Got _ id => Some id | _ => None end.

(** The caller may have sent its proposal. *)
Definition past_send (c : caller) : Prop :=
  match c with Calling _ | Checked _ | Got _ _ => False | _ => True end.

(** The proposal an action sends, with its caller. *)
Definition sent_by (ps : list Proposal) (a : action) : option (nat * Proposal) :=
  match a with CallerSend t => (fun p => (t, p)) <$> ps !! t | _ => None end.

(** The steps of the applier's goroutine. *)
Definition applier_step (a : action) : Prop :=
  match a with ApplierRecv | ApplierFlush | ApplierDeliver => True | _ => False end.

Lemma take_id_perm id l l' : take_id id l = Some l' → l ≡ₚ id :: l'.
Proof.
  revert l'. induction l as [|x l IH]; intros l'; simpl; [done|]. case_decide; [by intros [= <-]; subst|].
  intros (l1 & E & ->)%fmap_Some. rewrite (IH l1 E). apply perm_swap.
Qed.

Lemma delete_perm {A} (l : list A) i x : l !! i = Some x → l ≡ₚ x :: delete i l.
Proof.
  intros Hi. rewrite delete_take_drop. rewrite <- (take_drop_middle l i x Hi) at 1. by rewrite <- Permutation_middle.
Qed.

Lemma perm_front {A} (a b c x r : list A) : a ++ b ++ c ++ x ++ r ≡ₚ (x ++ a) ++ b ++ c ++ r.
Proof.
  by rewrite (Permutation_app_swap_app c x r), (Permutation_app_swap_app b x), (Permutation_app_swap_app a x), app_assoc.
Qed.

(** Replacing one caller. *)
Lemma got_ids_insert (l : list caller) t c c' :
  l !! t = Some c →
  ∃ rest, omap got_id l ≡ₚ option_list (got_id c) ++ rest
          ∧ omap got_id (<[t := c']> l) ≡ₚ option_list (got_id c') ++ rest.
Proof.
  intros Ht. exists (omap got_id (delete t l)). split.
  - rewrite (delete_perm l t c Ht) at 1. simpl. by destruct (got_id c).
  - rewrite (delete_perm (<[t := c']> l) t c') at 1
      by (apply list_lookup_insert_eq; by eapply lookup_lt_Some).
    replace (delete t (<[t := c']> l)) with (delete t l).
    + simpl. by destruct (got_id c').
    + rewrite !delete_take_drop, take_insert_ge, drop_insert_lt by lia. done.
Qed.

Lemma props_insert (l : list caller) t c c' :
  l !! t = Some c → caller_prop c' = caller_prop c → map caller_prop (<[t := c']> l) = map caller_prop l.
Proof.
  intros Ht E. rewrite list_fmap_insert, E. apply list_insert_id. by rewrite list_lookup_fmap, Ht.
Qed.

Section order.
Context {Eng Snap Bat : Type} `{EngineLaws Eng Snap Bat}.
Context {Clock : Type} (clock_Observe : Clock → Z → Z → Clock).
Context (d0 : directProposer Eng Clock) (ps : list Proposal).
Implicit Types s : psys Eng Clock.

Definition pend s : list ticket := ps_batch s ++ ps_submit s.

(** The entries in the pool, on their way, or held by a caller. *)
Definition used s : list nat :=
  ps_pool s ++ map fst (pend s) ++ map (fun x => x.1.1) (ps_deliver s) ++ omap got_id (ps_callers s).

Definition en_prop s (id : nat) : option Proposal := ps_entries s !! id ≫= en_p.

(** [h] is what was sent. No entry is in two places, and an entry on its way
    holds the proposal its caller submitted. *)
Record oinv s (h : list (nat * Proposal)) : Prop := {
  ov_hist : h = map fst (ps_log s) ++ map snd (pend s);
  ov_nodup : NoDup (used s);
  ov_bound : Forall (fun id => id < length (ps_entries s))%nat (used s);
  ov_pend : Forall (fun tk => en_prop s tk.1 = Some tk.2.2) (pend s);
  ov_got t p id : ps_callers s !! t = Some (Got p id) → en_prop s id = Some p;
  ov_callers : map caller_prop (ps_callers s) = ps;
  ov_sent : Forall (fun tp => ∃ c, ps_callers s !! tp.1 = Some c ∧ past_send c ∧ caller_prop c = tp.2) h;
  ov_once : NoDup h.*1;
}.

(** What is known of the store as long as the engine reports no error. *)
Definition osem s : Prop :=
  dinv d0 → Forall client_proposal ps → no_engine_error (map snd (ps_log s)) →
  d_index d0 + Z.of_nat (length (ps_log s)) < 2 ^ 64 →
  dinv (ps_d s) ∧ d_index (ps_d s) = d_index d0 + Z.of_nat (length (ps_log s))
  ∧ d_store (ps_d s)
    = commits (d_store d0) (accepted (d_index d0) (map (fun x => x.1.2) (ps_log s)) (map snd (ps_log s))).

(** *** Frames *)

Lemma pend_used s tk : tk ∈ pend s → tk.1 ∈ used s.
Proof. intros Hin. unfold used. rewrite !elem_of_app. right. left. by apply list_elem_of_fmap_2. Qed.

Lemma got_used s t p id : ps_callers s !! t = Some (Got p id) → id ∈ used s.
Proof.
  intros Ht. unfold used. rewrite !elem_of_app. do 3 right. apply list_elem_of_omap.
  exists (Got p id). split; [by eapply list_elem_of_lookup_2|done].
Qed.

(** A caller that has not sent is replaced by one that has not; the entries in
    use may move, but keep their proposals. *)
Lemma sent_insert s s' h t c c' :
  oinv s h → ps_callers s !! t = Some c → caller_prop c' = caller_prop c → (past_send c → past_send c') →
  ps_callers s' = <[t := c']> (ps_callers s) →
  Forall (fun tp => ∃ c, ps_callers s' !! tp.1 = Some c ∧ past_send c ∧ caller_prop c = tp.2) h.
Proof.
  intros Hv Ht Hp Hs E. eapply Forall_impl; [apply (ov_sent _ _ Hv)|].
  intros [t' p'] (c1 & H1 & H2 & H3). simpl in *. rewrite E. destruct (decide (t' = t)) as [->|Hne].
  - exists c'. rewrite list_lookup_insert_eq by (by eapply lookup_lt_Some).
    rewrite Ht in H1. injection H1 as <-. split_and!; [done|by apply Hs|congruence].
  - exists c1. by rewrite list_lookup_insert_ne.
Qed.

(** The general step of a caller: it changes its own state and no queue. *)
Lemma oinv_caller s s' h t c c' :
  oinv s h → ps_callers s !! t = Some c → caller_prop c' = caller_prop c → (past_send c → past_send c') →
  ps_callers s' = <[t := c']> (ps_callers s) → ps_log s' = ps_log s → pend s' = pend s →
  NoDup (used s') → Forall (fun id => id < length (ps_entries s'))%nat (used s') →
  (∀ tk, tk ∈ pend s → en_prop s' tk.1 = en_prop s tk.1) →
  (∀ t' p' id, t' ≠ t → ps_callers s !! t' = Some (Got p' id) → en_prop s' id = en_prop s id) →
  (∀ p' id, c' = Got p' id → en_prop s' id = Some p') →
  oinv s' h.
Proof.
  intros Hv Ht Hp Hps Ec El Epd Hnd Hb Hpd Hg1 Hg2. split; try done.
  - rewrite El, Epd. apply Hv.
  - rewrite Epd. pose proof (ov_pend _ _ Hv) as Hf. rewrite Forall_forall in Hf |- *.
    intros tk Hin. rewrite Hpd by done. by apply Hf.
  - intros t' p' id. rewrite Ec. destruct (decide (t' = t)) as [->|Hne].
    + rewrite list_lookup_insert_eq by (by eapply lookup_lt_Some). intros [= ->]. by apply Hg2.
    + rewrite list_lookup_insert_ne by done. intros Hc. rewrite (Hg1 t' p') by done. by apply (ov_got _ _ Hv t').
  - rewrite Ec. erewrite props_insert by done. apply Hv.
  - by eapply sent_insert.
  - apply Hv.
Qed.

(** The entries in use after a caller's step, up to order. *)
Lemma used_insert s t c c' pool :
  ps_callers s !! t = Some c →
  option_list (got_id c) ++ ps_pool s ≡ₚ option_list (got_id c') ++ pool →
  pool ++ map fst (pend s) ++ map (fun x => x.1.1) (ps_deliver s) ++ omap got_id (<[t := c']> (ps_callers s))
  ≡ₚ used s.
Proof.
  intros Ht E. destruct (got_ids_insert _ t c c' Ht) as (rest & E1 & E2). unfold used. rewrite E1, E2.
  by rewrite !perm_front, E.
Qed.

(** The same when the entries in use are those of before. *)
Lemma oinv_caller_same s s' h t c c' :
  oinv s h → ps_callers s !! t = Some c → caller_prop c' = caller_prop c → (past_send c → past_send c') →
  got_id c' = got_id c → got_id c = None →
  ps_callers s' = <[t := c']> (ps_callers s) → ps_log s' = ps_log s → ps_pool s' = ps_pool s →
  pend s' = pend s → ps_deliver s' = ps_deliver s → length (ps_entries s') = length (ps_entries s) →
  (∀ id, en_prop s' id = en_prop s id) → oinv s' h.
Proof.
  intros Hv Ht Hp Hps Hg Hn Ec El Epl Epd Edl Elen Hen.
  assert (used s' ≡ₚ used s) as Hu.
  { unfold used at 1. rewrite Epl, Epd, Edl, Ec. apply (used_insert s t c); [done|]. by rewrite Hg. }
  eapply (oinv_caller s s' h t c c'); try done.
  - rewrite Hu. apply Hv.
  - rewrite Elen, Hu. apply Hv.
  - intros p' id E. rewrite E in Hg. simpl in Hg. congruence.
Qed.

Lemma en_prop_insert s s' id o :
  ps_entries s' = <[id := o]> (ps_entries s) → (id < length (ps_entries s))%nat →
  en_prop s' id = en_p o ∧ ∀ id', id' ≠ id → en_prop s' id' = en_prop s id'.
Proof.
  intros E Hl. unfold en_prop. rewrite E. split; [by rewrite list_lookup_insert_eq|].
  intros id' Hne. by rewrite list_lookup_insert_ne.
Qed.

Lemma got_unique s t t' p p' id : NoDup (used s) →
  ps_callers s !! t = Some (Got p id) → ps_callers s !! t' = Some (Got p' id) → t' = t.
Proof.
  intros Hnd Ht Ht'. destruct (decide (t' = t)) as [|Hne]; [done|]. exfalso.
  unfold used in Hnd. do 3 (apply NoDup_app in Hnd as (_ & _ & Hnd)).
  destruct (got_ids_insert _ t _ (Calling p) Ht) as (rest & E1 & E2). simpl in E1, E2.
  rewrite E1 in Hnd. apply NoDup_cons in Hnd as [Hni _]. apply Hni. rewrite <- E2.
  apply list_elem_of_omap. exists (Got p' id). split; [|done].
  apply (list_elem_of_lookup_2 _ t'). by rewrite list_lookup_insert_ne.
Qed.

Lemma used_split s id t p :
  NoDup (used s) → ps_callers s !! t = Some (Got p id) →
  (∀ tk, tk ∈ pend s → tk.1 ≠ id) ∧ ∀ t' p' id', t' ≠ t → ps_callers s !! t' = Some (Got p' id') → id' ≠ id.
Proof.
  intros Hnd Ht. split.
  - intros tk Htk <-. unfold used in Hnd. apply NoDup_app in Hnd as (_ & _ & Hnd).
    apply NoDup_app in Hnd as (_ & Hd & _). apply (Hd tk.1); [by apply list_elem_of_fmap_2|].
    apply elem_of_app. right. apply list_elem_of_omap. exists (Got p tk.1).
    split; [by eapply list_elem_of_lookup_2|done].
  - intros t' p' id' Hne Ht' ->. apply Hne. by eapply got_unique.
Qed.

(** *** Callers *)

Lemma oinv_get_new s s' h t p id :
  oinv s h → ps_callers s !! t = Some (Checked p) → take_entry s p None = Some (s', id) →
  oinv (set_caller s' t (Got p id)) h.
Proof.
  intros Hv Ht [= <- <-]. set (n := length (ps_entries s)). set (s' := set_caller _ _ _).
  assert (used s' ≡ₚ n :: used s) as Hu.
  { destruct (got_ids_insert _ t _ (Got p n) Ht) as (rest & E1 & E2). simpl in E1, E2.
    unfold used, pend, s'. cbn [set_caller set_callers ps_pool ps_batch ps_submit ps_deliver ps_callers].
    rewrite E2, E1. rewrite (perm_front _ _ _ [n] rest). by rewrite <- !app_assoc. }
  assert (∀ i, (i < n)%nat → en_prop s' i = en_prop s i) as Hen.
  { intros i Hi. unfold en_prop, s'. cbn [set_caller set_callers ps_entries]. by rewrite lookup_app_l. }
  pose proof (proj1 (Forall_forall _ _) (ov_bound _ _ Hv)) as Hb.
  apply (oinv_caller s s' h t (Checked p) (Got p n)); try done.
  - rewrite Hu. apply NoDup_cons. split; [|apply Hv]. intros Hin%Hb. unfold n in Hin. lia.
  - rewrite Hu. cbn [set_caller set_callers ps_entries s']. rewrite length_app. simpl. constructor; [unfold n; lia|].
    apply Forall_forall. intros i Hin%Hb. lia.
  - intros tk Hin. apply Hen, Hb. by apply pend_used.
  - intros t' p' i _ Hc. apply Hen, Hb. by eapply got_used.
  - intros p' i [= <- <-]. unfold en_prop, s'. cbn [set_caller set_callers ps_entries].
    rewrite lookup_app_r by (unfold n; lia). unfold n. by rewrite Nat.sub_diag.
Qed.

Lemma oinv_get_pooled s s' h t p id id' :
  oinv s h → ps_callers s !! t = Some (Checked p) → take_entry s p (Some id) = Some (s', id') →
  oinv (set_caller s' t (Got p id')) h.
Proof.
  intros Hv Ht. simpl. destruct (take_id id (ps_pool s)) as [pool|] eqn:Et; [|done].
  destruct (ps_entries s !! id) as [o|] eqn:Eo; [|done]. intros [= <- <-]. set (s' := set_caller _ _ _).
  apply take_id_perm in Et. pose proof (lookup_lt_Some _ _ _ Eo) as Hl.
  assert (used s' ≡ₚ used s) as Hu.
  { apply (used_insert s t (Checked p) (Got p id) pool Ht). simpl. by rewrite Et. }
  pose proof (ov_nodup _ _ Hv) as Hnd.
  destruct (en_prop_insert s s' id {| en_p := Some p; en_buf := en_buf o; en_wait := en_wait o |} eq_refl Hl) as [He1 He2].
  assert (∀ x, x ∈ map fst (pend s) ++ map (fun x => x.1.1) (ps_deliver s) ++ omap got_id (ps_callers s) → x ≠ id) as Hne.
  { intros x Hx ->. unfold used in Hnd. apply NoDup_app in Hnd as (_ & Hd & _). apply (Hd id); [|done].
    rewrite Et. by left. }
  apply (oinv_caller s s' h t (Checked p) (Got p id)); try done.
  - by rewrite Hu.
  - rewrite Hu. cbn [set_caller set_callers set_entry ps_entries s']. rewrite length_insert. apply Hv.
  - intros tk Hin. apply He2, Hne. apply elem_of_app. left. by apply list_elem_of_fmap_2.
  - intros t' p' i _ Hc. apply He2, Hne. rewrite !elem_of_app. do 2 right. apply list_elem_of_omap.
    exists (Got p' i). split; [by eapply list_elem_of_lookup_2|done].
  - by intros p' i [= <- <-].
Qed.

Lemma oinv_send s h t p id :
  oinv s h → ps_callers s !! t = Some (Got p id) →
  oinv (set_caller (set_queues s (ps_submit s ++ [(id, (t, p))]) (ps_batch s) (ps_deliver s)) t (Sent p id))
    (h ++ [(t, p)]).
Proof.
  intros Hv Ht. set (s' := set_caller _ _ _).
  assert (pend s' = pend s ++ [(id, (t, p))]) as Epd by (unfold pend; simpl; by rewrite app_assoc).
  assert (used s' ≡ₚ used s) as Hu.
  { destruct (got_ids_insert _ t _ (Sent p id) Ht) as (rest & E1 & E2). simpl in E1, E2.
    unfold used at 1. rewrite Epd. cbn [s' set_caller set_callers set_queues ps_pool ps_deliver ps_callers].
    unfold used. rewrite E1, E2, map_app. simpl. rewrite (Permutation_app_swap_app _ [id] rest).
    by rewrite <- !app_assoc. }
  assert (t ∉ h.*1) as Hnt.
  { intros ([t' p'] & -> & Hin)%list_elem_of_fmap. pose proof (proj1 (Forall_forall _ _) (ov_sent _ _ Hv) _ Hin) as
      (c & Hc & Hps & _). simpl in Hc, Ht. rewrite Ht in Hc. by injection Hc as <-. }
  split.
  - rewrite Epd, (ov_hist _ _ Hv), map_app, app_assoc. done.
  - rewrite Hu. apply Hv.
  - cbn [s' set_caller set_callers set_queues ps_entries]. rewrite Hu. apply Hv.
  - rewrite Epd. apply Forall_app. split; [apply Hv|]. constructor; [|done]. by apply (ov_got _ _ Hv t).
  - intros t' p' i. cbn [s' set_caller set_callers set_queues ps_callers].
    intros [(_ & [=] & _)|[_ Hc]]%list_lookup_insert_Some. by apply (ov_got _ _ Hv t').
  - cbn [s' set_caller set_callers set_queues ps_callers]. erewrite props_insert by done. apply Hv.
  - apply Forall_app. split; [by apply (sent_insert s s' h t (Got p id) (Sent p id))|]. constructor; [|done]. exists (Sent p id).
    cbn [s' set_caller set_callers set_queues ps_callers fst snd]. rewrite list_lookup_insert_eq by (by eapply lookup_lt_Some).
    done.
  - rewrite fmap_app. apply NoDup_app. split_and!; [apply Hv| |apply NoDup_singleton].
    intros x Hx ->%list_elem_of_singleton. done.
Qed.

(** The entry keeps its proposal when its channel changes. *)
Lemma en_prop_channel s s' id o buf wait :
  ps_entries s !! id = Some o →
  ps_entries s' = <[id := {| en_p := en_p o; en_buf := buf; en_wait := wait |}]> (ps_entries s) →
  ∀ id', en_prop s' id' = en_prop s id'.
Proof.
  intros Eo E id'. destruct (en_prop_insert s s' id _ E (lookup_lt_Some _ _ _ Eo)) as [H1 H2].
  destruct (decide (id' = id)) as [->|Hne]; [|by apply H2]. rewrite H1. unfold en_prop. by rewrite Eo.
Qed.

Lemma oinv_recv s s' h t :
  oinv s h → astep clock_Observe s (CallerRecv t) = Some s' → oinv s' h.
Proof.
  intros Hv. simpl. destruct (ps_callers s !! t) as [[| | |p id| |]|] eqn:Ht; try done.
  destruct (ps_entries s !! id) as [o|] eqn:Eo; [|done].
  destruct (en_buf o) as [r|]; intros [= <-].
  - eapply (oinv_caller_same s _ h t (Sent p id) (Returned p (Some r))); try done;
      [cbn; by rewrite length_insert|by eapply en_prop_channel].
  - eapply (oinv_caller_same s _ h t (Sent p id) (Parked p id)); try done;
      [cbn; by rewrite length_insert|by eapply en_prop_channel].
Qed.

Lemma oinv_quit s s' h t :
  oinv s h → astep clock_Observe s (CallerQuit t) = Some s' → oinv s' h.
Proof.
  intros Hv. simpl. destruct (ps_done s); [|done].
  assert (∀ c p id, ps_callers s !! t = Some c → caller_prop c = p → got_id c = None → quit s t p id = Some s' → oinv s' h) as Hq.
  { intros c p id Ht <- Hn. unfold quit. destruct (ps_entries s !! id) as [o|] eqn:Eo; [|done]. intros [= <-].
    eapply (oinv_caller_same s _ h t c (Returned (caller_prop c) None)); try done;
      [cbn; by rewrite length_insert|by eapply en_prop_channel]. }
  destruct (ps_callers s !! t) as [[| |p id|p id|p id|]|] eqn:Ht; try done; [|by eapply Hq..].
  destruct (ps_entries s !! id) as [o|] eqn:Eo; [|done]. intros [= <-]. set (s' := set_caller _ _ _).
  pose proof (lookup_lt_Some _ _ _ Eo) as Hl. pose proof (ov_nodup _ _ Hv) as Hnd.
  destruct (used_split s id t p Hnd Ht) as [Hn1 Hn2].
  destruct (en_prop_insert s s' id {| en_p := None; en_buf := en_buf o; en_wait := en_wait o |} eq_refl Hl) as [_ He].
  assert (used s' ≡ₚ used s) as Hu.
  { apply (used_insert s t (Got p id) (Returned p None) (ps_pool s ++ [id]) Ht). simpl. by rewrite <- Permutation_cons_append. }
  apply (oinv_caller s s' h t (Got p id) (Returned p None)); try done.
  - by rewrite Hu.
  - rewrite Hu. cbn [s' set_caller set_callers set_pool set_entry ps_entries]. rewrite length_insert. apply Hv.
  - intros tk Hin. apply He. by apply Hn1.
  - intros t' p' i Hne Hc. apply He. by eapply Hn2.
Qed.

(** *** The applier *)

(** Nothing but the queues moved. *)
Lemma oinv_queues s s' h :
  oinv s h → ps_callers s' = ps_callers s → ps_entries s' = ps_entries s → used s' ≡ₚ used s →
  map fst (ps_log s') ++ map snd (pend s') = map fst (ps_log s) ++ map snd (pend s) →
  (∀ tk, tk ∈ pend s' → tk ∈ pend s) → oinv s' h.
Proof.
  intros Hv Ec Ee Hu Eh Hp. split.
  - rewrite Eh. apply Hv.
  - rewrite Hu. apply Hv.
  - rewrite Ee, Hu. apply Hv.
  - apply Forall_forall. intros tk Htk%Hp. unfold en_prop. rewrite Ee.
    by apply (proj1 (Forall_forall _ _) (ov_pend _ _ Hv)).
  - unfold en_prop. rewrite Ec, Ee. apply Hv.
  - rewrite Ec. apply Hv.
  - rewrite Ec. apply Hv.
  - apply Hv.
Qed.

Lemma flush_props s h b :
  oinv s h → (∀ tk, tk ∈ b → tk ∈ pend s) →
  mapM (fun tk : ticket => ps_entries s !! tk.1 ≫= en_p) b = Some (map (fun tk => tk.2.2) b).
Proof.
  intros Hv. induction b as [|tk b IH]; intros Hb; [done|]. cbn [mapM]. rewrite IH by set_solver.
  pose proof (proj1 (Forall_forall _ _) (ov_pend _ _ Hv) tk ltac:(set_solver)) as E. unfold en_prop in E.
  by rewrite E.
Qed.

(** The results of a batch, beside the entries they are for. *)
Lemma combine_tickets (b : list ticket) (rs : list ApplyResult) :
  length rs = length b →
  map (fun x => x.1.1) (combine b rs) = map fst b
  ∧ map fst (map (fun x => (x.1.2, x.2)) (combine b rs)) = map snd b
  ∧ map snd (map (fun x => (x.1.2, x.2)) (combine b rs)) = rs
  ∧ map (fun x => x.1.2) (map (fun x => (x.1.2, x.2)) (combine b rs)) = map (fun tk => tk.2.2) b.
Proof.
  revert rs. induction b as [|tk b IH]; intros [|r rs] Hl; try done. simpl in *.
  destruct (IH rs) as (-> & -> & -> & ->); [lia|]. done.
Qed.

Lemma flush_step s h s' :
  oinv s h → astep clock_Observe s ApplierFlush = Some s' →
  ∃ d rs ns, applyBatchDirect clock_Observe (ps_d s) (map (fun tk => tk.2.2) (ps_batch s)) = (d, rs, ns)
    ∧ length rs = length (ps_batch s) ∧ ps_deliver s = []
    ∧ s' = {| ps_d := d; ps_done := ps_done s; ps_entries := ps_entries s; ps_pool := ps_pool s;
              ps_submit := ps_submit s; ps_batch := []; ps_deliver := combine (ps_batch s) rs;
              ps_callers := ps_callers s;
              ps_log := ps_log s ++ map (fun x => (x.1.2, x.2)) (combine (ps_batch s) rs) |}.
Proof.
  intros Hv. unfold astep. destruct (ps_deliver s); [|done]. destruct (ps_batch s) as [|tk b] eqn:Eb; [done|].
  rewrite (flush_props s h) by (done || (intros x Hx; unfold pend; rewrite Eb; set_solver)).
  destruct (applyBatchDirect _ _ _) as [[d rs] ns] eqn:Ea. intros [= <-]. exists d, rs, ns.
  apply applyBatchDirect_length in Ea. rewrite length_map in Ea. done.
Qed.

Lemma oinv_flush s h s' : oinv s h → astep clock_Observe s ApplierFlush = Some s' → oinv s' h.
Proof.
  intros Hv Ha. destruct (flush_step s h s' Hv Ha) as (d & rs & ns & _ & Hl & Hdl & ->).
  destruct (combine_tickets (ps_batch s) rs Hl) as (E1 & E2 & _).
  apply (oinv_queues s); try done.
  - unfold used, pend. cbn [ps_pool ps_batch ps_submit ps_deliver ps_callers]. rewrite E1, Hdl. simpl.
    rewrite map_app, <- !app_assoc. by rewrite (Permutation_app_swap_app (map fst (ps_submit s))).
  - unfold pend. cbn [ps_log ps_batch ps_submit app]. rewrite map_app, E2, map_app, <- !app_assoc. done.
  - intros tk. unfold pend. cbn [ps_batch ps_submit]. set_solver.
Qed.

Lemma oinv_take s h s' : oinv s h → astep clock_Observe s ApplierRecv = Some s' → oinv s' h.
Proof.
  intros Hv. unfold astep. destruct (ps_deliver s) eqn:Ed; [|done].
  destruct (ps_submit s) as [|tk q] eqn:Eq; [done|]. case_decide; [|done]. intros [= <-].
  assert (pend (set_queues s q (ps_batch s ++ [tk]) []) = pend s) as Ep
    by (unfold pend; cbn [set_queues ps_batch ps_submit]; by rewrite Eq, <- app_assoc).
  apply (oinv_queues s); try done; [|by rewrite Ep|by rewrite Ep].
  unfold used. rewrite Ep. cbn [set_queues ps_pool ps_deliver ps_callers]. by rewrite Ed.
Qed.

Lemma oinv_deliver s h s' : oinv s h → astep clock_Observe s ApplierDeliver = Some s' → oinv s' h.
Proof.
  intros Hv. unfold astep. destruct (ps_deliver s) as [|[tk r] dl] eqn:Ed; [done|].
  destruct (ps_entries s !! tk.1) as [o|] eqn:Eo; [|done]. intros [= <-].
  pose proof (lookup_lt_Some _ _ _ Eo) as Hl. pose proof (ov_nodup _ _ Hv) as Hnd.
  assert (∀ x, x ∈ map fst (pend s) ++ omap got_id (ps_callers s) → x ≠ tk.1) as Hne.
  { intros x Hx ->. unfold used in Hnd. rewrite Ed in Hnd. apply NoDup_app in Hnd as (_ & _ & Hnd).
    rewrite (Permutation_app_swap_app (map fst (pend s))) in Hnd. simpl in Hnd.
    apply NoDup_cons in Hnd as [Hni _]. apply Hni. apply elem_of_app. by right. }
  set (s1 := set_queues s (ps_submit s) (ps_batch s) dl).
  assert (∃ o' cs, en_p o' = None ∧ omap got_id cs = omap got_id (ps_callers s)
    ∧ map caller_prop cs = map caller_prop (ps_callers s)
    ∧ (∀ t p id, cs !! t = Some (Got p id) → ps_callers s !! t = Some (Got p id))
    ∧ (∀ t c, ps_callers s !! t = Some c → past_send c → ∃ c', cs !! t = Some c' ∧ past_send c' ∧ caller_prop c' = caller_prop c)
    ∧ deliver s1 tk.1 o r = set_pool (set_callers (set_entry s1 tk.1 o') cs) (ps_pool s ++ [tk.1]))
    as (o' & cs & Ho' & Hg & Hp & Hgot & Hpast & ->).
  { unfold deliver. destruct (en_wait o) as [|t ws].
    { exists {| en_p := None; en_buf := Some r; en_wait := [] |}, (ps_callers s). split_and!; eauto. }
    exists {| en_p := None; en_buf := None; en_wait := ws |}.
    change (ps_callers (set_entry s1 tk.1 _)) with (ps_callers s).
    destruct (ps_callers s !! t) as [[| | | |p id|]|] eqn:Ht;
      try (exists (ps_callers s); split_and!; eauto; fail).
    exists (<[t := Returned p (Some r)]> (ps_callers s)). split_and!; try done.
    - clear -Ht. revert t Ht. induction (ps_callers s) as [|c l IH]; intros [|t] Ht; simplify_eq/=; [done|].
      by rewrite IH.
    - by eapply props_insert.
    - intros t' p' id' [(_ & [=] & _)|[_ Hc]]%list_lookup_insert_Some. done.
    - intros t' c Hc Hps. destruct (decide (t' = t)) as [->|Hnt].
      + exists (Returned p (Some r)). rewrite list_lookup_insert_eq by (by eapply lookup_lt_Some).
        rewrite Ht in Hc. by injection Hc as <-.
      + exists c. by rewrite list_lookup_insert_ne. }
  set (s' := set_pool _ _).
  destruct (en_prop_insert s s' tk.1 o' eq_refl Hl) as [_ He].
  assert (used s' ≡ₚ used s) as Hu.
  { unfold used. change (pend s') with (pend s). cbn [s' s1 set_pool set_callers set_entry set_queues ps_pool ps_deliver ps_callers].
    rewrite Ed, Hg. simpl. rewrite <- (Permutation_middle (map fst (pend s))), <- app_assoc. done. }
  split.
  - apply Hv.
  - by rewrite Hu.
  - rewrite Hu. cbn [s' s1 set_pool set_callers set_entry set_queues ps_entries]. rewrite length_insert. apply Hv.
  - pose proof (ov_pend _ _ Hv) as Hf. change (pend s') with (pend s). rewrite Forall_forall in Hf |- *.
    intros x Hx. rewrite He by (apply Hne, elem_of_app; left; by apply list_elem_of_fmap_2). by apply Hf.
  - intros t p id Hc%Hgot. rewrite He; [by apply (ov_got _ _ Hv t)|]. apply Hne, elem_of_app. right.
    apply list_elem_of_omap. exists (Got p id). split; [by eapply list_elem_of_lookup_2|done].
  - change (ps_callers s') with cs. rewrite Hp. apply Hv.
  - eapply Forall_impl; [apply (ov_sent _ _ Hv)|]. intros [t p] (c & Hc & Hps & Hcp).
    destruct (Hpast t c Hc Hps) as (c' & H1 & H2 & H3). exists c'. split_and!; [done|done|congruence].
  - apply Hv.
Qed.

(** *** Runs *)

Lemma oinv_step s a s' h :
  oinv s h → astep clock_Observe s a = Some s' → oinv s' (h ++ option_list (sent_by ps a)).
Proof.
  intros Hv Ha. destruct a as [t|t ch|t|t|t| | | |]; cbn [sent_by option_list]; rewrite ?app_nil_r.
  - unfold astep in Ha. destruct (ps_callers s !! t) as [[p| | | | |]|] eqn:Ht; try done. injection Ha as <-.
    destruct (d_closed _);
      [apply (oinv_caller_same s _ h t (Calling p) (Returned p None))|apply (oinv_caller_same s _ h t (Calling p) (Checked p))]; done.
  - unfold astep in Ha. destruct (ps_callers s !! t) as [[|p| | | |]|] eqn:Ht; try done.
    destruct (take_entry s p ch) as [[s1 id]|] eqn:Et; [|done]. injection Ha as <-.
    destruct ch; [by eapply oinv_get_pooled|by eapply oinv_get_new].
  - unfold astep in Ha. destruct (ps_callers s !! t) as [[| |p id| | |]|] eqn:Ht; try done.
    destruct (_ <? _); [|done]. injection Ha as <-.
    replace (ps !! t) with (Some p); [by apply oinv_send|].
    rewrite <- (ov_callers _ _ Hv), list_lookup_fmap, Ht. done.
  - by eapply oinv_recv.
  - by eapply oinv_quit.
  - by eapply oinv_take.
  - by eapply oinv_flush.
  - by eapply oinv_deliver.
  - injection Ha as <-. by apply (oinv_queues s).
Qed.

Lemma osem_same s s' :
  osem s → ps_log s' = ps_log s → d_fsm (ps_d s') = d_fsm (ps_d s) → d_index (ps_d s') = d_index (ps_d s) → osem s'.
Proof.
  intros Hs El Ef Ei H1 H2. rewrite El. intros H3 H4. destruct (Hs H1 H2 H3 H4) as (Hd & Hi & Hst).
  split_and!; [|by rewrite Ei|unfold d_store in *; by rewrite Ef].
  destruct Hd. split; unfold d_store, d_epochs in *; rewrite ?Ef, ?Ei; done.
Qed.

(** Only a flush touches the proposer and the log. *)
Lemma astep_frame s a s' :
  astep clock_Observe s a = Some s' → a ≠ ApplierFlush →
  ps_log s' = ps_log s ∧ d_fsm (ps_d s') = d_fsm (ps_d s) ∧ d_index (ps_d s') = d_index (ps_d s).
Proof.
  intros Ha Hne. destruct a as [t|t ch|t|t|t| | | |]; simpl in Ha; unfold quit, take_entry, deliver in Ha;
    repeat case_match; simplify_eq; done.
Qed.

Lemma osem_step s a s' h : oinv s h → osem s → astep clock_Observe s a = Some s' → osem s'.
Proof.
  intros Hv Hs Ha. destruct (decide (a = ApplierFlush)) as [->|Hne].
  2: { apply astep_frame in Ha as (? & ? & ?); [|done]. by eapply osem_same. }
  destruct (flush_step s h s' Hv Ha) as (d & rs & ns & Eb & Hl & _ & ->).
  destruct (combine_tickets (ps_batch s) rs Hl) as (_ & _ & E3 & E4).
  intros Hd0 Hps. cbn [ps_log ps_d]. rewrite !map_app, E3, E4, length_app, length_map, length_combine, Hl, Nat.min_id.
  intros [Hno1 Hno2]%Forall_app Hb. destruct (Hs Hd0 Hps Hno1) as (Hd & Hi & Hst); [lia|].
  assert (Forall client_proposal (map (fun tk : ticket => tk.2.2) (ps_batch s))) as Hc.
  { apply Forall_fmap, Forall_forall. intros tk Htk. simpl.
    assert (tk.2 ∈ h) as Hin by (rewrite (ov_hist _ _ Hv); unfold pend; rewrite map_app; set_solver).
    destruct (proj1 (Forall_forall _ _) (ov_sent _ _ Hv) _ Hin) as (c & Hc & _ & <-).
    rewrite Forall_lookup in Hps. apply (Hps tk.2.1). rewrite <- (ov_callers _ _ Hv), list_lookup_fmap, Hc. done. }
  destruct (applyBatchDirect_spec clock_Observe (ps_d s) _ d rs ns Hd Hc) as (Hd' & _ & Hi' & Hst' & _);
    [rewrite length_map; lia|done|done|].
  rewrite length_map in Hi'. split_and!; [done|lia|].
  rewrite Hst', Hst, Hi, accepted_app by (by rewrite !length_map). rewrite length_map.
  unfold commits. by rewrite foldl_app.
Qed.

Lemma start_oinv : oinv (start_pool d0 ps) [] ∧ osem (start_pool d0 ps).
Proof.
  assert (omap got_id (map Calling ps) = []) as Hg by (induction ps; done).
  split.
  - split; cbn [start_pool ps_log ps_callers pend ps_batch ps_submit used ps_pool ps_deliver]; try done.
    + unfold used. cbn. rewrite Hg. constructor.
    + unfold used. cbn. rewrite Hg. constructor.
    + intros t p id Hc. apply list_lookup_fmap_Some in Hc as (? & [=] & _).
    + rewrite map_map. by rewrite map_id.
    + constructor.
  - intros Hd _ _ _. cbn. split_and!; [done|lia|done].
Qed.

Lemma arun_inv acts s h s' :
  oinv s h → osem s → arun clock_Observe s acts = Some s' →
  oinv s' (h ++ omap (sent_by ps) acts) ∧ osem s'.
Proof.
  revert s h. induction acts as [|a acts IH]; intros s h Hv Hs; simpl; [intros [= <-]; by rewrite app_nil_r|].
  destruct (astep clock_Observe s a) as [s1|] eqn:Ea; [|done]. intros Hr.
  destruct (IH s1 _ (oinv_step s a s1 h Hv Ea) (osem_step s a s1 h Hv Hs Ea) Hr) as [H1 H2].
  split; [|done]. rewrite <- app_assoc in H1. by destruct (sent_by ps a).
Qed.

(** *** What the applier can always do *)

Lemma arun_app acts1 acts2 s s1 s2 :
  arun clock_Observe s acts1 = Some s1 → arun clock_Observe s1 acts2 = Some s2 →
  arun clock_Observe s (acts1 ++ acts2) = Some s2.
Proof.
  revert s. induction acts1 as [|a acts1 IH]; intros s; simpl; [by intros [= ->]|].
  destruct (astep clock_Observe s a); [|done]. apply IH.
Qed.

Lemma deliver_queues s h :
  oinv s h → (∃ x dl, ps_deliver s = x :: dl) → ∃ s',
    astep clock_Observe s ApplierDeliver = Some s' ∧ ps_deliver s' = tail (ps_deliver s)
    ∧ ps_submit s' = ps_submit s ∧ ps_batch s' = ps_batch s.
Proof.
  intros Hv ([tk r] & dl & Ed).
  assert (is_Some (ps_entries s !! tk.1)) as [o Ho].
  { apply lookup_lt_is_Some_2. apply (proj1 (Forall_forall _ _) (ov_bound _ _ Hv)).
    unfold used. rewrite Ed. set_solver. }
  unfold astep. rewrite Ed, Ho. eexists. split; [reflexivity|]. simpl. unfold deliver.
  repeat case_match; simplify_eq; done.
Qed.

Lemma deliver_all n s h :
  length (ps_deliver s) = n → oinv s h →
  ∃ acts s', Forall applier_step acts ∧ arun clock_Observe s acts = Some s' ∧ oinv s' h
    ∧ ps_deliver s' = [] ∧ ps_submit s' = ps_submit s ∧ ps_batch s' = ps_batch s.
Proof.
  revert s. induction n as [|n IH]; intros s Hn Hv.
  { apply length_zero_iff_nil in Hn. exists [], s. split_and!; done. }
  destruct (ps_deliver s) as [|x dl] eqn:Ed; [done|].
  destruct (deliver_queues s h Hv) as (s1 & Ha & Ed1 & Eq1 & Eb1); [by eauto|]. rewrite Ed in Ed1. simpl in Ed1.
  destruct (IH s1) as (acts & s' & Hap & Hr & Hv' & Ed' & Eq' & Eb').
  { rewrite Ed1. simpl in Hn. lia. }
  { by eapply oinv_deliver. }
  exists (ApplierDeliver :: acts), s'. split_and!; try congruence; [by constructor|]. cbn [arun]. by rewrite Ha.
Qed.

(** A batch is flushed and its results delivered. *)
Lemma flush_all s h :
  ps_deliver s = [] → oinv s h →
  ∃ acts s', Forall applier_step acts ∧ arun clock_Observe s acts = Some s' ∧ oinv s' h
    ∧ ps_deliver s' = [] ∧ ps_submit s' = ps_submit s ∧ ps_batch s' = [].
Proof.
  intros Ed Hv. destruct (ps_batch s) as [|tk b] eqn:Eb.
  { exists [], s. by split_and!. }
  assert (∃ s1, astep clock_Observe s ApplierFlush = Some s1) as [s1 Ha].
  { unfold astep. rewrite Ed, Eb, (flush_props s h) by (done || (intros x Hx; unfold pend; rewrite Eb; set_solver)).
    destruct (applyBatchDirect _ _ _) as [[d rs] ns]. eauto. }
  destruct (flush_step s h s1 Hv Ha) as (d & rs & ns & _ & _ & _ & E1).
  destruct (deliver_all _ s1 h eq_refl (oinv_flush s h s1 Hv Ha)) as (acts & s' & Hap & Hr & Hv' & H1 & H2 & H3).
  exists (ApplierFlush :: acts), s'. split_and!; try done; [by constructor| | |].
  - cbn [arun]. by rewrite Ha.
  - by rewrite H2, E1.
  - by rewrite H3, E1.
Qed.

Lemma work_off n s h :
  length (ps_submit s) = n → ps_deliver s = [] → ps_batch s = [] → oinv s h →
  ∃ acts s', Forall applier_step acts ∧ arun clock_Observe s acts = Some s' ∧ oinv s' h
    ∧ ps_deliver s' = [] ∧ ps_submit s' = [] ∧ ps_batch s' = [].
Proof.
  revert s. induction n as [|n IH]; intros s Hn Ed Eb Hv.
  { apply length_zero_iff_nil in Hn. exists [], s. by split_and!. }
  destruct (ps_submit s) as [|tk q] eqn:Eq; [done|].
  assert (astep clock_Observe s ApplierRecv = Some (set_queues s q (ps_batch s ++ [tk]) [])) as Ha.
  { unfold astep. rewrite Ed, Eq. rewrite decide_True by (rewrite Eb; unfold maxBatchSize; simpl; lia). done. }
  pose proof (oinv_take s h _ Hv Ha) as Hv1.
  destruct (flush_all (set_queues s q (ps_batch s ++ [tk]) []) h eq_refl Hv1) as (acts1 & s1 & Hap1 & Hr1 & Hv2 & H1 & H2 & H3).
  destruct (IH s1) as (acts2 & s' & Hap2 & Hr2 & Hrest); [rewrite H2; simpl in *; lia|done|done|done|].
  exists (ApplierRecv :: acts1 ++ acts2), s'. split; [constructor; [done|]; by apply Forall_app|].
  split; [|done]. cbn [arun]. rewrite Ha. by eapply arun_app.
Qed.

(** C10. First in, first out, through the pooled entries: in every run of callers
    and applier from an empty pool, whatever entries the pool hands out and
    whenever a shutdown comes, the proposals applied so far, followed by those in
    the batch and in the submit channel, are the proposals sent, in the order of
    the sends, each as its own caller submitted it, and no caller's twice. If the
    start state is good, all are client proposals, no result so far is an error
    of the engine and the 64-bit index has not overflowed, the store is the
    serial execution of the proposals whose result is a success. (To whom a
    result goes is another matter: see EntryPool.v.) *)
Theorem pool_fifo acts s :
  arun clock_Observe (start_pool d0 ps) acts = Some s →
  map fst (ps_log s) ++ map snd (ps_batch s) ++ map snd (ps_submit s) = omap (sent_by ps) acts
  ∧ NoDup (omap (sent_by ps) acts).*1
  ∧ (dinv d0 → Forall client_proposal ps → no_engine_error (map snd (ps_log s)) →
     d_index d0 + Z.of_nat (length (ps_log s)) < 2 ^ 64 →
     dinv (ps_d s) ∧ d_store (ps_d s)
       = commits (d_store d0) (accepted (d_index d0) (map (fun x => x.1.2) (ps_log s)) (map snd (ps_log s)))).
Proof.
  intros Hr. destruct start_oinv as [Hv Hs]. destruct (arun_inv acts _ _ s Hv Hs Hr) as [Hv' Hs']. simpl in Hv'.
  split_and!.
  - rewrite (ov_hist _ _ Hv'). unfold pend. by rewrite map_app.
  - apply Hv'.
  - intros H1 H2 H3 H4. by destruct (Hs' H1 H2 H3 H4) as (? & _ & ?).
Qed.

(** C11. No proposal stays in the queues: from every state reachable by callers
    and applier before a shutdown, steps of the applier alone lead to a state in
    which every proposal sent has been applied and its result has been sent on
    the channel of the entry it travelled in; in particular the applier never
    finds an entry without a proposal. *)
Theorem pool_works_off acts s :
  arun clock_Observe (start_pool d0 ps) acts = Some s → ps_done s = false →
  ∃ acts' s', Forall applier_step acts' ∧ arun clock_Observe s acts' = Some s'
    ∧ map fst (ps_log s') = omap (sent_by ps) acts
    ∧ ps_submit s' = [] ∧ ps_batch s' = [] ∧ ps_deliver s' = [].
Proof.
  intros Hr _. destruct start_oinv as [Hv Hs]. destruct (arun_inv acts _ _ s Hv Hs Hr) as [Hv0 _]. simpl in Hv0.
  destruct (deliver_all _ s _ eq_refl Hv0) as (a1 & s1 & Ha1 & Hr1 & Hv1 & E1 & _).
  destruct (flush_all s1 _ E1 Hv1) as (a2 & s2 & Ha2 & Hr2 & Hv2 & E2 & _ & Eb2).
  destruct (work_off _ s2 _ eq_refl E2 Eb2 Hv2) as (a3 & s3 & Ha3 & Hr3 & Hv3 & E3 & Eq3 & Eb3).
  exists (a1 ++ a2 ++ a3), s3. split; [rewrite !Forall_app; done|].
  split; [eapply arun_app; [done|]; by eapply arun_app|]. split_and!; try done.
  rewrite (ov_hist _ _ Hv3). unfold pend. rewrite Eb3, Eq3. by rewrite app_nil_r.
Qed.
End order.

(** ** Witnesses *)

(** The run in which the results are swapped: the order is kept. *)
Lemma pool_fifo_witness :
  ∃ s, swapped = Some s
    ∧ map fst (ps_log s) = [(0%nat, rmw_a); (1%nat, prop [rd k_a 0] [set_a 8])]
    ∧ d_store (ps_d s) = commits ∅ [(1, rmw_a)].
Proof.
  assert ((fun s => (map fst (ps_log s), map snd (ps_log s))) <$> swapped
          = Some ([(0%nat, rmw_a); (1%nat, prop [rd k_a 0] [set_a 8])], [res_ok; res_conflict])) as E
    by (vm_compute; reflexivity).
  destruct swapped as [s|] eqn:Es; [|discriminate E]. injection E as E1 E2.
  destruct (pool_fifo no_clock fresh [rmw_a; prop [rd k_a 0] [set_a 8]] overtake s Es) as (_ & _ & Hs).
  exists s. split; [reflexivity|]. split; [exact E1|].
  destruct Hs as [_ Hs].
  - apply fresh_dinv.
  - apply (bool_decide_unpack _). vm_compute. exact I.
  - rewrite E2. repeat constructor.
  - rewrite <- (length_map snd (ps_log s)), E2. vm_compute. reflexivity.
  - rewrite Hs, E2, d_store_fresh.
    change (map (fun x : nat * Proposal * ApplyResult => x.1.2) (ps_log s)) with (map (fun x => x.1.2) (ps_log s)).
    rewrite <- (map_map fst snd), E1. reflexivity.
Defined.

(** Two proposals are in the channel. *)
Definition two_sent : list action :=
  [CallerCheck 0; CallerGet 0 None; CallerCheck 1; CallerGet 1 None; CallerSend 1; CallerSend 0].

Lemma pool_works_off_witness :
  ∃ s acts' s', arun no_clock (start_pool fresh [rmw_a; rmw_a]) two_sent = Some s
    ∧ arun no_clock s acts' = Some s' ∧ map fst (ps_log s') = [(1%nat, rmw_a); (0%nat, rmw_a)].
Proof.
  assert (ps_done <$> arun no_clock (start_pool fresh [rmw_a; rmw_a]) two_sent = Some false) as E
    by (vm_compute; reflexivity).
  destruct (arun no_clock (start_pool fresh [rmw_a; rmw_a]) two_sent) as [s|] eqn:Es; [|discriminate E].
  injection E as E.
  destruct (pool_works_off no_clock fresh [rmw_a; rmw_a] two_sent s Es E) as (acts' & s' & _ & Hr & Hl & _).
  exists s, acts', s'. split; [reflexivity|]. split; [exact Hr|]. rewrite Hl. reflexivity.
Defined.
