(* ===== verification/Snapshot.v ===== *)
(** * Raft snapshots (src/conductor/fsm.go, src/conductor/snapshot.go)

    A snapshot is a checkpoint directory archived with tar; Restore empties the
    data directory, unpacks the archive into it, opens the engine on it and
    rebuilds the epoch map. The file system is a map from absolute paths, given
    by their components, to contents; an archive is the list of what the tar
    reader returns. *)

From S2P Require Import Prelude Types Wire EngineSpec Shard BTree Memory Dump Checkpoint Fsm.
From S2P Require Import Occ Direct Reopen Raft Batching Loop Scenarios.

(** ** Paths *)

Definition slash : byte := x2f.

Fixpoint split_path (cur p : bytes) : list bytes :=
  match p with
  | [] => [cur]
  | c :: p' => if decide (c = slash) then cur :: split_path [] p' else split_path (cur ++ [c]) p'
  end.
Definition components (p : bytes) : list bytes := split_path [] p.

(** [filepath.Clean] of an absolute path, by components: empty ones and [.] are
    dropped, [..] drops the component before it, at the root nothing. *)
Definition clean_step (stack : list bytes) (c : bytes) : list bytes :=
  if decide (c = [] ∨ c = bs ".") then stack
  else if decide (c = bs "..") then removelast stack
  else stack ++ [c].
Definition Clean (p : bytes) : list bytes := foldl clean_step [] (components p).

(** The path string of cleaned components, and [filepath.Join] with an absolute
    directory. *)
Definition path_string (l : list bytes) : bytes :=
  match l with [] => [slash] | _ => concat (map (cons slash) l) end.
Definition Join (dir rel : bytes) : list bytes := Clean (dir ++ slash :: rel).

(** [filepath.Join(dir, filepath.Clean("/"+hdr.Name))] *)
Definition target (dir name : bytes) : list bytes := Join dir (path_string (Clean (slash :: name))).

(** ** Archives *)

Abbreviation filesystem :=
  (@gmap (list (list Init.Byte.byte)) (@list_eq_dec _ (@list_eq_dec Init.Byte.byte byte_eq_dec))
     (@list_countable _ _ (@list_countable Init.Byte.byte byte_eq_dec byte_countable)) (list Init.Byte.byte)).

(** What [tr.Next()] and the copy after it yield. *)
Inductive tarItem :=
  | TarFile (name body : bytes)
  | TarDir (name : bytes)
  | TarCorrupt.

(** A relative path: components joined with slashes. *)
Definition rel_string (l : list bytes) : bytes := drop 1 (path_string l).

(** tarDir: the files of a directory in the order [filepath.Walk] visits them. *)
Definition tarDir (files : list (list bytes * bytes)) : list tarItem :=
  map (fun f => TarFile (rel_string f.1) f.2) files.

Inductive restoreErr :=
  | UntarErr | UntarIO (path : list bytes) | RestoreOpenEngine (e : DumpErr) | RestoreOpen (e : OpenErr).

(** What the file system does with one entry of an archive. *)
Inductive ioResult := IoOk | IoCreateErr | IoCopyErr (written : nat).

Section restore.
Context (io : list bytes → ioResult).

(** untarDir: a directory entry only creates the directory, a copy that fails
    leaves what was written. *)
Fixpoint untarDir (dir : bytes) (items : list tarItem) (fs : filesystem) : filesystem * option restoreErr :=
  match items with
  | [] => (fs, None)
  | TarCorrupt :: _ => (fs, Some UntarErr)
  | TarDir name :: items' =>
      let t := target dir name in
      match io t with IoOk => untarDir dir items' fs | _ => (fs, Some (UntarIO t)) end
  | TarFile name body :: items' =>
      let t := target dir name in
      match io t with
      | IoOk => untarDir dir items' (<[t := body]> fs)
      | IoCreateErr => (fs, Some (UntarIO t))
      | IoCopyErr n => (<[t := take n body]> fs, Some (UntarIO t))
      end
  end.

(** [os.RemoveAll(dir)] *)
Definition removeAll (dir : list bytes) (fs : filesystem) : filesystem :=
  filter (fun p => ¬ dir `prefix_of` p.1) fs.

Context {T : Type} `{BTreeG T} {Clock : Type}.
Context (map_order : store → list (bytes * bytes)).

(** dpxFSMSnapshot: the files of the checkpoint directory. *)
Record dpxFSMSnapshot := { snap_files : list (list bytes * bytes) }.

(** (f *dpxFSM) Snapshot over the in-memory engine, whose checkpoint is one file. *)
Definition Snapshot (f : dpxFSM (Engine T) Clock) : option dpxFSMSnapshot :=
  b ← CreateCheckpoint map_order (f_engine f); Some {| snap_files := [([bs "dump"], b)] |}.

(** (s *dpxFSMSnapshot) Persist: what the sink receives. *)
Definition Persist (s : dpxFSMSnapshot) : list tarItem := tarDir (snap_files s).

(** (f *dpxFSM) Restore over the in-memory engine, whose Close does nothing;
    [dir] is its data directory. *)
Definition Restore (dir : bytes) (f : dpxFSM (Engine T) Clock) (items : list tarItem) (fs : filesystem) :
    result restoreErr (dpxFSM (Engine T) Clock) * filesystem :=
  let fs := removeAll (Clean dir) fs in
  match untarDir dir items fs with
  | (fs, Some err) => (Err err, fs)
  | (fs, None) =>
      (match Open map_order (f_engine f) (fs !! (Join dir (bs "dump"))) with
       | Err e => Err (RestoreOpenEngine e)
       | Panic => Panic
       | Ok e =>
           match open (fun _ => false) (set_engine f e) with
           | Ok f => Ok f
           | Err e => Err (RestoreOpen e)
           | Panic => Panic
           end
       end, fs)
  end.
End restore.

(** ** Paths stay inside *)

Definition plain_component (c : bytes) : Prop := c ≠ [] ∧ c ≠ bs "." ∧ c ≠ bs ".." ∧ slash ∉ c.

Lemma split_path_app cur a b : split_path cur (a ++ slash :: b) = split_path cur a ++ components b.
Proof.
  revert cur. induction a as [|c a IH]; intros cur; simpl.
  - done.
  - case_decide; simpl; by rewrite IH.
Qed.

Lemma split_path_plain cur c : slash ∉ c → split_path cur c = [cur ++ c].
Proof.
  revert cur. induction c as [|x c IH]; intros cur Hc; simpl; [by rewrite app_nil_r|].
  apply not_elem_of_cons in Hc as [Hx Hc]. rewrite decide_False by done. rewrite IH by done. by rewrite <- app_assoc.
Qed.

Lemma components_no_slash cur p c : slash ∉ cur → c ∈ split_path cur p → slash ∉ c.
Proof.
  revert cur. induction p as [|x p IH]; intros cur Hcur; simpl; [by intros ->%list_elem_of_singleton|].
  case_decide as E.
  - intros [->|Hin]%elem_of_cons; [done|]. apply (IH []); [by apply not_elem_of_nil|done].
  - apply IH. rewrite elem_of_app, list_elem_of_singleton. naive_solver.
Qed.

Lemma clean_plain stack cs :
  Forall plain_component stack → (∀ c, c ∈ cs → slash ∉ c) → Forall plain_component (foldl clean_step stack cs).
Proof.
  revert stack. induction cs as [|c cs IH]; intros stack Hs Hc; simpl; [done|].
  apply IH; [|intros; apply Hc; by right]. unfold clean_step. case_decide; [done|]. case_decide.
  - destruct (stack) as [|x l _] using rev_ind; [done|]. rewrite removelast_last. by apply Forall_app in Hs as [? _].
  - apply Forall_app. split; [done|]. constructor; [|done]. split_and!; try tauto. apply Hc. by left.
Qed.

Lemma Clean_plain p : Forall plain_component (Clean p).
Proof.
  apply clean_plain; [done|]. intros c. apply components_no_slash. by apply not_elem_of_nil.
Qed.

Lemma clean_append stack l : Forall plain_component l → foldl clean_step stack l = stack ++ l.
Proof.
  intros Hl. revert stack. induction Hl as [|c l (H1 & H2 & H3 & _) _ IH]; intros stack; simpl; [by rewrite app_nil_r|].
  rewrite IH. unfold clean_step. rewrite !decide_False by tauto. by rewrite <- app_assoc.
Qed.

Lemma components_path_string l : Forall plain_component l → l ≠ [] → components (path_string l) = [] :: l.
Proof.
  intros Hl Hne. destruct l as [|c l]; [done|]. clear Hne. unfold path_string.
  assert (∀ c l, Forall plain_component (c :: l) → components (c ++ concat (map (cons slash) l)) = c :: l) as Hc.
  { clear. intros c l. revert c. induction l as [|d l IH]; intros c Hl; simpl.
    - rewrite app_nil_r. apply Forall_cons in Hl as [(_ & _ & _ & Hs) _]. by apply (split_path_plain [] c).
    - apply Forall_cons in Hl as [(_ & _ & _ & Hs) Hl]. unfold components. rewrite split_path_app.
      rewrite (split_path_plain [] c) by done. simpl. f_equal. by apply IH. }
  simpl. unfold components. simpl. f_equal. by apply Hc.
Qed.

(** Joining cleaned components to a directory appends them to it. *)
Lemma Join_append dir l : Forall plain_component l → Join dir (path_string l) = Clean dir ++ l.
Proof.
  intros Hl. unfold Join, Clean, components. rewrite split_path_app, foldl_app. destruct l as [|c l]; [by rewrite app_nil_r|].
  change (split_path [] dir) with (components dir). rewrite components_path_string by done.
  change ([] :: c :: l) with ([[]] ++ (c :: l)). rewrite foldl_app. by apply clean_append.
Qed.

Lemma target_append dir name : target dir name = Clean dir ++ Clean (slash :: name).
Proof. apply Join_append, Clean_plain. Qed.

(** The name tarDir gives a file leads back to it. *)
Lemma Clean_rel_string l : Forall plain_component l → l ≠ [] → Clean (slash :: rel_string l) = l.
Proof.
  intros Hl Hne. assert (slash :: rel_string l = path_string l) as -> by by destruct l.
  unfold Clean. rewrite components_path_string by done.
  change ([] :: l) with ([[]] ++ l). rewrite foldl_app. by apply clean_append.
Qed.

(** ** Properties *)

Lemma untarDir_inside io dir items fs fs' err path :
  untarDir io dir items fs = (fs', err) → fs' !! path = fs !! path ∨ Clean dir `prefix_of` path.
Proof.
  assert (∀ name body (fs : filesystem), <[target dir name := body]> fs !! path = fs !! path
    ∨ Clean dir `prefix_of` path) as Hins.
  { intros name body fs0. rewrite lookup_insert. case_decide as Ep; [|by left]. right. subst path.
    rewrite target_append. by apply prefix_app_r. }
  revert fs. induction items as [|[name body|name|] items IH]; intros fs; simpl.
  - intros [= <- <-]. by left.
  - destruct (io _) as [| |n].
    + intros [E|?]%IH; [|by right]. rewrite E. apply Hins.
    + intros [= <- <-]. by left.
    + intros [= <- <-]. apply Hins.
  - destruct (io _); [apply IH| |]; intros [= <- <-]; by left.
  - intros [= <- <-]. by left.
Qed.

(** C38. Unpacking a snapshot never leaves the data directory: whatever names the
    archive holds, absolute or with [..], untarDir creates and changes only files
    below the directory it is given; everything else stays as it was. *)
Theorem untar_stays_inside (io : list bytes → ioResult) (dir : bytes) (items : list tarItem) (fs fs' : filesystem)
    (err : option restoreErr) (path : list bytes) :
  untarDir io dir items fs = (fs', err) → fs' !! path ≠ fs !! path → Clean dir `prefix_of` path.
Proof. intros [E|?]%(untarDir_inside _ _ _ _ _ _ path) Hne; [|done]. by destruct Hne. Qed.

Lemma untar_stays_inside_witness :
  Clean (bs "/data") `prefix_of` target (bs "/data") (bs "../../etc/passwd").
Proof.
  apply (untar_stays_inside (fun _ => IoOk) (bs "/data") [TarFile (bs "../../etc/passwd") (bs "x")] ∅
    {[ target (bs "/data") (bs "../../etc/passwd") := bs "x" ]} None).
  - reflexivity.
  - rewrite lookup_singleton, lookup_empty. vm_compute. discriminate.
Defined.

(** Unpacking restores the files of an archived directory. *)
Lemma untar_tar dir files fs :
  Forall (fun f => Forall plain_component f.1 ∧ f.1 ≠ []) files →
  untarDir (fun _ => IoOk) dir (tarDir files) fs
  = (foldl (fun fs f => <[Clean dir ++ f.1 := f.2]> fs) fs files, None).
Proof.
  intros Hf. revert fs. induction Hf as [|[p b] files [Hp Hne] _ IH]; intros fs; simpl; [done|].
  rewrite target_append, Clean_rel_string by done. apply IH.
Qed.

Section properties.
Context {T : Type} `{BTreeLaws T} {Clock : Type}.
Context (map_order : store → list (bytes * bytes)) (map_order_perm : ∀ m, map_order m ≡ₚ map_to_list m).

(** A Raft snapshot restores the state machine: the archive of one node's
    in-memory engine, restored on another whose engine has a single tree or is
    fresh, gives the same store and applied index there, and an epoch map rebuilt
    from the version records; what the other node held before is gone. *)
Theorem raft_snapshot_restore (f1 f2 : dpxFSM (Engine T) Clock) (dir : bytes) (fs : filesystem) :
  inv (f_engine f1) → sharded (f_engine f2) = false ∨ f_engine f2 = NewSharded →
  Forall wf_entry (map_to_list (abs (f_engine f1))) → Z.of_nat (size (abs (f_engine f1))) < 2 ^ 64 →
  is_u64 (CurrentSequence (f_engine f1)) → versions_wf (abs (f_engine f1)) →
  ∃ s f2' fs', Snapshot map_order f1 = Some s
    ∧ Restore (fun _ => IoOk) map_order dir f2 (Persist s) fs = (Ok f2', fs')
    ∧ abs (f_engine f2') = abs (f_engine f1)
    ∧ f_applied f2' = CurrentSequence (f_engine f1)
    ∧ ∀ k, f_keyEpoch f2' !! k = scanned_version (abs (f_engine f1)) k.
Proof.
  intros Hi He2 Hwf Hsz Hseq Hver.
  destruct (dump_roundtrip (abs (f_engine f1)) (map_order (abs (f_engine f1))) (CurrentSequence (f_engine f1)))
    as (buf & Hbuf & Hdec); [apply map_order_perm|by rewrite map_order_perm|done
      |by rewrite map_order_perm, length_map_to_list|].
  destruct (Open_spec map_order map_order_perm (f_engine f2) buf _ _ He2 Hdec) as (e' & Ho & Hi' & Ha & Hs);
    [apply Hseq|].
  assert (Forall plain_component [bs "dump"]) as Hp.
  { constructor; [|constructor]. split_and!; [done..|]. by apply (bool_decide_unpack _). }
  destruct (open_spec (set_engine f2 e')) as (ke & Hopen & Hke); [exact Hi'|cbn; by rewrite Ha|done|].
  exists {| snap_files := [([bs "dump"], buf)] |}. do 2 eexists. split_and!.
  - unfold Snapshot, CreateCheckpoint. rewrite checkpoint_data_abs by done. by rewrite Hbuf.
  - unfold Restore, Persist. cbn [snap_files]. rewrite untar_tar by (constructor; [done|constructor]). cbn [foldl fst snd].
    change (bs "dump") with (rel_string [bs "dump"]) at 2.
    rewrite lookup_insert, decide_True.
    + rewrite Ho, Hopen. reflexivity.
    + symmetry. unfold Join, Clean, components. rewrite split_path_app, foldl_app. reflexivity.
  - exact Ha.
  - cbn. exact Hs.
  - intros k. cbn. rewrite Hke. cbn. by rewrite Ha.
Qed.
End properties.

(** ** Concrete snapshots *)

(** A node of one commit, and one of two keys of its own. *)
Definition leader : MemFSM :=
  newFSM (run_batches New [commit_ops 5 [set_a 7]]) SyncNone false (Some 0) tt.
Definition follower (eng : MemEngine) : MemFSM :=
  newFSM (run_batches eng [[BSet k_a (bs "stale"); BSet k_b (bs "gone")]]) SyncNone false (Some 0) tt.

Lemma leader_abs : inv (f_engine leader) ∧ abs (f_engine leader) = commit ∅ (5, prop [] [set_a 7]).
Proof.
  destruct (run_batches_abs (T := gmap bytes bytes) New [commit_ops 5 [set_a 7]] inv_New) as [Hi Ha].
  split; [exact Hi|]. etransitivity; [exact Ha|]. by rewrite abs_New.
Qed.

Lemma raft_snapshot_restore_witness :
  ∃ s f2' fs', Snapshot map_to_list leader = Some s
    ∧ Restore (fun _ => IoOk) map_to_list (bs "/data") (follower New) (Persist s) ∅ = (Ok f2', fs')
    ∧ abs (f_engine f2') = commit ∅ (5, prop [] [set_a 7]).
Proof.
  destruct leader_abs as [Hi Ha].
  destruct (raft_snapshot_restore (T := gmap bytes bytes) map_to_list (fun m => ltac:(done)) leader (follower New)
    (bs "/data") ∅) as (s & f2 & fs & H1 & H2 & H3 & _).
  - exact Hi.
  - by left.
  - apply (bool_decide_unpack (Forall wf_entry _)). vm_compute. exact I.
  - vm_compute. done.
  - vm_compute. split; done.
  - rewrite Ha. apply versions_wf_commit; [|apply versions_wf_empty].
    apply (bool_decide_unpack _). vm_compute. exact I.
  - exists s, f2, fs. split_and!; [exact H1|exact H2|by rewrite H3].
Defined.

(** The sharded engine loads the dump into the shards it has: keys the snapshot
    does not hold survive Restore. *)
Theorem restore_keeps_sharded_keys :
  match Snapshot map_to_list leader with
  | Some s =>
      match Restore (fun _ => IoOk) map_to_list (bs "/data") (follower NewSharded) (Persist s) ∅ with
      | (Ok f, _) => Get (f_engine f) k_a = Some (encodeInt64 7) ∧ Get (f_engine f) k_b = Some (bs "gone")
      | _ => False
      end
  | None => False
  end.
Proof. vm_compute. split; reflexivity. Qed.

(** A name that climbs out of the directory is unpacked below it. *)
Example target_climbs : target (bs "/var/data") (bs "../../etc/./passwd") = map bs ["var"; "data"; "etc"; "passwd"]%string.
Proof. reflexivity. Qed.
