(* ===== verification/SnapshotEngines.v ===== *)
(** * Raft snapshots over any engine

    Snapshot, Persist, Release and Restore of src/conductor/fsm.go, with the
    checkpoint directory on the file system and the engine behind an interface:
    its CreateCheckpoint, Close and Open. The in-memory engine restores a
    snapshot, in sharded mode over the keys it already has; Badger, whose Open
    does not read the dump its CreateCheckpoint writes, comes back empty. *)

From S2P Require Import Prelude Types Wire EngineSpec Shard BTree Materialise Dump Badger EngineLife.
From S2P Require Import Memory Checkpoint Fsm Occ Direct Reopen Raft Batching Loop Scenarios Snapshot.

(** ** The interface *)

Abbreviation file := (list bytes * bytes)%type.

(** CreateCheckpoint gives the files it writes below its directory, [None] an
    error. Close and Open work on the file system; Open keeps the engine's
    settings. *)
Class CheckpointEngine (Eng : Type) := {
  ce_CreateCheckpoint : Eng → option (list file);
  ce_Close : Eng → filesystem → filesystem * option engErr;
  ce_Open : Eng → filesystem → bytes → filesystem * result engErr Eng;
}.

(** ** Files *)

Definition write_files (d : list bytes) (files : list file) (fs : filesystem) : filesystem :=
  foldl (fun fs f => <[d ++ f.1 := f.2]> fs) fs files.

(** What is stored below a directory. *)
Definition below (d : list bytes) (fs : filesystem) : filesystem := filter (fun p => d `prefix_of` p.1) fs.

Lemma write_files_other d files fs p : ¬ d `prefix_of` p → write_files d files fs !! p = fs !! p.
Proof.
  intros Hp. unfold write_files. revert fs. induction files as [|f files IH]; intros fs; [done|]. simpl.
  rewrite IH, lookup_insert_ne; [done|]. intros <-. apply Hp. by apply prefix_app_r.
Qed.

Lemma write_files_below d files fs rel : NoDup files.*1 →
  write_files d files fs !! (d ++ rel) = match (list_to_map files : filesystem) !! rel with
                                         | Some b => Some b | None => fs !! (d ++ rel) end.
Proof.
  unfold write_files. revert fs. induction files as [|[p b] files IH]; intros fs; [done|]. simpl.
  intros [Hni Hnd]%NoDup_cons. rewrite IH, lookup_insert by done.
  destruct (decide (p = rel)) as [->|Hne].
  - rewrite lookup_insert, (not_elem_of_list_to_map_1 files rel Hni), !decide_True by done. done.
  - rewrite lookup_insert_ne, decide_False by (done || by intros ?%(inj (app d))). done.
Qed.

Lemma removeAll_below d fs p : d `prefix_of` p → removeAll d fs !! p = None.
Proof. intros Hp. apply map_lookup_filter_None. right. intros b _. simpl. by intros ?. Qed.

Lemma removeAll_other d fs p : ¬ d `prefix_of` p → removeAll d fs !! p = fs !! p.
Proof.
  intros Hp. unfold removeAll. destruct (fs !! p) as [b|] eqn:E.
  - by apply map_lookup_filter_Some.
  - apply map_lookup_filter_None. by left.
Qed.

(** ** The operations *)

(** [filepath.Walk] below a directory: a list of its files. *)
Class WalkOrder := walk_order : filesystem → list file.
Class WalkOrderLaw `{WalkOrder} := walk_order_perm fs : walk_order fs ≡ₚ map_to_list fs.

Inductive restoreError := CloseEngine (e : engErr) | Untar (e : restoreErr) | OpenEngine (e : engErr) | Rebuild (e : OpenErr).

Section operations.
Context {Eng Snap Bat : Type} `{StorageEngine Eng Snap Bat} `{!CheckpointEngine Eng} `{WalkOrder}.
Context {Clock : Type} (io : list bytes → ioResult).
Implicit Types f : dpxFSM Eng Clock.

(** (f *dpxFSM) Snapshot: the checkpoint is written below the data directory, in
    a directory named after the time. *)
Definition snapshot_dir (dir : bytes) (now : bytes) : list bytes := Clean dir ++ [bs "snap-" ++ now].

Definition fsm_Snapshot (dir now : bytes) f (fs : filesystem) : option (list bytes * filesystem) :=
  files ← ce_CreateCheckpoint (f_engine f);
  let d := snapshot_dir dir now in
  Some (d, write_files d files fs).

(** (s *dpxFSMSnapshot) Persist *)
Definition fsm_Persist (d : list bytes) (fs : filesystem) : list tarItem :=
  tarDir (map (fun p => (drop (length d) p.1, p.2)) (walk_order (below d fs))).

(** (s *dpxFSMSnapshot) Release *)
Definition fsm_Release (d : list bytes) (fs : filesystem) : filesystem := removeAll d fs.

(** (f *dpxFSM) Restore *)
Definition fsm_Restore (dir : bytes) f (items : list tarItem) (fs : filesystem) :
    result restoreError (dpxFSM Eng Clock) * filesystem :=
  match ce_Close (f_engine f) fs with
  | (fs, Some err) => (Err (CloseEngine err), fs)
  | (fs, None) =>
      match untarDir io dir items (removeAll (Clean dir) fs) with
      | (fs, Some err) => (Err (Untar err), fs)
      | (fs, None) =>
          match ce_Open (f_engine f) fs dir with
          | (fs, Panic) => (Panic, fs)
          | (fs, Err err) => (Err (OpenEngine err), fs)
          | (fs, Ok e) =>
              (match open (fun _ => false) (set_engine f e) with
               | Ok f => Ok f
               | Err err => Err (Rebuild err)
               | Panic => Panic
               end, fs)
          end
      end
  end.
End operations.

(** ** Archives *)

(** The archive of a snapshot is the files of the checkpoint, in some order. *)

Definition under (d : list bytes) (x : file) : file := (d ++ x.1, x.2).

Lemma lookup_under d (files : list file) rel :
  (list_to_map (map (under d) files) : filesystem) !! (d ++ rel) = (list_to_map files : filesystem) !! rel.
Proof.
  induction files as [|[p b] files IH]; [done|]. simpl. rewrite !lookup_insert, IH.
  destruct (decide (p = rel)) as [->|Hne]; [by rewrite !decide_True|].
  by rewrite decide_False by by intros ?%(inj (app d)).
Qed.

Lemma lookup_under_other d (files : list file) p : ¬ d `prefix_of` p →
  (list_to_map (map (under d) files) : filesystem) !! p = None.
Proof.
  intros Hp. apply not_elem_of_list_to_map_1. intros (x & -> & (y & -> & _)%list_elem_of_fmap)%list_elem_of_fmap.
  apply Hp. by apply prefix_app_r.
Qed.

Lemma below_write d files fs : NoDup files.*1 → (∀ p, d `prefix_of` p → fs !! p = None) →
  below d (write_files d files fs) = list_to_map (map (under d) files).
Proof.
  intros Hnd Hno. apply map_eq. intros p. unfold below. destruct (decide (d `prefix_of` p)) as [Hp|Hp].
  - destruct Hp as [rel ->]. rewrite lookup_under. pose proof (write_files_below d files fs rel Hnd) as Hw.
    rewrite Hno in Hw by by apply prefix_app_r.
    destruct ((list_to_map files : filesystem) !! rel) as [b|].
    + apply map_lookup_filter_Some. split; [done|]. by apply prefix_app_r.
    + apply map_lookup_filter_None. by left.
  - rewrite lookup_under_other by done. apply map_lookup_filter_None. right. by intros b _.
Qed.

Lemma Persist_files `{WalkOrderLaw} d files fs :
  NoDup files.*1 → (∀ p, d `prefix_of` p → fs !! p = None) →
  ∃ files', fsm_Persist d (write_files d files fs) = tarDir files' ∧ files' ≡ₚ files.
Proof.
  intros Hnd Hno. unfold fsm_Persist. eexists. split; [reflexivity|].
  rewrite below_write by done. rewrite (walk_order_perm _), map_to_list_to_map.
  - rewrite map_map. unfold under. simpl.
    rewrite (map_ext _ id); [by rewrite map_id|]. intros [p b]. simpl. by rewrite drop_app_length.
  - assert ((map (under d) files).*1 = app d <$> files.*1) as -> by (clear; induction files; f_equal/=; done).
    by apply (NoDup_fmap_2 (app d)).
Qed.

(** Releasing a snapshot leaves the file system as it was before. *)
Lemma Release_clean d files fs : (∀ p, d `prefix_of` p → fs !! p = None) →
  fsm_Release d (write_files d files fs) = fs.
Proof.
  intros Hno. apply map_eq. intros p. unfold fsm_Release. destruct (decide (d `prefix_of` p)) as [Hp|Hp].
  - by rewrite removeAll_below, Hno.
  - by rewrite removeAll_other, write_files_other.
Qed.

(** ** Restoring *)

Lemma untar_snapshot dir files fs :
  NoDup files.*1 → Forall (fun f => Forall plain_component f.1 ∧ f.1 ≠ []) files →
  ∃ fs', untarDir (fun _ => IoOk) dir (tarDir files) (removeAll (Clean dir) fs) = (fs', None)
    ∧ ∀ rel, fs' !! (Clean dir ++ rel) = (list_to_map files : filesystem) !! rel.
Proof.
  intros Hnd Hp. rewrite untar_tar by done. eexists. split; [reflexivity|]. intros rel.
  etransitivity; [by apply (write_files_below (Clean dir) files (removeAll (Clean dir) fs) rel)|].
  rewrite removeAll_below by by apply prefix_app_r. by destruct (_ !! rel).
Qed.

(** ** The in-memory engine *)

#[export] Instance memory_checkpoint {T} `{BTreeG T} `{DataOrder} : CheckpointEngine (Engine T) := {
  ce_CreateCheckpoint e := b ← Checkpoint.CreateCheckpoint data_order e; Some [([bs "dump"], b)];
  ce_Close _ fs := (fs, None);
  ce_Open e fs dir :=
    (fs, match Checkpoint.Open data_order e (fs !! (Clean dir ++ [bs "dump"])) with
         | Ok e => Ok e | Err _ => Err (ErrEngine "dump") | Panic => Panic end);
}.

Lemma dump_plain b : Forall (fun f : file => Forall plain_component f.1 ∧ f.1 ≠ []) [([bs "dump"], b)].
Proof.
  constructor; [|constructor]. split; [|done]. constructor; [|constructor].
  split_and!; [done..|]. by apply (bool_decide_unpack _).
Qed.

Section memory.
Context {T : Type} `{BTreeLaws T} `{DataOrderLaw}.

(** A store whose keys, values and sizes fit the dump format. *)
Definition dumpable (e : Engine T) : Prop :=
  inv e ∧ Forall wf_entry (map_to_list (abs e)) ∧ Z.of_nat (size (abs e)) < 2 ^ 64 ∧ is_u64 (CurrentSequence e).

Lemma dumpable_dump (e : Engine T) : dumpable e →
  ∃ buf, Checkpoint.CreateCheckpoint data_order e = Some buf ∧ decodeDump buf = Ok (abs e, CurrentSequence e).
Proof.
  intros (Hi & Hwf & Hsz & Hseq). unfold Checkpoint.CreateCheckpoint. rewrite checkpoint_data_abs by done.
  apply dump_roundtrip; [apply data_order_perm|by rewrite data_order_perm|done|].
  by rewrite data_order_perm, length_map_to_list.
Qed.

Lemma versions_wf_union m1 m2 : versions_wf m1 → versions_wf m2 → versions_wf (m1 ∪ m2).
Proof. intros Hv1 Hv2 k v [E|[_ E]]%lookup_union_Some_raw; [by eapply Hv1|by eapply Hv2]. Qed.

Context `{WalkOrderLaw} {Clock : Type}.
Implicit Types f : dpxFSM (Engine T) Clock.

(** What the engine of a node that restores keeps of its own. *)
Definition kept (e : Engine T) : store := if sharded e then abs e else ∅.

(** C24. A Raft snapshot of an in-memory engine, restored on a node with an
    in-memory engine, when all file operations succeed, the keys and values fit
    the length fields of the dump and the version records on both nodes are
    intact: Snapshot writes its checkpoint into a new directory, Release leaves
    no file of it behind, and Restore of the archive succeeds. A node whose
    engine has a single tree then has exactly the store of the snapshot; a node
    whose engine is sharded has it and, besides, every key of its own that the
    snapshot does not hold, so that it has the store of the snapshot only if it
    had no other key. The applied index is the snapshot's sequence, and the epoch
    map is rebuilt from the version records the node ends with. *)
Theorem memory_snapshot_restore f1 f2 (dir1 dir2 now : bytes) (fs1 fs2 : filesystem) :
  dumpable (f_engine f1) → versions_wf (abs (f_engine f1)) →
  inv (f_engine f2) → versions_wf (kept (f_engine f2)) →
  (∀ p, snapshot_dir dir1 now `prefix_of` p → fs1 !! p = None) →
  ∃ d fs1' f2' fs3, fsm_Snapshot dir1 now f1 fs1 = Some (d, fs1') ∧ fsm_Release d fs1' = fs1
    ∧ fsm_Restore (fun _ => IoOk) dir2 f2 (fsm_Persist d fs1') fs2 = (Ok f2', fs3)
    ∧ abs (f_engine f2') = abs (f_engine f1) ∪ kept (f_engine f2)
    ∧ f_applied f2' = CurrentSequence (f_engine f1)
    ∧ ∀ k, f_keyEpoch f2' !! k = scanned_version (abs (f_engine f1) ∪ kept (f_engine f2)) k.
Proof.
  intros Hs Hv Hi2 Hv2 Hno. destruct (dumpable_dump _ Hs) as (buf & Eb & Hd).
  set (files := [([bs "dump"], buf)] : list file).
  assert (NoDup files.*1) as Hnd by apply NoDup_singleton.
  destruct (Persist_files (snapshot_dir dir1 now) files fs1 Hnd Hno) as (files' & Epersist & Hperm).
  apply Permutation_singleton_r in Hperm as ->.
  destruct (untar_snapshot dir2 files fs2 Hnd (dump_plain buf)) as (fs3 & Eu & Hl).
  destruct (Open_any data_order data_order_perm (f_engine f2) buf _ _ Hi2 Hd) as (e2 & Eo & Hi & Ha & Hseq); [apply Hs|].
  destruct (open_spec (set_engine f2 e2)) as (ke & Eopen & Hke);
    [exact Hi|change (versions_wf (abs e2)); rewrite Ha; by apply versions_wf_union|done|].
  unfold fsm_Snapshot. cbn [ce_CreateCheckpoint memory_checkpoint]. rewrite Eb. cbn [mbind option_bind].
  do 4 eexists. split; [reflexivity|]. split; [by apply (Release_clean _ files)|].
  split.
  { unfold fsm_Restore. cbn [ce_Close ce_Open memory_checkpoint].
    change (write_files (snapshot_dir dir1 now) _ fs1) with (write_files (snapshot_dir dir1 now) files fs1).
    rewrite Epersist. change [([bs "dump"], buf)] with files. rewrite Eu, Hl.
    replace ((list_to_map files : filesystem) !! [bs "dump"]) with (Some buf)
      by (symmetry; apply lookup_insert_eq).
    rewrite Eo, Eopen. reflexivity. }
  split; [exact Ha|]. split; [exact Hseq|]. intros k. cbn. rewrite Hke. cbn. by rewrite Ha.
Qed.
End memory.

(** ** Badger *)

#[export] Instance badger_checkpoint {DB Txn Item} `{BadgerDB DB Txn Item} `{DiskDB filesystem DB badgerErr} `{DataOrder} :
  CheckpointEngine DB := {
  ce_CreateCheckpoint db := match Badger.CreateCheckpoint db with Ok b => Some [([bs "dump"], b)] | _ => None end;
  ce_Close db fs := let '(fs, err) := disk_Close fs db in (fs, badger_err <$> err);
  ce_Open db fs dir :=
    match BadgerLife.engine_Open fs {| BadgerLife.be_db := Some db; BadgerLife.be_dir := dir |} with
    | (fs, (_, Some err)) => (fs, Err err)
    | (fs, (e, None)) => (fs, match BadgerLife.be_db e with Some db => Ok db | None => Panic end)
    end;
}.

Section badger.
Context {DB Txn Item : Type} `{BadgerLaws DB Txn Item} `{DiskDB filesystem DB badgerErr} `{DataOrderLaw} `{WalkOrderLaw}.
Context {Clock : Type}.
(** MkdirAll of a directory creates no file; Badger starts with an empty database
    in a directory without a manifest. *)
Context (Hmkdir : ∀ fs dir fs' err, MkdirAll (DB := DB) fs dir = (fs', err) → fs' = fs).
Context (Hfresh : ∀ fs dir fs' (db : DB), fs !! (Clean dir ++ [bs "MANIFEST"]) = None →
  disk_Open fs dir = (fs', inl db) → db_abs db = ∅).
Implicit Types f : dpxFSM DB Clock.

(** The state machine of an empty database. *)
Lemma open_empty f : db_abs (f_engine f) = ∅ →
  open (fun _ => false) f = Ok (set_applied (set_keyEpoch f ∅) 0)
  ∧ ∀ k, k ≠ [] → eng_Get (f_engine f) k = inr ErrKeyNotFound.
Proof.
  intros Hdb. assert (∀ k, k ≠ [] → Badger.Get (f_engine f) k = inr ErrKeyNotFound) as Hget.
  { intros k Hk. unfold Badger.Get. by rewrite txn_value_abs, txn_new_abs, Hdb. }
  split; [|exact Hget]. unfold open. cbn [eng_RawIter badger_engine].
  unfold Badger.RawIter. rewrite collect_items_range, txn_new_abs, Hdb. simpl.
  unfold Badger.CurrentSequence. by rewrite Hget.
Qed.

Lemma fresh_open (db db' : DB) fs fs' dir : fs !! (Clean dir ++ [bs "MANIFEST"]) = None →
  ce_Open db fs dir = (fs', Ok db') → db_abs db' = ∅.
Proof.
  intros Hm. cbn [ce_Open badger_checkpoint]. unfold BadgerLife.engine_Open. cbn [BadgerLife.be_dir].
  destruct (MkdirAll fs dir) as [fs0 [er|]] eqn:Em; [done|]. apply Hmkdir in Em as ->.
  destruct (disk_Open fs dir) as [fs4 [db2|er]] eqn:Eo; [|done]. intros [= <- <-]. by apply Hfresh in Eo.
Qed.

(** C25. A Raft snapshot of the Badger engine does not restore: whatever the node
    that made it held, the node that restores it without an error ends with an
    empty store, applied index 0 and an empty epoch map, and finds no key (the
    empty key, which Badger refuses, is an error). *)
Theorem badger_restore_loses f1 f2 (dir1 dir2 now : bytes) (fs1 fs2 : filesystem) d fs1' f2' fs3 :
  (∀ p, snapshot_dir dir1 now `prefix_of` p → fs1 !! p = None) →
  fsm_Snapshot dir1 now f1 fs1 = Some (d, fs1') →
  fsm_Restore (fun _ => IoOk) dir2 f2 (fsm_Persist d fs1') fs2 = (Ok f2', fs3) →
  db_abs (f_engine f2') = ∅ ∧ f_applied f2' = 0 ∧ f_keyEpoch f2' = ∅
  ∧ ∀ k, eng_Get (f_engine f2') k = inr (if decide (k = []) then ErrEngine "Key cannot be empty" else ErrKeyNotFound).
Proof.
  intros Hno. unfold fsm_Snapshot. cbn [ce_CreateCheckpoint badger_checkpoint].
  destruct (Badger.CreateCheckpoint (f_engine f1)) as [buf| |]; [|done..]. intros [= <- <-].
  destruct (Persist_files (snapshot_dir dir1 now) [([bs "dump"], buf)] fs1) as (files' & Ep & Hperm);
    [apply NoDup_singleton|done|]. apply Permutation_singleton_r in Hperm as ->.
  match goal with |- context [fsm_Persist ?a ?b] =>
    change (fsm_Persist a b) with (fsm_Persist a (write_files a [([bs "dump"], buf)] fs1)) end. rewrite Ep.
  unfold fsm_Restore. destruct (ce_Close (f_engine f2) fs2) as [fs [er|]]; [done|].
  destruct (untar_snapshot dir2 [([bs "dump"], buf)] fs) as (fs' & -> & Hl);
    [apply NoDup_singleton|apply dump_plain|].
  destruct (ce_Open (f_engine f2) fs' dir2) as [fs4 r] eqn:Eo. destruct r as [db| |]; [|done..].
  apply fresh_open in Eo; [|by rewrite Hl].
  destruct (open_empty (set_engine f2 db) Eo) as [-> Hget]. intros [= <- <-]. split_and!; try done.
  intros k. case_decide as Ek; [subst k|by apply Hget]. apply txn_value_empty.
Qed.
End badger.

(** ** Concrete snapshots *)

#[local] Instance walk_list : WalkOrder := map_to_list.
#[local] Instance walk_list_law : WalkOrderLaw.
Proof. intros fs. reflexivity. Qed.
#[local] Instance dump_list_order : DataOrder := map_to_list.
#[local] Instance dump_list_order_law : DataOrderLaw.
Proof. intros m. reflexivity. Qed.

(** The sharded node of two keys: [a] is replaced, [b] survives. *)
Lemma memory_snapshot_restore_witness :
  ∃ d fs1' f2' fs3, fsm_Snapshot (bs "/data") (bs "7") leader ∅ = Some (d, fs1') ∧ fsm_Release d fs1' = ∅
    ∧ fsm_Restore (fun _ => IoOk) (bs "/data") (follower NewSharded) (fsm_Persist d fs1') ∅ = (Ok f2', fs3)
    ∧ abs (f_engine f2') !! k_a = Some (encodeInt64 7) ∧ abs (f_engine f2') !! k_b = Some (bs "gone").
Proof.
  destruct leader_abs as [Hi Ha].
  destruct (run_batches_abs (T := gmap bytes bytes) NewSharded [[BSet k_a (bs "stale"); BSet k_b (bs "gone")]]
    inv_NewSharded) as [Hi2 Ha2].
  assert (kept (f_engine (follower NewSharded))
          = spec_ops ∅ [BSet k_a (bs "stale"); BSet k_b (bs "gone")]) as Hk.
  { etransitivity; [exact Ha2|]. by rewrite abs_NewSharded. }
  destruct (memory_snapshot_restore (T := gmap bytes bytes) leader (follower NewSharded)
    (bs "/data") (bs "/data") (bs "7") ∅ ∅) as (d & fs1' & f2 & fs3 & H1' & H2' & H3' & H4' & _).
  - split; [exact Hi|]. split; [|split].
    + apply (bool_decide_unpack (Forall wf_entry _)). vm_compute. exact I.
    + vm_compute. done.
    + vm_compute. split; done.
  - rewrite Ha. apply versions_wf_commit; [|apply versions_wf_empty]. apply (bool_decide_unpack _). vm_compute. exact I.
  - exact Hi2.
  - rewrite Hk. intros k v. rewrite lookup_spec_ops_notin, lookup_empty; [done|].
    intros [E|[E|E%elem_of_nil]%elem_of_cons]%elem_of_cons; [discriminate E..|done].
  - intros p _. apply lookup_empty.
  - exists d, fs1', f2, fs3. split; [exact H1'|]. split; [exact H2'|]. split; [exact H3'|].
    rewrite H4', Hk, Ha. split; vm_compute; reflexivity.
Defined.

(** A Badger that ignores what it finds beside its manifest. *)
#[local] Instance fresh_badger : DiskDB filesystem mapDB badgerErr := {
  MkdirAll fs _ := (fs, None);
  disk_Open fs dir := (fs, match fs !! (Clean dir ++ [bs "MANIFEST"]) with
                           | None => inl ∅ | Some _ => inr (BadgerOther "manifest") end);
  disk_Close fs _ := (fs, None);
}.

Definition badger_node (m : mapDB) : dpxFSM mapDB unit := newFSM m SyncNone false None tt.

Lemma badger_restore_loses_witness :
  ∃ d fs1' f2' fs3, fsm_Snapshot (bs "/data") (bs "7") (badger_node sample_store) ∅ = Some (d, fs1')
    ∧ fsm_Restore (fun _ => IoOk) (bs "/data") (badger_node sample_store) (fsm_Persist d fs1') ∅ = (Ok f2', fs3)
    ∧ f_engine f2' = ∅ ∧ (sample_store : mapDB) ≠ ∅.
Proof.
  assert (match fsm_Snapshot (bs "/data") (bs "7") (badger_node sample_store) ∅ with
          | Some (d, fs1') =>
              match (fsm_Restore (fun _ => IoOk) (bs "/data") (badger_node sample_store) (fsm_Persist d fs1') ∅).1 with
              | Ok _ => true | _ => false end
          | None => false end = true) as Hok by (vm_compute; reflexivity).
  destruct (fsm_Snapshot (bs "/data") (bs "7") (badger_node sample_store) ∅) as [[d fs1']|] eqn:E1; [|discriminate Hok].
  exists d, fs1'. destruct (fsm_Restore (fun _ => IoOk) (bs "/data") (badger_node sample_store) (fsm_Persist d fs1') ∅)
    as [r fs3] eqn:E2.
  simpl in Hok. destruct r as [f2'| |]; [|discriminate Hok..]. exists f2', fs3. split; [reflexivity|]. split; [reflexivity|].
  split.
  - refine (proj1 (badger_restore_loses (Clock := unit) (Txn := mapTxn) (Item := bytes * bytes) _ _
      (badger_node sample_store) (badger_node sample_store) (bs "/data") (bs "/data") (bs "7") ∅ ∅ d fs1' f2' fs3 _ E1 E2)).
    + intros fs dir fs' err [= <- _]. reflexivity.
    + intros fs dir fs' db Hm. cbn [disk_Open fresh_badger]. rewrite Hm. intros [= _ <-]. reflexivity.
    + intros p _. apply lookup_empty.
  - intros E. apply (f_equal (fun m : mapDB => size m)) in E. vm_compute in E. discriminate E.
Defined.
