(* ===== verification/Replay.v ===== *)
(** * Replaying the log after a restart (src/conductor/fsm.go, src/conductor/node.go)

    A Raft node that restarts applies the committed entries after its last
    snapshot again. The state machine compares no log index with the applied one:
    over a durable engine, which holds their effects already, each entry is
    validated and applied as if it were new. Proposals that read a key they write
    are refused then, and nothing changes; others are applied a second time. *)

From S2P Require Import Prelude Types Wire EngineSpec Shard BTree Memory Fsm Occ Direct Reopen Raft.
From S2P Require Import Mvcc MvccSpec Sharded ShardedSpec Batching Loop Scenarios.

(** A proposal that read, not as a debit, a key it writes, at a version before
    its own. *)
Definition guarded (idx : Z) (p : Proposal) : Prop :=
  ∃ re, re ∈ ReadSet p ∧ re_Key re ∈ map we_Key (Writes p) ∧ re_IsDebit re = false
    ∧ isReserved (re_Key re) = false ∧ re_Epoch re < idx.

(** Indices of a list of commits, increasing from [i]. *)
Fixpoint increasing (i : Z) (cs : list (Z * Proposal)) : Prop :=
  match cs with
  | [] => True
  | c :: cs' => i < c.1 ∧ is_u64 c.1 ∧ client_proposal c.2 ∧ increasing c.1 cs'
  end.

Lemma increasing_weaken i j cs : j <= i → increasing i cs → increasing j cs.
Proof. destruct cs; simpl; [done|]. intros ? (? & ?). split; [lia|done]. Qed.

Lemma accepted_increasing i logs rs : logs_wf i logs → increasing i (accepted_logs logs rs).
Proof.
  revert i rs. induction logs as [|log logs IH]; intros i rs Hw; [by destruct rs|]. destruct rs as [|r rs]; [done|].
  destruct Hw as (Hi & Hu & Hp & Hw). simpl. specialize (IH _ rs Hw).
  destruct (log_proposal log) as [p|]; [|eapply increasing_weaken; [|exact IH]; lia].
  destruct (is_ok r); [|eapply increasing_weaken; [|exact IH]; lia]. simpl. auto.
Qed.

(** A version that has passed [b] stays past it under later commits. *)
Lemma commits_version_stays b i cs m k :
  isReserved k = false → b <= i → increasing i cs → b <= Epoch (ver m k) → b <= Epoch (ver (commits m cs) k).
Proof.
  intros Hk. revert i m. induction cs as [|[idx p] cs IH]; intros i m Hbi Hi Hb; [done|].
  simpl in Hi. destruct Hi as (Hlt & Hu & Hp & Hi). simpl. apply (IH idx); [lia|done|].
  destruct (decide (k ∈ map we_Key (Writes p))) as [Hin|Hn].
  - rewrite ver_commit_written by (done || by apply client_user). lia.
  - by destruct (commit_other_key m idx p k) as [_ ->]; [..|done]; [done|done|by apply client_user|].
Qed.

Lemma commits_version_written i cs m idx p k :
  isReserved k = false → increasing i cs → (idx, p) ∈ cs → k ∈ map we_Key (Writes p) →
  idx <= Epoch (ver (commits m cs) k).
Proof.
  intros Hk. revert i m. induction cs as [|[idx' p'] cs IH]; intros i m Hi Hin Hw; [by apply elem_of_nil in Hin|].
  simpl in Hi. destruct Hi as (Hlt & Hu & Hp & Hi). simpl.
  apply elem_of_cons in Hin as [[= <- <-]|Hin]; [|by eapply IH].
  eapply commits_version_stays; [done|reflexivity|exact Hi|].
  rewrite ver_commit_written by (done || by apply client_user). lia.
Qed.

(** One stale read that is not a debit is enough for a conflict. *)
Lemma detectConflict_stale ke sh rs re :
  re ∈ rs → re_Epoch re < Epoch (epoch_of ke (re_Key re)) → re_IsDebit re = false → detectConflict ke sh rs = true.
Proof.
  intros Hin Hlt Hd. induction rs as [|x rs IH]; [by apply elem_of_nil in Hin|]. simpl.
  apply elem_of_cons in Hin as [->|Hin].
  - rewrite (proj2 (Z.ltb_lt _ _) Hlt). unfold exempt. by rewrite Hd, andb_false_r.
  - rewrite (IH Hin). repeat case_match; done.
Qed.

Section replay.
Context {Eng Snap Bat : Type} `{EngineLaws Eng Snap Bat}.
Context {Clock : Type} (clock_Observe : Clock → Z → Z → Clock).
Implicit Types f : dpxFSM Eng Clock.

(** A log entry that carries a guarded proposal. *)
Definition guarded_log (log : Log) : Prop := ∃ p, log_proposal log = Some p ∧ guarded (log_Index log) p.

Lemma apply_log_stale f shadow log p :
  log_proposal log = Some p →
  (∃ re, re ∈ ReadSet p ∧ re_Epoch re < Epoch (epoch_of (f_keyEpoch f) (re_Key re)) ∧ re_IsDebit re = false) →
  ∃ f', apply_log clock_Observe f shadow log = (f', shadow, res_conflict, [])
    ∧ f_engine f' = f_engine f ∧ f_keyEpoch f' = f_keyEpoch f.
Proof.
  intros Hp (re & Hin & Hlt & Hd). unfold log_proposal in Hp. unfold apply_log.
  destruct (log_command log); [|done]. simpl. destruct (Unmarshal zero_proposal (log_Data log)); try done.
  injection Hp as ->. destruct (observe_fields clock_Observe f p) as [He Hk].
  rewrite (detectConflict_stale _ _ _ re); [|done|by rewrite Hk|done]. by eexists.
Qed.

Lemma apply_logs_stale f shadow logs :
  Forall (fun log => ∃ p, log_proposal log = Some p ∧
    ∃ re, re ∈ ReadSet p ∧ re_Epoch re < Epoch (epoch_of (f_keyEpoch f) (re_Key re)) ∧ re_IsDebit re = false) logs →
  ∃ f', apply_logs clock_Observe f shadow logs = (f', replicate (length logs) res_conflict, [])
    ∧ f_engine f' = f_engine f.
Proof.
  revert f. induction logs as [|log logs IH]; intros f Hl; [by exists f|].
  apply Forall_cons in Hl as [(p & Hp & Hre) Hl].
  destruct (apply_log_stale f shadow log p Hp Hre) as (f1 & E & He & Hk). simpl. rewrite E.
  destruct (IH f1) as (f2 & -> & He2); [by rewrite Hk|]. exists f2. split; [done|]. by rewrite He2.
Qed.

(** Entries all accepted are all among the commits. *)
Lemma accepted_log_all logs log p :
  log ∈ logs → log_proposal log = Some p →
  (log_Index log, p) ∈ accepted_logs logs (replicate (length logs) res_ok).
Proof.
  intros Hin Hp. induction logs as [|x logs IH]; [by apply elem_of_nil in Hin|]. simpl.
  apply elem_of_app. apply elem_of_cons in Hin as [<-|Hin]; [left|right; by apply IH].
  rewrite Hp. by left.
Qed.

(** C34. Replaying the log is harmless for guarded proposals, those that read, not
    as a debit, an unreserved key they write, at a version before their own. A
    batch of such entries of client proposals, with increasing 64-bit indices,
    was applied on a good state machine whose version records are intact (nine
    bytes at least) and every one accepted; the node restarts on an engine that
    holds the same store and whose raw iterator reports no error; every key with
    a version record is within reach of the scan that rebuilds the epoch map (the
    empty key is not). Then opening succeeds, applying the same entries again
    refuses every one, and the store stays as it was. *)
Theorem replay_guarded i f logs f1 ns f0 :
  finv i f → logs_wf i logs → Forall guarded_log logs → versions_wf (f_store f) →
  applyBatch clock_Observe f logs = (f1, replicate (length logs) res_ok, ns) →
  (∀ k, is_Some (f_store f1 !! versionKey k) → scanned k) →
  eng_inv (f_engine f0) → f_store f0 = f_store f1 →
  (eng_RawIter (f_engine f0) rawIterStart rawIterEnd).2 = None →
  ∃ f2 f3, open (fun _ => false) f0 = Ok f2
    ∧ applyBatch clock_Observe f2 logs = (f3, replicate (length logs) res_conflict, [])
    ∧ f_store f3 = f_store f1.
Proof.
  intros Hf Hw Hg Hv Ha Hsc Hi0 He0 Hraw.
  destruct (apply_logs_spec clock_Observe i f ∅ logs f1 _ ns Hf Hw Ha) as (j & _ & Hf1 & _ & Hs & _).
  { unfold no_engine_error. apply Forall_replicate. done. }
  set (cs := accepted_logs logs _) in *. pose proof (accepted_increasing i logs (replicate (length logs) res_ok) Hw) as Hinc.
  assert (versions_wf (f_store f1)) as Hv1.
  { rewrite Hs. apply versions_wf_commits; [|done]. fold cs in Hinc. clear -Hinc.
    revert i Hinc. induction cs as [|c cs IH]; intros i Hinc; [constructor|].
    destruct Hinc as (_ & _ & Hp & Hinc). constructor; [by apply client_user|by eapply IH]. }
  destruct (open_spec f0) as (ke & Hopen & Hke);
    [done|change (versions_wf (f_store f0)); by rewrite He0|done|].
  change (eng_abs (f_engine f0)) with (f_store f0) in Hke. rewrite He0 in Hke.
  pose proof (scanned_version_ke_ok ke (f_store f1) Hke Hsc) as Hok.
  eexists. destruct (apply_logs_stale (set_applied (set_keyEpoch f0 ke) (eng_CurrentSequence (f_engine f0))) ∅ logs)
    as (f3 & Hrep & He3).
  - rewrite Forall_forall in Hg |- *. intros log Hin. destruct (Hg log Hin) as (p & Hp & re & Hr & Hw' & Hd & Hres & Hlt).
    exists p. split; [done|]. exists re. split_and!; [done| |done]. simpl. rewrite Hok by done.
    pose proof (commits_version_written i cs (f_store f) (log_Index log) p (re_Key re) Hres Hinc
      (accepted_log_all logs log p Hin Hp) Hw') as Hver. rewrite <- Hs in Hver. lia.
  - exists f3. split_and!; [done|exact Hrep|]. unfold f_store. rewrite He3. exact He0.
Qed.
End replay.

(** ** Concrete replays *)

Definition after_log (logs : list Log) : MemFSM := (applyBatch no_clock fresh_fsm logs).1.1.

Lemma rmw_log_wf : logs_wf 0 [log_of 3 rmw_a].
Proof.
  cbn [logs_wf]. split_and!; try (cbn; width_lia); try exact I.
  eapply (log_proposal_client _ rmw_a); [vm_compute; reflexivity|].
  apply (bool_decide_unpack _). vm_compute. exact I.
Qed.

(** The only version record after it is that of [a]. *)
Lemma rmw_log_scanned f1 ns :
  applyBatch no_clock fresh_fsm [log_of 3 rmw_a] = (f1, [res_ok], ns) →
  ∀ k, is_Some (f_store f1 !! versionKey k) → scanned k.
Proof.
  intros E k Hk.
  destruct (apply_logs_spec no_clock 0 fresh_fsm ∅ [log_of 3 rmw_a] f1 [res_ok] ns fresh_finv rmw_log_wf E
    ltac:(by repeat constructor))
    as (j & _ & _ & _ & Hs & _).
  rewrite Hs, f_store_fresh in Hk. cbn [accepted_logs] in Hk.
  assert (log_proposal (log_of 3 rmw_a) = Some rmw_a) as Hp by (vm_compute; reflexivity). rewrite Hp in Hk. clear E Hs Hp.
  destruct (decide (k = k_a)) as [->|Hne]; [apply (bool_decide_unpack _); vm_compute; exact I|].
  exfalso. destruct Hk as [v Hk]. revert Hk. change (commits ∅ _) with (commit ∅ (3, rmw_a)). unfold commit.
  rewrite lookup_spec_ops_notin; [by rewrite lookup_empty|].
  intros (o & Ek & Ho)%list_elem_of_fmap. apply elem_of_app in Ho as [Ho|Ho].
  - change (writes_ops _ _) with (write_ops 3 (set_a 7) ++ []) in Ho. rewrite app_nil_r in Ho.
    apply write_ops_keys in Ho as [Eo|Eo]; rewrite Eo in Ek.
    + symmetry in Ek. exact (user_key_ne_version k_a k eq_refl Ek).
    + apply (inj versionKey) in Ek. exact (Hne Ek).
  - apply list_elem_of_singleton in Ho. subst o. exact (versionKey_ne_applied k Ek).
Qed.

Lemma replay_guarded_witness :
  ∃ f2 f3, open (fun _ => false) (newFSM (f_engine (after_log [log_of 3 rmw_a])) SyncNone false None tt) = Ok f2
    ∧ applyBatch no_clock f2 [log_of 3 rmw_a] = (f3, [res_conflict], [])
    ∧ f_store f3 = f_store (after_log [log_of 3 rmw_a]).
Proof.
  assert (log_proposal (log_of 3 rmw_a) = Some rmw_a) as Hp by (vm_compute; reflexivity).
  destruct (applyBatch no_clock fresh_fsm [log_of 3 rmw_a]) as [[f1 rs] ns] eqn:E.
  assert (rs = [res_ok]) as -> by (change rs with ((f1, rs, ns).1.2); rewrite <- E; vm_compute; reflexivity).
  assert (after_log [log_of 3 rmw_a] = f1) as E1 by (unfold after_log; rewrite E; reflexivity).
  rewrite E1.
  apply (replay_guarded no_clock 0 fresh_fsm [log_of 3 rmw_a] f1 ns).
  - apply fresh_finv.
  - apply rmw_log_wf.
  - constructor; [|constructor]. exists rmw_a. split; [exact Hp|]. exists (rd k_a 0).
    split_and!; [by left|by left|reflexivity|reflexivity|cbn; lia].
  - rewrite f_store_fresh. apply versions_wf_empty.
  - exact E.
  - exact (rmw_log_scanned f1 ns E).
  - destruct (apply_logs_spec no_clock 0 fresh_fsm ∅ [log_of 3 rmw_a] f1 [res_ok] ns fresh_finv rmw_log_wf E
      ltac:(by repeat constructor)) as (j & _ & Hf1 & _). apply Hf1.
  - reflexivity.
  - reflexivity.
Defined.

(** Replaying the log credits twice: an entry that credits 5 is applied; the
    node restarts on the durable engine and applies the entry again, accepts it,
    and the balance is 10. *)
Theorem replay_doubles_credit :
  let log := [log_of 1 (prop [] [credit_a 5])] in
  let '(f1, rs1, _) := applyBatch no_clock fresh_fsm log in
  match open (fun _ => false) (newFSM (f_engine f1) SyncNone false None tt) with
  | Ok f2 =>
      let '(f3, rs3, _) := applyBatch no_clock f2 log in
      rs1 = [res_ok] ∧ Get (f_engine f1) k_a = Some (encodeInt64 5) ∧ f_applied f2 = 1
      ∧ rs3 = [res_ok] ∧ Get (f_engine f3) k_a = Some (encodeInt64 10)
  | _ => False
  end.
Proof. vm_compute. split_and!; reflexivity. Qed.
