(* ===== verification/ShardedScenarios.v ===== *)
(** * The sharded proposer on concrete engines

    A fresh proposer over the sharded in-memory engine meets the hypotheses of
    the serializability theorem. Proposals that span shards, read many keys, or
    run on the multi-version engine are outside it, and the executions below
    show what happens to them. *)

From S2P Require Import Prelude Types Wire EngineSpec Shard BTree Memory Dump Mvcc MvccSpec.
From S2P Require Import Fsm Occ Direct Reopen Sharded ShardedSpec Raft Batching Scenarios.

Abbreviation MemSharded := (shardedDirectProposer MemEngine).

Definition empty_shard : shardProposer := {| sp_keyEpoch := ∅; sp_applied := 0; sp_index := 0 |}.

Definition fresh_sharded : MemSharded :=
  {| sd_engine := EngOther NewSharded; sd_shards := replicate numShards empty_shard; sd_closed := false;
     sd_syncPolicy := SyncNone; sd_watchers := false; sd_metrics := None |}.

Lemma fresh_sharded_is_new : newShardedDirectProposer NewSharded SyncNone false None = Ok fresh_sharded.
Proof. reflexivity. Qed.

Lemma sd_store_fresh : sd_store fresh_sharded = ∅.
Proof. exact abs_NewSharded. Qed.

Lemma fresh_sharded_sinv : sinv fresh_sharded.
Proof.
  split.
  - exists NewSharded. split; [done|apply inv_NewSharded].
  - apply length_replicate.
  - done.
  - intros i sp [-> _]%lookup_replicate. done.
  - intros i sp k [-> _]%lookup_replicate Hk _. rewrite sd_store_fresh.
    destruct (empty_ok 0) as [H1 H2]; [lia|]. split; [by apply H1|by apply H2].
Qed.

Lemma sharded_serializable_witness :
  match ProposeDirect fresh_sharded rmw_a with
  | Ok (s', r, _) => r = res_ok ∧ sd_store s' = commit ∅ (1, rmw_a)
  | _ => False
  end.
Proof.
  assert (shard_proposal rmw_a) as Hp.
  { split; [apply (bool_decide_unpack _); vm_compute; exact I|]. split.
    - split; [|split]; [| |apply (bool_decide_unpack _); vm_compute; exact I]; (constructor; [vm_compute; reflexivity|constructor]).
    - constructor; [vm_compute; reflexivity|constructor]. }
  destruct (ProposeDirect fresh_sharded rmw_a) as [[[s' r] ns]| |] eqn:E;
    [|apply (f_equal (fun x => match x with Ok _ => true | _ => false end)) in E;
      vm_compute in E; discriminate E..].
  destruct (sharded_serializable fresh_sharded fresh_sharded rmw_a s' r ns) as (_ & _ & Hc).
  - apply fresh_sharded_sinv.
  - apply rtc_refl.
  - exact Hp.
  - vm_compute. reflexivity.
  - exact E.
  - apply (f_equal (fun x => match x with Ok (_, r, _) => Some (engine_error r) | _ => None end)) in E.
    assert (Some (engine_error r) = Some false) as E' by (rewrite <- E; vm_compute; reflexivity).
    injection E' as E'. exact E'.
  - assert (r = res_ok) as Er.
    { apply (f_equal (fun x => match x with Ok (_, r, _) => Some r | _ => None end)) in E.
      assert (Some r = Some res_ok) as E' by (rewrite <- E; vm_compute; reflexivity).
      injection E' as ->. reflexivity. }
    subst r. destruct Hc as [[Hc _]|(_ & Hs & _)]; [discriminate Hc|].
    split; [reflexivity|]. rewrite Hs, sd_store_fresh. reflexivity.
Defined.

(** ** Limits *)

(** Run proposals in order; the results. *)
Fixpoint propose_all {Eng Snap Bat} `{StorageEngine Eng Snap Bat} (s : shardedDirectProposer Eng)
    (ps : list Proposal) : list ApplyResult * shardEngine Eng :=
  match ps with
  | [] => ([], sd_engine s)
  | p :: ps' =>
      match ProposeDirect s p with
      | Ok (s', r, _) => let '(rs, e) := propose_all s' ps' in (r :: rs, e)
      | _ => ([], sd_engine s)
      end
  end.

(** Reads in another shard are not validated: [a] and [b] live in different
    shards; a proposal that read [a] at version 0 and writes [b] commits although
    [a] has since been set, while the same reads with a write to [a] conflict. *)
Theorem sharded_cross_shard_read :
  shardFor k_a ≠ shardFor k_b
  ∧ (propose_all fresh_sharded
       [prop [] [set_a 1]; prop [rd k_a 0] [wr OpSet k_b (encodeInt64 2)]; prop [rd k_a 0] [set_a 3]]).1
    = [res_ok; res_ok; res_conflict].
Proof. vm_compute. split; [discriminate|reflexivity]. Qed.

(** More than 64 reads disable validation: the stale read of [a] conflicts
    when it is repeated 64 times and commits when it is repeated 65 times. *)
Theorem sharded_many_reads :
  let stale n := prop (replicate n (rd k_a 0)) [set_a 2] in
  (propose_all fresh_sharded [prop [] [set_a 1]; stale 64%nat; stale 65%nat]).1
  = [res_ok; res_conflict; res_ok].
Proof. vm_compute. reflexivity. Qed.

Definition fresh_mvcc : MemSharded :=
  {| sd_engine := EngMVCC (newMVCCEngine true); sd_shards := replicate numShards empty_shard;
     sd_closed := false; sd_syncPolicy := SyncNone; sd_watchers := false; sd_metrics := None |}.

Definition mvcc_of (e : shardEngine MemEngine) : MVCCEngine :=
  match e with EngMVCC e => e | EngOther _ => newMVCCEngine true end.

(** On the multi-version engine a transaction that writes keys of two shards
    stores both in the first one's shard, where the second key is not looked
    for: after a committed write of [a] and [b], [a] is readable and [b] is not,
    and no version record can be read for either. *)
Theorem mvcc_multi_shard_write :
  let '(rs, e) := propose_all fresh_mvcc [prop [] [set_a 1; wr OpSet k_b (encodeInt64 2)]] in
  rs = [res_ok]
  ∧ mvcc_Get (mvcc_of e) k_a = Some (encodeInt64 1) ∧ mvcc_Get (mvcc_of e) k_b = None
  ∧ mvccSnapshot_GetVersion (mvcc_of e) (lastCommitted (mvcc_of e)) k_a = zero_epoch
  ∧ mvccSnapshot_GetVersion (mvcc_of e) (lastCommitted (mvcc_of e)) k_b = zero_epoch.
Proof. vm_compute. split_and!; reflexivity. Qed.

(** Every operation the loop emits: a user write or a record in the buffer. *)
Lemma mvcc_writes_spec idx ws writes buf ke :
  let '(writes', buf', _) := mvcc_writes idx ws writes buf ke in
  (∀ o, o ∈ writes' → o ∈ writes ∨ ∃ w, w ∈ ws ∧
     (o = WSet (versionKey (we_Key w)) (VEpochBuf 9) ∨ ∃ u, write_op w = Some u ∧ deref_op buf' o = u))
  ∧ buf' = from_option (fun w => encodeEpochRecord (write_epoch idx w)) buf (last ws).
Proof.
  revert writes buf ke. induction ws as [|w ws IH]; intros writes buf ke; [by split; [left|]|].
  cbn [mvcc_writes]. set (writes1 := match write_op w with Some _ => _ | None => _ end).
  specialize (IH (writes1 ++ [WSet (versionKey (we_Key w)) (VEpochBuf 9)])
    (encodeEpochRecord (write_epoch idx w)) (<[we_Key w := write_epoch idx w]> ke)).
  destruct (mvcc_writes idx ws _ _ _) as [[writes' buf'] ke']. destruct IH as [H1 H2]. split.
  - intros o Ho. destruct (H1 o Ho) as [Hin|(w' & Hin & Hw')].
    2: { right. exists w'. split; [by right|done]. }
    apply elem_of_app in Hin as [Hin|Hin%list_elem_of_singleton].
    2: { right. exists w. split; [by left|by left]. }
    subst writes1. destruct (write_op w) as [[k v|k|k v]|] eqn:E; [..|by left];
      (apply elem_of_app in Hin as [Hin|Hin%list_elem_of_singleton]; [by left|]);
      right; exists w; (split; [by left|right; subst o; eauto]).
  - rewrite H2. destruct ws as [|w1 ws]; [done|]. simpl.
    destruct (last (w1 :: ws)) eqn:E; [done|]. by apply last_None in E.
Qed.

(** The version records of one proposal on the multi-version engine share a
    buffer: whatever the writes, every record carries the flag of the last
    one. *)
Theorem mvcc_records_share_flag idx ws w0 ke k v :
  is_u64 idx → user_writes (ws ++ [w0]) →
  BSet (versionKey k) v ∈ (mvcc_ops idx (ws ++ [w0]) ke).1 →
  decodeEpochRecord0 v = write_epoch idx w0.
Proof.
  intros Hi Hw. unfold mvcc_ops. pose proof (mvcc_writes_spec idx (ws ++ [w0]) [] (replicate 9 x00) ke) as Hs.
  destruct (mvcc_writes _ _ _ _ _) as [[writes buf] ke']. destruct Hs as [H1 H2]. rewrite last_snoc in H2.
  simpl in H2. subst buf.
  assert (encodeUint64 idx ++ drop 8 (encodeEpochRecord (write_epoch idx w0))
          = encodeEpochRecord (write_epoch idx w0)) as ->.
  { unfold encodeEpochRecord. rewrite (drop_app_length' (le64 _)) by (by rewrite length_le64). done. }
  cbn [fst]. rewrite map_app. intros [Hin|Hin]%elem_of_app.
  2: { apply list_elem_of_singleton in Hin. exfalso. apply (versionKey_ne_applied k).
       exact (f_equal bop_key Hin). }
  apply list_elem_of_fmap in Hin as (o & Eo & Ho).
  destruct (H1 o Ho) as [Hn|(w & Hwi & [->|(u & Eu & Ed)])]; [by apply elem_of_nil in Hn| |].
  - apply (f_equal (fun o => match o with BSet _ v => v | _ => [] end)) in Eo. simpl in Eo.
    rewrite Eo. rewrite firstn_all2 by (rewrite length_encodeEpochRecord; lia).
    by apply decode_encode_epoch0.
  - rewrite Ed in Eo. subst u. apply write_op_key in Eu. simpl in Eu.
    unfold user_writes in Hw. rewrite Forall_forall in Hw. specialize (Hw w Hwi).
    rewrite <- Eu, isReserved_versionKey in Hw. done.
Qed.

Lemma mvcc_records_share_flag_witness :
  decodeEpochRecord0 (encodeEpochRecord {| Epoch := 1; IsCredit := true |})
  = write_epoch 1 (credit_a 5).
Proof.
  apply (mvcc_records_share_flag 1 [wr OpSet k_b []] (credit_a 5) ∅ k_b).
  - width_lia.
  - apply (bool_decide_unpack _); vm_compute; exact I.
  - apply (bool_decide_unpack _); vm_compute; exact I.
Defined.

(** The raw scan of the multi-version engine hides the reserved keys, so the
    scan that rebuilds the epoch map at opening finds nothing in any store. *)
Theorem mvcc_open_finds_no_versions (e : MVCCEngine) : mvcc_RawIter e rawIterStart rawIterEnd = [].
Proof.
  unfold mvcc_RawIter, newIterator.
  assert (∀ d : mvccShard, omap (iter_pair rawIterStart rawIterEnd (seqCounter e)) (map_to_list d) = []) as Hd.
  { intros d. induction (map_to_list d) as [|[k es] l IH]; [done|]. cbn [omap list_omap].
    destruct (iter_pair _ _ _ (k, es)) as [[k' v]|] eqn:E; [|exact IH].
    apply iter_pair_spec in E as (_ & Hr & Hk & _). apply in_range_prefix in Hr as [u ->].
    by rewrite isReserved_versionKey in Hk. }
  assert (concat (map (fun d => omap (iter_pair rawIterStart rawIterEnd (seqCounter e)) (map_to_list d))
            (mv_shards e)) = []) as ->; [|done].
  induction (mv_shards e) as [|d l IH]; [done|]. cbn [map concat]. by rewrite Hd, IH.
Qed.
