(* ===== verification/Tx.v ===== *)
(** * Transactions (src/tx.go)

    [dpxTx]: reads from a snapshot with a deferred read set, buffered writes,
    and the proposal they become. The callback of [RunInTx] is a program over
    the operations of the [KVTx] interface; running it threads the transaction. *)

From S2P Require Import Prelude Types EngineSpec Iter Fsm Occ.

(** The sentinel errors of src/errors.go, the engine's errors, returned as they are
    ([ErrRead]) or wrapped by runOnce ([ErrSnapshot]), and an error of the
    callback's own. *)
Inductive txErr :=
  | ErrConflict | ErrConflictExhausted | ErrNotLeader | ErrKeyNotFound_tx | ErrInvalidProposal
  | ErrReservedKey | ErrStoreClosed
  | ErrApplied (e : applyErr) | ErrRead (e : engErr) | ErrSnapshot (e : engErr) | ErrProposer (msg : string) | ErrUser (msg : string).

(** Go's zero value of [ReadEntry] with the deferred epoch. *)
Definition deferred_read (k : bytes) : ReadEntry := {| re_Key := k; re_Epoch := 0; re_IsDebit := false |}.

Abbreviation readset :=
  (@gmap (list Init.Byte.byte) (@list_eq_dec Init.Byte.byte byte_eq_dec)
     (@list_countable Init.Byte.byte byte_eq_dec byte_countable) ReadEntry).

Section tx.
Context {Eng Snap Bat : Type} `{StorageEngine Eng Snap Bat}.
(** The order in which [for _, re := range tx.readSet] visits the map. *)
Context (rs_order : readset → list ReadEntry).

Record dpxTx := {
  tx_snap : Snap;
  readSet : readset;
  writes : list WriteEntry;
  tx_seq : option Z;   (* the counter of [tx.node]; [None] when [node == nil] *)
}.

Definition set_readSet (tx : dpxTx) (rs : readset) : dpxTx :=
  {| tx_snap := tx_snap tx; readSet := rs; writes := writes tx; tx_seq := tx_seq tx |}.
Definition add_write (tx : dpxTx) (w : WriteEntry) : dpxTx :=
  {| tx_snap := tx_snap tx; readSet := readSet tx; writes := writes tx ++ [w]; tx_seq := tx_seq tx |}.
Definition set_seq (tx : dpxTx) (s : option Z) : dpxTx :=
  {| tx_snap := tx_snap tx; readSet := readSet tx; writes := writes tx; tx_seq := s |}.

(** (tx *dpxTx) Get: the version lookup is deferred; a missing key, or a read
    that fails, leaves no read entry. *)
Definition tx_Get (tx : dpxTx) (key : bytes) : dpxTx * (bytes + txErr) :=
  if isReserved key then (tx, inr ErrReservedKey)
  else match snap_Get (tx_snap tx) key with
       | inr ErrKeyNotFound => (tx, inr ErrKeyNotFound_tx)
       | inr err => (tx, inr (ErrRead err))
       | inl val => (set_readSet tx (<[key := deferred_read key]> (readSet tx)), inl val)
       end.

(** (tx *dpxTx) Set *)
Definition tx_Set (tx : dpxTx) (key value : bytes) : dpxTx * option txErr :=
  if isReserved key then (tx, Some ErrReservedKey)
  else (add_write tx {| we_Op := OpSet; we_Key := key; we_Value := value |}, None).

(** (tx *dpxTx) Delete *)
Definition tx_Delete (tx : dpxTx) (key : bytes) : dpxTx * option txErr :=
  if isReserved key then (tx, Some ErrReservedKey)
  else (add_write tx {| we_Op := OpDelete; we_Key := key; we_Value := [] |}, None).

(** (tx *dpxTx) AtomicAdd: a credit is not read; a debit, or a zero delta,
    enters the read set with its version. Both read the value first, and a read
    that fails ends the call. *)
Definition tx_AtomicAdd (tx : dpxTx) (key : bytes) (delta : Z) : dpxTx * (Z + txErr) :=
  if isReserved key then (tx, inr ErrReservedKey)
  else
    match absent_ok [] (snap_Get (tx_snap tx) key) with
    | inr err => (tx, inr (ErrRead err))
    | inl val =>
        if 0 <? delta then
          (add_write tx {| we_Op := OpCredit; we_Key := key; we_Value := encodeInt64 delta |},
           inl (decodeInt64 val))
        else
          match absent_ok zero_epoch (snap_GetVersion (tx_snap tx) key) with
          | inr err => (tx, inr (ErrRead err))
          | inl v =>
              let tx := set_readSet tx
                (<[key := {| re_Key := key; re_Epoch := Epoch v; re_IsDebit := true |}]> (readSet tx)) in
              let tx := if delta <? 0
                        then add_write tx {| we_Op := OpDebit; we_Key := key; we_Value := encodeInt64 delta |}
                        else tx in
              (tx, inl (i64 (decodeInt64 val + delta)))
          end
    end.

(** (tx *dpxTx) GetRange: the pairs so far are returned even with an error. *)
Definition tx_GetRange (tx : dpxTx) (start end_ : bytes) (limit : Z) :
    list (bytes * bytes) * option engErr :=
  let '(pairs, err) := snap_NewIter (tx_snap tx) start end_ in
  (default [] (collect limit (new_iter pairs)), err).

(** (tx *dpxTx) AllocateNextSequence *)
Definition tx_AllocateNextSequence (tx : dpxTx) : dpxTx * Z :=
  match tx_seq tx with
  | Some n => (set_seq tx (Some (u64 (n + 1))), u64 (n + 1))
  | None => (tx, u64 (snap_Sequence (tx_snap tx) + 1))
  end.

Definition empty (tx : dpxTx) : bool := bool_decide (length (writes tx) = 0%nat).

(** The epoch of a deferred entry is looked up when the proposal is built; it
    stays zero when that fails. *)
Definition hydrate (snap : Snap) (re : ReadEntry) : ReadEntry :=
  if (re_Epoch re =? 0) && negb (re_IsDebit re)
  then match snap_GetVersion snap (re_Key re) with
       | inl v => {| re_Key := re_Key re; re_Epoch := Epoch v; re_IsDebit := re_IsDebit re |}
       | inr _ => re
       end
  else re.

(** (tx *dpxTx) readSetSlice *)
Definition readSetSlice (tx : dpxTx) : list ReadEntry :=
  if decide (size (readSet tx) = 0%nat) then []
  else map (hydrate (tx_snap tx)) (rs_order (readSet tx)).

(** (tx *dpxTx) validate *)
Definition validate (tx : dpxTx) : option txErr :=
  let credits := filter (fun w => we_Op w = OpCredit) (writes tx) in
  if existsb (fun w => (we_Op w =? OpDelete) && bool_decide (we_Key w ∈ map we_Key credits)) (writes tx)
  then Some ErrInvalidProposal else None.

(** ** Callbacks *)

(** A callback: what it does next may depend on every result so far. *)
Inductive txProg :=
  | Return (err : option txErr)
  | PGet (key : bytes) (k : bytes + txErr → txProg)
  | PSet (key value : bytes) (k : option txErr → txProg)
  | PDelete (key : bytes) (k : option txErr → txProg)
  | PAtomicAdd (key : bytes) (delta : Z) (k : Z + txErr → txProg)
  | PGetRange (start end_ : bytes) (limit : Z) (k : list (bytes * bytes) * option engErr → txProg)
  | PAllocate (k : Z → txProg).

(** [fn(tx)] *)
Fixpoint run_prog (p : txProg) (tx : dpxTx) : dpxTx * option txErr :=
  match p with
  | Return err => (tx, err)
  | PGet key k => let '(tx, r) := tx_Get tx key in run_prog (k r) tx
  | PSet key value k => let '(tx, r) := tx_Set tx key value in run_prog (k r) tx
  | PDelete key k => let '(tx, r) := tx_Delete tx key in run_prog (k r) tx
  | PAtomicAdd key delta k => let '(tx, r) := tx_AtomicAdd tx key delta in run_prog (k r) tx
  | PGetRange s e limit k => run_prog (k (tx_GetRange tx s e limit)) tx
  | PAllocate k => let '(tx, n) := tx_AllocateNextSequence tx in run_prog (k n) tx
  end.

(** The transaction [runOnce] starts with. *)
Definition new_tx (snap : Snap) (seq : option Z) : dpxTx :=
  {| tx_snap := snap; readSet := ∅; writes := []; tx_seq := seq |}.

(** The proposal of a finished transaction, with the clock's timestamp. *)
Definition tx_proposal (tx : dpxTx) (wall counter : Z) : Proposal :=
  {| ReadSet := readSetSlice tx; Writes := writes tx; TimestampWall := wall; TimestampCounter := counter |}.
End tx.

Arguments dpxTx Snap : clear implicits.

(** ** What a transaction submits *)

(** The entries of a read set are under their own key. *)
Definition readset_wf (rs : readset) : Prop :=
  ∀ k re, rs !! k = Some re → re_Key re = k ∧ isReserved k = false.

Definition tx_writes_wf (ws : list WriteEntry) : Prop :=
  Forall (fun w => isReserved (we_Key w) = false ∧ known_op (we_Op w)) ws.

Section laws.
Context {Eng Snap Bat : Type} `{EngineLaws Eng Snap Bat}.
Context (rs_order : readset → list ReadEntry).
Context (rs_order_perm : ∀ rs, rs_order rs ≡ₚ (map_to_list rs).*2).

Lemma known_ops : known_op OpSet ∧ known_op OpDelete ∧ known_op OpCredit ∧ known_op OpDebit.
Proof. unfold known_op. auto 10. Qed.

(** Entries: deferred, or a debit at its version in the snapshot. *)
Definition tx_wf (tx : dpxTx Snap) : Prop :=
  tx_writes_wf (writes tx)
  ∧ ∀ k re, readSet tx !! k = Some re →
      isReserved k = false
      ∧ (re = deferred_read k
         ∨ ∃ v, absent_ok zero_epoch (snap_GetVersion (tx_snap tx) k) = inl v
                ∧ re = {| re_Key := k; re_Epoch := Epoch v; re_IsDebit := true |}).

Lemma tx_wf_read tx k re :
  tx_wf tx → isReserved k = false →
  (re = deferred_read k
   ∨ ∃ v, absent_ok zero_epoch (snap_GetVersion (tx_snap tx) k) = inl v
          ∧ re = {| re_Key := k; re_Epoch := Epoch v; re_IsDebit := true |}) →
  tx_wf (set_readSet tx (<[k := re]> (readSet tx))).
Proof.
  intros [Hw Hr] Hk Hre. split; [done|]. intros k' re'. simpl. rewrite lookup_insert.
  case_decide; [intros [= <-]; by subst|apply Hr].
Qed.

Lemma tx_wf_write tx w :
  tx_wf tx → isReserved (we_Key w) = false → known_op (we_Op w) → tx_wf (add_write tx w).
Proof.
  intros [Hw Hr] Hk Ho. split; [|done]. simpl. apply Forall_app. split; [done|]. by constructor.
Qed.

(** Every operation of the interface keeps the transaction well formed. *)
Lemma run_prog_wf p tx tx' err :
  tx_wf tx → run_prog p tx = (tx', err) → tx_wf tx' ∧ tx_snap tx' = tx_snap tx.
Proof.
  revert tx. induction p as [e|key k IH|key value k IH|key k IH|key delta k IH|s e limit k IH|k IH];
    intros tx Hwf Hrun; simpl in Hrun.
  - by simplify_eq.
  - unfold tx_Get in Hrun. destruct (isReserved key) eqn:Ek; [by eapply IH|].
    destruct (snap_Get _ key) as [v|[|msg]]; [|by eapply IH..].
    destruct (IH _ _ (tx_wf_read tx key _ Hwf Ek (or_introl eq_refl)) Hrun) as [? E]. by rewrite E.
  - unfold tx_Set in Hrun. destruct (isReserved key) eqn:Ek; [by eapply IH|].
    eapply IH in Hrun; [done|]. apply tx_wf_write; [done|done|apply known_ops].
  - unfold tx_Delete in Hrun. destruct (isReserved key) eqn:Ek; [by eapply IH|].
    eapply IH in Hrun; [done|]. apply tx_wf_write; [done|done|apply known_ops].
  - unfold tx_AtomicAdd in Hrun. destruct (isReserved key) eqn:Ek; [by eapply IH|].
    destruct (absent_ok [] _) as [val|er]; [|by eapply IH]. destruct (0 <? delta).
    { eapply IH in Hrun; [done|]. apply tx_wf_write; [done|done|apply known_ops]. }
    destruct (absent_ok zero_epoch _) as [v|er] eqn:Ev; [|by eapply IH].
    pose proof (tx_wf_read tx key _ Hwf Ek (or_intror (ex_intro _ v (conj Ev eq_refl)))) as Hwf1.
    destruct (delta <? 0); [|by apply IH in Hrun as [? ->]].
    eapply IH in Hrun as [? E]; [by rewrite E|]. apply tx_wf_write; [done|done|apply known_ops].
  - by eapply IH.
  - unfold tx_AllocateNextSequence in Hrun. destruct (tx_seq tx); by eapply IH in Hrun.
Qed.

Lemma new_tx_wf snap seq : tx_wf (new_tx snap seq).
Proof. split; [constructor|]. intros k re. simpl. by rewrite lookup_empty. Qed.

(** What the epoch of an entry of the proposal is: the version of its key in the
    snapshot, or zero where that could not be read. *)
Lemma readSetSlice_spec tx re :
  tx_wf tx → re ∈ readSetSlice rs_order tx →
  isReserved (re_Key re) = false
  ∧ ((∃ v, absent_ok zero_epoch (snap_GetVersion (tx_snap tx) (re_Key re)) = inl v ∧ re_Epoch re = Epoch v)
     ∨ (∃ err, snap_GetVersion (tx_snap tx) (re_Key re) = inr err ∧ re_Epoch re = 0))
  ∧ is_Some (readSet tx !! re_Key re).
Proof.
  intros [_ Hr]. unfold readSetSlice. case_decide; [by intros ?%elem_of_nil|].
  intros (re0 & -> & Hin)%list_elem_of_fmap. rewrite rs_order_perm in Hin.
  apply list_elem_of_fmap in Hin as ([k re1] & -> & Hin). simpl.
  apply elem_of_map_to_list in Hin. destruct (Hr k re1 Hin) as [Hk [->|(v & Hv & ->)]]; unfold hydrate; simpl.
  - destruct (snap_GetVersion (tx_snap tx) k) as [v|err] eqn:Ev; simpl; rewrite Hin; split_and!; try done; [left|right].
    + exists v. by rewrite Ev.
    + exists err. by rewrite Ev.
  - rewrite andb_false_r. simpl. rewrite Hin. split_and!; [done| |done]. left. by exists v.
Qed.

(** The proposal of any callback over a snapshot of a store reads from it. *)
Lemma tx_proposal_reads e tx wall counter :
  eng_inv e → tx_wf tx → eng_GetSnapshot e = inl (tx_snap tx) →
  reads_from (eng_abs e) (ReadSet (tx_proposal rs_order tx wall counter)).
Proof.
  intros Hi Hwf Hs. unfold reads_from. apply Forall_forall. intros re Hin.
  destruct (readSetSlice_spec tx re Hwf Hin) as (Hk & He & _). split; [done|].
  destruct He as [(v & Hv & ->)|(err & _ & ->)]; [|apply ver_nonneg].
  pose proof (law_snap_version e _ (re_Key re) Hi Hs) as Hl. unfold ver.
  apply absent_ok_inl in Hv as [Hv|[Hv ->]]; rewrite Hv in Hl; simpl in Hl; by rewrite Hl.
Qed.

(** Without read errors every epoch is the version in the snapshot. *)
Lemma tx_proposal_exact e tx wall counter :
  eng_inv e → tx_wf tx → eng_GetSnapshot e = inl (tx_snap tx) → reads_ok (tx_snap tx) →
  reads_exact (eng_abs e) (ReadSet (tx_proposal rs_order tx wall counter)).
Proof.
  intros Hi Hwf Hs Hok. unfold reads_exact. apply Forall_forall. intros re Hin.
  destruct (readSetSlice_spec tx re Hwf Hin) as (Hk & He & _). split; [done|].
  pose proof (law_snap_version e _ (re_Key re) Hi Hs) as Hl.
  pose proof (answers_version_ok _ _ Hl (fun msg => proj2 (Hok (re_Key re) msg))) as Ha. unfold ver.
  destruct He as [(v & Hv & ->)|(err & Hv & ->)].
  - rewrite Ha in Hv. by injection Hv as <-.
  - rewrite Hv in Ha. destruct err as [|msg]; [|done]. injection Ha as <-. done.
Qed.
End laws.

(** ** Re-execution *)

Section rerun.
Context {Eng Snap Bat : Type} `{EngineLaws Eng Snap Bat}.

(** On this snapshot the callback only gets keys that exist, without a read
    error, sets and deletes. *)
Fixpoint plain (p : txProg) (snap : Snap) : Prop :=
  match p with
  | Return _ => True
  | PGet key k =>
      if isReserved key then plain (k (inr ErrReservedKey)) snap
      else match snap_Get snap key with inl v => plain (k (inl v)) snap | inr _ => False end
  | PSet key _ k | PDelete key k => plain (k (if isReserved key then Some ErrReservedKey else None)) snap
  | _ => False
  end.

Lemma run_prog_reads_mono p tx tx' err k :
  run_prog p tx = (tx', err) → plain p (tx_snap tx) →
  is_Some (readSet tx !! k) → is_Some (readSet tx' !! k).
Proof.
  revert tx. induction p as [e|key c IH|key value c IH|key c IH|key delta c IH|s e limit c IH|c IH];
    intros tx Hrun Hp Hk; simpl in Hrun, Hp; try done.
  - by simplify_eq.
  - unfold tx_Get in Hrun. destruct (isReserved key); [by eapply IH|].
    destruct (snap_Get _ key); [|done]. eapply IH; [done|done|]. simpl.
    rewrite lookup_insert. by case_decide.
  - unfold tx_Set in Hrun. destruct (isReserved key); eapply IH; done.
  - unfold tx_Delete in Hrun. destruct (isReserved key); eapply IH; done.
Qed.

(** The keys a plain callback has read were read without an error. *)
Lemma run_prog_read_found p tx tx' err :
  run_prog p tx = (tx', err) → plain p (tx_snap tx) →
  (∀ k, is_Some (readSet tx !! k) → ∃ v, snap_Get (tx_snap tx) k = inl v) →
  ∀ k, is_Some (readSet tx' !! k) → ∃ v, snap_Get (tx_snap tx) k = inl v.
Proof.
  revert tx. induction p as [e|key c IH|key value c IH|key c IH|key delta c IH|s e limit c IH|c IH];
    intros tx Hrun Hp Hk; simpl in Hrun, Hp; try done.
  - by simplify_eq.
  - unfold tx_Get in Hrun. destruct (isReserved key); [by eapply IH|].
    destruct (snap_Get _ key) as [v|er] eqn:Ev; [|done]. eapply (IH _ _ Hrun Hp). simpl. intros k.
    rewrite lookup_insert. case_decide; [subst; by eauto|apply Hk].
  - unfold tx_Set in Hrun. destruct (isReserved key); eapply (IH _ _ Hrun Hp); done.
  - unfold tx_Delete in Hrun. destruct (isReserved key); eapply (IH _ _ Hrun Hp); done.
Qed.

Lemma run_prog_read_ok p snap seq tx err k msg :
  run_prog p (new_tx snap seq) = (tx, err) → plain p snap → is_Some (readSet tx !! k) →
  snap_Get snap k ≠ inr (ErrEngine msg).
Proof.
  intros Hrun Hp Hk. destruct (run_prog_read_found p (new_tx snap seq) tx err Hrun Hp) with (k := k) as [v Hv]; [|done|].
  - intros k'. simpl. rewrite lookup_empty. by intros [? ?].
  - simpl in Hv. by rewrite Hv.
Qed.

(** A plain callback does the same on any snapshot that agrees with the first
    on the keys of its read set. *)
Lemma run_prog_rerun p tx0 tx1 tx0' err :
  run_prog p tx0 = (tx0', err) → plain p (tx_snap tx0) →
  (∀ k, is_Some (readSet tx0' !! k) → snap_Get (tx_snap tx1) k = snap_Get (tx_snap tx0) k) →
  writes tx1 = writes tx0 →
  ∃ tx1', run_prog p tx1 = (tx1', err) ∧ writes tx1' = writes tx0'.
Proof.
  revert tx0 tx1. induction p as [e|key c IH|key value c IH|key c IH|key delta c IH|s e limit c IH|c IH];
    intros tx0 tx1 Hrun Hp Hag Hw; simpl in Hrun, Hp |- *; try done.
  - simplify_eq. by exists tx1.
  - unfold tx_Get in *. destruct (isReserved key); [by eapply IH|].
    destruct (snap_Get (tx_snap tx0) key) as [v|er] eqn:Ev; [|done].
    assert (is_Some (readSet tx0' !! key)) as Hk.
    { eapply run_prog_reads_mono; [exact Hrun|done|]. simpl. by rewrite lookup_insert, decide_True. }
    rewrite (Hag key Hk), Ev. eapply IH; done.
  - unfold tx_Set in *. destruct (isReserved key); eapply IH; try done. simpl. by rewrite Hw.
  - unfold tx_Delete in *. destruct (isReserved key); eapply IH; try done. simpl. by rewrite Hw.
Qed.
End rerun.
