(* ===== verification/ShardedConcScenarios.v ===== *)
(** * Concurrent executions of the sharded proposer

    Schedules of a few goroutines over the sharded in-memory engine: the
    hypotheses of the theorems on all schedules hold for them, and one of them
    loses an update. *)

From S2P Require Import Prelude Types Wire EngineSpec Shard BTree Memory Dump Mvcc MvccSpec.
From S2P Require Import Fsm Occ Direct Reopen Sharded ShardedSpec Raft Batching Scenarios ShardedScenarios.
From S2P Require Import ShardedConc ShardedConcSpec ShardedConcProps Tx.

Abbreviation MemSystem := (system (gmap bytes bytes)).

(** A system of goroutines around a serial proposer. *)
Definition system_of (s : MemSharded) (ts : list (goroutine (gmap bytes bytes))) : MemSystem :=
  {| c_engine := match sd_engine s with EngOther e => e | EngMVCC _ => NewSharded end;
     c_shards := sd_shards s; c_locks := replicate numShards false; c_closed := sd_closed s;
     c_syncPolicy := sd_syncPolicy s; c_watchers := sd_watchers s; c_metrics := sd_metrics s;
     c_notified := []; c_threads := ts |}.

(** Back to a serial proposer, once the goroutines have ended. *)
Definition proposer_of (c : MemSystem) : MemSharded :=
  {| sd_engine := EngOther (c_engine c); sd_shards := c_shards c; sd_closed := c_closed c;
     sd_syncPolicy := c_syncPolicy c; sd_watchers := c_watchers c; sd_metrics := c_metrics c |}.

Definition set_b : Proposal := prop [] [wr OpSet k_b (bs "b")].

Lemma shardable_rmw_a : shardable rmw_a ∧ shardable set_b.
Proof. unfold shardable, user_writes. apply (bool_decide_unpack _). vm_compute. exact I. Qed.

Definition two_writers : MemSystem := system_of fresh_sharded [Idle rmw_a; Idle set_b; Idle rmw_a; Loading []].

Lemma two_writers_starts : starts two_writers fresh_sharded.
Proof.
  destruct shardable_rmw_a as [Ha Hb]. split_and!; try done; [apply inv_NewSharded|].
  by repeat constructor.
Qed.

Lemma run_schedule_rtc (c : MemSystem) ts c' : run_schedule c ts = Some c' → rtc cstep c c'.
Proof.
  unfold run_schedule. revert c. induction ts as [|t ts IH]; intros c; simpl.
  { intros [= ->]. apply rtc_refl. }
  destruct (schedule1 c t) as [c1|] eqn:E.
  - intros Hr. eapply rtc_l; [by apply (cstep_thread _ _ t)|by apply IH].
  - clear IH. intros Hr. exfalso. induction ts as [|u ts IH]; [done|by apply IH].
Qed.

(** Two writers of different shards in turns, step by step, then a third that
    read the same version as the first. *)
Definition turns : list nat := concat (replicate 8 [0%nat; 1%nat]) ++ replicate 4 2%nat.

Definition answers (c : MemSystem) : list (option ApplyResult) :=
  map (fun g => match g with Done _ (Ok r) => Some r | _ => None end) (c_threads c).

Lemma turns_answers :
  answers <$> run_schedule two_writers turns = Some [Some res_ok; Some res_ok; Some res_conflict; None].
Proof. vm_compute. reflexivity. Qed.

(** The state the schedule ends in. *)
Lemma turns_end : ∃ c, run_schedule two_writers turns = Some c
  ∧ answers c = [Some res_ok; Some res_ok; Some res_conflict; None].
Proof.
  pose proof turns_answers as E. destruct (run_schedule two_writers turns) as [c|]; [|done].
  exists c. split; [done|]. by injection E.
Qed.

Lemma sharded_linearizable_witness :
  ∃ c log s, run_schedule two_writers turns = Some c ∧ serial fresh_sharded log s ∧ decided c ≡ₚ log.
Proof.
  destruct turns_end as (c & Hc & _).
  destruct (sharded_linearizable two_writers fresh_sharded two_writers c) as (l1 & s1 & l2 & s2 & H1 & H2 & _ & H4 & _).
  - apply two_writers_starts.
  - apply rtc_refl.
  - by apply (run_schedule_rtc _ turns).
  - exists c, (l1 ++ l2), s2. split_and!; [exact Hc|by eapply serial_app|exact H4].
Defined.

Lemma sharded_progress_witness :
  ∃ c c', run_schedule two_writers turns = Some c ∧ rtc cstep c c'
    ∧ Forall (fun g => finished g = true) (c_threads c').
Proof.
  destruct turns_end as (c & Hc & _).
  destruct (sharded_progress two_writers fresh_sharded c) as (c' & Hr & Hf).
  - apply two_writers_starts.
  - by apply (run_schedule_rtc _ turns).
  - exists c, c'. split_and!; [exact Hc|exact Hr|exact Hf].
Defined.

(** ** A torn snapshot *)

(** [a] lives in shard 44 and its version record in shard 99. *)
Lemma a_shards : shardFor k_a = 44%nat ∧ shardFor (versionKey k_a) = 99%nat.
Proof. split; vm_compute; reflexivity. Qed.

(** The proposer after [a := 10] has committed at index 1. *)
Definition a_is_10 : MemSharded :=
  match ProposeDirect fresh_sharded (prop [] [set_a 10]) with Ok (s, _, _) => s | _ => fresh_sharded end.

(** A writer that sets [a] to 20, and a reader taking a snapshot: the reader
    loads shards 0 to 44, the writer runs to its end, the reader goes on. *)
Definition writer_reader : MemSystem := system_of a_is_10 [Idle (prop [rd k_a 1] [set_a 20]); Loading []].
Definition torn : list nat := replicate 45 1%nat ++ replicate 8 0%nat ++ replicate 84 1%nat.

(** What the reader sees of [a] and its version, and what [a] then is. *)
Definition view (c : MemSystem) : option (option bytes * EpochRecord * option bytes) :=
  match c_threads c !! 1%nat with
  | Some (Snapped snap) => Some (Snapshot_Get snap k_a, Snapshot_GetVersion snap k_a, Get (c_engine c) k_a)
  | _ => None
  end.

Lemma reader_view_torn :
  run_schedule writer_reader torn ≫= view
  = Some (Some (encodeInt64 10), {| Epoch := 2; IsCredit := false |}, Some (encodeInt64 20)).
Proof. vm_compute. reflexivity. Qed.

Lemma view_snapped (o : option MemSystem) x :
  o ≫= view = Some x → ∃ c snap, o = Some c ∧ c_threads c !! 1%nat = Some (Snapped snap).
Proof.
  destruct o as [c|]; [|done]. simpl. unfold view.
  destruct (c_threads c !! 1%nat) as [[]|] eqn:E; try done. eauto.
Qed.

Lemma snapshot_shardwise_witness :
  ∃ c snap, run_schedule writer_reader torn = Some c ∧ c_threads c !! 1%nat = Some (Snapped snap)
    ∧ ∃ ci, rtc cstep writer_reader ci ∧ rtc cstep ci c ∧ Snapshot_Get snap k_a = Get (c_engine ci) k_a.
Proof.
  destruct (view_snapped _ _ reader_view_torn) as (c & snap & Hc & Hg).
  exists c, snap. split; [exact Hc|]. split; [exact Hg|].
  destruct (snapshot_shardwise writer_reader c 1%nat snap) with (i := shardFor k_a) as (ci & H1 & H2 & H3).
  - vm_compute. reflexivity.
  - reflexivity.
  - exact (run_schedule_rtc _ torn c Hc).
  - exact Hg.
  - apply shardFor_lt.
  - exists ci. split; [exact H1|]. split; [exact H2|]. apply H3. reflexivity.
Defined.

(** Add one to [a]: read it, write back the sum. *)
Definition increment_a : txProg :=
  PGet k_a (fun r => match r with
    | inl v => PSet k_a (encodeInt64 (decodeInt64 v + 1)) (fun e => Return e)
    | inr e => Return (Some e)
    end).

(** The increment run against the torn snapshot and proposed once the writer is
    done: its answer and what [a] then is. *)
Definition increment_torn : option (ApplyResult * option bytes) :=
  c ← run_schedule writer_reader torn;
  match c_threads c !! 1%nat with
  | Some (Snapped snap) =>
      let tx := (run_prog increment_a (new_tx snap None)).1 in
      let p := tx_proposal (fun rs => map snd (map_to_list rs)) tx 0 0 in
      match ProposeDirect (proposer_of c) p with
      | Ok (s, r, _) => Some (r, match sd_engine s with EngOther e => Get e k_a | _ => None end)
      | _ => None
      end
  | _ => None
  end.

(** An update is lost: GetSnapshot of the sharded engine is not atomic, so
    a reader can see a key's old value with its new version; the increment it
    computes from the old value passes validation, and the committed write in
    between, 20, is overwritten by 11. *)
Theorem torn_snapshot_loses_update : increment_torn = Some (res_ok, Some (encodeInt64 11)).
Proof. vm_compute. reflexivity. Qed.
