(* ===== verification/Watch.v ===== *)
(** * Watchers (src/watch.go)

    [watcherMap] as a state machine: registration, the goroutine that removes
    and then closes a channel, notification and shutdown. Each section under the
    mutex is one step; sending on a closed channel and closing a channel twice
    are panics, and no reachable state allows them. *)

From S2P Require Import Prelude Types.

Definition watchChanBuf : Z := 256.

(** A channel: how many values it buffers, and whether it is closed. *)
Record chan := { buffered : Z; ch_closed : bool }.

(** [watches] as the association of prefixes and channel identities; [waiting]
    are the goroutines that have not woken up yet, [leaving] those between their
    critical section and [close(ch)]. *)
Record watcherMap := {
  watches : gmap bytes (list nat);
  w_closed : bool;
  done_closed : bool;
  chans : gmap nat chan;
  waiting : list (bytes * nat);
  leaving : list nat;
  dropped : Z;    (* [metrics.WatchDropped] *)
}.

(** newWatcherMap *)
Definition newWatcherMap : watcherMap :=
  {| watches := ∅; w_closed := false; done_closed := false; chans := ∅; waiting := []; leaving := []; dropped := 0 |}.

Definition set_chans (w : watcherMap) (c : gmap nat chan) : watcherMap :=
  {| watches := watches w; w_closed := w_closed w; done_closed := done_closed w; chans := c;
     waiting := waiting w; leaving := leaving w; dropped := dropped w |}.
Definition drop_one (w : watcherMap) : watcherMap :=
  {| watches := watches w; w_closed := w_closed w; done_closed := done_closed w; chans := chans w;
     waiting := waiting w; leaving := leaving w; dropped := u64 (dropped w + 1) |}.

(** (w *watcherMap) register, up to the return: [ch] is the channel [make]
    returns. On a closed map the channel is closed at once. *)
Definition register (w : watcherMap) (prefix : bytes) (ch : nat) : watcherMap :=
  if w_closed w then set_chans w (<[ch := {| buffered := 0; ch_closed := true |}]> (chans w))
  else
    {| watches := <[prefix := default [] (watches w !! prefix) ++ [ch]]> (watches w);
       w_closed := w_closed w; done_closed := done_closed w;
       chans := <[ch := {| buffered := 0; ch_closed := false |}]> (chans w);
       waiting := waiting w ++ [(prefix, ch)]; leaving := leaving w; dropped := dropped w |}.

(** [for i, c := range arr { if c == ch { append(arr[:i], arr[i+1:]...); break } }] *)
Fixpoint remove_first (ch : nat) (arr : list nat) : list nat :=
  match arr with
  | [] => []
  | c :: arr' => if decide (c = ch) then arr' else c :: remove_first ch arr'
  end.

Fixpoint remove_pair (p : bytes * nat) (l : list (bytes * nat)) : list (bytes * nat) :=
  match l with
  | [] => []
  | q :: l' => if decide (q = p) then l' else q :: remove_pair p l'
  end.

(** The goroutine of [register] after [ctx.Done()] or [w.done]: its section
    under the lock. *)
Definition deregister (w : watcherMap) (prefix : bytes) (ch : nat) : watcherMap :=
  let arr := default [] (watches w !! prefix) in
  let ws := if decide (ch ∈ arr) then <[prefix := remove_first ch arr]> (watches w) else watches w in
  let ws := if decide (length (default [] (ws !! prefix)) = 0%nat) then delete prefix ws else ws in
  {| watches := ws; w_closed := w_closed w; done_closed := done_closed w; chans := chans w;
     waiting := remove_pair (prefix, ch) (waiting w); leaving := leaving w ++ [ch]; dropped := dropped w |}.

Inductive chanErr := NoSuchChan.

(** [close(ch)] at the end of the goroutine: a panic when it is closed. *)
Definition close_chan (w : watcherMap) (ch : nat) : result chanErr watcherMap :=
  match chans w !! ch with
  | None => Err NoSuchChan
  | Some c =>
      if ch_closed c then Panic
      else Ok {| watches := watches w; w_closed := w_closed w; done_closed := done_closed w;
                 chans := <[ch := {| buffered := buffered c; ch_closed := true |}]> (chans w);
                 waiting := waiting w; leaving := remove_first ch (leaving w); dropped := dropped w |}
  end.

(** (w *watcherMap) closeAll *)
Definition closeAll (w : watcherMap) : result chanErr watcherMap :=
  if w_closed w then Ok w
  else if done_closed w then Panic
  else Ok {| watches := watches w; w_closed := true; done_closed := true; chans := chans w;
             waiting := waiting w; leaving := leaving w; dropped := dropped w |}.

(** [select { case ch <- struct{}{}: ...; default: metrics.WatchDropped.Add(1) }]
    with metrics present or not; a send on a closed channel panics. *)
Definition send (metrics : bool) (w : watcherMap) (ch : nat) : result chanErr watcherMap :=
  match chans w !! ch with
  | None => Err NoSuchChan
  | Some c =>
      if ch_closed c then Panic
      else if buffered c <? watchChanBuf
           then Ok (set_chans w (<[ch := {| buffered := buffered c + 1; ch_closed := false |}]> (chans w)))
           else Ok (if metrics then drop_one w else w)
  end.

Fixpoint send_all (metrics : bool) (w : watcherMap) (chs : list nat) : result chanErr watcherMap :=
  match chs with
  | [] => Ok w
  | ch :: chs' => let! w := send metrics w ch in send_all metrics w chs'
  end.

Section notify.
(** The order in which [for prefix, chans := range w.watches] visits the map. *)
Context (watch_order : gmap bytes (list nat) → list (bytes * list nat)).

(** The channels a key is announced on, in the order they are visited. *)
Definition targets (w : watcherMap) (key : bytes) : list nat :=
  concat (map (fun p => if has_prefix p.1 key then p.2 else []) (watch_order (watches w))).

(** (w *watcherMap) notify *)
Definition notify (metrics : bool) (w : watcherMap) (key : bytes) : result chanErr watcherMap :=
  if w_closed w then Ok w else send_all metrics w (targets w key).

(** (w *watcherMap) NotifyBatch *)
Fixpoint notify_keys (metrics : bool) (w : watcherMap) (keys : list bytes) : result chanErr watcherMap :=
  match keys with
  | [] => Ok w
  | k :: keys' => let! w := notify metrics w k in notify_keys metrics w keys'
  end.

Definition NotifyBatch (metrics : bool) (w : watcherMap) (writes : list WriteEntry) : result chanErr watcherMap :=
  if decide (size (watches w) = 0%nat) then Ok w else notify_keys metrics w (map we_Key writes).
End notify.

(** A consumer takes a value from its channel, if there is one. *)
Definition receive (w : watcherMap) (ch : nat) : watcherMap :=
  match chans w !! ch with
  | Some c => if 0 <? buffered c
              then set_chans w (<[ch := {| buffered := buffered c - 1; ch_closed := ch_closed c |}]> (chans w))
              else w
  | None => w
  end.

(** ** The invariant *)

Definition open_chan (w : watcherMap) (ch : nat) : Prop :=
  ∃ c, chans w !! ch = Some c ∧ ch_closed c = false ∧ 0 <= buffered c <= watchChanBuf.

(** The goroutines' channels are pairwise different and open, and every
    registered channel belongs to a waiting goroutine. *)
Record winv (w : watcherMap) : Prop := {
  wi_nodup : NoDup ((waiting w).*2 ++ leaving w);
  wi_open : ∀ ch, ch ∈ (waiting w).*2 ++ leaving w → open_chan w ch;
  wi_watch : ∀ p chs ch, watches w !! p = Some chs → ch ∈ chs → (p, ch) ∈ waiting w;
  wi_once : ∀ p chs, watches w !! p = Some chs → NoDup chs;
  wi_done : done_closed w = w_closed w;
}.

(** *** Lists *)

Lemma remove_first_perm ch l : ch ∈ l → l ≡ₚ ch :: remove_first ch l.
Proof.
  induction l as [|c l IH]; intros Hin; [by apply elem_of_nil in Hin|]. simpl. case_decide as E; [by subst|].
  apply elem_of_cons in Hin as [->|Hin]; [done|]. rewrite (IH Hin) at 1. apply perm_swap.
Qed.

Lemma remove_pair_perm p l : p ∈ l → l ≡ₚ p :: remove_pair p l.
Proof.
  induction l as [|q l IH]; intros Hin; [by apply elem_of_nil in Hin|]. simpl. case_decide as E; [by subst|].
  apply elem_of_cons in Hin as [->|Hin]; [done|]. rewrite (IH Hin) at 1. apply perm_swap.
Qed.

Lemma elem_of_remove_first ch ch' l : ch' ∈ remove_first ch l → ch' ∈ l.
Proof.
  induction l as [|c l IH]; [done|]. simpl. case_decide; [intros ?; by right|].
  intros [->|Hin]%elem_of_cons; [by left|right; by apply IH].
Qed.

Lemma NoDup_remove_first ch l : NoDup l → NoDup (remove_first ch l) ∧ ch ∉ remove_first ch l.
Proof.
  induction 1 as [|c l Hc Hl [IH1 IH2]]; simpl; [split; [constructor|by intros ?%elem_of_nil]|].
  case_decide as E; [by subst|]. split.
  - constructor; [|done]. by intros ?%elem_of_remove_first.
  - by intros [->|?]%elem_of_cons.
Qed.

(** *** Channels *)

(** Steps that touch one channel leave the others open. *)
Lemma open_chan_insert w ch c ch' :
  (ch = ch' → ch_closed c = false ∧ 0 <= buffered c <= watchChanBuf) →
  open_chan w ch' → open_chan (set_chans w (<[ch := c]> (chans w))) ch'.
Proof.
  intros Hc (c' & Hl & Hcl & Hb). unfold open_chan. cbn [chans set_chans]. rewrite lookup_insert.
  case_decide as E; [|by exists c']. exists c. destruct (Hc E). done.
Qed.

(** A send keeps everything but the channel it sends on. *)
Lemma send_spec metrics w ch :
  open_chan w ch →
  ∃ w', send metrics w ch = Ok w' ∧ watches w' = watches w ∧ w_closed w' = w_closed w
    ∧ done_closed w' = done_closed w ∧ waiting w' = waiting w ∧ leaving w' = leaving w
    ∧ (∀ ch', open_chan w ch' → open_chan w' ch')
    ∧ (∀ ch', ch' ≠ ch → chans w' !! ch' = chans w !! ch')
    ∧ (∀ c, chans w !! ch = Some c →
         chans w' !! ch = Some {| buffered := Z.min watchChanBuf (buffered c + 1); ch_closed := false |}).
Proof.
  intros (c & Hl & Hcl & Hb). unfold send. rewrite Hl, Hcl.
  destruct (buffered c <? watchChanBuf) eqn:E.
  - eexists. split; [done|]. split_and!; try done.
    + intros ch' Ho. apply open_chan_insert; [|done]. intros _. simpl. lia.
    + intros ch' Hne. cbn. by apply lookup_insert_ne.
    + intros c' Hc'. assert (c' = c) as -> by congruence. cbn. rewrite lookup_insert, decide_True by done. do 2 f_equal. lia.
  - exists (if metrics then drop_one w else w). split; [done|].
    assert (chans (if metrics then drop_one w else w) = chans w) as Ec by by destruct metrics.
    split_and!; try by destruct metrics.
    intros c' Hc'. assert (c' = c) as -> by congruence. rewrite Ec, Hl. f_equal. destruct c as [b cl]. simpl in *. subst cl. f_equal. lia.
Qed.

Lemma send_all_spec metrics chs w :
  NoDup chs → (∀ ch, ch ∈ chs → open_chan w ch) →
  ∃ w', send_all metrics w chs = Ok w' ∧ watches w' = watches w ∧ w_closed w' = w_closed w
    ∧ done_closed w' = done_closed w ∧ waiting w' = waiting w ∧ leaving w' = leaving w
    ∧ (∀ ch', open_chan w ch' → open_chan w' ch')
    ∧ (∀ ch' c, chans w !! ch' = Some c →
         chans w' !! ch' = Some (if decide (ch' ∈ chs)
           then {| buffered := Z.min watchChanBuf (buffered c + 1); ch_closed := false |} else c)).
Proof.
  revert w. induction chs as [|ch chs IH]; intros w Hnd Ho; simpl.
  { exists w. split_and!; done. }
  apply NoDup_cons in Hnd as [Hni Hnd].
  destruct (send_spec metrics w ch) as (w1 & -> & E1 & E2 & E3 & E4 & E5 & Ho1 & Hne & Heq); [apply Ho; by left|].
  cbn [rbind]. destruct (IH w1 Hnd) as (w2 & -> & F1 & F2 & F3 & F4 & F5 & Ho2 & Hc2).
  { intros ch' Hin. apply Ho1, Ho. by right. }
  exists w2. rewrite F1, F2, F3, F4, F5, E1, E2, E3, E4, E5. split_and!; try done; [by auto|].
  intros ch' c Hc. destruct (decide (ch' = ch)) as [->|Hn].
  - rewrite (Hc2 ch _ (Heq c Hc)), decide_False, decide_True by (done || by left). done.
  - rewrite <- Hne in Hc by done. rewrite (Hc2 ch' c Hc).
    destruct (decide (ch' ∈ chs)); [rewrite decide_True by (by right)|rewrite decide_False by set_solver]; done.
Qed.

(** *** The steps keep the invariant *)

Lemma register_inv w prefix ch : winv w → chans w !! ch = None → winv (register w prefix ch).
Proof.
  intros Hi Hf. assert (ch ∉ (waiting w).*2 ++ leaving w) as Hn.
  { intros Hin. destruct (wi_open w Hi ch Hin) as (c & Hc & _). congruence. }
  assert (∀ ch' c, open_chan w ch' →
    open_chan (set_chans w (<[ch := c]> (chans w))) ch') as Hopen.
  { intros ch' c Ho. apply open_chan_insert; [|done]. intros ->. destruct Ho as (c' & Hc' & _). congruence. }
  destruct Hi as [H1 H2 H3 H4 H5]. unfold register. destruct (w_closed w) eqn:Ec.
  { split; cbn; try done; [|congruence]. intros ch' Hin. apply Hopen. by apply H2. }
  split; cbn; [| | | |congruence].
  - rewrite fmap_app. simpl. rewrite <- app_assoc. simpl.
    rewrite <- Permutation_middle. constructor; done.
  - intros ch' Hin. rewrite fmap_app in Hin. simpl in Hin.
    destruct (decide (ch' = ch)) as [->|Hne].
    + eexists. cbn. rewrite lookup_insert, decide_True by done. split; [done|]. unfold watchChanBuf. simpl. lia.
    + apply (Hopen ch' {| buffered := 0; ch_closed := false |}), H2. set_solver.
  - intros p chs ch' Hw Hin. rewrite lookup_insert in Hw. apply elem_of_app. case_decide as E.
    + simplify_eq. apply elem_of_app in Hin as [Hin|Hin%list_elem_of_singleton].
      * left. destruct (watches w !! p) eqn:Ew; [|by apply elem_of_nil in Hin]. by eapply H3.
      * right. subst. by left.
    + left. by eapply H3.
  - intros p chs Hw. rewrite lookup_insert in Hw. case_decide as E; [|by eapply H4]. simplify_eq.
    apply NoDup_app. split_and!; [destruct (watches w !! p) eqn:Ew; [by eapply H4|constructor]| |apply NoDup_singleton].
    intros ch' Hin ->%list_elem_of_singleton. destruct (watches w !! p) eqn:Ew; [|by apply elem_of_nil in Hin].
    apply Hn, elem_of_app. left. apply list_elem_of_fmap. exists (p, ch). split; [done|]. by eapply H3.
Qed.

(** The channels left under a prefix after the critical section. *)
Lemma deregister_watches w prefix ch p chs :
  winv w → watches (deregister w prefix ch) !! p = Some chs →
  ∃ chs0, watches w !! p = Some chs0 ∧ NoDup chs ∧ (∀ c, c ∈ chs → c ∈ chs0 ∧ (p, c) ≠ (prefix, ch)).
Proof.
  intros Hi Hw. unfold deregister in Hw. cbn in Hw.
  set (ws := if decide (ch ∈ _) then _ else _) in Hw.
  assert (ws !! p = Some chs) as Hws by (case_decide; [by apply lookup_delete_Some in Hw as [_ ?]|done]).
  clear Hw. subst ws. destruct (decide (p = prefix)) as [->|Hne].
  - case_decide as Hin.
    + rewrite lookup_insert, decide_True in Hws by done. injection Hws as <-.
      destruct (watches w !! prefix) as [chs0|] eqn:E; [|by apply elem_of_nil in Hin].
      exists chs0. split; [done|]. simpl.
      destruct (NoDup_remove_first ch chs0 (wi_once w Hi _ _ E)) as [Hnd Hn]. split; [done|].
      intros c Hc. split; [by eapply elem_of_remove_first|]. intros [= ->]. done.
    + exists chs. split; [done|]. split; [by eapply (wi_once w Hi)|]. intros c Hc. split; [done|].
      intros [= ->]. apply Hin. by rewrite Hws.
  - exists chs. assert (watches w !! p = Some chs) as E.
    { case_decide; [|done]. by rewrite lookup_insert_ne in Hws. }
    split; [done|]. split; [by eapply (wi_once w Hi)|]. intros c Hc. split; [done|]. congruence.
Qed.

Lemma deregister_inv w prefix ch : winv w → (prefix, ch) ∈ waiting w → winv (deregister w prefix ch).
Proof.
  intros Hi Hin. pose proof (remove_pair_perm (prefix, ch) (waiting w) Hin) as Hp.
  assert ((waiting (deregister w prefix ch)).*2 ++ leaving (deregister w prefix ch)
          ≡ₚ (waiting w).*2 ++ leaving w) as Hperm.
  { cbn. rewrite app_assoc, <- Permutation_cons_append.
    rewrite (Permutation_map snd Hp : (waiting w).*2 ≡ₚ _). done. }
  split.
  - rewrite Hperm. apply Hi.
  - intros ch' Hc. rewrite Hperm in Hc. apply (wi_open w Hi ch' Hc).
  - intros p chs c Hw Hc. destruct (deregister_watches w prefix ch p chs Hi Hw) as (chs0 & E & _ & Hsub).
    destruct (Hsub c Hc) as [Hc0 Hne]. pose proof (wi_watch w Hi p chs0 c E Hc0) as Hwt. cbn.
    rewrite Hp in Hwt. by apply elem_of_cons in Hwt as [?|?].
  - intros p chs Hw. by destruct (deregister_watches w prefix ch p chs Hi Hw) as (chs0 & _ & ? & _).
  - apply Hi.
Qed.

Lemma close_chan_inv w ch : winv w → ch ∈ leaving w → ∃ w', close_chan w ch = Ok w' ∧ winv w'.
Proof.
  intros Hi Hin. destruct (wi_open w Hi ch) as (c & Hc & Hcl & Hb); [apply elem_of_app; by right|].
  unfold close_chan. rewrite Hc, Hcl. eexists. split; [done|].
  pose proof (remove_first_perm ch (leaving w) Hin) as Hp. destruct Hi as [H1 H2 H3 H4 H5].
  assert (NoDup (ch :: (waiting w).*2 ++ remove_first ch (leaving w))) as Hnd.
  { rewrite Permutation_middle, <- Hp. done. }
  apply NoDup_cons in Hnd as [Hn Hnd]. split; cbn; try done.
  intros ch' Hin'. destruct (H2 ch') as (c' & Hc' & Ho).
  { rewrite elem_of_app in Hin' |- *. destruct Hin' as [?|?%elem_of_remove_first]; [by left|by right]. }
  exists c'. cbn. rewrite lookup_insert_ne by (intros ->; done). done.
Qed.

Lemma winv_chans w w' :
  winv w → watches w' = watches w → w_closed w' = w_closed w → done_closed w' = done_closed w →
  waiting w' = waiting w → leaving w' = leaving w → (∀ ch, open_chan w ch → open_chan w' ch) → winv w'.
Proof.
  intros [] E1 E2 E3 E4 E5 Ho. split; rewrite ?E1, ?E2, ?E3, ?E4, ?E5; try done.
  intros ch Hin. apply Ho. by apply wi_open0.
Qed.

Lemma receive_inv w ch : winv w → winv (receive w ch).
Proof.
  intros Hi. unfold receive. destruct (chans w !! ch) as [c|] eqn:Ec; [|done].
  destruct (0 <? buffered c) eqn:E; [|done]. apply (winv_chans w); try done. intros ch' Ho.
  apply open_chan_insert; [|done]. intros <-. destruct Ho as (c' & Hc' & Hcl & Hb). simplify_eq. simpl. split; [done|lia].
Qed.

Section safety.
Context (watch_order : gmap bytes (list nat) → list (bytes * list nat)).
Context (watch_order_perm : ∀ m, watch_order m ≡ₚ map_to_list m).

Lemma elem_of_targets w key ch :
  ch ∈ targets watch_order w key ↔ ∃ p chs, watches w !! p = Some chs ∧ ch ∈ chs ∧ has_prefix p key = true.
Proof.
  unfold targets. rewrite list_elem_of_In, in_concat. setoid_rewrite in_map_iff. split.
  - intros (r & ([p chs] & <- & Hp) & Hin). simpl in Hin. destruct (has_prefix p key) eqn:E; [|done].
    apply list_elem_of_In in Hp, Hin. rewrite watch_order_perm in Hp. apply elem_of_map_to_list in Hp.
    by exists p, chs.
  - intros (p & chs & Hw & Hin & Hpre). exists chs. split; [|by apply list_elem_of_In].
    exists (p, chs). simpl. rewrite Hpre. split; [done|].
    apply list_elem_of_In. rewrite watch_order_perm. by apply elem_of_map_to_list.
Qed.

Lemma waiting_unique w p p' ch : winv w → (p, ch) ∈ waiting w → (p', ch) ∈ waiting w → p = p'.
Proof.
  intros Hi. pose proof (wi_nodup w Hi) as Hnd. apply NoDup_app in Hnd as [Hnd _]. revert Hnd.
  induction (waiting w) as [|[q c] l IH]; simpl; intros Hnd H1 H2; [by apply elem_of_nil in H1|].
  apply NoDup_cons in Hnd as [Hc Hnd].
  assert (∀ x, (x, c) ∈ l → False) as Hno by (intros x Hx; apply Hc, list_elem_of_fmap; by exists (x, c)).
  apply elem_of_cons in H1 as [H1|H1], H2 as [H2|H2]; simplify_eq; try done; [by apply Hno in H2|by apply Hno in H1|].
  by apply IH.
Qed.

Lemma NoDup_targets w key : winv w → NoDup (targets watch_order w key).
Proof.
  intros Hi. unfold targets.
  assert (∀ p chs, (p, chs) ∈ watch_order (watches w) → watches w !! p = Some chs) as Hl.
  { intros p chs Hin. rewrite watch_order_perm in Hin. by apply elem_of_map_to_list. }
  assert (NoDup (watch_order (watches w)).*1) as Hnd.
  { eapply NoDup_Permutation_proper; [apply Permutation_map, watch_order_perm|]. apply NoDup_fst_map_to_list. }
  induction (watch_order (watches w)) as [|[p chs] l IH]; [constructor|]. simpl in Hnd |- *.
  apply NoDup_cons in Hnd as [Hp Hnd]. apply NoDup_app. split_and!.
  - destruct (has_prefix p key); [|constructor]. eapply (wi_once w Hi). apply Hl. by left.
  - intros ch Hin Hin'. destruct (has_prefix p key); [|by apply elem_of_nil in Hin].
    apply list_elem_of_In, in_concat in Hin' as (r & ([p' chs'] & <- & Hp')%in_map_iff & Hin').
    apply list_elem_of_In in Hp', Hin'. simpl in Hin'. destruct (has_prefix p' key); [|by apply elem_of_nil in Hin'].
    pose proof (wi_watch w Hi p chs ch (Hl p chs ltac:(by left)) Hin) as H1.
    pose proof (wi_watch w Hi p' chs' ch (Hl p' chs' ltac:(by right)) Hin') as H2.
    rewrite (waiting_unique w p p' ch Hi H1 H2) in Hp. apply Hp, list_elem_of_fmap. by exists (p', chs').
  - apply IH; [|done]. intros p' chs' Hin. apply Hl. by right.
Qed.

Lemma target_open w key ch : winv w → ch ∈ targets watch_order w key → open_chan w ch.
Proof.
  intros Hi (p & chs & Hw & Hin & _)%elem_of_targets. apply (wi_open w Hi), elem_of_app. left.
  apply list_elem_of_fmap. exists (p, ch). split; [done|]. by eapply (wi_watch w Hi).
Qed.

(** The steps of the component and of its environment; a step that fails or
    panics has the error as its result. *)
Inductive wstep (w : watcherMap) : result chanErr watcherMap → Prop :=
  | w_register prefix ch : chans w !! ch = None → wstep w (Ok (register w prefix ch))
  | w_deregister prefix ch : (prefix, ch) ∈ waiting w → wstep w (Ok (deregister w prefix ch))
  | w_close ch : ch ∈ leaving w → wstep w (close_chan w ch)
  | w_closeAll : wstep w (closeAll w)
  | w_notify metrics key : wstep w (notify watch_order metrics w key)
  | w_notifyBatch metrics writes : wstep w (NotifyBatch watch_order metrics w writes)
  | w_receive ch : wstep w (Ok (receive w ch)).

Lemma notify_inv metrics w key : winv w → ∃ w', notify watch_order metrics w key = Ok w' ∧ winv w'.
Proof.
  intros Hi. unfold notify. destruct (w_closed w); [by eexists|].
  destruct (send_all_spec metrics (targets watch_order w key) w) as (w' & -> & E1 & E2 & E3 & E4 & E5 & Ho & _).
  - by apply NoDup_targets.
  - intros ch Hin. by eapply target_open.
  - exists w'. split; [done|]. by apply (winv_chans w).
Qed.

Lemma notify_keys_inv metrics keys w :
  winv w → ∃ w', notify_keys watch_order metrics w keys = Ok w' ∧ winv w'.
Proof.
  revert w. induction keys as [|k keys IH]; intros w Hi; simpl; [by eexists|].
  destruct (notify_inv metrics w k Hi) as (w1 & -> & Hi1). cbn [rbind]. by apply IH.
Qed.

Lemma wstep_inv w r : winv w → wstep w r → ∃ w', r = Ok w' ∧ winv w'.
Proof.
  intros Hi [prefix ch Hf|prefix ch Hin|ch Hin| |metrics key|metrics writes|ch].
  - eexists. split; [done|]. by apply register_inv.
  - eexists. split; [done|]. by apply deregister_inv.
  - by apply close_chan_inv.
  - unfold closeAll. destruct (w_closed w) eqn:Ec; [by eexists|].
    rewrite (wi_done w Hi), Ec. eexists. split; [done|]. destruct Hi. by split.
  - by apply notify_inv.
  - unfold NotifyBatch. case_decide; [by eexists|]. by apply notify_keys_inv.
  - eexists. split; [done|]. by apply receive_inv.
Qed.

(** C37. Watch channels are handled safely in every execution: from a fresh
    [watcherMap], through any interleaving of registrations, cancellations,
    notifications, receives and shutdown, no step sends on a closed channel,
    closes one twice, or fails otherwise. *)
Theorem watch_never_panics w r :
  rtc (fun a b => wstep a (Ok b)) newWatcherMap w → wstep w r → ∃ w', r = Ok w'.
Proof.
  intros Hr Hs. assert (winv w) as Hi.
  { assert (winv newWatcherMap) as H0.
    { split; cbn; try done; [constructor|by intros ch ?%elem_of_nil|..]; intros; by simplify_map_eq. }
    revert H0. induction Hr as [|a b w Hab _ IH]; intros H0; [done|].
    apply IH; [done|]. destruct (wstep_inv a (Ok b) H0 Hab) as (b' & [= <-] & ?). done. }
  destruct (wstep_inv w r Hi Hs) as (w' & -> & _). by exists w'.
Qed.

(** A notification reaches exactly the watchers of its key's prefixes: on
    an open map every channel registered for a prefix of the key gains one
    buffered value unless its buffer is full, and no other channel changes. *)
Theorem notify_delivers metrics w key :
  winv w → w_closed w = false →
  ∃ w', notify watch_order metrics w key = Ok w' ∧ winv w' ∧
    ∀ p chs ch c, watches w !! p = Some chs → ch ∈ chs → chans w !! ch = Some c →
      chans w' !! ch = Some (if has_prefix p key
        then {| buffered := Z.min watchChanBuf (buffered c + 1); ch_closed := false |} else c).
Proof.
  intros Hi Hc. unfold notify. rewrite Hc.
  destruct (send_all_spec metrics (targets watch_order w key) w) as (w' & -> & E1 & E2 & E3 & E4 & E5 & Ho & Hch).
  { by apply NoDup_targets. }
  { intros ch Hin. by eapply target_open. }
  exists w'. split; [done|]. split; [by apply (winv_chans w)|].
  intros p chs ch c Hw Hin Hl. rewrite (Hch ch c Hl). f_equal.
  destruct (has_prefix p key) eqn:Ep; [rewrite decide_True; [done|]; apply elem_of_targets; eauto|].
  rewrite decide_False; [done|]. intros (p' & chs' & Hw' & Hin' & Ep')%elem_of_targets.
  rewrite (waiting_unique w p p' ch Hi (wi_watch w Hi _ _ _ Hw Hin) (wi_watch w Hi _ _ _ Hw' Hin')) in Ep.
  congruence.
Qed.
End safety.

(** ** A concrete map *)

Definition one_watcher : watcherMap := register newWatcherMap (bs "user:") 0.

Lemma watch_list_perm (m : gmap bytes (list nat)) : map_to_list m ≡ₚ map_to_list m.
Proof. done. Qed.

Lemma watch_never_panics_witness :
  ∃ w', notify map_to_list true one_watcher (bs "user:1") = Ok w'.
Proof.
  apply (watch_never_panics map_to_list watch_list_perm one_watcher).
  - apply rtc_once. apply w_register. vm_compute. reflexivity.
  - apply w_notify.
Defined.

Lemma notify_delivers_witness :
  ∃ w', notify map_to_list true one_watcher (bs "user:1") = Ok w'
    ∧ chans w' !! 0%nat = Some {| buffered := 1; ch_closed := false |}.
Proof.
  destruct (notify_delivers map_to_list watch_list_perm true one_watcher (bs "user:1")) as (w' & E & _ & H).
  - apply (register_inv newWatcherMap); [|vm_compute; reflexivity].
    split; cbn; try done; [constructor|intros ch ?%elem_of_nil; done|..]; intros; by simplify_map_eq.
  - reflexivity.
  - exists w'. split; [exact E|].
    rewrite (H (bs "user:") [0%nat] 0%nat {| buffered := 0; ch_closed := false |});
      [vm_compute; reflexivity|vm_compute; reflexivity|left|vm_compute; reflexivity].
Defined.
