(* ===== verification/Telemetry.v ===== *)
(** * Stage timers (src/shared/telemetry.go)

    [StageTimer] is updated by any number of goroutines without a lock: each call
    of Record is a sequence of atomic operations with two compare-and-swap loops,
    interleaved here at every atomic operation. *)

From S2P Require Import Prelude.

Record StageTimer := { sumNs : Z; count : Z; minNs : Z; maxNs : Z }.

Definition zero_timer : StageTimer := {| sumNs := 0; count := 0; minNs := 0; maxNs := 0 |}.

Definition set_min (t : StageTimer) (z : Z) : StageTimer :=
  {| sumNs := sumNs t; count := count t; minNs := z; maxNs := maxNs t |}.
Definition set_max (t : StageTimer) (z : Z) : StageTimer :=
  {| sumNs := sumNs t; count := count t; minNs := minNs t; maxNs := z |}.

(** Where a goroutine is in Record: before the atomic operation named. *)
Inductive pc := AddSum | AddCount | LoadMin | CasMin (cur : Z) | LoadMax | CasMax (cur : Z) | Returned.

#[export] Instance pc_eq_dec : EqDecision pc.
Proof. solve_decision. Defined.

(** (s *StageTimer) Record: the next atomic operation of a call with [ns]. *)
Definition record_step (t : StageTimer) (ns : Z) (p : pc) : StageTimer * pc :=
  match p with
  | AddSum => ({| sumNs := i64 (sumNs t + ns); count := count t; minNs := minNs t; maxNs := maxNs t |}, AddCount)
  | AddCount => ({| sumNs := sumNs t; count := i64 (count t + 1); minNs := minNs t; maxNs := maxNs t |}, LoadMin)
  | LoadMin => (t, if negb (minNs t =? 0) && (minNs t <=? ns) then LoadMax else CasMin (minNs t))
  | CasMin cur => if minNs t =? cur then (set_min t ns, LoadMax) else (t, LoadMin)
  | LoadMax => (t, if ns <=? maxNs t then Returned else CasMax (maxNs t))
  | CasMax cur => if maxNs t =? cur then (set_max t ns, Returned) else (t, LoadMax)
  | Returned => (t, Returned)
  end.

(** Count, Mean, Min, Max *)
Definition Count (t : StageTimer) : Z := count t.
Definition Mean (t : StageTimer) : Z := if count t =? 0 then 0 else Z.quot (sumNs t) (count t).
Definition Min (t : StageTimer) : Z := minNs t.
Definition Max (t : StageTimer) : Z := maxNs t.

(** A call of Record without interference. *)
Fixpoint run_record (fuel : nat) (t : StageTimer) (ns : Z) (p : pc) : StageTimer :=
  match fuel with
  | O => t
  | S fuel => let '(t, p) := record_step t ns p in run_record fuel t ns p
  end.
Definition Record_alone (t : StageTimer) (ns : Z) : StageTimer := run_record 6 t ns AddSum.

(** ** Interleavings *)

Abbreviation calls := (list (Z * pc)).

Inductive tstep : StageTimer * calls → StageTimer * calls → Prop :=
  | t_call t cs ns : 0 < ns < 2 ^ 63 → tstep (t, cs) (t, cs ++ [(ns, AddSum)])
  | t_move t cs i ns p t' p' :
      cs !! i = Some (ns, p) → record_step t ns p = (t', p') → tstep (t, cs) (t', <[i := (ns, p')]> cs).

Definition past_sum (p : pc) : bool := match p with AddSum => false | _ => true end.
Definition past_count (p : pc) : bool := match p with AddSum | AddCount => false | _ => true end.
Definition past_min (p : pc) : bool := match p with LoadMax | CasMax _ | Returned => true | _ => false end.

Definition total (f : pc → bool) (g : Z → Z) (cs : calls) : Z :=
  foldr (fun c acc => (if f c.2 then g c.1 else 0) + acc) 0 cs.

Record tinv (t : StageTimer) (cs : calls) : Prop := {
  ti_pos : Forall (fun c => 0 < c.1 < 2 ^ 63) cs;
  ti_sum : sumNs t = i64 (total past_sum (fun ns => ns) cs);
  ti_count : count t = i64 (total past_count (fun _ => 1) cs);
  ti_min_in : minNs t = 0 ∨ minNs t ∈ cs.*1;
  ti_min : ∀ ns p, (ns, p) ∈ cs → past_min p = true → 0 < minNs t <= ns;
  ti_max_in : maxNs t = 0 ∨ maxNs t ∈ cs.*1;
  ti_max : ∀ ns, (ns, Returned) ∈ cs → ns <= maxNs t;
  ti_cas_min : ∀ ns cur, (ns, CasMin cur) ∈ cs → cur = 0 ∨ ns < cur;
  ti_cas_max : ∀ ns cur, (ns, CasMax cur) ∈ cs → cur < ns;
}.

Lemma total_app f g a b : total f g (a ++ b) = total f g a + total f g b.
Proof. induction a as [|c a IH]; simpl; [done|]. unfold total in *. simpl in IH. lia. Qed.

(** Moving one call changes a total by that call's share. *)
Lemma total_insert f g (cs : calls) i ns p p' :
  cs !! i = Some (ns, p) →
  total f g (<[i := (ns, p')]> cs)
  = total f g cs + (if f p' then g ns else 0) - (if f p then g ns else 0).
Proof.
  intros Hi. rewrite <- (take_drop_middle cs i (ns, p) Hi) at 2.
  rewrite insert_take_drop by by eapply lookup_lt_Some.
  rewrite !total_app. unfold total. simpl. lia.
Qed.

Lemma fst_insert (cs : calls) i ns p p' : cs !! i = Some (ns, p) → (<[i := (ns, p')]> cs).*1 = cs.*1.
Proof. intros Hi. rewrite list_fmap_insert. apply list_insert_id. by rewrite list_lookup_fmap, Hi. Qed.

(** The other calls stay where they are. *)
Lemma elem_of_moved (cs : calls) i ns p p' c :
  cs !! i = Some (ns, p) → c ∈ <[i := (ns, p')]> cs → c = (ns, p') ∨ c ∈ cs.
Proof.
  intros Hi [j Hj]%list_elem_of_lookup. apply list_lookup_insert_Some in Hj as [(-> & <- & _)|[_ Hj]]; [by left|].
  right. by eapply list_elem_of_lookup_2.
Qed.

Lemma tinv_move t t' cs i ns p p' :
  tinv t cs → cs !! i = Some (ns, p) →
  sumNs t' = i64 (sumNs t + ((if past_sum p' then ns else 0) - (if past_sum p then ns else 0))) →
  count t' = i64 (count t + ((if past_count p' then 1 else 0) - (if past_count p then 1 else 0))) →
  minNs t' = minNs t ∨ (minNs t' = ns ∧ (minNs t = 0 ∨ ns < minNs t)) →
  (past_min p' = true → 0 < minNs t' <= ns) →
  maxNs t' = maxNs t ∨ (maxNs t' = ns ∧ maxNs t < ns) →
  (p' = Returned → ns <= maxNs t') →
  (∀ cur, p' = CasMin cur → cur = 0 ∨ ns < cur) → (∀ cur, p' = CasMax cur → cur < ns) →
  tinv t' (<[i := (ns, p')]> cs).
Proof.
  intros [H1 H2 H3 H4 H5 H6 H7 H8 H9] Hi Es Ec Emin Hmin Emax Hmax Hcm Hcx.
  pose proof (list_elem_of_lookup_2 _ _ _ Hi) as Hin.
  assert (0 < ns < 2 ^ 63) as Hns by (rewrite Forall_forall in H1; by apply (H1 (ns, p))).
  assert (ns ∈ cs.*1) as Hn1 by (apply list_elem_of_fmap; by exists (ns, p)).
  assert (∀ c, c ∈ <[i := (ns, p')]> cs → c = (ns, p') ∨ c ∈ cs) as Hel by (intros c; by apply elem_of_moved with p).
  split; rewrite ?(fst_insert cs i ns p p' Hi).
  - apply Forall_forall. intros c [->|Hc]%Hel; [done|]. rewrite Forall_forall in H1. by apply H1.
  - rewrite Es, H2, (total_insert _ _ _ _ _ _ _ Hi), i64_add_l. f_equal. lia.
  - rewrite Ec, H3, (total_insert _ _ _ _ _ _ _ Hi), i64_add_l. f_equal. lia.
  - destruct Emin as [->|[-> _]]; [done|by right].
  - intros ns' q [[= -> ->]|Hc]%Hel Hq; [by apply Hmin|]. destruct (H5 ns' q Hc Hq).
    destruct Emin as [->|[-> [?|?]]]; lia.
  - destruct Emax as [->|[-> _]]; [done|by right].
  - intros ns' [[= -> <-]|Hc]%Hel; [by apply Hmax|]. pose proof (H7 ns' Hc). destruct Emax as [->|[-> ?]]; lia.
  - intros ns' cur [[= -> <-]|Hc]%Hel; [by apply Hcm|by eapply H8].
  - intros ns' cur [[= -> <-]|Hc]%Hel; [by apply Hcx|by eapply H9].
Qed.

Lemma record_step_inv t cs i ns p t' p' :
  tinv t cs → cs !! i = Some (ns, p) → record_step t ns p = (t', p') → tinv t' (<[i := (ns, p')]> cs).
Proof.
  intros Hi Hl Hs. pose proof Hi as [H1 H2 H3 H4 H5 H6 H7 H8 H9].
  pose proof (list_elem_of_lookup_2 _ _ _ Hl) as Hin.
  assert (0 < ns < 2 ^ 63) as Hns by (rewrite Forall_forall in H1; by apply (H1 (ns, p))).
  assert (i64 (sumNs t) = sumNs t ∧ i64 (count t) = count t) as [Es Ec].
  { rewrite H2, H3. split; apply i64_small, i64_range. }
  assert (0 <= minNs t ∧ 0 <= maxNs t) as [Hmn Hmx].
  { assert (∀ z, z ∈ cs.*1 → 0 < z) as Hp.
    { intros z ([n q] & -> & Hz)%list_elem_of_fmap. rewrite Forall_forall in H1. by apply (H1 (n, q)) in Hz as [? _]. }
    destruct H4 as [->|?%Hp], H6 as [->|?%Hp]; lia. }
  destruct p as [| | |cur| |cur|]; simpl in Hs.
  - injection Hs as <- <-. apply (tinv_move t _ cs i ns AddSum); cbn; try done; [| |by left|by left].
    + by rewrite Z.sub_0_r.
    + by rewrite Z.add_0_r.
  - injection Hs as <- <-. apply (tinv_move t _ cs i ns AddCount); cbn; try done; [|by left|by left].
    by rewrite Z.sub_diag, Z.add_0_r.
  - destruct (negb _ && _) eqn:E; injection Hs as <- <-; apply (tinv_move t t cs i ns LoadMin); cbn; try done;
      rewrite ?Z.sub_diag, ?Z.add_0_r; try done; try (by left).
    + intros _. lia.
    + intros cur [= <-]. destruct (decide (minNs t = 0)); [by left|right; lia].
  - destruct (minNs t =? cur) eqn:E; injection Hs as <- <-; apply (tinv_move t _ cs i ns (CasMin cur)); cbn; try done;
      rewrite ?Z.sub_diag, ?Z.add_0_r; try done; try (by left).
    + right. split; [done|]. destruct (H8 ns cur Hin); [left|right]; lia.
    + intros _. lia.
  - destruct (H5 ns LoadMax Hin eq_refl). destruct (ns <=? maxNs t) eqn:E; injection Hs as <- <-;
      apply (tinv_move t t cs i ns LoadMax); cbn; try done; rewrite ?Z.sub_diag, ?Z.add_0_r; try done; try (by left).
    + intros _. lia.
    + intros cur [= <-]. lia.
  - destruct (H5 ns (CasMax cur) Hin eq_refl). destruct (maxNs t =? cur) eqn:E; injection Hs as <- <-;
      apply (tinv_move t _ cs i ns (CasMax cur)); cbn; try done; rewrite ?Z.sub_diag, ?Z.add_0_r; try done; try (by left).
    right. split; [done|]. pose proof (H9 ns cur Hin). lia.
  - injection Hs as <- <-. by rewrite list_insert_id.
Qed.

Lemma tstep_inv t cs t' cs' : tinv t cs → tstep (t, cs) (t', cs') → tinv t' cs'.
Proof.
  intros Hi Hs. inversion Hs; subst; [|by eapply record_step_inv].
  destruct Hi as [H1 H2 H3 H4 H5 H6 H7 H8 H9].
  assert (∀ c, c ∈ cs ++ [(ns, AddSum)] → c ∈ cs ∨ c = (ns, AddSum)) as Hel.
  { intros c [?|?%list_elem_of_singleton]%elem_of_app; [by left|by right]. }
  split; rewrite ?fmap_app, ?total_app; cbn [total foldr past_sum past_count fst snd]; rewrite ?Z.add_0_r; try done.
  - apply Forall_app. split; [done|]. by constructor.
  - rewrite elem_of_app. tauto.
  - intros n p [?|[= -> ->]]%Hel; [by eapply H5|done].
  - rewrite elem_of_app. tauto.
  - intros n [?|[=]]%Hel. by apply H7.
  - intros n cur [?|[=]]%Hel. by eapply H8.
  - intros n cur [?|[=]]%Hel. by eapply H9.
Qed.

Lemma treach_inv s : rtc tstep (zero_timer, []) s → tinv s.1 s.2.
Proof.
  apply (rtc_ind_r (fun s => tinv s.1 s.2)).
  - split; cbn; try done; try (by left); try (by intros ? ?%elem_of_nil); by intros ? ? ?%elem_of_nil.
  - intros [t cs] [t' cs'] _ Hs Hi. by eapply tstep_inv.
Qed.

(** *** Progress *)

(** A call at [p] that runs alone returns within [k] operations. *)
Definition returns (k : nat) (t : StageTimer) (ns : Z) (p : pc) : Prop :=
  ∃ n t', (n ≤ k)%nat ∧ Nat.iter n (fun s => record_step s.1 ns s.2) (t, p) = (t', Returned).

Lemma returns_step k t ns p t1 p1 :
  record_step t ns p = (t1, p1) → returns k t1 ns p1 → returns (S k) t ns p.
Proof.
  intros Hs (n & t' & Hn & Hit). exists (S n), t'. split; [lia|]. rewrite Nat.iter_succ_r. simpl. by rewrite Hs.
Qed.

Lemma returns_le k k' t ns p : (k ≤ k')%nat → returns k t ns p → returns k' t ns p.
Proof. intros Hk (n & t' & Hn & Hit). exists n, t'. split; [lia|done]. Qed.

Lemma returned k t ns : returns k t ns Returned.
Proof. exists 0%nat, t. split; [lia|done]. Qed.

Lemma call_returns t ns p : returns 6 t ns p.
Proof.
  assert (∀ u, returns 2 u ns LoadMax) as Hmax.
  { intros u. destruct (ns <=? maxNs u) eqn:E.
    - eapply returns_step; [by cbn; rewrite E|apply returned].
    - eapply returns_step; [by cbn; rewrite E|]. eapply returns_step; [by cbn; rewrite Z.eqb_refl|apply returned]. }
  assert (∀ u, returns 4 u ns LoadMin) as Hmin.
  { intros u. destruct (negb (minNs u =? 0) && (minNs u <=? ns)) eqn:E.
    - eapply returns_step; [by cbn; rewrite E|]. by apply (returns_le 2); [lia|].
    - eapply returns_step; [by cbn; rewrite E|]. eapply returns_step; [by cbn; rewrite Z.eqb_refl|apply Hmax]. }
  destruct p as [| | |cur| |cur|].
  - eapply returns_step; [done|]. eapply returns_step; [done|apply Hmin].
  - apply (returns_le 5); [lia|]. eapply returns_step; [done|apply Hmin].
  - by apply (returns_le 4); [lia|].
  - apply (returns_le 5); [lia|]. destruct (minNs t =? cur) eqn:E.
    + eapply returns_step; [by cbn; rewrite E|]. by apply (returns_le 2); [lia|].
    + eapply returns_step; [by cbn; rewrite E|apply Hmin].
  - by apply (returns_le 2); [lia|].
  - apply (returns_le 3); [lia|]. destruct (maxNs t =? cur) eqn:E.
    + eapply returns_step; [by cbn; rewrite E|apply returned].
    + eapply returns_step; [by cbn; rewrite E|apply Hmax].
  - apply returned.
Qed.

Lemma call_completes t cs i ns p :
  cs !! i = Some (ns, p) → ∃ t', rtc tstep (t, cs) (t', <[i := (ns, Returned)]> cs).
Proof.
  intros Hi. destruct (call_returns t ns p) as (n & t' & _ & Hit). exists t'. revert t p cs Hi Hit.
  induction n as [|n IH]; intros t p cs Hi Hit.
  - injection Hit as -> ->. by rewrite list_insert_id.
  - rewrite Nat.iter_succ_r in Hit. simpl in Hit. destruct (record_step t ns p) as [t1 p1] eqn:E.
    eapply rtc_l; [by eapply t_move|]. pose proof (lookup_lt_Some _ _ _ Hi).
    specialize (IH t1 p1 (<[i := (ns, p1)]> cs)). rewrite list_insert_insert_eq in IH.
    apply IH; [by apply list_lookup_insert_eq|done].
Qed.

Lemma all_complete t cs : ∃ t', rtc tstep (t, cs) (t', map (fun c => (c.1, Returned)) cs).
Proof.
  assert (∀ done todo t, ∃ t', rtc tstep (t, map (fun c => (c.1, Returned)) done ++ todo)
    (t', map (fun c => (c.1, Returned)) (done ++ todo))) as Hall; [|by apply (Hall [])].
  clear. intros d todo. revert d. induction todo as [|[ns p] todo IH]; intros d t.
  { exists t. by rewrite !app_nil_r. }
  set (pre := map (fun c : Z * pc => (c.1, Returned)) d).
  destruct (call_completes t (pre ++ (ns, p) :: todo) (length pre) ns p) as (t1 & H1).
  { by rewrite lookup_app_r, Nat.sub_diag by lia. }
  rewrite insert_app_r_alt, Nat.sub_diag in H1 by lia. simpl in H1.
  destruct (IH (d ++ [(ns, p)]) t1) as (t2 & H2).
  exists t2. etrans; [exact H1|]. rewrite map_app, <- !app_assoc in H2. exact H2.
Qed.

(** C40. StageTimer is exact under any interleaving of Record calls with positive
    durations: when all calls have returned, the count and the sum (modulo 2^64)
    are those of the observations, Min is the least and Max the greatest of them;
    and from every reachable state the calls under way can all return. *)
Theorem stage_timer_exact (t : StageTimer) (cs : list (Z * pc)) :
  rtc tstep (zero_timer, []) (t, cs) →
  (∃ t', rtc tstep (t, cs) (t', map (fun c => (c.1, Returned)) cs)) ∧
  (cs ≠ [] → Forall (fun c => c.2 = Returned) cs →
   Count t = i64 (Z.of_nat (length cs)) ∧ sumNs t = i64 (foldr Z.add 0 cs.*1)
   ∧ Min t ∈ cs.*1 ∧ Forall (fun ns => Min t <= ns) cs.*1
   ∧ Max t ∈ cs.*1 ∧ Forall (fun ns => ns <= Max t) cs.*1).
Proof.
  intros Hr. split; [apply all_complete|]. intros Hne Hret.
  destruct (treach_inv _ Hr) as [H1 H2 H3 H4 H5 H6 H7 _ _]. cbn [fst snd] in *.
  rewrite Forall_forall in Hret. assert (∀ ns, ns ∈ cs.*1 → (ns, Returned) ∈ cs) as Hel.
  { intros ns ([n p] & -> & Hin)%list_elem_of_fmap. pose proof (Hret _ Hin) as Hp. simpl in *. by subst p. }
  assert (∃ ns, ns ∈ cs.*1 ∧ 0 < ns) as (ns0 & Hns0 & Hpos).
  { destruct cs as [|[n p] cs']; [done|]. exists n. apply Forall_cons in H1 as [[? _] _]. split; [by left|done]. }
  split_and!.
  - unfold Count. rewrite H3. f_equal. clear -Hret. induction cs as [|[n p] cs IH]; [done|]. unfold total in *.
    cbn [foldr fst snd length]. rewrite IH by (intros c Hc; apply Hret; by right).
    assert (p = Returned) as -> by (apply (Hret (n, p)); by left). simpl. lia.
  - rewrite H2. f_equal. clear -Hret. induction cs as [|[n p] cs IH]; [done|]. unfold total in *.
    cbn [foldr fst snd fmap list_fmap]. rewrite IH by (intros c Hc; apply Hret; by right).
    assert (p = Returned) as -> by (apply (Hret (n, p)); by left). done.
  - destruct H4 as [H0|?]; [|done]. pose proof (H5 ns0 Returned (Hel _ Hns0) eq_refl). lia.
  - apply Forall_forall. intros ns Hns%Hel. by destruct (H5 ns Returned Hns eq_refl).
  - destruct H6 as [H0|?]; [|done]. pose proof (H7 ns0 (Hel _ Hns0)). lia.
  - apply Forall_forall. intros ns Hns%Hel. by apply H7.
Qed.

Lemma stage_timer_exact_witness :
  ∃ t, rtc tstep (zero_timer, [(5, AddSum); (3, AddSum)]) (t, [(5, Returned); (3, Returned)]) ∧ Min t ∈ [5; 3].
Proof.
  assert (rtc tstep (zero_timer, []) (zero_timer, [(5, AddSum); (3, AddSum)])) as Hr.
  { eapply rtc_l; [apply (t_call zero_timer [] 5); lia|]. apply rtc_once. apply (t_call zero_timer [_] 3). lia. }
  destruct (stage_timer_exact zero_timer [(5, AddSum); (3, AddSum)] Hr) as [(t & Ht) _].
  exists t. split; [exact Ht|].
  destruct (stage_timer_exact t [(5, Returned); (3, Returned)]) as [_ Hx]; [etrans; [exact Hr|exact Ht]|].
  destruct Hx as (_ & _ & Hm & _); [discriminate|by repeat constructor|exact Hm].
Defined.

(** A zero duration is not a minimum for StageTimer: zero also marks an
    empty timer, so after observations of 0 and 5 nanoseconds Min reports 5. *)
Theorem zero_duration_forgotten :
  let t := Record_alone (Record_alone zero_timer 0) 5 in Count t = 2 ∧ Min t = 5 ∧ Max t = 5.
Proof. vm_compute. done. Qed.
