(* ===== verification/Stages.v ===== *)
(** * The stages of the pipeline (src/shared/telemetry.go)

    [Telemetry] has a [StageTimer] per stage; Print tabulates the stages that were
    observed, with durations rounded to microseconds. The layout of the columns is
    in LabReport.v. *)

From S2P Require Import Prelude Telemetry.

(** The fields of [Telemetry]. *)
Inductive stage :=
  | GetSnapshot | Speculate | Marshal | Propose
  | ConflictDetect | ApplyProposal | EngineApply
  | BatcherWait | BatcherFlushSize
  | DirectSubmit | DirectAccumulate | DirectRoundTrip
  | EngineSync | SnapshotCreate | IterMaterialise
  | TxValidate | TxReadSetCopy | RetryBackoff
  | WatchNotify | WatchChannelSend
  | EngineOpen | KeyEpochRebuild | RaftBootstrap
  | ShutdownRaft | ShutdownEngine
  | Clone.

#[export] Instance stage_eq_dec : EqDecision stage.
Proof. solve_decision. Defined.

Abbreviation Telemetry := (stage → StageTimer).

Definition record_stage (s : stage) (t : Telemetry) (d : Z) : Telemetry :=
  fun s' => if decide (s' = s) then Record_alone (t s) d else t s'.

(** RecordClone, RecordIterMaterialise: the engines' [StageRecorder]. *)
Definition RecordClone (t : Telemetry) (d : Z) : Telemetry := record_stage Clone t d.
Definition RecordIterMaterialise (t : Telemetry) (d : Z) : Telemetry := record_stage IterMaterialise t d.

(** (d Duration) Round of package time *)
Definition Round (d m : Z) : Z :=
  if m <=? 0 then d
  else
    let r := Z.rem d m in
    if d <? 0 then
      let r := - r in
      if u64 (r + r) <? m then d + r
      else let d1 := i64 (d - m + r) in if d1 <? d then d1 else - 2 ^ 63
    else
      if u64 (r + r) <? m then d - r
      else let d1 := i64 (d + m - r) in if d <? d1 then d1 else 2 ^ 63 - 1.

(** (t *Telemetry) Print *)
Definition rows : list (string * stage) :=
  [("get_snapshot", GetSnapshot); ("speculate_fn", Speculate); ("marshal", Marshal); ("propose_total", Propose);
   ("  conflict_detect", ConflictDetect); ("  apply_proposal", ApplyProposal); ("  engine_apply", EngineApply);
   ("    clone_cow", Clone); ("iter_materialise", IterMaterialise); ("retry_backoff", RetryBackoff);
   ("tx_validate", TxValidate); ("tx_readset_copy", TxReadSetCopy); ("batcher_wait", BatcherWait);
   ("batcher_flush_size", BatcherFlushSize); ("direct_submit", DirectSubmit); ("direct_accumulate", DirectAccumulate);
   ("direct_roundtrip", DirectRoundTrip); ("engine_sync", EngineSync); ("snapshot_create", SnapshotCreate);
   ("watch_notify", WatchNotify); ("watch_channel_send", WatchChannelSend); ("engine_open", EngineOpen);
   ("key_epoch_rebuild", KeyEpochRebuild); ("raft_bootstrap", RaftBootstrap); ("shutdown_raft", ShutdownRaft);
   ("shutdown_engine", ShutdownEngine)]%string.

Record printed := { p_name : string; p_count : Z; p_mean : Z; p_min : Z; p_max : Z }.

Definition print_row (t : Telemetry) (r : string * stage) : option printed :=
  let timer := t r.2 in
  if Count timer =? 0 then None
  else Some {| p_name := r.1; p_count := Count timer; p_mean := Round (Mean timer) 1000;
               p_min := Round (Min timer) 1000; p_max := Round (Max timer) 1000 |}.

Definition Telemetry_Print (t : Telemetry) : list printed := omap (print_row t) rows.

(** ** Properties *)

Lemma rows_complete s : ∃ name, (name, s) ∈ rows.
Proof. destruct s; eexists; unfold rows; repeat (first [apply list_elem_of_here | apply list_elem_of_further]). Qed.

Lemma rows_distinct : NoDup rows.*1.
Proof. apply (bool_decide_unpack _). vm_compute. exact I. Qed.

(** A name belongs to one stage. *)
Lemma rows_inj name s s' : (name, s) ∈ rows → (name, s') ∈ rows → s = s'.
Proof.
  intros [i Hi]%list_elem_of_lookup [j Hj]%list_elem_of_lookup.
  enough (i = j) by congruence. apply (NoDup_lookup rows.*1 i j name); [apply rows_distinct|..];
    rewrite list_lookup_fmap; [by rewrite Hi|by rewrite Hj].
Qed.

(** A duration is off by at most half a microsecond. *)
Lemma Round_close d : - 2 ^ 62 <= d <= 2 ^ 62 → Z.abs (Round d 1000 - d) <= 500 ∧ (1000 | Round d 1000).
Proof.
  intros Hd. unfold Round. destruct (Z.leb_spec 1000 0); [lia|]. pose proof (Z.quot_rem' d 1000) as Eq.
  destruct (Z.ltb_spec d 0).
  - pose proof (Z.rem_bound_abs d 1000 ltac:(lia)). pose proof (Z.rem_nonpos d 1000 ltac:(lia) ltac:(lia)). rewrite u64_small by (unfold is_u64; lia).
    destruct (Z.ltb_spec (- Z.rem d 1000 + - Z.rem d 1000) 1000).
    + split; [lia|]. exists (Z.quot d 1000). lia.
    + rewrite i64_small by (unfold is_i64; lia).
      destruct (Z.ltb_spec (d - 1000 + - Z.rem d 1000) d); [|lia]. split; [lia|]. exists (Z.quot d 1000 - 1). lia.
  - pose proof (Z.rem_bound_pos d 1000 ltac:(lia) ltac:(lia)). rewrite u64_small by (unfold is_u64; lia).
    destruct (Z.ltb_spec (Z.rem d 1000 + Z.rem d 1000) 1000).
    + split; [lia|]. exists (Z.quot d 1000). lia.
    + rewrite i64_small by (unfold is_i64; lia).
      destruct (Z.ltb_spec d (d + 1000 - Z.rem d 1000)); [|lia]. split; [lia|]. exists (Z.quot d 1000 + 1). lia.
Qed.

Lemma elem_of_Print t p : p ∈ Telemetry_Print t ↔ ∃ r, r ∈ rows ∧ print_row t r = Some p.
Proof. unfold Telemetry_Print. rewrite list_elem_of_omap. done. Qed.

Lemma print_row_Some t r p : print_row t r = Some p →
  p_name p = r.1 ∧ p_count p = Count (t r.2) ∧ p_count p ≠ 0
  ∧ p_mean p = Round (Mean (t r.2)) 1000 ∧ p_min p = Round (Min (t r.2)) 1000 ∧ p_max p = Round (Max (t r.2)) 1000.
Proof. unfold print_row. destruct (Z.eqb_spec (Count (t r.2)) 0); intros ?; by simplify_eq. Qed.

(** Print is complete and exact: every stage has a row of its own, printed
    exactly when the stage was observed, with its count and with durations that
    are off by at most half a microsecond; no row is printed twice. *)
Lemma Print_exact t : (∀ s, 0 <= Mean (t s) <= 2 ^ 62 ∧ 0 <= Min (t s) <= 2 ^ 62 ∧ 0 <= Max (t s) <= 2 ^ 62) →
  NoDup (map p_name (Telemetry_Print t)) ∧ ∀ s, ∃ name, (name, s) ∈ rows
    ∧ (Count (t s) ≠ 0 ↔ ∃ p, p ∈ Telemetry_Print t ∧ p_name p = name)
    ∧ ∀ p, p ∈ Telemetry_Print t → p_name p = name →
        p_count p = Count (t s) ∧ Z.abs (p_mean p - Mean (t s)) <= 500
        ∧ Z.abs (p_min p - Min (t s)) <= 500 ∧ Z.abs (p_max p - Max (t s)) <= 500.
Proof.
  intros Hb. split.
  - assert (map p_name (Telemetry_Print t) `sublist_of` rows.*1) as Hs.
    { unfold Telemetry_Print. generalize rows. intros l. induction l as [|r l IH]; [constructor|]. simpl.
      destruct (print_row t r) as [p|] eqn:E; simpl; [|by constructor].
      apply print_row_Some in E as [-> _]. by constructor. }
    eapply sublist_NoDup; [apply rows_distinct|done].
  - intros s. destruct (rows_complete s) as [name Hn]. exists name. split; [done|]. split; [split|].
    + intros Hc. eexists. split; [apply elem_of_Print; exists (name, s); split; [done|]|].
      * unfold print_row. simpl. by destruct (Z.eqb_spec (Count (t s)) 0).
      * done.
    + intros (p & ([n' s'] & Hr & E)%elem_of_Print & <-). apply print_row_Some in E as (E1 & E2 & E3 & _). simpl in *.
      rewrite E1 in Hn. rewrite (rows_inj _ _ _ Hn Hr). congruence.
    + intros p ([n' s'] & Hr & E)%elem_of_Print <-. apply print_row_Some in E as (E1 & E2 & _ & -> & -> & ->). simpl in *.
      rewrite E1 in Hn. rewrite (rows_inj _ _ _ Hn Hr). destruct (Hb s') as (? & ? & ?).
      split_and!; [done|apply Round_close; lia..].
Qed.
