(* ===== verification/Batcher.v ===== *)
(** * The batcher (src/batcher.go)

    The adaptive delay before a Raft proposal: goroutines inside Wait are counted
    with atomics and delayed by a moving average of the time between arrivals,
    computed with IEEE binary64 arithmetic. Each atomic operation, and the section
    under the mutex, is one step. *)

From Corelib Require Import SpecFloat.
From S2P Require Import Prelude.

(** ** float64 *)

Abbreviation float64 := spec_float.

Definition fadd : float64 → float64 → float64 := SFadd 53 1024.
Definition fsub : float64 → float64 → float64 := SFsub 53 1024.
Definition fmul : float64 → float64 → float64 := SFmul 53 1024.
Definition fdiv : float64 → float64 → float64 := SFdiv 53 1024.
Definition float_of_int (z : Z) : float64 := binary_normalize 53 1024 z 0 false.

Definition second : Z := 1000000000.

(** [time.Duration.Seconds] *)
Definition Seconds (d : Z) : float64 :=
  fadd (float_of_int (Z.quot d second)) (fdiv (float_of_int (Z.rem d second)) (float_of_int second)).

(** The integer part of a finite float; [None] for infinities and NaN. *)
Definition float_trunc (f : float64) : option Z :=
  match f with
  | S754_zero _ => Some 0
  | S754_finite s m e =>
      let a := if 0 <=? e then Z.pos m * 2 ^ e else Z.pos m / 2 ^ (- e) in
      Some (if s then - a else a)
  | _ => None
  end.

Section batcher.
(** The conversion to int64 of a float outside its range is up to the
    implementation of Go. *)
Context (convert_overflow : float64 → Z).

Definition int64_of_float (f : float64) : Z :=
  match float_trunc f with
  | Some z => if (- 2 ^ 63 <=? z) && (z <? 2 ^ 63) then z else convert_overflow f
  | None => convert_overflow f
  end.

(** ** Configuration *)

Record BatchConfig := {
  MaxEntries : Z; MaxBytes : Z; MinAge : Z; MaxAge : Z; EMAAlpha : float64; K : float64;
}.

(** clampDuration (src/helpers.go) *)
Definition clampDuration (d min max : Z) : Z :=
  if d <? min then min else if max <? d then max else d.

(** ** Wait *)

(** A goroutine inside Wait, before its next atomic operation; [WSleep] is the
    select on the timer, [WLeave] and [WLeave2] the deferred function. *)
Inductive wpc :=
  | WEnter                      (* inFlight.Add(1) *)
  | WEnter2 (c : BatchConfig)   (* inBytes.Add(n), with the configuration loaded *)
  | WCheck (c : BatchConfig)    (* inFlight.Load() *)
  | WCheck2 (c : BatchConfig)   (* inBytes.Load() *)
  | WAge (c : BatchConfig)      (* the section under the mutex *)
  | WSleep (c : BatchConfig) (age : Z)
  | WLeave                      (* inFlight.Add(-1) *)
  | WLeave2                     (* inBytes.Add(-n) *)
  | WDone.

Record Batcher := {
  b_cfg : BatchConfig;
  ema : float64;
  lastAt : option Z;   (* [None] is the zero time *)
  inFlight : Z;
  inBytes : Z;
}.

(** newBatcher *)
Definition newBatcher (cfg : BatchConfig) : Batcher :=
  {| b_cfg := cfg; ema := S754_zero false; lastAt := None; inFlight := 0; inBytes := 0 |}.

(** (b *Batcher) SetConfig *)
Definition SetConfig (b : Batcher) (cfg : BatchConfig) : Batcher :=
  {| b_cfg := cfg; ema := ema b; lastAt := lastAt b; inFlight := inFlight b; inBytes := inBytes b |}.

Definition set_counters (b : Batcher) (f n : Z) : Batcher :=
  {| b_cfg := b_cfg b; ema := ema b; lastAt := lastAt b; inFlight := i64 f; inBytes := i64 n |}.

(** The section under the mutex at time [now]: the average and the delay. *)
Definition compute_age (b : Batcher) (c : BatchConfig) (now : Z) : Batcher * Z :=
  let ema' := match lastAt b with
              | None => ema b
              | Some last =>
                  let iat := Seconds (now - last) in
                  fadd (fmul (EMAAlpha c) iat) (fmul (fsub (float_of_int 1) (EMAAlpha c)) (ema b))
              end in
  let age := clampDuration (int64_of_float (fmul (fmul (float_of_int second) (K c)) ema')) (MinAge c) (MaxAge c) in
  ({| b_cfg := b_cfg b; ema := ema'; lastAt := Some now; inFlight := inFlight b; inBytes := inBytes b |}, age).

(** (b *Batcher) Wait: one operation of a call with [n] proposal bytes, at time
    [now]. *)
Definition wait_step (b : Batcher) (n now : Z) (p : wpc) : Batcher * wpc :=
  match p with
  | WEnter => (set_counters b (inFlight b + 1) (inBytes b), WEnter2 (b_cfg b))
  | WEnter2 c => (set_counters b (inFlight b) (inBytes b + n), WCheck c)
  | WCheck c => (b, if MaxEntries c <=? inFlight b then WLeave else WCheck2 c)
  | WCheck2 c => (b, if MaxBytes c <=? inBytes b then WLeave else WAge c)
  | WAge c => let '(b, age) := compute_age b c now in (b, WSleep c age)
  | WSleep _ _ => (b, WLeave)
  | WLeave => (set_counters b (inFlight b - 1) (inBytes b), WLeave2)
  | WLeave2 => (set_counters b (inFlight b) (inBytes b - n), WDone)
  | WDone => (b, WDone)
  end.

Abbreviation waits := (list (Z * wpc)).

Inductive wstep : Batcher * waits → Batcher * waits → Prop :=
  | w_config b ws cfg : wstep (b, ws) (SetConfig b cfg, ws)
  | w_call b ws n : 0 <= n → wstep (b, ws) (b, ws ++ [(n, WEnter)])
  | w_move b ws i n p now b' p' :
      ws !! i = Some (n, p) → wait_step b n now p = (b', p') → wstep (b, ws) (b', <[i := (n, p')]> ws).

(** ** The counters count *)

Definition in_flight (p : wpc) : bool :=
  match p with WEnter | WLeave2 | WDone => false | _ => true end.
Definition in_bytes (p : wpc) : bool :=
  match p with WEnter | WEnter2 _ | WDone => false | _ => true end.

Definition total (f : wpc → bool) (g : Z → Z) (ws : waits) : Z :=
  foldr (fun c acc => (if f c.2 then g c.1 else 0) + acc) 0 ws.

Lemma wtotal_app f g a b : total f g (a ++ b) = total f g a + total f g b.
Proof. induction a as [|c a IH]; simpl; [done|]. unfold total in *. simpl in IH. lia. Qed.

Lemma wtotal_insert f g (ws : waits) i n p p' :
  ws !! i = Some (n, p) →
  total f g (<[i := (n, p')]> ws) = total f g ws + (if f p' then g n else 0) - (if f p then g n else 0).
Proof.
  intros Hi. rewrite <- (take_drop_middle ws i (n, p) Hi) at 2.
  rewrite insert_take_drop by by eapply lookup_lt_Some.
  rewrite !wtotal_app. unfold total. simpl. lia.
Qed.

(** The delay of a sleeping call lies between the bounds of its configuration. *)
Definition age_ok (p : wpc) : Prop :=
  match p with
  | WSleep c age => MinAge c <= MaxAge c → MinAge c <= age <= MaxAge c
  | _ => True
  end.

Record binv (b : Batcher) (ws : waits) : Prop := {
  bi_flight : inFlight b = i64 (total in_flight (fun _ => 1) ws);
  bi_bytes : inBytes b = i64 (total in_bytes (fun n => n) ws);
  bi_age : Forall (fun c => age_ok c.2) ws;
}.

Lemma clampDuration_bounds d min max : min <= max → min <= clampDuration d min max <= max.
Proof. unfold clampDuration. repeat case_match; lia. Qed.

Lemma wait_step_inv b ws i n p now b' p' :
  binv b ws → ws !! i = Some (n, p) → wait_step b n now p = (b', p') → binv b' (<[i := (n, p')]> ws).
Proof.
  intros [H1 H2 H3] Hi Hs.
  assert (i64 (inFlight b) = inFlight b ∧ i64 (inBytes b) = inBytes b) as [E1 E2].
  { rewrite H1, H2. split; apply i64_small, i64_range. }
  assert (inFlight b' = i64 (inFlight b + ((if in_flight p' then 1 else 0) - (if in_flight p then 1 else 0)))
    ∧ inBytes b' = i64 (inBytes b + ((if in_bytes p' then n else 0) - (if in_bytes p then n else 0)))
    ∧ age_ok p') as (F1 & F2 & F3).
  { destruct p; cbn in Hs |- *; repeat case_match; simplify_eq; cbn; rewrite ?Z.sub_diag, ?Z.sub_0_r, ?Z.add_0_r, ?E1, ?E2;
      split_and!; try done; try (f_equal; lia). all: intros; by apply clampDuration_bounds. }
  split.
  - rewrite F1, H1, (wtotal_insert _ _ _ _ _ _ _ Hi), i64_add_l. f_equal. lia.
  - rewrite F2, H2, (wtotal_insert _ _ _ _ _ _ _ Hi), i64_add_l. f_equal. lia.
  - by apply Forall_insert.
Qed.

Lemma wreach_inv cfg s : rtc wstep (newBatcher cfg, []) s → binv s.1 s.2.
Proof.
  apply (rtc_ind_r (fun s => binv s.1 s.2)).
  - by split.
  - intros s1 s2 _ Hs [H1 H2 H3]. inversion Hs; subst; cbn [fst snd] in *.
    + by split.
    + split; [rewrite wtotal_app; cbn; by rewrite Z.add_0_r|rewrite wtotal_app; cbn; by rewrite Z.add_0_r|].
      apply Forall_app. split; [done|]. by constructor.
    + by eapply wait_step_inv.
Qed.

(** The batcher's counters are exact and its delays bounded, in every
    interleaving of Wait calls and configuration changes: inFlight is the number
    of calls between entry and exit and inBytes the sum of their sizes, both zero
    when every call has returned; and a sleeping call's delay lies between MinAge
    and MaxAge of the configuration it loaded, whatever the floating-point average
    (overflow and NaN included). *)
Theorem batcher_counters cfg (b : Batcher) (ws : list (Z * wpc)) :
  rtc wstep (newBatcher cfg, []) (b, ws) →
  inFlight b = i64 (total in_flight (fun _ => 1) ws)
  ∧ inBytes b = i64 (total in_bytes (fun n => n) ws)
  ∧ (Forall (fun c => c.2 = WDone) ws → inFlight b = 0 ∧ inBytes b = 0)
  ∧ (∀ n c age, (n, WSleep c age) ∈ ws → MinAge c <= MaxAge c → MinAge c <= age <= MaxAge c).
Proof.
  intros Hr. destruct (wreach_inv cfg _ Hr) as [H1 H2 H3]. cbn [fst snd] in *. split_and!; [done|done|..].
  - intros Hd. assert (∀ f g, f WDone = false → total f g ws = 0) as Hz.
    { intros f g Hf. clear -Hd Hf. induction Hd as [|[n p] ws Hp _ IH]; [done|]. unfold total in *. simpl in *. subst p.
      rewrite Hf. lia. }
    by rewrite H1, H2, !Hz.
  - intros n c age Hin. rewrite Forall_forall in H3. by apply (H3 (n, WSleep c age)).
Qed.
End batcher.

(** The default configuration (see applyDefaults). *)
Definition default_batch : BatchConfig :=
  {| MaxEntries := 256; MaxBytes := 4194304; MinAge := 10000; MaxAge := 500000;
     EMAAlpha := fdiv (float_of_int 1) (float_of_int 10); K := float_of_int 8 |}.

(** Arrivals 50 microseconds apart, after one of the same distance: the delay is
    eight times a tenth of that. *)
Lemma batcher_counters_witness :
  (compute_age (fun _ => 0) {| b_cfg := default_batch; ema := S754_zero false; lastAt := Some 0; inFlight := 1;
                               inBytes := 9 |} default_batch 50000).2 = 40000
  ∧ inFlight (wait_step (fun _ => 0) (newBatcher default_batch) 9 0 WEnter).1 = 1.
Proof.
  split; [vm_compute; reflexivity|].
  destruct (batcher_counters (fun _ => 0) default_batch (wait_step (fun _ => 0) (newBatcher default_batch) 9 0 WEnter).1
    [(9, WEnter2 default_batch)]) as (Hf & _).
  - eapply rtc_l; [apply (w_call _ (newBatcher default_batch) [] 9); lia|]. apply rtc_once.
    apply (w_move _ _ [(9, WEnter)] 0 9 WEnter 0); reflexivity.
  - rewrite Hf. reflexivity.
Defined.
