(* ===== verification/Admission.v ===== *)
(** * Proposing through Raft (src/conductor/node.go)

    [Node.Propose] takes a slot of a semaphore of [raftInFlightLimit] slots, hands
    the data to Raft, waits for the answer and gives the slot back on every path.
    The semaphore and Raft are libraries: the semaphore is a class with the laws
    the code relies on, what Raft answers is chosen by the environment. *)

From S2P Require Import Prelude Types Wire EngineSpec Fsm.

Definition raftInFlightLimit : nat := 256.

(** ** The semaphore *)

(** jack.Semaphore; [Acquire] without waiting: [None] when no slot is free or
    the semaphore is closed. *)
Class Semaphore (Sem : Type) := {
  sem_New : nat → Sem;
  sem_Acquire : Sem → option Sem;
  sem_Release : Sem → Sem;
  sem_Close : Sem → Sem;
}.

Class SemaphoreLaws (Sem : Type) `{Semaphore Sem} := {
  sem_held : Sem → nat;
  sem_limit : Sem → nat;
  sem_closed : Sem → bool;
  sem_new n : sem_held (sem_New n) = 0%nat ∧ sem_limit (sem_New n) = n ∧ sem_closed (sem_New n) = false;
  sem_acquire s s' : sem_Acquire s = Some s' →
    (sem_held s < sem_limit s)%nat ∧ sem_closed s = false
    ∧ sem_held s' = S (sem_held s) ∧ sem_limit s' = sem_limit s ∧ sem_closed s' = false;
  sem_acquire_free s : (sem_held s < sem_limit s)%nat → sem_closed s = false → is_Some (sem_Acquire s);
  sem_release s : sem_held (sem_Release s) = pred (sem_held s)
    ∧ sem_limit (sem_Release s) = sem_limit s ∧ sem_closed (sem_Release s) = sem_closed s;
  sem_close s : sem_held (sem_Close s) = sem_held s
    ∧ sem_limit (sem_Close s) = sem_limit s ∧ sem_closed (sem_Close s) = true;
}.

(** ** Propose *)

(** [future.Response()]: the type assertion succeeds on an [ApplyResult]. *)
Inductive response := RespResult (r : ApplyResult) | RespOther.

(** What Raft makes of an entry: [future.Error()] or a response. *)
Inductive raftAnswer := RaftFailed (msg : string) | RaftAnswered (resp : response).

Inductive proposeErr :=
  | ErrAdmission            (* "raft: admission" *)
  | ErrRaftApply (msg : string)  (* "raft: apply" *)
  | ErrResponseType.        (* "raft: unexpected response type" *)

(** The end of Propose. *)
Definition propose_result (a : raftAnswer) : ApplyResult + proposeErr :=
  match a with
  | RaftFailed msg => inr (ErrRaftApply msg)
  | RaftAnswered (RespResult r) => inl r
  | RaftAnswered RespOther => inr ErrResponseType
  end.

(** A goroutine in Propose. *)
Inductive proposing :=
  | Waiting (data : bytes)                          (* in [n.sem.Acquire] *)
  | Granted (data : bytes)                         (* in [n.raft.Apply] *)
  | Leaving (r : ApplyResult + proposeErr)          (* before the deferred [n.sem.Release()] *)
  | Returned (r : ApplyResult + proposeErr).

Section admission.
Context {Sem : Type} `{SemaphoreLaws Sem}.

Record raftNode := {
  rn_sem : Sem;
  rn_log : list bytes;             (* what was handed to Raft *)
  rn_shutdown : bool;              (* [raft.Shutdown()] was called *)
  rn_calls : list proposing;
}.

Definition set_call (n : raftNode) (t : nat) (p : proposing) : raftNode :=
  {| rn_sem := rn_sem n; rn_log := rn_log n; rn_shutdown := rn_shutdown n; rn_calls := <[t := p]> (rn_calls n) |}.
Definition set_sem (n : raftNode) (s : Sem) : raftNode :=
  {| rn_sem := s; rn_log := rn_log n; rn_shutdown := rn_shutdown n; rn_calls := rn_calls n |}.
Definition append_log (n : raftNode) (data : bytes) : raftNode :=
  {| rn_sem := rn_sem n; rn_log := rn_log n ++ [data]; rn_shutdown := rn_shutdown n; rn_calls := rn_calls n |}.

(** conductor.Open's node *)
Definition new_raftNode (datas : list bytes) : raftNode :=
  {| rn_sem := sem_New raftInFlightLimit; rn_log := []; rn_shutdown := false; rn_calls := map Waiting datas |}.

(** (n *Node) Shutdown, up to and including [raft.Shutdown()]. *)
Definition rn_Shutdown (n : raftNode) : raftNode :=
  {| rn_sem := sem_Close (rn_sem n); rn_log := rn_log n; rn_shutdown := true; rn_calls := rn_calls n |}.

(** Steps of Propose. Waiting ends with a slot, with the timeout or because the
    semaphore was closed; Raft may take an entry and still fail. *)
Inductive pstep (n : raftNode) : raftNode → Prop :=
  | p_admit t data s : rn_calls n !! t = Some (Waiting data) → sem_Acquire (rn_sem n) = Some s →
      pstep n (set_call (set_sem n s) t (Granted data))
  | p_refuse t data : rn_calls n !! t = Some (Waiting data) →
      pstep n (set_call n t (Returned (inr ErrAdmission)))
  | p_answer t data a : rn_calls n !! t = Some (Granted data) →
      pstep n (set_call (append_log n data) t (Leaving (propose_result a)))
  | p_fail t data msg : rn_calls n !! t = Some (Granted data) →
      pstep n (set_call n t (Leaving (propose_result (RaftFailed msg))))
  | p_release t r : rn_calls n !! t = Some (Leaving r) →
      pstep n (set_call (set_sem n (sem_Release (rn_sem n))) t (Returned r))
  | p_shutdown : pstep n (rn_Shutdown n).

Definition holds_slot (p : proposing) : Prop := match p with Granted _ | Leaving _ => True | _ => False end.
#[export] Instance holds_slot_dec p : Decision (holds_slot p).
Proof. destruct p; simpl; apply _. Defined.

Definition in_flight (n : raftNode) : nat := length (filter holds_slot (rn_calls n)).

(** ** Properties *)

Lemma in_flight_set n t p p' :
  rn_calls n !! t = Some p →
  (length (filter holds_slot (<[t := p']> (rn_calls n))) + (if decide (holds_slot p) then 1 else 0)
   = in_flight n + (if decide (holds_slot p') then 1 else 0))%nat.
Proof.
  intros Hp. unfold in_flight. rewrite insert_take_drop by (by eapply lookup_lt_Some).
  rewrite <- (take_drop_middle _ t p Hp) at 3. rewrite !filter_app, !length_app, !filter_cons.
  repeat case_decide; simpl; lia.
Qed.

Definition slots_ok (n : raftNode) : Prop :=
  sem_held (rn_sem n) = in_flight n ∧ sem_limit (rn_sem n) = raftInFlightLimit
  ∧ (in_flight n ≤ raftInFlightLimit)%nat.

Lemma slots_ok_step n n' : slots_ok n → pstep n n' → slots_ok n'.
Proof.
  intros (Hh & Hl & Hb) Hs. unfold slots_ok.
  destruct Hs as [t data s Ht Ha|t data Ht|t data a Ht|t data msg Ht|t r Ht|].
  - destruct (sem_acquire _ _ Ha) as (Hlt & _ & Hh' & Hl' & _).
    pose proof (in_flight_set n t _ (Granted data) Ht) as E. simpl in E. unfold in_flight in *. simpl.
    split_and!; [lia|congruence|lia].
  - pose proof (in_flight_set n t _ (Returned (inr ErrAdmission)) Ht) as E. simpl in E. unfold in_flight in *. simpl.
    split_and!; [lia|done|lia].
  - pose proof (in_flight_set n t _ (Leaving (propose_result a)) Ht) as E. simpl in E. unfold in_flight in *. simpl.
    split_and!; [lia|done|lia].
  - pose proof (in_flight_set n t _ (Leaving (propose_result (RaftFailed msg))) Ht) as E. simpl in E.
    unfold in_flight in *. simpl. split_and!; [lia|done|lia].
  - destruct (sem_release (rn_sem n)) as (Hh' & Hl' & _).
    pose proof (in_flight_set n t _ (Returned r) Ht) as E. simpl in E. unfold in_flight in *. simpl.
    split_and!; [lia|congruence|lia].
  - destruct (sem_close (rn_sem n)) as (Hh' & Hl' & _). unfold in_flight in *. simpl.
    split_and!; [congruence|congruence|lia].
Qed.

Lemma slots_ok_new datas : slots_ok (new_raftNode datas).
Proof.
  destruct (sem_new raftInFlightLimit) as (Hh & Hl & _).
  assert (in_flight (new_raftNode datas) = 0%nat) as E.
  { unfold in_flight. simpl. induction datas as [|d l IH]; [done|]. simpl. by rewrite filter_cons, decide_False by tauto. }
  unfold slots_ok. rewrite E. simpl. split_and!; [done|done|lia].
Qed.

(** Admission control: at every moment, however the callers, Raft and a
    shutdown interleave, the slots taken are exactly those of the proposals
    between admission and return, at most 256; and once every call has returned,
    whatever its outcome, no slot is taken. *)
Theorem propose_slots datas n :
  rtc pstep (new_raftNode datas) n →
  sem_held (rn_sem n) = in_flight n ∧ (in_flight n ≤ raftInFlightLimit)%nat
  ∧ (Forall (fun p => match p with Returned _ => True | _ => False end) (rn_calls n) → sem_held (rn_sem n) = 0%nat).
Proof.
  intros Hr. assert (slots_ok n) as (Hh & Hl & Hb).
  { pose proof (slots_ok_new datas) as H0'. revert H0'. induction Hr as [|x y z Hs _ IH]; [done|].
    intros Hx. apply IH. by eapply slots_ok_step. }
  split_and!; [done|done|]. intros Hall. rewrite Hh. unfold in_flight. clear -Hall.
  induction Hall as [|p l Hp _ IH]; [done|]. rewrite filter_cons. destruct p; try done.
Qed.
End admission.

(** ** A semaphore *)

Record simpleSem := { ss_held : nat; ss_limit : nat; ss_closed : bool }.

#[export] Instance simpleSem_semaphore : Semaphore simpleSem := {
  sem_New n := {| ss_held := 0; ss_limit := n; ss_closed := false |};
  sem_Acquire s := if negb (ss_closed s) && bool_decide (ss_held s < ss_limit s)%nat
                   then Some {| ss_held := S (ss_held s); ss_limit := ss_limit s; ss_closed := false |} else None;
  sem_Release s := {| ss_held := pred (ss_held s); ss_limit := ss_limit s; ss_closed := ss_closed s |};
  sem_Close s := {| ss_held := ss_held s; ss_limit := ss_limit s; ss_closed := true |};
}.

#[export] Program Instance simpleSem_laws : SemaphoreLaws simpleSem := {
  sem_held := ss_held; sem_limit := ss_limit; sem_closed := ss_closed;
}.
Next Obligation. done. Qed.
Next Obligation.
  intros s s'. simpl. destruct (ss_closed s); [done|]. simpl. case_bool_decide; [|done]. by intros [= <-].
Qed.
Next Obligation. intros s Hl Hc. simpl. rewrite Hc. simpl. by rewrite bool_decide_true. Qed.
Next Obligation. done. Qed.
Next Obligation. done. Qed.

Lemma propose_slots_witness :
  ∃ n : raftNode (Sem := simpleSem), rtc pstep (new_raftNode [bs "p"]) n
    ∧ rn_calls n = [Returned (inl res_ok)] ∧ sem_held (rn_sem n) = 0%nat.
Proof.
  assert (∃ n : raftNode (Sem := simpleSem), rtc pstep (new_raftNode [bs "p"]) n
    ∧ rn_calls n = [Returned (inl res_ok)]) as (n & Hr & Hc).
  { eexists. split.
    - eapply rtc_l; [by eapply (p_admit _ 0)|]. eapply rtc_l; [by eapply (p_answer _ 0 _ (RaftAnswered (RespResult res_ok)))|].
      eapply rtc_l; [by eapply (p_release _ 0)|]. apply rtc_refl.
    - reflexivity. }
  exists n. split; [exact Hr|]. split; [exact Hc|].
  apply (propose_slots [bs "p"] n).
  - exact Hr.
  - rewrite Hc. by repeat constructor.
Defined.
