(* ===== verification/Startup.v ===== *)
(** * Configuration and start-up (src/config.go, src/dpx.go, src/conductor/node.go)

    The defaults of a configuration, the choice of the proposer, and the error
    paths of opening and shutting down a node: what is left open when a step
    fails. The engines' and libraries' own open functions are parameters. *)

From Corelib Require Import SpecFloat.
From S2P Require Import Prelude Types EngineSpec Batcher.

(** ** Configuration *)

Record RetryConfig := { MaxAttempts : Z; BaseDelay : Z; MaxDelay : Z; Multiplier : float64 }.

(** [Config]; the engine, metrics, telemetry and logger by whether they are set. *)
Record Config := {
  NodeID : bytes;
  c_Engine : bool;
  DataDir : bytes;
  c_SyncPolicy : SyncPolicy;
  ListenAddr : bytes;
  Peers : list (bytes * bytes);
  RaftDir : bytes;
  c_Batch : BatchConfig;
  c_Retry : RetryConfig;
  ShutdownTimeout : Z;
  c_Metrics : bool;
  c_Telemetry : bool;
  c_Logger : bool;
}.

(** [if x == 0 { x = d }] on integers, floats and strings *)
Definition or_int (x d : Z) : Z := if x =? 0 then d else x.
Definition or_float (x d : float64) : float64 := if SFeqb x (S754_zero false) then d else x.
Definition or_string (x d : bytes) : bytes := if decide (x = []) then d else x.

Definition microsecond : Z := 1000.
Definition millisecond : Z := 1000000.

(** applyDefaults *)
Definition applyDefaults (cfg : Config) : Config :=
  {| NodeID := or_string (NodeID cfg) (bs "1");
     c_Engine := c_Engine cfg; DataDir := DataDir cfg; c_SyncPolicy := c_SyncPolicy cfg;
     ListenAddr := ListenAddr cfg; Peers := Peers cfg; RaftDir := RaftDir cfg;
     c_Batch := {| MaxEntries := or_int (MaxEntries (c_Batch cfg)) 256;
                   MaxBytes := or_int (MaxBytes (c_Batch cfg)) (Z.shiftl 4 20);
                   MinAge := or_int (MinAge (c_Batch cfg)) (10 * microsecond);
                   MaxAge := or_int (MaxAge (c_Batch cfg)) (500 * microsecond);
                   EMAAlpha := or_float (EMAAlpha (c_Batch cfg)) (S754_finite false 7205759403792794 (-56));
                   K := or_float (K (c_Batch cfg)) (S754_finite false 4503599627370496 (-49)) |};
     c_Retry := {| MaxAttempts := or_int (MaxAttempts (c_Retry cfg)) 50;
                   BaseDelay := or_int (BaseDelay (c_Retry cfg)) millisecond;
                   MaxDelay := or_int (MaxDelay (c_Retry cfg)) (100 * millisecond);
                   Multiplier := or_float (Multiplier (c_Retry cfg)) (S754_finite false 4503599627370496 (-51)) |};
     ShutdownTimeout := or_int (ShutdownTimeout cfg) (30 * second);
     c_Metrics := c_Metrics cfg; c_Telemetry := c_Telemetry cfg; c_Logger := c_Logger cfg |}.

(** The literals 0.1, 8.0 and 2.0 *)
Example alpha_literal : fdiv (float_of_int 1) (float_of_int 10) = S754_finite false 7205759403792794 (-56).
Proof. vm_compute. reflexivity. Qed.
Example k_literal : float_of_int 8 = S754_finite false 4503599627370496 (-49).
Proof. vm_compute. reflexivity. Qed.
Example multiplier_literal : float_of_int 2 = S754_finite false 4503599627370496 (-51).
Proof. vm_compute. reflexivity. Qed.

(** [shared.Config] and (c Config) toShared; a nil logger becomes [noopWriter]. *)
Record SharedConfig := {
  s_NodeID : bytes; s_ListenAddr : bytes; s_Peers : list (bytes * bytes); s_RaftDir : bytes; s_Engine : bool;
  s_SyncPolicy : SyncPolicy; s_ShutdownTimeout : Z; s_Metrics : bool; s_Telemetry : bool; s_Logger : bool;
}.

Definition toShared (c : Config) : SharedConfig :=
  {| s_NodeID := NodeID c; s_ListenAddr := ListenAddr c; s_Peers := Peers c; s_RaftDir := RaftDir c;
     s_Engine := c_Engine c; s_SyncPolicy := c_SyncPolicy c; s_ShutdownTimeout := ShutdownTimeout c;
     s_Metrics := c_Metrics c; s_Telemetry := c_Telemetry c; s_Logger := true |}.

(** ** Opening a Raft node (conductor.Open) *)

(** What must be closed again. *)
Inductive resource := Transport | LogStore | StableStore | RaftNode.

#[export] Instance resource_eq_dec : EqDecision resource.
Proof. solve_decision. Defined.

Inductive openErr :=
  | FsmOpen | SnapshotDir | SnapshotStore | ResolveAddr | NewTransport | Mkdir | OpenLog | OpenStable | NewRaft
  | EngineRequired | EngineOpen | ProposerOpen | RaftShutdown.

#[export] Instance openErr_eq_dec : EqDecision openErr.
Proof. solve_decision. Defined.

(** The proposer that is chosen. *)
Inductive proposerKind := ShardedDirect | Direct | Raft (held : list resource).

Section open.
(** Whether each call of the environment succeeds. *)
Context (ok : openErr → bool).
(** Whether the engine is an in-memory engine in sharded mode. *)
Context (isShardedEngine : bool).

(** An action that may fail, with the resources open so far: [close] is what the
    error path closes. *)
Definition attempt {A} (e : openErr) (close : list resource) (opened : list resource)
    (k : list resource → list resource * (A + openErr)) (new : list resource) : list resource * (A + openErr) :=
  if ok e then k (opened ++ new)
  else (filter (fun r => r ∉ close) opened, inr e).

(** conductor.Open: the resources still open, and the proposer or an error. *)
Definition conductor_Open (cfg : SharedConfig) : list resource * (proposerKind + openErr) :=
  if decide (s_Peers cfg = []) then
    if ok FsmOpen then ([], inl (if isShardedEngine then ShardedDirect else Direct)) else ([], inr FsmOpen)
  else
    attempt FsmOpen [] [] (fun o =>
    attempt SnapshotDir [] o (fun o =>
    attempt SnapshotStore [] o (fun o =>
    attempt ResolveAddr [] o (fun o =>
    attempt NewTransport [] o (fun o =>
    attempt Mkdir [Transport] o (fun o =>
    attempt OpenLog [Transport] o (fun o =>
    attempt OpenStable [LogStore; Transport] o (fun o =>
    attempt NewRaft [Transport; LogStore; StableStore] o (fun o => (o, inl (Raft o)))
      [RaftNode]) [StableStore]) [LogStore]) []) [Transport]) []) []) []) [].

(** (n *Node) Shutdown of the Raft node: an error of Raft's own shutdown returns
    before the transport and the stores are closed. *)
Definition raft_Shutdown (held : list resource) : list resource * option openErr :=
  if ok RaftShutdown then (filter (fun r => r ∉ [RaftNode; Transport; StableStore; LogStore]) held, None)
  else (filter (fun r => r ≠ RaftNode) held, Some RaftShutdown).

(** ** Opening a node (dpx.Open) *)

(** [n.seqCounter] starts at its zero value. *)
Record opened := { o_config : Config; o_proposer : proposerKind; o_seqCounter : Z }.

(** dpx.Open: whether the engine is left open, the other resources, the result. *)
Definition Open (cfg : Config) : bool * list resource * (opened + openErr) :=
  if negb (c_Engine cfg) then (false, [], inr EngineRequired)
  else
    let cfg := applyDefaults cfg in
    if negb (ok EngineOpen) then (false, [], inr EngineOpen)
    else
      match conductor_Open (toShared cfg) with
      | (res, inr _) => (false, res, inr ProposerOpen)   (* [cfg.Engine.Close()] *)
      | (res, inl p) => (true, res, inl {| o_config := cfg; o_proposer := p; o_seqCounter := 0 |})
      end.

(** ** Properties *)

Lemma attempt_no_leak {A} e close o (k : list resource → list resource * (A + openErr)) new :
  (∀ r, r ∈ o → r ∈ close) →
  (∀ x err, k (o ++ new) = (x, inr err) → x = []) →
  ∀ x err, attempt e close o k new = (x, inr err) → x = [].
Proof.
  intros Hc Hk x err. unfold attempt. destruct (ok e); [by apply Hk|]. intros [= <- _].
  apply filter_none. intros r Hin Hn. by apply Hn, Hc.
Qed.

Lemma conductor_Open_no_leak cfg x err : conductor_Open cfg = (x, inr err) → x = [].
Proof.
  unfold conductor_Open. case_decide; [case_match; by intros [= <- _]|].
  do 9 (apply attempt_no_leak; [set_solver|clear x err; intros x err; cbn [app]]). done.
Qed.

Lemma or_int_idemp x d : d ≠ 0 → or_int (or_int x d) d = or_int x d ∧ or_int x d ≠ 0.
Proof. intros Hd. unfold or_int. destruct (x =? 0) eqn:E; [|rewrite E]; split; try lia. case_match; lia. Qed.

Lemma or_float_idemp x d :
  SFeqb d (S754_zero false) = false →
  or_float (or_float x d) d = or_float x d ∧ SFeqb (or_float x d) (S754_zero false) = false.
Proof. intros Hd. unfold or_float. destruct (SFeqb x _) eqn:E; [by rewrite Hd|by rewrite E]. Qed.

Lemma or_string_idemp x d : d ≠ [] → or_string (or_string x d) d = or_string x d.
Proof. intros Hd. unfold or_string. by repeat case_decide. Qed.

(** Opening a node leaks nothing: when [dpx.Open] fails, at whichever step,
    the engine, the transport, the log and stable stores that were opened have
    been closed; when it succeeds the engine is open, the node runs with every
    default filled in, and an embedded node gets the proposer that fits its
    engine. *)
Theorem Open_no_leak (cfg : Config) :
  match Open cfg with
  | (engine_open, res, inr _) => engine_open = false ∧ res = []
  | (engine_open, res, inl n) =>
      engine_open = true ∧ o_config n = applyDefaults cfg
      ∧ applyDefaults (o_config n) = o_config n
      ∧ (Peers cfg = [] → o_proposer n = if isShardedEngine then ShardedDirect else Direct)
      ∧ (Peers cfg ≠ [] → o_proposer n = Raft [Transport; LogStore; StableStore; RaftNode])
  end.
Proof.
  unfold Open. destruct (c_Engine cfg); [|done]. simpl. destruct (ok EngineOpen); [|done]. simpl.
  destruct (conductor_Open _) as [res [p|err]] eqn:E; [|split; [done|by eapply conductor_Open_no_leak]].
  cbn [o_config o_proposer]. split_and!; [done|done|..].
  - unfold applyDefaults. cbn. f_equal; [by apply or_string_idemp|..|by apply or_int_idemp];
      f_equal; first [by apply or_int_idemp | by apply or_float_idemp].
  - intros Hp. unfold conductor_Open in E. cbn in E. rewrite decide_True in E by done. destruct (ok FsmOpen); by simplify_eq.
  - intros Hp. unfold conductor_Open, attempt in E. cbn in E. rewrite decide_False in E by done.
    repeat (case_match; simplify_eq/=; try done).
Qed.

(** A Raft node whose shutdown fails keeps its transport and stores open:
    [Shutdown] returns the error before it closes them. *)
Lemma raft_shutdown_leaks :
  ok RaftShutdown = false →
  raft_Shutdown [Transport; LogStore; StableStore; RaftNode]
  = ([Transport; LogStore; StableStore], Some RaftShutdown).
Proof. intros E. unfold raft_Shutdown. by rewrite E. Qed.
End open.
