(* ===== verification/Commands.v ===== *)
(** * Entry points (src/open.go, src/cmd/dpxd/main.go, src/conductor/node.go)

    The functions that open a node on a particular engine, the directories a Raft
    node uses, and the [dpxd backup] command with its flag parsing. *)

From S2P Require Import Prelude Types EngineSpec Batcher Startup.

(** ** Engines and the proposer they get *)

Inductive engineKind :=
  | KMemory | KMemorySharded | KMVCC | KMVCCSharded | KPebble (dir : bytes) | KOshodi (dir : bytes) | KBadger (dir : bytes).

(** isShardedEngine: the type assertion holds for the in-memory engines only. *)
Definition isShardedEngine (k : engineKind) : bool :=
  match k with
  | KMemory | KMVCC => false           (* [IsSharded()] is false *)
  | KMemorySharded | KMVCCSharded => true
  | KPebble _ | KOshodi _ | KBadger _ => false   (* no [IsSharded] method *)
  end.

Definition with_engine (cfg : Config) (dataDir : bytes) : Config :=
  {| NodeID := NodeID cfg; c_Engine := true; DataDir := dataDir; c_SyncPolicy := c_SyncPolicy cfg;
     ListenAddr := ListenAddr cfg; Peers := Peers cfg; RaftDir := RaftDir cfg; c_Batch := c_Batch cfg;
     c_Retry := c_Retry cfg; ShutdownTimeout := ShutdownTimeout cfg; c_Metrics := c_Metrics cfg;
     c_Telemetry := c_Telemetry cfg; c_Logger := c_Logger cfg |}.

Section entry.
(** Whether each call of the environment succeeds. *)
Context (ok : openErr → bool).

(** [Open(cfg, conductor.Open)] on an engine, and the engine it runs on. *)
Definition open_on (k : engineKind) (cfg : Config) : engineKind * (bool * list resource * (opened + openErr)) :=
  (k, Open ok (isShardedEngine k) cfg).

Definition OpenEmbedded (cfg : Config) := open_on KMemory (with_engine cfg (DataDir cfg)).
Definition OpenSharded (cfg : Config) := open_on KMemorySharded (with_engine cfg (DataDir cfg)).
Definition OpenMVCCSharded (cfg : Config) := open_on KMVCCSharded (with_engine cfg (DataDir cfg)).
Definition OpenPebble (cfg : Config) :=
  let dir := if decide (DataDir cfg = []) then bs "/tmp/dpx-pebble" else DataDir cfg in
  open_on (KPebble dir) (with_engine cfg dir).
Definition OpenOshodi (cfg : Config) :=
  let dir := if decide (DataDir cfg = []) then bs "/tmp/dpx-oshodi" else DataDir cfg in
  open_on (KOshodi dir) (with_engine cfg dir).

(** ** The directories of a Raft node *)

(** [os.MkdirTemp] returns a directory that did not exist: [fresh] is its name. *)
Definition snapshotDir (fresh : bytes) (cfg : SharedConfig) : bytes :=
  if decide (s_RaftDir cfg = []) then fresh else s_RaftDir cfg.

(** The directory of the log and stable stores; [tmp] is [os.TempDir()]. *)
Definition raftDir (tmp : bytes) (cfg : SharedConfig) : bytes :=
  if decide (s_RaftDir cfg = []) then tmp ++ bs "/dpx-" ++ s_NodeID cfg else s_RaftDir cfg.

(** ** dpxd *)

(** [flag.FlagSet] with the string flags "data" and "dest" *)
Record flags := { f_data : bytes; f_dest : bytes }.

Inductive parseResult := Parsed (f : flags) | HelpWanted | ParseError.

(** The formal flags. *)
Definition set_flag (name value : bytes) (f : flags) : option flags :=
  if decide (name = bs "data") then Some {| f_data := value; f_dest := f_dest f |}
  else if decide (name = bs "dest") then Some {| f_data := f_data f; f_dest := value |}
  else None.

(** The name up to an equals sign that is not first, and the value after it. *)
Fixpoint cut_equals (acc name : bytes) : bytes * option bytes :=
  match name with
  | [] => (acc, None)
  | c :: name' =>
      if decide (c = x3d ∧ acc ≠ []) then (acc, Some name') else cut_equals (acc ++ [c]) name'
  end.

(** The argument without its one or two dashes; [None] is bad syntax. *)
Inductive flagArg := NotAFlag | Terminator | BadSyntax | FlagNamed (name : bytes).

Definition flag_arg (s : bytes) : flagArg :=
  let named n := match n with
                 | [] => BadSyntax
                 | c :: _ => if decide (c = x2d ∨ c = x3d) then BadSyntax else FlagNamed n
                 end in
  match s with
  | c1 :: c2 :: rest =>
      if decide (c1 = x2d) then
        if decide (c2 = x2d) then match rest with [] => Terminator | _ => named rest end else named (c2 :: rest)
      else NotAFlag
  | _ => NotAFlag
  end.

(** (f *FlagSet) Parse *)
Fixpoint Parse (args : list bytes) (f : flags) : parseResult :=
  match args with
  | [] => Parsed f
  | s :: args =>
      match flag_arg s with
      | NotAFlag | Terminator => Parsed f
      | BadSyntax => ParseError
      | FlagNamed n =>
          let '(name, value) := cut_equals [] n in
          match set_flag name (default [] value) f, value, args with
          | None, _, _ => if decide (name = bs "help" ∨ name = bs "h") then HelpWanted else ParseError
          | Some f', Some _, _ => Parse args f'
          | Some _, None, v :: args' => match set_flag name v f with Some f' => Parse args' f' | None => ParseError end
          | Some _, None, [] => ParseError
          end
      end
  end.

(** What a run prints, in order. *)
Inductive message :=
  | MUsage | MUnknown (cmd : bytes) | MFlagUsage | MOpenFailed (e : openErr) | MBackupFailed | MWritten (dest : bytes).

(** A run: the exit code, the messages, the backup written if any, and whether
    the node was left open when the process ended. *)
Record run := { r_exit : Z; r_messages : list message; r_backup : option (bytes * bytes); r_left_open : bool }.

Definition exits (code : Z) (ms : list message) : run :=
  {| r_exit := code; r_messages := ms; r_backup := None; r_left_open := false |}.

(** [dpx.Config{Engine: pebble.New(dataDir)}] *)
Definition zero_config : Config :=
  {| NodeID := []; c_Engine := true; DataDir := []; c_SyncPolicy := SyncBatch; ListenAddr := []; Peers := []; RaftDir := [];
     c_Batch := {| MaxEntries := 0; MaxBytes := 0; MinAge := 0; MaxAge := 0; EMAAlpha := float_of_int 0; K := float_of_int 0 |};
     c_Retry := {| MaxAttempts := 0; BaseDelay := 0; MaxDelay := 0; Multiplier := float_of_int 0 |};
     ShutdownTimeout := 0; c_Metrics := false; c_Telemetry := false; c_Logger := false |}.

(** runBackup; [backup_ok] is whether [n.Backup] succeeds. [flag.ExitOnError]
    leaves with 0 on -help and 2 on an error; [log.Fatalf] with 1, without
    running the deferred [n.Close()]. *)
Definition runBackup (backup_ok : bool) (args : list bytes) : run :=
  match Parse args {| f_data := []; f_dest := [] |} with
  | HelpWanted => exits 0 [MFlagUsage]
  | ParseError => exits 2 [MFlagUsage]
  | Parsed f =>
      if decide (f_data f = [] ∨ f_dest f = []) then exits 1 [MFlagUsage]
      else
        match (open_on (KPebble (f_data f)) zero_config).2 with
        | (_, _, inr e) => exits 1 [MOpenFailed e]
        | (_, _, inl _) =>
            if backup_ok
            then {| r_exit := 0; r_messages := [MWritten (f_dest f)]; r_backup := Some (f_data f, f_dest f); r_left_open := false |}
            else {| r_exit := 1; r_messages := [MBackupFailed]; r_backup := None; r_left_open := true |}
        end
  end.

(** main; [os.Args] is the program's name and the arguments. *)
Definition main (backup_ok : bool) (os_Args : list bytes) : run :=
  match os_Args with
  | [] | [_] => exits 1 [MUsage]
  | _ :: cmd :: args =>
      if decide (cmd = bs "backup") then runBackup backup_ok args else exits 1 [MUnknown cmd; MUsage]
  end.
End entry.

(** ** Properties *)

Section props.
Context (ok : openErr → bool).

(** On an engine of each kind, with no peers and nothing failing, the node runs
    with the proposer made for it. *)
Lemma open_on_proposer k cfg : (∀ e, ok e = true) → c_Engine cfg = true → Peers cfg = [] →
  ∃ n, open_on ok k cfg = (k, (true, [], inl n))
    ∧ o_proposer n = (if isShardedEngine k then ShardedDirect else Direct) ∧ o_config n = applyDefaults cfg.
Proof.
  intros Hok He Hp. unfold open_on, Open. rewrite He, Hok. simpl. unfold conductor_Open. simpl.
  rewrite decide_True by done. rewrite Hok. by eexists.
Qed.

(** The entry points never fail for want of an engine, and give the proposer of
    their engine: sharded for OpenSharded and OpenMVCCSharded, direct for the
    others; the data directory, or the default one, reaches the engine. *)
Lemma entry_points cfg : (∀ e, ok e = true) → Peers cfg = [] →
  ∃ n1 n2 n3 n4 n5, OpenEmbedded ok cfg = (KMemory, (true, [], inl n1)) ∧ o_proposer n1 = Direct
  ∧ OpenSharded ok cfg = (KMemorySharded, (true, [], inl n2)) ∧ o_proposer n2 = ShardedDirect
  ∧ OpenMVCCSharded ok cfg = (KMVCCSharded, (true, [], inl n3)) ∧ o_proposer n3 = ShardedDirect
  ∧ OpenPebble ok cfg = (KPebble (or_string (DataDir cfg) (bs "/tmp/dpx-pebble")), (true, [], inl n4)) ∧ o_proposer n4 = Direct
  ∧ OpenOshodi ok cfg = (KOshodi (or_string (DataDir cfg) (bs "/tmp/dpx-oshodi")), (true, [], inl n5)) ∧ o_proposer n5 = Direct.
Proof.
  intros Hok Hp.
  destruct (open_on_proposer KMemory (with_engine cfg (DataDir cfg)) Hok eq_refl Hp) as (n1 & E1 & P1 & _).
  destruct (open_on_proposer KMemorySharded (with_engine cfg (DataDir cfg)) Hok eq_refl Hp) as (n2 & E2 & P2 & _).
  destruct (open_on_proposer KMVCCSharded (with_engine cfg (DataDir cfg)) Hok eq_refl Hp) as (n3 & E3 & P3 & _).
  set (d4 := or_string (DataDir cfg) (bs "/tmp/dpx-pebble")). set (d5 := or_string (DataDir cfg) (bs "/tmp/dpx-oshodi")).
  destruct (open_on_proposer (KPebble d4) (with_engine cfg d4) Hok eq_refl Hp) as (n4 & E4 & P4 & _).
  destruct (open_on_proposer (KOshodi d5) (with_engine cfg d5) Hok eq_refl Hp) as (n5 & E5 & P5 & _).
  exists n1, n2, n3, n4, n5. done.
Qed.

(** Without a Raft directory the log is found again after a restart, the
    snapshots are not: their directory is a new one every time. *)
Lemma restart_forgets_snapshots tmp fresh1 fresh2 cfg : s_RaftDir cfg = [] → fresh1 ≠ fresh2 →
  raftDir tmp cfg = tmp ++ bs "/dpx-" ++ s_NodeID cfg ∧ snapshotDir fresh1 cfg ≠ snapshotDir fresh2 cfg.
Proof. intros E Hf. unfold raftDir, snapshotDir. by rewrite E, !decide_True by done. Qed.

(** *** dpxd *)

Lemma cut_equals_none acc n : x3d ∉ n → cut_equals acc n = (acc ++ n, None).
Proof.
  revert acc. induction n as [|c n IH]; intros acc Hn; simpl; [by rewrite app_nil_r|].
  rewrite decide_False by set_solver. rewrite IH by set_solver. by rewrite <- app_assoc.
Qed.

Lemma cut_equals_at acc n v : x3d ∉ n → acc ++ n ≠ [] → cut_equals acc (n ++ x3d :: v) = (acc ++ n, Some v).
Proof.
  revert acc. induction n as [|c n IH]; intros acc Hn Ha; simpl.
  - rewrite app_nil_r in *. by rewrite decide_True.
  - rewrite decide_False by set_solver. rewrite IH; [by rewrite <- app_assoc|set_solver|by destruct acc].
Qed.

(** How a flag is written: one or two dashes, its value in the next argument or
    after an equals sign. *)
Definition spelled (name value : bytes) (args : list bytes) : Prop :=
  args = [x2d :: name; value] ∨ args = [x2d :: x2d :: name; value]
  ∨ args = [x2d :: name ++ x3d :: value] ∨ args = [x2d :: x2d :: name ++ x3d :: value].

Lemma Parse_spelled name value f f' args rest : (name = bs "data" ∨ name = bs "dest") →
  set_flag name value f = Some f' → spelled name value args → Parse (args ++ rest) f = Parse rest f'.
Proof.
  intros Hn Hs Ha.
  assert (∃ c n, name = c :: n ∧ c ≠ x2d ∧ c ≠ x3d ∧ x3d ∉ name ∧ (∀ v, is_Some (set_flag name v f))) as (c & n & En & H1 & H2 & H3 & Hd).
  { destruct Hn as [-> | ->]; do 2 eexists; (split; [reflexivity|]); (split; [done|]); (split; [done|]);
      (split; [set_solver|intros v; by eexists]). }
  assert (∀ s, flag_arg s = FlagNamed name → Parse (s :: value :: rest) f = Parse rest f') as Hnext.
  { intros s E. cbn [Parse]. rewrite E, cut_equals_none by done. cbn [app from_option id]. destruct (Hd []) as [? ->]. cbv beta iota. by rewrite Hs. }
  assert (∀ s, flag_arg s = FlagNamed (name ++ x3d :: value) → Parse (s :: rest) f = Parse rest f') as Heq.
  { intros s E. cbn [Parse]. rewrite E, cut_equals_at by (done || by rewrite En). cbn [app from_option id]. by rewrite Hs. }
  assert (∀ m, ∃ c' m', c :: m = c' :: m' ∧ flag_arg (x2d :: c :: m) = FlagNamed (c :: m)
    ∧ flag_arg (x2d :: x2d :: c :: m) = FlagNamed (c :: m)) as Hf.
  { intros m. exists c, m. split; [done|]. unfold flag_arg. rewrite !(decide_True (P := x2d = x2d)) by done.
    rewrite decide_False by done. by rewrite decide_False by naive_solver. }
  destruct Ha as [->|[->|[->| ->]]]; cbn [app]; [apply Hnext|apply Hnext|apply Heq|apply Heq];
    rewrite En; [destruct (Hf n) as (? & ? & _ & E1 & E2)..|destruct (Hf (n ++ x3d :: value)) as (? & ? & _ & E1 & E2)
      |destruct (Hf (n ++ x3d :: value)) as (? & ? & _ & E1 & E2)]; assumption.
Qed.

(** dpxd backup does what it is told: however the two flags are spelled and in
    whichever order they come, a run whose directories are not empty and in
    which the node opens and the checkpoint succeeds writes the backup of that
    data directory to that destination, exits with 0 and closes the node; and a
    run of the program exits with 0 only when it wrote the backup it reports or
    was asked for help. *)
Theorem dpxd_backup :
  (∀ prog data dest a1 a2 rest, (∀ e, ok e = true) → data ≠ [] → dest ≠ [] →
     spelled (bs "data") data a1 → spelled (bs "dest") dest a2 →
     let r := {| r_exit := 0; r_messages := [MWritten dest]; r_backup := Some (data, dest); r_left_open := false |} in
     main ok true (prog :: bs "backup" :: a1 ++ a2) = r ∧ main ok true (prog :: bs "backup" :: a2 ++ a1) = r
     ∧ main ok true (prog :: bs "backup" :: a1 ++ a2 ++ bs "--" :: rest) = r)
  ∧ ∀ b args, let r := main ok b args in
     r_exit r = 0 → (r_left_open r = false)
       ∧ ((b = true ∧ ∃ data dest, r_backup r = Some (data, dest) ∧ r_messages r = [MWritten dest] ∧ data ≠ [] ∧ dest ≠ [])
          ∨ (r_backup r = None ∧ r_messages r = [MFlagUsage])).
Proof.
  split.
  - intros prog data dest a1 a2 rest Hok Hd Ht S1 S2 r.
    assert (∀ args, Parse args {| f_data := []; f_dest := [] |} = Parsed {| f_data := data; f_dest := dest |} →
      main ok true (prog :: bs "backup" :: args) = r) as Hrun.
    { intros args E. cbn [main]. rewrite decide_True by done. unfold runBackup. rewrite E. cbn [f_data f_dest].
      rewrite decide_False by naive_solver.
      destruct (open_on_proposer (KPebble data) zero_config Hok eq_refl eq_refl) as (n & -> & _). done. }
    split_and!; apply Hrun.
    + rewrite (Parse_spelled (bs "data") data _ {| f_data := data; f_dest := [] |}) by first [done | by left].
      rewrite <- (app_nil_r a2).
      by rewrite (Parse_spelled (bs "dest") dest _ {| f_data := data; f_dest := dest |}) by first [done | by right].
    + rewrite (Parse_spelled (bs "dest") dest _ {| f_data := []; f_dest := dest |}) by first [done | by right].
      rewrite <- (app_nil_r a1).
      by rewrite (Parse_spelled (bs "data") data _ {| f_data := data; f_dest := dest |}) by first [done | by left].
    + rewrite (Parse_spelled (bs "data") data _ {| f_data := data; f_dest := [] |}) by first [done | by left].
      by rewrite (Parse_spelled (bs "dest") dest _ {| f_data := data; f_dest := dest |}) by first [done | by right].
  - intros b args r. subst r. destruct args as [|prog [|cmd args]]; [done..|]. cbn [main]. case_decide; [|done].
    unfold runBackup. destruct (Parse args _) as [f| |]; [|intros _; split; [done|by right]|done]. case_decide as Hne; [done|].
    destruct (open_on ok _ _).2 as [[? ?] [n|e]]; [|done]. destruct b; [|done]. intros _. split; [done|]. left.
    split; [done|]. exists (f_data f), (f_dest f). naive_solver.
Qed.
End props.

Lemma dpxd_backup_witness :
  main (fun _ => true) true [bs "dpxd"; bs "backup"; bs "--dest=/b"; bs "-data"; bs "/d"]
  = {| r_exit := 0; r_messages := [MWritten (bs "/b")]; r_backup := Some (bs "/d", bs "/b"); r_left_open := false |}.
Proof.
  destruct (dpxd_backup (fun _ => true)) as [H _].
  apply (H (bs "dpxd") (bs "/d") (bs "/b") [bs "-data"; bs "/d"] [bs "--dest=/b"] []); try done.
  - left. reflexivity.
  - right. right. right. reflexivity.
Defined.
