(* ===== verification/Node.v ===== *)
(** * The node (src/dpx.go)

    [Node]: one attempt of a transaction ([runOnce]), its retries ([RunInTx]),
    range scans, sequences, health and shutdown, over the direct proposer or a
    Raft group. The retry policy of github.com/olekukonko/jack, the hybrid
    logical clock, Raft and the flush delay are parameters. *)

From S2P Require Import Prelude Types Wire EngineSpec Iter Fsm Occ Direct Tx.

(** The counters of [Metrics] the node keeps; [ConflictTotal] is shared with the
    FSM and lives there. *)
Record NodeMetrics := { TransactionsTotal : Z; ConflictExhausted : Z; BackupTotal : Z }.

(** What [jack.Retry.Do] reports. *)
Inductive retryResult := RetryOk | RetryErr (e : txErr) | RetryExhausted.

Section node.
Context {Eng Snap Bat : Type} `{StorageEngine Eng Snap Bat}.
Context {Clock : Type} (clock_Observe : Clock → Z → Z → Clock) (clock_Tick : Clock → Clock * (Z * Z)).
Context (rs_order : readset → list ReadEntry).
(** [raft.Apply(data)] and its future: the FSM after it, and the response. *)
Context (raft_Apply : dpxFSM Eng Clock → bytes → dpxFSM Eng Clock * (ApplyResult + txErr)).
(** [Batcher.Wait(ctx, len(data))] *)
Context (batcher_Wait : nat → option txErr).

Inductive proposer :=
  | PDirect (d : directProposer Eng Clock)
  | PRaft (f : dpxFSM Eng Clock).

(** The engine is the one the proposer's FSM applies to. *)
Definition proposer_fsm (p : proposer) : dpxFSM Eng Clock :=
  match p with PDirect d => d_fsm d | PRaft f => f end.

Definition set_proposer_fsm (p : proposer) (f : dpxFSM Eng Clock) : proposer :=
  match p with PDirect d => PDirect (set_fsm d f) | PRaft _ => PRaft f end.

Record Node := {
  n_proposer : proposer;
  n_closed : bool;
  n_seqCounter : Z;
  n_clock : Clock;
  n_metrics : option NodeMetrics;
}.

Definition n_engine (n : Node) : Eng := f_engine (proposer_fsm (n_proposer n)).

Definition set_proposer (n : Node) (p : proposer) : Node :=
  {| n_proposer := p; n_closed := n_closed n; n_seqCounter := n_seqCounter n; n_clock := n_clock n;
     n_metrics := n_metrics n |}.
Definition set_seqCounter (n : Node) (s : Z) : Node :=
  {| n_proposer := n_proposer n; n_closed := n_closed n; n_seqCounter := s; n_clock := n_clock n;
     n_metrics := n_metrics n |}.
Definition set_n_clock (n : Node) (c : Clock) : Node :=
  {| n_proposer := n_proposer n; n_closed := n_closed n; n_seqCounter := n_seqCounter n; n_clock := c;
     n_metrics := n_metrics n |}.
Definition add_metrics (n : Node) (f : NodeMetrics → NodeMetrics) : Node :=
  {| n_proposer := n_proposer n; n_closed := n_closed n; n_seqCounter := n_seqCounter n;
     n_clock := n_clock n; n_metrics := f <$> n_metrics n |}.

(** *** One attempt *)

(** The first half of [runOnce]: snapshot, callback, validation, timestamp. It
    ends the attempt or yields the proposal to submit. *)
Inductive speculation := Finished (err : option txErr) | Submit (p : Proposal).

Definition speculate (n : Node) (fn : txProg) : Node * speculation :=
  match eng_GetSnapshot (n_engine n) with
  | inr err => (n, Finished (Some (ErrSnapshot err)))
  | inl snap =>
      let '(tx, fnErr) := run_prog fn (new_tx snap (Some (n_seqCounter n))) in
      let n := set_seqCounter n (default 0 (tx_seq tx)) in
      match fnErr with
      | Some e => (n, Finished (Some e))
      | None =>
          if empty tx then (n, Finished None)
          else
            match validate tx with
            | Some e => (n, Finished (Some e))
            | None =>
                let '(clock, (wall, counter)) := clock_Tick (n_clock n) in
                (set_n_clock n clock, Submit (tx_proposal rs_order tx wall counter))
            end
      end
  end.

(** The proposal's way to the FSM: directly, or marshalled, delayed by the
    batcher and through Raft. The direct proposer is given a batch of its
    own. *)
Definition propose (n : Node) (p : Proposal) : Node * (ApplyResult + txErr) :=
  match n_proposer n with
  | PDirect d =>
      if d_closed d then (n, inr (ErrProposer "direct proposer closed"))
      else
        let '(d, r) := ApplyOneDirect clock_Observe d p in
        (set_proposer n (PDirect d), inl (default res_ok r))
  | PRaft f =>
      let data := default [] (Marshal p) in
      match batcher_Wait (length data) with
      | Some e => (n, inr e)
      | None => let '(f, r) := raft_Apply f data in (set_proposer n (PRaft f), r)
      end
  end.

(** The end of [runOnce]: the result as an error. *)
Definition outcome (r : ApplyResult + txErr) : option txErr :=
  match r with
  | inr e => Some e
  | inl res =>
      match ResErr res with
      | Some e => Some (ErrApplied e)
      | None => if Conflict res then Some ErrConflict else None
      end
  end.

(** (n *Node) runOnce *)
Definition runOnce (n : Node) (fn : txProg) : Node * option txErr :=
  match speculate n fn with
  | (n, Finished err) => (n, err)
  | (n, Submit p) => let '(n, r) := propose n p in (n, outcome r)
  end.

(** *** Retries *)

(** [jack.Retry.Do] with [RetryIf] and [OnRetry]. *)
Context (retry_Do : (Node → Node * option txErr) → (txErr → bool) → (Node → Node) → Node →
                    Node * retryResult).

Definition is_conflict (e : txErr) : bool := match e with ErrConflict => true | _ => false end.

(** The [OnRetry] callback: [n.metrics.ConflictTotal.Add(1)]. *)
Definition on_retry (n : Node) : Node :=
  set_proposer n (set_proposer_fsm (n_proposer n) (count_conflict (proposer_fsm (n_proposer n)))).

(** (n *Node) RunInTx *)
Definition RunInTx (n : Node) (fn : txProg) : Node * option txErr :=
  if n_closed n then (n, Some ErrStoreClosed)
  else
    match retry_Do (fun n => runOnce n fn) is_conflict on_retry n with
    | (n, RetryExhausted) =>
        (add_metrics n (fun m => {| TransactionsTotal := TransactionsTotal m;
                                    ConflictExhausted := u64 (ConflictExhausted m + 1);
                                    BackupTotal := BackupTotal m |}), Some ErrConflictExhausted)
    | (n, RetryErr e) => (n, Some e)
    | (n, RetryOk) =>
        (add_metrics n (fun m => {| TransactionsTotal := u64 (TransactionsTotal m + 1);
                                    ConflictExhausted := ConflictExhausted m;
                                    BackupTotal := BackupTotal m |}), None)
    end.

(** *** Reads outside transactions, and the rest *)

(** (n *Node) GetRange, GetRangeReverse *)
Definition node_range (rev : bool) (n : Node) (start end_ : bytes) (limit : Z) :
    list (bytes * bytes) + txErr :=
  if n_closed n then inr ErrStoreClosed
  else
    match eng_GetSnapshot (n_engine n) with
    | inr err => inr (ErrRead err)
    | inl snap =>
        let '(pairs, err) := snap_NewIter snap start end_ in
        match collectIter (new_iter pairs) err limit rev with
        | Some (inl l) => inl l
        | Some (inr e) => inr (ErrRead e)
        | None => inl []
        end
    end.

Definition GetRange := node_range false.
Definition GetRangeReverse := node_range true.

(** (n *Node) GetSafeReadPoint *)
Definition GetSafeReadPoint (n : Node) : Z := n_seqCounter n.

(** (n *Node) Backup; [create_checkpoint] is the engine's. *)
Definition Backup (create_checkpoint : Eng → option engErr) (n : Node) : Node * option txErr :=
  if n_closed n then (n, Some ErrStoreClosed)
  else match eng_Sync (n_engine n) with
       | Some e => (n, Some (ErrSnapshot e))
       | None =>
           match create_checkpoint (n_engine n) with
           | Some e => (n, Some (ErrSnapshot e))
           | None =>
               (add_metrics n (fun m => {| TransactionsTotal := TransactionsTotal m;
                                           ConflictExhausted := ConflictExhausted m;
                                           BackupTotal := u64 (BackupTotal m + 1) |}), None)
           end
       end.

Record HealthStatus := {
  hs_Alive : bool; hs_Closed : bool; hs_SeqCounter : Z; hs_Transactions : Z; hs_Conflicts : Z;
  hs_ConflictExhausted : Z;
}.

(** (n *Node) Health *)
Definition Health (n : Node) : HealthStatus :=
  {| hs_Alive := negb (n_closed n); hs_Closed := n_closed n; hs_SeqCounter := n_seqCounter n;
     hs_Transactions := from_option TransactionsTotal 0 (n_metrics n);
     hs_Conflicts := match n_metrics n with
                     | Some _ => default 0 (f_metrics (proposer_fsm (n_proposer n)))
                     | None => 0
                     end;
     hs_ConflictExhausted := from_option ConflictExhausted 0 (n_metrics n) |}.

(** (n *Node) Close: the first call runs the shutdown hooks, whose errors are
    [hooks]; the first of them is returned. *)
Definition Close (hooks : Node → Node * list txErr) (n : Node) : Node * option txErr :=
  if n_closed n then (n, None)
  else
    let n := {| n_proposer := n_proposer n; n_closed := true; n_seqCounter := n_seqCounter n;
                n_clock := n_clock n; n_metrics := n_metrics n |} in
    let '(n, errs) := hooks n in (n, head errs).
End node.

Arguments Node Eng Clock : clear implicits.
Arguments proposer Eng Clock : clear implicits.
