(* ===== verification/NodeSpec.v ===== *)
(** * Correctness of transactions

    The transaction layer on top of the verified proposer: a committed attempt
    is equivalent to running its callback at the moment of the commit, an
    attempt without interference commits, credits commute, and [RunInTx] maps
    the outcome of its retries. *)

From S2P Require Import Prelude Types Wire EngineSpec Iter Fsm Occ Direct Tx Node.

Section reads.
Context {Eng Snap Bat : Type} `{EngineLaws Eng Snap Bat}.
Context (rs_order : readset → list ReadEntry).
Context (rs_order_perm : ∀ rs, rs_order rs ≡ₚ (map_to_list rs).*2).

(** A plain callback leaves only deferred entries. *)
Lemma run_prog_deferred p tx tx' err :
  run_prog p tx = (tx', err) → plain p (tx_snap tx) →
  (∀ k re, readSet tx !! k = Some re → re = deferred_read k) →
  ∀ k re, readSet tx' !! k = Some re → re = deferred_read k.
Proof.
  revert tx. induction p as [e|key c IH|key value c IH|key c IH|key delta c IH|s e limit c IH|c IH];
    intros tx Hrun Hp Hd; simpl in Hrun, Hp; try done.
  - by simplify_eq.
  - unfold tx_Get in Hrun. destruct (isReserved key); [by eapply IH|].
    destruct (snap_Get _ key); [|done]. eapply IH; [exact Hrun|done|]. intros k re. simpl.
    rewrite lookup_insert. case_decide; [intros [= <-]; by subst|apply Hd].
  - unfold tx_Set in Hrun. destruct (isReserved key); by eapply IH.
  - unfold tx_Delete in Hrun. destruct (isReserved key); by eapply IH.
Qed.

(** Every key read has its entry in the proposal. *)
Lemma readSetSlice_complete (tx : dpxTx Snap) k :
  readSet tx !! k = Some (deferred_read k) →
  ∃ re, re ∈ readSetSlice rs_order tx ∧ re_Key re = k ∧ re_IsDebit re = false.
Proof.
  intros Hk. unfold readSetSlice. rewrite decide_False.
  2: { intros Hsz%map_size_empty_inv. rewrite Hsz in Hk. by rewrite lookup_empty in Hk. }
  exists (hydrate (tx_snap tx) (deferred_read k)).
  split; [|unfold hydrate; simpl; by destruct (snap_GetVersion _ _)].
  apply list_elem_of_fmap. exists (deferred_read k). split; [done|].
  rewrite rs_order_perm. apply list_elem_of_fmap. exists (k, deferred_read k).
  split; [done|]. by apply elem_of_map_to_list.
Qed.
End reads.

Section node.
Context {Eng Snap Bat : Type} `{EngineLaws Eng Snap Bat}.
Context {Clock : Type} (clock_Observe : Clock → Z → Z → Clock) (clock_Tick : Clock → Clock * (Z * Z)).
Context (rs_order : readset → list ReadEntry).
Context (rs_order_perm : ∀ rs, rs_order rs ≡ₚ (map_to_list rs).*2).
Context (raft_Apply : dpxFSM Eng Clock → bytes → dpxFSM Eng Clock * (ApplyResult + txErr)).
Context (batcher_Wait : nat → option txErr).
Implicit Types n : Node Eng Clock.

Abbreviation runOnce := (runOnce clock_Observe clock_Tick rs_order raft_Apply batcher_Wait).
Abbreviation speculate := (speculate clock_Tick rs_order).

(** What [speculate] submits is the proposal of the callback's run. *)
Lemma speculate_submit n fn n' p :
  speculate n fn = (n', Submit p) →
  ∃ snap tx wall counter, eng_GetSnapshot (n_engine n) = inl snap
    ∧ run_prog fn (new_tx snap (Some (n_seqCounter n))) = (tx, None)
    ∧ p = tx_proposal rs_order tx wall counter ∧ n_proposer n' = n_proposer n ∧ empty tx = false.
Proof.
  unfold Node.speculate. destruct (eng_GetSnapshot _) as [snap|er]; [|done].
  destruct (run_prog fn _) as [tx [e|]] eqn:E; [done|].
  destruct (empty tx) eqn:Ee; [done|]. destruct (validate tx); [done|].
  destruct (clock_Tick _) as [c [wall counter]]. intros [= <- <-]. by exists snap, tx, wall, counter.
Qed.

Lemma speculate_client n fn n' p : speculate n fn = (n', Submit p) → client_proposal p.
Proof.
  intros (snap & tx & wall & counter & _ & Hrun & -> & _)%speculate_submit.
  destruct (run_prog_wf _ _ _ _ (new_tx_wf _ _) Hrun) as [[Hw _] _]. done.
Qed.

(** The reads of a plain callback that are valid have their snapshot values. *)
Lemma plain_reads_unchanged e0 snap fn tx wall counter seq m err :
  run_prog fn (new_tx snap seq) = (tx, err) → plain fn snap →
  Forall (read_valid (eng_abs e0) m) (ReadSet (tx_proposal rs_order tx wall counter)) →
  ∀ k, is_Some (readSet tx !! k) → m !! k = eng_abs e0 !! k.
Proof.
  intros Hrun Hp Hv k [re Hk].
  assert (re = deferred_read k) as ->.
  { eapply (run_prog_deferred fn _ _ _ Hrun Hp); [|exact Hk].
    intros k' re'. simpl. by rewrite lookup_empty. }
  destruct (readSetSlice_complete rs_order rs_order_perm tx k Hk) as (re & Hin & Ek & Hd).
  rewrite Forall_forall in Hv. specialize (Hv re Hin). rewrite <- Ek.
  destruct Hv as [Hv|[Hv _]]; [done|congruence].
Qed.

(** Snapshots of two engines whose stores agree on a key, and whose reads do not
    fail, answer alike. *)
Lemma snap_get_agree e1 s1 e2 s2 k :
  eng_inv e1 → eng_GetSnapshot e1 = inl s1 → eng_inv e2 → eng_GetSnapshot e2 = inl s2 →
  eng_abs e1 !! k = eng_abs e2 !! k → reads_ok s1 → (∀ msg, snap_Get s2 k ≠ inr (ErrEngine msg)) →
  snap_Get s1 k = snap_Get s2 k.
Proof.
  intros Hi1 H1 Hi2 H2 E Hok Hok2.
  rewrite (answers_ok _ _ (law_snap_get _ _ k Hi1 H1) (fun msg => proj1 (Hok k msg))).
  by rewrite (answers_ok _ _ (law_snap_get _ _ k Hi2 H2) Hok2), E.
Qed.

(** C1. Transactions over the direct proposer are serializable. A callback that
    gets existing keys, sets and deletes is run on a node between two batches,
    its proposer in a good state [d0] (the epoch map agrees with the stored
    version records and the index is not below any version, which holds from a
    fresh store on but not after a reopen), without a read error, and yields the
    proposal [p]. Batches of client proposals (known operations on unreserved keys) are applied, then
    one that accepts [p]; no proposal of theirs is answered with an error of the
    engine and the 64-bit index does not overflow. Then the store after that
    batch is its accepted proposals executed in order, and running the callback
    on any engine that holds the store as it was when [p] committed, and that
    reads without errors, has the same result and performs exactly the writes of
    [p]. *)
Theorem transaction_serializable n0 fn n1 p d0 snap0 d ps d' rs ns cs1 idx cs2 :
  n_proposer n0 = PDirect d0 → dinv d0 →
  eng_GetSnapshot (n_engine n0) = inl snap0 → plain fn snap0 →
  speculate n0 fn = (n1, Submit p) →
  dreach clock_Observe d0 d → Forall client_proposal ps →
  d_index d + Z.of_nat (length ps) < 2 ^ 64 →
  applyBatchDirect clock_Observe d ps = (d', rs, ns) → no_engine_error rs →
  accepted (d_index d) ps rs = cs1 ++ (idx, p) :: cs2 →
  let m := commits (d_store d) cs1 in
  d_store d' = commits (commit m (idx, p)) cs2 ∧
  ∀ e snap seq, eng_inv e → eng_abs e = m → eng_GetSnapshot e = inl snap → reads_ok snap →
    ∃ tx', run_prog fn (new_tx snap seq) = (tx', None) ∧ writes tx' = Writes p.
Proof.
  intros Hn Hd0 Hs0 Hp Hs Hr Hps Hb Ha Hno Hcs m.
  destruct (direct_batch_serial clock_Observe d0 d ps d' rs ns Hd0 Hr Hps Hb Ha Hno) as [Hst Hv].
  split; [rewrite Hst, Hcs; unfold m, commits; by rewrite foldl_app|].
  intros e snap seq He Hm Hsn Hok.
  destruct (speculate_submit n0 fn n1 p Hs) as (s & tx & wall & counter & Es & Hrun & -> & _ & _).
  rewrite Hs0 in Es. injection Es as <-.
  assert (n_engine n0 = f_engine (d_fsm d0)) as En by (unfold n_engine; by rewrite Hn).
  destruct (run_prog_wf _ _ _ _ (new_tx_wf _ _) Hrun) as [Hwf Htx]. rewrite En in *. cbn [tx_snap new_tx] in Htx.
  pose proof (di_engine _ Hd0) as Hi0.
  assert (eng_GetSnapshot (f_engine (d_fsm d0)) = inl (tx_snap tx)) as Hs0' by by rewrite Htx.
  specialize (Hv cs1 idx _ cs2 Hcs (tx_proposal_reads rs_order rs_order_perm _ tx wall counter Hi0 Hwf Hs0')).
  pose proof (plain_reads_unchanged (f_engine (d_fsm d0)) _ _ _ _ _ _ _ _ Hrun Hp Hv) as Hun.
  destruct (run_prog_rerun fn _ (new_tx snap seq) tx None Hrun Hp) as (tx' & Hrun' & Hw).
  - intros k Hk. cbn [tx_snap new_tx]. eapply (snap_get_agree e snap (f_engine (d_fsm d0)) snap0); try done.
    + rewrite Hm. by apply Hun.
    + intros msg. by eapply run_prog_read_ok.
  - done.
  - by exists tx'.
Qed.

(** *** An attempt without interference *)

(** A proposal alone in its batch commits when its reads pass the check, unless
    the engine reports an error. *)
Lemma ApplyOneDirect_passes d p d' r :
  dinv d → client_proposal p → d_index d + 1 < 2 ^ 64 →
  Forall (fun re => isReserved (re_Key re) = false ∧ passes (ver (d_store d) (re_Key re)) re) (ReadSet p) →
  ApplyOneDirect clock_Observe d p = (d', Some r) → engine_error r = false →
  r = res_ok ∧ dinv d' ∧ d_store d' = commit (d_store d) (d_index d + 1, p) ∧ d_index d' = d_index d + 1.
Proof.
  intros Hd Hp Hb Hrf Hap Hno. unfold ApplyOneDirect in Hap.
  destruct (applyBatchDirect clock_Observe d [p]) as [[d1 rs] ns] eqn:Ea. injection Hap as -> Hr.
  pose proof (applyBatchDirect_length clock_Observe _ _ _ _ _ Ea) as Hl.
  destruct rs as [|r1 [|]]; try done. injection Hr as ->.
  destruct (applyBatchDirect_spec clock_Observe d [p] d' [r] ns) as (Hd' & _ & Hi & Hst & _);
    [done|by constructor|simpl; lia|done|by constructor|].
  assert (r = res_ok) as ->; [|done].
  assert (stack_conflict (f_keyEpoch (observe clock_Observe (d_fsm d) p)) [] (ReadSet p) false = false) as Hc.
  { rewrite (proj2 (observe_fields clock_Observe (d_fsm d) p)). apply stack_conflict_exact.
    eapply Forall_impl; [exact Hrf|]. intros re [Hk He]. by rewrite (di_ke _ Hd). }
  unfold applyBatchDirect in Ea. cbn [length] in Ea. rewrite decide_True in Ea by (unfold maxStackShadow; lia).
  cbn [small_batch] in Ea. unfold small_entry in Ea. cbn [d_fsm set_index set_fsm] in Ea. rewrite Hc in Ea.
  destruct (stack_writes _ _ _ _ _) as [[bat sh] ke]. unfold commit_batch in Ea.
  destruct (eng_ApplyBatch _ _ _) as [eng [er|]]; [|by simplify_eq].
  injection Ea as _ Er _. by rewrite <- Er in Hno.
Qed.

Lemma ApplyOneDirect_result d p : ∃ d' r, ApplyOneDirect clock_Observe d p = (d', Some r).
Proof.
  unfold ApplyOneDirect. destruct (applyBatchDirect clock_Observe d [p]) as [[d1 rs] ns] eqn:Ea.
  apply applyBatchDirect_length in Ea. destruct rs as [|r [|]]; try done. by exists d1, r.
Qed.

(** An engine without errors. *)
Lemma ApplyOneDirect_clean `{!InfallibleEngine Eng Snap Bat} d p d' r :
  dinv d → client_proposal p → d_index d + 1 < 2 ^ 64 →
  ApplyOneDirect clock_Observe d p = (d', Some r) → engine_error r = false.
Proof.
  intros Hd Hp Hb. unfold ApplyOneDirect.
  destruct (applyBatchDirect clock_Observe d [p]) as [[d1 rs] ns] eqn:Ea.
  pose proof (applyBatchDirect_clean clock_Observe d [p] d1 rs ns Hd ltac:(by constructor) ltac:(simpl; lia) Ea) as Hno.
  intros [= _ Hr]. destruct rs; [done|]. injection Hr as ->. by apply Forall_cons in Hno as [? _].
Qed.

Lemma ApplyOneDirect_commits `{!InfallibleEngine Eng Snap Bat} d p :
  dinv d → client_proposal p → d_index d + 1 < 2 ^ 64 → reads_exact (d_store d) (ReadSet p) →
  ∃ d', ApplyOneDirect clock_Observe d p = (d', Some res_ok) ∧ dinv d'
    ∧ d_store d' = commit (d_store d) (d_index d + 1, p) ∧ d_index d' = d_index d + 1.
Proof.
  intros Hd Hp Hb Hrf. destruct (ApplyOneDirect_result d p) as (d' & r & Ha). exists d'.
  pose proof (ApplyOneDirect_clean d p d' r Hd Hp Hb Ha) as Hno.
  destruct (ApplyOneDirect_passes d p d' r Hd Hp Hb) as (-> & ? & ? & ?); [|done..].
  eapply Forall_impl; [exact Hrf|]. intros re [Hk He]. split; [done|]. left. unfold d_store in *. lia.
Qed.

(** The error is not one of the engine's commit. *)
Definition not_refused (err : option txErr) : Prop := ∀ e, err ≠ Some (ErrApplied e).

Lemma runOnce_quiet n d snap fn n' err :
  n_proposer n = PDirect d → d_closed d = false → dinv d → d_index d + 1 < 2 ^ 64 →
  eng_GetSnapshot (n_engine n) = inl snap → reads_ok snap →
  runOnce n fn = (n', err) → not_refused err →
  ∃ tx fnErr d', run_prog fn (new_tx snap (Some (n_seqCounter n))) = (tx, fnErr)
    ∧ n_proposer n' = PDirect d' ∧ dinv d'
    ∧ err = match fnErr with
            | Some e => Some e
            | None => if empty tx then None else validate tx
            end
    ∧ if decide (fnErr = None ∧ empty tx = false ∧ validate tx = None)
      then ∃ wall counter,
        d_store d' = commit (d_store d) (d_index d + 1, tx_proposal rs_order tx wall counter)
      else d' = d.
Proof.
  intros Hn Hcl Hd Hb Hsn Hok. unfold Node.runOnce.
  destruct (run_prog fn (new_tx snap (Some (n_seqCounter n)))) as [tx fnErr] eqn:Erun.
  destruct (speculate n fn) as [n1 [err1|p]] eqn:Es.
  - intros [= <- <-] _. exists tx, fnErr, d. unfold Node.speculate in Es. rewrite Hsn, Erun in Es.
    destruct fnErr as [e|]; [simplify_eq; by rewrite decide_False by naive_solver|].
    destruct (empty tx) eqn:Ee; [simplify_eq; by rewrite decide_False by naive_solver|].
    destruct (validate tx) as [e|] eqn:Ev; [simplify_eq; by rewrite decide_False by naive_solver|].
    destruct (clock_Tick _) as [c [wall counter]]. done.
  - pose proof (speculate_client n fn n1 p Es) as Hcp.
    assert (fnErr = None ∧ empty tx = false ∧ validate tx = None) as (-> & Ee & Ev).
    { unfold Node.speculate in Es. rewrite Hsn, Erun in Es. destruct fnErr; [done|].
      destruct (empty tx); [done|]. by destruct (validate tx). }
    destruct (speculate_submit n fn n1 p Es) as (s & tx' & wall & counter & Es' & Hrun & -> & Hpr & _).
    rewrite Hsn in Es'. injection Es' as <-. rewrite Erun in Hrun. simplify_eq.
    destruct (run_prog_wf _ _ _ _ (new_tx_wf _ _) Erun) as [Hwf Htx].
    assert (n_engine n = f_engine (d_fsm d)) as En by (unfold n_engine; by rewrite Hn).
    cbn [tx_snap new_tx] in Htx. rewrite En in Hsn.
    unfold propose. rewrite Hpr, Hn, Hcl.
    destruct (ApplyOneDirect_result d (tx_proposal rs_order tx' wall counter)) as (d' & r & Ha). rewrite Ha. simpl.
    intros [= <- <-] Hnr.
    destruct (ApplyOneDirect_passes d (tx_proposal rs_order tx' wall counter) d' r Hd Hcp Hb)
      as (-> & Hd' & Hst & _); [|done| |].
    { assert (reads_exact (d_store d) (ReadSet (tx_proposal rs_order tx' wall counter))) as Hex.
      { unfold d_store. apply tx_proposal_exact; [done|apply Hd|done|by rewrite Htx|by rewrite Htx]. }
      eapply Forall_impl; [exact Hex|]. intros re [Hk He]. split; [done|]. left. lia. }
    { unfold engine_error. destruct (ResErr r) as [e|]; [|done]. by destruct (Hnr e). }
    exists tx', None, d'. rewrite Ee, Ev. split_and!; try done. rewrite decide_True by done. by exists wall, counter.
Qed.

(** Without interference a transaction commits at its first attempt: on an open
    node over the direct proposer in a good state, when the snapshot and its
    reads do not fail and the engine does not refuse the commit, the attempt
    ends with the callback's or validation's error, or with success; never with
    a conflict. On success the store is unchanged if nothing was written, and
    otherwise holds exactly the callback's writes. *)
Theorem runOnce_uncontended n d snap fn n' err :
  n_proposer n = PDirect d → d_closed d = false → dinv d → d_index d + 1 < 2 ^ 64 →
  eng_GetSnapshot (n_engine n) = inl snap → reads_ok snap →
  runOnce n fn = (n', err) → not_refused err →
  ∃ tx fnErr d', run_prog fn (new_tx snap (Some (n_seqCounter n))) = (tx, fnErr)
    ∧ n_proposer n' = PDirect d' ∧ dinv d'
    ∧ err = match fnErr with
            | Some e => Some e
            | None => if empty tx then None else validate tx
            end
    ∧ if decide (fnErr = None ∧ empty tx = false ∧ validate tx = None)
      then ∃ wall counter,
        d_store d' = commit (d_store d) (d_index d + 1, tx_proposal rs_order tx wall counter)
      else d' = d.
Proof. apply runOnce_quiet. Qed.
End node.
