(* ===== verification/NodeProps.v ===== *)
(** * Credits, retries and scans

    Blind writes never conflict and credits commute whatever their order; the
    outcomes of [RunInTx] under the documented behaviour of the retry library;
    range scans of the node; and two transactions that create the same key. *)

From S2P Require Import Prelude Types Wire EngineSpec Iter BTree Memory Fsm Occ.
From S2P Require Import Direct Tx Node NodeSpec Reopen Raft Batching Scenarios.

(** ** Credits *)

(** Only counters are changed: every write is a credit or a debit of an
    unreserved key, and nothing is read. *)
Definition blind_add (p : Proposal) : Prop :=
  ReadSet p = []
  ∧ Forall (fun w => isReserved (we_Key w) = false ∧ (we_Op w = OpCredit ∨ we_Op w = OpDebit)) (Writes p).

Lemma blind_client p : blind_add p → client_proposal p.
Proof.
  intros [_ Hw]. eapply Forall_impl; [exact Hw|]. unfold known_op. naive_solver.
Qed.

(** The additions a list of writes makes to one key. *)
Definition add_writes (k : bytes) (v : option bytes) (ws : list WriteEntry) : option bytes :=
  foldl (fun v w => if decide (we_Key w = k) then Some (mergeInt64 (default [] v) (we_Value w)) else v) v ws.

Lemma lookup_writes_ops_adds idx ws m k :
  isReserved k = false →
  Forall (fun w => isReserved (we_Key w) = false ∧ (we_Op w = OpCredit ∨ we_Op w = OpDebit)) ws →
  spec_ops m (writes_ops idx ws) !! k = add_writes k (m !! k) ws.
Proof.
  intros Hk Hw. revert m. induction Hw as [|w ws [Hr Ho] _ IH]; intros m; [done|].
  rewrite writes_ops_cons, IH. simpl. f_equal.
  assert (write_op w = Some (BMerge (we_Key w) (we_Value w))) as E
    by (unfold write_op; by destruct Ho as [-> | ->]).
  unfold write_ops. rewrite E. simpl. rewrite lookup_spec_op_ne by (simpl; apply not_eq_sym; by apply user_key_ne_version).
  rewrite lookup_spec_op. simpl. done.
Qed.

Lemma lookup_commits_adds cs m k :
  isReserved k = false → Forall (fun c => blind_add c.2) cs →
  commits m cs !! k = add_writes k (m !! k) (concat (map (fun c => Writes c.2) cs)).
Proof.
  intros Hk Hcs. revert m. induction Hcs as [|c cs [_ Hw] _ IH]; intros m; [done|].
  simpl. rewrite IH. unfold add_writes. rewrite foldl_app. f_equal.
  unfold commit. rewrite commit_ops_last, lookup_applied_op by done. by apply lookup_writes_ops_adds.
Qed.

(** Additions may be made in any order. *)
Lemma add_writes_perm k v ws ws' : ws ≡ₚ ws' → add_writes k v ws = add_writes k v ws'.
Proof.
  intros Hp. revert v. induction Hp as [|w ws ws' _ IH|w w' ws|ws1 ws2 ws3 _ IH1 _ IH2]; intros v; simpl.
  - done.
  - apply IH.
  - f_equal. repeat case_decide; try done. simpl. f_equal. apply mergeInt64_comm.
  - by rewrite IH1.
Qed.

Section credits.
Context {Eng Snap Bat : Type} `{EngineLaws Eng Snap Bat}.
Context {Clock : Type} (clock_Observe : Clock → Z → Z → Clock).
Implicit Types d : directProposer Eng Clock.

(** Without an engine error the results are those of the validation loop. *)
Lemma commit_batch_results d (bat : Bat) rs d' rs' :
  commit_batch d bat rs = (d', rs') → no_engine_error rs' → rs' = rs.
Proof.
  unfold commit_batch. destruct (eng_ApplyBatch _ _ _) as [eng [e|]]; [|by intros [= _ <-]]. intros [= _ <-] Hno.
  induction rs as [|r rs IH]; [done|]. simpl in *. apply Forall_cons in Hno as [Hr Hno].
  destruct (is_ok r); [done|]. f_equal. by apply IH.
Qed.

Lemma applyBatchDirect_results d ps d' rs ns :
  applyBatchDirect clock_Observe d ps = (d', rs, ns) → no_engine_error rs →
  rs = if decide (length ps ≤ maxStackShadow)%nat
       then (small_batch clock_Observe d (eng_NewBatch (f_engine (d_fsm d))) [] false ps).2
       else (large_batch clock_Observe d (eng_NewBatch (f_engine (d_fsm d))) ∅ false ps).2.
Proof.
  unfold applyBatchDirect. case_decide.
  - destruct (small_batch _ _ _ _ _ _) as [[[d1 bat] hw] rs1]. destruct hw; [|by intros [= _ <- _]].
    destruct (commit_batch d1 bat rs1) as [d2 rs2] eqn:E. intros [= _ <- _] Hno. by eapply commit_batch_results.
  - destruct (large_batch _ _ _ _ _ _) as [[[d1 bat] hw] rs1]. destruct hw; [|by intros [= _ <- _]].
    destruct (commit_batch d1 bat rs1) as [d2 rs2] eqn:E. intros [= _ <- _] Hno. by eapply commit_batch_results.
Qed.

Lemma apply_writes_known idx ws (bat : Bat) shadow ke :
  client_writes ws → (apply_writes idx ws bat shadow ke).2 = None.
Proof.
  intros Hw. revert bat shadow ke. induction Hw as [|w ws [_ Hk] _ IH]; intros bat shadow ke; [done|].
  cbn [apply_writes]. destruct (known_write_op w Hk) as [o ->]. apply IH.
Qed.

(** Proposals that read nothing are accepted by both paths. *)
Lemma blind_small_ok ps d (bat : Bat) sh hw :
  Forall blind_add ps →
  (small_batch clock_Observe d bat sh hw ps).2 = replicate (length ps) res_ok.
Proof.
  intros Hps. revert d bat sh hw. induction Hps as [|p ps [Hr Hw] _ IH]; intros d bat sh hw; [done|].
  cbn [small_batch length replicate]. unfold small_entry. rewrite Hr. cbn [stack_conflict].
  destruct (stack_writes _ _ _ _ _) as [[bat1 sh1] ke1].
  match goal with |- context [small_batch clock_Observe ?d1 ?b1 ?s1 ?h1 ps] =>
    specialize (IH d1 b1 s1 h1); destruct (small_batch clock_Observe d1 b1 s1 h1 ps) as [[[d2 bat2] hw2] rs] end.
  simpl in IH |- *. by rewrite IH.
Qed.

Lemma blind_large_ok ps d (bat : Bat) shadow hw :
  Forall blind_add ps →
  (large_batch clock_Observe d bat shadow hw ps).2 = replicate (length ps) res_ok.
Proof.
  intros Hps. revert d bat shadow hw. induction Hps as [|p ps Hp _ IH]; intros d bat shadow hw; [done|].
  cbn [large_batch length replicate]. unfold large_entry. rewrite (proj1 Hp). cbn [detectConflict].
  unfold applyProposalToBatch.
  match goal with |- context [apply_writes ?i ?ws ?b ?s ?k] =>
    pose proof (apply_writes_known i ws b s k (blind_client p Hp)) as Hn;
    destruct (apply_writes i ws b s k) as [[[bat1 sh1] ke1] err] end.
  simpl in Hn. subst err.
  match goal with |- context [large_batch clock_Observe ?d1 ?b1 ?s1 ?h1 ps] =>
    specialize (IH d1 b1 s1 h1); destruct (large_batch clock_Observe d1 b1 s1 h1 ps) as [[[d2 bat2] hw2] rs] end.
  simpl in IH |- *. by rewrite IH.
Qed.

Lemma accepted_all i ps :
  map snd (accepted i ps (replicate (length ps) res_ok)) = ps.
Proof. revert i. induction ps as [|p ps IH]; intros i; simpl; [done|]. by rewrite IH. Qed.

Lemma blind_batch_store d ps d' rs ns k :
  dinv d → Forall blind_add ps → d_index d + Z.of_nat (length ps) < 2 ^ 64 →
  applyBatchDirect clock_Observe d ps = (d', rs, ns) → no_engine_error rs → isReserved k = false →
  rs = replicate (length ps) res_ok
  ∧ d_store d' !! k = add_writes k (d_store d !! k) (concat (map Writes ps)).
Proof.
  intros Hd Hps Hb Ha Hno Hk.
  assert (Forall client_proposal ps) as Hc by (eapply Forall_impl; [exact Hps|apply blind_client]).
  assert (rs = replicate (length ps) res_ok) as Hrs.
  { rewrite (applyBatchDirect_results d ps d' rs ns Ha Hno). case_decide; [by apply blind_small_ok|by apply blind_large_ok]. }
  split; [done|].
  destruct (applyBatchDirect_spec clock_Observe d ps d' rs ns Hd Hc Hb Ha Hno) as (_ & _ & _ & Hst & _).
  rewrite Hst, Hrs. pose proof (accepted_all (d_index d) ps) as Hall.
  rewrite lookup_commits_adds; [|done|].
  - rewrite <- Hall at 3. by rewrite map_map.
  - assert (Forall blind_add (map snd (accepted (d_index d) ps (replicate (length ps) res_ok)))) as Hf
      by by rewrite Hall.
    apply Forall_forall. intros c Hin. apply (proj1 (Forall_forall _ _) Hf). by apply (list_elem_of_fmap_2 snd).
Qed.

(** C8. Credits never conflict and commute: proposals that read nothing and only
    credit or debit unreserved keys, applied in one batch from a good state of
    the direct proposer, are all accepted unless the engine refuses the batch,
    and whatever the order in which they arrive every unreserved key ends with
    the same value, the wrapping int64 sum of its old value and all deltas. The
    64-bit index does not overflow. *)
Theorem credits_commute d ps ps' d1 rs1 ns1 d2 rs2 ns2 k :
  dinv d → Forall blind_add ps → ps ≡ₚ ps' → d_index d + Z.of_nat (length ps) < 2 ^ 64 →
  applyBatchDirect clock_Observe d ps = (d1, rs1, ns1) →
  applyBatchDirect clock_Observe d ps' = (d2, rs2, ns2) →
  no_engine_error rs1 → no_engine_error rs2 → isReserved k = false →
  rs1 = replicate (length ps) res_ok ∧ rs2 = rs1
  ∧ d_store d1 !! k = add_writes k (d_store d !! k) (concat (map Writes ps))
  ∧ d_store d2 !! k = d_store d1 !! k.
Proof.
  intros Hd Hps Hp Hb Ha1 Ha2 Hno1 Hno2 Hk.
  assert (Forall blind_add ps') as Hps' by (by rewrite <- Hp).
  assert (length ps = length ps') as Hl by (by apply Permutation_length).
  destruct (blind_batch_store d ps d1 rs1 ns1 k Hd Hps Hb Ha1 Hno1 Hk) as [-> Hs1].
  destruct (blind_batch_store d ps' d2 rs2 ns2 k) as [-> Hs2]; [done|done|lia|done|done|done|].
  rewrite Hl. split_and!; [done|done|done|]. rewrite Hs1, Hs2. apply add_writes_perm.
  symmetry. assert (map Writes ps ≡ₚ map Writes ps') as Hm by by apply Permutation_map.
  clear -Hm. induction Hm as [|x l l' _ IH|x y l|l1 l2 l3 _ IH1 _ IH2]; simpl.
  - done.
  - by rewrite IH.
  - rewrite !app_assoc. f_equiv. apply Permutation_app_comm.
  - by rewrite IH1.
Qed.
End credits.

(** ** Retries and scans *)

(** The documented behaviour of [jack.Retry.Do] on a state of any type: attempt
    the function, stop at a success or at an error that is not to be retried,
    call the callback between attempts, and give up after the last one. *)
Inductive retry_run {A : Type} (f : A → A * option txErr) (retryIf : txErr → bool) (onRetry : A → A) :
    nat → A → A → retryResult → Prop :=
  | rr_ok k n n' : f n = (n', None) → retry_run f retryIf onRetry (S k) n n' RetryOk
  | rr_err k n n' e :
      f n = (n', Some e) → retryIf e = false → retry_run f retryIf onRetry (S k) n n' (RetryErr e)
  | rr_exhausted n n' e :
      f n = (n', Some e) → retryIf e = true → retry_run f retryIf onRetry 1 n n' RetryExhausted
  | rr_again k n n1 n' r e :
      f n = (n1, Some e) → retryIf e = true → retry_run f retryIf onRetry (S k) (onRetry n1) n' r →
      retry_run f retryIf onRetry (S (S k)) n n' r.

Section retries.
Context {Eng Snap Bat : Type} `{EngineLaws Eng Snap Bat}.
Context {Clock : Type} (clock_Observe : Clock → Z → Z → Clock) (clock_Tick : Clock → Clock * (Z * Z)).
Context (rs_order : readset → list ReadEntry).
Context (rs_order_perm : ∀ rs, rs_order rs ≡ₚ (map_to_list rs).*2).
Context (raft_Apply : dpxFSM Eng Clock → bytes → dpxFSM Eng Clock * (ApplyResult + txErr)).
Context (batcher_Wait : nat → option txErr).
Implicit Types n : Node Eng Clock.

Context (retry_Do : (Node Eng Clock → Node Eng Clock * option txErr) → (txErr → bool) →
                    (Node Eng Clock → Node Eng Clock) → Node Eng Clock → Node Eng Clock * retryResult).
Context (maxAttempts : nat).
Context (retry_law : ∀ f retryIf onRetry n n' r,
  retry_Do f retryIf onRetry n = (n', r) → retry_run f retryIf onRetry maxAttempts n n' r).

Abbreviation run_in_tx :=
  (RunInTx clock_Observe clock_Tick rs_order raft_Apply batcher_Wait retry_Do).

(** C7. [RunInTx] on an open node that nobody else uses, over the direct proposer
    in a good state (the epoch map agrees with the stored versions, the index is
    not below any of them and does not overflow): a callback that succeeds with
    valid writes, the snapshot and its reads not failing, is committed at its
    first attempt. Unless the engine refuses the commit, no error is returned,
    one transaction is counted, and the store is the old one with the callback's
    proposal executed. *)
Theorem RunInTx_commits n d snap fn tx n' err :
  n_closed n = false → n_proposer n = PDirect d → d_closed d = false → dinv d → d_index d + 1 < 2 ^ 64 →
  eng_GetSnapshot (n_engine n) = inl snap → reads_ok snap →
  run_prog fn (new_tx snap (Some (n_seqCounter n))) = (tx, None) →
  empty tx = false → validate tx = None →
  run_in_tx n fn = (n', err) → not_refused err →
  err = None ∧ ∃ d' wall counter, n_proposer n' = PDirect d' ∧ dinv d'
    ∧ d_store d' = commit (d_store d) (d_index d + 1, tx_proposal rs_order tx wall counter)
    ∧ TransactionsTotal <$> n_metrics n' = (fun m => u64 (TransactionsTotal m + 1)) <$> n_metrics n.
Proof.
  intros Hc Hp Hdc Hd Hb Hsn Hok Hrun Hne Hv. unfold RunInTx. rewrite Hc.
  destruct (retry_Do _ _ _ n) as [n1 r] eqn:Er. apply retry_law in Er.
  destruct (runOnce clock_Observe clock_Tick rs_order raft_Apply batcher_Wait n fn) as [n2 err0] eqn:Eo.
  assert (n_metrics n2 = n_metrics n) as Hm.
  { unfold runOnce, speculate in Eo. rewrite Hsn, Hrun, Hne, Hv in Eo.
    destruct (clock_Tick _) as [c [w ct]]. unfold propose in Eo. cbn [n_proposer set_n_clock set_seqCounter] in Eo.
    rewrite Hp, Hdc in Eo. destruct (ApplyOneDirect _ _ _) as [d1 r1]. by simplify_eq. }
  pose proof (runOnce_quiet clock_Observe clock_Tick rs_order rs_order_perm raft_Apply batcher_Wait
    n d snap fn n2 err0 Hp Hdc Hd Hb Hsn Hok Eo) as Hq. intros Hret Hnr.
  assert (not_refused err0 → err0 = None ∧ ∃ d' wall counter, n_proposer n2 = PDirect d' ∧ dinv d'
    ∧ d_store d' = commit (d_store d) (d_index d + 1, tx_proposal rs_order tx wall counter)) as Hres.
  { intros Hnr0. destruct (Hq Hnr0) as (tx' & fnErr & d' & Hrun' & Hp' & Hd' & Herr & Hst).
    rewrite Hrun in Hrun'. simplify_eq. rewrite Hne, Hv in *. rewrite decide_True in Hst by done.
    destruct Hst as (wall & counter & Hst). split; [done|]. by exists d', wall, counter. }
  assert (err0 = None ∨ ∃ e, err0 = Some (ErrApplied e)) as Hcase.
  { destruct err0 as [[]|]; eauto; left; by apply Hres. }
  inversion Er as [k ? ? Ef|k ? ? e Ef Hif|? ? e Ef Hif|k ? n3 ? ? e Ef Hif]; subst; rewrite Eo in Ef; simplify_eq;
    destruct Hcase as [?|[e' ?]]; simplify_eq.
  - destruct Hres as [_ (d' & wall & counter & Hp' & Hd' & Hst)]; [done|]. split; [done|].
    exists d', wall, counter. split_and!; [exact Hp'|done|exact Hst|]. cbn. rewrite Hm. by destruct (n_metrics n).
  - by destruct (Hnr e').
Qed.

(** Scans outside transactions return, in key order, the first [limit]
    unreserved pairs of the range in the store; a reverse scan returns those
    same pairs backwards. A closed node refuses. *)
Theorem node_range_spec n snap start end_ limit rev :
  eng_inv (n_engine n) → eng_GetSnapshot (n_engine n) = inl snap → (snap_NewIter snap start end_).2 = None →
  node_range rev n start end_ limit
  = if n_closed n then inr ErrStoreClosed
    else let l := limited limit (user_pairs start end_ (eng_abs (n_engine n))) in
         inl (if rev then reverse l else l).
Proof.
  intros Hi Hs Hn. unfold node_range. destruct (n_closed n); [done|]. rewrite Hs.
  destruct (snap_NewIter _ _ _) as [pairs err] eqn:E. simpl in Hn. subst err.
  eapply law_new_iter in E; [|done|done]. subst pairs.
  unfold collectIter. rewrite collect_spec. cbn [it_pairs new_iter].
  destruct rev; [|done]. by rewrite reverse_pairs_spec.
Qed.
End retries.
