(* ===== verification/NodeScenarios.v ===== *)
(** * Transactions on a concrete node

    A node over the in-memory engine: the hypotheses of the transaction theorems
    hold for it, and two transactions that create the same key show what reads
    of missing keys are worth. *)

From S2P Require Import Prelude Types Wire EngineSpec Iter BTree Memory Fsm Occ Direct.
From S2P Require Import Tx Node NodeSpec Reopen Raft Batching Scenarios NodeProps.

Abbreviation MemNode := (Node MemEngine unit).

Definition tick (c : unit) : unit * (Z * Z) := (c, (1, 0)).
Definition rs_list (rs : readset) : list ReadEntry := (map_to_list rs).*2.
Definition no_raft (f : MemFSM) (data : bytes) : MemFSM * (ApplyResult + txErr) := (f, inr ErrNotLeader).
Definition no_wait (len : nat) : option txErr := None.

Lemma rs_list_perm rs : rs_list rs ≡ₚ (map_to_list rs).*2.
Proof. done. Qed.

(** A retry loop with the documented behaviour. *)
Fixpoint retry_loop {A : Type} (k : nat) (f : A → A * option txErr) (retryIf : txErr → bool)
    (onRetry : A → A) (n : A) : A * retryResult :=
  match f n with
  | (n', None) => (n', RetryOk)
  | (n', Some e) =>
      if retryIf e then match k with O => (n', RetryExhausted) | S k' => retry_loop k' f retryIf onRetry (onRetry n') end
      else (n', RetryErr e)
  end.

Lemma retry_loop_law {A : Type} k (f : A → A * option txErr) retryIf onRetry n n' r :
  retry_loop k f retryIf onRetry n = (n', r) → retry_run f retryIf onRetry (S k) n n' r.
Proof.
  revert n. induction k as [|k IH]; intros n Hr; simpl in Hr; destruct (f n) as [n1 [e|]] eqn:Ef.
  - destruct (retryIf e) eqn:Ee; simplify_eq; [by eapply rr_exhausted|by apply rr_err].
  - simplify_eq. by apply rr_ok.
  - destruct (retryIf e) eqn:Ee; [|simplify_eq; by apply rr_err]. eapply rr_again; eauto.
  - simplify_eq. by apply rr_ok.
Qed.

Definition mem_node (d : MemProposer) : MemNode :=
  {| n_proposer := PDirect d; n_closed := false; n_seqCounter := 0; n_clock := tt;
     n_metrics := Some {| TransactionsTotal := 0; ConflictExhausted := 0; BackupTotal := 0 |} |}.

Definition get_set_a (v : Z) : txProg :=
  PGet k_a (fun _ => PSet k_a (encodeInt64 v) (fun e => Return e)).

(** The snapshot of an in-memory engine, whose reads do not fail. *)
Abbreviation mem_snap := (Memory.GetSnapshot (T := gmap bytes bytes)).

Lemma mem_reads_ok (e : MemEngine) : reads_ok (mem_snap e).
Proof. exact (reads_no_error e (mem_snap e) eq_refl). Qed.

(** The store after [a] := 1. *)
Definition d_one : MemProposer := (ApplyOneDirect no_clock fresh (prop [] [set_a 1])).1.

Lemma d_one_dinv : dinv d_one ∧ d_store d_one = commit ∅ (1, prop [] [set_a 1]).
Proof.
  destruct (ApplyOneDirect_commits no_clock fresh (prop [] [set_a 1])) as (d' & E & Hd & Hs & _).
  - apply fresh_dinv.
  - apply (bool_decide_unpack _). vm_compute. exact I.
  - vm_compute. reflexivity.
  - constructor.
  - unfold d_one. rewrite E. split; [exact Hd|]. cbn [fst]. rewrite Hs, d_store_fresh. reflexivity.
Qed.

(** ** Witnesses *)

(** What the callback that reads [a] and sets it to 5 submits on [d_one]. *)
Definition prop_5 : Proposal :=
  {| ReadSet := [rd k_a 1]; Writes := [set_a 5]; TimestampWall := 1; TimestampCounter := 0 |}.

Lemma transaction_serializable_witness :
  ∃ tx', run_prog (get_set_a 5) (new_tx (mem_snap (f_engine (d_fsm d_one))) None) = (tx', None)
         ∧ writes tx' = Writes prop_5.
Proof.
  destruct (applyBatchDirect no_clock d_one [prop_5]) as [[d' rs] ns] eqn:Ea.
  assert (rs = [res_ok]) as Er
    by (change rs with ((d', rs, ns).1.2); rewrite <- Ea; vm_compute; reflexivity).
  destruct (speculate tick rs_list (mem_node d_one) (get_set_a 5)) as [n1 sp] eqn:Es.
  assert (sp = Submit prop_5) as Esp
    by (change sp with ((n1, sp).2); rewrite <- Es; vm_compute; reflexivity).
  subst sp rs.
  destruct (transaction_serializable no_clock tick rs_list rs_list_perm (mem_node d_one) (get_set_a 5) n1 prop_5
    d_one (mem_snap (f_engine (d_fsm d_one))) d_one [prop_5] d' [res_ok] ns [] (d_index d_one + 1) []) as [_ H].
  - reflexivity.
  - apply d_one_dinv.
  - reflexivity.
  - vm_compute. exact I.
  - exact Es.
  - apply rtc_refl.
  - constructor; [|constructor]. apply (bool_decide_unpack _). vm_compute. exact I.
  - vm_compute. reflexivity.
  - exact Ea.
  - repeat constructor.
  - reflexivity.
  - apply (H (f_engine (d_fsm d_one))); [apply d_one_dinv|reflexivity|reflexivity|apply mem_reads_ok].
Defined.

Lemma runOnce_uncontended_witness :
  (runOnce no_clock tick rs_list no_raft no_wait (mem_node d_one) (get_set_a 5)).2 = None.
Proof.
  destruct (runOnce no_clock tick rs_list no_raft no_wait (mem_node d_one) (get_set_a 5)) as [n' err] eqn:E.
  destruct (runOnce_uncontended no_clock tick rs_list rs_list_perm no_raft no_wait (mem_node d_one) d_one
    (mem_snap (f_engine (d_fsm d_one))) (get_set_a 5) n' err) as (tx & fnErr & d' & Hrun & _ & _ & -> & _).
  - reflexivity.
  - vm_compute. reflexivity.
  - apply d_one_dinv.
  - vm_compute. reflexivity.
  - reflexivity.
  - apply mem_reads_ok.
  - exact E.
  - assert (err = None) as -> by (change err with ((n', err).2); rewrite <- E; vm_compute; reflexivity). done.
  - assert (fnErr = None ∧ (if empty tx then None else validate tx) = None) as [-> Hv].
    { change (((tx, fnErr).2 = None) ∧ (if empty (tx, fnErr).1 then None else validate (tx, fnErr).1) = None).
      rewrite <- Hrun. vm_compute. split; reflexivity. }
    exact Hv.
Defined.

Lemma credits_commute_witness :
  let '(d1, rs1, _) := applyBatchDirect no_clock fresh [prop [] [credit_a 2]; prop [] [credit_a 3]] in
  let '(d2, rs2, _) := applyBatchDirect no_clock fresh [prop [] [credit_a 3]; prop [] [credit_a 2]] in
  rs2 = rs1 ∧ d_store d2 !! k_a = d_store d1 !! k_a.
Proof.
  destruct (applyBatchDirect no_clock fresh [prop [] [credit_a 2]; prop [] [credit_a 3]]) as [[d1 rs1] ns1] eqn:E1.
  destruct (applyBatchDirect no_clock fresh [prop [] [credit_a 3]; prop [] [credit_a 2]]) as [[d2 rs2] ns2] eqn:E2.
  destruct (credits_commute no_clock fresh [prop [] [credit_a 2]; prop [] [credit_a 3]]
    [prop [] [credit_a 3]; prop [] [credit_a 2]] d1 rs1 ns1 d2 rs2 ns2 k_a) as (_ & Hr & _ & Hs).
  - apply fresh_dinv.
  - assert (∀ v, blind_add (prop [] [credit_a v])) as Hb.
    { intros v. split; [reflexivity|]. constructor; [|constructor]. split; [vm_compute; reflexivity|left; reflexivity]. }
    constructor; [apply Hb|constructor; [apply Hb|constructor]].
  - apply perm_swap.
  - vm_compute. reflexivity.
  - exact E1.
  - exact E2.
  - change rs1 with ((d1, rs1, ns1).1.2). rewrite <- E1. apply (bool_decide_unpack _); vm_compute; exact I.
  - change rs2 with ((d2, rs2, ns2).1.2). rewrite <- E2. apply (bool_decide_unpack _); vm_compute; exact I.
  - vm_compute. reflexivity.
  - split; [exact Hr|exact Hs].
Defined.

Definition run_in_tx_mem := RunInTx no_clock tick rs_list no_raft no_wait (retry_loop 4).

Lemma RunInTx_commits_witness : (run_in_tx_mem (mem_node d_one) (get_set_a 5)).2 = None.
Proof.
  destruct (run_prog (get_set_a 5) (new_tx (mem_snap (n_engine (mem_node d_one)))
    (Some (n_seqCounter (mem_node d_one))))) as [tx err] eqn:Er.
  assert (err = None) as -> by (change err with ((tx, err).2); rewrite <- Er; vm_compute; reflexivity).
  destruct (run_in_tx_mem (mem_node d_one) (get_set_a 5)) as [n' err'] eqn:Et.
  refine (proj1 (RunInTx_commits no_clock tick rs_list rs_list_perm no_raft no_wait (retry_loop 4) 5%nat
    (retry_loop_law 4) (mem_node d_one) d_one (mem_snap (n_engine (mem_node d_one))) (get_set_a 5) tx n' err'
    _ _ _ _ _ _ _ _ _ _ _ _)).
  - reflexivity.
  - reflexivity.
  - vm_compute. reflexivity.
  - apply d_one_dinv.
  - vm_compute. reflexivity.
  - reflexivity.
  - apply mem_reads_ok.
  - exact Er.
  - change (empty (tx, @None txErr).1 = false). rewrite <- Er. vm_compute. reflexivity.
  - change (validate (tx, @None txErr).1 = None). rewrite <- Er. vm_compute. reflexivity.
  - exact Et.
  - intros e E. assert (err' = None) as En by (change err' with ((n', err').2); rewrite <- Et; vm_compute; reflexivity).
    rewrite En in E. discriminate E.
Defined.

Lemma node_range_spec_witness :
  node_range true (mem_node d_one) [] [] 10 = inl [(k_a, encodeInt64 1)].
Proof.
  rewrite (node_range_spec (mem_node d_one) (mem_snap (f_engine (d_fsm d_one))) [] [] 10 true).
  - cbn [n_closed mem_node]. change (eng_abs (n_engine (mem_node d_one))) with (d_store d_one).
    rewrite (proj2 d_one_dinv). vm_compute. reflexivity.
  - exact (di_engine _ (proj1 d_one_dinv)).
  - reflexivity.
  - vm_compute. reflexivity.
Defined.

(** ** Limits *)

(** A callback that creates [a] if it does not exist yet. *)
Definition create_a (v : Z) : txProg :=
  PGet k_a (fun r => match r with
                     | inr ErrKeyNotFound_tx => PSet k_a (encodeInt64 v) (fun e => Return e)
                     | _ => Return (Some (ErrUser "exists"))
                     end).

(** Absence is not protected: two transactions that each found [a] missing
    and create it both commit, in one batch, and the second silently overwrites
    the first; run one after the other, the second would have failed. *)
Theorem missing_key_not_validated :
  let n := mem_node fresh in
  match speculate tick rs_list n (create_a 1), speculate tick rs_list n (create_a 2) with
  | (_, Submit p1), (_, Submit p2) =>
      let '(d, rs, _) := applyBatchDirect no_clock fresh [p1; p2] in
      rs = [res_ok; res_ok] ∧ eng_Get (f_engine (d_fsm d)) k_a = inl (encodeInt64 2)
      ∧ (runOnce no_clock tick rs_list no_raft no_wait
           (runOnce no_clock tick rs_list no_raft no_wait n (create_a 1)).1 (create_a 2)).2
        = Some (ErrUser "exists")
  | _, _ => False
  end.
Proof. vm_compute. split_and!; reflexivity. Qed.

(** A callback that draws a sequence number and then gives up. *)
Definition allocate_and_fail : txProg := PAllocate (fun _ => Return (Some ErrInvalidProposal)).

(** The safe read point follows sequence allocations, not commits: a
    committed write leaves it where it was, and a transaction that fails after
    drawing a number moves it. *)
Theorem safe_read_point_ignores_commits :
  (let '(n, err) := run_in_tx_mem (mem_node d_one) (get_set_a 5) in
   err = None ∧ GetSafeReadPoint n = GetSafeReadPoint (mem_node d_one))
  ∧ (let '(n, err) := run_in_tx_mem (mem_node d_one) allocate_and_fail in
     err = Some ErrInvalidProposal ∧ GetSafeReadPoint n = GetSafeReadPoint (mem_node d_one) + 1).
Proof.
  split.
  - destruct (run_in_tx_mem (mem_node d_one) (get_set_a 5)) as [n err] eqn:E.
    change err with ((n, err).2). change (GetSafeReadPoint n) with (GetSafeReadPoint (n, err).1).
    rewrite <- E. split; vm_compute; reflexivity.
  - destruct (run_in_tx_mem (mem_node d_one) allocate_and_fail) as [n err] eqn:E.
    change err with ((n, err).2). change (GetSafeReadPoint n) with (GetSafeReadPoint (n, err).1).
    rewrite <- E. split; vm_compute; reflexivity.
Qed.
