(* ===== verification/NodeApi.v ===== *)
(** * The rest of the node's interface (src/dpx.go)

    The whole [Node]: the transactional core of Node.v together with its
    watchers, its batcher and its engine, and the operations that touch them:
    WatchKey, GetDatabaseTime, SetBatchConfig, the shutdown hooks that [Open]
    registers and Close, and the classification of errors. The hybrid logical
    clock and the shutdown of github.com/olekukonko/jack are parameters. *)

From S2P Require Import Prelude Types Wire EngineSpec Iter Fsm Occ Direct Loop Tx Watch Batcher.
From S2P Require Import Node NodeSpec NodeProps BTree Memory Reopen Raft Batching Scenarios NodeScenarios.

(** ** Errors *)

(** IsNotFound, IsConflict: [errors.Is] against the sentinels. *)
Definition IsNotFound (err : option txErr) : bool :=
  match err with Some ErrKeyNotFound_tx => true | _ => false end.

Definition IsConflict (err : option txErr) : bool :=
  match err with Some ErrConflict => true | Some ErrConflictExhausted => true | _ => false end.

(** ** The node *)

Section api.
Context {Eng Snap Bat : Type} `{StorageEngine Eng Snap Bat}.
Context {Clock Time : Type} (clock_Observe : Clock → Z → Z → Clock) (clock_Now : Clock → Time).
(** The order of a range over the watchers' map. *)
Context (watch_order : gmap bytes (list nat) → list (bytes * list nat)).
(** [n.raft.Shutdown().Error()] of a Raft group: the FSM and the writes announced
    when its last entries are applied, and the error. The rest of the Raft node's
    Shutdown releases its semaphore, transport and log files. *)
Context (raft_Shutdown : dpxFSM Eng Clock → dpxFSM Eng Clock * list (list WriteEntry) * option txErr).
(** The engine's Close: it may panic, as a channel that is closed twice does. *)
Context (engine_Close : Eng → result chanErr (Eng * option engErr)).

(** The applier of a direct proposer shares its state with the node: what is in
    the submit channel and what it has batched. *)
Record FullNode := {
  fn_node : Node Eng Clock;
  fn_submitCh : list (nat * Proposal);
  fn_batch : list (nat * Proposal);
  fn_watchers : watcherMap;
  fn_batcher : Batcher;
  fn_raft_closed : bool;       (* the Raft proposer has been shut down *)
  fn_engine_closed : bool;     (* [cfg.Engine.Close()] has run *)
}.

Definition set_fn_node (f : FullNode) (n : Node Eng Clock) : FullNode :=
  {| fn_node := n; fn_submitCh := fn_submitCh f; fn_batch := fn_batch f; fn_watchers := fn_watchers f;
     fn_batcher := fn_batcher f; fn_raft_closed := fn_raft_closed f; fn_engine_closed := fn_engine_closed f |}.
Definition set_fn_watchers (f : FullNode) (w : watcherMap) : FullNode :=
  {| fn_node := fn_node f; fn_submitCh := fn_submitCh f; fn_batch := fn_batch f; fn_watchers := w;
     fn_batcher := fn_batcher f; fn_raft_closed := fn_raft_closed f; fn_engine_closed := fn_engine_closed f |}.

(** (n *Node) WatchKey; [ch] is the channel that [make] returns. *)
Definition WatchKey (f : FullNode) (prefix : bytes) (ch : nat) : FullNode * (nat + txErr) :=
  if n_closed (fn_node f) then (f, inr ErrStoreClosed)
  else (set_fn_watchers f (register (fn_watchers f) prefix ch), inl ch).

(** (n *Node) GetDatabaseTime *)
Definition GetDatabaseTime (f : FullNode) : Time := clock_Now (n_clock (fn_node f)).

(** (n *Node) SetBatchConfig *)
Definition SetBatchConfig (f : FullNode) (cfg : BatchConfig) : FullNode :=
  {| fn_node := fn_node f; fn_submitCh := fn_submitCh f; fn_batch := fn_batch f; fn_watchers := fn_watchers f;
     fn_batcher := SetConfig (fn_batcher f) cfg;
     fn_raft_closed := fn_raft_closed f; fn_engine_closed := fn_engine_closed f |}.

(** *** Shutdown *)

(** A hook: it may panic, and reports an error or none. *)
Abbreviation hook := (FullNode → result chanErr (FullNode * option txErr)).

(** What the applier's select and the callers do between [close(d.done)] and the
    goroutine's return. *)
Context (sched : FullNode → list iteration).

(** The applier of the node's direct proposer. *)
Definition applier (f : FullNode) (d : directProposer Eng Clock) : loop Eng Clock :=
  {| l_d := d; submitCh := fn_submitCh f; batch := fn_batch f; delivered := []; announced := [];
     l_done := false; running := true |}.

(** (d *directProposer) Shutdown: close [done] and wait for the applier, which
    flushes its batch before it returns. *)
Definition direct_Shutdown (f : FullNode) (d : directProposer Eng Clock) : loop Eng Clock :=
  if d_closed d then applier f d
  else finish clock_Observe (Loop.Shutdown (applier f d)) (sched f).

(** The calls of [NotifyBatch], in order. *)
Fixpoint announce (metrics : bool) (w : watcherMap) (ns : list (list WriteEntry)) : result chanErr watcherMap :=
  match ns with
  | [] => Ok w
  | ws :: ns' => let! w := NotifyBatch watch_order metrics w ws in announce metrics w ns'
  end.

(** [mustRegister("raft", 0, ...)]: [proposer.Shutdown()] *)
Definition hook_raft : hook := fun f =>
  match n_proposer (fn_node f) with
  | PDirect d =>
      let l := direct_Shutdown f d in
      let! w := announce (bool_decide (is_Some (f_metrics (d_fsm d)))) (fn_watchers f) (announced l) in
      Ok ({| fn_node := set_proposer (fn_node f) (PDirect (l_d l)); fn_submitCh := submitCh l; fn_batch := batch l;
             fn_watchers := w; fn_batcher := fn_batcher f; fn_raft_closed := fn_raft_closed f;
             fn_engine_closed := fn_engine_closed f |}, None)
  | PRaft fsm =>
      let '(fsm', ns, err) := raft_Shutdown fsm in
      let! w := announce (bool_decide (is_Some (f_metrics fsm))) (fn_watchers f) ns in
      Ok ({| fn_node := set_proposer (fn_node f) (PRaft fsm'); fn_submitCh := fn_submitCh f; fn_batch := fn_batch f;
             fn_watchers := w; fn_batcher := fn_batcher f; fn_raft_closed := true;
             fn_engine_closed := fn_engine_closed f |}, err)
  end.

(** [mustRegister("watchers", 1, ...)] *)
Definition hook_watchers : hook := fun f =>
  let! w := closeAll (fn_watchers f) in Ok (set_fn_watchers f w, None).

(** [mustRegister("engine", 2, ...)] *)
Definition hook_engine : hook := fun f =>
  let fsm := proposer_fsm (n_proposer (fn_node f)) in
  let! (e, err) := engine_Close (f_engine fsm) in
  Ok ({| fn_node := set_proposer (fn_node f) (set_proposer_fsm (n_proposer (fn_node f)) (set_engine fsm e));
         fn_submitCh := fn_submitCh f; fn_batch := fn_batch f; fn_watchers := fn_watchers f;
         fn_batcher := fn_batcher f; fn_raft_closed := fn_raft_closed f; fn_engine_closed := true |},
      ErrSnapshot <$> err).

(** The hooks as [Open] registers them, with their priorities. *)
Definition shutdown_hooks : list (Z * hook) := [(0, hook_raft); (1, hook_watchers); (2, hook_engine)].

(** Run hooks one after the other and collect the errors. *)
Fixpoint run_hooks (hs : list hook) (f : FullNode) : result chanErr (FullNode * list txErr) :=
  match hs with
  | [] => Ok (f, [])
  | h :: hs =>
      let! (f, err) := h f in
      let! (f, errs) := run_hooks hs f in
      Ok (f, option_list err ++ errs)
  end.

(** [sd.TriggerShutdown()] on the registered hooks: the node and [stats.Errors]. *)
Context (TriggerShutdown : list (Z * hook) → FullNode → result chanErr (FullNode * list txErr)).

(** (n *Node) Close *)
Definition full_Close (f : FullNode) : result chanErr (FullNode * option txErr) :=
  if n_closed (fn_node f) then Ok (f, None)
  else
    let n := fn_node f in
    let f := set_fn_node f {| n_proposer := n_proposer n; n_closed := true; n_seqCounter := n_seqCounter n;
                              n_clock := n_clock n; n_metrics := n_metrics n |} in
    let! (f, errs) := TriggerShutdown shutdown_hooks f in
    Ok (f, head errs).
End api.

Arguments FullNode Eng Clock : clear implicits.

(** ** Properties *)

Section closed.
Context {Eng Snap Bat : Type} `{StorageEngine Eng Snap Bat}.
Context {Clock : Type} (clock_Observe : Clock → Z → Z → Clock).
Implicit Types d : directProposer Eng Clock.

(** A batch does not touch the closed flag. *)
Lemma small_batch_closed ps d bat sh hw d' bat' hw' rs :
  small_batch clock_Observe d bat sh hw ps = (d', bat', hw', rs) → d_closed d' = d_closed d.
Proof.
  revert d bat sh hw d' bat' hw' rs. induction ps as [|p ps IH]; intros d bat sh hw d' bat' hw' rs; cbn [small_batch];
    [by intros [= <- _ _ _]|].
  destruct (small_entry clock_Observe d bat sh hw p) as [[[[d1 bat1] sh1] hw1] r] eqn:E1.
  destruct (small_batch clock_Observe d1 bat1 sh1 hw1 ps) as [[[d2 bat2] hw2] rs2] eqn:E2.
  intros [= <- _ _ _]. rewrite (IH _ _ _ _ _ _ _ _ E2). revert E1. unfold small_entry.
  destruct (stack_conflict _ _ _ _); [by intros [= <- _ _ _ _]|].
  destruct (stack_writes _ _ _ _ _) as [[? ?] ?]. by intros [= <- _ _ _ _].
Qed.

Lemma large_batch_closed ps d bat sh hw d' bat' hw' rs :
  large_batch clock_Observe d bat sh hw ps = (d', bat', hw', rs) → d_closed d' = d_closed d.
Proof.
  revert d bat sh hw d' bat' hw' rs. induction ps as [|p ps IH]; intros d bat sh hw d' bat' hw' rs; cbn [large_batch];
    [by intros [= <- _ _ _]|].
  destruct (large_entry clock_Observe d bat sh hw p) as [[[[d1 bat1] sh1] hw1] r] eqn:E1.
  destruct (large_batch clock_Observe d1 bat1 sh1 hw1 ps) as [[[d2 bat2] hw2] rs2] eqn:E2.
  intros [= <- _ _ _]. rewrite (IH _ _ _ _ _ _ _ _ E2). revert E1. unfold large_entry.
  destruct (detectConflict _ _ _); [by intros [= <- _ _ _ _]|].
  destruct (applyProposalToBatch _ _ _ _ _) as [[[? ?] ?] []]; by intros [= <- _ _ _ _].
Qed.

Lemma applyBatchDirect_closed d ps d' rs ns :
  applyBatchDirect clock_Observe d ps = (d', rs, ns) → d_closed d' = d_closed d.
Proof.
  unfold applyBatchDirect. destruct (if decide _ then _ else _) as [[[d1 bat] hw] rs1] eqn:E.
  assert (d_closed d1 = d_closed d) as <-.
  { destruct (decide (length ps ≤ maxStackShadow)%nat); [by eapply small_batch_closed|by eapply large_batch_closed]. }
  destruct hw; [|by intros [= <- _ _]]. unfold commit_batch. destruct (eng_ApplyBatch _ _ _) as [eng [e|]];
    by intros [= <- _ _].
Qed.
End closed.

Section errors.
Context {A : Type} (f : A → A * option txErr) (onRetry : A → A).

(** What the retry loop returns is not a conflict. *)
Lemma retry_run_no_conflict m a a' r : retry_run f is_conflict onRetry m a a' r → r ≠ RetryErr ErrConflict.
Proof. induction 1 as [| k n n' e Hf He| |]; try done. intros [= ->]. done. Qed.
End errors.

Section retry.
Context {Eng Snap Bat : Type} `{StorageEngine Eng Snap Bat}.
Context {Clock : Type} (clock_Observe : Clock → Z → Z → Clock) (clock_Tick : Clock → Clock * (Z * Z)).
Context (rs_order : readset → list ReadEntry).
Context (raft_Apply : dpxFSM Eng Clock → bytes → dpxFSM Eng Clock * (ApplyResult + txErr)).
Context (batcher_Wait : nat → option txErr).
Context (retry_Do : (Node Eng Clock → Node Eng Clock * option txErr) → (txErr → bool) →
                    (Node Eng Clock → Node Eng Clock) → Node Eng Clock → Node Eng Clock * retryResult).
Context (maxAttempts : nat).
Context (retry_law : ∀ f retryIf onRetry n n' r,
  retry_Do f retryIf onRetry n = (n', r) → retry_run f retryIf onRetry maxAttempts n n' r).

Abbreviation run_in_tx :=
  (RunInTx clock_Observe clock_Tick rs_order raft_Apply batcher_Wait retry_Do).

(** A caller of [RunInTx] never sees a bare conflict: on any node, over any
    proposer and engine, and for any callback, the error is not [ErrConflict];
    [IsConflict] is true of it exactly when all attempts were spent or the
    callback returned the exhaustion error itself. *)
Theorem RunInTx_no_bare_conflict n fn :
  (run_in_tx n fn).2 ≠ Some ErrConflict
  ∧ (IsConflict (run_in_tx n fn).2 = true ↔ (run_in_tx n fn).2 = Some ErrConflictExhausted).
Proof.
  assert ((run_in_tx n fn).2 ≠ Some ErrConflict) as Hn.
  { unfold RunInTx. destruct (n_closed n); [done|].
    destruct (retry_Do _ _ _ n) as [n1 r] eqn:E. apply retry_law, retry_run_no_conflict in E.
    destruct r as [|e|]; [done| |done]. cbn. congruence. }
  split; [done|]. destruct ((run_in_tx n fn).2) as [[]|]; done.
Qed.
End retry.

Section close.
Context {Eng Snap Bat : Type} `{EngineLaws Eng Snap Bat}.
Context {Clock : Type} (clock_Observe : Clock → Z → Z → Clock) (clock_Tick : Clock → Clock * (Z * Z)).
Context (rs_order : readset → list ReadEntry).
Context (raft_Apply : dpxFSM Eng Clock → bytes → dpxFSM Eng Clock * (ApplyResult + txErr)).
Context (batcher_Wait : nat → option txErr).
Context (retry_Do : (Node Eng Clock → Node Eng Clock * option txErr) → (txErr → bool) →
                    (Node Eng Clock → Node Eng Clock) → Node Eng Clock → Node Eng Clock * retryResult).
Context (watch_order : gmap bytes (list nat) → list (bytes * list nat)).
Context (watch_order_perm : ∀ m, watch_order m ≡ₚ map_to_list m).
Context (raft_Shutdown : dpxFSM Eng Clock → dpxFSM Eng Clock * list (list WriteEntry) * option txErr).
Context (engine_Close : Eng → result chanErr (Eng * option engErr)).
Context (sched : FullNode Eng Clock → list iteration).
Abbreviation hook := (FullNode Eng Clock → result chanErr (FullNode Eng Clock * option txErr)).
Context (TriggerShutdown : list (Z * hook) → FullNode Eng Clock → result chanErr (FullNode Eng Clock * list txErr)).
(** The documented behaviour of jack's shutdown: hooks that return, within the
    timeout, run one after the other in the order of their priorities, each once,
    and their errors are collected. *)
Context (trigger_law : ∀ hs f r,
  StronglySorted Z.lt hs.*1 → run_hooks hs.*2 f = Ok r → TriggerShutdown hs f = Ok r).
Implicit Types f : FullNode Eng Clock.

Abbreviation close :=
  (full_Close clock_Observe watch_order raft_Shutdown engine_Close sched TriggerShutdown).

(** The proposer has been told to stop. *)
Definition proposer_stopped f : Prop :=
  match n_proposer (fn_node f) with PDirect d => d_closed d = true | PRaft _ => fn_raft_closed f = true end.

(** [n.closed] is set before the shutdown starts. *)
Definition closing f : FullNode Eng Clock :=
  set_fn_node f {| n_proposer := n_proposer (fn_node f); n_closed := true; n_seqCounter := n_seqCounter (fn_node f);
                   n_clock := n_clock (fn_node f); n_metrics := n_metrics (fn_node f) |}.

(** The engine as the proposer leaves it, and the error of the proposer's shutdown. *)
Definition last_engine f : Eng :=
  match n_proposer (fn_node f) with
  | PDirect d => f_engine (d_fsm (l_d (direct_Shutdown clock_Observe sched (closing f) d)))
  | PRaft fsm => f_engine (raft_Shutdown fsm).1.1
  end.

Definition proposer_error f : option txErr :=
  match n_proposer (fn_node f) with PDirect _ => None | PRaft fsm => (raft_Shutdown fsm).2 end.

(** *** What the hooks do *)

Lemma announce_inv metrics ns w : winv w → ∃ w', announce watch_order metrics w ns = Ok w' ∧ winv w'.
Proof.
  revert w. induction ns as [|ws ns IH]; intros w Hw; cbn [announce]; [by eexists|].
  destruct (wstep_inv watch_order watch_order_perm w _ Hw (w_notifyBatch watch_order w metrics ws)) as (w1 & -> & Hw1).
  cbn [rbind]. by apply IH.
Qed.

Lemma closeAll_closes w : winv w → ∃ w', closeAll w = Ok w' ∧ w_closed w' = true ∧ done_closed w' = true.
Proof.
  intros Hw. unfold closeAll. pose proof (wi_done _ Hw) as Hd. destruct (w_closed w) eqn:E; [by eexists|].
  rewrite Hd. by eexists.
Qed.

Lemma finish_closed l its : d_closed (l_d l) = true → d_closed (l_d (finish clock_Observe l its)) = true.
Proof.
  assert (∀ l, d_closed (l_d l) = true → d_closed (l_d (flush clock_Observe l)) = true) as Hf.
  { intros l0 Hc. unfold flush. destruct (batch l0) as [|e es]; [done|].
    destruct (applyBatchDirect clock_Observe (l_d l0) (map snd (e :: es))) as [[d rs] ns] eqn:E. cbn.
    by rewrite (applyBatchDirect_closed _ _ _ _ _ _ E). }
  intros Hc. unfold finish, stop. cbn [l_d]. apply Hf. revert l Hc.
  induction its as [|i its IH]; intros l Hc; cbn [foldl]; [done|]. apply IH. destruct i as [| |e]; cbn [iterate].
  - unfold recv. destruct (submitCh l) as [|e q]; [done|]. cbn [from_option]. case_decide; [by apply Hf|done].
  - by apply Hf.
  - unfold Loop.send. by destruct (_ <? _).
Qed.

Lemma direct_Shutdown_closed f d : d_closed (l_d (direct_Shutdown clock_Observe sched f d)) = true.
Proof.
  unfold direct_Shutdown. destruct (d_closed d) eqn:E; [done|]. apply finish_closed.
  unfold Loop.Shutdown. cbn. by rewrite E.
Qed.

(** The proposer's hook. *)
Lemma hook_raft_stops f :
  winv (fn_watchers f) → n_closed (fn_node f) = true →
  ∃ f', hook_raft clock_Observe watch_order raft_Shutdown sched f = Ok (f', proposer_error f)
    ∧ winv (fn_watchers f') ∧ proposer_stopped f' ∧ n_engine (fn_node f') = last_engine f
    ∧ n_closed (fn_node f') = true.
Proof.
  intros Hw Hc. assert (closing f = f) as Ef.
  { destruct f as [[] ? ? ? ? ? ?]. cbn in Hc. by subst. }
  unfold hook_raft, last_engine, proposer_error, proposer_stopped, n_engine. rewrite Ef.
  destruct (n_proposer (fn_node f)) as [d|fsm] eqn:Ep.
  - destruct (announce_inv (bool_decide (is_Some (f_metrics (d_fsm d)))) (announced (direct_Shutdown clock_Observe sched f d)) _ Hw)
      as (w & -> & Hw'). cbn [rbind]. eexists. split; [done|]. cbn. split_and!; try done.
    apply direct_Shutdown_closed.
  - destruct (raft_Shutdown fsm) as [[fsm' ns] err].
    destruct (announce_inv (bool_decide (is_Some (f_metrics fsm))) ns _ Hw) as (w & -> & Hw'). cbn [rbind].
    eexists. split; [done|]. cbn. by split_and!.
Qed.

(** C17. Closing a node over the direct or the Raft proposer: if the engine's own
    Close, called in the state in which the proposer leaves the engine, does not
    panic, Close of an open node does not panic either, whatever the applier
    still had batched and whatever it still receives. It stops the proposer,
    waits for its last flush, closes the watchers and then the engine, and
    returns the first error of these. Afterwards transactions, scans, backups
    and watches are refused, and a second Close does nothing. Assumed are a
    watcher map in a reachable state and a shutdown library that runs the hooks
    in the order of their priorities; timeouts are not modelled. *)
Theorem Close_shuts_down f e err :
  n_closed (fn_node f) = false → winv (fn_watchers f) → engine_Close (last_engine f) = Ok (e, err) →
  ∃ f', close f = Ok (f', head (option_list (proposer_error f) ++ option_list (ErrSnapshot <$> err)))
    ∧ proposer_stopped f' ∧ w_closed (fn_watchers f') = true ∧ done_closed (fn_watchers f') = true
    ∧ fn_engine_closed f' = true ∧ n_engine (fn_node f') = e
    ∧ close f' = Ok (f', None)
    ∧ (∀ fn, RunInTx clock_Observe clock_Tick rs_order raft_Apply batcher_Wait retry_Do (fn_node f') fn
             = (fn_node f', Some ErrStoreClosed))
    ∧ (∀ rev s t limit, node_range rev (fn_node f') s t limit = inr ErrStoreClosed)
    ∧ (∀ checkpoint, Backup checkpoint (fn_node f') = (fn_node f', Some ErrStoreClosed))
    ∧ (∀ prefix ch, WatchKey f' prefix ch = (f', inr ErrStoreClosed)).
Proof.
  intros Hc Hw He. unfold full_Close. rewrite Hc. fold (closing f).
  destruct (hook_raft_stops (closing f)) as (f1 & E1 & Hw1 & Hp1 & Hn1 & Hc1); [done..|].
  destruct (closeAll_closes _ Hw1) as (w & Ew & Hw2 & Hd2).
  assert (last_engine (closing f) = last_engine f) as El by done. rewrite El in Hn1.
  erewrite trigger_law; [|repeat constructor; lia|].
  2: { cbn [shutdown_hooks fmap list_fmap snd run_hooks]. rewrite E1. cbn [rbind].
       unfold hook_watchers. rewrite Ew. cbn [rbind]. unfold hook_engine. cbn [fn_node set_fn_watchers].
       unfold n_engine in Hn1. rewrite Hn1, He. reflexivity. }
  cbn [rbind]. eexists. split; [cbn; rewrite ?app_nil_r; reflexivity|]. cbn. rewrite Hc1.
  unfold proposer_stopped in Hp1 |- *. unfold n_engine. cbn.
  destruct (n_proposer (fn_node f1)); split_and!; try done; intros;
    unfold RunInTx, node_range, Backup, WatchKey; cbn; by rewrite Hc1.
Qed.

End close.

(** ** A concrete node *)

(** A shutdown with the documented behaviour, on hooks given in order. *)
Definition trigger_in_order {P : Type} (hs : list (Z * (P → result chanErr (P * option txErr)))) :
    list (P → result chanErr (P * option txErr)) := hs.*2.

(** The applier has batched one proposal and another is in the channel. *)
Definition full_node (d : MemProposer) : FullNode MemEngine unit :=
  {| fn_node := mem_node d; fn_submitCh := [(1%nat, prop [] [credit_a 5])]; fn_batch := [(0%nat, prop [] [set_a 9])];
     fn_watchers := one_watcher; fn_batcher := newBatcher default_batch;
     fn_raft_closed := false; fn_engine_closed := false |}.

Lemma one_watcher_winv : winv one_watcher.
Proof.
  apply (register_inv newWatcherMap); [|vm_compute; reflexivity].
  split; cbn; try done; [constructor|intros ch ?%elem_of_nil; done|..]; intros; by simplify_map_eq.
Qed.

(** The goroutine receives the entry in the channel before it sees [done]. *)
Definition recv_first (f : FullNode MemEngine unit) : list iteration := [IRecv].

Definition no_shutdown (f : MemFSM) : MemFSM * list (list WriteEntry) * option txErr := (f, [], None).
Definition mem_engine_Close (e : MemEngine) : result chanErr (MemEngine * option engErr) := Ok (e, None).

Definition mem_close := full_Close no_clock map_to_list no_shutdown mem_engine_Close recv_first
  (fun hs f => run_hooks (trigger_in_order hs) f).

Lemma Close_shuts_down_witness :
  ∃ f', mem_close (full_node d_one) = Ok (f', None) ∧ mem_close f' = Ok (f', None)
    ∧ WatchKey f' (bs "user:") 1 = (f', inr ErrStoreClosed).
Proof.
  destruct (Close_shuts_down no_clock tick rs_list no_raft no_wait (retry_loop 4) map_to_list watch_list_perm
    no_shutdown mem_engine_Close recv_first (fun hs f => run_hooks (trigger_in_order hs) f) (fun hs f r _ H => H)
    (full_node d_one) (last_engine no_clock no_shutdown recv_first (full_node d_one)) None)
    as (f' & E & _ & _ & _ & _ & _ & E2 & _ & _ & _ & Hw).
  - reflexivity.
  - apply one_watcher_winv.
  - reflexivity.
  - exists f'. split; [exact E|]. split; [exact E2|apply Hw].
Defined.


(** The store the engine is closed with: the batched write and the one received
    after it. *)
Example closed_engine :
  eng_Get (last_engine no_clock no_shutdown recv_first (full_node d_one)) k_a = inl (encodeInt64 14).
Proof. vm_compute. reflexivity. Qed.

(** The callback itself reports a conflict at every attempt. *)
Lemma RunInTx_no_bare_conflict_witness :
  (run_in_tx_mem (mem_node d_one) (Return (Some ErrConflict))).2 ≠ Some ErrConflict.
Proof.
  apply (RunInTx_no_bare_conflict no_clock tick rs_list no_raft no_wait (retry_loop 4) 5%nat (retry_loop_law 4)
    (mem_node d_one) (Return (Some ErrConflict))).
Defined.
