(* ===== verification/Accounts.v ===== *)
(** * Debits and credits

    What the distinction of credits and debits in the conflict check
    (src/conductor/fsm.go, src/conductor/direct.go, src/tx.go) is for: a debit
    that saw enough money goes through whatever credits arrive in the meantime,
    and never overdraws the account. *)

From S2P Require Import Prelude Types Wire EngineSpec Iter BTree Memory Fsm Occ Direct Tx Node NodeSpec.
From S2P Require Import Reopen Raft Batching Scenarios NodeProps NodeScenarios.

(** The balance of an account. *)
Definition balance (m : store) (k : bytes) : Z := decodeInt64 (default [] (m !! k)).

(** To the account [k] the proposal only adds; what it does to other keys, and
    what it reads, is free. *)
Definition only_credits (k : bytes) (p : Proposal) : Prop :=
  client_proposal p
  ∧ Forall (fun w => we_Key w = k → we_Op w = OpCredit ∧ 0 <= decodeInt64 (we_Value w)) (Writes p).

(** What a list of writes, and of committed proposals, credits to [k]. *)
Definition credit_sum (k : bytes) (ws : list WriteEntry) : Z :=
  foldr (fun w acc => (if decide (we_Key w = k) then decodeInt64 (we_Value w) else 0) + acc) 0 ws.
Definition credited (k : bytes) (cs : list (Z * Proposal)) : Z :=
  foldr (fun c acc => credit_sum k (Writes c.2) + acc) 0 cs.

(** The callback that debits [x] from [k] and fails when that leaves less than
    nothing. *)
Definition debit_prog (k : bytes) (x : Z) : txProg :=
  PAtomicAdd k (- x) (fun r => match r with
                               | inl v => Return (if v <? 0 then Some (ErrUser "insufficient funds") else None)
                               | inr e => Return (Some e)
                               end).

(** ** The effect of credits *)

(** The key was not written, or its last writer is a credit. *)
Definition credit_ver (er0 er : EpochRecord) : Prop := er = er0 ∨ IsCredit er = true.

Lemma credits_writes k idx ws m :
  isReserved k = false → is_u64 idx → client_writes ws →
  Forall (fun w => we_Key w = k → we_Op w = OpCredit ∧ 0 <= decodeInt64 (we_Value w)) ws →
  0 <= credit_sum k ws
  ∧ i64 (balance (spec_ops m (writes_ops idx ws)) k) = i64 (balance m k + credit_sum k ws)
  ∧ credit_ver (ver m k) (ver (spec_ops m (writes_ops idx ws)) k).
Proof.
  intros Hk Hi Hc. revert m. induction Hc as [|w ws [Hr Ho] Hc IH]; intros m Hf.
  { simpl. rewrite Z.add_0_r. split_and!; [lia|done|by left]. }
  apply Forall_cons in Hf as [Hw Hf]. rewrite writes_ops_cons.
  destruct (IH (spec_ops m (write_ops idx w)) Hf) as (H1 & H2 & H3). cbn [credit_sum foldr].
  change (foldr _ 0 ws) with (credit_sum k ws). rewrite ver_write_ops in H3 by done.
  case_decide as E.
  - destruct (Hw E) as [Hop Hv]. split_and!; [lia| |].
    + rewrite H2. assert (balance (spec_ops m (write_ops idx w)) k = i64 (balance m k + decodeInt64 (we_Value w))) as ->.
      { unfold balance, write_ops. assert (write_op w = Some (BMerge (we_Key w) (we_Value w))) as ->
          by (unfold write_op; by rewrite Hop).
        simpl. rewrite lookup_spec_op_ne by (simpl; subst k; apply not_eq_sym; by apply user_key_ne_version).
        rewrite lookup_spec_op. simpl. rewrite decide_True by done. simpl. apply decode_merge. }
      rewrite i64_add_l. f_equal. lia.
    + destruct H3 as [->|H3]; right; [|done]. simpl. by rewrite Hop.
  - split_and!; [lia| |done].
    rewrite H2. f_equal. unfold balance. rewrite lookup_write_ops_ne; [lia|done|by apply user_key_ne_version].
Qed.

Lemma credits_commit k m c :
  isReserved k = false → is_u64 c.1 → only_credits k c.2 →
  0 <= credit_sum k (Writes c.2)
  ∧ i64 (balance (commit m c) k) = i64 (balance m k + credit_sum k (Writes c.2))
  ∧ credit_ver (ver m k) (ver (commit m c) k).
Proof.
  intros Hk Hi [Hc Hf]. unfold commit, balance. rewrite commit_ops_last, ver_applied_op, lookup_applied_op by done.
  by apply credits_writes.
Qed.

Lemma credits_commits k cs m :
  isReserved k = false → Forall (fun c => is_u64 c.1 ∧ only_credits k c.2) cs →
  0 <= credited k cs ∧ i64 (balance (commits m cs) k) = i64 (balance m k + credited k cs)
  ∧ credit_ver (ver m k) (ver (commits m cs) k).
Proof.
  intros Hk Hcs. revert m. induction Hcs as [|c cs [Hi Hc] _ IH]; intros m.
  { simpl. rewrite Z.add_0_r. split_and!; [lia|done|by left]. }
  destruct (credits_commit k m c Hk Hi Hc) as (H1 & H2 & H3). destruct (IH (commit m c)) as (H4 & H5 & H6).
  simpl. split_and!; [lia| |].
  - change (foldl commit (commit m c) cs) with (commits (commit m c) cs). rewrite H5.
    rewrite <- i64_add_l, H2, i64_add_l. f_equal. lia.
  - destruct H6 as [E|?]; [|by right]. unfold credit_ver, commits in *. rewrite E. done.
Qed.

(** The balance is an int64. *)
Lemma balance_range m k : is_i64 (balance m k).
Proof. unfold balance, decodeInt64. case_decide; [unfold is_i64; lia|apply i64_range]. Qed.

Lemma accepted_forall (P : Proposal → Prop) i ps rs : Forall P ps → Forall (fun c => P c.2) (accepted i ps rs).
Proof.
  intros Hps. revert i rs. induction Hps as [|p ps Hp _ IH]; intros i rs; [constructor|].
  destruct rs as [|r rs]; [constructor|]. cbn [accepted]. apply Forall_app. split; [|apply IH].
  destruct (is_ok r); repeat constructor. done.
Qed.

Section accounts.
Context {Eng Snap Bat : Type} `{EngineLaws Eng Snap Bat}.
Context {Clock : Type} (clock_Observe : Clock → Z → Z → Clock) (clock_Tick : Clock → Clock * (Z * Z)).
Context (rs_order : readset → list ReadEntry).
Context (rs_order_perm : ∀ rs, rs_order rs ≡ₚ (map_to_list rs).*2).
Implicit Types d : directProposer Eng Clock.

(** Batches that only credit [k], none answered with an engine error, lead from
    [d0] to a state; the proposals that committed on the way. *)
Inductive credit_trace (k : bytes) d0 : list (Z * Proposal) → directProposer Eng Clock → Prop :=
  | ct_start : credit_trace k d0 [] d0
  | ct_batch cs d ps d' rs ns :
      credit_trace k d0 cs d → Forall (only_credits k) ps → d_index d + Z.of_nat (length ps) < 2 ^ 64 →
      applyBatchDirect clock_Observe d ps = (d', rs, ns) → no_engine_error rs →
      credit_trace k d0 (cs ++ accepted (d_index d) ps rs) d'.

Lemma credit_trace_spec k d0 cs d :
  dinv d0 → credit_trace k d0 cs d →
  dinv d ∧ d_store d = commits (d_store d0) cs ∧ Forall (fun c => is_u64 c.1 ∧ only_credits k c.2) cs.
Proof.
  intros Hd0. induction 1 as [|cs d ps d' rs ns _ IH Hps Hb Ha Hno]; [done|]. destruct IH as (Hd & Hs & Hcs).
  assert (Forall client_proposal ps) as Hc by (eapply Forall_impl; [exact Hps|]; by intros p [? _]).
  destruct (applyBatchDirect_spec clock_Observe d ps d' rs ns Hd Hc Hb Ha Hno) as (Hd' & Hl & _ & Hs' & _).
  split; [done|]. split; [rewrite Hs', Hs; unfold commits; by rewrite foldl_app|].
  apply Forall_app. split; [done|]. pose proof (accepted_forall _ (d_index d) ps rs Hps) as Hp.
  assert (Forall (commit_wf (d_index d)) (accepted (d_index d) ps rs)) as Hw
    by (apply accepted_wf; [done|lia|apply Hd|done]).
  rewrite Forall_forall in Hp, Hw |- *. intros c Hin. destruct (Hw c Hin) as (_ & ? & _). split; [done|by apply Hp].
Qed.

(** What the debiting callback submits. *)
Lemma speculate_debit (n : Node Eng Clock) k x n1 p :
  isReserved k = false → 0 < x <= 2 ^ 63 → eng_inv (n_engine n) → 0 <= balance (eng_abs (n_engine n)) k →
  speculate clock_Tick rs_order n (debit_prog k x) = (n1, Submit p) →
  x <= balance (eng_abs (n_engine n)) k
  ∧ ReadSet p = [{| re_Key := k; re_Epoch := Epoch (ver (eng_abs (n_engine n)) k); re_IsDebit := true |}]
  ∧ Writes p = [{| we_Op := OpDebit; we_Key := k; we_Value := encodeInt64 (- x) |}].
Proof.
  intros Hk Hx Hi Hb Hs. destruct (speculate_submit clock_Tick rs_order n _ n1 p Hs) as (snap & tx & wall & counter & Hsn & Hrun & -> & _).
  unfold debit_prog in Hrun. cbn [run_prog] in Hrun. unfold tx_AtomicAdd in Hrun. rewrite Hk in Hrun.
  destruct (Z.ltb_spec 0 (- x)) as [?|_]; [lia|]. destruct (Z.ltb_spec (- x) 0) as [_|?]; [|lia].
  cbn [new_tx tx_snap] in Hrun.
  destruct (absent_ok [] (snap_Get snap k)) as [val|er] eqn:Ev; [|done].
  destruct (absent_ok zero_epoch (snap_GetVersion snap k)) as [v|er] eqn:Eve; [|done].
  assert (val = default [] (eng_abs (n_engine n) !! k)) as ->.
  { pose proof (law_snap_get _ _ k Hi Hsn) as Hl.
    apply absent_ok_inl in Ev as [Ev|[Ev ->]]; rewrite Ev in Hl; simpl in Hl; by rewrite Hl. }
  assert (v = ver (eng_abs (n_engine n)) k) as ->.
  { pose proof (law_snap_version _ _ k Hi Hsn) as Hl. unfold ver.
    apply absent_ok_inl in Eve as [Eve|[Eve ->]]; rewrite Eve in Hl; simpl in Hl; by rewrite Hl. }
  cbn [run_prog] in Hrun.
  change (decodeInt64 (default [] (eng_abs (n_engine n) !! k))) with (balance (eng_abs (n_engine n)) k) in Hrun.
  pose proof (balance_range (eng_abs (n_engine n)) k) as Hr.
  rewrite i64_small in Hrun by (unfold is_i64 in *; lia).
  destruct (Z.ltb_spec (balance (eng_abs (n_engine n)) k + - x) 0) as [?|Hle]; [done|].
  injection Hrun as <-. split; [lia|]. split; [|done].
  unfold tx_proposal. cbn [ReadSet]. unfold readSetSlice.
  cbn [add_write set_readSet readSet tx_snap new_tx]. rewrite insert_empty, map_size_singleton.
  rewrite decide_False by done. pose proof (rs_order_perm {[k := {| re_Key := k;
    re_Epoch := Epoch (ver (eng_abs (n_engine n)) k);
    re_IsDebit := true |}]}) as Hp.
  rewrite map_to_list_singleton in Hp. apply Permutation_singleton_r in Hp as ->. cbn [map hydrate].
  unfold hydrate. cbn [re_IsDebit]. by rewrite andb_false_r.
Qed.

(** C6. A checked debit goes through concurrent credits and never overdraws.
    A callback debits [x] (positive, at most 2^63) from an account, an unreserved
    key, and gives up if that leaves less than nothing; it runs over the direct
    proposer in a good state [d0], in which the balance is not negative, and
    submits [p]. Then batches of client proposals are applied that do anything to
    other keys but only credit this account; no proposal is answered with an
    error of the engine, the 64-bit index does not overflow, and the balance and
    the credits together stay below 2^63. Then [p], alone in its batch, is
    accepted unless the engine refuses it, and the account holds the old balance
    plus the credits less [x], which is not negative. *)
Theorem debit_never_overdraws (n0 n1 : Node Eng Clock) d0 d k x p cs d' r :
  isReserved k = false → 0 < x <= 2 ^ 63 →
  n_proposer n0 = PDirect d0 → dinv d0 → 0 <= balance (d_store d0) k →
  speculate clock_Tick rs_order n0 (debit_prog k x) = (n1, Submit p) →
  credit_trace k d0 cs d → d_index d + 1 < 2 ^ 64 →
  balance (d_store d0) k + credited k cs < 2 ^ 63 →
  ApplyOneDirect clock_Observe d p = (d', Some r) → engine_error r = false →
  r = res_ok
    ∧ balance (d_store d') k = balance (d_store d0) k + credited k cs - x
    ∧ 0 <= balance (d_store d') k.
Proof.
  intros Hk Hx Hn Hd0 Hb0 Hs Ht Hidx Hov Hap Hno.
  destruct (credit_trace_spec k d0 cs d Hd0 Ht) as (Hd & Hst & Hcs).
  destruct (credits_commits k cs (d_store d0) Hk Hcs) as (Hc0 & Hbal & Hver). rewrite <- Hst in Hbal, Hver.
  assert (n_engine n0 = f_engine (d_fsm d0)) as En by (unfold n_engine; by rewrite Hn).
  destruct (speculate_debit n0 k x n1 p Hk Hx) as (Hxb & Hrd & Hwr); rewrite ?En; [apply Hd0|done|done|].
  rewrite En in *. change (eng_abs (f_engine (d_fsm d0))) with (d_store d0) in *.
  rewrite !i64_small in Hbal by (first [apply balance_range | unfold is_i64; lia]).
  destruct (ApplyOneDirect_passes clock_Observe d p d' r Hd) as (-> & Hd' & Hst' & _); [|done| |done|done|].
  { unfold client_proposal, client_writes. rewrite Hwr. constructor; [|constructor]. split; [done|apply known_ops]. }
  { rewrite Hrd. constructor; [|constructor]. split; [done|]. cbn [re_Key].
    destruct Hver as [->|Hver]; [left; cbn; lia|right]. unfold exempt. by rewrite Hver. }
  split; [done|].
  assert (balance (d_store d') k = i64 (balance (d_store d) k - x)) as Eb.
  { rewrite Hst'. unfold commit. cbn [fst snd]. rewrite Hwr. unfold balance.
    rewrite commit_ops_last, lookup_applied_op, lookup_writes_ops_adds;
      [|done|by constructor; [split; [|right]|constructor]|done].
    cbn [add_writes foldl we_Key we_Value]. rewrite decide_True by done.
    match goal with |- context [default [] (Some ?v)] => change (default [] (Some v)) with v end.
    by rewrite decode_merge, decode_encode_int64, i64_add_r. }
  rewrite Eb, Hbal, i64_small by (unfold is_i64; lia). lia.
Qed.
End accounts.

(** ** A concrete account *)

(** The store after [a] := 100. *)
Definition d_hundred : MemProposer := (ApplyOneDirect no_clock fresh (prop [] [set_a 100])).1.

Lemma d_hundred_dinv : dinv d_hundred ∧ d_store d_hundred = commit ∅ (1, prop [] [set_a 100]).
Proof.
  destruct (ApplyOneDirect_commits no_clock fresh (prop [] [set_a 100])) as (d' & E & Hd & Hs & _).
  - apply fresh_dinv.
  - apply (bool_decide_unpack _). vm_compute. exact I.
  - vm_compute. reflexivity.
  - constructor.
  - unfold d_hundred. rewrite E. split; [exact Hd|]. cbn [fst]. rewrite Hs, d_store_fresh. reflexivity.
Qed.

(** 80 is debited against the balance 100, and 5 arrive before it is applied. *)
Lemma debit_never_overdraws_witness :
  ∃ d d', (applyBatchDirect no_clock d_hundred [prop [] [credit_a 5]]).1.1 = d
    ∧ ApplyOneDirect no_clock d {| ReadSet := [rd_debit k_a 1]; Writes := [debit_a 80]; TimestampWall := 1;
                                   TimestampCounter := 0 |} = (d', Some res_ok)
    ∧ 0 <= balance (d_store d') k_a.
Proof.
  destruct (speculate tick rs_list (mem_node d_hundred) (debit_prog k_a 80)) as [n1 sp] eqn:Es.
  assert (sp = Submit {| ReadSet := [rd_debit k_a 1]; Writes := [debit_a 80]; TimestampWall := 1;
                         TimestampCounter := 0 |}) as Esp
    by (change sp with ((n1, sp).2); rewrite <- Es; vm_compute; reflexivity).
  subst sp. destruct (applyBatchDirect no_clock d_hundred [prop [] [credit_a 5]]) as [[d rs] ns] eqn:Ea.
  assert (rs = [res_ok]) as Er by (change rs with ((d, rs, ns).1.2); rewrite <- Ea; vm_compute; reflexivity).
  assert (d_index d = 2) as Ei by (change d with ((d, rs, ns).1.1); rewrite <- Ea; vm_compute; reflexivity).
  destruct d_hundred_dinv as [Hd Hst].
  destruct (ApplyOneDirect no_clock d {| ReadSet := [rd_debit k_a 1]; Writes := [debit_a 80]; TimestampWall := 1;
    TimestampCounter := 0 |}) as [d' r] eqn:Eone.
  assert (r = Some res_ok) as Eres.
  { change r with ((d', r).2). rewrite <- Eone. change d with ((d, rs, ns).1.1). rewrite <- Ea. vm_compute. reflexivity. }
  rewrite Eres in Eone.
  destruct (debit_never_overdraws no_clock tick rs_list rs_list_perm (mem_node d_hundred) n1 d_hundred d k_a 80
    {| ReadSet := [rd_debit k_a 1]; Writes := [debit_a 80]; TimestampWall := 1; TimestampCounter := 0 |}
    [(2, prop [] [credit_a 5])] d' res_ok) as (_ & _ & Hb).
  - vm_compute. reflexivity.
  - lia.
  - reflexivity.
  - exact Hd.
  - rewrite Hst. apply (bool_decide_unpack _). vm_compute. exact I.
  - exact Es.
  - assert ([(2, prop [] [credit_a 5])] = [] ++ accepted (d_index d_hundred) [prop [] [credit_a 5]] rs) as ->
      by (rewrite Er; vm_compute; reflexivity).
    eapply ct_batch; [apply ct_start| | |exact Ea|rewrite Er; repeat constructor].
    + constructor; [|constructor]. split; [apply (bool_decide_unpack _); vm_compute; exact I|].
      constructor; [|constructor]. intros _. split; [reflexivity|]. vm_compute. discriminate.
    + vm_compute. reflexivity.
  - rewrite Ei. lia.
  - rewrite Hst. apply (bool_decide_unpack _). vm_compute. exact I.
  - exact Eone.
  - reflexivity.
  - exists d, d'. split; [reflexivity|]. split; [exact Eone|exact Hb].
Defined.
