(* ===== verification/LabStats.v ===== *)
(** * Measurements of the load generator (src/workspace/runner.go)

    The xorshift generator of the workers, the latency samples with their
    percentiles and mean, and the statistics over several timed runs, with
    binary64 arithmetic, and the layout of the result boxes; their rows are in
    LabReport.v. *)

From Corelib Require Import SpecFloat.
From S2P Require Import Prelude Batcher.

(** ** The generator *)

(** (r *fastRNG) next: the state after the call, which is also the result. *)
Definition next (x : Z) : Z :=
  let x := Z.lxor x (u64 (Z.shiftl x 13)) in
  let x := Z.lxor x (Z.shiftr x 7) in
  Z.lxor x (u64 (Z.shiftl x 17)).

(** (r *fastRNG) intn: the state after the call and the result; [None] is the
    panic of a division by zero. *)
Definition intn (x n : Z) : option (Z * Z) :=
  let x := next x in
  if u64 n =? 0 then None else Some (x, i64 (x mod u64 n)).

(** ** Latency samples *)

Abbreviation localSamples := (list Z).

(** (l *localSamples) record *)
Definition record (l : localSamples) (d : Z) : localSamples := l ++ [d].

(** [sort.Slice] by value; equal samples cannot be told apart. *)
Definition sort_samples (l : list Z) : list Z := merge_sort Z.le l.

(** mergeAndSort *)
Definition mergeAndSort (all : list localSamples) : list Z := sort_samples (concat all).

(** [math.Ceil] *)
Definition fceil (f : float64) : float64 :=
  match f with
  | S754_finite s m e =>
      if 0 <=? e then f
      else binary_normalize 53 1024 (- ((if s then Z.pos m else Z.neg m) / 2 ^ (- e))) 0 s
  | _ => f
  end.

Section pct.
(** The conversion to int64 of a float outside its range. *)
Context (convert_overflow : float64 → Z).

(** The index [pct] reads. *)
Definition pct_index (n : Z) (p : float64) : Z :=
  let i := i64 (int64_of_float convert_overflow (fceil (fmul (fdiv p (float_of_int 100)) (float_of_int n))) - 1) in
  let i := if i <? 0 then 0 else i in
  if n <=? i then n - 1 else i.

(** pct; [None] is an index out of range. *)
Definition pct (s : list Z) (p : float64) : option Z :=
  if decide (length s = 0%nat) then Some 0
  else s !! Z.to_nat (pct_index (Z.of_nat (length s)) p).
End pct.

(** avg *)
Definition avg (s : list Z) : Z :=
  if decide (length s = 0%nat) then 0
  else i64 (Z.quot (foldl (fun sum v => i64 (sum + v)) 0 s) (Z.of_nat (length s))).

(** ** One timed run, and the aggregate of several *)

Record runResult := {
  r_duration : Z; r_ops : Z; r_errors : Z; r_conflicts : Z; r_latencies : list Z;
  r_gcPauses : Z; r_gcCount : Z;
}.

(** (r runResult) tps *)
Definition tps (r : runResult) : float64 := fdiv (float_of_int (r_ops r)) (Seconds (r_duration r)).

(** [runStats], less the settings it repeats from the configuration. *)
Record runStats := {
  runs : Z;
  tpsSamples : list float64;
  latencies : list Z;
  totalOps : Z; totalErrors : Z; totalConflicts : Z;
  totalDuration : Z; totalGCPauses : Z; totalGCCount : Z;
}.

(** newRunStats *)
Definition newRunStats (numRuns : Z) : runStats :=
  {| runs := numRuns; tpsSamples := []; latencies := []; totalOps := 0; totalErrors := 0;
     totalConflicts := 0; totalDuration := 0; totalGCPauses := 0; totalGCCount := 0 |}.

(** (s *runStats) add *)
Definition add (s : runStats) (r : runResult) (isWarmupRun : bool) : runStats :=
  let samples := tpsSamples s ++ [tps r] in
  if isWarmupRun then
    {| runs := runs s; tpsSamples := samples; latencies := latencies s; totalOps := totalOps s;
       totalErrors := totalErrors s; totalConflicts := totalConflicts s;
       totalDuration := totalDuration s; totalGCPauses := totalGCPauses s;
       totalGCCount := totalGCCount s |}
  else
    {| runs := runs s; tpsSamples := samples; latencies := latencies s ++ r_latencies r;
       totalOps := u64 (totalOps s + r_ops r); totalErrors := u64 (totalErrors s + r_errors r);
       totalConflicts := u64 (totalConflicts s + r_conflicts r);
       totalDuration := i64 (totalDuration s + r_duration r);
       totalGCPauses := i64 (totalGCPauses s + r_gcPauses r);
       totalGCCount := u32 (totalGCCount s + r_gcCount r) |}.

(** (s *runStats) measuredSamples *)
Definition measuredSamples (s : runStats) : list float64 :=
  if decide (1 < length (tpsSamples s))%nat then drop 1 (tpsSamples s) else tpsSamples s.

Definition fzero : float64 := S754_zero false.

(** (s *runStats) meanTPS *)
Definition meanTPS (s : runStats) : float64 :=
  let samples := measuredSamples s in
  if decide (length samples = 0%nat) then fzero
  else fdiv (foldl fadd fzero samples) (float_of_int (Z.of_nat (length samples))).

(** (s *runStats) stddevTPS *)
Definition stddevTPS (s : runStats) : float64 :=
  let samples := measuredSamples s in
  if decide (length samples < 2)%nat then fzero
  else
    let mean := meanTPS s in
    let variance := foldl (fun variance v => let d := fsub v mean in fadd variance (fmul d d)) fzero samples in
    SFsqrt 53 1024 (fdiv variance (float_of_int (Z.of_nat (length samples) - 1))).

(** (s *runStats) cvPct *)
Definition cvPct (s : runStats) : float64 :=
  let mean := meanTPS s in
  if SFeqb mean fzero then fzero
  else fmul (fdiv (stddevTPS s) mean) (float_of_int 100).

(** (s *runStats) sortedLatencies *)
Definition sortedLatencies (s : runStats) : list Z := sort_samples (latencies s).

(** The loop of [runBenchmark] over the timed runs, from their results. *)
Fixpoint add_runs (numRuns run : Z) (rs : list runResult) (s : runStats) : runStats :=
  match rs with
  | [] => s
  | r :: rs => add_runs numRuns (run + 1) rs (add s r ((run =? 1) && (1 <? numRuns)))
  end.

(** The garbage-collection line of printTelemetrySummary: pauses, count and
    duration per run; [None] is a division by zero. *)
Definition gc_per_run (s : runStats) : option (Z * Z * Z) :=
  if (runs s =? 0) || (u32 (runs s) =? 0) then None
  else Some (Z.quot (totalGCPauses s) (runs s), Z.quot (totalGCCount s) (u32 (runs s)),
             Z.quot (totalDuration s) (runs s)).

(** ** Result boxes *)

(** A string as its code points; [len] counts its UTF-8 bytes. *)
Abbreviation runes := (list Z).

Definition rune_len (c : Z) : nat :=
  if c <? 128 then 1 else if c <? 2048 then 2 else if c <? 65536 then 3 else 4.
Definition go_len (s : runes) : nat := sum_list_with rune_len s.

(** repeat *)
Fixpoint repeat (s : runes) (n : nat) : runes :=
  match n with O => [] | S n => s ++ repeat s n end.

(** [%-*s]: padded on the right to a width in code points. *)
Definition pad_right (w : nat) (s : runes) : runes := s ++ repeat [32] (w - length s).

Definition hline : runes := [9472].
Definition vline : runes := [9474].

(** The lines of printBox. *)
Definition printBox (rows : list (runes * runes)) : list runes :=
  let w0 := foldl (fun w r => Nat.max w (go_len r.1)) 0%nat rows in
  let w1 := foldl (fun w r => Nat.max w (go_len r.2)) 0%nat rows in
  let border := (w0 + w1 + 7)%nat in
  let row r := vline ++ [32; 32] ++ pad_right w0 r.1 ++ [32; 32] ++ vline ++ [32; 32]
               ++ pad_right w1 r.2 ++ [32; 32] ++ vline in
  let rule := [9500] ++ repeat hline (w0 + 4) ++ [9532] ++ repeat hline (w1 + 4) ++ [9508] in
  ([9484] ++ repeat hline border ++ [9488])
  :: match rows with [] => [] | r :: rows' => row r :: rule :: map row rows' end
  ++ [[9492] ++ repeat hline border ++ [9496]].

(** ** The generator permutes its states *)

Lemma u64_high_bits x i : is_u64 x → 64 <= i → Z.testbit x i = false.
Proof.
  intros Hx Hi. rewrite <- (u64_small x Hx). unfold u64. by apply Z.mod_pow2_bits_high.
Qed.

Lemma u64_of_bits x : 0 <= x → (∀ i, 64 <= i → Z.testbit x i = false) → is_u64 x.
Proof.
  intros H0 Hb. split; [done|]. destruct (Z.eq_dec x 0) as [->|Hn]; [done|].
  apply Z.log2_lt_pow2; [lia|]. apply Z.nle_gt. intros Hl.
  pose proof (Hb _ Hl) as Hf. rewrite Z.bit_log2 in Hf by lia. done.
Qed.

Lemma lxor_u64 x y : is_u64 x → is_u64 y → is_u64 (Z.lxor x y).
Proof.
  intros Hx Hy. apply u64_of_bits.
  - apply Z.lxor_nonneg. unfold is_u64 in *. lia.
  - intros i Hi. rewrite Z.lxor_spec, !u64_high_bits by done. done.
Qed.

Definition xorshl (a x : Z) : Z := Z.lxor x (u64 (Z.shiftl x a)).
Definition xorshr (a x : Z) : Z := Z.lxor x (Z.shiftr x a).

Lemma testbit_xorshl a x i : 0 <= a → 0 <= i < 64 →
  Z.testbit (xorshl a x) i = xorb (Z.testbit x i) (Z.testbit x (i - a)).
Proof.
  intros Ha Hi. unfold xorshl, u64.
  by rewrite Z.lxor_spec, Z.mod_pow2_bits_low, Z.shiftl_spec by lia.
Qed.

Lemma testbit_xorshr a x i : 0 <= i →
  Z.testbit (xorshr a x) i = xorb (Z.testbit x i) (Z.testbit x (i + a)).
Proof. intros Hi. unfold xorshr. by rewrite Z.lxor_spec, Z.shiftr_spec. Qed.

Lemma xorb_cancel b b' c : xorb b c = xorb b' c → b = b'.
Proof. by destruct b, b', c. Qed.

Lemma u64_bits_eq x y : is_u64 x → is_u64 y →
  (∀ i, 0 <= i < 64 → Z.testbit x i = Z.testbit y i) → x = y.
Proof.
  intros Hx Hy Hb. apply Z.bits_inj'. intros i Hi.
  destruct (Z_lt_le_dec i 64); [apply Hb; lia|]. by rewrite !u64_high_bits.
Qed.

Lemma xorshl_inj a x y : 0 < a → is_u64 x → is_u64 y → xorshl a x = xorshl a y → x = y.
Proof.
  intros Ha Hx Hy E. apply u64_bits_eq; [done..|]. intros i [H0 Hi]. revert i H0 Hi.
  refine (Zlt_0_ind _ _). intros i IH H0 Hi.
  assert (Z.testbit x (i - a) = Z.testbit y (i - a)) as Hlow.
  { destruct (Z_lt_le_dec (i - a) 0); [by rewrite !Z.testbit_neg_r by done|]. apply IH; lia. }
  apply (xorb_cancel _ _ (Z.testbit y (i - a))). rewrite <- Hlow at 1.
  by rewrite <- !testbit_xorshl, E by lia.
Qed.

Lemma xorshr_inj a x y : 0 < a → is_u64 x → is_u64 y → xorshr a x = xorshr a y → x = y.
Proof.
  intros Ha Hx Hy E. apply u64_bits_eq; [done..|]. intros i [H0 Hi].
  assert (0 <= 63 - i) as Hj by lia. replace i with (63 - (63 - i)) by lia.
  revert Hj. assert (63 - i < 64) as Hu by lia. revert Hu. generalize (63 - i). clear i H0 Hi.
  intros j Hu Hj. revert j Hj Hu. refine (Zlt_0_ind _ _). intros j IH H0 Hj.
  assert (Z.testbit x (63 - j + a) = Z.testbit y (63 - j + a)) as Hhigh.
  { destruct (Z_le_gt_dec 64 (63 - j + a)); [by rewrite !u64_high_bits by done|].
    replace (63 - j + a) with (63 - (j - a)) by lia. apply IH; lia. }
  apply (xorb_cancel _ _ (Z.testbit y (63 - j + a))). rewrite <- Hhigh at 1.
  by rewrite <- !testbit_xorshr, E by lia.
Qed.

Lemma xorshl_u64 a x : is_u64 x → is_u64 (xorshl a x).
Proof. intros Hx. apply lxor_u64; [done|apply u64_range]. Qed.

Lemma xorshr_u64 a x : 0 <= a → is_u64 x → is_u64 (xorshr a x).
Proof.
  intros Ha Hx. apply lxor_u64; [done|]. apply u64_of_bits.
  - apply Z.shiftr_nonneg. unfold is_u64 in Hx. lia.
  - intros i Hi. rewrite Z.shiftr_spec by lia. apply u64_high_bits; [done|lia].
Qed.

Lemma next_u64 x : is_u64 x → is_u64 (next x).
Proof. intros Hx. apply xorshl_u64, xorshr_u64; [lia|]. by apply xorshl_u64. Qed.

Lemma next_inj x y : is_u64 x → is_u64 y → next x = next y → x = y.
Proof.
  intros Hx Hy E.
  pose proof (xorshl_u64 13 x Hx). pose proof (xorshl_u64 13 y Hy).
  apply (xorshl_inj 17) in E; [|lia|by apply xorshr_u64..].
  apply (xorshr_inj 7) in E; [|lia|done..]. by apply (xorshl_inj 13) in E.
Qed.

(** The state of a generator after some draws. *)
Definition draws (n : nat) (x : Z) : Z := Nat.iter n next x.

Lemma draws_u64 n x : is_u64 x → is_u64 (draws n x).
Proof. intros Hx. induction n as [|n IH]; [done|]. by apply next_u64. Qed.

(** The workers' generator never degenerates: a step permutes the 64-bit
    states, and a worker seeded with a non-zero number, as every worker is,
    never reaches the fixed point zero, however many numbers it draws. *)
Theorem fastRNG_permutes x y n :
  is_u64 x → is_u64 y →
  is_u64 (next x) ∧ (next x = next y → x = y) ∧ (x ≠ 0 → draws n x ≠ 0).
Proof.
  intros Hx Hy. split; [by apply next_u64|]. split; [by apply next_inj|].
  intros H0. induction n as [|n IH]; [done|]. intros E. apply IH.
  apply next_inj; [by apply draws_u64|done|done].
Qed.

Lemma fastRNG_permutes_witness :
  is_u64 10000 ∧ is_u64 42 ∧ next 42 = 45454805674 ∧ draws 5 10000 ≠ 0.
Proof.
  assert (is_u64 10000) as H1 by done. assert (is_u64 42) as H2 by done.
  destruct (fastRNG_permutes 10000 42 5 H1 H2) as (_ & _ & Hd).
  split; [done|]. split; [done|]. split; [reflexivity|]. by apply Hd.
Defined.

(** [intn] is in range for every positive length. *)
Lemma intn_range x n : is_u64 x → 0 < n < 2 ^ 63 →
  ∃ r, intn x n = Some (next x, r) ∧ 0 <= r < n.
Proof.
  intros Hx Hn. unfold intn. rewrite (u64_small n) by (unfold is_u64; lia).
  destruct (Z.eqb_spec n 0) as [|_]; [lia|].
  pose proof (Z.mod_pos_bound (next x) n ltac:(lia)) as Hr.
  exists (next x mod n). rewrite i64_small by (unfold is_i64; lia). done.
Qed.

(** ** Percentiles and means *)

Lemma sort_samples_spec l : StronglySorted Z.le (sort_samples l) ∧ sort_samples l ≡ₚ l.
Proof. split; [apply StronglySorted_merge_sort; apply _|apply merge_sort_Permutation]. Qed.

(** *** Exact binary64 operations *)

Lemma digits2_log2 p : Zdigits2 (Zpos p) = Z.log2 (Zpos p) + 1.
Proof.
  cbn [Zdigits2]. induction p as [p IH|p IH|]; cbn [digits2_pos]; [..|done]; rewrite Pos2Z.inj_succ, IH.
  - change (Zpos p~1) with (2 * Zpos p + 1). rewrite Z.log2_succ_double by done. lia.
  - change (Zpos p~0) with (2 * Zpos p). rewrite Z.log2_double by done. lia.
Qed.

Lemma shr_1_even z : 0 < z → shr_1 (Build_shr_record (2 * z) false false) = Build_shr_record z false false.
Proof. by destruct z. Qed.

Lemma iter_shr_1 k m : 0 < m →
  SpecFloat.iter_pos shr_1 k (Build_shr_record (m * 2 ^ Zpos k) false false) = Build_shr_record m false false.
Proof.
  revert m. induction k as [k IH|k IH|]; intros m Hm; cbn [SpecFloat.iter_pos];
    try pose proof (Z.pow_pos_nonneg 2 (Zpos k) ltac:(lia) ltac:(lia)) as Hp.
  - replace (Z.pos k~1) with (1 + Zpos k + Zpos k) by lia. rewrite !Z.pow_add_r by lia.
    replace (m * (2 ^ 1 * 2 ^ Z.pos k * 2 ^ Z.pos k)) with (2 * (m * 2 ^ Zpos k * 2 ^ Zpos k)) by lia.
    rewrite shr_1_even, !IH by nia. done.
  - replace (Z.pos k~0) with (Zpos k + Zpos k) by lia. rewrite Z.pow_add_r by lia.
    rewrite Z.mul_assoc, !IH by nia. done.
  - rewrite Z.mul_comm. by apply shr_1_even.
Qed.

Lemma shr_fexp_exact m k e : 0 < m → Z.log2 m = 52 → 0 <= k → - 1074 <= e + k →
  shr_fexp 53 1024 (m * 2 ^ k) e loc_Exact = (Build_shr_record m false false, e + k).
Proof.
  intros Hm Hl Hk He. unfold shr_fexp, shr_record_of_loc.
  pose proof (Z.pow_pos_nonneg 2 k ltac:(lia) ltac:(lia)) as Hp.
  assert (Zdigits2 (m * 2 ^ k) = 53 + k) as ->.
  { destruct (m * 2 ^ k) as [|p|p] eqn:E; [nia| |nia]. rewrite digits2_log2, <- E.
    rewrite Z.log2_mul_pow2 by lia. lia. }
  unfold fexp, emin. replace (Z.max _ _ - e) with k by lia. unfold shr.
  destruct k as [|k|k]; [by rewrite Z.mul_1_r, Z.add_0_r| |lia]. by rewrite iter_shr_1.
Qed.

(** Rounding a multiple of a power of two is exact. *)
Lemma round_exact s m k e : Z.log2 (Zpos m) = 52 → 0 <= k → - 1074 <= e + k <= 971 →
  binary_round_aux 53 1024 s (Zpos m * 2 ^ k) e loc_Exact = S754_finite s m (e + k).
Proof.
  intros Hl Hk He. unfold binary_round_aux. rewrite shr_fexp_exact by lia. cbn [shr_m loc_of_shr_record round_nearest_even].
  pose proof (shr_fexp_exact (Zpos m) 0 (e + k) ltac:(lia) Hl ltac:(lia) ltac:(lia)) as Hs.
  rewrite Z.mul_1_r, Z.add_0_r in Hs. rewrite Hs. cbn [shr_m]. destruct (Z.leb_spec (e + k) (1024 - 53)); [done|lia].
Qed.

(** Integers below 2^53 are exact. *)
Lemma float_of_int_exact n : 0 < n < 2 ^ 53 →
  ∃ m e, float_of_int n = S754_finite false m e ∧ Z.log2 (Zpos m) = 52 ∧ - 52 <= e <= 0
         ∧ Zpos m = n * 2 ^ (- e).
Proof.
  intros Hn. destruct n as [|p|p]; [lia| |lia].
  assert (0 <= Z.log2 (Zpos p) <= 52) as Hl.
  { split; [apply Z.log2_nonneg|]. pose proof (proj1 (Z.log2_lt_pow2 (Zpos p) 53 ltac:(lia))). lia. }
  unfold float_of_int, binary_normalize, binary_round.
  pose proof (digits2_log2 p) as Hd. cbn [Zdigits2] in Hd. rewrite Hd. unfold fexp, emin, shl_align.
  replace (Z.max _ _ - 0) with (Z.log2 (Zpos p) - 52) by lia.
  replace (Z.max _ _) with (Z.log2 (Zpos p) - 52) by lia.
  assert (∀ d m, Zpos (Pos.iter xO m d) = Zpos m * 2 ^ Zpos d) as Hit.
  { intros d m. induction d as [|d IH] using Pos.peano_ind; [simpl; lia|].
    rewrite Pos.iter_succ, (Pos2Z.inj_xO (Pos.iter _ _ _)), IH, Pos2Z.inj_succ, Z.pow_succ_r; lia. }
  destruct (Z.log2 (Zpos p) - 52) as [|d|d] eqn:E; [|lia|].
  - exists p, 0. pose proof (round_exact false p 0 0 ltac:(lia) ltac:(lia) ltac:(lia)) as Hr.
    rewrite Z.mul_1_r in Hr. rewrite Hr. split; [done|]. change (2 ^ (- 0)) with 1. lia.
  - exists (Pos.iter xO p d), (Zneg d).
    assert (Z.log2 (Zpos (Pos.iter xO p d)) = 52) as Hl2 by (rewrite Hit, Z.log2_mul_pow2; lia).
    pose proof (round_exact false (Pos.iter xO p d) 0 (Zneg d) Hl2 ltac:(lia) ltac:(lia)) as Hr.
    rewrite Z.mul_1_r in Hr. rewrite Hr. rewrite Hit, Z.add_0_r. split; [done|]. rewrite Z.log2_mul_pow2 by lia.
    change (- Z.neg d) with (Z.pos d). lia.
Qed.

Lemma trunc_int n : 0 < n < 2 ^ 53 → float_trunc (float_of_int n) = Some n.
Proof.
  intros Hn. destruct (float_of_int_exact n Hn) as (m & e & -> & _ & He & Hm). cbn [float_trunc].
  destruct (Z.leb_spec 0 e).
  - assert (e = 0) as -> by lia. change (2 ^ (- 0)) with 1 in Hm. change (2 ^ 0) with 1. f_equal. lia.
  - rewrite Hm, Z.div_mul; [done|]. apply Z.pow_nonzero; lia.
Qed.

(** The binary64 number 2^(-k). *)
Definition pow2_inv (k : Z) : float64 := S754_finite false 4503599627370496 (- 52 - k).

(** [math.Ceil(float64(n) / 2^k)] is exact for [n < 2^53]. *)
Lemma ceil_exact k n : 0 <= k <= 52 → 0 < n < 2 ^ 53 →
  float_trunc (fceil (fmul (pow2_inv k) (float_of_int n))) = Some (- ((- n) / 2 ^ k)).
Proof.
  intros Hk Hn. destruct (float_of_int_exact n Hn) as (m & e & Hf & Hl & He & Hm). rewrite Hf.
  unfold fmul, pow2_inv, SFmul. rewrite Pos2Z.inj_mul, Z.mul_comm.
  change (Zpos 4503599627370496) with (2 ^ 52). rewrite round_exact by lia. cbn [xorb].
  replace (-52 - k + e + 52) with (e - k) by lia. cbn [fceil].
  destruct (Z.leb_spec 0 (e - k)).
  - assert (e = 0) as -> by lia. assert (k = 0) as -> by lia. change (2 ^ (- 0)) with 1 in Hm.
    change (Some (Zpos m * 1) = Some (- (- n / 1))). f_equal. rewrite Z.div_1_r. lia.
  - replace (Zneg m) with ((- n) * 2 ^ (- e)) by lia. replace (- (e - k)) with (k + (- e)) by lia.
    pose proof (Z.pow_pos_nonneg 2 (- e) ltac:(lia) ltac:(lia)).
    pose proof (Z.pow_pos_nonneg 2 k ltac:(lia) ltac:(lia)).
    rewrite Z.pow_add_r, Z.div_mul_cancel_r by lia.
    apply (trunc_int (- (- n / 2 ^ k))).
    pose proof (Z.div_lt_upper_bound (- n) (2 ^ k) 0 ltac:(lia) ltac:(lia)).
    pose proof (Z.div_le_lower_bound (- n) (2 ^ k) (- n) ltac:(lia) ltac:(nia)). lia.
Qed.

Section percentiles.
Context (convert_overflow : float64 → Z).
Abbreviation pct := (pct convert_overflow).
Abbreviation pct_index := (pct_index convert_overflow).

Lemma pct_index_range n p : 0 < n → 0 <= pct_index n p < n.
Proof.
  intros Hn. unfold LabStats.pct_index. cbv zeta. generalize (i64 (int64_of_float convert_overflow
    (fceil (fmul (fdiv p (float_of_int 100)) (float_of_int n))) - 1)). intros i.
  destruct (Z.ltb_spec i 0); match goal with |- context [n <=? ?j] => destruct (Z.leb_spec n j) end; lia.
Qed.

Lemma pct_index_exact k n p : 0 <= k <= 52 → 0 < n < 2 ^ 53 →
  fdiv p (float_of_int 100) = pow2_inv k → pct_index n p = - ((- n) / 2 ^ k) - 1.
Proof.
  intros Hk Hn Hp. unfold LabStats.pct_index, int64_of_float. rewrite Hp, ceil_exact by done. cbv zeta.
  pose proof (Z.pow_pos_nonneg 2 k ltac:(lia) ltac:(lia)).
  pose proof (Z.div_lt_upper_bound (- n) (2 ^ k) 0 ltac:(lia) ltac:(lia)).
  pose proof (Z.div_le_lower_bound (- n) (2 ^ k) (- n) ltac:(lia) ltac:(nia)).
  set (c := - (- n / 2 ^ k)) in *.
  destruct (Z.leb_spec (- 2 ^ 63) c); [|lia]. destruct (Z.ltb_spec c (2 ^ 63)); [|lia]. cbn [andb].
  rewrite i64_small by (unfold is_i64; lia).
  destruct (Z.ltb_spec (c - 1) 0); [lia|]. destruct (Z.leb_spec n (c - 1)); lia.
Qed.

(** The reported latencies are measured ones: over a non-empty list of
    samples [pct] never indexes outside the list, whatever the percentile, and
    returns one of its elements; over the sorted samples the 100th percentile
    is the maximum and the 50th the lower median, the rounding of binary64
    notwithstanding. *)
Theorem percentiles_exact l p :
  l ≠ [] → Z.of_nat (length l) < 2 ^ 53 →
  let s := sort_samples l in
  (∃ v, pct s p = Some v ∧ v ∈ l)
  ∧ (∃ v, pct s (float_of_int 100) = Some v ∧ v ∈ l ∧ Forall (fun w => w <= v) l)
  ∧ pct s (float_of_int 50) = s !! ((length l - 1) / 2)%nat.
Proof.
  intros Hne Hlen s. destruct (sort_samples_spec l) as [Hsort Hperm]. fold s in Hsort, Hperm.
  pose proof (Permutation_length Hperm) as El.
  assert (length l ≠ 0)%nat as Hl by (by intros ?%nil_length_inv).
  unfold LabStats.pct. rewrite El, !(decide_False (P := length l = 0%nat)) by done.
  assert (∀ i, (i < length l)%nat → ∃ v, s !! i = Some v ∧ v ∈ l) as Hin.
  { intros i Hi. destruct (lookup_lt_is_Some_2 s i) as [v Hv]; [by rewrite El|].
    exists v. split; [done|]. rewrite <- Hperm. by eapply list_elem_of_lookup_2. }
  split_and!.
  - apply Hin. pose proof (pct_index_range (Z.of_nat (length l)) p). lia.
  - rewrite (pct_index_exact 0) by (done || lia). rewrite Z.div_1_r.
    replace (Z.to_nat _) with (length l - 1)%nat by lia.
    destruct (Hin (length l - 1)%nat ltac:(lia)) as (v & Hv & Hvl). exists v. split; [exact Hv|]. split; [exact Hvl|].
    apply Forall_forall. intros w Hw. rewrite <- Hperm in Hw.
    apply list_elem_of_lookup in Hw as [i Hi]. pose proof (lookup_lt_Some _ _ _ Hi).
    destruct (decide (i = length l - 1)%nat) as [->|]; [by simplify_eq|].
    rewrite <- (take_drop (length l - 1) s) in Hsort.
    apply (StronglySorted_app_1_elem_of _ _ _ _ _ Hsort).
    + apply elem_of_take. exists i. split; [done|lia].
    + apply (list_elem_of_lookup_2 _ 0). by rewrite lookup_drop, Nat.add_0_r.
  - rewrite (pct_index_exact 1) by (done || lia). f_equal.
    rewrite Z.pow_1_r. apply Nat2Z.inj.
    rewrite Nat2Z.inj_div, Nat2Z.inj_sub by lia. change (Z.of_nat 2) with 2.
    Z.to_euclidean_division_equations. lia.
Qed.
End percentiles.

Lemma percentiles_exact_witness :
  let conv := fun _ : float64 => 0 in
  sort_samples [30; 10; 20] = [10; 20; 30] ∧ pct conv [10; 20; 30] (float_of_int 50) = Some 20
  ∧ pct conv [10; 20; 30] (float_of_int 100) = Some 30.
Proof.
  intros conv. destruct (percentiles_exact conv [30; 10; 20] (float_of_int 99)) as (_ & _ & Hmed); [done..|].
  split; [reflexivity|]. split; [exact Hmed|]. vm_compute. reflexivity.
Defined.

Definition sumZ (l : list Z) : Z := foldr Z.add 0 l.

Lemma sumZ_wraps (wrap : Z → Z) l z :
  (∀ a b, wrap (wrap a + b) = wrap (a + b)) →
  foldl (fun sum v => wrap (sum + v)) (wrap z) l = wrap (z + sumZ l).
Proof.
  intros Hw. revert z. induction l as [|v l IH]; intros z; simpl; [by rewrite Z.add_0_r|].
  rewrite Hw, IH. f_equal. lia.
Qed.

Lemma sumZ_bounds lo hi l : Forall (fun v => lo <= v <= hi) l →
  lo * Z.of_nat (length l) <= sumZ l <= hi * Z.of_nat (length l).
Proof. induction 1 as [|v l Hv _ IH]; simpl sumZ; [simpl; lia|]. rewrite length_cons. lia. Qed.

(** The mean lies between the bounds of the samples when their sum does not
    overflow. *)
Lemma avg_bounds lo hi s : s ≠ [] → 0 <= lo → sumZ s < 2 ^ 63 →
  Forall (fun v => lo <= v <= hi) s → lo <= avg s <= hi.
Proof.
  intros Hne Hlo Hs Hb. unfold avg.
  assert (length s ≠ 0)%nat by (by intros ?%nil_length_inv). rewrite decide_False by done.
  pose proof (sumZ_wraps i64 s 0 i64_add_l) as Hsum. change (i64 0) with 0 in Hsum. rewrite Hsum, Z.add_0_l.
  pose proof (sumZ_bounds lo hi s Hb) as Hr. rewrite (i64_small (sumZ s)) by (unfold is_i64; nia).
  rewrite Z.quot_div_nonneg by nia.
  assert (lo <= sumZ s / Z.of_nat (length s) <= hi) as Hq.
  { split; [apply Z.div_le_lower_bound; lia|].
    apply Z.lt_succ_r, Z.div_lt_upper_bound; nia. }
  rewrite i64_small; [done|]. unfold is_i64.
  pose proof (Z.div_le_upper_bound (sumZ s) (Z.of_nat (length s)) (sumZ s) ltac:(lia) ltac:(nia)). lia.
Qed.

(** ** Several runs *)

(** The runs the totals and the mean are over. *)
Definition counted (rs : list runResult) : list runResult :=
  if decide (1 < length rs)%nat then drop 1 rs else rs.

Lemma u32_add_l a b : u32 (u32 a + b) = u32 (a + b).
Proof. unfold u32. by rewrite Zplus_mod_idemp_l. Qed.
Lemma u64_add_l a b : u64 (u64 a + b) = u64 (a + b).
Proof. unfold u64. by rewrite Zplus_mod_idemp_l. Qed.

(** What a list of counted runs adds. *)
Definition add_counted (s : runStats) (rs : list runResult) : runStats :=
  foldl (fun s r => add s r false) s rs.

Lemma add_counted_fields s rs :
  let s' := add_counted s rs in
  runs s' = runs s ∧ tpsSamples s' = tpsSamples s ++ map tps rs
  ∧ latencies s' = latencies s ++ concat (map r_latencies rs)
  ∧ totalOps s' = foldl (fun t v => u64 (t + v)) (totalOps s) (map r_ops rs)
  ∧ totalErrors s' = foldl (fun t v => u64 (t + v)) (totalErrors s) (map r_errors rs)
  ∧ totalConflicts s' = foldl (fun t v => u64 (t + v)) (totalConflicts s) (map r_conflicts rs)
  ∧ totalDuration s' = foldl (fun t v => i64 (t + v)) (totalDuration s) (map r_duration rs)
  ∧ totalGCPauses s' = foldl (fun t v => i64 (t + v)) (totalGCPauses s) (map r_gcPauses rs)
  ∧ totalGCCount s' = foldl (fun t v => u32 (t + v)) (totalGCCount s) (map r_gcCount rs).
Proof.
  revert s. induction rs as [|r rs IH]; intros s; [simpl; by rewrite !app_nil_r|].
  destruct (IH (add s r false)) as (H1 & H2 & H3 & H4). unfold add_counted in *. simpl in *.
  rewrite H1, H2, H3, <- !app_assoc. simpl. repeat (split; [reflexivity|]). exact H4.
Qed.

Lemma add_runs_later numRuns run rs s : 1 < run → add_runs numRuns run rs s = add_counted s rs.
Proof.
  revert run s. induction rs as [|r rs IH]; intros run s Hr; [done|]. simpl.
  destruct (Z.eqb_spec run 1); [lia|]. simpl. apply IH. lia.
Qed.

(** The statistics of a benchmark are over the runs they claim: after all
    runs were added, the mean is over the throughputs of exactly the runs whose
    operations, errors, conflicts, durations and latencies were totalled, every
    run but the first when there are several; the latencies the percentiles are
    taken from are those of these runs, sorted. *)
Theorem benchmark_totals rs :
  let s := add_runs (Z.of_nat (length rs)) 1 rs (newRunStats (Z.of_nat (length rs))) in
  let cs := counted rs in
  tpsSamples s = map tps rs ∧ measuredSamples s = map tps cs
  ∧ totalOps s = u64 (sumZ (map r_ops cs)) ∧ totalErrors s = u64 (sumZ (map r_errors cs))
  ∧ totalConflicts s = u64 (sumZ (map r_conflicts cs))
  ∧ totalDuration s = i64 (sumZ (map r_duration cs))
  ∧ StronglySorted Z.le (sortedLatencies s) ∧ sortedLatencies s ≡ₚ concat (map r_latencies cs).
Proof.
  intros s cs.
  assert (∃ s0, s = add_counted s0 cs ∧ tpsSamples s0 ++ map tps cs = map tps rs
                ∧ s0 = {| runs := runs s0; tpsSamples := tpsSamples s0; latencies := []; totalOps := 0;
                          totalErrors := 0; totalConflicts := 0; totalDuration := 0;
                          totalGCPauses := 0; totalGCCount := 0 |}) as (s0 & Es & Et & E0).
  { subst s cs. unfold counted. destruct rs as [|r [|r' rs]].
    - by exists (newRunStats 0).
    - by exists (newRunStats 1).
    - rewrite decide_True by (simpl; lia). set (n := Z.of_nat _).
      exists (add (newRunStats n) r true). split; [|done]. cbn [add_runs drop].
      destruct (Z.ltb_spec 1 n) as [_|Hn]; [|unfold n in Hn; rewrite !length_cons in Hn; lia]. cbn [Z.eqb Pos.eqb andb].
      destruct (Z.eqb_spec (1 + 1) 1); [lia|]. cbn [andb]. by rewrite add_runs_later by lia. }
  destruct (add_counted_fields s0 cs) as (_ & Hts & Hl & Ho & He & Hc & Hd & _). rewrite <- Es in *.
  rewrite Et in Hts. rewrite E0 in Hl, Ho, He, Hc, Hd. simpl in Hl, Ho, He, Hc, Hd.
  pose proof (sumZ_wraps u64 (map r_ops cs) 0 u64_add_l) as So.
  pose proof (sumZ_wraps u64 (map r_errors cs) 0 u64_add_l) as Se.
  pose proof (sumZ_wraps u64 (map r_conflicts cs) 0 u64_add_l) as Sc.
  pose proof (sumZ_wraps i64 (map r_duration cs) 0 i64_add_l) as Sd.
  rewrite Ho, He, Hc, Hd. split_and!; [done| |done..| |].
  - unfold measuredSamples. rewrite Hts, length_map. unfold cs, counted.
    case_decide; [|done]. by rewrite <- skipn_map.
  - apply sort_samples_spec.
  - unfold sortedLatencies. rewrite Hl. apply sort_samples_spec.
Qed.

(** Two runs of ten collections each are reported as five per run. *)
Lemma gc_average_diluted :
  let r := {| r_duration := 15 * second; r_ops := 1; r_errors := 0; r_conflicts := 0; r_latencies := [1];
              r_gcPauses := 1000; r_gcCount := 10 |} in
  gc_per_run (add_runs 2 1 [r; r] (newRunStats 2)) = Some (500, 5, 7500000000).
Proof. reflexivity. Qed.

(** ** Boxes *)

Lemma length_repeat s n : length (repeat s n) = (n * length s)%nat.
Proof. induction n as [|n IH]; [done|]. simpl. rewrite length_app, IH. lia. Qed.

Lemma go_len_ge s : (length s ≤ go_len s)%nat.
Proof.
  unfold go_len. induction s as [|c s IH]; [done|]. simpl. unfold rune_len at 1. repeat case_match; lia.
Qed.

Lemma length_pad w s : (length s ≤ w)%nat → length (pad_right w s) = w.
Proof. intros Hl. unfold pad_right. rewrite length_app, length_repeat. simpl. lia. Qed.

Lemma max_width {A} (f : A → nat) rows w r :
  r ∈ rows → (f r ≤ foldl (fun w r => Nat.max w (f r)) w rows)%nat.
Proof.
  revert w. induction rows as [|r' rows IH]; intros w Hr; [by apply not_elem_of_nil in Hr|]. simpl.
  apply elem_of_cons in Hr as [->|Hr]; [|by apply IH].
  assert (∀ v, (v ≤ foldl (fun w r => Nat.max w (f r)) v rows)%nat) as Hm.
  { clear. induction rows as [|r'' rows IH]; intros v; [done|]. simpl. specialize (IH (Nat.max v (f r''))). lia. }
  specialize (Hm (Nat.max w (f r'))). lia.
Qed.

(** The rows of a box are all of one width, two more than its borders. *)
Lemma printBox_widths r rows :
  ∃ w, let ls := printBox (r :: rows) in
    Forall (fun l => length l = (w + 2)%nat) (drop 1 (take (length ls - 1) ls))
    ∧ length <$> head ls = Some w ∧ length <$> last ls = Some w.
Proof.
  unfold printBox. set (w0 := foldl _ _ _). set (w1 := foldl _ _ _).
  exists (w0 + w1 + 9)%nat. cbv zeta. split.
  - match goal with |- context [?a :: (?m ++ [?z])] =>
      replace (take _ _) with (a :: m)
        by (rewrite app_comm_cons, length_app, Nat.add_sub; by rewrite take_app_length) end.
    cbn [drop].
    assert (∀ r', r' ∈ r :: rows → length (vline ++ [32; 32] ++ pad_right w0 r'.1 ++ [32; 32] ++ vline ++ [32; 32]
               ++ pad_right w1 r'.2 ++ [32; 32] ++ vline) = (w0 + w1 + 9 + 2)%nat) as Hrow.
    { intros r' Hr'.
      pose proof (max_width (fun r => go_len r.1) _ 0 _ Hr'). pose proof (go_len_ge r'.1).
      pose proof (max_width (fun r => go_len r.2) _ 0 _ Hr'). pose proof (go_len_ge r'.2).
      rewrite !length_app, !length_pad by (unfold w0, w1; lia). simpl. lia. }
    constructor; [apply Hrow; set_solver|]. constructor.
    + rewrite !length_app, !length_repeat. simpl. lia.
    + apply Forall_forall. intros l (r' & -> & Hr')%list_elem_of_fmap. apply Hrow. set_solver.
  - split; [|rewrite last_cons, last_snoc]; simpl; rewrite !length_app, !length_repeat; simpl; do 2 f_equal; lia.
Qed.
