(* ===== verification/Fmt.v ===== *)
(** * Formatting of numbers and durations

    The verbs of package fmt and the methods of [time.Duration] that the load
    generator's reports use (src/workspace/runner.go): [%d], [%.Nf] and
    [Duration.String], as the Go standard library defines them. A printed
    duration reads back as exactly the duration, and a printed float is within
    half a unit of its last digit. *)

From Corelib Require Import SpecFloat.
From S2P Require Import Prelude Batcher LabStats.

(** A string of ASCII characters. *)
Definition str (s : string) : runes := map byte.unsigned (bs s).

(** ** Integers *)

(** [for v > 0 { w--; buf[w] = byte(v%10) + '0'; v /= 10 }], writing before [acc]. *)
Fixpoint fmtInt_loop (fuel : nat) (v : Z) (acc : runes) : runes :=
  match fuel with
  | O => acc
  | S fuel => if v =? 0 then acc else fmtInt_loop fuel (v / 10) ((v mod 10 + 48) :: acc)
  end.

(** fmtInt of package time; a number has at most as many decimal as binary
    digits. *)
Definition fmtInt (v : Z) (acc : runes) : runes :=
  if v =? 0 then 48 :: acc else fmtInt_loop (S (Z.to_nat (Z.log2 v))) v acc.

(** [%d] *)
Definition fmt_d (v : Z) : runes := if v <? 0 then 45 :: fmtInt (- v) [] else fmtInt v [].

(** ** Durations *)

(** The loop of fmtFrac: drop trailing zeros, keep the other digits. *)
Fixpoint fmtFrac_loop (prec : nat) (v : Z) (print : bool) (acc : runes) : Z * bool * runes :=
  match prec with
  | O => (v, print, acc)
  | S prec =>
      let digit := v mod 10 in
      let print := print || negb (digit =? 0) in
      fmtFrac_loop prec (v / 10) print (if print then (digit + 48) :: acc else acc)
  end.

Definition fmtFrac (prec : nat) (v : Z) (acc : runes) : Z * runes :=
  let '(v, print, acc) := fmtFrac_loop prec v false acc in (v, if print then 46 :: acc else acc).

(** (d Duration) String, less the sign. *)
Definition format_abs (u : Z) : runes :=
  if u <? second then
    if u =? 0 then str "0s"
    else
      let '(prec, unit) :=
        if u <? 1000 then (0%nat, str "ns")
        else if u <? 1000000 then (3%nat, 181 :: str "s")
        else (6%nat, str "ms") in
      let '(v, acc) := fmtFrac prec u unit in fmtInt v acc
  else
    let '(u, acc) := fmtFrac 9 u (str "s") in
    let acc := fmtInt (u mod 60) acc in
    let u := u / 60 in
    if 0 <? u then
      let acc := fmtInt (u mod 60) (str "m" ++ acc) in
      let u := u / 60 in
      if 0 <? u then fmtInt u (str "h" ++ acc) else acc
    else acc.

(** (d Duration) String *)
Definition Duration_String (d : Z) : runes := (if d <? 0 then [45] else []) ++ format_abs (Z.abs d).

(** ** Floats *)

(** [num / den], a half rounded to even. *)
Definition round_even (num den : Z) : Z :=
  let q := num / den in
  let r := num mod den in
  if 2 * r <? den then q else if den <? 2 * r then q + 1 else if Z.even q then q else q + 1.

(** The last [n] digits of [v], before [acc]. *)
Fixpoint pad_digits (n : nat) (v : Z) (acc : runes) : runes :=
  match n with
  | O => acc
  | S n => pad_digits n (v / 10) ((v mod 10 + 48) :: acc)
  end.

(** [n] units of [10 ^ -prec]. *)
Definition fmt_units (prec : nat) (n : Z) : runes :=
  fmtInt (n / 10 ^ Z.of_nat prec)
    (if decide (prec = 0%nat) then [] else 46 :: pad_digits prec (n mod 10 ^ Z.of_nat prec) []).

(** A finite float in units of [10 ^ -prec]: [strconv] rounds the exact value. *)
Definition float_units (prec : nat) (m : positive) (e : Z) : Z :=
  if 0 <=? e then Z.pos m * 2 ^ e * 10 ^ Z.of_nat prec
  else round_even (Z.pos m * 10 ^ Z.of_nat prec) (2 ^ (- e)).

Definition fmt_sign (s : bool) : runes := if s then [45] else [].

(** [%.<prec>f] *)
Definition fmt_f (prec : nat) (f : float64) : runes :=
  match f with
  | S754_zero s => fmt_sign s ++ fmt_units prec 0
  | S754_infinity s => (if s then 45 else 43) :: str "Inf"
  | S754_nan => str "NaN"
  | S754_finite s m e => fmt_sign s ++ fmt_units prec (float_units prec m e)
  end.

Example float_examples :
  fmt_f 0 (float_of_int 1536000) = str "1536000"
  ∧ fmt_f 1 (fdiv (float_of_int 1) (float_of_int 8)) = str "0.1"
  ∧ fmt_f 2 (fdiv (float_of_int 1) (float_of_int 8)) = str "0.12"
  ∧ fmt_f 2 (fdiv (float_of_int (-1000)) (float_of_int 3)) = str "-333.33"
  ∧ fmt_f 0 (fdiv (float_of_int 1) (float_of_int 2)) = str "0"
  ∧ fmt_f 1 (fdiv (float_of_int 1) (float_of_int 0)) = str "+Inf".
Proof. vm_compute. by repeat split. Qed.

(** ** Reading a duration back *)

(** [v] is a number without its point, [frac] how many of its digits follow the
    point; [unit] in nanoseconds. *)
Definition amount (v : Z) (frac : option nat) (unit : Z) : Z :=
  v * unit / 10 ^ Z.of_nat (default 0%nat frac).

Definition is_digit (c : Z) : bool := (48 <=? c) && (c <=? 57).

(** Numbers with units, added up. *)
Fixpoint read_amounts (l : runes) (tot v : Z) (frac : option nat) : option Z :=
  match l with
  | [] => Some tot
  | c :: l1 =>
      if is_digit c then read_amounts l1 tot (v * 10 + (c - 48)) (S <$> frac)
      else if c =? 46 then read_amounts l1 tot v (Some 0%nat)
      else if c =? 104 then read_amounts l1 (tot + amount v frac (3600 * second)) 0 None
      else if c =? 115 then read_amounts l1 (tot + amount v frac second) 0 None
      else
        let single := if c =? 109 then read_amounts l1 (tot + amount v frac (60 * second)) 0 None else None in
        match l1 with
        | c2 :: l2 =>
            let unit := if c =? 109 then Some 1000000 else if c =? 181 then Some 1000
                        else if c =? 110 then Some 1 else None in
            if c2 =? 115 then
              match unit with
              | Some unit => read_amounts l2 (tot + amount v frac unit) 0 None
              | None => None
              end
            else single
        | [] => single
        end
  end.

Definition read_duration (s : runes) : option Z :=
  match s with
  | c :: s' => if c =? 45 then Z.opp <$> read_amounts s' 0 0 None else read_amounts s 0 0 None
  | [] => Some 0
  end.

Example duration_examples :
  map Duration_String [0; 7; 1500; -2000000; 1000000000; 90061001000000]
  = [str "0s"; str "7ns"; str "1.5" ++ 181 :: str "s"; str "-2ms"; str "1s"; str "25h1m1.001s"].
Proof. vm_compute. reflexivity. Qed.

(** *** Digits *)

Definition digits_value (ds : runes) : Z := foldl (fun v c => v * 10 + (c - 48)) 0 ds.

Lemma digits_value_from ds v :
  foldl (fun v c => v * 10 + (c - 48)) v ds = v * 10 ^ Z.of_nat (length ds) + digits_value ds.
Proof.
  unfold digits_value. revert v. induction ds as [|c ds IH] using rev_ind; intros v; [simpl; lia|].
  rewrite !foldl_app. simpl. rewrite IH, length_app. simpl.
  rewrite Nat2Z.inj_add, Z.pow_add_r by lia. change (10 ^ Z.of_nat 1) with 10. lia.
Qed.

Lemma is_digit_mod v : 0 <= v → is_digit (v mod 10 + 48) = true.
Proof. intros Hv. unfold is_digit. pose proof (Z.mod_pos_bound v 10 eq_refl). lia. Qed.

Lemma read_digits ds acc tot v frac :
  Forall (fun c => is_digit c = true) ds →
  read_amounts (ds ++ acc) tot v frac
  = read_amounts acc tot (v * 10 ^ Z.of_nat (length ds) + digits_value ds) (Nat.add (length ds) <$> frac).
Proof.
  intros Hd. revert v frac. induction Hd as [|c ds Hc _ IH]; intros v frac.
  { unfold digits_value. simpl. rewrite Z.mul_1_r, Z.add_0_r. by destruct frac. }
  cbn [app read_amounts length]. rewrite Hc, IH. f_equal.
  - assert (digits_value (c :: ds) = (c - 48) * 10 ^ Z.of_nat (length ds) + digits_value ds) as ->
      by (unfold digits_value at 1; cbn [foldl]; by rewrite digits_value_from).
    rewrite Nat2Z.inj_succ, Z.pow_succ_r by lia. lia.
  - destruct frac; [simpl; f_equal; lia|done].
Qed.

(** What is printed of an integer. *)
Lemma fmtInt_loop_spec fuel v acc :
  0 <= v < 2 ^ Z.of_nat fuel →
  ∃ ds, fmtInt_loop fuel v acc = ds ++ acc ∧ Forall (fun c => is_digit c = true) ds ∧ digits_value ds = v.
Proof.
  revert v acc. induction fuel as [|fuel IH]; intros v acc Hv.
  { assert (v = 0) as -> by (simpl in Hv; lia). by exists []. }
  simpl. destruct (Z.eqb_spec v 0) as [->|Hn]; [by exists []|].
  destruct (IH (v / 10) ((v mod 10 + 48) :: acc)) as (ds & -> & Hd & Hval).
  { rewrite Nat2Z.inj_succ, Z.pow_succ_r in Hv by lia. pose proof (Z_div_mod_eq_full v 10).
    pose proof (Z.mod_pos_bound v 10 eq_refl). lia. }
  exists (ds ++ [v mod 10 + 48]). rewrite <- app_assoc. split_and!; [done| |].
  - apply Forall_app. split; [done|]. constructor; [apply is_digit_mod; lia|constructor].
  - unfold digits_value in *. rewrite foldl_app, Hval. simpl. pose proof (Z_div_mod_eq_full v 10). lia.
Qed.

Lemma fmtInt_spec v acc :
  0 <= v →
  ∃ ds, fmtInt v acc = ds ++ acc ∧ Forall (fun c => is_digit c = true) ds ∧ digits_value ds = v ∧ ds ≠ [].
Proof.
  intros Hv. unfold fmtInt. destruct (Z.eqb_spec v 0) as [->|Hn]; [by exists [48]; repeat constructor|].
  destruct (fmtInt_loop_spec (S (Z.to_nat (Z.log2 v))) v acc) as (ds & E & Hd & Hval).
  { rewrite Nat2Z.inj_succ, Z2Nat.id by apply Z.log2_nonneg. pose proof (Z.log2_spec v). lia. }
  exists ds. split_and!; [done|done|done|]. intros ->. unfold digits_value in Hval. simpl in Hval. lia.
Qed.

Lemma read_fmtInt v acc tot : 0 <= v → read_amounts (fmtInt v acc) tot 0 None = read_amounts acc tot v None.
Proof.
  intros Hv. destruct (fmtInt_spec v acc Hv) as (ds & -> & Hd & Hval & _).
  rewrite read_digits by done. by rewrite Hval.
Qed.

(** What is printed of a fraction: digits whose value, scaled by the zeros left
    out, is the remainder; once a digit is kept all later ones are. *)
Lemma fmtFrac_loop_spec prec v print acc :
  0 <= v →
  ∃ ds, fmtFrac_loop prec v print acc
        = (v / 10 ^ Z.of_nat prec, print || negb (v mod 10 ^ Z.of_nat prec =? 0), ds ++ acc)
    ∧ Forall (fun c => is_digit c = true) ds ∧ (length ds ≤ prec)%nat
    ∧ digits_value ds * 10 ^ Z.of_nat (prec - length ds) = v mod 10 ^ Z.of_nat prec
    ∧ (print = true → length ds = prec)
    ∧ (print = false → v mod 10 ^ Z.of_nat prec = 0 → ds = []).
Proof.
  revert v print acc. induction prec as [|prec IH]; intros v print acc Hv.
  { exists []. simpl. rewrite Z.div_1_r, Z.mod_1_r, orb_false_r. split_and!; done. }
  cbn [fmtFrac_loop]. set (digit := v mod 10). set (print' := print || negb (digit =? 0)).
  pose proof (Z.mod_pos_bound v 10 eq_refl) as Hdg. pose proof (Z_div_mod_eq_full v 10) as Hdm.
  destruct (IH (v / 10) print' (if print' then (digit + 48) :: acc else acc)) as (ds & -> & Hd & Hl & Hval & Hall & Hnone);
    [apply Z.div_pos; lia|].
  assert (Hp : 10 ^ Z.of_nat (S prec) = 10 * 10 ^ Z.of_nat prec) by (rewrite Nat2Z.inj_succ, Z.pow_succ_r; lia).
  pose proof (Z.pow_pos_nonneg 10 (Z.of_nat prec) eq_refl ltac:(lia)) as Hp0.
  assert (Hrem : v mod 10 ^ Z.of_nat (S prec) = 10 * ((v / 10) mod 10 ^ Z.of_nat prec) + digit).
  { rewrite Hp. rewrite Z.rem_mul_r by lia. unfold digit. lia. }
  assert (Hq : v / 10 / 10 ^ Z.of_nat prec = v / 10 ^ Z.of_nat (S prec)) by (rewrite Hp, Z.div_div by lia; done).
  pose proof (Z.mod_pos_bound (v / 10) (10 ^ Z.of_nat prec) Hp0) as Hm0.
  assert (Hflag : print' || negb ((v / 10) mod 10 ^ Z.of_nat prec =? 0)
                  = print || negb (v mod 10 ^ Z.of_nat (S prec) =? 0)).
  { rewrite Hrem. unfold print'. destruct print; [done|]. simpl.
    destruct (Z.eqb_spec digit 0), (Z.eqb_spec ((v / 10) mod 10 ^ Z.of_nat prec) 0), (Z.eqb_spec (10 * ((v / 10) mod 10 ^ Z.of_nat prec) + digit) 0); try done; lia. }
  rewrite Hq, Hflag. destruct print' eqn:Ep.
  - exists (ds ++ [digit + 48]). rewrite <- app_assoc. split_and!; [done| | | | |].
    + apply Forall_app. split; [done|]. constructor; [by apply is_digit_mod|constructor].
    + rewrite length_app. simpl. lia.
    + rewrite length_app, (Hall eq_refl). cbn [length]. replace (S prec - (prec + 1))%nat with 0%nat by lia.
      rewrite (Hall eq_refl), Nat.sub_diag in Hval. simpl in Hval |- *. rewrite Z.mul_1_r in *.
      rewrite Hrem, <- Hval. unfold digits_value. rewrite foldl_app. simpl. lia.
    + intros _. rewrite length_app, (Hall eq_refl). simpl. lia.
    + intros -> E. exfalso. unfold print' in Ep. apply negb_true_iff in Ep. lia.
  - assert (digit = 0) as Hz. { unfold print' in Ep. apply orb_false_iff in Ep as [_ Ep]. apply negb_false_iff in Ep. lia. }
    exists ds. split_and!; [done|done|lia| | |].
    + rewrite Hrem, Hz, <- Hval. rewrite Nat.sub_succ_l, Nat2Z.inj_succ, Z.pow_succ_r by lia. lia.
    + intros ->. done.
    + intros _ E. apply Hnone; [done|lia].
Qed.

Lemma Zpow_split k n : (k ≤ n)%nat → 10 ^ Z.of_nat n = 10 ^ Z.of_nat k * 10 ^ Z.of_nat (n - k).
Proof. intros Hk. rewrite <- Z.pow_add_r by lia. f_equal. lia. Qed.

(** A fraction and its unit read back as the remainder; the unit is [10 ^ prec]
    nanoseconds. *)
Lemma read_fraction prec u rest tot q acc :
  0 <= u → fmtFrac prec u rest = (q, acc) →
  (∀ v frac, read_amounts rest tot v frac = Some (tot + amount v frac (10 ^ Z.of_nat prec))) →
  q = u / 10 ^ Z.of_nat prec
  ∧ ∀ x, read_amounts acc tot x None = Some (tot + (x * 10 ^ Z.of_nat prec + u mod 10 ^ Z.of_nat prec)).
Proof.
  intros Hu. unfold fmtFrac. destruct (fmtFrac_loop_spec prec u false rest Hu) as (ds & -> & Hd & Hl & Hval & _ & Hnone).
  intros [= <- <-] Hr. split; [done|]. intros x. set (r := u mod 10 ^ Z.of_nat prec) in *.
  destruct (Z.eqb_spec r 0) as [E|E]; simpl.
  - rewrite (Hnone eq_refl E). simpl. rewrite Hr. unfold amount. simpl. rewrite Z.div_1_r. do 2 f_equal. lia.
  - rewrite read_digits by done. rewrite Hr. unfold amount. simpl. do 2 f_equal. rewrite Nat.add_0_r, <- Hval.
    rewrite (Zpow_split (length ds) prec) by done.
    rewrite Z.mul_assoc, (Z.mul_comm _ (10 ^ Z.of_nat (length ds))), <- !Z.mul_assoc, Z.mul_comm, Z.div_mul by lia.
    lia.
Qed.

Lemma read_hours acc tot v : read_amounts (str "h" ++ acc) tot v None = read_amounts acc (tot + v * (3600 * second)) 0 None.
Proof. simpl. unfold amount. simpl. by rewrite Z.div_1_r. Qed.

(** [m] is minutes where no [s] follows. *)
Lemma read_minutes w acc tot v : 0 <= w →
  read_amounts (str "m" ++ fmtInt w acc) tot v None = read_amounts (fmtInt w acc) (tot + v * (60 * second)) 0 None.
Proof.
  intros Hw. destruct (fmtInt_spec w acc Hw) as (ds & -> & Hd & _ & Hne). destruct ds as [|c ds]; [done|].
  apply Forall_cons in Hd as [Hc _]. unfold is_digit in Hc.
  replace (tot + v * (60 * second)) with (tot + amount v None (60 * second))
    by (unfold amount; simpl; by rewrite Z.div_1_r).
  assert (c =? 115 = false) as Hs by lia. cbn [app str map bs]. cbn [read_amounts]. cbn. by rewrite Hs.
Qed.

Lemma format_abs_exact u : 0 <= u → read_amounts (format_abs u) 0 0 None = Some u.
Proof.
  intros Hu. unfold format_abs. destruct (Z.ltb_spec u second).
  - destruct (Z.eqb_spec u 0) as [->|Hn]; [done|].
    assert (∀ prec unit,
      (∀ v frac, read_amounts unit 0 v frac = Some (0 + amount v frac (10 ^ Z.of_nat prec))) →
      read_amounts (let '(v, acc) := fmtFrac prec u unit in fmtInt v acc) 0 0 None = Some u) as Hcase.
    { intros prec unit Hunit. destruct (fmtFrac prec u unit) as [q acc] eqn:E.
      destruct (read_fraction _ _ _ 0 _ _ Hu E Hunit) as [-> Hx].
      rewrite read_fmtInt, Hx by (by apply Z.div_pos; [|apply Z.pow_pos_nonneg; lia]). f_equal.
      pose proof (Z_div_mod_eq_full u (10 ^ Z.of_nat prec)). lia. }
    by destruct (u <? 1000); [|destruct (u <? 1000000)]; apply Hcase.
  - destruct (fmtFrac 9 u (str "s")) as [q acc] eqn:E.
    assert (∀ tot, q = u / 10 ^ Z.of_nat 9
      ∧ ∀ x, read_amounts acc tot x None = Some (tot + (x * 10 ^ Z.of_nat 9 + u mod 10 ^ Z.of_nat 9))) as Hx
      by (intros tot; by apply (read_fraction _ _ _ tot _ _ Hu E)).
    pose proof (Z_div_mod_eq_full u (10 ^ Z.of_nat 9)) as Hdm. destruct (Hx 0) as [Hq _]. rewrite <- Hq in Hdm.
    assert (0 <= q) as Hq0 by (rewrite Hq; by apply Z.div_pos).
    pose proof (Z_div_mod_eq_full q 60). pose proof (Z_div_mod_eq_full (q / 60) 60).
    pose proof (Z.mod_pos_bound q 60 eq_refl). pose proof (Z.mod_pos_bound (q / 60) 60 eq_refl).
    assert (0 <= q / 60) by (apply Z.div_pos; lia). assert (0 <= q / 60 / 60) by (apply Z.div_pos; lia).
    change (10 ^ Z.of_nat 9) with second in *.
    assert (∀ tot, read_amounts (fmtInt (q mod 60) acc) tot 0 None = Some (tot + (q mod 60 * second + u mod second))) as Hs.
    { intros tot. rewrite read_fmtInt by lia. apply Hx. }
    destruct (Z.ltb_spec 0 (q / 60)); [destruct (Z.ltb_spec 0 (q / 60 / 60))|].
    + rewrite read_fmtInt, read_hours, read_fmtInt, read_minutes, Hs by lia. f_equal. unfold second in *. lia.
    + rewrite read_fmtInt, read_minutes, Hs by lia. f_equal. unfold second in *. lia.
    + rewrite Hs. f_equal. unfold second in *. lia.
Qed.

(** The text of a duration reads back as the duration: nothing is lost. *)
Lemma Duration_String_exact d : read_duration (Duration_String d) = Some d.
Proof.
  unfold Duration_String. pose proof (format_abs_exact (Z.abs d) (Z.abs_nonneg d)) as E.
  destruct (Z.ltb_spec d 0).
  - simpl. rewrite E. simpl. f_equal. lia.
  - simpl. rewrite Z.abs_eq in * by done. revert E. generalize (format_abs d). intros s.
    destruct s as [|c s]; [done|]. unfold read_duration. destruct (Z.eqb_spec c 45) as [->|Hc]; [|done].
    cbn [read_amounts]. cbn. by destruct s as [|c2 s]; [|destruct (c2 =? 115)].
Qed.

(** *** Floats *)

Lemma round_even_close num den : 0 < den → Z.abs (2 * (round_even num den * den - num)) <= den.
Proof.
  intros Hd. unfold round_even. pose proof (Z_div_mod_eq_full num den). pose proof (Z.mod_pos_bound num den Hd).
  destruct (Z.ltb_spec (2 * (num mod den)) den); [lia|].
  destruct (Z.ltb_spec den (2 * (num mod den))); [lia|]. destruct (Z.even _); lia.
Qed.

Lemma pad_digits_spec n v acc : 0 <= v < 10 ^ Z.of_nat n →
  ∃ ds, pad_digits n v acc = ds ++ acc ∧ Forall (fun c => is_digit c = true) ds ∧ length ds = n ∧ digits_value ds = v.
Proof.
  revert v acc. induction n as [|n IH]; intros v acc Hv.
  { exists []. split_and!; [done|constructor|done|]. simpl in Hv. unfold digits_value. simpl. lia. }
  rewrite Nat2Z.inj_succ, Z.pow_succ_r in Hv by lia. pose proof (Z_div_mod_eq_full v 10) as Hdm.
  pose proof (Z.mod_pos_bound v 10 eq_refl).
  destruct (IH (v / 10) ((v mod 10 + 48) :: acc)) as (ds & E & Hd & Hl & Hval); [lia|].
  exists (ds ++ [v mod 10 + 48]). cbn [pad_digits]. rewrite E, <- app_assoc, length_app. split_and!; [done| |simpl; lia|].
  { apply Forall_app. split; [done|]. constructor; [apply is_digit_mod; lia|constructor]. }
  unfold digits_value in *. rewrite foldl_app, Hval. simpl. lia.
Qed.

(** The digits of a printed number, without its point. *)
Definition read_units (s : runes) : Z := digits_value (filter (fun c => c ≠ 46) s).

Lemma filter_digits ds : Forall (fun c => is_digit c = true) ds → filter (fun c => c ≠ 46) ds = ds.
Proof.
  induction 1 as [|c ds Hc _ IH]; [done|]. rewrite filter_cons_True, IH; [done|].
  intros ->. by vm_compute in Hc.
Qed.

Lemma digits_value_app ds ds' : digits_value (ds ++ ds') = digits_value ds * 10 ^ Z.of_nat (length ds') + digits_value ds'.
Proof. unfold digits_value at 1. rewrite foldl_app. apply digits_value_from. Qed.

Lemma read_fmt_units prec n : 0 <= n → read_units (fmt_units prec n) = n.
Proof.
  intros Hn. unfold fmt_units, read_units.
  pose proof (Z.pow_pos_nonneg 10 (Z.of_nat prec) eq_refl ltac:(lia)) as Hp.
  pose proof (Z.mod_pos_bound n _ Hp) as Hm. pose proof (Z_div_mod_eq_full n (10 ^ Z.of_nat prec)) as Hdm.
  match goal with |- context [fmtInt ?q ?acc] =>
    destruct (fmtInt_spec q acc) as (ds & -> & Hd & Hval & _); [by apply Z.div_pos|] end.
  rewrite filter_app, digits_value_app, (filter_digits ds), Hval by done. case_decide as Ep.
  - subst prec. simpl in *. unfold digits_value. simpl. lia.
  - rewrite filter_cons_False by (by intros []).
    destruct (pad_digits_spec prec (n mod 10 ^ Z.of_nat prec) [] Hm) as (ds' & -> & Hd' & Hl & Hval').
    rewrite app_nil_r, (filter_digits ds'), Hl, Hval' by done. lia.
Qed.

Lemma float_units_nonneg prec m e : 0 <= float_units prec m e.
Proof.
  unfold float_units. pose proof (Z.pow_pos_nonneg 10 (Z.of_nat prec) eq_refl ltac:(lia)).
  destruct (Z.leb_spec 0 e); [pose proof (Z.pow_nonneg 2 e ltac:(lia)); nia|].
  pose proof (Z.pow_pos_nonneg 2 (- e) eq_refl ltac:(lia)) as Hd.
  assert (0 <= Z.pos m * 10 ^ Z.of_nat prec / 2 ^ (- e)) by (apply Z.div_pos; nia).
  unfold round_even. repeat case_match; lia.
Qed.

(** A printed positive float is within half a unit of its last digit. *)
Lemma fmt_f_close prec m e : ∃ n, fmt_f prec (S754_finite false m e) = fmt_units prec n
  ∧ read_units (fmt_f prec (S754_finite false m e)) = n
  ∧ if 0 <=? e then n = Z.pos m * 2 ^ e * 10 ^ Z.of_nat prec
    else Z.abs (2 * (n * 2 ^ (- e) - Z.pos m * 10 ^ Z.of_nat prec)) <= 2 ^ (- e).
Proof.
  exists (float_units prec m e). split; [done|]. split; [apply read_fmt_units, float_units_nonneg|].
  unfold float_units. destruct (Z.leb_spec 0 e); [done|]. apply round_even_close, Z.pow_pos_nonneg; lia.
Qed.
