(* ===== verification/LabReport.v ===== *)
(** * The reports of the load generator (src/workspace/runner.go)

    [runStats.print], [printGoal], [printTelemetrySummary] and [printMetrics]: the
    rows and lines they print, character by character, with the verbs of Fmt.v.
    The latencies of the result box read back as the percentiles of the samples,
    rounded to a microsecond; the columns of the stage summary are aligned, its
    top border and the box below it are not. *)

From Corelib Require Import SpecFloat.
From S2P Require Import Prelude Batcher Telemetry Stages LabStats Fmt.

(** ** Definitions *)

(** The settings a report repeats. *)
Record reportConfig := {
  rp_engine : runes; rp_mode : runes; rp_sync : runes; rp_workload : runes;
  rp_concurrency : Z; rp_keys : Z; rp_valueSize : Z;
}.

(** [math.Max] *)
Definition fmax (x y : float64) : float64 :=
  match x, y with
  | S754_infinity false, _ | _, S754_infinity false => S754_infinity false
  | S754_nan, _ | _, S754_nan => S754_nan
  | S754_zero s, S754_zero _ => if s then y else x
  | _, _ => if SFltb y x then x else y
  end.

Definition emdash : runes := [8212].
Definition percent : runes := str "%".

(** [d.Round(time.Microsecond).String()] *)
Definition micros (d : Z) : runes := Duration_String (Round d 1000).

Section report.
(** The conversion to int64 of a float outside its range. *)
Context (convert_overflow : float64 → Z).
Abbreviation pct := (pct convert_overflow).

(** The rows of the latencies; [None] is an index out of range. *)
Definition latency_rows (lats : list Z) : option (list (runes * runes)) :=
  p50 ← pct lats (float_of_int 50);
  p95 ← pct lats (float_of_int 95);
  p99 ← pct lats (float_of_int 99);
  p100 ← pct lats (float_of_int 100);
  Some [(str "lat_mean", micros (avg lats)); (str "lat_p50", micros p50); (str "lat_p95", micros p95);
        (str "lat_p99", micros p99); (str "lat_max", micros p100)].

(** The rows of the samples, run by run. *)
Definition sample_rows (samples : list float64) : list (runes * runes) :=
  imap (fun i t =>
    (str "  run_" ++ fmt_d (Z.of_nat i + 1) ++ str "_tps",
     fmt_f 0 t ++ if decide (i = 0%nat)
                  then str " (runtime warmup " ++ emdash ++ str " excluded from mean)" else []))
    samples.

(** (s *runStats) print: the rows above the latencies. *)
Definition metric_rows (c : reportConfig) (s : runStats) : list (runes * runes) :=
  let meanTPS := meanTPS s in
  let stddev := stddevTPS s in
  let cv := cvPct s in
  let runLabel :=
    if 1 <? runs s
    then fmt_d (runs s) ++ str " (mean " ++ [177] ++ str " " ++ fmt_f 0 stddev ++ str ", CV "
         ++ fmt_f 1 cv ++ percent ++ str ")"
    else fmt_d (runs s) in
  let rate := fdiv (fmul (float_of_int 100) (float_of_int (totalConflicts s)))
                   (fmax (float_of_int 1) (float_of_int (u64 (totalOps s + totalConflicts s)))) in
  [(str "Metric", str "Value"); (str "engine", rp_engine c); (str "mode", rp_mode c); (str "sync", rp_sync c);
   (str "workload", rp_workload c); (str "concurrency", fmt_d (rp_concurrency c)); (str "keys", fmt_d (rp_keys c));
   (str "value_size", fmt_d (rp_valueSize c) ++ str " bytes"); (str "runs", runLabel);
   (str "total_ops", fmt_d (totalOps s)); (str "total_errors", fmt_d (totalErrors s));
   (str "conflicts", fmt_d (totalConflicts s) ++ str " (" ++ fmt_f 2 rate ++ percent ++ str ")");
   (str "tps_mean", fmt_f 0 meanTPS)]
  ++ (if 1 <? runs s
      then [(str "tps_stddev", fmt_f 0 stddev); (str "tps_cv", fmt_f 1 cv ++ percent)] ++ sample_rows (tpsSamples s)
      else []).

(** The rows of its box. *)
Definition print_rows (c : reportConfig) (s : runStats) : option (list (runes * runes)) :=
  let lats := sortedLatencies s in
  if decide (length lats = 0%nat) then Some (metric_rows c s)
  else latency ← latency_rows lats; Some (metric_rows c s ++ latency).

(** (s *runStats) print *)
Definition print (c : reportConfig) (s : runStats) : option (list runes) := printBox <$> print_rows c s.
End report.

(** (s *runStats) printGoal *)
Definition printGoal (s : runStats) : list runes :=
  let mean := meanTPS s in
  let gap := fdiv (float_of_int 1536000) (fmax (float_of_int 1) mean) in
  let suffix :=
    if (1 <? runs s) && SFltb (float_of_int 5) (cvPct s)
    then str " " ++ [9888] ++ str " CV=" ++ fmt_f 1 (cvPct s) ++ percent ++ str " " ++ emdash
         ++ str " results noisy, add more runs"
    else [] in
  printBox
    [(str "Goal", str "Value"); (str "Target (Teller)", str "1,536,000 RunInTx/s");
     (str "Mean TPS", fmt_f 0 mean ++ str " RunInTx/s" ++ suffix);
     (str "Gap", fmt_f 1 gap ++ str "x slower than target")].

(** *** The stage summary *)

Definition columns := (runes * runes * runes * runes * runes)%type.

Definition branch : runes := str "  " ++ [9500; 9472; 32].
Definition last_branch : runes := str "  " ++ [9492; 9472; 32].
Definition endash : runes := [8211].

Definition stages : list (runes * stage) :=
  [(str "Snapshot (engine)", GetSnapshot); (str "Speculate (fn)", Speculate); (str "Propose (total)", Propose);
   (str "Engine Apply", EngineApply); (branch ++ str "Map Clone (cow)", Clone); (str "Snapshot Create", SnapshotCreate)].

Definition summary_row (name : runes) (t : StageTimer) (unit : Z) : columns :=
  (name, fmt_d (Count t), Duration_String (Round (Mean t) unit), endash, endash).

Definition summary_rows (t : Telemetry) : list columns :=
  omap (fun st => if Count (t st.2) =? 0 then None else Some (summary_row st.1 (t st.2) 1000)) stages
  ++ (if 0 <? Count (t DirectRoundTrip)
      then [summary_row (str "Direct RT (total)") (t DirectRoundTrip) 1000;
            summary_row (branch ++ str "Submit") (t DirectSubmit) 1;
            summary_row (last_branch ++ str "Accumulate") (t DirectAccumulate) 1000]
      else []).

Definition hdr : columns := (str "Stage", str "Count", str "Mean", str "p50", str "p99").

(** A width per column. *)
Record widths := { w_0 : nat; w_1 : nat; w_2 : nat; w_3 : nat; w_4 : nat }.

Definition widen (w : widths) (r : columns) : widths :=
  let '(a, b, c, d, e) := r in
  {| w_0 := Nat.max (w_0 w) (go_len a); w_1 := Nat.max (w_1 w) (go_len b); w_2 := Nat.max (w_2 w) (go_len c);
     w_3 := Nat.max (w_3 w) (go_len d); w_4 := Nat.max (w_4 w) (go_len e) |}.

Definition summary_widths (rows : list columns) : widths :=
  foldl widen {| w_0 := 5; w_1 := 5; w_2 := 4; w_3 := 3; w_4 := 3 |} (hdr :: rows).

(** [fmt.Printf("│  %-*s  │ ...")] *)
Definition summary_line (w : widths) (r : columns) : runes :=
  let '(a, b, c, d, e) := r in
  let sep := str "  " ++ vline ++ str "  " in
  vline ++ str "  " ++ pad_right (w_0 w) a ++ sep ++ pad_right (w_1 w) b ++ sep ++ pad_right (w_2 w) c ++ sep
  ++ pad_right (w_3 w) d ++ sep ++ pad_right (w_4 w) e ++ str "  " ++ vline.

Definition summary_rule (w : widths) (l m r : Z) : runes :=
  [l] ++ repeat hline (w_0 w + 4) ++ [m] ++ repeat hline (w_1 w + 4) ++ [m] ++ repeat hline (w_2 w + 4)
  ++ [m] ++ repeat hline (w_3 w + 4) ++ [m] ++ repeat hline (w_4 w + 4) ++ [r].

Definition width_sum (w : widths) : nat := (w_0 w + w_1 w + w_2 w + w_3 w + w_4 w)%nat.

(** The table of stages: its title, and the lines below. *)
Definition summary_title (w : widths) : runes :=
  let total := (width_sum w + 4 * 3 + 2)%nat in
  [9484; 9472] ++ str " Pipeline Stage Summary " ++ repeat hline (total - 25) ++ [9488].

Definition summary_table (t : Telemetry) : list runes :=
  let rows := summary_rows t in
  let w := summary_widths rows in
  [summary_line w hdr; summary_rule w 9500 9532 9508] ++ map (summary_line w) rows
  ++ [summary_rule w 9492 9524 9496].

(** [│  <label>: %-43s│] *)
Definition analysis_line (label value : runes) : runes :=
  vline ++ str "  " ++ label ++ str ": " ++ pad_right 43 value ++ vline.

(** The lines between the borders of the analysis; [None] is a division by zero. *)
Definition analysis_lines (concurrency : Z) (t : Telemetry) (s : runStats) : option (list runes) :=
  let submits := Count (t DirectSubmit) in
  let applies := Count (t EngineApply) in
  let meanRT := Mean (t DirectRoundTrip) in
  let batch :=
    if (0 <? submits) && (0 <? applies)
    then [analysis_line (str "Avg Batch Size   ")
            (fmt_f 1 (fdiv (float_of_int submits) (float_of_int applies)) ++ str " ops/batch (cap: " ++ fmt_d 2048 ++ str ")")]
    else [] in
  let little :=
    if (0 <? Count (t DirectRoundTrip)) && SFltb fzero (Seconds meanRT)
    then [analysis_line (str "Little's Law     ")
            (fmt_f 0 (fdiv (float_of_int concurrency) (Seconds meanRT)) ++ str " TPS (c=" ++ fmt_d concurrency
             ++ str ", lat=" ++ micros meanRT ++ str ")")]
    else [] in
  let clone :=
    if (0 <? Count (t Clone)) && (0 <? applies)
    then [analysis_line (str "Map Clone Cost   ")
            (fmt_f 1 (fmul (fdiv (float_of_int (Mean (t Clone))) (float_of_int (Mean (t EngineApply)))) (float_of_int 100))
             ++ str "% of engine apply time")]
    else [] in
  '(pauses, gcs, duration) ← gc_per_run s;
  Some (batch ++ little ++ clone ++
        [analysis_line (str "GC (per run avg) ")
           (fmt_d gcs ++ str " GCs, " ++ Duration_String (Round pauses 1000000) ++ str " paused ("
            ++ fmt_f 2 (fmul (fdiv (float_of_int pauses) (float_of_int duration)) (float_of_int 100)) ++ str "%)")]).

Definition analysis_top : runes := [9484; 9472] ++ str " Bottleneck Analysis " ++ repeat hline 41 ++ [9488].
Definition analysis_bottom : runes := [9492] ++ repeat hline 63 ++ [9496].

(** printTelemetrySummary *)
Definition printTelemetrySummary (concurrency : Z) (t : option Telemetry) (s : runStats) : option (list runes) :=
  match t with
  | None => Some []
  | Some t =>
      analysis ← analysis_lines concurrency t s;
      Some ([[]; summary_title (summary_widths (summary_rows t))] ++ summary_table t
            ++ [[]; analysis_top] ++ analysis ++ [analysis_bottom])
  end.

(** printMetrics; the counters of [shared.Metrics]. *)
Definition printMetrics (m : option (Z * Z)) : list runes :=
  match m with
  | None => []
  | Some (total, exhausted) =>
      [] :: printBox [(str "Metric", str "Value"); (str "Conflict Total", fmt_d total);
                      (str "Conflict Exhausted", fmt_d exhausted)]
  end.

(** ** Latencies *)

(** The text is a duration within half a microsecond of [d]. *)
Definition shows (text : runes) (d : Z) : Prop := ∃ d', read_duration text = Some d' ∧ Z.abs (d' - d) <= 500.

Lemma micros_shows d : - 2 ^ 62 <= d <= 2 ^ 62 → shows (micros d) d.
Proof.
  intros Hd. exists (Round d 1000). split; [apply Duration_String_exact|]. by apply Round_close.
Qed.

Lemma sumZ_perm l l' : l ≡ₚ l' → sumZ l = sumZ l'.
Proof. induction 1; simpl; lia. Qed.

Lemma mean_bound l : l ≠ [] → Forall (fun v => 0 <= v <= 2 ^ 62) l → 0 <= sumZ l / Z.of_nat (length l) <= 2 ^ 62.
Proof.
  intros Hne Hb. pose proof (sumZ_bounds 0 (2 ^ 62) l Hb). assert (length l ≠ 0)%nat by (by intros ?%nil_length_inv).
  split; [apply Z.div_pos; lia|]. apply Z.div_le_upper_bound; lia.
Qed.

(** The mean of the sorted samples is the mean, rounded down, while their sum
    does not overflow. *)
Lemma avg_exact l : l ≠ [] → Forall (fun v => 0 <= v <= 2 ^ 62) l → sumZ l < 2 ^ 63 →
  avg (sort_samples l) = sumZ l / Z.of_nat (length l).
Proof.
  intros Hne Hb Hs. destruct (sort_samples_spec l) as [_ Hperm]. pose proof (mean_bound l Hne Hb).
  pose proof (sumZ_bounds 0 (2 ^ 62) l Hb).
  unfold avg. rewrite (Permutation_length Hperm), decide_False by (by intros ?%nil_length_inv).
  pose proof (sumZ_wraps i64 (sort_samples l) 0 i64_add_l) as Hsum. change (i64 0) with 0 in Hsum.
  rewrite Hsum, Z.add_0_l, (sumZ_perm _ _ Hperm), (i64_small (sumZ l)) by (unfold is_i64; lia).
  rewrite Z.quot_div_nonneg, i64_small; [done|unfold is_i64; lia..|].
  assert (length l ≠ 0)%nat by (by intros ?%nil_length_inv). lia.
Qed.

Section latencies.
Context (convert_overflow : float64 → Z).

(** The result box tells the truth about latency: with at least one sample the
    box is printed, its last five rows are the mean, the median, the 95th and
    99th percentile and the maximum; what they show is a duration within half a
    microsecond of the mean, of the middle sample, of measured samples and of the
    largest sample. *)
Theorem report_latencies (c : reportConfig) (s : runStats) :
  latencies s ≠ [] → Z.of_nat (length (latencies s)) < 2 ^ 53 →
  Forall (fun v => 0 <= v <= 2 ^ 62) (latencies s) → sumZ (latencies s) < 2 ^ 63 →
  ∃ rows tmean t50 t95 t99 tmax v95 v99 vmax,
    print_rows convert_overflow c s
      = Some (rows ++ [(str "lat_mean", tmean); (str "lat_p50", t50); (str "lat_p95", t95);
                       (str "lat_p99", t99); (str "lat_max", tmax)])
    ∧ shows tmean (sumZ (latencies s) / Z.of_nat (length (latencies s)))
    ∧ (∃ v50, sort_samples (latencies s) !! ((length (latencies s) - 1) / 2)%nat = Some v50 ∧ shows t50 v50)
    ∧ v95 ∈ latencies s ∧ shows t95 v95 ∧ v99 ∈ latencies s ∧ shows t99 v99
    ∧ vmax ∈ latencies s ∧ Forall (fun w => w <= vmax) (latencies s) ∧ shows tmax vmax.
Proof.
  set (l := latencies s). intros Hne Hlen Hb Hsum.
  pose proof (percentiles_exact convert_overflow l) as Hp.
  destruct (Hp (float_of_int 95) Hne Hlen) as ((v95 & E95 & H95) & (vm & Em & Hm & Hmax) & Emed).
  destruct (Hp (float_of_int 99) Hne Hlen) as ((v99 & E99 & H99) & _ & _).
  destruct (Hp (float_of_int 50) Hne Hlen) as ((v50 & E50 & H50) & _ & _).
  assert (∀ v, v ∈ l → shows (micros v) v) as Hin.
  { intros v Hv. apply micros_shows. rewrite Forall_forall in Hb. specialize (Hb v Hv). simpl in Hb. lia. }
  destruct (sort_samples_spec l) as [_ Hperm].
  pose proof (avg_exact l Hne Hb Hsum) as Havg. pose proof (mean_bound l Hne Hb) as Hmean.
  unfold print_rows. change (sortedLatencies s) with (sort_samples l).
  rewrite decide_False by (rewrite (Permutation_length Hperm); by intros ?%nil_length_inv).
  unfold latency_rows. rewrite E50, E95, E99, Em. cbn [mbind option_bind].
  exists (metric_rows c s). do 5 eexists. exists v95, v99, vm. split; [reflexivity|].
  split_and!; [|by exists v50; rewrite <- Emed; auto|exact H95|by apply Hin|exact H99|by apply Hin|exact Hm|exact Hmax|by apply Hin].
  rewrite Havg. apply micros_shows. lia.
Qed.
End latencies.

(** A run of two windows: what its box and its goal say. *)
Definition sample_stats : runStats :=
  {| runs := 1; tpsSamples := [float_of_int 1500000]; latencies := [2499; 1200000; 800]; totalOps := 3; totalErrors := 0;
     totalConflicts := 1; totalDuration := second; totalGCPauses := 0; totalGCCount := 0 |}.

Definition sample_config : reportConfig :=
  {| rp_engine := str "memory"; rp_mode := str "embedded"; rp_sync := str "batch"; rp_workload := str "write";
     rp_concurrency := 8; rp_keys := 100; rp_valueSize := 64 |}.

Lemma report_latencies_witness : ∃ rows,
  print_rows (fun _ => 0) sample_config sample_stats = Some rows
  ∧ drop 11 rows = [(str "conflicts", str "1 (25.00%)"); (str "tps_mean", str "1500000");
                    (str "lat_mean", 52 :: 48 :: 49 :: 181 :: str "s"); (str "lat_p50", 50 :: 181 :: str "s");
                    (str "lat_p95", str "1.2ms"); (str "lat_p99", str "1.2ms"); (str "lat_max", str "1.2ms")].
Proof.
  destruct (report_latencies (fun _ => 0) sample_config sample_stats)
    as (rows & tmean & t50 & t95 & t99 & tmax & v95 & v99 & vmax & E & _);
    [done|done|repeat constructor; done|done|].
  eexists. split; [exact E|]. apply (inj Some). match goal with |- Some (drop 11 ?l) = _ => change (Some (drop 11 l)) with (drop 11 <$> Some l) end.
  rewrite <- E. vm_compute. reflexivity.
Defined.

(** ** Layout *)

Definition fits (w : widths) (r : columns) : Prop :=
  let '(a, b, c, d, e) := r in
  (length a ≤ w_0 w ∧ length b ≤ w_1 w ∧ length c ≤ w_2 w ∧ length d ≤ w_3 w ∧ length e ≤ w_4 w)%nat.

Lemma widen_fits w r : fits (widen w r) r.
Proof.
  destruct r as [[[[a b] c] d] e]. pose proof (go_len_ge a). pose proof (go_len_ge b). pose proof (go_len_ge c).
  pose proof (go_len_ge d). pose proof (go_len_ge e). simpl. lia.
Qed.

Lemma widen_keeps w r r' : fits w r → fits (widen w r') r.
Proof. destruct r as [[[[a b] c] d] e], r' as [[[[a' b'] c'] d'] e']. simpl. lia. Qed.

Lemma widen_all rows w : Forall (fits (foldl widen w rows)) rows ∧ ∀ r, fits w r → fits (foldl widen w rows) r.
Proof.
  revert w. induction rows as [|r rows IH]; intros w; simpl; [done|]. destruct (IH (widen w r)) as [Ha Hk].
  split; [constructor; [apply Hk, widen_fits|done]|]. intros r' Hr'. by apply Hk, widen_keeps.
Qed.

Lemma summary_line_width w r : fits w r → length (summary_line w r) = (width_sum w + 26)%nat.
Proof.
  destruct r as [[[[a b] c] d] e]. intros (? & ? & ? & ? & ?). unfold summary_line, width_sum.
  rewrite !length_app, !length_pad by done. simpl. lia.
Qed.

Lemma summary_rule_width w l m r : length (summary_rule w l m r) = (width_sum w + 26)%nat.
Proof. unfold summary_rule, width_sum. rewrite !length_app, !length_repeat. simpl. lia. Qed.

(** The table of stages is aligned whatever was measured: the heading, the rules
    and the rows all have one width. Its title is ten characters shorter. The
    lines of the analysis are one character wider than its borders, unless their
    values are longer than the 43 characters they are padded to. *)
Lemma summary_layout t label value :
  let w := summary_widths (summary_rows t) in
  Forall (fun l => length l = (width_sum w + 26)%nat) (summary_table t)
  ∧ length (summary_title w) = (width_sum w + 16)%nat
  ∧ (length label = 17%nat → (length value ≤ 43)%nat →
     length (analysis_line label value) = S (length analysis_top) ∧ length analysis_top = length analysis_bottom).
Proof.
  intros w. destruct (widen_all (hdr :: summary_rows t) {| w_0 := 5; w_1 := 5; w_2 := 4; w_3 := 3; w_4 := 3 |}) as [Hall Hk].
  fold (summary_widths (summary_rows t)) in Hall, Hk. fold w in Hall, Hk. apply Forall_cons in Hall as [Hh Hall].
  assert (25 ≤ width_sum w + 14)%nat as Hw.
  { destruct (Hk (replicate 5 0, replicate 5 0, replicate 4 0, replicate 3 0, replicate 3 0)) as (H0' & H1' & H2' & H3' & H4');
      [simpl; lia|]. rewrite !length_replicate in *. unfold width_sum. lia. }
  split; [|split].
  - unfold summary_table. fold w. constructor; [by apply summary_line_width|].
    constructor; [apply summary_rule_width|]. apply Forall_app. split.
    + apply Forall_map. eapply Forall_impl; [exact Hall|]. intros r Hr. by apply summary_line_width.
    + by repeat constructor; apply summary_rule_width.
  - unfold summary_title. rewrite !length_app, !length_repeat. simpl. lia.
  - intros Hl Hv. split; [|done]. unfold analysis_line. rewrite !length_app, length_pad, Hl by done. done.
Qed.

(** ** The full breakdown (Print of src/shared/telemetry.go) *)

(** [%10s]: padded on the left. *)
Definition pad_left (w : nat) (s : runes) : runes := repeat [32] (w - length s) ++ s.

(** [%-22s %10s %10s %10s %10s] *)
Definition breakdown_line (name count mean min max : runes) : runes :=
  pad_right 22 name ++ [32] ++ pad_left 10 count ++ [32] ++ pad_left 10 mean ++ [32] ++ pad_left 10 min
  ++ [32] ++ pad_left 10 max.

(** (t *Telemetry) Print: its lines. *)
Definition breakdown (t : Telemetry) : list runes :=
  let dashes n := repeat (str "-") n in
  [breakdown_line (str "stage") (str "count") (str "mean") (str "min") (str "max");
   breakdown_line (dashes 22%nat) (dashes 10%nat) (dashes 10%nat) (dashes 10%nat) (dashes 10%nat)]
  ++ map (fun p => breakdown_line (str (p_name p)) (fmt_d (p_count p)) (Duration_String (p_mean p))
                     (Duration_String (p_min p)) (Duration_String (p_max p)))
       (Telemetry_Print t).
