(* ===== verification/Lab.v ===== *)
(** * The load generator (src/workspace/runner.go)

    Key names and their distribution over the workers, seeding of the engine,
    the workloads as transactions, the workers of a timed window interleaved
    with each other, and the settings of [main]. Workers are goroutines: a
    worker's call of RunInTx is split at the points where other workers act,
    before each attempt, and between an attempt's snapshot and its proposal. *)

From S2P Require Import Prelude Types Wire EngineSpec Iter Fsm Occ.
From S2P Require Import Direct Tx Node NodeSpec Batcher LabStats.

(** ** Keys *)

(** The decimal digits of a non-negative int, before [acc]. *)
Fixpoint decimal (fuel : nat) (n : Z) (acc : bytes) : bytes :=
  match fuel with
  | O => acc
  | S fuel =>
      let acc := byte.of_Z (48 + n mod 10) :: acc in
      if n / 10 =? 0 then acc else decimal fuel (n / 10) acc
  end.

(** [fmt.Sprintf("k:%08d", i)]; an int has at most 19 digits. *)
Definition key_name (i : Z) : bytes :=
  let d := decimal 19 i [] in bs "k:" ++ replicate (8 - length d) x30 ++ d.

(** [allKeys]; [None] is the panic of [make] with a negative length. *)
Definition gen_keys (keys : Z) : option (list bytes) :=
  if keys <? 0 then None else Some (map key_name (seqZ 0 keys)).

(** [allKeys[lo:hi]] *)
Definition subslice {A} (l : list A) (lo hi : Z) : option (list A) :=
  if (0 <=? lo) && (lo <=? hi) && (hi <=? Z.of_nat (length l))
  then Some (take (Z.to_nat (hi - lo)) (drop (Z.to_nat lo) l)) else None.

(** The bounds of worker [i]'s keys in striped mode. *)
Definition stripe (keys concurrency i : Z) : Z * Z :=
  let stride := Z.quot keys concurrency in
  let stride := if stride <? 1 then 1 else stride in
  let lo := i * stride in
  let hi := lo + stride in
  let hi := if (keys <? hi) || (i =? concurrency - 1) then keys else hi in
  if keys <=? lo then (keys - 1, keys) else (lo, hi).

(** [workerKeys] *)
Definition workerKeys (striped : bool) (allKeys : list bytes) (concurrency : Z) : option (list (list bytes)) :=
  if concurrency <? 0 then None
  else if striped && (0 <? concurrency) then
    mapM (fun i => let '(lo, hi) := stripe (Z.of_nat (length allKeys)) concurrency i in subslice allKeys lo hi)
      (seqZ 0 concurrency)
  else Some (replicate (Z.to_nat concurrency) allKeys).

(** ** Seeding *)

Definition seedBatchSize : nat := 1000.

Section seed.
Context {Eng Snap Bat : Type} `{StorageEngine Eng Snap Bat}.

(** The inner loop: each value is a copy of the buffer, whose first eight bytes
    are the next number; [PutUint64] panics on a short buffer. *)
Fixpoint seed_batch (ks : list bytes) (rng : Z) (valBuf : bytes) (bat : Bat) : option (Z * bytes * Bat) :=
  match ks with
  | [] => Some (rng, valBuf, bat)
  | k :: ks =>
      let rng := next rng in
      match put valBuf 0 (le64 rng) with
      | None => None
      | Some valBuf => seed_batch ks rng valBuf (bat_Set bat k valBuf)
      end
  end.

(** The outer loop, one batch at a time; errors of [ApplyBatch] are ignored. *)
Fixpoint seed_loop (fuel : nat) (ks : list bytes) (rng : Z) (valBuf : bytes) (e : Eng) : option Eng :=
  match fuel, ks with
  | _, [] => Some e
  | O, _ => None
  | S fuel, _ =>
      match seed_batch (take seedBatchSize ks) rng valBuf (eng_NewBatch e) with
      | None => None
      | Some (rng, valBuf, bat) =>
          let '(e, _) := eng_ApplyBatch e bat false in
          seed_loop fuel (drop seedBatchSize ks) rng valBuf e
      end
  end.

(** The direct engine path of [runBenchmark]. *)
Definition seed (allKeys : list bytes) (valueSize : Z) (e : Eng) : option Eng :=
  if valueSize <? 0 then None
  else seed_loop (length allKeys) allKeys 42 (replicate (Z.to_nat valueSize) x00) e.
End seed.

(** ** Workloads *)

(** A workload draws numbers, may fill the value buffer, and calls RunInTx with
    a callback: the generator, the buffer and the callback, or a panic. *)
Definition workFn := list bytes → bytes → Z → option (Z * bytes * txProg).

(** [keys[rng.intn(len(keys))]] *)
Definition pick (keys : list bytes) (rng : Z) : option (Z * bytes) :=
  match intn rng (Z.of_nat (length keys)) with
  | None => None
  | Some (rng, i) => (fun k => (rng, k)) <$> keys !! Z.to_nat i
  end.

Definition set_prog (k v : bytes) : txProg := PSet k v (fun err => Return err).

Definition get_prog (k : bytes) : txProg :=
  PGet k (fun r => Return (match r with
                           | inl _ | inr ErrKeyNotFound_tx => None
                           | inr err => Some err
                           end)).

Definition add_prog (k : bytes) (delta : Z) : txProg :=
  PAtomicAdd k delta (fun r => Return (match r with inl _ => None | inr err => Some err end)).

(** workloadWrite *)
Definition workloadWrite : workFn := fun keys valBuf rng =>
  match pick keys rng with
  | None => None
  | Some (rng, k) =>
      let rng := next rng in
      match put valBuf 0 (le64 rng) with
      | None => None
      | Some valBuf => Some (rng, valBuf, set_prog k valBuf)
      end
  end.

(** workloadRead *)
Definition workloadRead : workFn := fun keys valBuf rng =>
  match pick keys rng with
  | None => None
  | Some (rng, k) => Some (rng, valBuf, get_prog k)
  end.

(** workloadAtomic *)
Definition workloadAtomic : workFn := fun keys valBuf rng =>
  match pick keys rng with
  | None => None
  | Some (rng, k) =>
      match intn rng 100 with
      | None => None
      | Some (rng, d) => Some (rng, valBuf, add_prog k (i64 (d + 1)))
      end
  end.

(** workloadMixed *)
Definition workloadMixed : workFn := fun keys valBuf rng =>
  match intn rng 100 with
  | None => None
  | Some (rng, r) =>
      if r <? 70 then workloadRead keys valBuf rng
      else if r <? 90 then workloadAtomic keys valBuf rng
      else workloadWrite keys valBuf rng
  end.

(** The map of [runBenchmark]: an unknown name gives a nil function, whose call
    panics. *)
Definition lookup_workload (name : string) : option workFn :=
  if decide (name = "write"%string) then Some workloadWrite
  else if decide (name = "read"%string) then Some workloadRead
  else if decide (name = "atomic"%string) then Some workloadAtomic
  else if decide (name = "mixed"%string) then Some workloadMixed
  else None.

Definition call_workload (name : string) : workFn := fun keys valBuf rng =>
  match lookup_workload name with None => None | Some fn => fn keys valBuf rng end.

(** ** A timed window *)

Section window.
Context {Eng Snap Bat : Type} `{StorageEngine Eng Snap Bat}.
Context {Clock : Type} (clock_Observe : Clock → Z → Z → Clock) (clock_Tick : Clock → Clock * (Z * Z)).
Context (rs_order : readset → list ReadEntry).
Context (raft_Apply : dpxFSM Eng Clock → bytes → dpxFSM Eng Clock * (ApplyResult + txErr)).
Context (batcher_Wait : nat → option txErr).

(** Where a worker is: at the loop condition, inside the loop, before an
    attempt of RunInTx (with the attempts left), waiting for its proposal, or
    past the loop. *)
Inductive phase :=
  | AtLoop
  | InLoop
  | Trying (fn : txProg) (t0 : Z) (attempts : nat)
  | Submitted (fn : txProg) (t0 : Z) (attempts : nat) (p : Proposal)
  | Stopped.

Record worker := {
  w_keys : list bytes; w_buf : bytes; w_rng : Z; w_samples : localSamples; w_phase : phase;
}.

Record window := {
  win_node : Node Eng Clock;
  win_ops : Z; win_errs : Z; win_conflicts : Z;
  win_workers : list worker;
}.

Definition set_phase (w : worker) (ph : phase) : worker :=
  {| w_keys := w_keys w; w_buf := w_buf w; w_rng := w_rng w; w_samples := w_samples w; w_phase := ph |}.

Definition set_worker (win : window) (n : Node Eng Clock) (i : nat) (w : worker) : window :=
  {| win_node := n; win_ops := win_ops win; win_errs := win_errs win; win_conflicts := win_conflicts win;
     win_workers := <[i := w]> (win_workers win) |}.

(** isConflictExhausted *)
Definition isConflictExhausted (err : option txErr) : bool :=
  match err with Some ErrConflictExhausted => true | _ => false end.

(** The end of a call: the counters, and the latency of a success. *)
Definition count_call (win : window) (n : Node Eng Clock) (i : nat) (w : worker) (lat : Z) (err : option txErr) :
    window :=
  let win := set_worker win n i
    (set_phase (match err with
                | None => {| w_keys := w_keys w; w_buf := w_buf w; w_rng := w_rng w;
                             w_samples := record (w_samples w) lat; w_phase := w_phase w |}
                | Some _ => w
                end) AtLoop) in
  match err with
  | None => {| win_node := win_node win; win_ops := u64 (win_ops win + 1); win_errs := win_errs win;
               win_conflicts := win_conflicts win; win_workers := win_workers win |}
  | Some _ =>
      if isConflictExhausted err
      then {| win_node := win_node win; win_ops := win_ops win; win_errs := win_errs win;
              win_conflicts := u64 (win_conflicts win + 1); win_workers := win_workers win |}
      else {| win_node := win_node win; win_ops := win_ops win; win_errs := u64 (win_errs win + 1);
              win_conflicts := win_conflicts win; win_workers := win_workers win |}
  end.

(** What RunInTx does with the result of an attempt: return it, retry after a
    conflict, or give up after the last one. *)
Definition end_attempt (win : window) (n : Node Eng Clock) (i : nat) (w : worker) (fn : txProg) (t0 : Z)
    (attempts : nat) (now : Z) (err : option txErr) : window :=
  let lat := i64 (now - t0) in
  match err with
  | None =>
      count_call win (add_metrics n (fun m => {| TransactionsTotal := u64 (TransactionsTotal m + 1);
                                                 ConflictExhausted := ConflictExhausted m;
                                                 BackupTotal := BackupTotal m |})) i w lat None
  | Some e =>
      if is_conflict e then
        if decide (attempts <= 1)%nat then
          count_call win (add_metrics n (fun m => {| TransactionsTotal := TransactionsTotal m;
                                                     ConflictExhausted := u64 (ConflictExhausted m + 1);
                                                     BackupTotal := BackupTotal m |})) i w lat
            (Some ErrConflictExhausted)
        else set_worker win (on_retry n) i (set_phase w (Trying fn t0 (attempts - 1)))
      else count_call win n i w lat (Some e)
  end.

(** One step of worker [i] at time [now]; [None] is a panic, which ends the
    program. *)
Definition worker_step (work : workFn) (maxAttempts : nat) (end_ now : Z) (i : nat) (win : window) :
    option window :=
  match win_workers win !! i with
  | None => Some win
  | Some w =>
      let n := win_node win in
      match w_phase w with
      | AtLoop => Some (set_worker win n i (set_phase w (if now <? end_ then InLoop else Stopped)))
      | InLoop =>
          match work (w_keys w) (w_buf w) (w_rng w) with
          | None => None
          | Some (rng, buf, fn) =>
              let w := {| w_keys := w_keys w; w_buf := buf; w_rng := rng; w_samples := w_samples w;
                          w_phase := Trying fn now maxAttempts |} in
              if n_closed n then Some (count_call win n i w 0 (Some ErrStoreClosed))
              else Some (set_worker win n i w)
          end
      | Trying fn t0 attempts =>
          match speculate clock_Tick rs_order n fn with
          | (n, Finished err) => Some (end_attempt win n i w fn t0 attempts now err)
          | (n, Submit p) => Some (set_worker win n i (set_phase w (Submitted fn t0 attempts p)))
          end
      | Submitted fn t0 attempts p =>
          let '(n, r) := propose clock_Observe raft_Apply batcher_Wait n p in
          Some (end_attempt win n i w fn t0 attempts now (outcome r))
      | Stopped => Some win
      end
  end.

(** A schedule: which worker moves, and the time it reads. *)
Fixpoint run_window (work : workFn) (maxAttempts : nat) (end_ : Z) (sched : list (nat * Z)) (win : window) :
    option window :=
  match sched with
  | [] => Some win
  | (i, now) :: sched =>
      match worker_step work maxAttempts end_ now i win with
      | None => None
      | Some win => run_window work maxAttempts end_ sched win
      end
  end.

(** The start of timedRunWithWorkerKeys. *)
Definition start_window (n : Node Eng Clock) (workerKeys : list (list bytes)) (valueSize : nat) : window :=
  {| win_node := n; win_ops := 0; win_errs := 0; win_conflicts := 0;
     win_workers := imap (fun i ks => {| w_keys := ks; w_buf := replicate valueSize x00;
                                         w_rng := u64 (Z.of_nat i + 1 + 9999); w_samples := [];
                                         w_phase := AtLoop |}) workerKeys |}.

(** Its end: the counters and the merged latencies, with the elapsed time and
    what the runtime reports about its collector. *)
Definition window_result (win : window) (elapsed gcPauses gcCount : Z) : runResult :=
  {| r_duration := elapsed; r_ops := win_ops win; r_errors := win_errs win;
     r_conflicts := win_conflicts win; r_latencies := mergeAndSort (map w_samples (win_workers win));
     r_gcPauses := gcPauses; r_gcCount := gcCount |}.
End window.

Arguments window Eng Clock : clear implicits.

(** ** Settings *)

Inductive engineKind := EngMemory | EngMemorySharded | EngMvccSharded | EngPebble (dir : string).

Record flags := {
  fl_engine : string; fl_dir : string; fl_workload : string; fl_mode : string; fl_sync : string;
  fl_keyDist : string; fl_runs : Z;
}.

Record settings := {
  st_engine : engineKind; st_sync : SyncPolicy; st_workload : string; st_striped : bool; st_numRuns : Z;
  st_distributed : bool;
}.

Inductive usageErr := UnknownSync (s : string) | UnknownKeyDist (s : string) | UnknownEngine (s : string).

(** [switch *flagSync] *)
Definition choose_sync (s : string) : option SyncPolicy :=
  if decide (s = "full"%string) then Some SyncFull
  else if decide (s = "none"%string) then Some SyncNone
  else if decide (s = "batch"%string ∨ s = ""%string) then Some SyncBatch
  else None.

(** [switch cfg.engine] *)
Definition choose_engine (s dir : string) : option engineKind :=
  if decide (s = "memory"%string) then Some EngMemory
  else if decide (s = "memory-sharded"%string) then Some EngMemorySharded
  else if decide (s = "mvcc-sharded"%string) then Some EngMvccSharded
  else if decide (s = "pebble"%string) then Some (EngPebble dir)
  else None.

(** [main], from the flags to the call of [dpx.Open]: the settings, or the
    message before [os.Exit(1)]. *)
Definition configure (f : flags) : settings + usageErr :=
  match choose_sync (fl_sync f) with
  | None => inr (UnknownSync (fl_sync f))
  | Some sp =>
      let numRuns := if fl_runs f <? 1 then 1 else fl_runs f in
      if decide (fl_keyDist f ≠ "random"%string ∧ fl_keyDist f ≠ "striped"%string)
      then inr (UnknownKeyDist (fl_keyDist f))
      else match choose_engine (fl_engine f) (fl_dir f) with
           | None => inr (UnknownEngine (fl_engine f))
           | Some eng =>
               inl {| st_engine := eng; st_sync := sp; st_workload := fl_workload f;
                      st_striped := bool_decide (fl_keyDist f = "striped"%string); st_numRuns := numRuns;
                      st_distributed := bool_decide (fl_mode f = "distributed"%string) |}
           end
  end.
