(* ===== verification/LabMain.v ===== *)
(** * The load generator from start to exit (src/workspace/runner.go)

    [main] as a program over a trace of effects: deferred calls run when main
    returns or panics and are skipped by [os.Exit], which is what decides whether
    the profile, the files and the temporary directory are released. *)

From Corelib Require Import SpecFloat.
From S2P Require Import Prelude Types EngineSpec Fsm Batcher Telemetry Stages LabStats Fmt LabReport Lab.

(** ** Programs with deferred calls *)

Inductive diagnostic :=
  | CpuProfile | CpuStart | MkdirTempFailed | Usage (u : usageErr) | FreePort | OpenFailed
  | MemProfile | MemWrite.

Inductive event :=
  | Created (path : string) | FileClosed (path : string)
  | ProfileStarted | ProfileStopped
  | TempMade (dir : string) | TempRemoved (dir : string)
  | Listened (port : Z) | ListenerClosed (port : Z)
  | NodeOpened | NodeClosed
  | Out (lines : list runes) | Err (d : diagnostic).

Record mstate := { trace : list event; deferred : list event }.

(** How a program stops early: [os.Exit], a panic of the goroutine of [main], or
    one of another goroutine, which ends the process at once. *)
Inductive stop := Exited (code : Z) | MainPanic | OtherPanic.

Definition prog A := mstate → mstate * (A + stop).

#[export] Instance prog_ret : MRet prog := fun A x s => (s, inl x).
#[export] Instance prog_bind : MBind prog := fun A B f m s =>
  match m s with (s', inl x) => f x s' | (s', inr st) => (s', inr st) end.

Definition emit (e : event) : prog unit := fun s => ({| trace := trace s ++ [e]; deferred := deferred s |}, inl ()).
Definition defer (e : event) : prog unit := fun s => ({| trace := trace s; deferred := e :: deferred s |}, inl ()).
Definition halt {A} (st : stop) : prog A := fun s => (s, inr st).
Definition fail {A} (d : diagnostic) : prog A := emit (Err d) ;; halt (Exited 1).

(** A whole run: its effects and the exit code. *)
Definition run_main (m : prog unit) : list event * Z :=
  match m {| trace := []; deferred := [] |} with
  | (s, inl _) => (trace s ++ deferred s, 0)
  | (s, inr (Exited code)) => (trace s, code)
  | (s, inr MainPanic) => (trace s ++ deferred s, 2)
  | (s, inr OtherPanic) => (trace s, 2)
  end.

(** ** main *)

(** The flags [main] reads besides those of [Lab.flags]. *)
Record labFlags := {
  lf_flags : flags; lf_cpuProfile : string; lf_memProfile : string; lf_raftDir : string; lf_telemetry : string;
  lf_concurrency : Z; lf_keys : Z; lf_valueSize : Z; lf_duration : Z;
}.

(** [dpx.Config] as [main] fills it in; Metrics stays nil. *)
Record dpxConfig := {
  dc_engine : engineKind; dc_sync : SyncPolicy; dc_raftDir : string;
  dc_listenAddr : runes; dc_peers : list (string * runes);
}.

(** What the operating system answers. *)
Record world := {
  os_Create : string → bool; StartCPUProfile : bool; os_MkdirTemp : option string; WriteHeapProfile : bool;
  ResolveTCPAddr : bool; ListenTCP : option Z;
}.

(** A benchmark ends with its statistics and what the telemetry has recorded; a
    signal interrupts it; or it panics. *)
Inductive benchResult :=
  | BenchDone (s : runStats) (t : Telemetry) | BenchInterrupted | BenchPanic (in_worker : bool).

Section main.
(** The code points of a flag's text. *)
Context (utf8 : string → runes).
Context (convert_overflow : float64 → Z).
Context (w : world).
(** [dpx.Open] succeeds; a benchmark on the node opened. *)
Context (dpx_Open : dpxConfig → bool) (bench : dpxConfig → benchResult).

(** getFreePort *)
Definition getFreePort : prog (option Z) :=
  if ResolveTCPAddr w then
    match ListenTCP w with
    | None => mret None
    | Some port => emit (Listened port) ;; emit (ListenerClosed port) ;; mret (Some port)
    end
  else mret None.

(** The CPU profile. *)
Definition start_profile (f : labFlags) : prog unit :=
  if decide (lf_cpuProfile f = ""%string) then mret ()
  else if os_Create w (lf_cpuProfile f) then
    emit (Created (lf_cpuProfile f)) ;; defer (FileClosed (lf_cpuProfile f)) ;;
    if StartCPUProfile w then emit ProfileStarted ;; defer ProfileStopped
    else fail CpuStart
  else fail CpuProfile.

Definition choose_raftDir (f : labFlags) : prog string :=
  if decide (lf_raftDir f = ""%string) then
    match os_MkdirTemp w with
    | None => fail MkdirTempFailed
    | Some dir => emit (TempMade dir) ;; defer (TempRemoved dir) ;; mret dir
    end
  else mret (lf_raftDir f).

Definition banner : list runes :=
  let bar := repeat [9552] 39 in
  [[]; [9556] ++ bar ++ [9559]; [9553] ++ str "         DPX Lab " ++ emdash ++ str " KV Throughput       " ++ [9553];
   [9562] ++ bar ++ [9565]; []].

Definition report_config (f : labFlags) : reportConfig :=
  {| rp_engine := utf8 (fl_engine (lf_flags f)); rp_mode := utf8 (fl_mode (lf_flags f));
     rp_sync := utf8 (fl_sync (lf_flags f)); rp_workload := utf8 (fl_workload (lf_flags f));
     rp_concurrency := lf_concurrency f; rp_keys := lf_keys f; rp_valueSize := lf_valueSize f |}.

Definition config_box (f : labFlags) (numRuns : Z) : list runes :=
  let c := report_config f in
  printBox
    [(str "Parameter", str "Value"); (str "engine", rp_engine c); (str "mode", rp_mode c); (str "sync", rp_sync c);
     (str "workload", rp_workload c); (str "concurrency", fmt_d (rp_concurrency c)); (str "keys", fmt_d (rp_keys c));
     (str "value_size", fmt_d (rp_valueSize c) ++ str " bytes"); (str "duration", Duration_String (lf_duration f));
     (str "runs", fmt_d numRuns); (str "telemetry", utf8 (lf_telemetry f))] ++ [[]].

(** [dpxCfg], with a free port in distributed mode. *)
Definition dpx_config (f : labFlags) (eng : engineKind) (sp : SyncPolicy) (raftDir : string) : prog dpxConfig :=
  if decide (fl_mode (lf_flags f) = "distributed"%string) then
    port ← getFreePort;
    match port with
    | None => fail FreePort
    | Some port =>
        let listenAddr := str "127.0.0.1:" ++ fmt_d port in
        mret {| dc_engine := eng; dc_sync := sp; dc_raftDir := raftDir; dc_listenAddr := listenAddr;
               dc_peers := [("1"%string, listenAddr)] |}
    end
  else mret {| dc_engine := eng; dc_sync := sp; dc_raftDir := raftDir; dc_listenAddr := []; dc_peers := [] |}.

(** From [dpx.Open] to [node.Close]. *)
Definition run_node (c : dpxConfig) : prog (runStats * Telemetry) :=
  if dpx_Open c then
    emit NodeOpened ;;
    match bench c with
    | BenchDone s t => emit NodeClosed ;; mret (s, t)
    | BenchInterrupted => emit (Out [[]; str "interrupted"]) ;; emit NodeClosed ;; halt (Exited 1)
    | BenchPanic in_worker => halt (if in_worker then OtherPanic else MainPanic)
    end
  else fail OpenFailed.

(** The heap profile. *)
Definition write_profile (f : labFlags) : prog unit :=
  if decide (lf_memProfile f = ""%string) then mret ()
  else if os_Create w (lf_memProfile f) then
    emit (Created (lf_memProfile f)) ;; defer (FileClosed (lf_memProfile f)) ;;
    if WriteHeapProfile w then mret () else emit (Err MemWrite)
  else emit (Err MemProfile).

(** Lines, or the panic of what computes them. *)
Definition print_or_panic (lines : option (list runes)) : prog unit :=
  match lines with Some lines => emit (Out lines) | None => halt MainPanic end.

Definition report (f : labFlags) (s : runStats) (t : Telemetry) : prog unit :=
  emit (Out [[]]) ;; print_or_panic (print convert_overflow (report_config f) s) ;;
  (if decide (lf_telemetry f = "summary"%string) then
     print_or_panic (printTelemetrySummary (lf_concurrency f) (Some t) s) ;; emit (Out (printMetrics None))
   else if decide (lf_telemetry f = "full"%string) then
     emit (Out ([[]; [9484; 9472] ++ str " Full Pipeline Stage Breakdown " ++ repeat hline 27])) ;;
     emit (Out (breakdown t)) ;; emit (Out [[9492] ++ repeat hline 60]) ;; emit (Out (printMetrics None))
   else mret ()) ;;
  emit (Out [[]]) ;; emit (Out (printGoal s)) ;; emit (Out [[]]).

(** [main] from the switch over the sync policies on. *)
Definition main_body (f : labFlags) (raftDir : string) : prog unit :=
  match choose_sync (fl_sync (lf_flags f)) with
  | None => fail (Usage (UnknownSync (fl_sync (lf_flags f))))
  | Some sp =>
      let numRuns := if fl_runs (lf_flags f) <? 1 then 1 else fl_runs (lf_flags f) in
      let keyDist := fl_keyDist (lf_flags f) in
      if decide (keyDist ≠ "random"%string ∧ keyDist ≠ "striped"%string) then fail (Usage (UnknownKeyDist keyDist))
      else
        emit (Out banner) ;; emit (Out (config_box f numRuns)) ;;
        match choose_engine (fl_engine (lf_flags f)) (fl_dir (lf_flags f)) with
        | None => fail (Usage (UnknownEngine (fl_engine (lf_flags f))))
        | Some eng =>
            c ← dpx_config f eng sp raftDir;
            '(s, t) ← run_node c;
            write_profile f ;; report f s t
        end
  end.

(** main *)
Definition main_prog (f : labFlags) : prog unit :=
  start_profile f ;; raftDir ← choose_raftDir f; main_body f raftDir.

Definition main (f : labFlags) : list event * Z := run_main (main_prog f).
End main.

(** ** Clean-up *)

#[export] Instance usageErr_eq_dec : EqDecision usageErr.
Proof. solve_decision. Defined.
#[export] Instance diagnostic_eq_dec : EqDecision diagnostic.
Proof. solve_decision. Defined.
#[export] Instance event_eq_dec : EqDecision event.
Proof. solve_decision. Defined.

(** What an event releases. *)
Definition undoes (e : event) : option event :=
  match e with
  | FileClosed path => Some (Created path)
  | ProfileStopped => Some ProfileStarted
  | TempRemoved dir => Some (TempMade dir)
  | ListenerClosed port => Some (Listened port)
  | NodeClosed => Some NodeOpened
  | _ => None
  end.

Definition acquirable (e : event) : bool :=
  match e with Created _ | ProfileStarted | TempMade _ | Listened _ | NodeOpened => true | _ => false end.

(** Released by a deferred call of [main]. *)
Definition cleanup (e : event) : bool :=
  match e with FileClosed _ | ProfileStopped | TempRemoved _ => true | _ => false end.

(** How often [r] was acquired and not released. *)
Fixpoint held (r : event) (l : list event) : Z :=
  match l with
  | [] => 0
  | e :: l => (if decide (e = r) then 1 else 0) - (if decide (undoes e = Some r) then 1 else 0) + held r l
  end.

Lemma held_app r l l' : held r (l ++ l') = held r l + held r l'.
Proof. induction l as [|e l IH]; simpl; [done|]. rewrite IH. lia. Qed.

(** Everything acquired is released by a deferred call, none of which has run. *)
Record tidy (s : mstate) : Prop := {
  tidy_held : ∀ r, acquirable r = true → held r (trace s ++ deferred s) = 0;
  tidy_trace : Forall (fun e => cleanup e = false) (trace s);
}.

(** A program keeps that while it runs, and however it stops no clean-up has run. *)
Definition sound {A} (m : prog A) : Prop :=
  ∀ s, tidy s →
    match m s with
    | (s', inl _) => tidy s'
    | (s', inr st) => Forall (fun e => cleanup e = false) (trace s') ∧ st ≠ Exited 0
    end.

Lemma sound_ret {A} (x : A) : sound (mret x).
Proof. by intros s Hs. Qed.

Lemma sound_bind {A B} (m : prog A) (f : A → prog B) : sound m → (∀ x, sound (f x)) → sound (m ≫= f).
Proof.
  intros Hm Hf s Hs. specialize (Hm s Hs). unfold mbind, prog_bind. destruct (m s) as [s' [x|st]]; [|done].
  by apply Hf.
Qed.

Lemma sound_halt {A} st : st ≠ Exited 0 → sound (halt st : prog A).
Proof. intros Hst s Hs. split; [apply Hs|done]. Qed.

Lemma tidy_emit es s : (∀ r, acquirable r = true → held r es = 0) → Forall (fun e => cleanup e = false) es → tidy s →
  tidy {| trace := trace s ++ es; deferred := deferred s |}.
Proof.
  intros He Hc [Hh Ht]. constructor; simpl; [|by apply Forall_app].
  intros r Hr. specialize (Hh r Hr). specialize (He r Hr). rewrite !held_app in *. lia.
Qed.

(** An event that neither acquires nor releases anything. *)
Definition neutral (e : event) : bool := negb (acquirable e) && bool_decide (undoes e = None).

Lemma neutral_held e : neutral e = true → ∀ r, acquirable r = true → held r [e] = 0.
Proof.
  intros [Ha Hu]%andb_true_iff r Hr. apply bool_decide_eq_true in Hu. simpl. rewrite Hu.
  rewrite decide_False by (intros ->; by rewrite Hr in Ha). by rewrite decide_False.
Qed.

Lemma sound_emit e : neutral e = true → sound (emit e).
Proof.
  intros Hn s Hs. apply tidy_emit; [by apply neutral_held| |done]. constructor; [|constructor].
  destruct e; try done; by vm_compute in Hn.
Qed.

(** Acquire, and defer the release. *)
Lemma sound_acquire a b : acquirable a = true → undoes b = Some a → cleanup b = true → sound (emit a ;; defer b).
Proof.
  intros Ha Hb Hc s [Hh Ht]. unfold mbind, prog_bind. simpl. constructor; simpl.
  - intros r Hr. specialize (Hh r Hr). rewrite !held_app in *. simpl. rewrite Hb.
    assert (undoes a = None) as -> by (by destruct a). rewrite (decide_False (P := None = Some r)) by done.
    rewrite (decide_False (P := b = r)) by (intros ->; destruct r; by vm_compute in Hr, Hc).
    destruct (decide (a = r)) as [->|]; [rewrite decide_True by done; lia|]. rewrite decide_False by congruence. lia.
  - apply Forall_app. split; [done|]. constructor; [by destruct a|constructor].
Qed.

(** Acquire and release at once. *)
Lemma sound_pair {A} a b (k : prog A) : acquirable a = true → undoes b = Some a → cleanup b = false →
  sound k → sound (emit a ;; emit b ;; k).
Proof.
  intros Ha Hb Hc Hk s Hs. unfold mbind, prog_bind. simpl. rewrite <- app_assoc. apply Hk.
  apply tidy_emit; [|by repeat constructor; destruct a|done].
  intros r Hr. simpl. rewrite Hb. assert (undoes a = None) as -> by (by destruct a).
  rewrite (decide_False (P := None = Some r)) by done.
  rewrite (decide_False (P := b = r)) by (intros ->; destruct r; by vm_compute in Hr, Hb).
  destruct (decide (a = r)) as [->|]; [by rewrite decide_True by done|]. by rewrite decide_False by congruence.
Qed.

Lemma sound_acquire_then {A} a b (k : prog A) : acquirable a = true → undoes b = Some a → cleanup b = true →
  sound k → sound (emit a ;; defer b ;; k).
Proof. intros Ha Hb Hc Hk s Hs. exact (sound_bind _ (fun _ => k) (sound_acquire a b Ha Hb Hc) (fun _ => Hk) s Hs). Qed.

Lemma sound_fail {A} d : sound (fail d : prog A).
Proof. apply sound_bind; [by apply sound_emit|intros; by apply sound_halt]. Qed.

Section cleanup.
Context (utf8 : string → runes) (convert_overflow : float64 → Z) (w : world).
Context (dpx_Open : dpxConfig → bool) (bench : dpxConfig → benchResult).
Abbreviation main_prog := (main_prog utf8 convert_overflow w dpx_Open bench).
Abbreviation main := (main utf8 convert_overflow w dpx_Open bench).

Lemma run_node_sound c : sound (run_node dpx_Open bench c).
Proof.
  unfold run_node. destruct (dpx_Open c); [|apply sound_fail]. destruct (bench c) as [st t| |b].
  - by apply sound_pair; [..|apply sound_ret].
  - intros s Hs. unfold mbind, prog_bind. simpl. rewrite <- !app_assoc.
    split; [|done]. apply Forall_app. split; [apply Hs|by repeat constructor].
  - intros s Hs. unfold mbind, prog_bind. simpl. split; [|by destruct b].
    apply Forall_app. split; [apply Hs|by repeat constructor].
Qed.

Lemma main_sound f : sound (main_prog f).
Proof.
  assert (∀ lines, sound (print_or_panic lines)) as Hpp by (intros [lines|]; [by apply sound_emit|by apply sound_halt]).
  unfold LabMain.main_prog. apply sound_bind.
  { unfold start_profile. case_decide; [apply sound_ret|]. case_match; [|apply sound_fail].
    apply sound_acquire_then; [done..|]. case_match; [by apply sound_acquire|apply sound_fail]. }
  intros []. apply sound_bind.
  { unfold choose_raftDir. case_decide; [|apply sound_ret]. case_match; [|apply sound_fail].
    apply sound_acquire_then; [done..|apply sound_ret]. }
  intros raftDir. unfold main_body. destruct (choose_sync _); [|apply sound_fail]. case_decide; [apply sound_fail|].
  apply sound_bind; [by apply sound_emit|intros []]. apply sound_bind; [by apply sound_emit|intros []].
  destruct (choose_engine _ _); [|apply sound_fail]. apply sound_bind.
  { unfold dpx_config. case_decide; [|apply sound_ret]. apply sound_bind; [|intros []; [apply sound_ret|apply sound_fail]].
    unfold getFreePort. case_match; [|apply sound_ret]. case_match; [|apply sound_ret].
    by apply sound_pair; [..|apply sound_ret]. }
  intros c. apply sound_bind; [apply run_node_sound|]. intros [st t]. apply sound_bind.
  { unfold write_profile. case_decide; [apply sound_ret|]. case_match; [|by apply sound_emit].
    apply sound_acquire_then; [done..|]. case_match; [apply sound_ret|by apply sound_emit]. }
  intros []. unfold report. repeat (apply sound_bind; [|intros []]); try by apply sound_emit.
  - apply Hpp.
  - repeat case_decide; [..|apply sound_ret]; repeat (apply sound_bind; [|intros []]); try by apply sound_emit.
    apply Hpp.
Qed.

Lemma tidy_start : tidy {| trace := []; deferred := [] |}.
Proof. by constructor; [|constructor]. Qed.

(** Invalid flags end the run with their message. *)
Lemma main_body_usage f raftDir u s : configure (lf_flags f) = inr u →
  ∃ es, main_body utf8 convert_overflow w dpx_Open bench f raftDir s
    = ({| trace := trace s ++ es ++ [Err (Usage u)]; deferred := deferred s |}, inr (Exited 1)).
Proof.
  unfold configure, main_body, fail, mbind, prog_bind. intros Hc. destruct (choose_sync _) as [sp|].
  - case_decide; [simplify_eq; by exists []|]. destruct (choose_engine _ _); simplify_eq. simpl.
    eexists [_; _]. by rewrite <- !app_assoc.
  - simplify_eq. by exists [].
Qed.

(** A program that goes on or exits with code 1; one that exits with it. *)
Definition exits_1 {A} (m : prog A) : Prop := ∀ s, (m s).2 = inr (Exited 1).
Definition ok_or_1 {A} (m : prog A) : Prop := ∀ s, (∃ x, (m s).2 = inl x) ∨ (m s).2 = inr (Exited 1).

Lemma exits_bind {A B} (m : prog A) (k : A → prog B) : ok_or_1 m → (∀ x, exits_1 (k x)) → exits_1 (m ≫= k).
Proof.
  intros Hm Hk s. specialize (Hm s). unfold mbind, prog_bind. destruct (m s) as [s' [x|st]]; simpl in *; [apply Hk|].
  destruct Hm as [[x Hx]|Hx]; by simplify_eq.
Qed.

Lemma bad_flags f u : configure (lf_flags f) = inr u → exits_1 (main_prog f).
Proof.
  intros Hc. apply exits_bind; [|intros []; apply exits_bind].
  - intros s. unfold start_profile. repeat case_match; simpl; eauto.
  - intros s. unfold choose_raftDir. repeat case_match; simpl; eauto.
  - intros raftDir s. by destruct (main_body_usage f raftDir u s Hc) as [es ->].
Qed.

Lemma bad_flags_trace f u dir : configure (lf_flags f) = inr u → lf_cpuProfile f = ""%string →
  lf_raftDir f = ""%string → os_MkdirTemp w = Some dir →
  ∃ es, main f = (TempMade dir :: es ++ [Err (Usage u)], 1).
Proof.
  intros Hc Hcpu Hdir Htmp.
  destruct (main_body_usage f dir u {| trace := [TempMade dir]; deferred := [TempRemoved dir] |} Hc) as [es E].
  exists es. unfold LabMain.main, run_main, LabMain.main_prog, start_profile, choose_raftDir.
  rewrite Hcpu, Hdir, Htmp, !decide_True by done. unfold mbind, prog_bind, mret, prog_ret, emit, defer. simpl.
  by rewrite E.
Qed.

(** What a run leaves behind is decided by how it ends. A run that exits with
    code 0 has released everything: every file is closed, the profile stopped,
    the temporary directory removed, the listener and the node closed. A run
    that exits with code 1 went through [os.Exit] and has run no deferred call:
    no file it created is closed, no profile stopped and no temporary directory
    removed. A run with code 0 had valid flags; and with invalid ones, once the
    profile and the directory are set up, the run ends with the message about
    the flag and code 1. *)
Theorem main_cleanup (f : labFlags) :
  let '(tr, code) := main f in
  (code = 0 → ∀ r, acquirable r = true → held r tr = 0)
  ∧ (code = 1 → Forall (fun e => cleanup e = false) tr)
  ∧ (code = 0 → ∃ st, configure (lf_flags f) = inl st)
  ∧ (∀ u dir, configure (lf_flags f) = inr u → lf_cpuProfile f = ""%string → lf_raftDir f = ""%string →
       os_MkdirTemp w = Some dir → code = 1 ∧ head tr = Some (TempMade dir) ∧ last tr = Some (Err (Usage u))).
Proof.
  pose proof (main_sound f _ tidy_start) as Hs. unfold LabMain.main, run_main.
  pose proof (bad_flags_trace f) as Hbad. unfold LabMain.main, run_main in Hbad.
  assert (∀ u, configure (lf_flags f) = inr u → ∃ s, main_prog f {| trace := []; deferred := [] |} = (s, inr (Exited 1))) as Hexit.
  { intros u Hu. pose proof (bad_flags f u Hu {| trace := []; deferred := [] |}) as Hx.
    destruct (main_prog f _) as [s r]. simpl in Hx. subst r. by exists s. }
  assert (∀ u dir (p : list event * Z), (∃ es, p = (TempMade dir :: es ++ [Err (Usage u)], 1)) →
     p.2 = 1 ∧ head p.1 = Some (TempMade dir) ∧ last p.1 = Some (Err (Usage u))) as Hshape.
  { intros u dir p [es ->]. simpl. by rewrite app_comm_cons, last_snoc. }
  destruct (main_prog f _) as [s [[]|st]] eqn:E.
  - destruct Hs as [Hh _]. split_and!; [done|done| |].
    + intros _. destruct (configure (lf_flags f)) as [st|u]; [by exists st|]. by destruct (Hexit u eq_refl).
    + intros u dir Hu. by destruct (Hexit u Hu).
  - destruct Hs as [Ht Hne]. destruct st as [code| |]; split_and!; try done.
    + intros ->. done.
    + intros ->. done.
    + intros u dir Hu Hc Hd Hm. by apply (Hshape u dir (trace s, code)), Hbad.
    + intros u dir Hu Hc Hd Hm. by destruct (Hexit u Hu).
    + intros u dir Hu Hc Hd Hm. by destruct (Hexit u Hu).
Qed.
End cleanup.

(** ** Two runs *)

Definition sample_flags (sync : string) : labFlags :=
  {| lf_flags := {| fl_engine := "memory"; fl_dir := "/tmp/dpx-bench"; fl_workload := "write"; fl_mode := "distributed";
                    fl_sync := sync; fl_keyDist := "random"; fl_runs := 1 |};
     lf_cpuProfile := ""; lf_memProfile := "heap"; lf_raftDir := ""; lf_telemetry := "summary";
     lf_concurrency := 8; lf_keys := 100; lf_valueSize := 64; lf_duration := 15 * second |}.

Definition sample_world : world :=
  {| os_Create := fun _ => true; StartCPUProfile := true; os_MkdirTemp := Some "/tmp/dpx-lab-1"%string;
     WriteHeapProfile := true; ResolveTCPAddr := true; ListenTCP := Some 40001 |}.

Definition sample_main (sync : string) : list event * Z :=
  main str (fun _ => 0) sample_world (fun _ => true)
    (fun _ => BenchDone sample_stats (fun _ => zero_timer)) (sample_flags sync).

(** A run that releases what it acquired, and one that ends at an unknown sync
    policy and leaves its temporary directory behind. *)
Lemma main_cleanup_witness :
  (sample_main "batch").2 = 0 ∧ TempRemoved "/tmp/dpx-lab-1" ∈ (sample_main "batch").1
  ∧ held (TempMade "/tmp/dpx-lab-1") (sample_main "batch").1 = 0
  ∧ sample_main "always" = ([TempMade "/tmp/dpx-lab-1"; Err (Usage (UnknownSync "always"))], 1)
  ∧ Forall (fun e => cleanup e = false) (sample_main "always").1.
Proof.
  split; [vm_compute; reflexivity|]. split.
  { apply (bool_decide_unpack _). vm_compute. exact I. }
  split.
  { pose proof (main_cleanup str (fun _ => 0) sample_world (fun _ => true)
      (fun _ => BenchDone sample_stats (fun _ => zero_timer)) (sample_flags "batch")) as Hm.
    change (main _ _ _ _ _ _) with (sample_main "batch") in Hm.
    assert ((sample_main "batch").2 = 0) as Hc by (vm_compute; reflexivity).
    destruct (sample_main "batch") as [tr code]. by apply Hm. }
  split; [vm_compute; reflexivity|]. by vm_compute; repeat constructor.
Defined.
