(* ===== verification/LabProps.v ===== *)
(** * The load generator: what its numbers mean

    Distinct unreserved keys, a partition of the keys over the workers, an
    engine seeded with known values, and, for every interleaving of the
    workers, counters that agree with the latencies and workloads that never
    conflict, fail or panic. *)

From S2P Require Import Prelude Types Wire EngineSpec Iter BTree Memory Fsm Occ.
From S2P Require Import Direct Tx Node NodeSpec Batcher LabStats Lab.

(** ** Keys *)

Definition dec_step (a : Z) (b : byte) : Z := 10 * a + (byte.unsigned b - 48).

Lemma dec_step_digit a d : 0 <= d < 10 → dec_step a (byte.of_Z (48 + d)) = 10 * a + d.
Proof.
  intros Hd. unfold dec_step. rewrite byte.unsigned_of_Z. unfold byte.wrap.
  rewrite Z.mod_small by lia. lia.
Qed.

Lemma decimal_value fuel n acc : 0 <= n < 10 ^ Z.of_nat fuel →
  foldl dec_step 0 (decimal fuel n acc) = foldl dec_step n acc.
Proof.
  revert n acc. induction fuel as [|fuel IH]; intros n acc Hn.
  - simpl in *. by replace n with 0 by lia.
  - cbn [decimal]. cbv zeta. pose proof (Z.mod_pos_bound n 10 ltac:(lia)). pose proof (Z_div_mod_eq_full n 10).
    destruct (Z.eqb_spec (n / 10) 0) as [E|E].
    + cbn [foldl]. rewrite dec_step_digit by lia. f_equal. lia.
    + rewrite IH.
      * cbn [foldl]. rewrite dec_step_digit by lia. f_equal. lia.
      * split; [apply Z.div_pos; lia|]. apply Z.div_lt_upper_bound; [lia|].
        rewrite Nat2Z.inj_succ, Z.pow_succ_r in Hn; lia.
Qed.

Lemma zeros_value k l : foldl dec_step 0 (replicate k x30 ++ l) = foldl dec_step 0 l.
Proof. by induction k. Qed.

Lemma key_name_inj i j : 0 <= i < 2 ^ 63 → 0 <= j < 2 ^ 63 → key_name i = key_name j → i = j.
Proof.
  intros Hi Hj E. unfold key_name in E. apply app_inv_head in E.
  apply (f_equal (foldl dec_step 0)) in E. rewrite !zeros_value, !decimal_value in E; [done|..].
  all: change (Z.of_nat 19) with 19; lia.
Qed.

Lemma key_name_user i : isReserved (key_name i) = false.
Proof.
  apply not_true_is_false. rewrite isReserved_prefix. intros [r E]%has_prefix_spec.
  apply (f_equal (take 1)) in E. discriminate E.
Qed.

Lemma gen_keys_spec keys : 0 <= keys < 2 ^ 63 →
  ∃ ks, gen_keys keys = Some ks ∧ Z.of_nat (length ks) = keys ∧ NoDup ks
    ∧ Forall (fun k => isReserved k = false) ks
    ∧ ∀ i, 0 <= i < keys → ks !! Z.to_nat i = Some (key_name i).
Proof.
  intros Hk. unfold gen_keys. destruct (Z.ltb_spec keys 0); [lia|].
  exists (map key_name (seqZ 0 keys)). split_and!; [done|rewrite length_map, length_seqZ; lia|..].
  - assert (∀ l, Forall (fun i => 0 <= i < 2 ^ 63) l → NoDup l → NoDup (map key_name l)) as Hmap.
    { induction 1 as [|i l Hi Hl IH]; [constructor|]. rewrite NoDup_cons. intros [Hn Hd]. simpl. constructor; [|auto].
      intros (j & E & Hj)%list_elem_of_fmap. rewrite Forall_forall in Hl. apply Hn.
      by rewrite (key_name_inj i j Hi (Hl _ Hj) E). }
    apply Hmap; [|apply NoDup_seqZ]. apply Forall_forall. intros i Hi%elem_of_seqZ. lia.
  - apply Forall_forall. intros k (i & -> & _)%list_elem_of_fmap. apply key_name_user.
  - intros i Hi. rewrite list_lookup_fmap, lookup_seqZ_lt by lia. simpl. do 2 f_equal. lia.
Qed.

(** ** Stripes *)

Section stripes.
Context (keys concurrency : Z) (Hc : 0 < concurrency) (Hk : 0 < keys).

Lemma stripe_bounds i : 0 <= i < concurrency →
  0 <= (stripe keys concurrency i).1 < (stripe keys concurrency i).2 ∧ (stripe keys concurrency i).2 <= keys.
Proof.
  intros Hi. unfold stripe. cbv zeta. rewrite Z.quot_div_nonneg by lia.
  set (stride := if _ <? 1 then 1 else _).
  assert (1 <= stride) by (unfold stride; destruct (Z.ltb_spec (keys / concurrency) 1); lia).
  assert (0 <= i * stride) by nia.
  destruct (Z.leb_spec keys (i * stride)); [simpl; lia|]. simpl.
  destruct (Z.ltb_spec keys (i * stride + stride)), (Z.eqb_spec i (concurrency - 1)); simpl; lia.
Qed.

(** With at least one key per worker, worker [i] starts where the previous one
    ends, and the last one ends with the last key. *)
Lemma stripe_consecutive i : concurrency <= keys → 0 <= i < concurrency →
  let stride := keys / concurrency in
  stripe keys concurrency i = (i * stride, if i =? concurrency - 1 then keys else (i + 1) * stride).
Proof.
  intros Hck Hi stride. unfold stripe. cbv zeta. rewrite Z.quot_div_nonneg by lia. fold stride.
  assert (1 <= stride) by (apply Z.div_le_lower_bound; lia).
  assert (concurrency * stride <= keys) by (apply Z.mul_div_le; lia).
  destruct (Z.ltb_spec stride 1); [lia|].
  destruct (Z.leb_spec keys (i * stride)); [nia|].
  destruct (Z.eqb_spec i (concurrency - 1)); [by rewrite orb_true_r|].
  destruct (Z.ltb_spec keys (i * stride + stride)); [nia|]. simpl. f_equal. lia.
Qed.
End stripes.

Lemma subslice_ok {A} (l : list A) lo hi : 0 <= lo <= hi → hi <= Z.of_nat (length l) →
  subslice l lo hi = Some (take (Z.to_nat (hi - lo)) (drop (Z.to_nat lo) l)).
Proof.
  intros. unfold subslice. destruct (Z.leb_spec 0 lo), (Z.leb_spec lo hi), (Z.leb_spec hi (Z.of_nat (length l)));
    simpl; (done || lia).
Qed.

(** The stripes of the first [j] workers are the first [j * stride] keys. *)
Lemma stripes_prefix {A} (l : list A) (stride : Z) (j : nat) : 0 <= stride →
  Z.of_nat j * stride <= Z.of_nat (length l) →
  concat (map (fun i => take (Z.to_nat stride) (drop (Z.to_nat (i * stride)) l)) (seqZ 0 (Z.of_nat j)))
  = take (Z.to_nat (Z.of_nat j * stride)) l.
Proof.
  intros Hs. induction j as [|j IH]; intros Hl; [done|].
  replace (Z.of_nat (S j)) with (Z.of_nat j + 1) by lia.
  rewrite seqZ_app, map_app, concat_app, IH by lia. cbn [seqZ]. simpl.
  rewrite app_nil_r. replace (Z.to_nat ((Z.of_nat j + 1) * stride))
    with (Z.to_nat (Z.of_nat j * stride) + Z.to_nat stride)%nat by lia.
  by rewrite <- take_take_drop.
Qed.

Definition stripe_keys {A} (l : list A) (concurrency i : Z) : list A :=
  let '(lo, hi) := stripe (Z.of_nat (length l)) concurrency i in
  take (Z.to_nat (hi - lo)) (drop (Z.to_nat lo) l).

Lemma striped_workers (l : list bytes) concurrency : l ≠ [] → 0 < concurrency →
  workerKeys true l concurrency = Some (map (stripe_keys l concurrency) (seqZ 0 concurrency)).
Proof.
  intros Hl Hc. assert (0 < Z.of_nat (length l)) by (destruct l; [done|simpl; lia]).
  unfold workerKeys. destruct (Z.ltb_spec concurrency 0); [lia|].
  destruct (Z.ltb_spec 0 concurrency); [|lia]. cbn [andb].
  apply mapM_Some, Forall2_fmap_r, Forall_Forall2_diag, Forall_forall. intros i Hi%elem_of_seqZ.
  pose proof (stripe_bounds (Z.of_nat (length l)) concurrency Hc ltac:(lia) i ltac:(lia)) as Hb.
  destruct (stripe _ _ _) as [lo hi] eqn:Est. simpl in Hb. rewrite subslice_ok by lia. f_equal.
  symmetry. change (stripe_keys l concurrency i = take (Z.to_nat (hi - lo)) (drop (Z.to_nat lo) l)).
  unfold stripe_keys. by rewrite Est.
Qed.

Lemma stripes_concat (l : list bytes) concurrency : 0 < concurrency <= Z.of_nat (length l) →
  concat (map (stripe_keys l concurrency) (seqZ 0 concurrency)) = l.
Proof.
  intros Hc. set (keys := Z.of_nat (length l)) in *. set (stride := keys / concurrency).
  assert (1 <= stride) by (apply Z.div_le_lower_bound; lia).
  assert (concurrency * stride <= keys) by (apply Z.mul_div_le; lia).
  assert (∀ i, 0 <= i < concurrency → stripe_keys l concurrency i
            = if i =? concurrency - 1 then drop (Z.to_nat (i * stride)) l
              else take (Z.to_nat stride) (drop (Z.to_nat (i * stride)) l)) as Hs.
  { intros i Hi. unfold stripe_keys. fold keys. rewrite stripe_consecutive by lia. fold stride.
    destruct (Z.eqb_spec i (concurrency - 1)).
    - apply take_ge. rewrite length_drop. unfold keys. nia.
    - do 2 f_equal. lia. }
  replace concurrency with ((concurrency - 1) + 1) at 2 by lia.
  rewrite seqZ_app, map_app, concat_app by lia.
  rewrite (map_ext_in _ (fun i => take (Z.to_nat stride) (drop (Z.to_nat (i * stride)) l))).
  2: { intros i Hi%list_elem_of_In%elem_of_seqZ. rewrite Hs by lia. destruct (Z.eqb_spec i (concurrency - 1)); [lia|done]. }
  pose proof (stripes_prefix l stride (Z.to_nat (concurrency - 1)) ltac:(lia)) as Hp.
  rewrite Z2Nat.id in Hp by lia. rewrite Hp by (unfold keys in *; nia).
  simpl. rewrite Hs, Z.eqb_refl, app_nil_r by lia. apply take_drop.
Qed.

(** The slices of the workers are within the key list and not empty; in striped
    mode with enough keys they cover it. *)
Lemma worker_slices keys concurrency striped :
  0 < keys < 2 ^ 63 → 0 <= concurrency →
  ∃ ks ws, gen_keys keys = Some ks ∧ NoDup ks ∧ workerKeys striped ks concurrency = Some ws
    ∧ length ws = Z.to_nat concurrency
    ∧ Forall (fun w => w ≠ [] ∧ w ⊆ ks ∧ (length w ≤ length ks)%nat ∧ Forall (fun k => isReserved k = false) w) ws
    ∧ (striped = true → 0 < concurrency <= keys → concat ws = ks).
Proof.
  intros Hk Hc.
  destruct (gen_keys_spec keys ltac:(lia)) as (ks & Eks & Hlen & Hnd & Hu & _). exists ks.
  assert (ks ≠ []) as Hne by (intros ->; simpl in Hlen; lia).
  assert (∀ w, w ⊆ ks → Forall (fun k => isReserved k = false) w) as Hsub.
  { intros w Hw. rewrite Forall_forall in Hu. apply Forall_forall. auto. }
  destruct (striped && (0 <? concurrency)) eqn:Es.
  - apply andb_true_iff in Es as [-> Hpos%Z.ltb_lt].
    exists (map (stripe_keys ks concurrency) (seqZ 0 concurrency)).
    split_and!; [done|done|by apply striped_workers|by rewrite length_map, length_seqZ| |].
  + apply Forall_fmap, Forall_forall. intros i Hi%elem_of_seqZ. simpl.
      pose proof (stripe_bounds keys concurrency Hpos ltac:(lia) i ltac:(lia)) as Hb.
      assert (stripe_keys ks concurrency i ⊆ ks) as Hs.
      { unfold stripe_keys. destruct (stripe (Z.of_nat (length ks)) concurrency i) as [lo hi].
        intros k (j & Hj & _)%elem_of_take. rewrite lookup_drop in Hj. by eapply list_elem_of_lookup_2. }
      split_and!; [|done| |by apply Hsub].
      2: { unfold stripe_keys. destruct (stripe (Z.of_nat (length ks)) concurrency i). rewrite length_take, length_drop. lia. }
      intros E. apply (f_equal length) in E. simpl in E.
      unfold stripe_keys in E. rewrite Hlen in E. destruct (stripe _ _ _) as [lo hi]. simpl in Hb.
      rewrite length_take, length_drop in E. lia.
    + intros _ Hck. apply stripes_concat. lia.
  - exists (replicate (Z.to_nat concurrency) ks). unfold workerKeys.
    destruct (Z.ltb_spec concurrency 0); [lia|]. rewrite Es.
    split_and!; [done..|by rewrite length_replicate|by apply Forall_replicate; auto|].
    intros -> Hpos. destruct (Z.ltb_spec 0 concurrency); [done|lia].
Qed.

(** Every worker has keys to draw from: with at least one key the
    per-worker slices are within the key list and none is empty, so no draw
    divides by zero; and in striped mode with at least one key per worker they
    are consecutive and cover every key exactly once, so no two workers share
    a key. Striped mode without keys panics before any work is done. *)
Theorem worker_keys_partition keys concurrency striped :
  0 < keys < 2 ^ 63 → 0 <= concurrency →
  (∃ ks ws, gen_keys keys = Some ks ∧ NoDup ks ∧ workerKeys striped ks concurrency = Some ws
    ∧ length ws = Z.to_nat concurrency
    ∧ Forall (fun w => w ≠ [] ∧ w ⊆ ks ∧ (length w ≤ length ks)%nat ∧ Forall (fun k => isReserved k = false) w) ws
    ∧ (striped = true → 0 < concurrency <= keys → concat ws = ks))
  ∧ (0 < concurrency → workerKeys true [] concurrency = None).
Proof.
  intros Hk Hc. split.
  - by apply worker_slices.
  - intros Hpos. unfold workerKeys. destruct (Z.ltb_spec concurrency 0); [lia|].
    destruct (Z.ltb_spec 0 concurrency); [|lia]. apply mapM_None, Exists_exists. exists 0.
    split; [apply elem_of_seqZ; lia|]. unfold stripe. cbn [length Z.of_nat].
    by rewrite Z.quot_0_l by lia.
Qed.

Lemma worker_keys_partition_witness :
  workerKeys true (map key_name [0; 1; 2; 3; 4]) 2 = Some [map key_name [0; 1]; map key_name [2; 3; 4]]
  ∧ ∃ ks ws, gen_keys 5 = Some ks ∧ workerKeys true ks 2 = Some ws ∧ concat ws = ks.
Proof.
  split; [reflexivity|].
  destruct (worker_keys_partition 5 2 true ltac:(lia) ltac:(lia)) as [(ks & ws & H1 & _ & H2 & _ & _ & H3) _].
  exists ks, ws. split; [exact H1|]. split; [exact H2|]. apply H3; [reflexivity|lia].
Defined.

(** ** Seeding *)

(** The writes of seeding [ks] from a generator state; [z] fills a value after
    its first eight bytes. *)
Fixpoint seed_ops (z : bytes) (rng : Z) (ks : list bytes) : list bop :=
  match ks with
  | [] => []
  | k :: ks => BSet k (le64 (next rng) ++ z) :: seed_ops z (next rng) ks
  end.

Lemma draws_next n x : draws n (next x) = draws (S n) x.
Proof. unfold draws. by rewrite Nat.iter_succ_r. Qed.

Lemma seed_ops_app z rng l1 l2 :
  seed_ops z rng (l1 ++ l2) = seed_ops z rng l1 ++ seed_ops z (draws (length l1) rng) l2.
Proof.
  revert rng. induction l1 as [|k l1 IH]; intros rng; [done|]. simpl. by rewrite IH, draws_next.
Qed.

Lemma lookup_seed_ops z rng ks m k : NoDup ks →
  spec_ops m (seed_ops z rng ks) !! k
  = match list_find (k =.) ks with
    | Some (i, _) => Some (le64 (draws (S i) rng) ++ z)
    | None => m !! k
    end.
Proof.
  intros Hnd. revert rng m. induction Hnd as [|k' ks Hn _ IH]; intros rng m; [done|].
  cbn [seed_ops list_find]. rewrite spec_ops_cons, IH. destruct (decide (k = k')) as [<-|Hk].
  - rewrite (proj2 (list_find_None _ ks)).
    + rewrite lookup_spec_op. simpl. by rewrite decide_True.
    + apply Forall_forall. intros k' Hk' <-. done.
  - destruct (list_find (k =.) ks) as [[i k'']|]; simpl.
    + by rewrite draws_next.
    + rewrite lookup_spec_op_ne; [done|]. simpl. congruence.
Qed.

Lemma lookup_seed_other z rng ks m k : k ∉ ks → spec_ops m (seed_ops z rng ks) !! k = m !! k.
Proof.
  revert rng m. induction ks as [|k' ks IH]; intros rng m; [done|]. rewrite not_elem_of_cons. intros [Hk Hn].
  cbn [seed_ops]. rewrite spec_ops_cons, IH by done. rewrite lookup_spec_op_ne; [done|]. simpl. congruence.
Qed.

Lemma put_front buf w : (length w ≤ length buf)%nat → put buf 0 w = Some (w ++ drop (length w) buf).
Proof. intros Hl. unfold put. by rewrite decide_True. Qed.

Section seeding.
Context {Eng Snap Bat : Type} `{EngineLaws Eng Snap Bat} `{!InfallibleEngine Eng Snap Bat}.
Implicit Types e : Eng.

Lemma seed_batch_spec e ks rng buf bat ops :
  (8 ≤ length buf)%nat → bat_is e bat ops →
  ∃ buf' bat', seed_batch ks rng buf bat = Some (draws (length ks) rng, buf', bat')
    ∧ (8 ≤ length buf')%nat ∧ drop 8 buf' = drop 8 buf
    ∧ bat_is e bat' (ops ++ seed_ops (drop 8 buf) rng ks).
Proof.
  revert rng buf bat ops. induction ks as [|k ks IH]; intros rng buf bat ops Hl Hb.
  - exists buf, bat. rewrite app_nil_r. done.
  - cbn [seed_batch]. rewrite put_front by (by rewrite length_le64). rewrite length_le64.
    set (buf1 := le64 (next rng) ++ drop 8 buf).
    assert (drop 8 buf1 = drop 8 buf) as Hd.
    { unfold buf1. rewrite drop_app_ge, length_le64 by (by rewrite length_le64). by rewrite Nat.sub_diag. }
    assert (8 ≤ length buf1)%nat as Hl1 by (unfold buf1; rewrite length_app, length_le64; lia).
    destruct (IH (next rng) buf1 (bat_Set bat k buf1) (ops ++ [BSet k buf1]) Hl1) as (buf' & bat' & -> & Hl' & Hd' & Hb').
    { by apply (bat_is_add e bat ops (BSet k buf1)). }
    exists buf', bat'. cbn [length seed_ops]. rewrite draws_next. split; [done|]. split; [done|].
    split; [congruence|]. rewrite Hd in Hb'. by rewrite <- app_assoc in Hb'.
Qed.

Lemma seed_loop_spec fuel ks rng buf e :
  (length ks ≤ fuel)%nat → (8 ≤ length buf)%nat → eng_inv e →
  ∃ e', seed_loop fuel ks rng buf e = Some e' ∧ eng_inv e'
    ∧ eng_abs e' = spec_ops (eng_abs e) (seed_ops (drop 8 buf) rng ks).
Proof.
  revert ks rng buf e. induction fuel as [|fuel IH]; intros ks rng buf e Hf Hl Hi.
  { destruct ks; [|simpl in Hf; lia]. by exists e. }
  destruct ks as [|k ks]; [by exists e|]. cbn [seed_loop]. set (l := k :: ks) in *.
  destruct (seed_batch_spec e (take seedBatchSize l) rng buf (eng_NewBatch e) [] Hl (bat_is_new e))
    as (buf' & bat & -> & Hl' & Hd & Hb).
  destruct (eng_ApplyBatch e bat false) as [e1 err] eqn:Ea.
  pose proof (apply_no_error e bat false (proj1 Hb)) as Hn. rewrite Ea in Hn. simpl in Hn. subst err.
  destruct (bat_is_apply e bat _ false e1 Hi Hb Ea) as [Hi1 Hs1].
  destruct (IH (drop seedBatchSize l) (draws (length (take seedBatchSize l)) rng) buf' e1) as (e' & -> & Hi' & Hs').
  { rewrite length_drop. unfold seedBatchSize, l in *. simpl in *. lia. }
  { done. }
  { done. }
  exists e'. split; [done|]. split; [done|].
  by rewrite Hs', Hs1, Hd, app_nil_l, <- spec_ops_app, <- seed_ops_app, take_drop.
Qed.

Lemma seed_spec ks valueSize e : 8 <= valueSize → eng_inv e →
  ∃ e', seed ks valueSize e = Some e' ∧ eng_inv e'
    ∧ eng_abs e' = spec_ops (eng_abs e) (seed_ops (replicate (Z.to_nat valueSize - 8) x00) 42 ks).
Proof.
  intros Hv Hi. unfold seed. destruct (Z.ltb_spec valueSize 0); [lia|]. rewrite <- drop_replicate.
  apply seed_loop_spec; [done|rewrite length_replicate; lia|done].
Qed.

(** Seeding fills the engine: whatever the number of keys, the loop over
    batches of a thousand ends, every key holds its own pseudo-random number,
    padded with zeros to the value size, and no other key is touched. Values
    shorter than eight bytes make it panic on the first key. *)
Theorem seed_fills keys valueSize e :
  0 <= keys < 2 ^ 63 → 8 <= valueSize → eng_inv e →
  ∃ ks e', gen_keys keys = Some ks ∧ seed ks valueSize e = Some e' ∧ eng_inv e'
    ∧ (∀ i, 0 <= i < keys → eng_abs e' !! key_name i
         = Some (le64 (draws (Z.to_nat (i + 1)) 42) ++ replicate (Z.to_nat valueSize - 8) x00))
    ∧ (∀ k, k ∉ ks → eng_abs e' !! k = eng_abs e !! k)
    ∧ (∀ v, 0 < keys → v < 8 → seed ks v e = None).
Proof.
  intros Hk Hv Hi. destruct (gen_keys_spec keys Hk) as (ks & Eks & Hlen & Hnd & _ & Hlook).
  destruct (seed_spec ks valueSize e Hv Hi) as (e' & Hs & Hi' & Ha).
  exists ks, e'. split_and!; [done|done|done|..].
  - intros i Hin. rewrite Ha, lookup_seed_ops by done.
    destruct (list_find_elem_of (key_name i =.) ks (key_name i)) as [[j k] E].
    { by eapply list_elem_of_lookup_2, Hlook. }
    { done. }
    rewrite E. apply list_find_Some in E as (Ej & <- & _).
    assert (j = Z.to_nat i) as -> by (eapply NoDup_lookup; [done|exact Ej|by apply Hlook]).
    by replace (Z.to_nat (i + 1)) with (S (Z.to_nat i)) by lia.
  - intros k Hn. rewrite Ha. by apply lookup_seed_other.
  - intros v Hpos Hv8. unfold seed. destruct (Z.ltb_spec v 0); [done|]. destruct ks as [|k ks]; [simpl in Hlen; lia|].
    cbn [length seed_loop]. change (take seedBatchSize (k :: ks)) with (k :: take 999 ks).
    cbn [seed_batch]. unfold put.
    rewrite decide_False; [done|]. rewrite length_replicate, length_le64. lia.
Qed.
End seeding.
