(* ===== verification/LabWindow.v ===== *)
(** * Timed windows of the load generator

    For every interleaving of the workers: each finished call is counted once
    and the latencies are those of the successes; and on an embedded node no
    workload ever conflicts, fails or panics, because none of them commits a
    proposal with a read set. *)

From S2P Require Import Prelude Types Wire EngineSpec Iter BTree Memory Fsm Occ Direct.
From S2P Require Import Tx Node NodeSpec Reopen Raft Batching Scenarios NodeProps NodeScenarios.
From S2P Require Import Batcher LabStats Lab LabProps.

(** ** Accounts *)

Lemma sumZ_app l1 l2 : sumZ (l1 ++ l2) = sumZ l1 + sumZ l2.
Proof. induction l1 as [|z l1 IH]; simpl; [done|]. rewrite IH. lia. Qed.

Lemma sumZ_insert {A} (f : A → Z) l i x y : l !! i = Some x →
  sumZ (map f (<[i := y]> l)) = sumZ (map f l) - f x + f y.
Proof.
  intros Hl. rewrite insert_take_drop by (by eapply lookup_lt_Some).
  rewrite <- (take_drop_middle l i x Hl) at 3.
  rewrite !map_app, !sumZ_app. simpl. lia.
Qed.

Lemma sumZ_zero {A} (f : A → Z) l : Forall (fun x => f x = 0) l → sumZ (map f l) = 0.
Proof. induction 1 as [|x l Hx _ IH]; simpl; lia. Qed.

Lemma sumZ_concat_map {A B} (f : A → list B) l :
  Z.of_nat (length (concat (map f l))) = sumZ (map (fun x => Z.of_nat (length (f x))) l).
Proof. induction l as [|x l IH]; simpl; [done|]. rewrite length_app. lia. Qed.

Section accounts.
Context {Eng Snap Bat : Type} `{StorageEngine Eng Snap Bat}.
Context {Clock : Type} (clock_Observe : Clock → Z → Z → Clock) (clock_Tick : Clock → Clock * (Z * Z)).
Context (rs_order : readset → list ReadEntry).
Context (raft_Apply : dpxFSM Eng Clock → bytes → dpxFSM Eng Clock * (ApplyResult + txErr)).
Context (batcher_Wait : nat → option txErr).
Context (work : workFn) (maxAttempts : nat) (end_ : Z).
Implicit Types win : window Eng Clock.

Abbreviation worker_step := (worker_step clock_Observe clock_Tick rs_order raft_Apply batcher_Wait work maxAttempts end_).
Abbreviation run_window := (run_window clock_Observe clock_Tick rs_order raft_Apply batcher_Wait work maxAttempts end_).

(** A worker inside a call of RunInTx. *)
Definition in_call (w : worker) : Z := match w_phase w with Trying _ _ _ | Submitted _ _ _ _ => 1 | _ => 0 end.

(** Whether the next step of worker [i] starts a call. *)
Definition starts_call win (i : nat) : Z :=
  match win_workers win !! i with
  | Some w => match w_phase w with InLoop => 1 | _ => 0 end
  | None => 0
  end.

(** The calls a schedule starts. *)
Fixpoint calls_started (sched : list (nat * Z)) win : Z :=
  match sched with
  | [] => 0
  | (i, now) :: sched =>
      starts_call win i + match worker_step now i win with
                          | None => 0
                          | Some win => calls_started sched win
                          end
  end.

Definition samples win : Z := sumZ (map (fun w => Z.of_nat (length (w_samples w))) (win_workers win)).
Definition balance win : Z :=
  win_ops win + win_errs win + win_conflicts win + sumZ (map in_call (win_workers win)).

(** The effect of a step on the accounts: [c] calls start, successes and
    samples grow together. *)
Definition accounts win win' (c : Z) : Prop :=
  u64 (balance win') = u64 (balance win + c)
  ∧ u64 (win_ops win' - samples win') = u64 (win_ops win - samples win).

Lemma u64_mod z : ∃ k, u64 z = z + k * 2 ^ 64.
Proof. exists (- (z / 2 ^ 64)). unfold u64. rewrite Z.mod_eq by lia. lia. Qed.

Lemma u64_cong a b k : a = b + k * 2 ^ 64 → u64 a = u64 b.
Proof. intros ->. unfold u64. apply Z_mod_plus_full. Qed.

Lemma accounts_set win n i w w' : win_workers win !! i = Some w → w_samples w' = w_samples w →
  accounts win (set_worker win n i w') (in_call w' - in_call w).
Proof.
  intros Hw Hs. unfold accounts, balance, samples. cbn [win_ops win_errs win_conflicts win_workers set_worker].
  rewrite !(sumZ_insert _ _ _ _ _ Hw), Hs. split; f_equal; lia.
Qed.

Lemma accounts_count win n i w w0 lat err : win_workers win !! i = Some w → w_samples w0 = w_samples w →
  accounts win (count_call win n i w0 lat err) (1 - in_call w).
Proof.
  intros Hw Hs. unfold accounts, balance, samples, count_call.
  destruct err as [e|]; [destruct (isConflictExhausted (Some e))|];
    cbn [win_ops win_errs win_conflicts win_workers set_worker];
    rewrite !(sumZ_insert _ _ _ _ _ Hw); unfold in_call at 3;
    cbn [set_phase w_phase w_samples]; unfold record; rewrite ?length_app, ?Hs; cbn [length];
    match goal with |- context [u64 (?x + 1)] => destruct (u64_mod (x + 1)) as [k ->] end;
    split; first [apply (u64_cong _ _ k); lia|apply (u64_cong _ _ 0); lia].
Qed.

Lemma accounts_end win n i w fn t0 k now err : win_workers win !! i = Some w → in_call w = 1 →
  accounts win (end_attempt win n i w fn t0 k now err) 0.
Proof.
  intros Hw Hc. assert (∀ n lat err, accounts win (count_call win n i w lat err) 0) as accounts_done.
  { intros n' lat err'. pose proof (accounts_count win n' i w w lat err' Hw eq_refl) as Ha.
    by rewrite Hc in Ha. }
  unfold end_attempt. destruct err as [e|].
  - destruct (is_conflict e); [case_decide|].
    + apply accounts_done.
    + pose proof (accounts_set win (on_retry n) i w (set_phase w (Trying fn t0 (k - 1))) Hw eq_refl) as Ha.
      rewrite Hc in Ha. exact Ha.
    + apply accounts_done.
  - apply accounts_done.
Qed.
Lemma step_accounts win win' now i :
  worker_step now i win = Some win' → accounts win win' (starts_call win i).
Proof.
  unfold Lab.worker_step, starts_call. destruct (win_workers win !! i) as [w|] eqn:Hw.
  2: { intros [= <-]. split; f_equal; lia. }
  assert (∀ n ph, in_call (set_phase w ph) = in_call w → accounts win (set_worker win n i (set_phase w ph)) 0) as Hset.
  { intros n ph Hc. pose proof (accounts_set win n i w (set_phase w ph) Hw eq_refl) as Ha.
    by rewrite Hc, Z.sub_diag in Ha. }
  destruct (w_phase w) as [| |fn t0 k|fn t0 k p|] eqn:Hp.
  - intros [= <-]. apply Hset. unfold in_call. rewrite Hp. cbn [set_phase w_phase]. by destruct (now <? end_).
  - destruct (work _ _ _) as [[[rng buf] fn]|]; [|done].
    destruct (n_closed _); intros [= <-].
    + pose proof (accounts_count win (win_node win) i w {| w_keys := w_keys w; w_buf := buf; w_rng := rng;
        w_samples := w_samples w; w_phase := Trying fn now maxAttempts |} 0 (Some ErrStoreClosed) Hw eq_refl) as Ha.
      unfold in_call in Ha. by rewrite Hp in Ha.
    + pose proof (accounts_set win (win_node win) i w {| w_keys := w_keys w; w_buf := buf; w_rng := rng;
        w_samples := w_samples w; w_phase := Trying fn now maxAttempts |} Hw eq_refl) as Ha.
      unfold in_call in Ha. by rewrite Hp in Ha.
  - destruct (speculate _ _ _ _) as [n [err|p]]; intros [= <-].
    + apply accounts_end; [done|]. unfold in_call. by rewrite Hp.
    + apply Hset. unfold in_call. by rewrite Hp.
  - destruct (propose _ _ _ _ _) as [n r]. intros [= <-]. apply accounts_end; [done|]. unfold in_call. by rewrite Hp.
  - intros [= <-]. split; f_equal; lia.
Qed.

Lemma run_accounts sched win win' :
  run_window sched win = Some win' → accounts win win' (calls_started sched win).
Proof.
  revert win. induction sched as [|[i now] sched IH]; intros win; simpl.
  - intros [= <-]. split; f_equal; lia.
  - destruct (worker_step now i win) as [win1|] eqn:E; [|done]. intros [Hb Hs]%IH.
    destruct (step_accounts _ _ _ _ E) as [Hb1 Hs1]. split; [|congruence].
    rewrite Hb, <- u64_add_l, Hb1, u64_add_l. f_equal. lia.
Qed.

(** The counters of a timed window are exact, whatever the workload, the
    node and the interleaving of the workers: every call that was started is
    counted once as a success, an error or an exhausted conflict, or is still
    running; the throughput is over as many operations as there are latencies;
    and the latencies are sorted. *)
Theorem window_accounts n ks valueSize sched win elapsed pauses gcs :
  run_window sched (start_window n ks valueSize) = Some win →
  let r := window_result win elapsed pauses gcs in
  u64 (r_ops r + r_errors r + r_conflicts r + sumZ (map in_call (win_workers win)))
  = u64 (calls_started sched (start_window n ks valueSize))
  ∧ u64 (r_ops r) = u64 (Z.of_nat (length (r_latencies r)))
  ∧ StronglySorted Z.le (r_latencies r).
Proof.
  intros [Hb Hs]%run_accounts r.
  assert (Forall (fun w => w_samples w = [] ∧ in_call w = 0) (win_workers (start_window n ks valueSize))) as Hstart.
  { apply Forall_lookup. intros i w. simpl. rewrite list_lookup_imap. by intros (ks' & _ & ->)%fmap_Some. }
  unfold balance, samples in Hb, Hs. cbn [win_ops win_errs win_conflicts] in Hb, Hs.
  rewrite (sumZ_zero in_call (win_workers (start_window n ks valueSize))) in Hb.
  1: rewrite (sumZ_zero (fun w => Z.of_nat (length (w_samples w))) (win_workers (start_window n ks valueSize))) in Hs.
  - split; [exact Hb|]. destruct (sort_samples_spec (concat (map w_samples (win_workers win)))) as [Hso Hpe].
    split; [|exact Hso]. change (r_latencies r) with (sort_samples (concat (map w_samples (win_workers win)))).
    rewrite (Permutation_length Hpe), sumZ_concat_map.
    apply (f_equal (fun z => u64 (z + sumZ (map (fun w => Z.of_nat (length (w_samples w))) (win_workers win))))) in Hs.
    rewrite !u64_add_l in Hs. rewrite Z.sub_add in Hs. exact Hs.
  - eapply Forall_impl; [exact Hstart|]. by intros w [-> _].
  - eapply Forall_impl; [exact Hstart|]. by intros w [_ ?].
Qed.
End accounts.

(** ** Workloads do not conflict *)

(** A callback that reads, sets, or credits one unreserved key. *)
Inductive quiet_prog : txProg → Prop :=
  | quiet_set k v : isReserved k = false → quiet_prog (set_prog k v)
  | quiet_get k : isReserved k = false → quiet_prog (get_prog k)
  | quiet_add k delta : isReserved k = false → 0 < delta → quiet_prog (add_prog k delta).

Definition keys_ok (keys : list bytes) : Prop :=
  keys ≠ [] ∧ Z.of_nat (length keys) < 2 ^ 63 ∧ Forall (fun k => isReserved k = false) keys.

(** What a workload is given and what it leaves. *)
Definition yields_quiet (fn : workFn) : Prop :=
  ∀ keys buf rng, keys_ok keys → (8 ≤ length buf)%nat → is_u64 rng →
  ∃ rng' buf' prog, fn keys buf rng = Some (rng', buf', prog) ∧ is_u64 rng' ∧ (8 ≤ length buf')%nat ∧ quiet_prog prog.

Lemma pick_ok keys rng : keys_ok keys → is_u64 rng →
  ∃ k, pick keys rng = Some (next rng, k) ∧ isReserved k = false.
Proof.
  intros (Hne & Hlen & Hk) Hr. unfold pick.
  destruct (intn_range rng (Z.of_nat (length keys)) Hr) as (i & -> & Hi); [destruct keys; [done|simpl in *; lia]|].
  destruct (lookup_lt_is_Some_2 keys (Z.to_nat i)) as [k E]; [lia|]. rewrite E. exists k. split; [done|].
  rewrite Forall_forall in Hk. by eapply Hk, list_elem_of_lookup_2.
Qed.

Lemma write_quiet : yields_quiet workloadWrite.
Proof.
  intros keys buf rng Hk Hb Hr. unfold workloadWrite. destruct (pick_ok keys rng Hk Hr) as (k & -> & Hu).
  rewrite put_front by (by rewrite length_le64). do 3 eexists. split; [reflexivity|].
  split_and!; [by do 2 apply next_u64|rewrite length_app, length_le64; lia|by constructor].
Qed.

Lemma read_quiet : yields_quiet workloadRead.
Proof.
  intros keys buf rng Hk Hb Hr. unfold workloadRead. destruct (pick_ok keys rng Hk Hr) as (k & -> & Hu).
  do 3 eexists. split; [reflexivity|]. split_and!; [by apply next_u64|done|by constructor].
Qed.

Lemma atomic_quiet : yields_quiet workloadAtomic.
Proof.
  intros keys buf rng Hk Hb Hr. unfold workloadAtomic. destruct (pick_ok keys rng Hk Hr) as (k & -> & Hu).
  destruct (intn_range (next rng) 100 (next_u64 _ Hr) ltac:(lia)) as (d & -> & Hd).
  do 3 eexists. split; [reflexivity|]. split_and!; [by do 2 apply next_u64|done|].
  constructor; [done|]. rewrite i64_small by (unfold is_i64; lia). lia.
Qed.

Lemma mixed_quiet : yields_quiet workloadMixed.
Proof.
  intros keys buf rng Hk Hb Hr. unfold workloadMixed.
  destruct (intn_range rng 100 Hr ltac:(lia)) as (r & -> & _). pose proof (next_u64 _ Hr).
  destruct (r <? 70); [by apply read_quiet|]. destruct (r <? 90); [by apply atomic_quiet|by apply write_quiet].
Qed.

Lemma known_workload_quiet name : is_Some (lookup_workload name) → yields_quiet (call_workload name).
Proof.
  intros [fn E] keys buf rng. unfold call_workload. rewrite E. revert keys buf rng. change (yields_quiet fn).
  unfold lookup_workload in E. repeat case_decide; simplify_eq;
    auto using write_quiet, read_quiet, atomic_quiet, mixed_quiet.
Qed.

Section quiet.
Context {Eng Snap Bat : Type} `{EngineLaws Eng Snap Bat} `{!InfallibleEngine Eng Snap Bat}.
Context {Clock : Type} (clock_Observe : Clock → Z → Z → Clock) (clock_Tick : Clock → Clock * (Z * Z)).
Context (rs_order : readset → list ReadEntry).
Context (raft_Apply : dpxFSM Eng Clock → bytes → dpxFSM Eng Clock * (ApplyResult + txErr)).
Context (batcher_Wait : nat → option txErr).
Implicit Types n : Node Eng Clock.
Implicit Types d : directProposer Eng Clock.

(** A proposal that no other one can invalidate. *)
Definition blind_proposal (p : Proposal) : Prop := ReadSet p = [] ∧ client_proposal p.

Lemma speculate_quiet n fn : quiet_prog fn →
  ∃ n' s, speculate clock_Tick rs_order n fn = (n', s)
    ∧ n_proposer n' = n_proposer n ∧ n_closed n' = n_closed n
    ∧ match s with Finished err => err = None | Submit p => blind_proposal p end.
Proof.
  intros Hq. unfold speculate. destruct (snapshot_no_error (n_engine n)) as [snap Es]. rewrite Es.
  destruct Hq as [k v Hk|k Hk|k delta Hk Hd]; cbn [run_prog set_prog get_prog add_prog].
  - unfold tx_Set. rewrite Hk. cbn [run_prog]. destruct (clock_Tick _) as [c [wall counter]].
    do 2 eexists. split; [reflexivity|]. split_and!; [done..|]. split; [reflexivity|]. constructor; [|constructor].
    split; [exact Hk|left; reflexivity].
  - unfold tx_Get. rewrite Hk. cbn [tx_snap new_tx]. destruct (snap_Get snap k) as [v|[|msg]] eqn:Ek;
      [| |by destruct (reads_no_error _ _ Es k msg) as [[] _]]; cbn [run_prog];
      (do 2 eexists; split; [reflexivity|split_and!; reflexivity]).
  - unfold tx_AtomicAdd. rewrite Hk. cbv zeta. cbn [tx_snap new_tx].
    destruct (snap_Get snap k) as [v|[|msg]] eqn:Ek;
      [| |by destruct (reads_no_error _ _ Es k msg) as [[] _]];
      (cbn [absent_ok]; destruct (Z.ltb_spec 0 delta); [|lia]; cbn [run_prog]);
    destruct (clock_Tick _) as [c [wall counter]];
    (do 2 eexists; split; [reflexivity|]; split_and!; [done..|]; split; [reflexivity|]; constructor; [|constructor];
    split; [exact Hk|right; right; left; reflexivity]).
Qed.
(** A single proposal does not close the proposer. *)
Lemma ApplyOneDirect_closed d p : d_closed (ApplyOneDirect clock_Observe d p).1 = d_closed d.
Proof.
  unfold ApplyOneDirect, applyBatchDirect. cbn [length].
  rewrite decide_True by (unfold maxStackShadow; lia). cbn [small_batch].
  unfold small_entry. cbv zeta. destruct (stack_conflict _ _ _ _); [done|].
  destruct (stack_writes _ _ _ _ _) as [[bat sh] ke]. unfold commit_batch. cbv zeta.
  by destruct (eng_ApplyBatch _ _ _) as [eng [e|]].
Qed.

(** An open node over an open direct proposer in a consistent state. *)
Definition node_ok n d : Prop :=
  n_closed n = false ∧ n_proposer n = PDirect d ∧ d_closed d = false ∧ dinv d.

Lemma propose_blind n d p : node_ok n d → blind_proposal p → d_index d + 1 < 2 ^ 64 →
  ∃ n' d', propose clock_Observe raft_Apply batcher_Wait n p = (n', inl res_ok)
    ∧ node_ok n' d' ∧ d_index d' = d_index d + 1.
Proof.
  intros (Hc & Hp & Hdc & Hd) [Hr Hcl] Hi.
  destruct (ApplyOneDirect_commits clock_Observe d p Hd Hcl Hi) as (d' & Ha & Hd' & _ & Hi').
  { unfold reads_exact. rewrite Hr. constructor. }
  unfold propose. rewrite Hp, Hdc, Ha. exists (set_proposer n (PDirect d')), d'.
  split; [done|]. split; [|done]. split_and!; [done|done| |done].
  pose proof (ApplyOneDirect_closed d p) as Hcd. by rewrite Ha, Hdc in Hcd.
Qed.

(** *** The invariant of a window *)

Definition phase_ok (ph : phase) : Prop :=
  match ph with
  | Trying fn _ _ => quiet_prog fn
  | Submitted _ _ _ p => blind_proposal p
  | _ => True
  end.

Definition worker_ok (w : worker) : Prop :=
  keys_ok (w_keys w) ∧ (8 ≤ length (w_buf w))%nat ∧ is_u64 (w_rng w) ∧ phase_ok (w_phase w).

Definition window_ok (win : window Eng Clock) d : Prop :=
  node_ok (win_node win) d ∧ Forall worker_ok (win_workers win)
  ∧ win_errs win = 0 ∧ win_conflicts win = 0.

Lemma window_ok_set win n d d' i w : window_ok win d → node_ok n d' → worker_ok w →
  window_ok (set_worker win n i w) d'.
Proof. intros (_ & Hw & He & Hc) Hn Hok. split_and!; try done. by apply Forall_insert. Qed.

Lemma window_ok_success win n d d' i w fn t0 k now : window_ok win d → node_ok n d' → worker_ok w →
  window_ok (end_attempt win n i w fn t0 k now None) d'.
Proof.
  intros (_ & Hw & He & Hc) (Hn1 & Hn2 & Hn3) (Hk & Hb & Hr & _). split_and!; try done.
  apply Forall_insert; [done|]. by split_and!.
Qed.

Context (work : workFn) (maxAttempts : nat) (end_ : Z) (Hwork : yields_quiet work).
Abbreviation worker_step := (worker_step clock_Observe clock_Tick rs_order raft_Apply batcher_Wait work maxAttempts end_).
Abbreviation run_window := (run_window clock_Observe clock_Tick rs_order raft_Apply batcher_Wait work maxAttempts end_).

Lemma step_ok win d now i : window_ok win d → d_index d + 1 < 2 ^ 64 →
  ∃ win' d', worker_step now i win = Some win' ∧ window_ok win' d' ∧ d_index d' <= d_index d + 1.
Proof.
  intros Hok Hi. pose proof Hok as (Hn & Hws & _). unfold Lab.worker_step.
  destruct (win_workers win !! i) as [w|] eqn:Hw; [|exists win, d; by split_and!; [..|lia]].
  pose proof (proj1 (Forall_lookup _ _) Hws _ _ Hw) as Hwok. pose proof Hwok as (Hk & Hb & Hr & Hp).
  destruct (w_phase w) as [| |fn t0 k|fn t0 k p|] eqn:Eph.
  - do 2 eexists. split; [reflexivity|]. split; [|apply Z.le_succ_diag_r].
    eapply window_ok_set; [done|done|]. split_and!; [done..|]. simpl. by destruct (now <? end_).
  - destruct (Hwork _ _ _ Hk Hb Hr) as (rng & buf & prog & -> & Hr' & Hb' & Hq). rewrite (proj1 Hn).
    do 2 eexists. split; [reflexivity|]. split; [|apply Z.le_succ_diag_r].
    eapply window_ok_set; [done|done|]. by split_and!.
  - destruct (speculate_quiet (win_node win) fn Hp) as (n' & s & -> & Hpr & Hcl & Hs).
    assert (node_ok n' d) as Hn' by (destruct Hn as (H1 & H2 & H3); split_and!; [congruence|congruence|apply H3..]).
    destruct s as [err|p]; [subst err|]; (do 2 eexists; split; [reflexivity|]; split; [|apply Z.le_succ_diag_r]).
    + by eapply window_ok_success.
    + eapply window_ok_set; [done|done|]. by split_and!.
  - destruct (propose_blind (win_node win) d p Hn Hp Hi) as (n' & d' & -> & Hn' & Hi').
    exists (end_attempt win n' i w fn t0 k now None), d'. split; [done|]. split; [by eapply window_ok_success|lia].
  - exists win, d. by split_and!; [..|lia].
Qed.

Lemma run_ok sched win d : window_ok win d → d_index d + Z.of_nat (length sched) < 2 ^ 64 →
  ∃ win' d', run_window sched win = Some win' ∧ window_ok win' d'
    ∧ d_index d' <= d_index d + Z.of_nat (length sched).
Proof.
  revert win d. induction sched as [|[i now] sched IH]; intros win d Hok Hi.
  { exists win, d. split_and!; [done|done|simpl; lia]. }
  rewrite length_cons in *. destruct (step_ok win d now i Hok) as (win1 & d1 & E & Hok1 & Hi1); [lia|].
  simpl. rewrite E. destruct (IH win1 d1 Hok1 ltac:(lia)) as (win' & d' & ? & ? & ?).
  exists win', d'. split_and!; [done|done|lia].
Qed.
End quiet.

Section windows.
Context {Eng Snap Bat : Type} `{EngineLaws Eng Snap Bat} `{!InfallibleEngine Eng Snap Bat}.
Context {Clock : Type} (clock_Observe : Clock → Z → Z → Clock) (clock_Tick : Clock → Clock * (Z * Z)).
Context (rs_order : readset → list ReadEntry).
Context (raft_Apply : dpxFSM Eng Clock → bytes → dpxFSM Eng Clock * (ApplyResult + txErr)).
Context (batcher_Wait : nat → option txErr).

(** The benchmark measures conflict-free work: on an open node over an open
    direct proposer in a good state, whose results reach their callers, and an
    engine that does not fail, each of the four workloads, in every
    interleaving of the workers' attempts, never panics, never reports an
    error and never exhausts its retries, so the conflict rate it prints is
    zero by construction; the node stays consistent. *)
Theorem workloads_never_conflict name n d ks valueSize maxAttempts end_ sched :
  is_Some (lookup_workload name) →
  n_closed n = false → n_proposer n = PDirect d → d_closed d = false → dinv d →
  Forall keys_ok ks → (8 ≤ valueSize)%nat → d_index d + Z.of_nat (length sched) < 2 ^ 64 →
  ∃ win d', run_window clock_Observe clock_Tick rs_order raft_Apply batcher_Wait (call_workload name)
              maxAttempts end_ sched (start_window n ks valueSize) = Some win
    ∧ win_errs win = 0 ∧ win_conflicts win = 0 ∧ n_proposer (win_node win) = PDirect d' ∧ dinv d'.
Proof.
  intros Hname Hc Hp Hdc Hd Hks Hv Hi.
  destruct (run_ok clock_Observe clock_Tick rs_order raft_Apply batcher_Wait (call_workload name) maxAttempts end_
    (known_workload_quiet name Hname) sched (start_window n ks valueSize) d) as (win & d' & Hr & (Hn & _ & He & Hcf) & _).
  - split_and!; try done. apply Forall_lookup. intros i w. simpl. rewrite list_lookup_imap.
    intros (ks' & Hk & ->)%fmap_Some. split_and!; simpl; [by eapply (Forall_lookup_1 _ _ _ _ Hks)| |apply u64_range|done].
    by rewrite length_replicate.
  - done.
  - exists win, d'. destruct Hn as (_ & Hn & _ & Hd'). done.
Qed.
End windows.

(** ** Concrete runs *)

Definition lab_window (name : string) (sched : list (nat * Z)) : option (window MemEngine unit) :=
  run_window no_clock tick rs_list no_raft no_wait (call_workload name) 3 100 sched
    (start_window (mem_node fresh) [[key_name 0; key_name 1]; [key_name 2]] 8).

(** Two workers whose attempts overlap. *)
Definition lab_sched : list (nat * Z) :=
  map (fun e => (Z.to_nat e.1, e.2))
    [(0, 1); (1, 1); (0, 2); (1, 3); (0, 4); (1, 5); (0, 9); (1, 11); (0, 120); (1, 120)].

Lemma window_accounts_witness : ∃ win, lab_window "write" lab_sched = Some win ∧ win_ops win = 2
  ∧ u64 (win_ops win) = u64 (Z.of_nat (length (mergeAndSort (map w_samples (win_workers win))))).
Proof.
  assert (win_ops <$> lab_window "write" lab_sched = Some 2) as Ho by (vm_compute; reflexivity).
  destruct (lab_window "write" lab_sched) as [win|] eqn:E; [|discriminate Ho].
  exists win. split; [reflexivity|]. split; [injection Ho; trivial|].
  destruct (window_accounts no_clock tick rs_list no_raft no_wait (call_workload "write") 3 100
    (mem_node fresh) [[key_name 0; key_name 1]; [key_name 2]] 8 lab_sched win 0 0 0 E) as (_ & Hl & _).
  exact Hl.
Defined.

Lemma workloads_never_conflict_witness : ∃ win, lab_window "mixed" lab_sched = Some win ∧ win_errs win = 0.
Proof.
  destruct (workloads_never_conflict no_clock tick rs_list no_raft no_wait "mixed" (mem_node fresh) fresh
    [[key_name 0; key_name 1]; [key_name 2]] 8 3 100 lab_sched) as (win & d' & Hr & He & _).
  - exists workloadMixed. reflexivity.
  - reflexivity.
  - reflexivity.
  - reflexivity.
  - apply fresh_dinv.
  - repeat constructor; (done || apply key_name_user).
  - lia.
  - vm_compute. reflexivity.
  - exists win. split; [exact Hr|exact He].
Defined.

Lemma seed_fills_witness : ∃ e, seed (map key_name [0; 1]) 10 (New : MemEngine) = Some e
  ∧ eng_abs e !! key_name 1 = Some (le64 (draws 2 42) ++ [x00; x00]).
Proof.
  destruct (seed_fills 2 10 (New : MemEngine)) as (ks & e & Hk & Hs & _ & Hl & _).
  - lia.
  - lia.
  - apply inv_New.
  - assert (ks = map key_name [0; 1]) as -> by (vm_compute in Hk; vm_compute; congruence).
    exists e. split; [exact Hs|]. apply (Hl 1). lia.
Defined.

(** ** Settings *)

(** Unknown engines, sync policies and key distributions are refused, an
    unknown workload is not: it panics in the first call of the first worker. *)
Lemma unknown_workload_panics :
  (∃ st, configure {| fl_engine := "memory"; fl_dir := ""; fl_workload := "writes"; fl_mode := "embedded";
                      fl_sync := "batch"; fl_keyDist := "random"; fl_runs := 0 |} = inl st
         ∧ st_workload st = "writes"%string ∧ st_numRuns st = 1)
  ∧ lab_window "writes" [(0%nat, 1); (0%nat, 2)] = None.
Proof. split; [eexists; split; [reflexivity|done]|vm_compute; reflexivity]. Qed.

(** Accepted settings have at least one run, so no average divides by zero. *)
Lemma configured_runs f st s rs :
  configure f = inl st → runs s = st_numRuns st → fl_runs f < 2 ^ 32 →
  is_Some (gc_per_run (add_counted s rs)).
Proof.
  unfold configure. destruct (choose_sync _); [|done]. case_decide; [done|].
  destruct (choose_engine _ _); [|done]. intros [= <-] Hr Hf. simpl in Hr.
  unfold gc_per_run. destruct (add_counted_fields s rs) as (-> & _).
  assert (0 < runs s < 2 ^ 32) as Hb by (rewrite Hr; destruct (Z.ltb_spec (fl_runs f) 1); lia).
  unfold u32. rewrite Z.mod_small by lia. destruct (Z.eqb_spec (runs s) 0); [lia|eauto].
Qed.
