(* ===== verification/LabRun.v ===== *)
(** * A whole benchmark

    [runBenchmark] of src/workspace/runner.go composed from its parts: key
    generation, distribution, seeding through the raw engine, warm-up and the
    timed runs. A worker's transaction goes to the proposer as in Node.v, which
    hands back the result of the proposal; the entry pool between them, through
    which a result can be lost, is in EntryPool.v. Windows end, and over a
    direct proposer that hands back its results a benchmark of a known workload
    reports no errors and no conflicts. *)

From S2P Require Import Prelude Types Wire EngineSpec Iter BTree Memory Fsm Occ Direct.
From S2P Require Import Tx Node NodeSpec Reopen Raft Batching Scenarios NodeProps NodeScenarios.
From S2P Require Import Batcher LabStats Lab LabProps LabWindow.

(** ** Definitions *)

Record runConfig := {
  rc_workload : string; rc_striped : bool; rc_concurrency : Z; rc_keys : Z; rc_valueSize : Z; rc_numRuns : Z;
}.

(** What the environment decides about one window: the interleaving with the
    clock, its end, and the measurements of the runtime. *)
Record windowEnv := { we_sched : list (nat * Z); we_end : Z; we_elapsed : Z; we_pauses : Z; we_gcs : Z }.

(** A benchmark ends, panics, or waits for workers that are still running. *)
Inductive benchOutcome (N : Type) := Ended (n : N) (s : runStats) | Panicked | Waiting.
Arguments Ended {N}. Arguments Panicked {N}. Arguments Waiting {N}.

Section bench.
Context {Eng Snap Bat : Type} `{StorageEngine Eng Snap Bat}.
Context {Clock : Type} (clock_Observe : Clock → Z → Z → Clock) (clock_Tick : Clock → Clock * (Z * Z)).
Context (rs_order : readset → list ReadEntry).
Context (raft_Apply : dpxFSM Eng Clock → bytes → dpxFSM Eng Clock * (ApplyResult + txErr)).
Context (batcher_Wait : nat → option txErr).
(** [Compact] of an engine that has it. *)
Context (eng_Compact : Eng → Eng).
Context (maxAttempts : nat).

Definition stopped (w : worker) : bool := match w_phase w with Stopped => true | _ => false end.

(** The engine of the node is written to behind its back. *)
Definition with_engine (n : Node Eng Clock) (e : Eng) : Node Eng Clock :=
  set_proposer n (set_proposer_fsm (n_proposer n) (set_engine (proposer_fsm (n_proposer n)) e)).

(** The warm-up: the workers of a window with other seeds, whose results are
    dropped. *)
Definition warm_window (n : Node Eng Clock) (workerKeys : list (list bytes)) (valueSize : nat) :
    window Eng Clock :=
  {| win_node := n; win_ops := 0; win_errs := 0; win_conflicts := 0;
     win_workers := imap (fun i ks => {| w_keys := ks; w_buf := replicate valueSize x00;
                                         w_rng := u64 (Z.of_nat i + 1); w_samples := [];
                                         w_phase := AtLoop |}) workerKeys |}.

Abbreviation run_window := (run_window clock_Observe clock_Tick rs_order raft_Apply batcher_Wait).

(** [for run := 1; run <= cfg.numRuns; run++]: the loop over the timed runs, of
    which [todo] remain; [envs run] is the environment's part of a run. *)
Fixpoint timed_runs (cfg : runConfig) (ks : list (list bytes)) (envs : Z → windowEnv) (todo : nat) (run : Z)
    (n : Node Eng Clock) (s : runStats) : benchOutcome (Node Eng Clock) :=
  match todo with
  | O => Ended n s
  | S todo =>
      if negb (run <=? rc_numRuns cfg) then Ended n s else
      let env := envs run in
      match run_window (call_workload (rc_workload cfg)) maxAttempts (we_end env) (we_sched env)
              (start_window n ks (Z.to_nat (rc_valueSize cfg))) with
      | None => Panicked
      | Some win =>
          if forallb stopped (win_workers win) then
            let r := window_result win (we_elapsed env) (we_pauses env) (we_gcs env) in
            timed_runs cfg ks envs todo (run + 1) (win_node win)
              (add s r ((run =? 1) && (1 <? rc_numRuns cfg)))
          else Waiting
      end
  end.

(** runBenchmark; from run 1 the loop makes [numRuns] iterations, none if that
    is not positive. *)
Definition runBenchmark (cfg : runConfig) (warm : windowEnv) (envs : Z → windowEnv) (n : Node Eng Clock) :
    benchOutcome (Node Eng Clock) :=
  match gen_keys (rc_keys cfg) with
  | None => Panicked
  | Some allKeys =>
      match workerKeys (rc_striped cfg) allKeys (rc_concurrency cfg) with
      | None => Panicked
      | Some ks =>
          match seed allKeys (rc_valueSize cfg) (n_engine n) with
          | None => Panicked
          | Some e =>
              let e := if decide (rc_workload cfg ≠ "read"%string) then eng_Compact e else e in
              let n := with_engine n e in
              match run_window (call_workload (rc_workload cfg)) maxAttempts (we_end warm) (we_sched warm)
                      (warm_window n ks (Z.to_nat (rc_valueSize cfg))) with
              | None => Panicked
              | Some win =>
                  if forallb stopped (win_workers win)
                  then timed_runs cfg ks envs (Z.to_nat (rc_numRuns cfg)) 1 (win_node win) (newRunStats (rc_numRuns cfg))
                  else Waiting
              end
          end
      end
  end.
End bench.

(** ** Windows end *)

Section ends.
Context {Eng Snap Bat : Type} `{EngineLaws Eng Snap Bat} `{!InfallibleEngine Eng Snap Bat}.
Context {Clock : Type} (clock_Observe : Clock → Z → Z → Clock) (clock_Tick : Clock → Clock * (Z * Z)).
Context (rs_order : readset → list ReadEntry).
Context (raft_Apply : dpxFSM Eng Clock → bytes → dpxFSM Eng Clock * (ApplyResult + txErr)).
Context (batcher_Wait : nat → option txErr).
Context (work : workFn) (maxAttempts : nat) (end_ : Z) (Hwork : yields_quiet work).
Implicit Types win : window Eng Clock.
Abbreviation worker_step := (worker_step clock_Observe clock_Tick rs_order raft_Apply batcher_Wait work maxAttempts end_).
Abbreviation run_window := (run_window clock_Observe clock_Tick rs_order raft_Apply batcher_Wait work maxAttempts end_).

(** The turns a worker needs to leave its loop once the time is over. *)
Definition turns_left (w : worker) : nat :=
  match w_phase w with Stopped => 0 | AtLoop => 1 | Submitted _ _ _ _ => 2 | Trying _ _ _ => 3 | InLoop => 4 end.

Lemma insert_other (l : list worker) i j w w' : l !! j = Some w → (i = j → (turns_left w' ≤ turns_left w - 1)%nat) →
  ∃ w2, <[i := w']> l !! j = Some w2 ∧ (turns_left w2 ≤ turns_left w - (if decide (i = j) then 1 else 0))%nat.
Proof.
  intros Hj Hr. case_decide as Hij; [subst; exists w'|exists w].
  - rewrite list_lookup_insert_eq by (by eapply lookup_lt_Some). auto.
  - rewrite list_lookup_insert_ne by done. split; [done|lia].
Qed.

Lemma step_turns win d now i win' j w : window_ok win d → d_index d + 1 < 2 ^ 64 → end_ <= now →
  worker_step now i win = Some win' → win_workers win !! j = Some w →
  ∃ w', win_workers win' !! j = Some w' ∧ (turns_left w' ≤ turns_left w - (if decide (i = j) then 1 else 0))%nat.
Proof.
  intros Hok Hi Hnow Hstep Hj. pose proof Hok as (Hn & Hws & _). unfold Lab.worker_step in Hstep.
  destruct (win_workers win !! i) as [wi|] eqn:Hw.
  2: { simplify_eq. exists w. split; [done|]. case_decide; [congruence|lia]. }
  pose proof (proj1 (Forall_lookup _ _) Hws _ _ Hw) as (Hk & Hb & Hr & Hp).
  assert (i = j → wi = w) as Heq by congruence.
  destruct (w_phase wi) as [| |fn t0 k|fn t0 k p|] eqn:Eph.
  - simplify_eq. destruct (Z.ltb_spec now end_); [lia|]. apply insert_other; [done|]. intros _. apply Nat.le_0_l.
  - destruct (Hwork _ _ _ Hk Hb Hr) as (rng & buf & prog & Ew & _). rewrite Ew, (proj1 Hn) in Hstep. simplify_eq.
    apply insert_other; [done|]. intros ?%Heq. subst wi. unfold turns_left. rewrite Eph. simpl. lia.
  - destruct (speculate_quiet clock_Tick rs_order (win_node win) fn Hp) as (n' & s & Es & _ & _ & Hs). rewrite Es in Hstep.
    destruct s as [err|p]; [subst err|]; simplify_eq; (apply insert_other; [done|]); intros ?%Heq; subst wi;
      unfold turns_left; rewrite Eph; simpl; lia.
  - destruct (propose_blind clock_Observe raft_Apply batcher_Wait (win_node win) d p Hn Hp Hi) as (n' & d' & Epr & _).
    rewrite Epr in Hstep. simplify_eq. apply insert_other; [done|]. intros ?%Heq. subst wi.
    unfold turns_left. rewrite Eph. simpl. lia.
  - simplify_eq. exists w. split; [done|]. case_decide as Hij; [|lia]. rewrite <- (Heq Hij).
    unfold turns_left. rewrite Eph. lia.
Qed.

(** The turns a schedule gives to worker [j]. *)
Definition turns (j : nat) (sched : list (nat * Z)) : nat := length (filter (fun e => e.1 = j) sched).

Lemma run_turns sched win d win' j w : window_ok win d → d_index d + Z.of_nat (length sched) < 2 ^ 64 →
  Forall (fun e => end_ <= e.2) sched → run_window sched win = Some win' → win_workers win !! j = Some w →
  ∃ w', win_workers win' !! j = Some w' ∧ (turns_left w' ≤ turns_left w - turns j sched)%nat.
Proof.
  intros Hok Hi Hs. revert win d w Hok Hi. induction Hs as [|[i now] sched Hnow _ IH]; intros win d w Hok Hi Hrun Hj.
  - simpl in Hrun. simplify_eq. exists w. split; [done|]. unfold turns. simpl. lia.
  - rewrite length_cons in Hi. simpl in Hrun.
    destruct (step_ok clock_Observe clock_Tick rs_order raft_Apply batcher_Wait work maxAttempts end_ Hwork win d now i Hok)
      as (win1 & d1 & E & Hok1 & Hi1); [lia|]. rewrite E in Hrun.
    destruct (step_turns win d now i win1 j w Hok ltac:(lia) Hnow E Hj) as (w1 & Hj1 & Ht1).
    destruct (IH win1 d1 w1 Hok1 ltac:(lia) Hrun Hj1) as (w' & Hj' & Ht'). exists w'. split; [done|].
    unfold turns in *. rewrite filter_cons. simpl. case_decide; simpl; lia.
Qed.
Lemma step_length win now i win' : worker_step now i win = Some win' →
  length (win_workers win') = length (win_workers win).
Proof.
  unfold Lab.worker_step, end_attempt, count_call. intros Hs.
  repeat (case_match || simplify_eq); try done; cbn [win_workers set_worker]; apply length_insert.
Qed.

Lemma run_length sched win win' : run_window sched win = Some win' →
  length (win_workers win') = length (win_workers win).
Proof.
  revert win. induction sched as [|[i now] sched IH]; intros win; simpl; [by intros [= <-]|].
  destruct (worker_step now i win) as [win1|] eqn:E; [|done]. intros ->%IH. by eapply step_length.
Qed.

(** A schedule that lets every one of [c] workers leave its loop: after some
    point the time is over and each still gets four turns. *)
Definition ending (c : nat) (sched : list (nat * Z)) : Prop :=
  ∃ pre post, sched = pre ++ post ∧ Forall (fun e => end_ <= e.2) post
    ∧ ∀ j, (j < c)%nat → (4 ≤ turns j post)%nat.

Lemma run_window_app s1 s2 win : run_window (s1 ++ s2) win = run_window s1 win ≫= run_window s2.
Proof.
  revert win. induction s1 as [|[i now] s1 IH]; intros win; simpl; [done|].
  destruct (worker_step now i win); [apply IH|done].
Qed.

(** A window over quiet work runs to its end. *)
Lemma window_ends win d sched : window_ok win d → d_index d + Z.of_nat (length sched) < 2 ^ 64 →
  ending (length (win_workers win)) sched →
  ∃ win' d', run_window sched win = Some win' ∧ window_ok win' d'
    ∧ d_index d' <= d_index d + Z.of_nat (length sched)
    ∧ forallb stopped (win_workers win') = true.
Proof.
  intros Hok Hi (pre & post & -> & Hpost & Hturns). rewrite length_app in *.
  destruct (run_ok clock_Observe clock_Tick rs_order raft_Apply batcher_Wait work maxAttempts end_ Hwork pre win d Hok)
    as (win1 & d1 & E1 & Hok1 & Hi1); [lia|].
  destruct (run_ok clock_Observe clock_Tick rs_order raft_Apply batcher_Wait work maxAttempts end_ Hwork post win1 d1 Hok1)
    as (win2 & d2 & E2 & Hok2 & Hi2); [lia|].
  exists win2, d2. rewrite run_window_app, E1. split_and!; [done|done|lia|].
  pose proof (run_length _ _ _ E1) as L1. pose proof (run_length _ _ _ E2) as L2.
  apply forallb_forall. intros w Hw%list_elem_of_In%list_elem_of_lookup. destruct Hw as [j Hj].
  pose proof (lookup_lt_Some _ _ _ Hj) as Hlt.
  destruct (lookup_lt_is_Some_2 (win_workers win1) j) as [w1 Hj1]; [lia|].
  destruct (run_turns post win1 d1 win2 j w1 Hok1 ltac:(lia) Hpost E2 Hj1) as (w' & Hj' & Ht).
  simplify_eq. specialize (Hturns j ltac:(lia)).
  assert (turns_left w1 ≤ 4)%nat by (unfold turns_left; case_match; lia).
  assert (turns_left w = 0)%nat as Hz by lia. unfold turns_left in Hz. unfold stopped. by case_match.
Qed.
End ends.

(** ** Benchmarks *)

Section benchmarks.
Context {Eng Snap Bat : Type} `{EngineLaws Eng Snap Bat} `{!InfallibleEngine Eng Snap Bat}.
Context {Clock : Type} (clock_Observe : Clock → Z → Z → Clock) (clock_Tick : Clock → Clock * (Z * Z)).
Context (rs_order : readset → list ReadEntry).
Context (raft_Apply : dpxFSM Eng Clock → bytes → dpxFSM Eng Clock * (ApplyResult + txErr)).
Context (batcher_Wait : nat → option txErr).
(** Compaction changes the layout of an engine and not its contents. *)
Context (eng_Compact : Eng → Eng).
Context (compact_law : ∀ e, eng_inv e → eng_inv (eng_Compact e) ∧ eng_abs (eng_Compact e) = eng_abs e).
Context (maxAttempts : nat).
Implicit Types n : Node Eng Clock.
Implicit Types d : directProposer Eng Clock.

(** Writing unreserved keys behind the node's back keeps its versions. *)
Lemma with_engine_ok n d e : node_ok n d → eng_inv e →
  (∀ k, isReserved k = true → eng_abs e !! k = d_store d !! k) →
  ∃ d', node_ok (with_engine n e) d' ∧ d_index d' = d_index d.
Proof.
  intros (Hc & Hp & Hdc & Hd) He Hk. exists (set_fsm d (set_engine (d_fsm d) e)).
  assert (∀ k, ver (eng_abs e) k = ver (d_store d) k) as Hver.
  { intros k. unfold ver. rewrite Hk; [done|]. apply isReserved_versionKey. }
  split; [|done]. split_and!; [done|unfold with_engine; by rewrite Hp|done|].
  destruct Hd as [_ Hke Hix Hbd]. split; [done| |done|]; intros k Hu; unfold d_store; simpl; rewrite Hver;
    [by apply Hke|by apply Hbd].
Qed.

Definition sched_size (envs : list windowEnv) : Z := sumZ (map (fun env => Z.of_nat (length (we_sched env))) envs).

Lemma sched_size_nonneg envs : 0 <= sched_size envs.
Proof. unfold sched_size. induction envs; simpl; lia. Qed.

Lemma start_ok n d ks valueSize rng : node_ok n d → Forall keys_ok ks → (8 ≤ valueSize)%nat →
  window_ok {| win_node := n; win_ops := 0; win_errs := 0; win_conflicts := 0;
               win_workers := imap (fun i ks => {| w_keys := ks; w_buf := replicate valueSize x00;
                 w_rng := u64 (rng i); w_samples := []; w_phase := AtLoop |}) ks |} d.
Proof.
  intros Hn Hks Hv. split_and!; [done| |done|done]. apply Forall_lookup. intros i w. simpl. rewrite list_lookup_imap.
  intros (ks' & Hk & ->)%fmap_Some.
  split_and!; simpl; [by eapply (Forall_lookup_1 _ _ _ _ Hks)|by rewrite length_replicate|apply u64_range|done].
Qed.

Lemma timed_runs_ok cfg ks envs todo run n d s :
  run + Z.of_nat todo = rc_numRuns cfg + 1 →
  is_Some (lookup_workload (rc_workload cfg)) → node_ok n d → Forall keys_ok ks → 8 <= rc_valueSize cfg →
  Forall (fun env => ending (we_end env) (length ks) (we_sched env)) (map envs (seqZ run (Z.of_nat todo))) →
  d_index d + sched_size (map envs (seqZ run (Z.of_nat todo))) < 2 ^ 64 → totalErrors s = 0 → totalConflicts s = 0 →
  ∃ n' s' d', timed_runs clock_Observe clock_Tick rs_order raft_Apply batcher_Wait maxAttempts cfg ks envs todo run n s
              = Ended n' s'
    ∧ totalErrors s' = 0 ∧ totalConflicts s' = 0 ∧ node_ok n' d'
    ∧ length (tpsSamples s') = (length (tpsSamples s) + todo)%nat.
Proof.
  intros Hrun Hname Hn Hks Hv. revert run n d s Hrun Hn.
  induction todo as [|todo IH]; intros run n d s Hrun Hn Hends Hi He Hc.
  { exists n, s, d. split_and!; try done; lia. }
  rewrite seqZ_cons in Hends, Hi by lia. replace (Z.pred (Z.of_nat (S todo))) with (Z.of_nat todo) in Hends, Hi by lia.
  cbn [map] in Hends, Hi. apply Forall_cons in Hends as [Hend Hends]. set (env := envs run) in *.
  change (Z.succ run) with (run + 1) in Hends, Hi.
  pose proof (sched_size_nonneg (map envs (seqZ (run + 1) (Z.of_nat todo)))) as Hnn.
  change (d_index d + (Z.of_nat (length (we_sched env)) + sched_size (map envs (seqZ (run + 1) (Z.of_nat todo)))) < 2 ^ 64)
    in Hi. cbn [timed_runs].
  destruct (Z.leb_spec run (rc_numRuns cfg)) as [_|?]; [|lia]. cbn [negb]. fold env.
  destruct (window_ends clock_Observe clock_Tick rs_order raft_Apply batcher_Wait (call_workload (rc_workload cfg))
    maxAttempts (we_end env) (known_workload_quiet _ Hname) (start_window n ks (Z.to_nat (rc_valueSize cfg))) d (we_sched env))
    as (win & d1 & -> & (Hn1 & _ & He1 & Hc1) & Hi1 & ->).
  { apply (start_ok n d ks _ (fun i => Z.of_nat i + 1 + 9999)); [done|done|lia]. }
  { lia. }
  { simpl. rewrite length_imap. exact Hend. }
  destruct (IH (run + 1) (win_node win) d1 (add s (window_result win (we_elapsed env) (we_pauses env) (we_gcs env))
    ((run =? 1) && (1 <? rc_numRuns cfg))) ltac:(lia) Hn1 Hends ltac:(lia)) as (n' & s' & d' & -> & ? & ? & ? & Hl).
  1,2: unfold add; destruct (_ && _); simpl; rewrite ?He1, ?Hc1, ?He, ?Hc; reflexivity.
  exists n', s', d'. split_and!; try done. rewrite Hl. cbn [length].
  assert (length (tpsSamples (add s (window_result win (we_elapsed env) (we_pauses env) (we_gcs env))
    ((run =? 1) && (1 <? rc_numRuns cfg)))) = S (length (tpsSamples s))) as ->
    by (unfold add; destruct (_ && _); simpl; rewrite length_app; simpl; lia). lia.
Qed.

(** A benchmark runs to its end and reports what happened: on an open node over
    an open direct proposer in a good state that hands back every result, and an
    engine that does not fail, with a known workload, at least one key and fewer
    than 2^63, values of at least eight bytes, a non-negative number of workers
    and runs, and no overflow of the 64-bit index, [runBenchmark] does not panic,
    and every interleaving in which the workers get their turns ends with one
    throughput sample per run, no errors and no conflicts; the node is in a good
    state afterwards. *)
Theorem benchmark_clean cfg warm envs n d :
  is_Some (lookup_workload (rc_workload cfg)) →
  n_closed n = false → n_proposer n = PDirect d → d_closed d = false → dinv d →
  0 < rc_keys cfg < 2 ^ 63 → 0 <= rc_concurrency cfg → 0 <= rc_numRuns cfg → 8 <= rc_valueSize cfg →
  Forall (fun env => ending (we_end env) (Z.to_nat (rc_concurrency cfg)) (we_sched env))
    (warm :: map envs (seqZ 1 (rc_numRuns cfg))) →
  d_index d + sched_size (warm :: map envs (seqZ 1 (rc_numRuns cfg))) < 2 ^ 64 →
  ∃ n' s d', runBenchmark clock_Observe clock_Tick rs_order raft_Apply batcher_Wait eng_Compact maxAttempts
               cfg warm envs n = Ended n' s
    ∧ Z.of_nat (length (tpsSamples s)) = rc_numRuns cfg ∧ totalErrors s = 0 ∧ totalConflicts s = 0
    ∧ n_proposer n' = PDirect d' ∧ dinv d'.
Proof.
  intros Hname Hc Hp Hdc Hd Hk Hcc Hr0 Hv Hends Hi.
  assert (node_ok n d) as Hn by done.
  assert (n_engine n = f_engine (d_fsm d)) as En by (unfold n_engine; by rewrite Hp).
  destruct (worker_slices (rc_keys cfg) (rc_concurrency cfg) (rc_striped cfg) Hk Hcc) as (ks & ws & Eks & _ & Ews & Hlen & Hws & _).
  destruct (gen_keys_spec (rc_keys cfg) ltac:(lia)) as (ks' & Eks' & Hl' & _ & Hu & _). rewrite Eks in Eks'. simplify_eq.
  destruct (seed_spec ks' (rc_valueSize cfg) (n_engine n) Hv) as (e & Hs & He & Ha); [rewrite En; apply Hd|].
  set (e1 := if decide (rc_workload cfg ≠ "read"%string) then eng_Compact e else e).
  assert (eng_inv e1 ∧ eng_abs e1 = eng_abs e) as [He1 Ha1] by (unfold e1; case_decide; auto).
  destruct (with_engine_ok n d e1 Hn He1) as (d1 & Hn1 & Hi1).
  { intros k Hk'. rewrite Ha1, Ha, En. apply lookup_seed_other. intros Hin.
    rewrite Forall_forall in Hu. by rewrite (Hu _ Hin) in Hk'. }
  assert (Forall keys_ok ws) as Hkeys.
  { eapply Forall_impl; [exact Hws|]. intros w (? & _ & ? & ?). split_and!; [done|lia|done]. }
  set (evs := map envs (seqZ 1 (rc_numRuns cfg))) in *.
  pose proof (sched_size_nonneg evs). unfold sched_size in Hi. simpl in Hi. fold (sched_size evs) in Hi.
  apply Forall_cons in Hends as [Hwarm Hends]. rewrite <- Hlen in Hwarm, Hends.
  destruct (window_ends clock_Observe clock_Tick rs_order raft_Apply batcher_Wait (call_workload (rc_workload cfg))
    maxAttempts (we_end warm) (known_workload_quiet _ Hname)
    (warm_window (with_engine n e1) ws (Z.to_nat (rc_valueSize cfg))) d1 (we_sched warm))
    as (win & d2 & Ew & (Hn2 & _) & Hi2 & Est).
  { apply (start_ok _ d1 ws _ (fun i => Z.of_nat i + 1)); [done|done|lia]. }
  { lia. }
  { simpl. rewrite length_imap. exact Hwarm. }
  destruct (timed_runs_ok cfg ws envs (Z.to_nat (rc_numRuns cfg)) 1 (win_node win) d2 (newRunStats (rc_numRuns cfg)))
    as (n' & s & d' & Er & Hte & Htc & Hn' & Hl);
    [lia|done|done|done|done|rewrite Z2Nat.id by done; exact Hends|rewrite Z2Nat.id by done; fold evs; lia|done|done|].
  exists n', s, d'. unfold runBenchmark. rewrite Eks, Ews, Hs. fold e1. cbv zeta. rewrite Ew, Est.
  split; [exact Er|]. split; [rewrite Hl; cbn; lia|]. destruct Hn' as (_ & ? & _ & ?). done.
Qed.
End benchmarks.

(** ** A concrete benchmark *)

Definition last_turns : list (nat * Z) := concat (replicate 4 [(0%nat, 200); (1%nat, 200)]).

Definition lab_env : windowEnv :=
  {| we_sched := lab_sched ++ last_turns; we_end := 100; we_elapsed := second; we_pauses := 0; we_gcs := 0 |}.

Definition lab_config : runConfig :=
  {| rc_workload := "mixed"; rc_striped := true; rc_concurrency := 2; rc_keys := 3; rc_valueSize := 8;
     rc_numRuns := 2 |}.

Lemma lab_env_ending : ending 100 2 (we_sched lab_env).
Proof.
  exists lab_sched, last_turns. split; [reflexivity|].
  split; [apply (bool_decide_unpack _); vm_compute; exact I|].
  intros [|[|j]] Hj; [reflexivity|reflexivity|lia].
Qed.

Lemma benchmark_clean_witness : ∃ n' s,
  runBenchmark no_clock tick rs_list no_raft no_wait id 3 lab_config lab_env (fun _ => lab_env) (mem_node fresh)
  = Ended n' s ∧ totalErrors s = 0 ∧ Z.of_nat (length (tpsSamples s)) = 2.
Proof.
  destruct (benchmark_clean no_clock tick rs_list no_raft no_wait (id : MemEngine → MemEngine)
    (fun e He => conj He eq_refl) 3 lab_config lab_env (fun _ => lab_env) (mem_node fresh) fresh)
    as (n' & s & d' & Hr & Hl & He & _).
  - exists workloadMixed. reflexivity.
  - reflexivity.
  - reflexivity.
  - reflexivity.
  - apply fresh_dinv.
  - simpl. lia.
  - simpl. lia.
  - simpl. lia.
  - simpl. lia.
  - repeat constructor; apply lab_env_ending.
  - vm_compute. reflexivity.
  - exists n', s. split; [exact Hr|]. split; [exact He|exact Hl].
Defined.
