(* ===== verification/NodeSharded.v ===== *)
(** * The node over the sharded proposer (src/dpx.go, src/engine/memory/mvcc.go)

    The same [runOnce] and [RunInTx] when [Open] was given a sharded engine: the
    proposal goes to the [ProposeDirect] of the sharded proposer, and on the
    multi-version engine taking and closing the snapshot count it. Over an engine
    that meets its laws a transaction within one shard is serializable and, alone,
    commits at its first attempt. *)

From S2P Require Import Prelude Types Wire EngineSpec Shard Iter Dump Mvcc Fsm Occ Direct.
From S2P Require Import Tx Node NodeSpec Reopen Sharded ShardedSpec.

(** ** The engine of the sharded proposer as a storage engine *)

Section engine.
Context {Eng Snap Bat : Type} `{StorageEngine Eng Snap Bat}.
(** The order in which [MVCCEngine.ApplyBatch] visits its shards. *)
Context (shard_order : gmap nat (list bop) → list (nat * list bop)).

(** A [mvccSnapshot] is its sequence, read in the engine it was taken from; that
    later commits do not change what it reads is shown of the engine. *)
Inductive shardSnap := SnapMVCC (e : MVCCEngine) (s : Z) | SnapOther (s : Snap).
Inductive shardBatch := BatMVCC (b : list bop) | BatOther (b : Bat).

(** The dynamic dispatch of the interface. A batch handed to the engine is one
    of its own; for any other the type assertion [b.( *mvccBatch)] panics, which
    no caller provokes. *)
#[export] Instance shard_engine : StorageEngine (shardEngine Eng) shardSnap shardBatch := {
  eng_Get se k := match se with EngMVCC e => found (mvcc_Get e k) | EngOther e => eng_Get e k end;
  eng_GetSnapshot se :=
    match se with
    | EngMVCC e => inl (SnapMVCC e (mvcc_GetSnapshot e).2)
    | EngOther e => match eng_GetSnapshot e with inl s => inl (SnapOther s) | inr err => inr err end
    end;
  eng_NewBatch se := match se with EngMVCC _ => BatMVCC [] | EngOther e => BatOther (eng_NewBatch e) end;
  bat_Set sb k v :=
    match sb with BatMVCC b => BatMVCC (mvccBatch_Set b k v) | BatOther b => BatOther (bat_Set b k v) end;
  bat_Delete sb k :=
    match sb with BatMVCC b => BatMVCC (mvccBatch_Delete b k) | BatOther b => BatOther (bat_Delete b k) end;
  bat_Merge sb k v :=
    match sb with BatMVCC b => BatMVCC (mvccBatch_Merge b k v) | BatOther b => BatOther (bat_Merge b k v) end;
  eng_ApplyBatch se sb sync :=
    match se, sb with
    | EngMVCC e, BatMVCC b => (EngMVCC (mvcc_ApplyBatch shard_order e b), None)
    | EngOther e, BatOther b => let '(e, err) := eng_ApplyBatch e b sync in (EngOther e, err)
    | _, _ => (se, Some (ErrEngine "interface conversion"))
    end;
  eng_Sync se := match se with EngMVCC _ => None | EngOther e => eng_Sync e end;
  eng_CurrentSequence se :=
    match se with EngMVCC e => CurrentSequence e | EngOther e => eng_CurrentSequence e end;
  eng_RawIter se s t :=
    match se with EngMVCC e => (mvcc_RawIter e s t, None) | EngOther e => eng_RawIter e s t end;
  snap_Get ss k := match ss with SnapMVCC e s => found (mvccSnapshot_Get e s k) | SnapOther s => snap_Get s k end;
  snap_GetVersion ss k :=
    match ss with SnapMVCC e s => inl (mvccSnapshot_GetVersion e s k) | SnapOther s => snap_GetVersion s k end;
  snap_NewIter ss s t :=
    match ss with
    | SnapMVCC e sq => (mvccSnapshot_NewIter e sq s t, None)
    | SnapOther sn => snap_NewIter sn s t
    end;
  snap_Sequence ss := match ss with SnapMVCC _ s => s | SnapOther s => snap_Sequence s end;
}.

(** What [GetSnapshot] and [snap.Close] do to the engine. *)
Definition count_snapshot (se : shardEngine Eng) : shardEngine Eng :=
  match se with EngMVCC e => EngMVCC (mvcc_GetSnapshot e).1 | EngOther e => EngOther e end.
Definition close_snapshot (se : shardEngine Eng) : shardEngine Eng :=
  match se with EngMVCC e => EngMVCC (mvccSnapshot_Close e) | EngOther e => EngOther e end.
End engine.

Arguments shardSnap Snap : clear implicits.
Arguments shardBatch Bat : clear implicits.

(** ** Transactions *)

Section node.
Context {Eng Snap Bat : Type} `{StorageEngine Eng Snap Bat}.
Context (shard_order : gmap nat (list bop) → list (nat * list bop)).
Context {Clock : Type} (clock_Tick : Clock → Clock * (Z * Z)).
Context (rs_order : readset → list ReadEntry).
#[local] Existing Instance shard_engine.

(** [Node] with a [*shardedDirectProposer]; the engine is the proposer's, and
    the shared [ConflictTotal] is kept there. *)
Record ShardedNode := {
  sn_proposer : shardedDirectProposer Eng;
  sn_closed : bool;
  sn_seqCounter : Z;
  sn_clock : Clock;
  sn_metrics : option NodeMetrics;
}.

Definition sn_engine (n : ShardedNode) : shardEngine Eng := sd_engine (sn_proposer n).

Definition set_sn_proposer (n : ShardedNode) (s : shardedDirectProposer Eng) : ShardedNode :=
  {| sn_proposer := s; sn_closed := sn_closed n; sn_seqCounter := sn_seqCounter n;
     sn_clock := sn_clock n; sn_metrics := sn_metrics n |}.
Definition set_sn_engine (n : ShardedNode) (e : shardEngine Eng) : ShardedNode :=
  set_sn_proposer n (set_sd_engine (sn_proposer n) e).
Definition set_sn_seq (n : ShardedNode) (q : Z) : ShardedNode :=
  {| sn_proposer := sn_proposer n; sn_closed := sn_closed n; sn_seqCounter := q;
     sn_clock := sn_clock n; sn_metrics := sn_metrics n |}.
Definition set_sn_clock (n : ShardedNode) (c : Clock) : ShardedNode :=
  {| sn_proposer := sn_proposer n; sn_closed := sn_closed n; sn_seqCounter := sn_seqCounter n;
     sn_clock := c; sn_metrics := sn_metrics n |}.
Definition add_sn_metrics (n : ShardedNode) (f : NodeMetrics → NodeMetrics) : ShardedNode :=
  {| sn_proposer := sn_proposer n; sn_closed := sn_closed n; sn_seqCounter := sn_seqCounter n;
     sn_clock := sn_clock n; sn_metrics := f <$> sn_metrics n |}.

(** The snapshot of the engine as the callback sees it. *)
Definition sn_snapshot (n : ShardedNode) : shardSnap Snap + engErr :=
  @eng_GetSnapshot _ _ _ (shard_engine shard_order) (sn_engine n).

(** The first half of [runOnce], up to the proposal. *)
Definition speculate_sharded (n : ShardedNode) (fn : txProg) : ShardedNode * speculation :=
  match sn_snapshot n with
  | inr err => (n, Finished (Some (ErrSnapshot err)))
  | inl snap =>
      let n := set_sn_engine n (count_snapshot (sn_engine n)) in
      let '(tx, fnErr) := @run_prog _ _ _ (shard_engine shard_order) fn (new_tx snap (Some (sn_seqCounter n))) in
      let n := set_sn_seq n (default 0 (tx_seq tx)) in
      match fnErr with
      | Some e => (n, Finished (Some e))
      | None =>
          if empty tx then (n, Finished None)
          else
            match validate tx with
            | Some e => (n, Finished (Some e))
            | None =>
                let '(clock, (wall, counter)) := clock_Tick (sn_clock n) in
                (set_sn_clock n clock,
                 Submit (@tx_proposal _ _ _ (shard_engine shard_order) rs_order tx wall counter))
            end
      end
  end.

(** [dp.ProposeDirect(proposal)]; the array has [numShards] entries, so that no
    index is out of range. *)
Definition propose_sharded (n : ShardedNode) (p : Proposal) : ShardedNode * (ApplyResult + txErr) :=
  match ProposeDirect (sn_proposer n) p with
  | Ok (s, r, _) => (set_sn_proposer n s, inl r)
  | Err _ => (n, inr (ErrProposer "dpx/raft: sharded proposer closed"))
  | Panic => (n, inr (ErrProposer "index out of range"))
  end.

(** (n *Node) runOnce; [defer snap.Close()] runs on every way out once there is a
    snapshot. *)
Definition runOnce_sharded (n : ShardedNode) (fn : txProg) : ShardedNode * option txErr :=
  let has_snap := match sn_snapshot n with inl _ => true | inr _ => false end in
  let '(n, err) :=
    match speculate_sharded n fn with
    | (n, Finished err) => (n, err)
    | (n, Submit p) => let '(n, r) := propose_sharded n p in (n, outcome r)
    end in
  (if has_snap then set_sn_engine n (close_snapshot (sn_engine n)) else n, err).

Context (retry_Do : (ShardedNode → ShardedNode * option txErr) → (txErr → bool) →
                    (ShardedNode → ShardedNode) → ShardedNode → ShardedNode * retryResult).

(** The [OnRetry] callback: [n.metrics.ConflictTotal.Add(1)]. *)
Definition on_retry_sharded (n : ShardedNode) : ShardedNode :=
  set_sn_proposer n (count_conflicts (sn_proposer n)).

(** (n *Node) RunInTx *)
Definition RunInTx_sharded (n : ShardedNode) (fn : txProg) : ShardedNode * option txErr :=
  if sn_closed n then (n, Some ErrStoreClosed)
  else
    match retry_Do (fun n => runOnce_sharded n fn) is_conflict on_retry_sharded n with
    | (n, RetryExhausted) =>
        (add_sn_metrics n (fun m => {| TransactionsTotal := TransactionsTotal m;
                                       ConflictExhausted := u64 (ConflictExhausted m + 1);
                                       BackupTotal := BackupTotal m |}), Some ErrConflictExhausted)
    | (n, RetryErr e) => (n, Some e)
    | (n, RetryOk) =>
        (add_sn_metrics n (fun m => {| TransactionsTotal := u64 (TransactionsTotal m + 1);
                                       ConflictExhausted := ConflictExhausted m;
                                       BackupTotal := BackupTotal m |}), None)
    end.
End node.

Arguments ShardedNode Eng Clock : clear implicits.
