(* ===== verification/NodeShardedSpec.v ===== *)
(** * Transactions over the sharded proposer

    On an engine that meets its laws: a committed transaction within one shard is
    equivalent to running its callback at the moment of the commit, and alone on
    the node it commits at its first attempt. *)

From S2P Require Import Prelude Types Wire EngineSpec Shard Iter Dump Mvcc Fsm Occ Direct.
From S2P Require Import Tx Node NodeSpec Reopen Sharded ShardedSpec NodeProps NodeSharded.

(** ** The callback on the wrapped snapshot *)

Section lift.
Context {Eng Snap Bat : Type} `{StorageEngine Eng Snap Bat}.
Context (shard_order : gmap nat (list bop) → list (nat * list bop)).
Context (rs_order : readset → list ReadEntry).
#[local] Existing Instance shard_engine.

Definition lift_tx (tx : dpxTx Snap) : dpxTx (shardSnap Snap) :=
  {| tx_snap := SnapOther (tx_snap tx); readSet := readSet tx; writes := writes tx; tx_seq := tx_seq tx |}.

(** A callback does on the wrapped snapshot what it does on the snapshot. *)
Lemma run_prog_lift p tx :
  @run_prog _ _ _ (shard_engine shard_order) p (lift_tx tx)
  = (lift_tx (run_prog p tx).1, (run_prog p tx).2).
Proof.
  revert tx. induction p as [e|key k IH|key value k IH|key k IH|key delta k IH|s e limit k IH|k IH];
    intros tx; cbn [run_prog].
  - done.
  - unfold tx_Get. destruct (isReserved key); [apply IH|]. cbn [lift_tx tx_snap snap_Get shard_engine].
    destruct (snap_Get (tx_snap tx) key) as [v|[|msg]]; [|apply IH..]. exact (IH _ (set_readSet tx _)).
  - unfold tx_Set. destruct (isReserved key); [apply IH|]. exact (IH _ (add_write tx _)).
  - unfold tx_Delete. destruct (isReserved key); [apply IH|]. exact (IH _ (add_write tx _)).
  - unfold tx_AtomicAdd. destruct (isReserved key); [apply IH|].
    cbn [lift_tx tx_snap snap_Get snap_GetVersion shard_engine].
    destruct (absent_ok [] (snap_Get (tx_snap tx) key)) as [v|er]; [|apply IH].
    destruct (0 <? delta); [exact (IH _ (add_write tx _))|].
    destruct (absent_ok zero_epoch (snap_GetVersion (tx_snap tx) key)) as [er|er]; [|apply IH].
    destruct (delta <? 0); [exact (IH _ (add_write (set_readSet tx _) _))|exact (IH _ (set_readSet tx _))].
  - apply IH.
  - unfold tx_AllocateNextSequence. cbn [lift_tx tx_snap tx_seq snap_Sequence shard_engine].
    destruct (tx_seq tx); [exact (IH _ (set_seq tx _))|apply IH].
Qed.

Lemma tx_proposal_lift tx wall counter :
  @tx_proposal _ _ _ (shard_engine shard_order) rs_order (lift_tx tx) wall counter
  = tx_proposal rs_order tx wall counter.
Proof. reflexivity. Qed.
End lift.

Section spec.
Context {Eng Snap Bat : Type} `{EngineLaws Eng Snap Bat}.
Context (shard_order : gmap nat (list bop) → list (nat * list bop)).
Context {Clock : Type} (clock_Tick : Clock → Clock * (Z * Z)).
Context (rs_order : readset → list ReadEntry).
Context (rs_order_perm : ∀ rs, rs_order rs ≡ₚ (map_to_list rs).*2).
Implicit Types n : ShardedNode Eng Clock.

Abbreviation speculate_sharded := (speculate_sharded shard_order clock_Tick rs_order).
Abbreviation runOnce_sharded := (runOnce_sharded shard_order clock_Tick rs_order).

Lemma set_sd_engine_id (s : shardedDirectProposer Eng) : set_sd_engine s (sd_engine s) = s.
Proof. by destruct s. Qed.

(** [speculate] in terms of the engine's own snapshot. *)
Lemma speculate_sharded_run n e snap fn :
  sn_engine n = EngOther e → eng_GetSnapshot e = inl snap →
  ∃ n', sn_proposer n' = sn_proposer n ∧ sn_closed n' = sn_closed n ∧ sn_metrics n' = sn_metrics n
    ∧ let '(tx, fnErr) := run_prog fn (new_tx snap (Some (sn_seqCounter n))) in
      match fnErr with
      | Some er => speculate_sharded n fn = (n', Finished (Some er))
      | None =>
          if empty tx then speculate_sharded n fn = (n', Finished None)
          else match validate tx with
               | Some er => speculate_sharded n fn = (n', Finished (Some er))
               | None => ∃ wall counter,
                   speculate_sharded n fn = (n', Submit (tx_proposal rs_order tx wall counter))
               end
      end.
Proof.
  intros He Es. unfold NodeSharded.speculate_sharded, sn_snapshot. rewrite He.
  cbn [eng_GetSnapshot shard_engine count_snapshot]. rewrite Es. unfold set_sn_engine.
  assert (set_sd_engine (sn_proposer n) (EngOther e) = sn_proposer n) as ->
    by (rewrite <- He; apply set_sd_engine_id).
  cbn [sn_seqCounter set_sn_proposer].
  change (new_tx (SnapOther snap) (Some (sn_seqCounter n)))
    with (lift_tx (new_tx snap (Some (sn_seqCounter n)))).

  rewrite run_prog_lift. destruct (run_prog fn _) as [tx fnErr]. cbn [fst snd].
  change (empty (lift_tx tx)) with (empty tx). change (validate (lift_tx tx)) with (validate tx).
  destruct fnErr as [er|]; [eexists; split; [|split; [|split; [|reflexivity]]]; done|].
  destruct (empty tx); [eexists; split; [|split; [|split; [|reflexivity]]]; done|].
  destruct (validate tx) as [er|]; [eexists; split; [|split; [|split; [|reflexivity]]]; done|].
  destruct (clock_Tick _) as [c [wall counter]]. eexists. split; [|split; [|split; [|by eexists _, _]]]; done.
Qed.

Lemma speculate_sharded_submit n e fn n1 p :
  sn_engine n = EngOther e → speculate_sharded n fn = (n1, Submit p) →
  ∃ snap tx wall counter, eng_GetSnapshot e = inl snap
    ∧ run_prog fn (new_tx snap (Some (sn_seqCounter n))) = (tx, None)
    ∧ p = tx_proposal rs_order tx wall counter ∧ sn_proposer n1 = sn_proposer n.
Proof.
  intros He Hs. destruct (eng_GetSnapshot e) as [snap|er] eqn:Es.
  2: { unfold NodeSharded.speculate_sharded, sn_snapshot in Hs. rewrite He in Hs.
       cbn [eng_GetSnapshot shard_engine] in Hs. by rewrite Es in Hs. }
  exists snap. destruct (speculate_sharded_run n e snap fn He Es) as (n' & Hp & _ & _ & Hr).
  destruct (run_prog fn _) as [tx [er|]]; [by rewrite Hs in Hr|].
  destruct (empty tx); [by rewrite Hs in Hr|]. destruct (validate tx); [by rewrite Hs in Hr|].
  destruct Hr as (wall & counter & Hr). rewrite Hs in Hr. simplify_eq. by exists tx, wall, counter.
Qed.

(** A transaction's proposal is one the sharded proposer handles, if it stays
    within one shard. *)
Lemma tx_shard_proposal snap fn seq tx err wall counter :
  run_prog fn (new_tx snap seq) = (tx, err) →
  let p := tx_proposal rs_order tx wall counter in
  single_shard (proposal_shard p) p → shard_proposal p.
Proof.
  intros Hrun p Hss. destruct (run_prog_wf _ _ _ _ (new_tx_wf _ _) Hrun) as [Hwf _].
  split; [apply Hwf|]. split; [done|]. apply Forall_forall. intros re Hin.
  by apply (readSetSlice_spec rs_order rs_order_perm tx re Hwf).
Qed.

(** C5. Transactions over the sharded proposer are serializable, on its path for
    engines other than the MVCC one. A callback that gets existing keys, sets and
    deletes is run on a node whose proposer is in a good state (every shard's
    epoch map agrees with the stored versions of its keys and its index is not
    below them), on a snapshot taken while no proposal is being applied, without
    a read error, and yields the proposal [p], all of whose keys belong to the
    shard it is sent to and which has at most 64 reads. Any other client
    proposals of one shard and at most 64 reads each are applied, one at a time;
    then [p] is committed. None is answered with an error of the engine and no
    shard's 64-bit index overflows. The store then holds exactly the writes of
    [p] on top of what it was, and running the callback on any engine with the
    store before, and without read errors, has the same result and makes the
    same writes. *)
Theorem sharded_transaction_serializable n0 e0 snap0 fn n1 p s s' ns :
  sn_engine n0 = EngOther e0 → sinv (sn_proposer n0) →
  eng_GetSnapshot e0 = inl snap0 → plain fn snap0 →
  speculate_sharded n0 fn = (n1, Submit p) →
  single_shard (proposal_shard p) p →
  rtc sstep (sn_proposer n0) s → shard_index s (proposal_shard p) + 1 < 2 ^ 64 →
  ProposeDirect s p = Ok (s', res_ok, ns) →
  sd_store s' = commit (sd_store s) (shard_index s (proposal_shard p) + 1, p) ∧
  ∀ e snap seq, eng_inv e → eng_abs e = sd_store s → eng_GetSnapshot e = inl snap → reads_ok snap →
    ∃ tx', run_prog fn (new_tx snap seq) = (tx', None) ∧ writes tx' = Writes p.
Proof.
  intros He Hs0 Hsn0 Hpl Hsp Hss Hr Hb Ha.
  destruct (speculate_sharded_submit n0 e0 fn n1 p He Hsp) as (s0 & tx & wall & counter & Es & Hrun & -> & _).
  rewrite Hsn0 in Es. injection Es as <-.
  pose proof (tx_shard_proposal _ _ _ _ _ wall counter Hrun Hss) as Hp.
  destruct (sharded_commit_valid _ _ _ _ _ _ Hs0 Hr Hp Hb Ha eq_refl) as (_ & [[E _]|(_ & Hst & Hv)]); [done|].
  split; [done|]. intros e snap seq Hi Hm Hsn Hok.
  destruct (si_engine _ Hs0) as (e0' & He' & Hi0). unfold sn_engine in He. rewrite He in He'. simplify_eq.
  assert (sd_store (sn_proposer n0) = eng_abs e0') as Est by (unfold sd_store; by rewrite He).
  destruct (run_prog_wf _ _ _ _ (new_tx_wf _ _) Hrun) as [Hwf Htx]. rewrite Est in Hv. cbn [tx_snap new_tx] in Htx.
  assert (eng_GetSnapshot e0' = inl (tx_snap tx)) as Hsn0' by by rewrite Htx.
  specialize (Hv (tx_proposal_reads rs_order rs_order_perm _ tx wall counter Hi0 Hwf Hsn0')).
  pose proof (plain_reads_unchanged rs_order rs_order_perm e0' _ _ _ _ _ _ _ _ Hrun Hpl Hv) as Hun.
  destruct (run_prog_rerun fn _ (new_tx snap seq) tx None Hrun Hpl) as (tx' & Hrun' & Hw).
  - intros k Hk. cbn [tx_snap new_tx]. eapply (snap_get_agree e snap e0' snap0); try done.
    + rewrite Hm. by apply Hun.
    + intros msg. by eapply run_prog_read_ok.
  - done.
  - by exists tx'.
Qed.

(** ** Alone on the node *)

Lemma ProposeDirect_answers s p : sinv s → ∃ s' r ns, ProposeDirect s p = Ok (s', r, ns).
Proof.
  intros Hs. destruct (ProposeDirect s p) as [[[s' r] ns]|er|] eqn:Ea; [by eauto|..]; exfalso.
  - unfold ProposeDirect in Ea. rewrite (si_open s Hs) in Ea. by case_match.
  - unfold ProposeDirect in Ea. rewrite (si_open s Hs) in Ea.
    destruct (lookup_lt_is_Some_2 (sd_shards s) (proposal_shard p)) as [sp Hsp]; [|by rewrite Hsp in Ea].
    rewrite (si_shards s Hs). unfold proposal_shard.
    repeat case_match; rewrite ?shardFor_conductor; first [apply shardFor_lt | unfold numShards; lia].
Qed.

Lemma ProposeDirect_commits s p s' r ns :
  sinv s → shard_proposal p → shard_index s (proposal_shard p) + 1 < 2 ^ 64 →
  reads_exact (sd_store s) (ReadSet p) → ProposeDirect s p = Ok (s', r, ns) → engine_error r = false →
  r = res_ok ∧ sinv s' ∧ sd_store s' = commit (sd_store s) (shard_index s (proposal_shard p) + 1, p).
Proof.
  intros Hs Hp Hb Hrf Ea Hno.
  destruct (ProposeDirect_spec s p s' r ns Hs Hp Hb Ea Hno) as (Hs' & _ & [(_ & _ & Hn)|(-> & Hst & _)]); [|done].
  destruct Hn. eapply Forall_impl; [exact Hrf|]. intros re [_ He]. left. lia.
Qed.

(** One attempt: it succeeds, or the engine refused the commit. *)
Lemma runOnce_alone n e snap fn tx n' err :
  sn_engine n = EngOther e → sinv (sn_proposer n) → eng_GetSnapshot e = inl snap → reads_ok snap →
  run_prog fn (new_tx snap (Some (sn_seqCounter n))) = (tx, None) →
  empty tx = false → validate tx = None →
  (∀ wall counter, let p := tx_proposal rs_order tx wall counter in
    single_shard (proposal_shard p) p ∧ shard_index (sn_proposer n) (proposal_shard p) + 1 < 2 ^ 64) →
  runOnce_sharded n fn = (n', err) →
  sn_metrics n' = sn_metrics n ∧ (err = None ∨ ∃ er, err = Some (ErrApplied er))
  ∧ (err = None → ∃ wall counter, sinv (sn_proposer n')
     ∧ (let p := tx_proposal rs_order tx wall counter in
        sd_store (sn_proposer n')
        = commit (sd_store (sn_proposer n)) (shard_index (sn_proposer n) (proposal_shard p) + 1, p))).
Proof.
  intros He Hs Hsn Hok Hrun Hne Hv Hss.
  destruct (speculate_sharded_run n e snap fn He Hsn) as (n2 & Hp2 & _ & Hm2 & Hr). rewrite Hrun, Hne, Hv in Hr.
  destruct Hr as (wall & counter & Hsp). set (p := tx_proposal rs_order tx wall counter) in *.
  destruct (Hss wall counter) as [Hsp1 Hb]. fold p in Hsp1, Hb.
  destruct (si_engine _ Hs) as (e' & He' & Hi). unfold sn_engine in He. rewrite He in He'. simplify_eq.
  destruct (run_prog_wf _ _ _ _ (new_tx_wf _ _) Hrun) as [Hwf Htx]. cbn [tx_snap new_tx] in Htx.
  assert (sd_store (sn_proposer n) = eng_abs e') as Est by (unfold sd_store; by rewrite He).
  assert (reads_exact (sd_store (sn_proposer n)) (ReadSet p)) as Hex
    by (rewrite Est; apply tx_proposal_exact; [done|done|done|by rewrite Htx|by rewrite Htx]).
  destruct (ProposeDirect_answers (sn_proposer n) p Hs) as (s' & r & ns & Ea).
  pose proof (tx_shard_proposal _ _ _ _ _ wall counter Hrun Hsp1) as Hpp.
  pose proof (ProposeDirect_commits _ _ _ _ _ Hs Hpp Hb Hex Ea) as Hcommit.
  unfold NodeSharded.runOnce_sharded. rewrite Hsp. unfold propose_sharded. rewrite Hp2, Ea.
  unfold sn_snapshot, sn_engine. rewrite He. cbn [eng_GetSnapshot shard_engine]. rewrite Hsn.
  cbn [sn_proposer set_sn_proposer]. intros [= <- <-].
  destruct (engine_error r) eqn:Hno.
  - split; [done|]. unfold engine_error in Hno. cbn [outcome]. destruct (ResErr r) as [er|]; [|done]. split; [by eauto|done].
  - destruct (Hcommit eq_refl) as (-> & Hs' & Hst). split; [done|]. split; [by left|]. intros _. exists wall, counter.
    destruct (si_engine _ Hs') as (e1 & He1 & _). unfold set_sn_engine. cbn [sn_proposer set_sn_proposer]. rewrite He1.
    cbn [close_snapshot]. rewrite <- He1, set_sd_engine_id. split; [done|exact Hst].
Qed.

Context (retry_Do : (ShardedNode Eng Clock → ShardedNode Eng Clock * option txErr) → (txErr → bool) →
                    (ShardedNode Eng Clock → ShardedNode Eng Clock) → ShardedNode Eng Clock →
                    ShardedNode Eng Clock * retryResult).
Context (maxAttempts : nat).
Context (retry_law : ∀ f retryIf onRetry n n' r,
  retry_Do f retryIf onRetry n = (n', r) → retry_run f retryIf onRetry maxAttempts n n' r).

Abbreviation RunInTx_sharded := (RunInTx_sharded shard_order clock_Tick rs_order retry_Do).

(** C15. [RunInTx] over the sharded proposer, alone on an open node and on the
    proposer's path for engines other than the MVCC one: in a good state (every
    shard's epoch map agrees with the stored versions of its keys and its index
    is not below them and does not overflow), a callback that succeeds with valid
    writes, all of whose keys belong to the shard its proposal is sent to and
    which has at most 64 reads, the snapshot and its reads not failing, is
    committed at the first attempt. Unless the engine refuses the commit, no
    error is returned, one transaction is counted, and the store is the old one
    with the callback's proposal executed. *)
Theorem RunInTx_sharded_commits n e snap fn tx n' err :
  sn_closed n = false → sn_engine n = EngOther e → sinv (sn_proposer n) →
  eng_GetSnapshot e = inl snap → reads_ok snap →
  run_prog fn (new_tx snap (Some (sn_seqCounter n))) = (tx, None) →
  empty tx = false → validate tx = None →
  (∀ wall counter, let p := tx_proposal rs_order tx wall counter in
    single_shard (proposal_shard p) p ∧ shard_index (sn_proposer n) (proposal_shard p) + 1 < 2 ^ 64) →
  RunInTx_sharded n fn = (n', err) → not_refused err →
  err = None ∧ ∃ wall counter, sinv (sn_proposer n')
    ∧ (let p := tx_proposal rs_order tx wall counter in
       sd_store (sn_proposer n')
       = commit (sd_store (sn_proposer n)) (shard_index (sn_proposer n) (proposal_shard p) + 1, p))
    ∧ TransactionsTotal <$> sn_metrics n' = (fun m => u64 (TransactionsTotal m + 1)) <$> sn_metrics n.
Proof.
  intros Hc He Hs Hsn Hok Hrun Hne Hv Hss. unfold NodeSharded.RunInTx_sharded. rewrite Hc.
  destruct (retry_Do _ _ _ n) as [n1 r] eqn:Er. apply retry_law in Er. intros Hret Hnr.
  destruct (runOnce_sharded n fn) as [n2 err0] eqn:Eo.
  destruct (runOnce_alone n e snap fn tx n2 err0) as (Hm & Hcase & Hres); [done..|].
  inversion Er as [k ? ? Ef|k ? ? er Ef Hif|? ? er Ef Hif|k ? n3 ? ? er Ef Hif]; subst; rewrite Eo in Ef;
    simplify_eq; destruct Hcase as [?|[e' ?]]; simplify_eq.
  - destruct Hres as (wall & counter & Hs' & Hst); [done|]. split; [done|]. exists wall, counter.
    split_and!; [exact Hs'|exact Hst|]. cbn. rewrite Hm. by destruct (sn_metrics n).
  - by destruct (Hnr e').
Qed.
End spec.
