(* ===== verification/NodeMvcc.v ===== *)
(** * Transactions on the sharded multi-version engine

    The fast path of the sharded proposer stores the version record of a key in
    the shard of the transaction (src/conductor/sharded_direct.go), while a
    snapshot looks for it in the shard of the record's own name
    (src/engine/memory/mvcc.go). The two never coincide, so a snapshot reports
    version 0 for every key, and a transaction that reads what was written before
    conflicts at every attempt. *)

From S2P Require Import Prelude Types Wire EngineSpec Shard Iter BTree Memory Dump Mvcc MvccSpec.
From S2P Require Import Fsm Occ Direct Tx Node NodeSpec Reopen Sharded ShardedSpec Raft Batching Scenarios.
From S2P Require Import ShardedScenarios NodeProps NodeScenarios NodeSharded.

(** The record of a key is never in the key's own shard. *)
Lemma versionKey_other_shard k : shardFor (versionKey k) ≠ shardFor k.
Proof. intros H. apply shardFor_prefix in H. vm_compute in H. discriminate H. Qed.

(** ** What the fast path writes *)

Lemma mvcc_writes_keys idx ws writes buf ke :
  let '(writes', _, ke') := mvcc_writes idx ws writes buf ke in
  (∃ l, writes' = writes ++ l ∧ ∀ b o, o ∈ l →
     ∃ w, w ∈ ws ∧ (bop_key (deref_op b o) = we_Key w ∨ bop_key (deref_op b o) = versionKey (we_Key w)))
  ∧ ke' = epochs_after idx ws ke.
Proof.
  revert writes buf ke. induction ws as [|w ws IH]; intros writes buf ke; cbn [mvcc_writes].
  { split; [|done]. exists []. rewrite app_nil_r. split; [done|]. by intros b o ?%elem_of_nil. }
  set (ws1 := match write_op w with Some _ => _ | None => _ end).
  assert (∃ l, ws1 = writes ++ l ∧ ∀ b o, o ∈ l → bop_key (deref_op b o) = we_Key w) as (l1 & -> & H1).
  { subst ws1. destruct (write_op w) as [o|] eqn:E; [apply write_op_key in E|].
    - destruct o as [k v|k|k v]; simpl in E; subst k; eexists; (split; [reflexivity|]);
        intros b o ->%list_elem_of_singleton; done.
    - exists []. rewrite app_nil_r. split; [done|]. by intros b o ?%elem_of_nil. }
  specialize (IH ((writes ++ l1) ++ [WSet (versionKey (we_Key w)) (VEpochBuf 9)])
    (encodeEpochRecord (write_epoch idx w)) (<[we_Key w := write_epoch idx w]> ke)).
  destruct (mvcc_writes idx ws _ _ _) as [[writes' buf'] ke']. destruct IH as [(l & -> & Hl) ->]. split; [|done].
  exists (l1 ++ [WSet (versionKey (we_Key w)) (VEpochBuf 9)] ++ l). split; [by rewrite <- !app_assoc|].
  intros b o Ho. rewrite !elem_of_app, list_elem_of_singleton in Ho. destruct Ho as [Ho|[->|Ho]].
  - exists w. split; [by left|]. left. by apply H1.
  - exists w. split; [by left|by right].
  - destruct (Hl b o Ho) as (w' & Hin & Hk). exists w'. split; [by right|done].
Qed.

(** Every operation is on a written key, its record or the applied index. *)
Lemma mvcc_ops_keys idx ws ke o :
  o ∈ (mvcc_ops idx ws ke).1 →
  bop_key o = appliedKey
  ∨ ∃ w, w ∈ ws ∧ (bop_key o = we_Key w ∨ bop_key o = versionKey (we_Key w)).
Proof.
  unfold mvcc_ops. pose proof (mvcc_writes_keys idx ws [] (replicate 9 x00) ke) as Hs.
  destruct (mvcc_writes _ _ _ _ _) as [[writes buf] ke']. destruct Hs as [(l & -> & Hl) _]. cbn [fst].
  intros (wo & -> & Ho)%list_elem_of_fmap. apply elem_of_app in Ho as [Ho|Ho%list_elem_of_singleton].
  - right. by apply (Hl _ wo).
  - left. by subst.
Qed.

Lemma mvcc_ops_epochs idx ws ke : (mvcc_ops idx ws ke).2 = epochs_after idx ws ke.
Proof.
  unfold mvcc_ops. pose proof (mvcc_writes_keys idx ws [] (replicate 9 x00) ke) as Hs.
  destruct (mvcc_writes _ _ _ _ _) as [[writes buf] ke']. by destruct Hs as [_ ->].
Qed.

Lemma epochs_after_lookup idx ws ke k :
  Epoch (epoch_of (epochs_after idx ws ke) k)
  = if decide (k ∈ map we_Key ws) then idx else Epoch (epoch_of ke k).
Proof.
  revert ke. induction ws as [|w ws IH]; intros ke; [done|]. cbn [epochs_after foldl map].
  change (foldl _ ?k0 ws) with (epochs_after idx ws k0). rewrite IH. unfold epoch_of. rewrite lookup_insert.
  destruct (decide (k ∈ map we_Key ws)); destruct (decide (k ∈ we_Key w :: map we_Key ws)) as [Hi|Hi];
    rewrite elem_of_cons in Hi; repeat case_decide; naive_solver.
Qed.

(** ** Where the records are *)

(** Every record is in the shard of its key. *)
Definition records_filed (e : MVCCEngine) : Prop :=
  length (mv_shards e) = numShards
  ∧ ∀ i d k, mv_shards e !! i = Some d → is_Some (d !! versionKey k) → shardFor k = i.

Definition ops_of (ws : list WriteEntry) (ops : list bop) : Prop :=
  ∀ o, o ∈ ops → bop_key o = appliedKey
    ∨ ∃ w, w ∈ ws ∧ (bop_key o = we_Key w ∨ bop_key o = versionKey (we_Key w)).

(** [ApplyShardDirect] keeps the records filed, touches one shard only, and
    adds no user key that is not written. *)
Lemma ApplyShardDirect_filed e i ws ops e' c :
  records_filed e → (i < numShards)%nat → user_writes ws → Forall (fun w => shardFor (we_Key w) = i) ws →
  ops_of ws ops → mvcc_ApplyShardDirect e i ops = (e', c) →
  records_filed e'
  ∧ (∀ k, shardFor k ≠ i → lookup_entries e' k = lookup_entries e k)
  ∧ (∀ k, isReserved k = false → shardFor k = i → is_Some (lookup_entries e' k) →
       is_Some (lookup_entries e k) ∨ k ∈ map we_Key ws).
Proof.
  intros [Hl Hf] Hi Hu Hw Hops. unfold mvcc_ApplyShardDirect.
  set (q := u64 (seqCounter e + Z.of_nat (length ops))). intros [= <- <-].
  unfold user_writes in Hu. rewrite Forall_forall in Hu, Hw.
  assert (∀ k, shardFor k = i → lookup_entries e k = mv_shard (mv_shards e) i !! k) as Hle
    by (intros k <-; done).
  split; [split|split].
  - cbn [mv_shards]. by rewrite length_insert.
  - intros j d k. cbn [mv_shards]. rewrite list_lookup_insert. case_decide as E; [|apply Hf].
    destruct E as [<- _]. intros [= <-] [Hd|Hd]%append_ops_dom.
    + apply (Hf i (mv_shard (mv_shards e) i)); [apply mv_shard_lookup; lia|done].
    + apply list_elem_of_fmap in Hd as (o & Eo & Ho). destruct (Hops o Ho) as [Ea|(w & Hwi & [Ew|Ew])].
      * rewrite <- Eo in Ea. by apply versionKey_ne_applied in Ea.
      * specialize (Hu w Hwi). by rewrite <- Ew, <- Eo, isReserved_versionKey in Hu.
      * rewrite <- Eo in Ew. apply (inj versionKey) in Ew as ->. by apply Hw.
  - intros k Hk. unfold lookup_entries. cbn [mv_shards]. rewrite mv_shard_insert by lia.
    by rewrite decide_False by congruence.
  - intros k Hr Hk. rewrite Hle by done. unfold lookup_entries at 1. cbn [mv_shards].
    rewrite mv_shard_insert by lia. rewrite decide_True by done. intros [Hd|Hd]%append_ops_dom; [by left|right].
    apply list_elem_of_fmap in Hd as (o & Eo & Ho). destruct (Hops o Ho) as [Ea|(w & Hwi & [Ew|Ew])].
    + by rewrite Eo, Ea, isReserved_appliedKey in Hr.
    + rewrite Eo, Ew. by apply list_elem_of_fmap_2.
    + by rewrite Eo, Ew, isReserved_versionKey in Hr.
Qed.

(** ** Reachable states *)

Section mvcc.
Context {Eng Snap Bat : Type} `{StorageEngine Eng Snap Bat}.
Implicit Types s : shardedDirectProposer Eng.

(** The proposal writes unreserved keys of one shard. *)
Definition one_shard (p : Proposal) : Prop :=
  client_proposal p ∧ Forall (fun w => shardFor (we_Key w) = proposal_shard p) (Writes p).

(** A proposer just opened on a new engine. *)
Definition opened_mvcc (sp : SyncPolicy) (watchers : bool) (metrics : option Z) : shardedDirectProposer Eng :=
  {| sd_engine := EngMVCC (newMVCCEngine true); sd_shards := replicate numShards empty_shard;
     sd_closed := false; sd_syncPolicy := sp; sd_watchers := watchers; sd_metrics := metrics |}.

Lemma opened_mvcc_is_new sp watchers metrics :
  newShardedDirectProposer_mvcc (newMVCCEngine true) sp watchers metrics = Ok (opened_mvcc sp watchers metrics).
Proof.
  unfold newShardedDirectProposer_mvcc. rewrite mvcc_open_finds_no_versions. reflexivity.
Qed.

(** Proposals are applied, snapshots are taken and closed, retries are counted
    and the versions are compacted. *)
Inductive mstep s s' : Prop :=
  | mstep_propose p r ns :
      one_shard p → shard_index s (proposal_shard p) + 1 < 2 ^ 64 →
      ProposeDirect s p = Ok (s', r, ns) → mstep s s'
  | mstep_snapshot : s' = set_sd_engine s (count_snapshot (sd_engine s)) → mstep s s'
  | mstep_close : s' = set_sd_engine s (close_snapshot (sd_engine s)) → mstep s s'
  | mstep_count : s' = count_conflicts s → mstep s s'
  | mstep_compact e : sd_engine s = EngMVCC e → s' = set_sd_engine s (EngMVCC (Compact e).1) → mstep s s'.

(** A key that has entries has an epoch in the map of its shard. *)
Record minv s : Prop := {
  mi_engine : ∃ e, sd_engine s = EngMVCC e ∧ records_filed e
    ∧ (∀ k sp, isReserved k = false → sd_shards s !! shardFor k = Some sp →
         is_Some (lookup_entries e k) → 1 <= Epoch (epoch_of (sp_keyEpoch sp) k));
  mi_len : length (sd_shards s) = numShards;
  mi_open : sd_closed s = false;
  mi_index : ∀ i sp, sd_shards s !! i = Some sp → 0 <= sp_index sp;
}.

Lemma opened_minv sp watchers metrics : minv (opened_mvcc sp watchers metrics).
Proof.
  split; [|apply length_replicate|done|by intros i x [-> _]%lookup_replicate].
  exists (newMVCCEngine true). split; [done|]. split; [split; [apply length_replicate|]|].
  - intros i d k [-> _]%lookup_replicate. rewrite lookup_empty. by intros [].
  - intros k x _ _. unfold lookup_entries, mv_shard. cbn [mv_shards newMVCCEngine].
    rewrite lookup_replicate_2 by apply shardFor_lt. simpl. rewrite lookup_empty. by intros [].
Qed.

(** Anything that only changes counters. *)
Lemma minv_counters s s' e e' :
  minv s → sd_engine s = EngMVCC e → sd_engine s' = EngMVCC e' → mv_shards e' = mv_shards e →
  sd_shards s' = sd_shards s → sd_closed s' = sd_closed s → minv s'.
Proof.
  intros [(e0 & He & Hf & Hk) Hn Ho Hi] E E' Em Es Ec. rewrite E in He. simplify_eq.
  split; rewrite ?Es, ?Ec; try done. exists e'. unfold lookup_entries, records_filed. rewrite Em. done.
Qed.

(** Replacing the state of one shard. *)
Lemma minv_update s s' i sp sp' e e' :
  minv s → sd_engine s = EngMVCC e → sd_shards s !! i = Some sp →
  sd_engine s' = EngMVCC e' → records_filed e' →
  sd_shards s' = <[i := sp']> (sd_shards s) → sd_closed s' = false → 0 <= sp_index sp' →
  (∀ k, shardFor k ≠ i → lookup_entries e' k = lookup_entries e k) →
  (∀ k, isReserved k = false → shardFor k = i → is_Some (lookup_entries e' k) →
     1 <= Epoch (epoch_of (sp_keyEpoch sp') k)) →
  minv s'.
Proof.
  intros [(e0 & He & Hf & Hk) Hn Ho Hi] E Hsp E' Hf' Hs' Hc' Hx Hother Hsame.
  rewrite E in He. simplify_eq. apply lookup_lt_Some in Hsp as Hlt.
  split; [|by rewrite Hs', length_insert|done|].
  - exists e'. split; [done|]. split; [done|]. intros k x Hr Hl Hd. rewrite Hs' in Hl.
    destruct (decide (shardFor k = i)) as [Ek|Ek].
    + rewrite Ek, list_lookup_insert_eq in Hl by done. simplify_eq. by apply Hsame.
    + rewrite list_lookup_insert_ne in Hl by done. rewrite Hother in Hd by done. by eapply Hk.
  - intros j x Hl. rewrite Hs', list_lookup_insert in Hl. case_decide; [naive_solver|by eapply Hi].
Qed.

Lemma minv_propose s p s' r ns :
  minv s → one_shard p → shard_index s (proposal_shard p) + 1 < 2 ^ 64 →
  ProposeDirect s p = Ok (s', r, ns) → minv s'.
Proof.
  intros Hs [Hc Hw] Hb. pose proof Hs as [(e & He & Hf & Hk) Hn Ho Hi].
  unfold ProposeDirect. rewrite Ho. set (i := proposal_shard p) in *.
  destruct (sd_shards s !! i) as [sp|] eqn:Esp; [|done]. intros [= Ha].
  unfold shard_index in Hb. rewrite Esp in Hb. simpl in Hb. pose proof (Hi i sp Esp) as Hx0.
  assert (i < numShards)%nat as Hin by (apply lookup_lt_Some in Esp; lia).
  unfold applyInline in Ha. rewrite (u64_small (sp_index sp + 1)) in Ha by width_lia.
  destruct (if decide _ then _ else _).
  - simplify_eq. eapply (minv_update s _ i sp); try done; [cbn; lia|].
    intros k Hr Ek. cbn [sp_keyEpoch]. apply Hk; [done|by rewrite Ek].
  - rewrite He in Ha. destruct (mvcc_ops _ _ _) as [ops ke] eqn:Eops.
    assert (ops_of (Writes p) ops) as Hops.
    { intros o Ho'. eapply mvcc_ops_keys. rewrite Eops. exact Ho'. }
    destruct (mvcc_ApplyShardDirect e i ops) as [e' c] eqn:Ead.
    destruct (ApplyShardDirect_filed e i (Writes p) ops e' c Hf Hin (client_user _ Hc) Hw Hops Ead)
      as (Hf' & Hother & Hsame).
    simplify_eq. eapply (minv_update s _ i sp); try done; [cbn; lia|].
    intros k Hr Ek Hd. cbn [sp_keyEpoch].
    assert (ke = epochs_after (sp_index sp + 1) (Writes p) (sp_keyEpoch sp)) as ->
      by (rewrite <- mvcc_ops_epochs, Eops; done).
    rewrite epochs_after_lookup. case_decide as Hkw; [lia|].
    apply Hk; [done|by rewrite Ek|]. by destruct (Hsame k Hr Ek Hd).
Qed.

Lemma minv_compact s e :
  minv s → sd_engine s = EngMVCC e → minv (set_sd_engine s (EngMVCC (Compact e).1)).
Proof.
  intros [(e0 & He & [Hl Hf] & Hk) Hn Ho Hi] E. rewrite E in He. simplify_eq.
  split; try done. exists (Compact e0).1. split; [done|]. split; [split|].
  - cbn [Compact fst mv_shards]. by rewrite length_map.
  - intros i d k. cbn [Compact fst mv_shards]. rewrite list_lookup_fmap. intros (d0 & Hd & ->)%fmap_Some.
    rewrite lookup_omap. intros [es (es0 & He0 & _)%bind_Some]. eapply Hf; [exact Hd|]. by rewrite He0.
  - intros k sp Hr Hsp Hs. apply Hk; [done|done|]. unfold lookup_entries, mv_shard in *.
    cbn [Compact fst mv_shards] in Hs. rewrite list_lookup_fmap in Hs.
    destruct (mv_shards e0 !! shardFor k) as [d|]; simpl in Hs |- *; [|by rewrite lookup_empty in Hs; destruct Hs].
    rewrite lookup_omap in Hs. destruct Hs as [es (es0 & He0 & _)%bind_Some]. by rewrite He0.
Qed.

Lemma mreach_minv s0 s : minv s0 → rtc mstep s0 s → minv s.
Proof.
  intros H0 Hr. induction Hr as [|s1 s2 s3 Hst _ IH]; [done|]. apply IH.
  pose proof H0 as [(e & He & _) _ _ _].
  destruct Hst as [p r ns Hp Hb Ha| -> | -> | -> |e' He' ->].
  - by eapply minv_propose.
  - rewrite He. by eapply (minv_counters s1).
  - rewrite He. by eapply (minv_counters s1).
  - by eapply (minv_counters s1).
  - by apply minv_compact.
Qed.

(** In any reachable state every snapshot reports version 0 for every key. *)
Lemma minv_version s e q k :
  minv s → sd_engine s = EngMVCC e → mvccSnapshot_GetVersion e q k = zero_epoch.
Proof.
  intros [(e0 & He & [Hl Hf] & _) _ _ _] E. rewrite E in He. simplify_eq.
  unfold mvccSnapshot_GetVersion, snapshot_entry.
  destruct (lookup_entries e0 (versionKey k)) as [es|] eqn:Ee; [|done].
  destruct (versionKey_other_shard k). symmetry. unfold lookup_entries in Ee.
  eapply Hf; [apply mv_shard_lookup; rewrite Hl; apply shardFor_lt|]. by rewrite Ee.
Qed.
End mvcc.

(** ** Callbacks on snapshots that agree *)

Section agree.
Context {Eng Snap Bat : Type} `{StorageEngine Eng Snap Bat}.

Definition with_snap (tx : dpxTx Snap) (snap : Snap) : dpxTx Snap :=
  {| tx_snap := snap; readSet := readSet tx; writes := writes tx; tx_seq := tx_seq tx |}.

Lemma run_prog_agree p tx snap :
  plain p (tx_snap tx) → (∀ k, snap_Get snap k = snap_Get (tx_snap tx) k) →
  run_prog p (with_snap tx snap) = (with_snap (run_prog p tx).1 snap, (run_prog p tx).2).
Proof.
  revert tx. induction p as [e|key k IH|key value k IH|key k IH|key delta k IH|s e limit k IH|k IH];
    intros tx Hp Hg; cbn [run_prog plain] in Hp |- *; try done.
  - unfold tx_Get. destruct (isReserved key); [by apply IH|]. cbn [with_snap tx_snap]. rewrite Hg.
    destruct (snap_Get (tx_snap tx) key); [|done]. by apply (IH _ (set_readSet tx _)).
  - unfold tx_Set. destruct (isReserved key); [by apply IH|]. by apply (IH _ (add_write tx _)).
  - unfold tx_Delete. destruct (isReserved key); [by apply IH|]. by apply (IH _ (add_write tx _)).
Qed.

(** A plain callback reads existing keys, and leaves the counter alone. *)
Lemma run_prog_plain p tx tx' err :
  run_prog p tx = (tx', err) → plain p (tx_snap tx) →
  tx_snap tx' = tx_snap tx ∧ tx_seq tx' = tx_seq tx
  ∧ ∀ k re, readSet tx' !! k = Some re →
      readSet tx !! k = Some re
      ∨ (re = deferred_read k ∧ isReserved k = false ∧ ∃ v, snap_Get (tx_snap tx) k = inl v).
Proof.
  revert tx. induction p as [e|key k IH|key value k IH|key k IH|key delta k IH|s e limit k IH|k IH];
    intros tx Hrun Hp; cbn [run_prog plain] in Hrun, Hp; try done.
  - simplify_eq. split_and!; try done. intros k re. by left.
  - unfold tx_Get in Hrun. destruct (isReserved key) eqn:Ek; [by eapply IH|].
    destruct (snap_Get (tx_snap tx) key) as [v|] eqn:Ev; [|done].
    destruct (IH _ _ Hrun Hp) as (H1 & H2 & H3). split_and!; [done|done|]. intros k' re Hk'.
    destruct (H3 k' re Hk') as [Hl|Hr]; [|by right]. cbn [readSet set_readSet] in Hl.
    rewrite lookup_insert in Hl. case_decide; [|by left]. right. simplify_eq. split_and!; [done|done|by exists v].
  - unfold tx_Set in Hrun. destruct (isReserved key); by destruct (IH _ _ Hrun Hp) as (H1 & H2 & H3).
  - unfold tx_Delete in Hrun. destruct (isReserved key); by destruct (IH _ _ Hrun Hp) as (H1 & H2 & H3).
Qed.
End agree.

(** ** Every attempt conflicts *)

Section starve.
Context {Eng Snap Bat : Type} `{StorageEngine Eng Snap Bat}.
Context (shard_order : gmap nat (list bop) → list (nat * list bop)).
Context {Clock : Type} (clock_Tick : Clock → Clock * (Z * Z)).
Context (rs_order : readset → list ReadEntry).
Context (rs_order_perm : ∀ rs, rs_order rs ≡ₚ (map_to_list rs).*2).
Context (retry_Do : (ShardedNode Eng Clock → ShardedNode Eng Clock * option txErr) → (txErr → bool) →
                    (ShardedNode Eng Clock → ShardedNode Eng Clock) → ShardedNode Eng Clock →
                    ShardedNode Eng Clock * retryResult).
Context (maxAttempts : nat).
Context (retry_law : ∀ f retryIf onRetry n n' r,
  retry_Do f retryIf onRetry n = (n', r) → retry_run f retryIf onRetry maxAttempts n n' r).
Implicit Types n : ShardedNode Eng Clock.
#[local] Existing Instance shard_engine.

Abbreviation runOnce_sharded := (runOnce_sharded shard_order clock_Tick rs_order).
Abbreviation RunInTx_sharded := (RunInTx_sharded shard_order clock_Tick rs_order retry_Do).
Abbreviation run_on := (@run_prog (shardEngine Eng) (shardSnap Snap) (shardBatch Bat)
  (shard_engine shard_order)).
Abbreviation plain_on := (@plain (shardEngine Eng) (shardSnap Snap) (shardBatch Bat)
  (shard_engine shard_order)).

(** The node holds the data [D] committed up to [L]; only counters may differ. *)
Definition holds (D : list mvccShard) (L q : Z) n : Prop :=
  minv (sn_proposer n) ∧ sn_seqCounter n = q
  ∧ ∃ e, sn_engine n = EngMVCC e ∧ mv_shards e = D ∧ lastCommitted e = L.

(** A proposal with a stale plain read of its own shard is refused, and changes
    nothing but counters. *)
Lemma ProposeDirect_stale (s : shardedDirectProposer Eng) p k :
  minv s → shardFor k = proposal_shard p → isReserved k = false →
  (∃ e, sd_engine s = EngMVCC e ∧ is_Some (lookup_entries e k)) →
  (length (ReadSet p) ≤ maxStackShadow)%nat →
  {| re_Key := k; re_Epoch := 0; re_IsDebit := false |} ∈ ReadSet p →
  ∃ s', ProposeDirect s p = Ok (s', res_conflict, []) ∧ minv s' ∧ sd_engine s' = sd_engine s.
Proof.
  intros Hs Ek Hr (e & He & Hd) Hlen Hin. pose proof Hs as [(e0 & He0 & Hf & Hk) Hn Ho Hi].
  rewrite He in He0. simplify_eq. unfold ProposeDirect. rewrite Ho.
  destruct (lookup_lt_is_Some_2 (sd_shards s) (proposal_shard p)) as [sp Hsp].
  { rewrite Hn, <- Ek. apply shardFor_lt. }
  rewrite Hsp. unfold applyInline. rewrite decide_True by done.
  assert (1 <= Epoch (epoch_of (sp_keyEpoch sp) k)) as Hep by (apply Hk; [done|by rewrite Ek|done]).
  assert (stack_conflict (sp_keyEpoch sp) [] (ReadSet p) false = true) as ->.
  { destruct (stack_conflict _ _ _ _) eqn:E; [done|]. apply stack_conflict_exact in E.
    rewrite Forall_forall in E. destruct (E _ Hin) as [Hle|Hex]; cbn [re_Key re_Epoch] in *; [lia|].
    unfold exempt in Hex. by rewrite andb_false_r in Hex. }
  eexists. split; [reflexivity|]. split; [|done].
  eapply (minv_update s _ (proposal_shard p) sp); try done; [cbn; apply Z.mod_pos_bound; lia|].
  intros k' Hr' Ek'. cbn [sp_keyEpoch]. apply Hk; [done|by rewrite Ek'].
Qed.

Lemma mvccSnapshot_Get_shards e e' q k :
  mv_shards e' = mv_shards e → mvccSnapshot_Get e' q k = mvccSnapshot_Get e q k.
Proof. intros E. unfold mvccSnapshot_Get, snapshot_entry, lookup_entries. by rewrite E. Qed.

Lemma holds_counters D L q n n' :
  holds D L q n → sn_seqCounter n' = q → sd_shards (sn_proposer n') = sd_shards (sn_proposer n) →
  sd_closed (sn_proposer n') = sd_closed (sn_proposer n) →
  (∃ e', sn_engine n' = EngMVCC e' ∧ mv_shards e' = D ∧ lastCommitted e' = L) → holds D L q n'.
Proof.
  intros (Hm & Hq & e & He & Hd & Hl) Hq' Hs Hc (e' & He' & Hd' & Hl').
  split; [|split; [done|by exists e']]. eapply (minv_counters (sn_proposer n)); try done. by rewrite Hd', Hd.
Qed.

(** The proposal of a plain callback that read [k] contains its stale read. *)
Lemma stale_read_submitted e0 q seq fn tx k wall counter :
  run_on fn (new_tx (SnapMVCC e0 q) seq) = (tx, None) → plain_on fn (SnapMVCC e0 q) →
  (∀ k', mvccSnapshot_GetVersion e0 q k' = zero_epoch) → is_Some (readSet tx !! k) →
  isReserved k = false ∧ is_Some (mvccSnapshot_Get e0 q k)
  ∧ deferred_read k ∈ ReadSet (@tx_proposal _ _ _ (shard_engine shard_order) rs_order tx wall counter)
  ∧ (length (ReadSet (@tx_proposal _ _ _ (shard_engine shard_order) rs_order tx wall counter))
     = size (readSet tx))%nat.
Proof.
  intros Hrun Hp Hz [re Hk]. destruct (run_prog_plain fn _ _ _ Hrun Hp) as (Hsn & _ & Hrs).
  destruct (Hrs k re Hk) as [Hn|(-> & Hr & Hg)]; [cbn [readSet new_tx] in Hn; by rewrite lookup_empty in Hn|].
  split; [done|]. split; [destruct Hg as [v Hg]; cbn [tx_snap new_tx snap_Get shard_engine] in Hg;
    destruct (mvccSnapshot_Get e0 q k); [done|by cbn in Hg]|]. cbn [ReadSet tx_proposal]. unfold readSetSlice.
  rewrite decide_False by (intros Hs%map_size_empty_inv; by rewrite Hs, lookup_empty in Hk).
  split.
  - apply list_elem_of_fmap. exists (deferred_read k). split.
    + unfold hydrate. rewrite Hsn. cbn. by rewrite Hz.
    + rewrite rs_order_perm. apply list_elem_of_fmap. exists (k, deferred_read k).
      split; [done|]. by apply elem_of_map_to_list.
  - rewrite length_map, rs_order_perm, length_map. by rewrite length_map_to_list.
Qed.

Lemma runOnce_metrics n fn n' err : runOnce_sharded n fn = (n', err) → sn_metrics n' = sn_metrics n.
Proof.
  unfold NodeSharded.runOnce_sharded, speculate_sharded, propose_sharded.
  intros Ho. repeat case_match; simplify_eq; done.
Qed.

(** What the callback must do: read [k], then write first in the shard of [k]. *)
Definition reads_own_shard (fn : txProg) (snap : shardSnap Snap) (q : Z) (k : bytes) : Prop :=
  plain_on fn snap ∧ ∃ tx w ws, run_on fn (new_tx snap (Some q)) = (tx, None)
    ∧ writes tx = w :: ws ∧ validate tx = None ∧ (size (readSet tx) ≤ maxStackShadow)%nat
    ∧ is_Some (readSet tx !! k) ∧ shardFor k = shardFor (we_Key w).

(** The callback does the same on an engine with the same data. *)
Lemma reads_own_shard_agree fn e e' L q k :
  mv_shards e' = mv_shards e → reads_own_shard fn (SnapMVCC e L) q k →
  reads_own_shard fn (SnapMVCC e' L) q k.
Proof.
  intros E (Hp & tx & w & ws & Hrun & Hrest).
  assert (∀ k, mvccSnapshot_Get e' L k = mvccSnapshot_Get e L k) as Hg
    by (intros; by apply mvccSnapshot_Get_shards).
  split.
  - clear Hrun. revert Hp. induction fn as [er|key c IH|key value c IH|key c IH|key delta c IH|s0 t c l IH|c IH];
      cbn [plain]; try done.
    + destruct (isReserved key); [apply IH|]. cbn [snap_Get shard_engine]. rewrite Hg.
      destruct (mvccSnapshot_Get e L key); [apply IH|done].
    + apply IH.
    + apply IH.
  - pose proof (run_prog_agree fn (new_tx (SnapMVCC e L) (Some q)) (SnapMVCC e' L) Hp
      (fun k => f_equal found (Hg k))) as Ha.
    rewrite Hrun in Ha. by exists (with_snap tx (SnapMVCC e' L)), w, ws.
Qed.

Lemma attempt_conflicts D L q n fn k e0 :
  mv_shards e0 = D → reads_own_shard fn (SnapMVCC e0 L) q k → holds D L q n →
  ∃ n', runOnce_sharded n fn = (n', Some ErrConflict) ∧ holds D L q n'.
Proof.
  intros He0 Hown Hh. pose proof Hh as (Hm & Hq & e & He & Hd & Hl).
  destruct (reads_own_shard_agree fn e0 e L q k) as (Hp & tx & w & ws & Hrun & Hw & Hv & Hsz & Hk & Ek);
    [by rewrite Hd|done|].
  unfold NodeSharded.runOnce_sharded, speculate_sharded, sn_snapshot. rewrite He.
  cbn [eng_GetSnapshot shard_engine mvcc_GetSnapshot fst snd count_snapshot]. rewrite Hl.
  cbn [sn_seqCounter set_sn_engine set_sn_proposer]. rewrite Hq, Hrun.
  assert (empty tx = false) as -> by (unfold empty; by rewrite Hw). rewrite Hv.
  set (n1 := set_sn_seq _ _). assert (sn_seqCounter n1 = q) as Hq1.
  { cbn. destruct (run_prog_plain fn _ _ _ Hrun Hp) as (_ & -> & _). done. }
  destruct (clock_Tick _) as [c [wall counter]].
  destruct (stale_read_submitted e L (Some q) fn tx k wall counter Hrun Hp) as (Hr & Hg & Hin & Hlen);
    [intros k'; by eapply minv_version|done|].
  assert (holds D L q n1) as Hh1 by (eapply (holds_counters D L q n); try done; by eexists).
  assert (is_Some (lookup_entries e k)) as Hle.
  { unfold mvccSnapshot_Get, snapshot_entry in Hg. destruct (lookup_entries e k); [done|by destruct Hg]. }
  destruct (ProposeDirect_stale (sn_proposer n1)
    (@tx_proposal _ _ _ (shard_engine shard_order) rs_order tx wall counter) k) as (s' & Ha & Hm' & He').
  - apply Hh1.
  - unfold proposal_shard. cbn [Writes tx_proposal]. by rewrite Hw, shardFor_conductor.
  - done.
  - eexists. split; [reflexivity|]. exact Hle.
  - by rewrite Hlen.
  - exact Hin.
  - unfold propose_sharded. cbn [sn_proposer set_sn_clock]. rewrite Ha.
    eexists. split; [reflexivity|].
    assert (sn_engine (set_sn_proposer (set_sn_clock n1 c) s') = sn_engine n1) as Es by exact He'.
    destruct Hh1 as (_ & _ & e1 & He1 & Hd1 & Hl1). rewrite Es, He1. cbn [close_snapshot].
    eapply (holds_counters D L q (set_sn_proposer n1 s')); try done; [|by eexists].
    split; [done|]. split; [done|]. exists e1. split; [by rewrite <- He1|done].
Qed.

(** C16. On an open node over the sharded multi-version engine, alone, a
    transaction does not commit whose callback gets existing keys, sets and
    deletes without an error, reads at most 64 keys, among them a key [k] (which
    is therefore stored: written since the engine was created and not deleted),
    and whose first write is in the shard of [k]: in every state reached from a
    new engine by proposals that write in one shard each, snapshots and
    compactions, without overflow of a shard's 64-bit index, [RunInTx] spends all
    its attempts and returns the exhaustion error, and the data stays as it
    is. *)
Theorem mvcc_read_write_starves sp watchers metrics n e fn k :
  rtc mstep (opened_mvcc sp watchers metrics) (sn_proposer n) →
  sn_closed n = false → sn_engine n = EngMVCC e →
  reads_own_shard fn (SnapMVCC e (lastCommitted e)) (sn_seqCounter n) k →
  ∃ n' e', RunInTx_sharded n fn = (n', Some ErrConflictExhausted)
    ∧ sn_engine n' = EngMVCC e' ∧ mv_shards e' = mv_shards e
    ∧ ConflictExhausted <$> sn_metrics n' = (fun m => u64 (ConflictExhausted m + 1)) <$> sn_metrics n.
Proof.
  intros Hr Hc He Hown. unfold NodeSharded.RunInTx_sharded. rewrite Hc.
  destruct (retry_Do _ _ _ n) as [n1 r] eqn:Er. apply retry_law in Er.
  assert (holds (mv_shards e) (lastCommitted e) (sn_seqCounter n) n) as Hh.
  { split; [|split; [done|by exists e]]. eapply mreach_minv; [|exact Hr]. apply opened_minv. }
  assert (∀ m n0, retry_run (fun n => runOnce_sharded n fn) is_conflict on_retry_sharded m n0 n1 r →
    holds (mv_shards e) (lastCommitted e) (sn_seqCounter n) n0 →
    r = RetryExhausted ∧ holds (mv_shards e) (lastCommitted e) (sn_seqCounter n) n1
    ∧ sn_metrics n1 = sn_metrics n0) as Hall.
  { clear Hh Er. intros m n0 Hrr. induction Hrr as [m n0 n2 Ef|m n0 n2 er Ef|n0 n2 er Ef _|m n0 n3 n2 r er Ef _ _ IH];
      intros Hh; destruct (attempt_conflicts _ _ _ n0 fn k e eq_refl Hown Hh) as (n' & Eo & Hh').
    - congruence.
    - rewrite Eo in Ef. simplify_eq.
    - rewrite Eo in Ef. simplify_eq. split_and!; [done|done|]. exact (runOnce_metrics _ _ _ _ Eo).
    - rewrite Eo in Ef. simplify_eq. destruct IH as (-> & Hn & Hmm).
      + destruct Hh' as (Hm' & Hq' & e' & He' & Hd' & Hl').
        eapply (holds_counters _ _ _ n3); try done; [|by exists e'].
        split; [done|]. split; [done|]. by exists e'.
      + split_and!; [done|done|]. rewrite Hmm. exact (runOnce_metrics _ _ _ _ Eo). }
  destruct (Hall _ _ Er Hh) as (-> & (_ & _ & e' & He' & Hd' & _) & Hm').
  do 2 eexists. split; [reflexivity|]. split; [exact He'|]. split; [done|].
  cbn [sn_metrics add_sn_metrics]. rewrite Hm'. by destruct (sn_metrics n).
Qed.
End starve.
