(* ===== verification/NodeShardedScenarios.v ===== *)
(** * Transactions over concrete sharded engines

    Witnesses for the theorems on the node over the sharded proposer: the sharded
    in-memory engine, where a read-modify-write commits, and the sharded
    multi-version engine, where it does not. *)

From S2P Require Import Prelude Types Wire EngineSpec Shard Iter BTree Memory Dump Mvcc MvccSpec.
From S2P Require Import Fsm Occ Direct Tx Node NodeSpec Reopen Sharded ShardedSpec Raft Batching Scenarios.
From S2P Require Import ShardedScenarios NodeProps NodeScenarios NodeSharded NodeShardedSpec NodeMvcc.

Abbreviation MemShardedNode := (ShardedNode MemEngine unit).

Definition shards_list (m : gmap nat (list bop)) : list (nat * list bop) := map_to_list m.

Definition sharded_node (s : MemSharded) : MemShardedNode :=
  {| sn_proposer := s; sn_closed := false; sn_seqCounter := 0; sn_clock := tt;
     sn_metrics := Some {| TransactionsTotal := 0; ConflictExhausted := 0; BackupTotal := 0 |} |}.

(** The proposer after [a] := 1. *)
Definition after_set_a (s : MemSharded) : MemSharded :=
  match ProposeDirect s (prop [] [set_a 1]) with Ok (s', _, _) => s' | _ => s end.

(** ** The sharded in-memory engine *)

Definition s_one : MemSharded := after_set_a fresh_sharded.
Definition e_one : MemEngine := match sd_engine s_one with EngOther e => e | EngMVCC _ => NewSharded end.

Lemma set_a_shard_proposal : shard_proposal (prop [] [set_a 1]).
Proof.
  split; [apply (bool_decide_unpack _); vm_compute; exact I|]. split; [|constructor].
  split; [|split]; [|constructor|apply (bool_decide_unpack _); vm_compute; exact I].
  constructor; [vm_compute; reflexivity|constructor].
Qed.

Lemma s_one_sinv : sinv s_one ∧ sd_store s_one = commit ∅ (1, prop [] [set_a 1]).
Proof.
  destruct (ProposeDirect_answers fresh_sharded (prop [] [set_a 1]) fresh_sharded_sinv) as (s' & r & ns & E).
  assert (r = res_ok) as Er.
  { apply (f_equal (fun x => match x with Ok (_, r, _) => Some r | _ => None end)) in E.
    assert (Some r = Some res_ok) as E' by (rewrite <- E; vm_compute; reflexivity).
    injection E' as ->. reflexivity. }
  destruct (ProposeDirect_commits fresh_sharded (prop [] [set_a 1]) s' r ns) as (_ & Hs & Hst).
  - apply fresh_sharded_sinv.
  - apply set_a_shard_proposal.
  - vm_compute. reflexivity.
  - constructor.
  - exact E.
  - by rewrite Er.
  - unfold s_one, after_set_a. rewrite E. split; [exact Hs|]. rewrite Hst, sd_store_fresh. reflexivity.
Qed.

(** What the callback that reads [a] and sets it to 5 submits. *)
Lemma prop_5_single : single_shard (proposal_shard prop_5) prop_5.
Proof.
  split; [|split]; [| |apply (bool_decide_unpack _); vm_compute; exact I];
    (constructor; [vm_compute; reflexivity|constructor]).
Qed.

Lemma s_one_engine : sn_engine (sharded_node s_one) = EngOther e_one.
Proof.
  destruct s_one_sinv as [[(e & He & _) _ _ _ _] _]. unfold sn_engine, e_one. cbn [sn_proposer sharded_node].
  rewrite He. reflexivity.
Qed.

Lemma sharded_transaction_serializable_witness :
  ∃ tx', run_prog (get_set_a 5) (new_tx (mem_snap e_one) None) = (tx', None)
         ∧ writes tx' = Writes prop_5.
Proof.
  destruct (speculate_sharded shards_list tick rs_list (sharded_node s_one) (get_set_a 5)) as [n1 sp] eqn:Es.
  assert (sp = Submit prop_5) as Esp
    by (change sp with ((n1, sp).2); rewrite <- Es; vm_compute; reflexivity).
  subst sp.
  destruct (ProposeDirect s_one prop_5) as [[[s' r] ns]| |] eqn:E;
    [|apply (f_equal (fun x => match x with Ok _ => true | _ => false end)) in E;
      vm_compute in E; discriminate E..].
  assert (r = res_ok) as Er.
  { apply (f_equal (fun x => match x with Ok (_, r, _) => Some r | _ => None end)) in E.
    assert (Some r = Some res_ok) as E' by (rewrite <- E; vm_compute; reflexivity).
    injection E' as ->. reflexivity. }
  subst r.
  destruct (sharded_transaction_serializable shards_list tick rs_list rs_list_perm (sharded_node s_one) e_one (mem_snap e_one)
    (get_set_a 5) n1 prop_5 s_one s' ns) as [_ H].
  - apply s_one_engine.
  - apply s_one_sinv.
  - reflexivity.
  - vm_compute. exact I.
  - exact Es.
  - apply prop_5_single.
  - apply rtc_refl.
  - vm_compute. reflexivity.
  - exact E.
  - destruct s_one_sinv as [[(e & He & Hi) _ _ _ _] _].
    assert (e = e_one) as -> by (unfold e_one; rewrite He; reflexivity).
    apply (H e_one); [exact Hi| |reflexivity|apply mem_reads_ok]. unfold sd_store. rewrite He. reflexivity.
Defined.

Lemma RunInTx_sharded_commits_witness :
  (RunInTx_sharded shards_list tick rs_list (retry_loop 4) (sharded_node s_one) (get_set_a 5)).2 = None.
Proof.
  destruct (run_prog (get_set_a 5) (new_tx (mem_snap e_one) (Some 0))) as [tx err] eqn:Er.
  assert (err = None) as -> by (change err with ((tx, err).2); rewrite <- Er; vm_compute; reflexivity).
  assert (ReadSet (tx_proposal rs_list tx 0 0) = ReadSet prop_5 ∧ writes tx = Writes prop_5) as [Hr Hw].
  { change tx with ((tx, @None txErr).1). rewrite <- Er. vm_compute. split; reflexivity. }
  destruct (RunInTx_sharded shards_list tick rs_list (retry_loop 4) (sharded_node s_one) (get_set_a 5)) as [n' rerr] eqn:E.
  assert (not_refused rerr) as Hnr.
  { assert (rerr = None) as -> by (change rerr with ((n', rerr).2); rewrite <- E; vm_compute; reflexivity). intros e. discriminate. }
  destruct (RunInTx_sharded_commits shards_list tick rs_list rs_list_perm (retry_loop 4) 5%nat
    (retry_loop_law 4) (sharded_node s_one) e_one (mem_snap e_one) (get_set_a 5) tx n' rerr) as [Hn _].
  - reflexivity.
  - apply s_one_engine.
  - apply s_one_sinv.
  - reflexivity.
  - apply mem_reads_ok.
  - exact Er.
  - unfold empty. rewrite Hw. reflexivity.
  - unfold validate. rewrite Hw. reflexivity.
  - intros wall counter. cbn zeta.
    assert (tx_proposal rs_list tx wall counter
            = {| ReadSet := ReadSet prop_5; Writes := Writes prop_5; TimestampWall := wall;
                 TimestampCounter := counter |}) as ->.
    { unfold tx_proposal. cbn [ReadSet tx_proposal] in Hr. by rewrite Hr, Hw. }
    split; [apply prop_5_single|]. vm_compute. reflexivity.
  - exact E.
  - exact Hnr.
  - exact Hn.
Defined.

(** ** The sharded multi-version engine *)

Definition m_one : MemSharded := after_set_a (opened_mvcc SyncNone false None).

Lemma mvcc_read_write_starves_witness :
  (RunInTx_sharded shards_list tick rs_list (retry_loop 4) (sharded_node m_one) (get_set_a 5)).2
  = Some ErrConflictExhausted.
Proof.
  assert (rtc mstep (opened_mvcc SyncNone false None) m_one) as Hr.
  { apply rtc_once. destruct (ProposeDirect (opened_mvcc SyncNone false None) (prop [] [set_a 1]))
      as [[[s' r] ns]| |] eqn:E;
      [|apply (f_equal (fun x => match x with Ok _ => true | _ => false end)) in E;
        vm_compute in E; discriminate E..].
    eapply (mstep_propose _ _ (prop [] [set_a 1]) r ns).
    - split; [apply set_a_shard_proposal|]. constructor; [vm_compute; reflexivity|constructor].
    - vm_compute. reflexivity.
    - unfold m_one, after_set_a. rewrite E. reflexivity. }
  destruct (sd_engine m_one) as [e|e] eqn:Ee;
    [|apply (f_equal (fun x => match x with EngMVCC _ => true | _ => false end)) in Ee;
      vm_compute in Ee; discriminate Ee].
  assert (e = mvcc_of (sd_engine m_one)) as He by (rewrite Ee; reflexivity).
  destruct (mvcc_read_write_starves shards_list tick rs_list rs_list_perm (retry_loop 4) 5%nat
    (retry_loop_law 4) SyncNone false None (sharded_node m_one) e (get_set_a 5) k_a) as (n' & e' & E & _).
  - exact Hr.
  - reflexivity.
  - exact Ee.
  - rewrite He. split; [vm_compute; exact I|].
    destruct (@run_prog _ _ _ (shard_engine shards_list) (get_set_a 5)
      (new_tx (SnapMVCC (mvcc_of (sd_engine m_one)) (lastCommitted (mvcc_of (sd_engine m_one))))
         (Some (sn_seqCounter (sharded_node m_one))))) as [tx err] eqn:Erun.
    exists tx, (set_a 5), []. change tx with ((tx, err).1).
    assert (err = None) as -> by (change err with ((tx, err).2); rewrite <- Erun; vm_compute; reflexivity).
    rewrite <- Erun. split_and!; try (vm_compute; reflexivity).
    + apply (bool_decide_unpack _). vm_compute. exact I.
    + apply (bool_decide_unpack _). vm_compute. exact I.
  - rewrite E. reflexivity.
Defined.
